(* ===== verification/_CoqProject ===== *)
-Q . S2P
Prelude.v
OrdMap.v
Heap.v
SkipList.v
MemTable.v
Versions.v
GoIO.v
IOLogic.v
Bloom.v
Wal.v
SSTable.v
Table.v
Merge.v
Metrics.v
FileNames.v
MetricsText.v
MetricsScrape.v
EngineState.v
Engine.v
EngineLogic.v
EngineInv.v
EngineRead.v
EngineFlush.v
EngineLogs.v
EngineWrite.v
EngineCompact.v
EngineOpen.v
Store.v
EngineRestart.v
Scan.v
ScanRead.v
EngineFrame.v
EngineClose.v
EngineHazards.v
Interleave.v
Bench.v
Linear.v
InterleaveInv.v
Readers.v
InterleaveFrame.v
Agree.v
InterleaveWhole.v
InterleaveSteps.v
ReadersInv.v
ReadersBase.v
ReadersSteps.v
ReadersWhole.v
BenchRun.v
EngineRaces.v
EngineExamples.v
InterleaveExamples.v
BenchExamples.v
ReadersExamples.v
Server.v
ServerStore.v
ServerTotal.v
Repl.v
ReplStore.v
ReplMain.v
ServerExamples.v
ReplExamples.v
