(* ===== verification/Prelude.v ===== *)
(** * Flume: a verification development of the LSM-tree key-value store

    ** The program

    Flume (src/, Go) keeps byte-string keys and values in a directory.  A write
    goes to a write-ahead log and to an in-memory table; a full in-memory table is
    swapped for a new one and flushed to a sorted file at level 0 by a background
    worker; a second worker merges the files of a level and the next into one.
    A read looks in the active in-memory table, in those waiting to be flushed,
    and in the files, and takes the version with the greatest sequence number it
    may see.  Opening a directory reads the files and replays the logs.  Over the
    engine there are an HTTP server and an interactive command line.

    ** Files

    Values and effects:
    - Prelude.v: bytes and their order, 64-bit arithmetic, list lemmas, hints;
    - GoIO.v: files with their synced prefix, faults of system calls, errors, the
      monad [M], buffered writers and readers; IOLogic.v: its proof rules;
    - OrdMap.v, Versions.v: the abstract ordered map and the abstract multi-version
      store the lower layers refine;
    - Heap.v: container/heap.

    One file per package of the source, each with its data, its functions under
    their own names, their refinement and error theorems, and witnesses:
    - SkipList.v (skiplist/skiplist.go), MemTable.v (memtable/memtable.go),
      Bloom.v (bloom/bloom.go), Wal.v (wal/wal.go), SSTable.v (sstable/sstable.go),
      Table.v (sstable/table.go), Merge.v (sstable/merge.go);
    - Metrics.v, MetricsText.v, MetricsScrape.v (metrics/metrics.go and
      engine/engine_metrics.go): the values, their text, and a reader of it;
    - FileNames.v, EngineState.v, Engine.v, Scan.v (engine/engine.go): names and the
      directory listing; the struct and its options; the methods, as compositions
      of their critical sections; range scans;
    - Server.v (server/server.go): routes, handlers, access log;
    - Repl.v, Bench.v (main.go): flags, commands and the loop of the command line;
      the benchmark's workers.

    The engine's theory:
    - EngineLogic.v: the judgement [wp] over the engine's methods; EngineFrame.v: the
      judgement [calm], what methods leave alone;
    - EngineInv.v: [inv c e w], the engine [e] holds the records [c] in the world
      [w], and [layered], their order in time; EngineLogs.v: [durable], what the
      directory holds;
    - EngineRead.v, EngineWrite.v, EngineFlush.v, EngineCompact.v, EngineOpen.v,
      EngineClose.v, ScanRead.v: what each method does to them;
    - Store.v: sequences of methods and worker rounds against a finite map, and
      snapshots against the map at the time they were taken; EngineRestart.v: the
      same across crashes and restarts;
    - Interleave.v: a machine whose steps are the critical sections of writers,
      snapshots, reads and the two workers; Linear.v: what its calls may observe,
      and the limits; InterleaveInv.v, InterleaveFrame.v, InterleaveSteps.v: the
      invariant of its steps, what they leave alone, and that they keep it;
    - Readers.v: the machine with reads and scans that hold no lock, one lookup, one
      opened source or one call of [Next] a step;
      ReadersInv.v, ReadersBase.v, ReadersSteps.v: its invariant (exact reference
      counts, among others), what the machine's steps do to what readers use, and
      that all steps keep the invariant;
    - Agree.v, InterleaveWhole.v, ReadersWhole.v: methods that run alike, and that the
      pieces of the two machines, with nobody in between, are the methods;
    - EngineHazards.v: theorems on where the engine loses or hides data; EngineRaces.v:
      histories in which it breaks a promise;
    - ServerStore.v, ServerTotal.v: the server over the engine; ReplStore.v,
      ReplMain.v: the command line over the engine, and whole runs of the program;
      BenchRun.v: the benchmark, as a client of the interleaved engine;
    - EngineExamples.v, InterleaveExamples.v, BenchExamples.v, ReadersExamples.v,
      ServerExamples.v, ReplExamples.v: concrete stores, to which the theorems apply.

    ** How state and operations correspond to the code

    A Go struct is a record with the same fields, a slice a list, a map a [gmap], a
    machine integer an [N] or [Z] reduced where the code's arithmetic can wrap.
    Objects that are shared are numbers into a store: skip-list nodes, and the
    SSTables with their reference counts, which the table list, compaction plans
    and scans point to; [compact_commit] keeps the aliasing of the slice it filters in
    place.  A function that can panic returns an option or runs in [M].  A method of
    the engine runs in [E]: it returns its error as a value and keeps the state
    changes it made before failing.  Every fallible system call draws from a list of
    faults over which the theorems quantify; a crash keeps of each file at least the
    prefix that was synced, followed by anything.

    Code outside the repository is a parameter: DEFLATE ([Flate], used through its
    round trip), the float64 functions that size Bloom filters ([FloatMath]), the
    text of large floats ([FloatText]), the random bits of skip lists.  [Examples]
    modules and files instantiate them.  container/heap, sort.Slice, CRC32, FNV, bufio, net/http's
    multiplexer and strconv are modelled as the code uses them.

    ** What the theorems show

    - The store is a map: when no system call fails, every read returns the last write,
      for any sequence of writes, reads, snapshots, flushes and compactions (Store.v),
      for requests to the server, one at a time (ServerStore.v), and for lines of a
      session (ReplStore.v); a scan returns what point reads do (ScanRead.v).
    - Interleaved calls observe one map, to which each write is applied at one moment
      of its call, for any order of the critical sections in which no system call fails
      and MemTables are handed to the flush worker in the order of their rotations
      (InterleaveSteps.v); the benchmark then counts what its workers drew, and no error
      (BenchRun.v).  Under the same conditions reads that hold no lock answer as the map
      did at some moment of their call, and scans return one map there was while they
      were being opened, however late [Next] is called; they look in no closed table, and
      a table is closed when neither the list nor a call has it any more (ReadersSteps.v).
    - The machines are the program cut into pieces: taken one after the other with nobody
      in between, the pieces give what the methods of Engine.v and Scan.v give, whatever
      fails (ReadersWhole.v; a check of the model rather than of the code).
    - Nothing acknowledged is lost: after any number of whole calls, requests and rounds of
      the workers in which no system call failed, and a crash that loses any unsynced data,
      opening gives the map back (EngineRestart.v, ServerStore.v); so does closing and
      opening, whatever rounds the workers still make (EngineClose.v, ReplMain.v).  Within
      an append and within the writing of a table any system call may fail: what was
      acknowledged is replayed (Wal.v), and a table is there whole or not at all
      (SSTable.v).
    - Snapshots keep seeing the map they were taken from, but for keys overwritten while
      the version they see is in the active MemTable (Store.v); what a session prints in a
      snapshot for such a key is never newer than the snapshot (ReplStore.v); snapshots are
      given back (ReplMain.v).
    - A flush changes no read, whether it succeeds or fails (EngineFlush.v); a compaction
      that returns nil changes no read of an open snapshot or of the present, and leaves
      exactly the versions that are still wanted (EngineCompact.v); a compaction that fails
      can lose a table (EngineHazards.v).  Close leaves no log (EngineClose.v).
    - Each lower layer refines its abstract counterpart: skip list, MemTable, Bloom
      filter, log, table file, merge, metrics text; with round trips for what is encoded
      and with the errors for what is damaged.
    - Every request is answered with a documented status, whatever fails (ServerTotal.v);
      refused requests change nothing, a closed store answers 503, and every request with
      an endpoint is logged (ServerStore.v).
    - Where the code breaks its promises: for every store that was closed and opened again
      a write can be hidden, and a failed compaction drops a table (theorems of
      EngineHazards.v); the log's reader drops what it takes for too long (Wal.v); single
      histories show the rest (EngineHazards.v, EngineRaces.v, and the file of the
      package concerned).

    ** Bounds and fuel

    Loops that are not structural take fuel: the skip list's searches the number of
    nodes, the parsers of logs and tables the length of the file, the merge
    and scans the number of records; each file proves that its fuel suffices, and the
    theorems conclude that a result is returned.  Theorems about the running engine
    assume what the code does: sequence numbers and file generations below 2^64, keys and
    values below the 512 MiB the log's reader accepts, tables small enough for their
    32-bit fields.

    ** Not modelled

    - Concurrency beyond the interleaving of critical sections and lookups: the locks
      inside the skip list, the log, the tables and the metrics make each of their
      methods one step that never blocks; opening, closing and crashes are not
      interleaved with calls, nor the single lookups of reads and scans of snapshots.
    - Directory entries that a crash loses: creations, renames and removals are on disk
      when the call returns, although the code syncs files and never a directory.
    - Reads through a closed descriptor, which fail in Go: a descriptor is the contents of
      its file.  ReadersSteps.v shows that reads and scans hold what they look in.
    - The JSON encoding of bodies, the listeners, signals and logging: the standard
      library's.  The values handed to them are modelled.
    - Text beyond ASCII on the command line and in quoted labels.
    - The timings and the text of the benchmark's report.
    - Tests and build files. *)

From Stdlib Require Strings.Byte.
From stdpp Require Import base gmap sets list strings numbers fin_maps sorting.

(** ** Bytes and byte slices *)

Abbreviation bytes := (list Byte.byte).

#[export] Instance byte_eq_dec : EqDecision Byte.byte := Byte.byte_eq_dec.

Definition byte_of_N (n : N) : Byte.byte := default Byte.x00 (Byte.of_N (n mod 256)).

#[export] Program Instance byte_countable : Countable Byte.byte :=
  inj_countable' Byte.to_N byte_of_N _.
Next Obligation.
  intros b. unfold byte_of_N. rewrite N.mod_small.
  - by rewrite Byte.of_to_N.
  - pose proof (Byte.to_N_bounded b). lia.
Qed.

(** [bytes.Compare]: the lexicographic order on byte slices. *)
Fixpoint bytes_compare (a b : bytes) : comparison :=
  match a, b with
  | [], [] => Eq
  | [], _ :: _ => Lt
  | _ :: _, [] => Gt
  | x :: a', y :: b' =>
      match N.compare (Byte.to_N x) (Byte.to_N y) with
      | Eq => bytes_compare a' b'
      | c => c
      end
  end.

Definition bytes_lt (a b : bytes) : Prop := bytes_compare a b = Lt.
Definition bytes_le (a b : bytes) : Prop := bytes_compare a b <> Gt.
Definition bytes_ltb (a b : bytes) : bool := match bytes_compare a b with Lt => true | _ => false end.
Definition bytes_leb (a b : bytes) : bool := match bytes_compare a b with Gt => false | _ => true end.
Definition bytes_eqb (a b : bytes) : bool := bool_decide (a = b).

Declare Scope flume_scope.
Delimit Scope flume_scope with flume.
Infix "<b" := bytes_lt (at level 70) : flume_scope.
Infix "<=b" := bytes_le (at level 70) : flume_scope.
Open Scope flume_scope.

Create HintDb flume.

Lemma bytes_compare_eq a b : bytes_compare a b = Eq <-> a = b.
Proof.
  revert b; induction a as [|x a IH]; intros [|y b]; simpl; try done.
  destruct (N.compare_spec (Byte.to_N x) (Byte.to_N y)) as [E|E|E].
  - rewrite IH.
    assert (x = y) as ->.
    { pose proof (Byte.of_to_N x) as Hx. pose proof (Byte.of_to_N y) as Hy.
      rewrite E in Hx. congruence. }
    naive_solver.
  - split; [done|]. intros [= -> ->]. lia.
  - split; [done|]. intros [= -> ->]. lia.
Qed.

Lemma bytes_compare_antisym a b : bytes_compare a b = CompOpp (bytes_compare b a).
Proof.
  revert b; induction a as [|x a IH]; intros [|y b]; simpl; try done.
  rewrite N.compare_antisym. destruct (N.compare (Byte.to_N y) (Byte.to_N x)); simpl; auto.
Qed.

Lemma bytes_lt_trans a b c : a <b b -> b <b c -> a <b c.
Proof.
  unfold bytes_lt.
  revert b c; induction a as [|x a IH]; intros [|y b] [|z c]; simpl; try done.
  destruct (N.compare_spec (Byte.to_N x) (Byte.to_N y)) as [E|E|E];
    destruct (N.compare_spec (Byte.to_N y) (Byte.to_N z)) as [F|F|F]; try done;
    destruct (N.compare_spec (Byte.to_N x) (Byte.to_N z)) as [G|G|G]; try done; try lia; eauto.
Qed.

Lemma bytes_lt_irrefl a : ~ a <b a.
Proof. unfold bytes_lt. pose proof (proj2 (bytes_compare_eq a a) eq_refl). congruence. Qed.

#[export] Instance bytes_lt_strict : StrictOrder bytes_lt.
Proof. split; [exact bytes_lt_irrefl | exact bytes_lt_trans]. Qed.

#[export] Instance bytes_lt_dec : RelDecision bytes_lt.
Proof. unfold bytes_lt. intros a b. apply _. Defined.

#[export] Instance bytes_le_dec : RelDecision bytes_le.
Proof. unfold bytes_le. intros a b. apply _. Defined.

Lemma bytes_trichotomy a b : a <b b \/ a = b \/ b <b a.
Proof.
  unfold bytes_lt. destruct (bytes_compare a b) eqn:E; auto.
  - right; left. by apply bytes_compare_eq.
  - right; right. rewrite bytes_compare_antisym, E. done.
Qed.

Lemma bytes_le_lteq a b : a <=b b <-> a <b b \/ a = b.
Proof.
  unfold bytes_le, bytes_lt. rewrite <- bytes_compare_eq.
  destruct (bytes_compare a b); naive_solver.
Qed.

Lemma bytes_nlt_ge a b : ~ a <b b <-> b <=b a.
Proof.
  unfold bytes_le, bytes_lt. rewrite (bytes_compare_antisym b a).
  destruct (bytes_compare a b); simpl; naive_solver.
Qed.

Lemma bytes_nle_gt a b : ~ a <=b b <-> b <b a.
Proof.
  unfold bytes_le, bytes_lt. rewrite (bytes_compare_antisym b a).
  destruct (bytes_compare a b); simpl; naive_solver.
Qed.

Lemma bytes_le_lt_trans a b c : a <=b b -> b <b c -> a <b c.
Proof. rewrite bytes_le_lteq. intros [?| ->]; eauto using bytes_lt_trans. Qed.

Lemma bytes_lt_le_trans a b c : a <b b -> b <=b c -> a <b c.
Proof. rewrite bytes_le_lteq. intros ? [?| <-]; eauto using bytes_lt_trans. Qed.

Lemma bytes_le_refl a : a <=b a.
Proof. apply bytes_le_lteq. by right. Qed.

Lemma bytes_le_trans a b c : a <=b b -> b <=b c -> a <=b c.
Proof.
  rewrite !bytes_le_lteq. intros [?| ->] [?| ->]; eauto using bytes_lt_trans.
Qed.

Lemma bytes_lt_le a b : a <b b -> a <=b b.
Proof. rewrite bytes_le_lteq. auto. Qed.

Lemma bytes_lt_ne a b : a <b b -> a <> b.
Proof. intros H ->. by apply bytes_lt_irrefl in H. Qed.

Lemma bytes_lt_asym a b : a <b b -> b <b a -> False.
Proof. intros H1 H2. eapply bytes_lt_irrefl, bytes_lt_trans; eauto. Qed.

Lemma bytes_ltb_lt a b : bytes_ltb a b = true <-> a <b b.
Proof. unfold bytes_ltb, bytes_lt. destruct (bytes_compare a b); naive_solver. Qed.

Lemma bytes_ltb_ge a b : bytes_ltb a b = false <-> b <=b a.
Proof. rewrite <- bytes_nlt_ge, <- bytes_ltb_lt. by destruct (bytes_ltb a b). Qed.

Lemma bytes_leb_le a b : bytes_leb a b = true <-> a <=b b.
Proof. unfold bytes_leb, bytes_le. destruct (bytes_compare a b); naive_solver. Qed.

Lemma bytes_eqb_eq a b : bytes_eqb a b = true <-> a = b.
Proof. unfold bytes_eqb. by rewrite bool_decide_eq_true. Qed.

Lemma bytes_eqb_ne a b : bytes_eqb a b = false <-> a <> b.
Proof. unfold bytes_eqb. by rewrite bool_decide_eq_false. Qed.

Lemma bytes_nil_le a : [] <=b a.
Proof. unfold bytes_le. by destruct a. Qed.

#[export] Hint Resolve bytes_le_refl bytes_lt_le bytes_lt_trans bytes_le_trans
  bytes_le_lt_trans bytes_lt_le_trans bytes_lt_ne bytes_nil_le : flume.
#[export] Hint Immediate bytes_lt_asym : flume.

(** [border] turns every byte-order test and comparison in the context into
    the relations [<b] and [<=b] and closes the goals the order decides. *)
Ltac border_step :=
  match goal with
  | H : bytes_ltb _ _ = true |- _ => apply bytes_ltb_lt in H
  | H : bytes_ltb _ _ = false |- _ => apply bytes_ltb_ge in H
  | H : bytes_leb _ _ = true |- _ => apply bytes_leb_le in H
  | H : bytes_eqb _ _ = true |- _ => apply bytes_eqb_eq in H; subst
  | H : bytes_eqb _ _ = false |- _ => apply bytes_eqb_ne in H
  | H : bytes_compare ?a ?b = Lt |- _ => change (a <b b) in H
  | H : ?a <b ?a |- _ => destruct (bytes_lt_irrefl _ H)
  | H1 : ?a <b ?b, H2 : ?b <b ?a |- _ => destruct (bytes_lt_asym _ _ H1 H2)
  | H1 : ?a <b ?b, H2 : ?b <=b ?a |- _ => apply bytes_nlt_ge in H2; destruct (H2 H1)
  | H : ?a <=b ?b, N : ?a <> ?b |- _ =>
      assert_fails (assert (a <b b) by assumption);
      assert (a <b b) by (apply bytes_le_lteq in H; destruct H; [assumption|contradiction])
  end.
Ltac border := repeat border_step; eauto 4 with flume.

(** ** Machine integers

    An unsigned w-bit integer is an [N] below [2 ^ w]; [u32] and [u64] are the
    Go conversions (and the wrap-around of unsigned arithmetic); [i64] is the
    wrap-around of Go's signed 64-bit arithmetic. *)

Definition u32 (n : N) : N := (n mod 2 ^ 32)%N.
Definition u64 (n : N) : N := (n mod 2 ^ 64)%N.
Definition i64 (z : Z) : Z := ((z + 2 ^ 63) mod 2 ^ 64 - 2 ^ 63)%Z.

(** [^uint64(0)]. *)
Definition max_u64 : N := (2 ^ 64 - 1)%N.

(** [binary.LittleEndian]: [le_bytes w n] are the [w] bytes PutUint stores and
    [le_N] is what Uint reads back. *)
Fixpoint le_bytes (w : nat) (n : N) : bytes :=
  match w with
  | O => []
  | S w' => byte_of_N n :: le_bytes w' (n / 256)%N
  end.

Fixpoint le_N (bs : bytes) : N :=
  match bs with
  | [] => 0
  | b :: bs' => Byte.to_N b + 256 * le_N bs'
  end%N.

(** The Go slice expression [bs[lo:hi]], for [lo <= hi <= len(bs)]. *)
Definition slice (lo hi : nat) (bs : bytes) : bytes := take (hi - lo) (drop lo bs).

Lemma to_N_byte_of_N n : Byte.to_N (byte_of_N n) = (n mod 256)%N.
Proof.
  unfold byte_of_N. destruct (Byte.of_N (n mod 256)) as [b|] eqn:E; simpl.
  - by apply Byte.to_of_N in E.
  - apply Byte.of_N_None_iff in E. pose proof (N.mod_lt n 256). lia.
Qed.

Lemma byte_of_to_N b : byte_of_N (Byte.to_N b) = b.
Proof.
  unfold byte_of_N. pose proof (Byte.to_N_bounded b).
  rewrite N.mod_small by lia. by rewrite Byte.of_to_N.
Qed.

Lemma to_N_inj x y : Byte.to_N x = Byte.to_N y -> x = y.
Proof. intros E. rewrite <- (byte_of_to_N x), E. apply byte_of_to_N. Qed.

Lemma length_le_bytes w n : length (le_bytes w n) = w.
Proof. revert n; induction w as [|w IH]; intros n; cbn [le_bytes length]; [done|]. by rewrite IH. Qed.

Lemma le_N_le_bytes w n : le_N (le_bytes w n) = (n mod 2 ^ (8 * N.of_nat w))%N.
Proof.
  revert n; induction w as [|w IH]; intros n; cbn [le_bytes le_N].
  - by rewrite N.mod_1_r.
  - rewrite IH, to_N_byte_of_N.
    replace (8 * N.of_nat (S w))%N with (8 + 8 * N.of_nat w)%N by lia.
    rewrite N.pow_add_r. change (2 ^ 8)%N with 256%N.
    rewrite N.Div0.mod_mul_r. lia.
Qed.

Lemma le_N_lt bs : (le_N bs < 2 ^ (8 * N.of_nat (length bs)))%N.
Proof.
  induction bs as [|b bs IH]; cbn [le_N length]; [done|].
  replace (8 * N.of_nat (S (length bs)))%N with (8 + 8 * N.of_nat (length bs))%N by lia.
  rewrite N.pow_add_r. change (2 ^ 8)%N with 256%N.
  pose proof (Byte.to_N_bounded b). nia.
Qed.

Lemma le_N_small w n : (n < 2 ^ (8 * N.of_nat w))%N -> le_N (le_bytes w n) = n.
Proof. intros. rewrite le_N_le_bytes. by apply N.mod_small. Qed.

Lemma le_bytes_le_N bs : le_bytes (length bs) (le_N bs) = bs.
Proof.
  induction bs as [|b bs IH]; cbn [le_bytes le_N length]; [done|].
  pose proof (Byte.to_N_bounded b).
  f_equal.
  - apply to_N_inj. rewrite to_N_byte_of_N.
    rewrite (N.mul_comm 256), N.Div0.mod_add, N.mod_small by lia. done.
  - rewrite (N.mul_comm 256), N.div_add, N.div_small, N.add_0_l by lia. done.
Qed.

#[global] Arguments le_bytes : simpl never.
#[global] Arguments le_N : simpl never.

Lemma length_slice lo hi bs : hi <= length bs -> length (slice lo hi bs) = hi - lo.
Proof. intros. unfold slice. rewrite length_take, length_drop. lia. Qed.

Lemma slice_app_mid (a b c : bytes) lo hi :
  lo = length a -> hi = length a + length b -> slice lo hi (a ++ b ++ c) = b.
Proof.
  intros -> ->. unfold slice. rewrite drop_app_length.
  replace (length a + length b - length a) with (length b) by lia.
  apply take_app_length.
Qed.


Lemma slice_app_l (b c : bytes) hi : hi = length b -> slice 0 hi (b ++ c) = b.
Proof. intros ->. unfold slice. rewrite Nat.sub_0_r, drop_0. apply take_app_length. Qed.

Lemma u32_lt n : (u32 n < 2 ^ 32)%N.
Proof. apply N.mod_lt. lia. Qed.

Lemma u64_lt n : (u64 n < 2 ^ 64)%N.
Proof. apply N.mod_lt. lia. Qed.

Lemma u64_small n : (n < 2 ^ 64)%N -> u64 n = n.
Proof. apply N.mod_small. Qed.

Lemma u32_small n : (n < 2 ^ 32)%N -> u32 n = n.
Proof. apply N.mod_small. Qed.

Lemma testbit_above a n m : (a < 2 ^ n)%N -> (n <= m)%N -> N.testbit a m = false.
Proof.
  intros Ha Hm. rewrite <- (N.mod_small a (2 ^ n)) by done. by apply N.mod_pow2_bits_high.
Qed.

Lemma lt_pow2_testbit a n : (forall m, (n <= m)%N -> N.testbit a m = false) -> (a < 2 ^ n)%N.
Proof.
  intros H. assert (a = a mod 2 ^ n)%N as ->.
  { apply N.bits_inj. intros m. destruct (N.lt_ge_cases m n).
    - by rewrite N.mod_pow2_bits_low.
    - by rewrite N.mod_pow2_bits_high, H. }
  apply N.mod_lt. lia.
Qed.

Lemma lxor_lt a b n : (a < 2 ^ n -> b < 2 ^ n -> N.lxor a b < 2 ^ n)%N.
Proof.
  intros Ha Hb. apply lt_pow2_testbit. intros m Hm.
  by rewrite N.lxor_spec, !(testbit_above _ n) by done.
Qed.

Lemma shiftr_lt a k n : (a < 2 ^ n -> N.shiftr a k < 2 ^ n)%N.
Proof.
  intros Ha. apply lt_pow2_testbit. intros m Hm.
  rewrite N.shiftr_spec' , (testbit_above _ n) by lia. done.
Qed.

(** ** Lists *)

Lemma filter_Forall_id {A} (P : A -> Prop) `{!forall x, Decision (P x)} (l : list A) :
  Forall P l -> filter P l = l.
Proof. induction 1; [done|]. rewrite filter_cons_True; congruence. Qed.

Lemma filter_Forall_nil {A} (P : A -> Prop) `{!forall x, Decision (P x)} (l : list A) :
  Forall (fun x => ~ P x) l -> filter P l = [].
Proof. induction 1; [done|]. rewrite filter_cons_False; congruence. Qed.

Lemma Forall_filter {A} (P Q : A -> Prop) `{!forall x, Decision (Q x)} (l : list A) :
  Forall P l -> Forall P (filter Q l).
Proof.
  intros Hl. apply Forall_forall. intros x [_ Hx]%list_elem_of_filter.
  rewrite Forall_forall in Hl. auto.
Qed.

Lemma StronglySorted_filter {A} (R : A -> A -> Prop) (Q : A -> Prop)
    `{!forall x, Decision (Q x)} (l : list A) :
  StronglySorted R l -> StronglySorted R (filter Q l).
Proof.
  induction 1 as [|x l Hl IH Hx]; [constructor|].
  rewrite filter_cons. case_decide; [constructor|]; auto using Forall_filter.
Qed.

(** A test that is closed downwards splits a sorted list in two. *)
Lemma filter_split_mono {A} (R : A -> A -> Prop) (p : A -> bool) (l : list A) :
  (forall x y, R x y -> p y = true -> p x = true) -> StronglySorted R l ->
  l = filter (fun x => p x = true) l ++ filter (fun x => p x = false) l.
Proof.
  intros Hm. induction 1 as [|x l Hl IH Hx]; [done|].
  rewrite !filter_cons. destruct (p x) eqn:E; simpl.
  - by rewrite <- IH.
  - rewrite filter_Forall_nil; simpl.
    + by rewrite filter_Forall_id by (eapply Forall_impl; [exact Hx|]; intros y Hy; simpl;
        destruct (p y) eqn:Ey; [rewrite (Hm x y Hy Ey) in E|]; done).
    + eapply Forall_impl; [exact Hx|]. intros y Hy Ey. rewrite (Hm x y Hy Ey) in E. done.
Qed.

Lemma StronglySorted_NoDup {A} (R : A -> A -> Prop) (l : list A) :
  (forall x, ~ R x x) -> StronglySorted R l -> NoDup l.
Proof.
  intros Hirr. induction 1 as [|x l Hl IH Hx]; constructor; [|done].
  intros Hin. rewrite Forall_forall in Hx. by apply Hx, Hirr in Hin.
Qed.

Lemma StronglySorted_impl {A} (R S : A -> A -> Prop) (l : list A) :
  (forall x y, x ∈ l -> y ∈ l -> R x y -> S x y) -> StronglySorted R l -> StronglySorted S l.
Proof.
  intros HRS. induction 1 as [|x l Hl IH Hx]; constructor.
  - apply IH. intros y z Hy Hz. apply HRS; by right.
  - rewrite Forall_forall in Hx |- *. intros y Hy. apply HRS; [left|by right|auto].
Qed.

(** ** [sort.Search]

    The standard library's binary search, loop for loop: [i, j] bracket the
    answer and [h = (i + j) / 2] is probed. *)
Fixpoint search_loop (fuel : nat) (f : nat -> bool) (i j : nat) : nat :=
  match fuel with
  | O => i
  | S fuel' =>
      if i <? j then
        let h := Nat.div2 (i + j) in
        if f h then search_loop fuel' f i h else search_loop fuel' f (S h) j
      else i
  end.

Definition sort_Search (n : nat) (f : nat -> bool) : nat := search_loop n f 0 n.

Lemma search_loop_spec fuel f i j n :
  j - i <= fuel -> i <= j -> j <= n ->
  (forall a b, a <= b -> b < n -> f a = true -> f b = true) ->
  (forall a, a < i -> f a = false) ->
  (forall a, j <= a -> a < n -> f a = true) ->
  let r := search_loop fuel f i j in
  r <= n /\ (forall a, a < r -> f a = false) /\ (forall a, r <= a -> a < n -> f a = true).
Proof.
  revert i j; induction fuel as [|fuel IH]; intros i j Hf Hij Hjn Hm Hlo Hhi; simpl.
  - assert (i = j) as -> by lia. eauto.
  - destruct (Nat.ltb_spec i j) as [Hlt|Hge]; [|assert (i = j) as -> by lia; eauto].
    assert (i <= Nat.div2 (i + j) < j) as [H1 H2].
    { rewrite Nat.div2_div. split; [apply Nat.div_le_lower_bound | apply Nat.Div0.div_lt_upper_bound]; lia. }
    destruct (f (Nat.div2 (i + j))) eqn:E.
    + apply IH; try lia; eauto.
    + apply IH; try lia; eauto. intros a Ha.
      destruct (f a) eqn:Ea; [|done].
      rewrite (Hm a (Nat.div2 (i + j))) in E; [done|lia|lia|done].
Qed.

(** The result of [sort.Search] on a monotone predicate is its first true index. *)
Lemma sort_Search_spec n f :
  (forall a b, a <= b -> b < n -> f a = true -> f b = true) ->
  let r := sort_Search n f in
  r <= n /\ (forall a, a < r -> f a = false) /\ (forall a, r <= a -> a < n -> f a = true).
Proof. intros. unfold sort_Search. apply search_loop_spec; auto; lia. Qed.

Lemma sort_Search_le n f : sort_Search n f <= n.
Proof.
  unfold sort_Search. assert (forall fuel i j, i <= j -> j <= n -> search_loop fuel f i j <= n) as H.
  { induction fuel as [|fuel IH]; intros i j Hij Hjn; simpl; [lia|].
    destruct (Nat.ltb_spec i j); [|lia].
    assert (i <= Nat.div2 (i + j) < j) as [H1 H2].
    { rewrite Nat.div2_div. split; [apply Nat.div_le_lower_bound | apply Nat.Div0.div_lt_upper_bound]; lia. }
    destruct (f _); apply IH; lia. }
  apply H; lia.
Qed.

(** The split of a list at the first index where a monotone test turns true. *)
Lemma search_filter {A} (l : list A) (p : A -> bool) :
  (forall i j x y, i <= j -> l !! i = Some x -> l !! j = Some y -> p x = true -> p y = true) ->
  let r := sort_Search (length l) (fun i => match l !! i with Some x => p x | None => true end) in
  drop r l = filter (fun x => p x = true) l /\ take r l = filter (fun x => p x = false) l.
Proof.
  intros Hm.
  destruct (sort_Search_spec (length l) (fun i => match l !! i with Some x => p x | None => true end))
    as (Hr & Hlo & Hhi).
  { intros a b Hab Hb. destruct (l !! a) as [x|] eqn:Ea; [|apply lookup_ge_None in Ea; lia].
    destruct (l !! b) as [y|] eqn:Eb; [|apply lookup_ge_None in Eb; lia]. eauto. }
  set (r := sort_Search _ _) in *. clearbody r. simpl.
  assert (Forall (fun x => p x = false) (take r l)) as Hf.
  { apply Forall_lookup. intros i x. rewrite lookup_take_Some. intros [Hx Hi].
    specialize (Hlo i Hi). simpl in Hlo. by rewrite Hx in Hlo. }
  assert (Forall (fun x => p x = true) (drop r l)) as Ht.
  { apply Forall_lookup. intros i x. rewrite lookup_drop. intros Hx.
    specialize (Hhi (r + i)). simpl in Hhi. rewrite Hx in Hhi. apply Hhi; [lia|].
    by apply lookup_lt_Some in Hx. }
  rewrite <- (take_drop r l) at 2 4. rewrite !filter_app.
  rewrite (filter_Forall_id (fun x => p x = true) (drop r l)) by done.
  rewrite (filter_Forall_id (fun x => p x = false) (take r l)) by done.
  rewrite !filter_Forall_nil; [by rewrite app_nil_r| |]; eapply Forall_impl; eauto; simpl; congruence.
Qed.

Lemma search_loop_ext fuel f g i j n :
  j <= n -> (forall a, a < n -> f a = g a) -> search_loop fuel f i j = search_loop fuel g i j.
Proof.
  intros Hj Hfg. revert i j Hj; induction fuel as [|fuel IH]; intros i j Hj; simpl; [done|].
  destruct (Nat.ltb_spec i j); [|done].
  assert (Nat.div2 (i + j) < j) by (rewrite Nat.div2_div; apply Nat.Div0.div_lt_upper_bound; lia).
  rewrite <- Hfg by lia. case_match; apply IH; lia.
Qed.

Lemma sort_Search_ext n f g : (forall a, a < n -> f a = g a) -> sort_Search n f = sort_Search n g.
Proof. intros. by apply search_loop_ext with n. Qed.

Lemma StronglySorted_lookup {A} (R : A -> A -> Prop) (l : list A) i j x y :
  StronglySorted R l -> l !! i = Some x -> l !! j = Some y -> i < j -> R x y.
Proof.
  intros Hs. revert i j. induction Hs as [|a l Hl IH Ha]; intros i j Hx Hy Hij; [done|].
  destruct j as [|j]; [lia|]. destruct i as [|i]; simpl in *.
  - injection Hx as ->. rewrite Forall_forall in Ha. by apply Ha, list_elem_of_lookup_2 with j.
  - apply (IH i j); auto; lia.
Qed.

Lemma StronglySorted_sublist {A} (R : A -> A -> Prop) (l1 l2 : list A) :
  l1 `sublist_of` l2 -> StronglySorted R l2 -> StronglySorted R l1.
Proof.
  induction 1 as [|x l1 l2 Hs IH|x l1 l2 Hs IH]; [done| |]; intros [H2 Hx]%StronglySorted_inv; [|auto].
  constructor; [auto|]. rewrite Forall_forall in Hx |- *. intros y Hy. by apply Hx, (elem_of_sublist _ _ _ Hy).
Qed.

Lemma elem_of_concat {A} (x : A) (ls : list (list A)) : x ∈ concat ls <-> exists l, l ∈ ls /\ x ∈ l.
Proof.
  rewrite list_elem_of_In, in_concat. setoid_rewrite list_elem_of_In. done.
Qed.

Lemma Forall2_rev {A B} (P : A -> B -> Prop) l k : Forall2 P l k -> Forall2 P (rev l) (rev k).
Proof. rewrite !rev_alt. apply Forall2_reverse. Qed.

Lemma Forall_sublist {A} (P : A -> Prop) l1 l2 : l1 `sublist_of` l2 -> Forall P l2 -> Forall P l1.
Proof. rewrite !Forall_forall. intros Hs H x Hx. by apply H, (elem_of_sublist _ _ _ Hx). Qed.

Lemma list_filter_ext_in {A} (P Q : A -> Prop) `{!forall x, Decision (P x)} `{!forall x, Decision (Q x)} (l : list A) :
  (forall x, x ∈ l -> P x <-> Q x) -> filter P l = filter Q l.
Proof.
  induction l as [|x l IH]; intros HPQ; [done|]. rewrite !filter_cons, IH by (intros y Hy; apply HPQ; by right).
  specialize (HPQ x ltac:(by left)). destruct (decide (P x)), (decide (Q x)); tauto || done.
Qed.
