(* ===== verification/OrdMap.v ===== *)
(** * Ordered maps: the abstract specification of the MemTable's skip list

    An ordered map is an association list whose keys are strictly increasing
    in [bytes.Compare] order; [om_insert], [om_lookup] and [om_range] are the
    promises the skip list makes ([Put], [Get], [Range]).  [om_map] forgets the
    order: it is the finite map the list represents. *)

From S2P Require Import Prelude.
From stdpp Require Import base gmap sets list strings numbers fin_maps sorting.

Section ordmap.
Context {V : Type}.
Implicit Types (l : list (bytes * V)) (k : bytes) (v : V).

Definition sorted_keys l : Prop := StronglySorted bytes_lt l.*1.

Fixpoint om_insert k v l : list (bytes * V) :=
  match l with
  | [] => [(k, v)]
  | (k0, v0) :: l' =>
      match bytes_compare k k0 with
      | Lt => (k, v) :: (k0, v0) :: l'
      | Eq => (k, v) :: l'
      | Gt => (k0, v0) :: om_insert k v l'
      end
  end.

Fixpoint om_lookup k l : option V :=
  match l with
  | [] => None
  | (k0, v0) :: l' => if bytes_eqb k0 k then Some v0 else om_lookup k l'
  end.

(** [start = None] and [end = None] are Go's nil bounds. *)
Definition in_range (start end_ : option bytes) (k : bytes) : Prop :=
  (match start with None => True | Some s => s <=b k end) /\
  (match end_ with None => True | Some e => k <b e end).

#[export] Instance in_range_dec start end_ k : Decision (in_range start end_ k).
Proof. unfold in_range. destruct start, end_; apply _. Defined.

Definition om_range (start end_ : option bytes) l : list (bytes * V) :=
  filter (fun p => in_range start end_ p.1) l.

Definition om_map l : gmap bytes V := list_to_map l.

(** ** Laws *)

Lemma sorted_keys_cons k v l :
  sorted_keys ((k, v) :: l) <-> sorted_keys l /\ Forall (fun p => k <b p.1) l.
Proof.
  unfold sorted_keys; simpl. split.
  - intros [H1 H2]%StronglySorted_inv. split; [done|]. by rewrite Forall_map in H2.
  - intros [H1 H2]. constructor; [done|]. by rewrite Forall_map.
Qed.

Lemma sorted_keys_nil : sorted_keys [].
Proof. constructor. Qed.

Lemma om_insert_Forall (P : bytes -> Prop) k v l :
  P k -> Forall (fun p => P p.1) l -> Forall (fun p => P p.1) (om_insert k v l).
Proof.
  intros Hk. induction 1 as [|[k0 v0] l H0 Hl IH]; simpl; [by repeat constructor|].
  destruct (bytes_compare k k0); repeat constructor; auto.
Qed.

Lemma om_insert_sorted k v l : sorted_keys l -> sorted_keys (om_insert k v l).
Proof.
  induction l as [|[k0 v0] l IH]; simpl; intros Hs.
  - apply sorted_keys_cons. split; [apply sorted_keys_nil|constructor].
  - apply sorted_keys_cons in Hs as [Hl Hlt].
    destruct (bytes_compare k k0) eqn:E.
    + apply bytes_compare_eq in E as ->. by apply sorted_keys_cons.
    + apply sorted_keys_cons. split; [by apply sorted_keys_cons|].
      constructor; [done|]. eapply Forall_impl; [done|]. intros [k1 v1] ?; simpl in *.
      eauto using bytes_lt_trans.
    + apply sorted_keys_cons. split; [auto|]. apply om_insert_Forall; [|done].
      unfold bytes_lt. rewrite bytes_compare_antisym, E. done.
Qed.

Lemma om_lookup_insert_eq k v l : om_lookup k (om_insert k v l) = Some v.
Proof.
  induction l as [|[k0 v0] l IH]; simpl.
  - unfold bytes_eqb. by rewrite bool_decide_true.
  - destruct (bytes_compare k k0) eqn:E; simpl;
      try (unfold bytes_eqb; by rewrite bool_decide_true).
    unfold bytes_eqb. rewrite bool_decide_false; [done|].
    intros ->. rewrite (proj2 (bytes_compare_eq k k)) in E; done.
Qed.

Lemma om_lookup_insert_ne k k' v l :
  k <> k' -> om_lookup k' (om_insert k v l) = om_lookup k' l.
Proof.
  intros Hne. induction l as [|[k0 v0] l IH]; simpl.
  - unfold bytes_eqb. by rewrite bool_decide_false.
  - destruct (bytes_compare k k0) eqn:E; simpl.
    + apply bytes_compare_eq in E as <-. unfold bytes_eqb.
      by rewrite !bool_decide_false.
    + unfold bytes_eqb at 1. by rewrite bool_decide_false.
    + by rewrite IH.
Qed.

Lemma om_lookup_map k l : om_map l !! k = om_lookup k l.
Proof.
  induction l as [|[k0 v0] l IH]; simpl; [apply lookup_empty|].
  unfold om_map in *; simpl. unfold bytes_eqb. case_bool_decide as E.
  - subst. by rewrite lookup_insert_eq.
  - by rewrite lookup_insert_ne.
Qed.

Lemma om_map_insert k v l : om_map (om_insert k v l) = <[k := v]> (om_map l).
Proof.
  apply map_eq. intros k'. rewrite om_lookup_map. destruct (decide (k = k')) as [->|Hne].
  - by rewrite om_lookup_insert_eq, lookup_insert_eq.
  - by rewrite om_lookup_insert_ne, lookup_insert_ne, om_lookup_map.
Qed.

Lemma om_lookup_not_in k l : k ∉ l.*1 -> om_lookup k l = None.
Proof.
  induction l as [|[k0 v0] l IH]; simpl; [done|].
  rewrite not_elem_of_cons. intros [Hne Hin].
  unfold bytes_eqb. rewrite bool_decide_false; auto.
Qed.

Lemma om_lookup_lt k l : Forall (fun p => k <b p.1) l -> om_lookup k l = None.
Proof.
  intros H. apply om_lookup_not_in. intros ([k' v] & -> & Hin)%list_elem_of_fmap.
  rewrite Forall_forall in H. apply H in Hin. simpl in Hin. by apply bytes_lt_irrefl in Hin.
Qed.

Lemma om_lookup_In k v l : sorted_keys l -> om_lookup k l = Some v <-> (k, v) ∈ l.
Proof.
  induction l as [|[k0 v0] l IH]; simpl; intros Hs.
  - split; [done|]. by intros ?%not_elem_of_nil.
  - apply sorted_keys_cons in Hs as [Hl Hlt]. rewrite elem_of_cons.
    unfold bytes_eqb. case_bool_decide as E.
    + subst. split; [intros [= ->]; auto|]. intros [[= ->]|Hin]; [done|].
      rewrite Forall_forall in Hlt. apply Hlt in Hin. simpl in Hin.
      by apply bytes_lt_irrefl in Hin.
    + rewrite (IH Hl). naive_solver.
Qed.

Lemma om_lookup_app k l1 l2 :
  om_lookup k (l1 ++ l2) = match om_lookup k l1 with Some v => Some v | None => om_lookup k l2 end.
Proof.
  induction l1 as [|[k0 v0] l1 IH]; simpl; [done|]. destruct (bytes_eqb k0 k); auto.
Qed.

(** On a sorted list, insertion is the three-way split around the key. *)
Lemma om_insert_split k v l1 l2 :
  Forall (fun p => p.1 <b k) l1 -> Forall (fun p => k <b p.1) l2 ->
  om_insert k v (l1 ++ l2) = l1 ++ (k, v) :: l2.
Proof.
  intros H1 H2. induction H1 as [|[k0 v0] l1 Hk Hl IH]; simpl.
  - destruct H2 as [|[k0 v0] l2 Hk Hl]; simpl; [done|]. simpl in Hk.
    unfold bytes_lt in Hk. by rewrite Hk.
  - simpl in Hk. unfold bytes_lt in Hk.
    rewrite bytes_compare_antisym, Hk. simpl. by rewrite IH.
Qed.

Lemma om_insert_split_eq k v v0 l1 l2 :
  Forall (fun p => p.1 <b k) l1 ->
  om_insert k v (l1 ++ (k, v0) :: l2) = l1 ++ (k, v) :: l2.
Proof.
  intros H1. induction H1 as [|[k1 v1] l1 Hk Hl IH]; simpl.
  - by rewrite (proj2 (bytes_compare_eq k k)).
  - simpl in Hk. unfold bytes_lt in Hk.
    rewrite bytes_compare_antisym, Hk. simpl. by rewrite IH.
Qed.

Lemma om_insert_length k v l :
  sorted_keys l ->
  length (om_insert k v l) =
    match om_lookup k l with Some _ => length l | None => S (length l) end.
Proof.
  induction l as [|[k0 v0] l IH]; simpl; intros Hs; [done|].
  apply sorted_keys_cons in Hs as [Hl Hlt].
  destruct (bytes_compare k k0) eqn:E; simpl.
  - apply bytes_compare_eq in E as ->. unfold bytes_eqb. by rewrite bool_decide_true.
  - change (k <b k0) in E. unfold bytes_eqb. rewrite bool_decide_false by (intros ->; border).
    rewrite om_lookup_lt; [done|]. eapply Forall_impl; [done|]. simpl. eauto with flume.
  - rewrite (IH Hl). unfold bytes_eqb. rewrite bool_decide_false.
    + by destruct (om_lookup k l).
    + intros ->. rewrite (proj2 (bytes_compare_eq k k)) in E; done.
Qed.

Lemma om_range_all l : om_range None None l = l.
Proof. apply filter_Forall_id. apply Forall_forall. by split. Qed.

Lemma om_range_sorted start end_ l : sorted_keys l -> sorted_keys (om_range start end_ l).
Proof.
  unfold om_range. induction l as [|[k v] l IH]; intros Hs; [done|].
  apply sorted_keys_cons in Hs as [Hl Hlt]. rewrite filter_cons. case_decide; [|auto].
  apply sorted_keys_cons. split; [auto|]. by apply Forall_filter.
Qed.

Lemma elem_of_om_range start end_ k v l :
  (k, v) ∈ om_range start end_ l <-> in_range start end_ k /\ (k, v) ∈ l.
Proof. unfold om_range. by rewrite list_elem_of_filter. Qed.

(** Two ordered maps with the same elements are equal. *)
Lemma sorted_keys_ext l1 l2 :
  sorted_keys l1 -> sorted_keys l2 -> (forall k v, (k, v) ∈ l1 <-> (k, v) ∈ l2) -> l1 = l2.
Proof.
  revert l2. induction l1 as [|[k v] l1 IH]; intros l2 H1 H2 He.
  - destruct l2 as [|[k v] l2]; [done|]. assert ((k, v) ∈ @nil (bytes * V)) as H; [apply He; left|]. by apply not_elem_of_nil in H.
  - destruct l2 as [|[k2 v2] l2].
    { assert ((k, v) ∈ @nil (bytes * V)) as H; [apply He; left|]. by apply not_elem_of_nil in H. }
    apply sorted_keys_cons in H1 as [H1 L1], H2 as [H2 L2]. rewrite Forall_forall in L1, L2.
    assert (forall x, x ∈ (k, v) :: l1 <-> x ∈ (k2, v2) :: l2) as Hx by (intros [? ?]; apply He).
    assert ((k, v) = (k2, v2)) as [= -> ->].
    { assert ((k, v) ∈ (k2, v2) :: l2) as [E|Ha]%elem_of_cons by (apply Hx; left); [done|].
      assert ((k2, v2) ∈ (k, v) :: l1) as [E|Hb]%elem_of_cons by (apply Hx; left); [done|].
      apply L2 in Ha. apply L1 in Hb. simpl in *. border. }
    f_equal. apply IH; [done|done|]. intros k v. specialize (He k v). rewrite !elem_of_cons in He. split; intros Hin.
    + destruct (proj1 He (or_intror Hin)) as [E|]; [|done]. injection E as -> ->. apply L1 in Hin. simpl in Hin. border.
    + destruct (proj2 He (or_intror Hin)) as [E|]; [|done]. injection E as -> ->. apply L2 in Hin. simpl in Hin. border.
Qed.

(** The ordered map of a finite one. *)
Definition om_of_map (m : gmap bytes V) : list (bytes * V) :=
  foldr (fun kv l => om_insert kv.1 kv.2 l) [] (map_to_list m).

Lemma om_of_map_sorted m : sorted_keys (om_of_map m).
Proof.
  unfold om_of_map. induction (map_to_list m) as [|kv l IH]; [apply sorted_keys_nil|]. cbn. by apply om_insert_sorted.
Qed.

Lemma elem_of_om_of_map m k v : (k, v) ∈ om_of_map m <-> m !! k = Some v.
Proof.
  rewrite <- om_lookup_In by apply om_of_map_sorted. rewrite <- om_lookup_map.
  assert (om_map (om_of_map m) = m) as ->; [|done]. unfold om_of_map.
  rewrite <- (list_to_map_to_list m) at 2. induction (map_to_list m) as [|[k0 v0] l IH]; [done|].
  cbn [foldr list_to_map fst snd]. by rewrite om_map_insert, IH.
Qed.
End ordmap.

#[export] Hint Resolve sorted_keys_nil om_insert_sorted om_range_sorted : flume.
