(* ===== verification/Heap.v ===== *)
(** * Binary heaps ([container/heap])

    The standard library's array heap, loop for loop, over any [less]:
    [Push] and [Pop] with their [up] and [down] passes.  The k-way merge of the
    SSTable package and the range scans of the engine run on it.  The heap is
    a list indexed from 0; the parent of [j] is [(j - 1) / 2]. *)

From S2P Require Import Prelude.
From stdpp Require Import base list numbers sorting.

Section heap.
Context {A : Type} (less : A -> A -> bool).
Implicit Types (h : list A) (x y : A) (i j k n : nat).

Definition Swap h i j : list A :=
  match h !! i, h !! j with
  | Some x, Some y => <[i := y]> (<[j := x]> h)
  | _, _ => h
  end.

(** [h.Less(i, j)], for indices in range. *)
Definition Less h i j : bool :=
  match h !! i, h !! j with Some x, Some y => less x y | _, _ => false end.

Fixpoint up (fuel : nat) h j : list A :=
  match fuel with
  | O => h
  | S fuel' =>
      let i := (j - 1) / 2 in
      if (i =? j) || negb (Less h j i) then h else up fuel' (Swap h i j) i
  end.

Fixpoint down (fuel : nat) h i n : list A :=
  match fuel with
  | O => h
  | S fuel' =>
      let j1 := 2 * i + 1 in
      if n <=? j1 then h
      else
        let j2 := j1 + 1 in
        let j := if (j2 <? n) && Less h j2 j1 then j2 else j1 in
        if negb (Less h j i) then h else down fuel' (Swap h i j) j n
  end.

Definition Push h x : list A := up (S (length h)) (h ++ [x]) (length h).

Definition Pop h : option (A * list A) :=
  let n := length h - 1 in
  let h' := down (S n) (Swap h 0 n) 0 n in
  x ← h' !! n; Some (x, take n h').

(** ** The heap order *)

Definition le x y : Prop := less y x = false.

Definition ordered h i j : Prop := forall x y, h !! i = Some x -> h !! j = Some y -> le x y.

Definition is_heap h : Prop := forall j, 0 < j -> ordered h ((j - 1) / 2) j.

Lemma length_Swap h i j : length (Swap h i j) = length h.
Proof. unfold Swap. repeat case_match; auto. by rewrite !length_insert. Qed.

Lemma length_up fuel h j : length (up fuel h j) = length h.
Proof.
  revert h j; induction fuel as [|fuel IH]; intros h j; simpl; [done|].
  case_match; [done|]. by rewrite IH, length_Swap.
Qed.

Lemma length_down fuel h i n : length (down fuel h i n) = length h.
Proof.
  revert h i; induction fuel as [|fuel IH]; intros h i; simpl; [done|].
  case_match; [done|]. case_match; [done|]. by rewrite IH, length_Swap.
Qed.

(** The transposition of two indices. *)
Definition tr i j k : nat := if k =? i then j else if k =? j then i else k.

Lemma lookup_Swap h i j k :
  i < length h -> j < length h -> Swap h i j !! k = h !! tr i j k.
Proof.
  intros Hi Hj. unfold Swap, tr.
  destruct (lookup_lt_is_Some_2 h i Hi) as [x Hx].
  destruct (lookup_lt_is_Some_2 h j Hj) as [y Hy]. rewrite Hx, Hy.
  destruct (Nat.eqb_spec k i) as [->|Hki].
  - rewrite list_lookup_insert_eq; [done|by rewrite length_insert].
  - rewrite list_lookup_insert_ne by done. destruct (Nat.eqb_spec k j) as [->|Hkj].
    + by rewrite list_lookup_insert_eq.
    + by rewrite list_lookup_insert_ne.
Qed.

Lemma tr_tr i j k : tr i j (tr i j k) = k.
Proof.
  unfold tr. destruct (Nat.eqb_spec k i) as [->|]; [|destruct (Nat.eqb_spec k j) as [->|]].
  - rewrite Nat.eqb_refl. by destruct (Nat.eqb_spec j i).
  - by rewrite Nat.eqb_refl.
  - by rewrite (proj2 (Nat.eqb_neq k i)), (proj2 (Nat.eqb_neq k j)).
Qed.

Lemma Swap_perm h i j : Swap h i j ≡ₚ h.
Proof.
  destruct (decide (i < length h /\ j < length h)) as [[Hi Hj]|Hn].
  - apply Permutation_inj. split; [apply length_Swap|]. exists (tr i j). split.
    + intros a b E. by rewrite <- (tr_tr i j a), E, tr_tr.
    + intros k. by apply lookup_Swap.
  - unfold Swap. destruct (h !! i) eqn:Ei; [|done]. destruct (h !! j) eqn:Ej; [|done].
    apply lookup_lt_Some in Ei, Ej. lia.
Qed.

Lemma up_perm fuel h j : up fuel h j ≡ₚ h.
Proof.
  revert h j; induction fuel as [|fuel IH]; intros h j; simpl; [done|].
  case_match; [done|]. by rewrite IH, Swap_perm.
Qed.

Lemma down_perm fuel h i n : down fuel h i n ≡ₚ h.
Proof.
  revert h i; induction fuel as [|fuel IH]; intros h i; simpl; [done|].
  case_match; [done|]. case_match; [done|]. by rewrite IH, Swap_perm.
Qed.

Lemma Push_perm h x : Push h x ≡ₚ x :: h.
Proof. unfold Push. rewrite up_perm. by rewrite Permutation_app_comm. Qed.

Context (le_trans : forall x y z, le x y -> le y z -> le x z).
Context (less_asym : forall x y, less x y = true -> less y x = false).

Lemma le_refl x : le x x.
Proof. unfold le. destruct (less x x) eqn:E; [|done]. by rewrite (less_asym x x E) in E. Qed.

Lemma parent_lt j : 0 < j -> (j - 1) / 2 < j.
Proof. intros. apply Nat.Div0.div_lt_upper_bound. lia. Qed.

Lemma parent_child j i : (j - 1) / 2 = i -> 0 < j -> j = 2 * i + 1 \/ j = 2 * i + 2.
Proof. intros <- ?. pose proof (Nat.div_mod (j - 1) 2). pose proof (Nat.mod_upper_bound (j - 1) 2). lia. Qed.

Lemma child_parent i : (2 * i + 1 - 1) / 2 = i /\ (2 * i + 2 - 1) / 2 = i.
Proof.
  replace (2 * i + 1 - 1) with (i * 2) by lia. replace (2 * i + 2 - 1) with (1 + i * 2) by lia.
  rewrite Nat.div_add, Nat.div_mul by done. done.
Qed.

(** Going up: only [j] may be below its parent, and what is below [j] is above
    that parent. *)
Definition up_inv h j : Prop :=
  (forall k, 0 < k -> k <> j -> ordered h ((k - 1) / 2) k) /\
  (forall k, 0 < k -> (k - 1) / 2 = j -> 0 < j -> ordered h ((j - 1) / 2) k).

Lemma up_step h j x y :
  0 < j -> h !! ((j - 1) / 2) = Some x -> h !! j = Some y -> less y x = true ->
  up_inv h j -> up_inv (Swap h ((j - 1) / 2) j) ((j - 1) / 2).
Proof.
  intros Hj Hx Hy Hl [H1 H2]. set (i := (j - 1) / 2) in *.
  pose proof (parent_lt j Hj : i < j) as Hij.
  pose proof (lookup_lt_Some _ _ _ Hy) as Hlj.
  split; intros k Hk.
  - intros Hne a b. rewrite !lookup_Swap by lia. unfold tr.
    pose proof (parent_lt k Hk).
    destruct (Nat.eqb_spec ((k - 1) / 2) i) as [Ei|Ei]; destruct (Nat.eqb_spec k i) as [->|Eki]; try lia.
    + destruct (Nat.eqb_spec k j) as [->|Ekj].
      * rewrite Hx, Hy. intros [= <-] [= <-]. by apply less_asym.
      * rewrite Hy. intros [= <-] Hb. apply le_trans with x; [by apply less_asym|].
        apply (H1 k Hk Ekj x b); [by rewrite Ei|done].
    + destruct (Nat.eqb_spec ((k - 1) / 2) j) as [Ej|Ej].
      * destruct (Nat.eqb_spec k j) as [->|Ekj]; [lia|]. rewrite Hx. intros [= <-] Hb.
        by apply (H2 k Hk Ej Hj x b).
      * destruct (Nat.eqb_spec k j) as [->|Ekj]; [done|]. intros Ha Hb. by apply (H1 k Hk Ekj).
  - intros Ek Hi a b. rewrite !lookup_Swap by lia. unfold tr.
    pose proof (parent_lt k Hk). pose proof (parent_lt i Hi).
    destruct (Nat.eqb_spec ((i - 1) / 2) i) as [?|_]; [lia|].
    destruct (Nat.eqb_spec ((i - 1) / 2) j) as [?|_]; [lia|].
    destruct (Nat.eqb_spec k i) as [?|_]; [lia|]. intros Ha.
    assert (le a x) by (by apply (H1 i Hi ltac:(lia))).
    destruct (Nat.eqb_spec k j) as [->|Ekj].
    + rewrite Hx. by intros [= <-].
    + intros Hb. apply le_trans with x; [done|]. apply (H1 k Hk Ekj); [by rewrite Ek|done].
Qed.

Lemma up_heap fuel h j : j < fuel -> j < length h -> up_inv h j -> is_heap (up fuel h j).
Proof.
  revert h j; induction fuel as [|fuel IH]; intros h j Hf Hj Hinv; [lia|]. cbn [up].
  destruct (lookup_lt_is_Some_2 h j Hj) as [y Hy].
  destruct (decide (j = 0)) as [->|Hj0].
  { rewrite (proj2 (Nat.eqb_eq _ _)) by done. simpl.
    intros k Hk. apply (proj1 Hinv); lia. }
  pose proof (parent_lt j ltac:(lia)) as Hlt.
  destruct (lookup_lt_is_Some_2 h ((j - 1) / 2)) as [x Hx]; [lia|].
  destruct (Nat.eqb_spec ((j - 1) / 2) j); [lia|]. unfold Less at 1. rewrite Hx, Hy. cbn [orb].
  destruct (less y x) eqn:El; cbn [negb].
  - apply IH; [lia|rewrite length_Swap; lia|]. eapply up_step; eauto; lia.
  - intros k Hk. destruct (decide (k = j)) as [->|Hne]; [|by apply (proj1 Hinv)].
    intros a b Ha Hb. rewrite Hx in Ha. rewrite Hy in Hb. by simplify_eq.
Qed.

Lemma Push_heap h x : is_heap h -> is_heap (Push h x).
Proof.
  intros Hh. unfold Push. apply up_heap; [lia|rewrite length_app; simpl; lia|]. split.
  - intros k Hk Hne a b Ha Hb.
    apply lookup_lt_Some in Hb as Hl. rewrite length_app in Hl. simpl in Hl.
    pose proof (parent_lt k Hk).
    rewrite lookup_app_l in Ha by lia. rewrite lookup_app_l in Hb by lia. by apply (Hh k Hk).
  - intros k Hk Hp Hj a b _ Hb. apply lookup_lt_Some in Hb as Hl.
    rewrite length_app in Hl. simpl in Hl. pose proof (parent_lt k Hk). lia.
Qed.
(** Going down, within the first [n] indices: only the children of [i] may be
    above their parent, and they are below the parent of [i]. *)
Definition heap_upto n h : Prop := forall k, 0 < k < n -> ordered h ((k - 1) / 2) k.

Definition down_inv h i n : Prop :=
  (forall k, 0 < k < n -> (k - 1) / 2 <> i -> ordered h ((k - 1) / 2) k) /\
  (forall k, 0 < k < n -> (k - 1) / 2 = i -> 0 < i -> ordered h ((i - 1) / 2) k).

(** The child [down] descends to. *)
Definition child h i n : nat :=
  if (2 * i + 1 + 1 <? n) && Less h (2 * i + 1 + 1) (2 * i + 1) then 2 * i + 1 + 1 else 2 * i + 1.

Lemma child_spec h i n :
  2 * i + 1 < n -> n <= length h ->
  child h i n < n /\ (child h i n - 1) / 2 = i /\ i < child h i n /\
  forall k, 0 < k < n -> (k - 1) / 2 = i -> ordered h (child h i n) k.
Proof.
  intros Hn Hl. destruct (child_parent i) as [Hc1 Hc2]. unfold child.
  destruct (Nat.ltb_spec (2 * i + 1 + 1) n) as [Hj2|Hj2]; cbn [andb].
  - destruct (lookup_lt_is_Some_2 h (2 * i + 1)) as [u Hu]; [lia|].
    destruct (lookup_lt_is_Some_2 h (2 * i + 2)) as [v Hv]; [lia|].
    replace (2 * i + 1 + 1) with (2 * i + 2) in * by lia. unfold Less. rewrite Hu, Hv.
    destruct (less v u) eqn:El; split_and!; try done; try lia; intros k Hk Hp a b Ha Hb;
      destruct (parent_child k i Hp) as [-> | ->]; try lia; simplify_eq; auto using le_refl.
    by apply less_asym.
  - split_and!; try done; try lia. intros k Hk Hp a b Ha Hb.
    destruct (parent_child k i Hp) as [-> | ->]; try lia. simplify_eq. apply le_refl.
Qed.

Lemma down_step h i n x y :
  2 * i + 1 < n -> n <= length h -> h !! i = Some x -> h !! child h i n = Some y -> less y x = true ->
  down_inv h i n -> down_inv (Swap h i (child h i n)) (child h i n) n.
Proof.
  intros Hn Hl Hx Hy Hlt [H1 H2].
  destruct (child_spec h i n Hn Hl) as (Hjn & Hp & Hij & Hmin).
  set (j := child h i n) in *. split; intros k Hk.
  - intros Hne a b. rewrite !lookup_Swap by lia. unfold tr. pose proof (parent_lt k ltac:(lia)).
    destruct (Nat.eqb_spec ((k - 1) / 2) i) as [Ei|Ei].
    + destruct (Nat.eqb_spec k i) as [->|Eki]; [lia|].
      destruct (Nat.eqb_spec k j) as [->|Ekj].
      * rewrite Hx, Hy. intros [= <-] [= <-]. by apply less_asym.
      * intros Ha Hb. by apply (Hmin k Hk Ei).
    + destruct (Nat.eqb_spec ((k - 1) / 2) j) as [|_]; [done|].
      destruct (Nat.eqb_spec k i) as [->|Eki].
      * intros Ha Hb. apply (H2 j); auto; lia.
      * destruct (Nat.eqb_spec k j) as [->|Ekj]; [lia|]. by apply H1.
  - intros Ek Hj a b. rewrite !lookup_Swap by lia. unfold tr. pose proof (parent_lt k ltac:(lia)).
    rewrite Hp, Nat.eqb_refl.
    destruct (Nat.eqb_spec k i) as [|_]; [lia|]. destruct (Nat.eqb_spec k j) as [|_]; [lia|].
    intros Ha Hb. apply (H1 k Hk); [lia|by rewrite Ek|done].
Qed.

Lemma down_unfold fuel h i n :
  down (S fuel) h i n =
    if n <=? 2 * i + 1 then h
    else if negb (Less h (child h i n) i) then h else down fuel (Swap h i (child h i n)) (child h i n) n.
Proof. done. Qed.

Lemma down_heap fuel h i n :
  n < fuel + i -> n <= length h -> down_inv h i n -> heap_upto n (down fuel h i n).
Proof.
  revert h i; induction fuel as [|fuel IH]; intros h i Hf Hl Hinv.
  { simpl. intros k Hk. apply (proj1 Hinv); [done|]. pose proof (parent_lt k). lia. }
  rewrite down_unfold. destruct (Nat.leb_spec n (2 * i + 1)) as [Hge|Hlt].
  { intros k Hk. apply (proj1 Hinv); [done|]. intros Hp. apply parent_child in Hp; lia. }
  destruct (child_spec h i n Hlt Hl) as (Hjn & Hp & Hij & Hmin).
  destruct (lookup_lt_is_Some_2 h i) as [x Hx]; [lia|].
  destruct (lookup_lt_is_Some_2 h (child h i n)) as [y Hy]; [lia|].
  unfold Less. rewrite Hx, Hy. destruct (less y x) eqn:El; cbn [negb].
  - apply IH; [lia|by rewrite length_Swap|]. by eapply down_step.
  - intros k Hk. destruct (decide ((k - 1) / 2 = i)) as [Ek|Ek]; [|by apply (proj1 Hinv)].
    intros a b Ha Hb. rewrite Ek, Hx in Ha. injection Ha as <-.
    apply le_trans with y; [done|]. by apply (Hmin k Hk Ek).
Qed.

Lemma lookup_down_ge fuel h i n k :
  n <= k -> i < n -> n <= length h -> down fuel h i n !! k = h !! k.
Proof.
  revert h i; induction fuel as [|fuel IH]; intros h i Hk Hi Hl; [done|].
  rewrite down_unfold. destruct (Nat.leb_spec n (2 * i + 1)) as [Hge|Hlt]; [done|].
  destruct (child_spec h i n Hlt Hl) as (Hjn & Hp & Hij & Hmin).
  case_match; [done|]. rewrite IH by (rewrite ?length_Swap; lia).
  rewrite lookup_Swap by lia. unfold tr.
  destruct (Nat.eqb_spec k i); [lia|]. destruct (Nat.eqb_spec k (child h i n)); [lia|done].
Qed.

Lemma heap_min h x y : is_heap h -> h !! 0 = Some x -> y ∈ h -> le x y.
Proof.
  intros Hh Hx [j Hy]%list_elem_of_lookup. revert y Hy.
  induction (lt_wf j) as [j _ IH]; intros y Hy.
  destruct (decide (j = 0)) as [->|Hj]; [simplify_eq; apply le_refl|].
  pose proof (parent_lt j ltac:(lia)) as Hp. apply lookup_lt_Some in Hy as Hl.
  destruct (lookup_lt_is_Some_2 h ((j - 1) / 2)) as [z Hz]; [lia|].
  apply le_trans with z; [by eapply IH|]. by apply (Hh j ltac:(lia)).
Qed.

Lemma is_heap_nil : is_heap [].
Proof. intros j Hj x y Hx. done. Qed.

(** [Pop] returns the root, which is below every other element, and leaves a
    heap of the rest. *)
Lemma Pop_spec h x0 h0 :
  is_heap h -> h = x0 :: h0 ->
  exists h', Pop h = Some (x0, h') /\ h ≡ₚ x0 :: h' /\ is_heap h' /\ Forall (le x0) h'.
Proof.
  intros Hh Eh. unfold Pop. set (n := length h - 1).
  assert (length h = S n) as Hl by (subst h; simpl in *; lia).
  set (s := Swap h 0 n). assert (length s = S n) as Hls by (by rewrite <- Hl; apply length_Swap).
  set (d := down (S n) s 0 n).
  assert (length d = S n) as Hld by (by rewrite <- Hls; apply length_down).
  assert (h !! 0 = Some x0) as Hr by (by subst h).
  assert (d !! n = Some x0) as Hd.
  { unfold d. destruct (decide (n = 0)) as [E|E].
    - rewrite down_unfold. rewrite (proj2 (Nat.leb_le _ _)) by lia. unfold s. rewrite E.
      rewrite lookup_Swap by lia. done.
    - rewrite lookup_down_ge by lia. unfold s. rewrite lookup_Swap by lia. unfold tr.
      destruct (Nat.eqb_spec n 0); [lia|]. by rewrite Nat.eqb_refl. }
  rewrite Hd. simpl. exists (take n d). split; [done|].
  assert (h ≡ₚ x0 :: take n d) as Hp.
  { rewrite <- (Swap_perm h 0 n), <- (down_perm (S n) (Swap h 0 n) 0 n).
    fold s. fold d. rewrite <- (take_drop n d) at 1. rewrite (drop_S d x0 n Hd), drop_ge by lia.
    by rewrite Permutation_app_comm. }
  split; [done|]. split.
  - intros k Hk a b. rewrite !lookup_take_Some. intros [Ha _] [Hb Hkn].
    refine (down_heap (S n) s 0 n ltac:(lia) ltac:(lia) _ k ltac:(lia) a b Ha Hb). split.
    + intros j Hj Hne u v. unfold s. pose proof (parent_lt j ltac:(lia)).
      rewrite !lookup_Swap by lia. unfold tr.
      destruct (Nat.eqb_spec ((j - 1) / 2) 0); [done|]. destruct (Nat.eqb_spec ((j - 1) / 2) n); [lia|].
      destruct (Nat.eqb_spec j 0); [lia|]. destruct (Nat.eqb_spec j n); [lia|]. apply Hh. lia.
    + lia.
  - apply Forall_forall. intros y Hy. eapply heap_min; [exact Hh|exact Hr|]. rewrite Hp. by right.
Qed.

Lemma Push_not_nil h x : Push h x <> [].
Proof.
  intros E. pose proof (Push_perm h x) as Hp. rewrite E in Hp. by apply Permutation_nil_cons in Hp.
Qed.
End heap.
