(* ===== verification/SkipList.v ===== *)
(** * The skip list (src/skiplist/skiplist.go)

    Nodes live in a store addressed by position: a pointer is an index into
    [sl_nodes], index 0 is the head and a node's [next] array is a list of
    optional pointers, so that the code's loops read and write the store the
    way they read and write the Go heap.  Every operation is an option: [None]
    is a nil dereference, an index out of range or a loop that did not finish
    within its fuel.  The theorems show that under the invariant [sl_inv] none
    of these happens and that the structure refines the ordered map of
    [OrdMap]: [Put] is [om_insert], [Get] is [om_lookup], [Range] is
    [om_range].  The mutex is not modelled: each method runs under it. *)

From S2P Require Import Prelude OrdMap.
From stdpp Require Import base gmap sets list strings numbers fin_maps sorting.

Definition maxLevel : nat := 16.

(** ** Data *)

Record node (V : Type) := Node { n_key : bytes; n_value : V; n_next : list (option nat) }.
Arguments Node {V} _ _ _.
Arguments n_key {V} _.
Arguments n_value {V} _.
Arguments n_next {V} _.

(** [rnd] holds the outcomes of the tests [s.rnd.Float64() < pFactor] still to
    be drawn; the theorems quantify over it. *)
Record SkipList (V : Type) := MkSkipList {
  sl_nodes : list (node V);
  sl_level : nat;
  sl_length : nat;
  sl_rnd : list bool }.
Arguments MkSkipList {V} _ _ _ _.
Arguments sl_nodes {V} _.
Arguments sl_level {V} _.
Arguments sl_length {V} _.
Arguments sl_rnd {V} _.

#[global] Instance node_eq_dec `{EqDecision V} : EqDecision (node V).
Proof. solve_decision. Defined.
#[global] Instance SkipList_eq_dec `{EqDecision V} : EqDecision (SkipList V).
Proof. solve_decision. Defined.

Definition KV (V : Type) : Type := (bytes * V)%type.

Section skiplist.
Context {V : Type} `{Inhabited V}.
Implicit Types (s : SkipList V) (nodes : list (node V)).

(** The head's key and value are Go's zero values. *)
Definition head : nat := 0.

Definition New (rnd : list bool) : SkipList V :=
  MkSkipList [Node [] inhabitant (replicate maxLevel None)] 1 0 rnd.

Fixpoint randomLevel_loop (lvl : nat) (rnd : list bool) : nat * list bool :=
  if lvl <? maxLevel then
    match rnd with
    | true :: rnd' => randomLevel_loop (S lvl) rnd'
    | false :: rnd' => (lvl, rnd')
    | [] => (lvl, [])
    end
  else (lvl, rnd).

Definition randomLevel (rnd : list bool) : nat * list bool := randomLevel_loop 1 rnd.

(** [p.next[i]]. *)
Definition getnext nodes (p i : nat) : option (option nat) :=
  n ← nodes !! p; n_next n !! i.

(** The inner loop of [Put], [Get] and [Range]: advance at level [i] while
    the next key satisfies the caller's test [lt]. *)
Fixpoint advance (fuel : nat) nodes (lt : bytes -> bool) (i cur : nat) : option nat :=
  match fuel with
  | O => None
  | S fuel' =>
      nx ← getnext nodes cur i;
      match nx with
      | None => Some cur
      | Some q =>
          n ← nodes !! q;
          if lt (n_key n) then advance fuel' nodes lt i q else Some cur
      end
  end.

(** The outer loop, from level [i - 1] down to 0, recording [update[i]]. *)
Fixpoint descend nodes (lt : bytes -> bool) (i cur : nat) (update : list (option nat))
    : option (nat * list (option nat)) :=
  match i with
  | O => Some (cur, update)
  | S i' =>
      c ← advance (S (length nodes)) nodes lt i' cur;
      descend nodes lt i' c (<[i' := Some c]> update)
  end.

(** [update[i] = s.head] for [from <= i < from + n]. *)
Fixpoint fill_update (n from : nat) (update : list (option nat)) : list (option nat) :=
  match n with
  | O => update
  | S n' => fill_update n' (S from) (<[from := Some head]> update)
  end.

Definition set_next (i : nat) (q : option nat) (n : node V) : node V :=
  Node (n_key n) (n_value n) (<[i := q]> (n_next n)).

Definition set_value (v : V) (n : node V) : node V := Node (n_key n) v (n_next n).

(** The splice loop: [n.next[i] = update[i].next[i]; update[i].next[i] = n]. *)
Fixpoint splice (cnt i : nat) nodes (n : nat) (update : list (option nat))
    : option (list (node V)) :=
  match cnt with
  | O => Some nodes
  | S cnt' =>
      u ← mjoin (update !! i);
      nx ← getnext nodes u i;
      let nodes1 := alter (set_next i nx) n nodes in
      let nodes2 := alter (set_next i (Some n)) u nodes1 in
      splice cnt' (S i) nodes2 n update
  end.

(** The test [next != nil && bytes.Equal(next.key, key)]; the pointer when it holds. *)
Definition match_key nodes (nx : option nat) (key : bytes) : option (option nat) :=
  match nx with
  | None => Some None
  | Some q => n ← nodes !! q; Some (if bytes_eqb (n_key n) key then Some q else None)
  end.

Definition Put s (key : bytes) (value : V) : option (SkipList V) :=
  '(cur, update) ← descend (sl_nodes s) (fun k => bytes_ltb k key) (sl_level s) head
                     (replicate maxLevel None);
  nx ← getnext (sl_nodes s) cur 0;
  hit ← match_key (sl_nodes s) nx key;
  match hit with
  | Some q =>
      Some (MkSkipList (alter (set_value value) q (sl_nodes s)) (sl_level s) (sl_length s)
              (sl_rnd s))
  | None =>
      let '(lvl, rnd') := randomLevel (sl_rnd s) in
      let update' :=
        if sl_level s <? lvl then fill_update (lvl - sl_level s) (sl_level s) update else update in
      let level' := if sl_level s <? lvl then lvl else sl_level s in
      let n := length (sl_nodes s) in
      nodes' ← splice lvl 0 (sl_nodes s ++ [Node key value (replicate lvl None)]) n update';
      Some (MkSkipList nodes' level' (S (sl_length s)) rnd')
  end.

(** The pair [(value, found)]; the value of a miss is the zero value. *)
Definition Get s (key : bytes) : option (V * bool) :=
  '(cur, _) ← descend (sl_nodes s) (fun k => bytes_ltb k key) (sl_level s) head [];
  nx ← getnext (sl_nodes s) cur 0;
  hit ← match_key (sl_nodes s) nx key;
  match hit with
  | Some q => n ← sl_nodes s !! q; Some (n_value n, true)
  | None => Some (inhabitant, false)
  end.

Definition Len s : nat := sl_length s.

(** The level-0 walk shared by [All] and [Range]: collect until [stop] holds. *)
Fixpoint collect (fuel : nat) nodes (stop : bytes -> bool) (p : option nat)
    : option (list (KV V)) :=
  match fuel with
  | O => None
  | S fuel' =>
      match p with
      | None => Some []
      | Some q =>
          n ← nodes !! q;
          if stop (n_key n) then Some []
          else
            nx ← n_next n !! 0;
            out ← collect fuel' nodes stop nx;
            Some ((n_key n, n_value n) :: out)
      end
  end.

Definition All s : option (list (KV V)) :=
  nx ← getnext (sl_nodes s) head 0;
  collect (S (length (sl_nodes s))) (sl_nodes s) (fun _ => false) nx.

Definition Range s (start end_ : option bytes) : option (list (KV V)) :=
  '(cur, _) ← descend (sl_nodes s)
     (fun k => match start with None => false | Some st => bytes_ltb k st end)
     (sl_level s) head [];
  nx ← getnext (sl_nodes s) cur 0;
  collect (S (length (sl_nodes s))) (sl_nodes s)
    (fun k => match end_ with None => false | Some e => bytes_leb e k end) nx.

(** ** The invariant

    [B] lists the nodes in level-0 order; level [i] links exactly the nodes
    of [B] whose [next] array is longer than [i], in the same order. *)

Definition key_at nodes (p : nat) : bytes :=
  match nodes !! p with Some n => n_key n | None => [] end.
Definition value_at nodes (p : nat) : V :=
  match nodes !! p with Some n => n_value n | None => inhabitant end.
Definition height nodes (p : nat) : nat :=
  match nodes !! p with Some n => length (n_next n) | None => 0 end.

Fixpoint chain nodes (i p : nat) (l : list nat) : Prop :=
  match l with
  | [] => getnext nodes p i = Some None
  | q :: l' => getnext nodes p i = Some (Some q) /\ chain nodes i q l'
  end.

Definition lvl nodes (i : nat) (B : list nat) : list nat :=
  filter (fun p => i < height nodes p) B.

Record sl_inv s (B : list nat) : Prop := {
  inv_level : 1 <= sl_level s <= maxLevel;
  inv_chain : forall i, i < maxLevel -> chain (sl_nodes s) i head (lvl (sl_nodes s) i B);
  inv_height : Forall (fun p => 1 <= height (sl_nodes s) p <= sl_level s) B;
  inv_ptr : Forall (fun p => p <> head) B;
  inv_size : length (sl_nodes s) = S (length B);
  inv_length : sl_length s = length B;
  inv_sorted : StronglySorted (fun p q => key_at (sl_nodes s) p <b key_at (sl_nodes s) q) B
}.

Definition contents nodes (B : list nat) : list (KV V) :=
  map (fun p => (key_at nodes p, value_at nodes p)) B.

(** A skip list represents an ordered map. *)
Definition represents s (l : list (KV V)) : Prop :=
  exists B, sl_inv s B /\ contents (sl_nodes s) B = l.

(** ** The traversal *)

Lemma advance_spec nodes lt i cur b c fuel :
  chain nodes i cur (b ++ c) ->
  Forall (fun p => lt (key_at nodes p) = true) b ->
  Forall (fun p => lt (key_at nodes p) = false) c ->
  Forall (fun p => is_Some (nodes !! p)) (b ++ c) ->
  length b < fuel ->
  advance fuel nodes lt i cur = Some (default cur (last b)) /\
  chain nodes i (default cur (last b)) c.
Proof.
  revert cur fuel. induction b as [|q b IH]; intros cur [|fuel] Hch Hb Hc Hin Hf; simpl in *; try lia.
  - destruct c as [|q c]; simpl in *.
    + by rewrite Hch.
    + destruct Hch as [Hq Hch]. rewrite Hq; simpl.
      apply Forall_cons in Hc as [Hc _], Hin as [[n Hn] _].
      unfold key_at in Hc. rewrite Hn in *; simpl. by rewrite Hc.
  - destruct Hch as [Hq Hch]. rewrite Hq; simpl.
    apply Forall_cons in Hb as [Hq' Hb], Hin as [[n Hn] Hin].
    unfold key_at in Hq'. rewrite Hn in *; simpl. rewrite Hq'.
    destruct (IH q fuel) as [-> Hc']; try done; [lia|].
    assert (default cur (last (q :: b)) = default q (last b)) as ->.
    { rewrite last_cons. by destruct (last b). }
    done.
Qed.

Lemma last_default_app {A} (l : list A) x d : default d (last (l ++ [x])) = x.
Proof. by rewrite last_snoc. Qed.

Lemma chain_suffix nodes i p a q b : chain nodes i p (a ++ q :: b) -> chain nodes i q b.
Proof. revert p; induction a as [|x a IH]; simpl; intros p [? ?]; eauto. Qed.

Lemma lvl_app nodes i B1 B2 : lvl nodes i (B1 ++ B2) = lvl nodes i B1 ++ lvl nodes i B2.
Proof. apply filter_app. Qed.

Lemma elem_of_lvl nodes i B p : p ∈ lvl nodes i B <-> i < height nodes p /\ p ∈ B.
Proof. unfold lvl. by rewrite list_elem_of_filter. Qed.

Lemma Forall_lvl (P : nat -> Prop) nodes i B : Forall P B -> Forall P (lvl nodes i B).
Proof. apply Forall_filter. Qed.

Lemma lvl_nil nodes i B :
  Forall (fun p => height nodes p <= i) B -> lvl nodes i B = [].
Proof.
  intros HB. apply filter_Forall_nil. eapply Forall_impl; [done|]. simpl. lia.
Qed.

Lemma lvl_all nodes B : Forall (fun p => 1 <= height nodes p) B -> lvl nodes 0 B = B.
Proof.
  intros HB. apply filter_Forall_id. eapply Forall_impl; [done|]. simpl. lia.
Qed.

Lemma height_in_store nodes p : 1 <= height nodes p -> is_Some (nodes !! p).
Proof. unfold height. destruct (nodes !! p); [eauto|lia]. Qed.

(** The last node at level [i] or above among those before the search point. *)
Definition pred nodes (i : nat) (below : list nat) : nat :=
  default head (last (lvl nodes i below)).

(** The last element of a filtered list splits the list filtered by a weaker test. *)
Lemma last_filter_split {A} (P Q : A -> Prop) `{!forall x, Decision (P x)}
    `{!forall x, Decision (Q x)} (l : list A) x :
  (forall y, P y -> Q y) -> last (filter P l) = Some x ->
  exists a b, filter Q l = a ++ x :: b.
Proof.
  intros HPQ Hl. assert (x ∈ filter Q l) as Hin.
  { apply last_Some_elem_of in Hl. rewrite list_elem_of_filter in Hl |- *. destruct Hl; auto. }
  by apply list_elem_of_split in Hin.
Qed.

Section search.
Context (nodes : list (node V)) (lt : bytes -> bool) (below above : list nat).
Hypothesis Hbelow : Forall (fun p => lt (key_at nodes p) = true) below.
Hypothesis Habove : Forall (fun p => lt (key_at nodes p) = false) above.
Hypothesis Hstore : Forall (fun p => 1 <= height nodes p) (below ++ above).
Hypothesis Hsize : length (below ++ above) < length nodes.

Lemma advance_pred i :
  chain nodes i head (lvl nodes i (below ++ above)) ->
  advance (S (length nodes)) nodes lt i (pred nodes (S i) below) = Some (pred nodes i below) /\
  chain nodes i (pred nodes i below) (lvl nodes i above).
Proof.
  intros Hch. rewrite lvl_app in Hch.
  assert (exists b, chain nodes i (pred nodes (S i) below) (b ++ lvl nodes i above) /\
            (forall x, x ∈ b -> x ∈ lvl nodes i below) /\ length b <= length (lvl nodes i below) /\
            default (pred nodes (S i) below) (last b) = pred nodes i below)
    as (b & Hb & Hsub & Hlen & Hlast).
  { unfold pred. destruct (last (lvl nodes (S i) below)) as [x|] eqn:Hl; simpl.
    - destruct (last_filter_split (fun p => S i < height nodes p) (fun p => i < height nodes p)
                  below x) as (a & b & Hab); [intros; lia|exact Hl|].
      fold (lvl nodes i below) in Hab.
      exists b. rewrite Hab in *. split_and!.
      + rewrite <- app_assoc in Hch. simpl in Hch. by apply chain_suffix in Hch.
      + intros y Hy. apply elem_of_app. right. by right.
      + rewrite length_app. simpl. lia.
      + rewrite last_app. rewrite last_cons. by destruct (last b).
    - exists (lvl nodes i below). auto. }
  assert (Forall (fun p => is_Some (nodes !! p)) (below ++ above)) as Hst.
  { eapply Forall_impl; [exact Hstore|]. intros p. apply height_in_store. }
  apply Forall_app in Hst as [Hst1 Hst2].
  assert (length (lvl nodes i below) <= length below) by apply length_filter.
  rewrite length_app in Hsize.
  rewrite <- Hlast. apply advance_spec; [done| | | |lia].
  - apply Forall_forall. intros x [_ Hx]%Hsub%elem_of_lvl.
    rewrite Forall_forall in Hbelow. auto.
  - by apply Forall_lvl.
  - apply Forall_app; split; [|by apply Forall_lvl].
    apply Forall_forall. intros x [_ Hx]%Hsub%elem_of_lvl.
    rewrite Forall_forall in Hst1. auto.
Qed.

Lemma descend_pred n update :
  (forall i, i < n -> chain nodes i head (lvl nodes i (below ++ above))) ->
  exists update',
    descend nodes lt n (pred nodes n below) update = Some (pred nodes 0 below, update') /\
    length update' = length update /\
    (forall i, i < n -> i < length update -> update' !! i = Some (Some (pred nodes i below))) /\
    (forall i, n <= i -> update' !! i = update !! i).
Proof.
  revert update. induction n as [|n IH]; intros update Hch; cbn [descend].
  - exists update. split_and!; auto; lia.
  - destruct (advance_pred n) as [-> _]; [auto|]. cbn [mbind option_bind].
    destruct (IH (<[n := Some (pred nodes n below)]> update)) as (u' & -> & Hl & Hu & Hk); [auto|].
    exists u'. rewrite length_insert in *. split_and!; [done|done| |].
    + intros i Hi Hi2. destruct (decide (i = n)) as [->|Hne].
      * rewrite Hk by lia. by apply list_lookup_insert_eq.
      * apply Hu; lia.
    + intros i Hi. rewrite Hk by lia. by rewrite list_lookup_insert_ne by lia.
Qed.
End search.

Lemma search_inv s B lt update :
  sl_inv s B -> (forall a b, a <b b -> lt b = true -> lt a = true) ->
  exists below above update',
    B = below ++ above /\
    Forall (fun p => lt (key_at (sl_nodes s) p) = true) below /\
    Forall (fun p => lt (key_at (sl_nodes s) p) = false) above /\
    descend (sl_nodes s) lt (sl_level s) head update = Some (pred (sl_nodes s) 0 below, update') /\
    length update' = length update /\
    (forall i, i < sl_level s -> i < length update ->
               update' !! i = Some (Some (pred (sl_nodes s) i below))) /\
    (forall i, sl_level s <= i -> update' !! i = update !! i) /\
    (forall i, sl_level s <= i -> pred (sl_nodes s) i below = head) /\
    (forall i, i < maxLevel ->
               chain (sl_nodes s) i (pred (sl_nodes s) i below) (lvl (sl_nodes s) i above)).
Proof.
  intros Hinv Hmono. destruct Hinv as [Hlev Hch Hh Hptr Hsz Hlen Hsort].
  set (nodes := sl_nodes s) in *.
  pose proof (filter_split_mono _ (fun p => lt (key_at nodes p)) B
                (fun p q H1 H2 => Hmono _ _ H1 H2) Hsort) as Hsplit.
  set (below := filter _ B) in Hsplit. set (above := filter _ B) in Hsplit.
  assert (Forall (fun p => lt (key_at nodes p) = true) below) as Hb.
  { apply Forall_forall. by intros x [? _]%list_elem_of_filter. }
  assert (Forall (fun p => lt (key_at nodes p) = false) above) as Ha.
  { apply Forall_forall. by intros x [? _]%list_elem_of_filter. }
  clearbody below above. subst B.
  assert (Forall (fun p => 1 <= height nodes p) (below ++ above)) as Hst
    by (eapply Forall_impl; [exact Hh|]; simpl; lia).
  assert (forall i, sl_level s <= i -> pred nodes i below = head) as Hhead.
  { intros i Hi. unfold pred. rewrite lvl_nil; [done|].
    apply Forall_app in Hh as [Hh _]. eapply Forall_impl; [exact Hh|]. simpl. lia. }
  destruct (descend_pred nodes lt below above Hb Ha Hst ltac:(lia) (sl_level s) update)
    as (u' & Hd & Hl & Hu & Hk).
  { intros i Hi. apply Hch. lia. }
  rewrite (Hhead (sl_level s)) in Hd by done.
  exists below, above, u'. split_and!; auto.
  intros i Hi. eapply advance_pred; eauto; lia.
Qed.

(** The level-0 successor of the search point is the first key at or above it. *)
Lemma search_next s B below above :
  sl_inv s B -> B = below ++ above ->
  chain (sl_nodes s) 0 (pred (sl_nodes s) 0 below) (lvl (sl_nodes s) 0 above) ->
  getnext (sl_nodes s) (pred (sl_nodes s) 0 below) 0 = Some (list.head above) /\
  chain (sl_nodes s) 0 (pred (sl_nodes s) 0 below) above.
Proof.
  intros Hinv -> Hch. rewrite lvl_all in Hch.
  - split; [|done]. destruct above; simpl in *; [done|]. apply Hch.
  - pose proof (inv_height _ _ Hinv) as Hh. apply Forall_app in Hh as [_ Hh].
    eapply Forall_impl; [exact Hh|]. simpl. lia.
Qed.

Lemma node_at s B p : sl_inv s B -> p ∈ B -> exists n, sl_nodes s !! p = Some n.
Proof.
  intros Hinv Hp. pose proof (inv_height _ _ Hinv) as Hh. rewrite Forall_forall in Hh.
  apply Hh in Hp. apply height_in_store. lia.
Qed.

(** ** [Get] *)

Lemma contents_app nodes B1 B2 :
  contents nodes (B1 ++ B2) = contents nodes B1 ++ contents nodes B2.
Proof. apply map_app. Qed.

Lemma Forall_contents nodes (P : bytes -> Prop) B :
  Forall (fun p => P (key_at nodes p)) B <-> Forall (fun kv => P kv.1) (contents nodes B).
Proof. unfold contents. by rewrite Forall_map. Qed.

Lemma contents_sorted s B : sl_inv s B -> sorted_keys (contents (sl_nodes s) B).
Proof.
  intros Hinv. pose proof (inv_sorted _ _ Hinv) as Hs. clear Hinv.
  induction Hs as [|p B Hs IH Hp]; simpl; [apply sorted_keys_nil|].
  apply sorted_keys_cons. split; [done|]. by apply Forall_contents.
Qed.

Lemma ltb_mono key a b : a <b b -> bytes_ltb b key = true -> bytes_ltb a key = true.
Proof. rewrite !bytes_ltb_lt. apply bytes_lt_trans. Qed.

(** What the test of [Put] and [Get] finds at the search point. *)
Lemma match_key_spec s B below above key :
  sl_inv s B -> B = below ++ above ->
  Forall (fun p => bytes_ltb (key_at (sl_nodes s) p) key = true) below ->
  Forall (fun p => bytes_ltb (key_at (sl_nodes s) p) key = false) above ->
  (exists q above', above = q :: above' /\ key_at (sl_nodes s) q = key /\
     match_key (sl_nodes s) (list.head above) key = Some (Some q) /\
     om_lookup key (contents (sl_nodes s) B) = Some (value_at (sl_nodes s) q)) \/
  (match_key (sl_nodes s) (list.head above) key = Some None /\
   om_lookup key (contents (sl_nodes s) B) = None /\
   Forall (fun p => key <b key_at (sl_nodes s) p) above).
Proof.
  intros Hinv -> Hb Ha. pose proof (inv_sorted _ _ Hinv) as Hs.
  rewrite contents_app, om_lookup_app.
  assert (om_lookup key (contents (sl_nodes s) below) = None) as ->.
  { apply om_lookup_not_in. intros ([k' v] & -> & Hin)%list_elem_of_fmap.
    pose proof (proj1 (Forall_contents _ (fun k => bytes_ltb k k' = true) _) Hb) as Hb'.
    rewrite Forall_forall in Hb'. apply Hb' in Hin. simpl in Hin. border. }
  apply StronglySorted_app_1_r in Hs.
  destruct above as [|q above]; simpl; [right; by split_and!|].
  destruct (node_at s _ q Hinv) as [n Hn]; [apply elem_of_app; right; left|].
  apply Forall_cons in Ha as [Hq Ha]. apply StronglySorted_inv in Hs as [_ Hs].
  assert (key_at (sl_nodes s) q = n_key n) as Hkq by (unfold key_at; by rewrite Hn).
  rewrite Hn, Hkq in *. simpl.
  destruct (bytes_eqb (n_key n) key) eqn:E.
  - apply bytes_eqb_eq in E. left. exists q, above. split_and!; auto; congruence.
  - right. apply bytes_eqb_ne in E. apply bytes_ltb_ge in Hq.
    assert (key <b n_key n) by (apply bytes_le_lteq in Hq as [?|?]; congruence).
    assert (Forall (fun p => key <b key_at (sl_nodes s) p) above) as Hall
      by (eapply Forall_impl; [exact Hs|]; simpl; eauto with flume).
    split_and!; [done| |constructor; [by rewrite Hkq|done]].
    apply om_lookup_lt. by apply (Forall_contents _ (fun k => key <b k)).
Qed.

Lemma Get_refines s l key :
  represents s l ->
  Get s key = Some (match om_lookup key l with Some v => (v, true) | None => (inhabitant, false) end).
Proof.
  intros (B & Hinv & <-). unfold Get.
  destruct (search_inv s B (fun k => bytes_ltb k key) [] Hinv (ltb_mono key))
    as (below & above & u & HB & Hb & Ha & -> & _ & _ & _ & _ & Hch). simpl.
  destruct (search_next s B below above) as [-> _]; [done|done|apply Hch; unfold maxLevel; lia|].
  cbn [mbind option_bind].
  destruct (match_key_spec s B below above key Hinv HB Hb Ha)
    as [(q & above' & -> & Hq & -> & ->)|(-> & -> & _)]; cbn [mbind option_bind]; [|done].
  destruct (node_at s B q Hinv) as [n Hn]; [subst; apply elem_of_app; right; left|].
  unfold value_at. by rewrite Hn.
Qed.

(** ** [All] and [Range] *)

Lemma collect_spec s B B1 B2 stop p fuel :
  sl_inv s B -> (forall q, q ∈ B1 ++ B2 -> q ∈ B) ->
  getnext (sl_nodes s) p 0 = Some (list.head (B1 ++ B2)) ->
  chain (sl_nodes s) 0 p (B1 ++ B2) ->
  Forall (fun q => stop (key_at (sl_nodes s) q) = false) B1 ->
  match list.head B2 with Some q => stop (key_at (sl_nodes s) q) = true | None => True end ->
  length B1 < fuel ->
  collect fuel (sl_nodes s) stop (list.head (B1 ++ B2)) = Some (contents (sl_nodes s) B1).
Proof.
  intros Hinv. revert p fuel. induction B1 as [|q B1 IH]; intros p [|fuel] Hin Hp Hch H1 H2 Hf;
    simpl in *; try lia.
  - destruct B2 as [|q B2]; simpl in *; [done|].
    destruct (node_at s B q Hinv) as [n Hn]; [apply Hin; left|]. rewrite Hn. simpl.
    unfold key_at in H2. rewrite Hn in H2. by rewrite H2.
  - destruct (node_at s B q Hinv) as [n Hn]; [apply Hin; left|]. rewrite Hn. simpl.
    apply Forall_cons in H1 as [H1 H1']. unfold key_at in H1. rewrite Hn in H1. rewrite H1.
    destruct Hch as [_ Hch].
    assert (getnext (sl_nodes s) q 0 = Some (list.head (B1 ++ B2))) as Hnx.
    { destruct (B1 ++ B2); simpl in *; [done|]. apply Hch. }
    pose proof Hnx as Hnx'. unfold getnext in Hnx'. rewrite Hn in Hnx'. simpl in Hnx'.
    rewrite Hnx'. simpl. erewrite IH; eauto; [|intros; apply Hin; by right|lia].
    simpl. unfold key_at, value_at. by rewrite Hn.
Qed.

Lemma All_refines s l : represents s l -> All s = Some l.
Proof.
  intros (B & Hinv & <-). unfold All.
  pose proof (inv_chain _ _ Hinv 0 ltac:(unfold maxLevel; lia)) as Hch.
  rewrite lvl_all in Hch
    by (eapply Forall_impl; [exact (inv_height _ _ Hinv)|]; simpl; lia).
  assert (getnext (sl_nodes s) head 0 = Some (list.head B)) as Hnx.
  { destruct B; simpl in *; [done|]. apply Hch. }
  rewrite Hnx. cbn [mbind option_bind]. rewrite <- (app_nil_r B) at 1.
  apply (collect_spec s B B [] _ head); rewrite ?app_nil_r; try done.
  - by apply Forall_forall.
  - rewrite (inv_size _ _ Hinv). lia.
Qed.

Lemma filter_range_split (start end_ : option bytes) l1 l2 l3 :
  Forall (fun kv : KV V => match start with None => False | Some st => kv.1 <b st end) l1 ->
  Forall (fun kv : KV V => in_range start end_ kv.1) l2 ->
  Forall (fun kv : KV V => match end_ with None => False | Some e => e <=b kv.1 end) l3 ->
  om_range start end_ (l1 ++ l2 ++ l3) = l2.
Proof.
  intros H1 H2 H3. unfold om_range. rewrite !filter_app.
  rewrite (filter_Forall_nil _ l1), (filter_Forall_id _ l2), (filter_Forall_nil _ l3);
    [by rewrite app_nil_r| |done|].
  - eapply Forall_impl; [exact H3|]. unfold in_range. intros [k v] Hk [_ Hk2].
    simpl in *. destruct end_; [|done]. border.
  - eapply Forall_impl; [exact H1|]. unfold in_range. intros [k v] Hk [Hk2 _].
    simpl in *. destruct start; [|done]. border.
Qed.

Lemma stop_mono (end_ : option bytes) a b :
  a <b b ->
  negb (match end_ with None => false | Some e => bytes_leb e b end) = true ->
  negb (match end_ with None => false | Some e => bytes_leb e a end) = true.
Proof.
  destruct end_ as [e|]; [|done]. rewrite !negb_true_iff. intros Hab Hb.
  destruct (bytes_leb e a) eqn:E; [|done]. apply bytes_leb_le in E.
  assert (e <=b b) as Hc by eauto with flume. apply bytes_leb_le in Hc. congruence.
Qed.

Lemma Range_refines s l start end_ :
  represents s l -> Range s start end_ = Some (om_range start end_ l).
Proof.
  intros (B & Hinv & <-). unfold Range.
  set (lt := fun k => match start with None => false | Some st => bytes_ltb k st end).
  destruct (search_inv s B lt [] Hinv) as (below & above & u & HB & Hb & Ha & -> & _ & _ & _ & _ & Hch).
  { intros a b Hab. unfold lt. destruct start; [|done]. eauto using ltb_mono. }
  destruct (search_next s B below above) as [Hnx Hch0]; [done|done|apply Hch; unfold maxLevel; lia|].
  cbn [mbind option_bind]. rewrite Hnx. cbn [mbind option_bind].
  set (stop := fun k => match end_ with None => false | Some e => bytes_leb e k end).
  pose proof (inv_sorted _ _ Hinv) as Hs. rewrite HB in Hs. apply StronglySorted_app_1_r in Hs.
  pose proof (filter_split_mono _ (fun p => negb (stop (key_at (sl_nodes s) p))) above
                (fun p q => stop_mono end_ _ _) Hs) as Hsp.
  set (B1 := filter _ above) in Hsp. set (B2 := filter _ above) in Hsp.
  assert (Forall (fun q => stop (key_at (sl_nodes s) q) = false) B1) as HB1.
  { apply Forall_forall. intros x [Hx _]%list_elem_of_filter. by apply negb_true_iff in Hx. }
  assert (Forall (fun q => stop (key_at (sl_nodes s) q) = true) B2) as HB2.
  { apply Forall_forall. intros x [Hx _]%list_elem_of_filter. by apply negb_false_iff in Hx. }
  clearbody B1 B2. subst above. erewrite collect_spec with (B := B) (B1 := B1); eauto.
  - rewrite HB, !contents_app. f_equal. symmetry.
    apply filter_range_split.
    + apply (Forall_contents _ (fun k => match start with None => False | Some st => k <b st end)).
      eapply Forall_impl; [exact Hb|]. unfold lt. intros p. destruct start; [apply bytes_ltb_lt|done].
    + apply (Forall_contents _ (in_range start end_)), Forall_forall. intros p Hp.
      apply Forall_app in Ha as [Ha _]. rewrite Forall_forall in Ha, HB1.
      specialize (Ha _ Hp). specialize (HB1 _ Hp). unfold lt in Ha. unfold stop in HB1.
      split; [destruct start; [by apply bytes_ltb_ge|done]|].
      destruct end_; [|done]. apply bytes_nle_gt. rewrite <- bytes_leb_le. by rewrite HB1.
    + apply (Forall_contents _ (fun k => match end_ with None => False | Some e => e <=b k end)).
      eapply Forall_impl; [exact HB2|]. unfold stop. intros p. destruct end_; [apply bytes_leb_le|done].
  - intros q Hq. subst B. apply elem_of_app. by right.
  - destruct B2; simpl; [done|]. by apply Forall_cons in HB2 as [? _].
  - rewrite (inv_size _ _ Hinv), HB, !length_app. lia.
Qed.

(** ** [Put] *)

Lemma randomLevel_loop_bounds lv rnd :
  lv <= maxLevel -> lv <= (randomLevel_loop lv rnd).1 <= maxLevel.
Proof.
  revert lv; induction rnd as [|b rnd IH]; intros lv Hl; simpl;
    destruct (Nat.ltb_spec lv maxLevel); simpl; try lia; destruct b; simpl; [|lia].
  specialize (IH (S lv)). lia.
Qed.

Lemma randomLevel_bounds rnd : 1 <= (randomLevel rnd).1 <= maxLevel.
Proof. apply randomLevel_loop_bounds. unfold maxLevel. lia. Qed.

Lemma fill_update_length n from u : length (fill_update n from u) = length u.
Proof. revert from u; induction n; intros; simpl; [done|]. by rewrite IHn, length_insert. Qed.

Lemma fill_update_lookup n from u i :
  from + n <= length u ->
  fill_update n from u !! i =
    if decide (from <= i < from + n) then Some (Some head) else u !! i.
Proof.
  revert from u; induction n as [|n IH]; intros from u Hl; simpl.
  - rewrite decide_False by lia. done.
  - rewrite IH by (rewrite length_insert; lia).
    repeat case_decide; try lia; auto.
    + assert (i = from) as -> by lia. by apply list_lookup_insert_eq; lia.
    + by apply list_lookup_insert_ne; lia.
Qed.

Definition same_shape nodes nodes' : Prop :=
  length nodes' = length nodes /\
  forall p, key_at nodes' p = key_at nodes p /\ value_at nodes' p = value_at nodes p /\
            height nodes' p = height nodes p.

Lemma same_shape_set_next nodes i q p : same_shape nodes (alter (set_next i q) p nodes).
Proof.
  split; [apply length_alter|]. intros p'. unfold key_at, value_at, height.
  rewrite list_lookup_alter. case_decide; subst; [|done].
  destruct (nodes !! p'); simpl; [|done]. by rewrite length_insert.
Qed.

Lemma same_shape_trans n1 n2 n3 : same_shape n1 n2 -> same_shape n2 n3 -> same_shape n1 n3.
Proof.
  intros [L1 H1] [L2 H2]. split; [congruence|]. intros p.
  destruct (H1 p) as (? & ? & ?), (H2 p) as (? & ? & ?). split_and!; congruence.
Qed.

Lemma getnext_Some_height nodes p i nx : getnext nodes p i = Some nx -> i < height nodes p.
Proof.
  unfold getnext, height. destruct (nodes !! p); simpl; [|done]. apply lookup_lt_Some.
Qed.

Lemma getnext_set_next nodes i q p p' j :
  getnext (alter (set_next i q) p nodes) p' j =
    if decide (p' = p /\ j = i /\ i < height nodes p) then Some q else getnext nodes p' j.
Proof.
  unfold getnext, height. rewrite list_lookup_alter.
  destruct (decide (p = p')) as [<-|Hne]; [|rewrite decide_False by naive_solver; done].
  destruct (nodes !! p) as [n|]; simpl; [|by rewrite decide_False by (intros (_ & _ & ?); lia)].
  destruct (decide (i = j)) as [<-|Hij].
  - destruct (decide (i < length (n_next n))).
    + rewrite decide_True by done. by apply list_lookup_insert_eq.
    + rewrite decide_False by naive_solver. by rewrite list_insert_ge by lia.
  - rewrite decide_False by naive_solver. by apply list_lookup_insert_ne.
Qed.

(** The pointers after the splice, one level at a time. *)
Lemma splice_spec cnt i nodes n update (u : nat -> nat) :
  (forall j, i <= j < i + cnt -> update !! j = Some (Some (u j)) /\ u j <> n /\
             is_Some (getnext nodes (u j) j)) ->
  i + cnt <= height nodes n ->
  exists nodes',
    splice cnt i nodes n update = Some nodes' /\ same_shape nodes nodes' /\
    forall p j, getnext nodes' p j =
      if decide (i <= j < i + cnt) then
        if decide (p = u j) then Some (Some n)
        else if decide (p = n) then getnext nodes (u j) j
        else getnext nodes p j
      else getnext nodes p j.
Proof.
  revert i nodes. induction cnt as [|cnt IH]; intros i nodes Hu Hn; simpl.
  - exists nodes. split_and!; [done|by split|]. intros p j. by rewrite decide_False by lia.
  - destruct (Hu i ltac:(lia)) as (Hui & Hne & nx & Hnx). rewrite Hui. simpl. rewrite Hnx. simpl.
    set (nodes2 := alter (set_next i (Some n)) (u i) (alter (set_next i nx) n nodes)).
    assert (same_shape nodes nodes2) as Hsh
      by (eapply same_shape_trans; apply same_shape_set_next).
    assert (forall p j, getnext nodes2 p j =
              if decide (j = i) then
                if decide (p = u i) then Some (Some n)
                else if decide (p = n) then Some nx else getnext nodes p j
              else getnext nodes p j) as Hg.
    { intros p j. unfold nodes2. rewrite !getnext_set_next.
      destruct (same_shape_set_next nodes i nx n) as [_ Hh].
      destruct (Hh (u i)) as (_ & _ & ->). apply getnext_Some_height in Hnx.
      repeat case_decide; naive_solver lia. }
    destruct (IH (S i) nodes2) as (nodes' & -> & Hsh' & Hg').
    { intros j Hj. destruct (Hu j ltac:(lia)) as (? & ? & ?). split_and!; auto.
      rewrite Hg. by rewrite decide_False by lia. }
    { destruct Hsh as [_ Hh]. destruct (Hh n) as (_ & _ & ->). lia. }
    exists nodes'. split_and!; [done|by eapply same_shape_trans|].
    intros p j. rewrite Hg', !Hg. repeat case_decide; subst; try lia; auto.
Qed.

Lemma chain_frame nodes nodes' i p p' l :
  getnext nodes' p' i = getnext nodes p i ->
  (forall q, q ∈ l -> getnext nodes' q i = getnext nodes q i) ->
  chain nodes i p l -> chain nodes' i p' l.
Proof.
  revert p p'; induction l as [|q l IH]; simpl; intros p p' Hp Hl Hc; [congruence|].
  destruct Hc as [Hq Hc]. split; [congruence|]. eapply IH; [apply Hl; left| |done].
  intros; apply Hl. by right.
Qed.

Lemma chain_insert nodes nodes' i p a c n :
  chain nodes i p (a ++ c) -> NoDup (p :: a ++ c) ->
  n ∉ p :: a ++ c ->
  (forall q, q <> n -> getnext nodes' q i =
     if decide (q = default p (last a)) then Some (Some n) else getnext nodes q i) ->
  getnext nodes' n i = getnext nodes (default p (last a)) i ->
  chain nodes' i p (a ++ n :: c).
Proof.
  revert p. induction a as [|x a IH]; intros p Hc Hnd Hnin Hg Hn; simpl in *.
  - split.
    + rewrite Hg by (intros ->; apply Hnin; left). by rewrite decide_True.
    + apply NoDup_cons in Hnd as [Hp Hnd]. apply (chain_frame nodes nodes' i p n c Hn); [|done].
      intros q Hq. rewrite Hg; [|intros ->; apply Hnin; by right].
      rewrite decide_False; [done|]. by intros ->.
  - destruct Hc as [Hx Hc]. apply NoDup_cons in Hnd as [Hp Hnd].
    assert (default p (last (x :: a)) = default x (last a)) as Hl
      by (rewrite last_cons; by destruct (last a)).
    rewrite Hl in *. split.
    + rewrite Hg by (intros ->; apply Hnin; left). rewrite decide_False; [done|].
      intros ->. apply Hp. destruct (last a) as [y|] eqn:E; simpl; [|left].
      right. apply elem_of_app. left. by apply last_Some_elem_of.
    + apply IH; auto. intros Hin. apply Hnin. by right.
Qed.

Lemma inv_NoDup s B : sl_inv s B -> NoDup (head :: B).
Proof.
  intros Hinv. constructor.
  - intros Hin. pose proof (inv_ptr _ _ Hinv) as Hp. rewrite Forall_forall in Hp.
    by apply Hp in Hin.
  - eapply StronglySorted_NoDup, (inv_sorted _ _ Hinv). intros p. apply bytes_lt_irrefl.
Qed.

Lemma inv_in_store s B p : sl_inv s B -> p ∈ head :: B -> p < length (sl_nodes s).
Proof.
  intros Hinv [->|Hp]%elem_of_cons.
  - rewrite (inv_size _ _ Hinv). unfold head. lia.
  - destruct (node_at s B p Hinv Hp) as [n Hn]. by apply lookup_lt_Some in Hn.
Qed.

Lemma Put_hit s below q above key v :
  sl_inv s (below ++ q :: above) -> key_at (sl_nodes s) q = key ->
  Forall (fun p => bytes_ltb (key_at (sl_nodes s) p) key = true) below ->
  represents (MkSkipList (alter (set_value v) q (sl_nodes s)) (sl_level s) (sl_length s) (sl_rnd s))
    (om_insert key v (contents (sl_nodes s) (below ++ q :: above))).
Proof.
  intros Hinv Hq Hb. set (nodes' := alter (set_value v) q (sl_nodes s)).
  assert (forall p, key_at nodes' p = key_at (sl_nodes s) p /\
            height nodes' p = height (sl_nodes s) p /\
            (forall i, getnext nodes' p i = getnext (sl_nodes s) p i)) as Hsame.
  { intros p. unfold nodes', key_at, height, getnext. rewrite list_lookup_alter.
    case_decide; subst; [|done]. by destruct (sl_nodes s !! p). }
  assert (forall i B, lvl nodes' i B = lvl (sl_nodes s) i B) as Hlvl.
  { intros i B. apply list_filter_iff. intros p. by destruct (Hsame p) as (_ & -> & _). }
  exists (below ++ q :: above). split.
  - destruct Hinv. constructor; simpl; fold nodes'; try done.
    + intros i Hi. rewrite Hlvl. apply (chain_frame (sl_nodes s) _ _ head); auto;
        intros; apply Hsame.
    + eapply Forall_impl; [exact inv_height0|]. intros p. simpl. by destruct (Hsame p) as (_ & -> & _).
    + unfold nodes'. by rewrite length_alter.
    + eapply StronglySorted_impl; [|done]. intros p p' _ _. simpl.
      by destruct (Hsame p) as (-> & _), (Hsame p') as (-> & _).
  - simpl. fold nodes'. pose proof (inv_NoDup _ _ Hinv) as Hnd.
    apply NoDup_cons in Hnd as [_ Hnd].
    destruct (node_at s _ q Hinv) as [n Hn]; [apply elem_of_app; right; left|].
    assert (forall p, p <> q -> value_at nodes' p = value_at (sl_nodes s) p) as Hval.
    { intros p Hne. unfold nodes', value_at. by rewrite list_lookup_alter_ne. }
    assert (forall B, q ∉ B -> contents nodes' B = contents (sl_nodes s) B) as Hcont.
    { intros B HqB. apply map_ext_in. intros p Hp%list_elem_of_In.
      rewrite Hval by (by intros ->). by destruct (Hsame p) as (-> & _). }
    apply NoDup_app in Hnd as (_ & Hd & [Hq2 _]%NoDup_cons).
    rewrite !contents_app. simpl. rewrite !Hcont; [|done|].
    + destruct (Hsame q) as (-> & _). rewrite Hq.
      rewrite om_insert_split_eq.
      * do 2 f_equal. unfold nodes', value_at. by rewrite list_lookup_alter_eq, Hn.
      * apply (Forall_contents _ (fun k => k <b key)).
        eapply Forall_impl; [exact Hb|]. intros p. by apply bytes_ltb_lt.
    + intros Hin. apply (Hd q Hin). left.
Qed.

Lemma pred_elem nodes i below : pred nodes i below ∈ head :: below.
Proof.
  unfold pred. destruct (last (lvl nodes i below)) as [p|] eqn:E; simpl; [|left].
  right. apply last_Some_elem_of, elem_of_lvl in E. tauto.
Qed.

(** Inserting a node of height [lv] between [below] and [above]. *)
Section insert.
Context (s : SkipList V) (below above : list nat) (key : bytes) (v : V) (lv : nat).
Context (nodes' : list (node V)) (rnd' : list bool).
Let nodes := sl_nodes s.
Let n := length nodes.
Let nodes0 := nodes ++ [Node key v (replicate lv None)].
Hypothesis Hinv : sl_inv s (below ++ above).
Hypothesis Hlv : 1 <= lv <= maxLevel.
Hypothesis Hbelow : Forall (fun p => key_at nodes p <b key) below.
Hypothesis Habove : Forall (fun p => key <b key_at nodes p) above.
Hypothesis Hshape : same_shape nodes0 nodes'.
Hypothesis Hnext : forall p j, getnext nodes' p j =
  if decide (0 <= j < 0 + lv) then
    if decide (p = pred nodes j below) then Some (Some n)
    else if decide (p = n) then getnext nodes0 (pred nodes j below) j
    else getnext nodes0 p j
  else getnext nodes0 p j.

Lemma insert_old p :
  p ∈ head :: below ++ above ->
  p <> n /\ key_at nodes' p = key_at nodes p /\ value_at nodes' p = value_at nodes p /\
  height nodes' p = height nodes p /\ forall j, getnext nodes0 p j = getnext nodes p j.
Proof.
  intros Hp. pose proof (inv_in_store _ _ _ Hinv Hp) as Hlt. fold nodes in Hlt.
  destruct Hshape as [_ Hs]. destruct (Hs p) as (-> & -> & ->).
  unfold key_at, value_at, height, getnext, nodes0. rewrite lookup_app_l by done.
  split_and!; auto. unfold n. lia.
Qed.

Lemma insert_new :
  key_at nodes' n = key /\ value_at nodes' n = v /\ height nodes' n = lv.
Proof.
  destruct Hshape as [_ Hs]. destruct (Hs n) as (-> & -> & ->).
  unfold key_at, value_at, height, nodes0, n. rewrite lookup_app_r by lia.
  rewrite Nat.sub_diag. simpl. by rewrite length_replicate.
Qed.

Lemma insert_lvl i B : (forall p, p ∈ B -> p ∈ below ++ above) -> lvl nodes' i B = lvl nodes i B.
Proof.
  intros HB. unfold lvl. induction B as [|p B IH]; [done|].
  rewrite !filter_cons. destruct (insert_old p) as (_ & _ & _ & -> & _);
    [right; apply HB; left|]. rewrite IH; [done|]. intros; apply HB; by right.
Qed.

Lemma insert_pred_in i : pred nodes i below ∈ head :: below ++ above.
Proof.
  pose proof (pred_elem nodes i below) as [->|Hp]%elem_of_cons; [left|].
  right. apply elem_of_app. by left.
Qed.

Lemma insert_chain i :
  i < maxLevel -> chain nodes' i head (lvl nodes' i (below ++ n :: above)).
Proof.
  intros Hi. pose proof (inv_chain _ _ Hinv i Hi) as Hch. fold nodes in Hch.
  pose proof (inv_NoDup _ _ Hinv) as Hnd.
  assert (Hn : n ∉ head :: below ++ above).
  { intros Hn%insert_old. by destruct Hn. }
  rewrite lvl_app in *. unfold lvl at 2. rewrite filter_cons. fold (lvl nodes' i above).
  destruct insert_new as (_ & _ & ->).
  rewrite !insert_lvl by (intros; apply elem_of_app; auto).
  destruct (decide (i < lv)) as [Hil|Hil].
  - apply (chain_insert nodes); try done.
    + rewrite <- lvl_app. apply NoDup_cons in Hnd as [Hh Hnd]. constructor.
      * by intros [_ ?]%elem_of_lvl.
      * by apply NoDup_filter.
    + rewrite <- lvl_app. intros [->|Hin]%elem_of_cons; [by apply Hn; left|].
      apply elem_of_lvl in Hin as [_ Hin]. by apply Hn; right.
    + intros q Hq. rewrite Hnext, decide_True by lia. fold (pred nodes i below).
      case_decide; [done|]. rewrite decide_False by done.
      unfold getnext, nodes0. destruct (decide (q < n)); [by rewrite lookup_app_l|].
      by rewrite !lookup_ge_None_2 by (rewrite ?length_app; simpl; unfold n in *; lia).
    + rewrite Hnext, decide_True by lia. fold (pred nodes i below).
      destruct (insert_old _ (insert_pred_in i)) as (Hne & _ & _ & _ & Hg).
      rewrite decide_False by done. by rewrite decide_True.
  - apply (chain_frame nodes _ _ head); [| |done].
    + rewrite Hnext, decide_False by lia. apply insert_old. left.
    + rewrite <- lvl_app. intros q [_ Hq]%elem_of_lvl. rewrite Hnext, decide_False by lia.
      apply insert_old. by right.
Qed.

Lemma insert_inv :
  sl_inv (MkSkipList nodes' (if sl_level s <? lv then lv else sl_level s)
            (S (sl_length s)) rnd') (below ++ n :: above).
Proof.
  pose proof (inv_level _ _ Hinv) as Hlev. destruct insert_new as (Hk & _ & Hh).
  assert (lv <= (if sl_level s <? lv then lv else sl_level s) /\
          sl_level s <= (if sl_level s <? lv then lv else sl_level s) <= maxLevel) as [? ?].
  { destruct (Nat.ltb_spec (sl_level s) lv); lia. }
  constructor; cbn [sl_nodes sl_level sl_length].
  - lia.
  - apply insert_chain.
  - apply Forall_app. pose proof (inv_height _ _ Hinv) as HhB. rewrite Forall_forall in HhB.
    split; [|constructor; [lia|]]; apply Forall_forall; intros p Hp;
      (destruct (insert_old p) as (_ & _ & _ & -> & _); [right; apply elem_of_app; auto|]);
      (specialize (HhB p ltac:(apply elem_of_app; auto)); fold nodes in HhB; lia).
  - pose proof (inv_ptr _ _ Hinv) as [Hp1 Hp2]%Forall_app. apply Forall_app. split; [done|].
    constructor; [|done]. unfold n, nodes. rewrite (inv_size _ _ Hinv). unfold head. lia.
  - destruct Hshape as [-> _]. unfold nodes0, nodes. rewrite length_app, (inv_size _ _ Hinv).
    rewrite !length_app. simpl. lia.
  - rewrite (inv_length _ _ Hinv), !length_app. simpl. lia.
  - pose proof (inv_sorted _ _ Hinv) as Hs. apply StronglySorted_app in Hs as (Hx & Hs1 & Hs2).
    assert (Hold : forall p, p ∈ below ++ above -> key_at nodes' p = key_at nodes p)
      by (intros p Hp; apply insert_old; by right).
    fold nodes in Hx, Hs1, Hs2. rewrite Forall_forall in Hbelow, Habove.
    apply StronglySorted_app. split_and!; [|eapply StronglySorted_impl; [|exact Hs1]|constructor].
    + intros p q Hp [->|Hq]%elem_of_cons.
      * rewrite Hk, Hold by (apply elem_of_app; auto). auto.
      * rewrite !Hold by (apply elem_of_app; auto). auto.
    + intros p q Hp Hq. rewrite !Hold by (apply elem_of_app; auto). auto.
    + eapply StronglySorted_impl; [|exact Hs2].
      intros p q Hp Hq. rewrite !Hold by (apply elem_of_app; auto). auto.
    + apply Forall_forall. intros p Hp. rewrite Hk, Hold by (apply elem_of_app; auto). auto.
Qed.

Lemma insert_contents :
  contents nodes' (below ++ n :: above) = om_insert key v (contents nodes (below ++ above)).
Proof.
  assert (Hold : forall B, (forall p, p ∈ B -> p ∈ below ++ above) ->
                   contents nodes' B = contents nodes B).
  { intros B HB. apply map_ext_in. intros p Hp%list_elem_of_In.
    destruct (insert_old p) as (_ & -> & -> & _); [right; auto|done]. }
  destruct insert_new as (Hk & Hv & _).
  rewrite !contents_app. simpl. rewrite Hk, Hv, !Hold by (intros; apply elem_of_app; auto).
  rewrite om_insert_split; [done| |].
  - by apply (Forall_contents _ (fun k => k <b key)).
  - by apply (Forall_contents _ (fun k => key <b k)).
Qed.
End insert.

Lemma Put_refines s l key v :
  represents s l -> exists s', Put s key v = Some s' /\ represents s' (om_insert key v l).
Proof.
  intros (B & Hinv & <-). unfold Put.
  destruct (search_inv s B (fun k => bytes_ltb k key) (replicate maxLevel None) Hinv (ltb_mono key))
    as (below & above & u & HB & Hb & Ha & -> & Hul & Hu & Hu2 & Hhd & Hch).
  rewrite length_replicate in *. cbn [mbind option_bind].
  destruct (search_next s B below above) as [-> _]; [done|done|apply Hch; unfold maxLevel; lia|].
  cbn [mbind option_bind].
  destruct (match_key_spec s B below above key Hinv HB Hb Ha)
    as [(q & above' & -> & Hq & -> & _)|(-> & _ & Hab)]; cbn [mbind option_bind]; subst B.
  { eexists. split; [done|]. by apply Put_hit. }
  pose proof (randomLevel_bounds (sl_rnd s)) as Hlv. destruct (randomLevel (sl_rnd s)) as [lv rnd'].
  simpl in Hlv. pose proof (inv_level _ _ Hinv) as Hlev.
  destruct (splice_spec lv 0 (sl_nodes s ++ [Node key v (replicate lv None)]) (length (sl_nodes s))
      (if sl_level s <? lv then fill_update (lv - sl_level s) (sl_level s) u else u)
      (fun j => pred (sl_nodes s) j below)) as (nodes' & -> & Hsh & Hnx).
  - intros j Hj. pose proof (insert_pred_in s below above j) as Hin.
    pose proof (inv_in_store _ _ _ Hinv Hin) as Hst. split_and!; [|lia|].
    + destruct (Nat.ltb_spec (sl_level s) lv); [rewrite fill_update_lookup by lia; case_decide|];
        [rewrite Hhd by lia; done|apply Hu; lia..].
    + unfold getnext. rewrite lookup_app_l by done. fold (getnext (sl_nodes s) (pred (sl_nodes s) j below) j).
      specialize (Hch j ltac:(lia)). destruct (lvl (sl_nodes s) j above); simpl in Hch; [eauto|].
      destruct Hch as [-> _]. eauto.
  - unfold height. rewrite lookup_app_r, Nat.sub_diag by lia. simpl. by rewrite length_replicate.
  - cbn [mbind option_bind]. eexists. split; [done|].
    assert (Forall (fun p => key_at (sl_nodes s) p <b key) below)
      by (eapply Forall_impl; [exact Hb|]; intros p; apply bytes_ltb_lt).
    exists (below ++ length (sl_nodes s) :: above). split.
    + eapply insert_inv; eauto.
    + eapply (insert_contents s below above key v lv); eauto.
Qed.

Lemma New_represents rnd : represents (New rnd) [].
Proof.
  exists []. split; [|done]. constructor; try done.
  - simpl. unfold maxLevel. lia.
  - intros i Hi. change (replicate maxLevel (@None nat) !! i = Some None).
    by apply lookup_replicate_2.
  - constructor.
Qed.

Lemma represents_sorted s l : represents s l -> sorted_keys l.
Proof. intros (B & Hinv & <-). by apply contents_sorted. Qed.

Lemma Len_refines s l : represents s l -> Len s = length l.
Proof.
  intros (B & Hinv & <-). unfold Len, contents. rewrite length_map. by apply inv_length.
Qed.

(** A run of [Put]s. *)
Fixpoint put_all (kvs : list (KV V)) s : option (SkipList V) :=
  match kvs with
  | [] => Some s
  | (k, v) :: kvs' => s' ← Put s k v; put_all kvs' s'
  end.

Lemma put_all_represents kvs s l :
  represents s l ->
  exists s' l', put_all kvs s = Some s' /\ represents s' l' /\
    om_map l' = foldl (fun m kv => <[kv.1 := kv.2]> m) (om_map l) kvs.
Proof.
  revert s l; induction kvs as [|[k v] kvs IH]; intros s l Hs; simpl; [eauto|].
  destruct (Put_refines s l k v Hs) as (s1 & -> & H1). simpl.
  destruct (IH _ _ H1) as (s2 & l2 & -> & H2 & Hm). exists s2, l2.
  split_and!; [done|done|]. by rewrite Hm, om_map_insert.
Qed.

(** C32: [Put] on a well-formed skip list never dereferences nil, never
    indexes out of range and terminates; whatever heights the coin flips
    give, the result is well formed again and its contents are the ordered
    map with the key inserted (or its value replaced), its length growing
    exactly when the key is new. *)
Theorem put_refines_insert s l key v :
  represents s l ->
  exists s', Put s key v = Some s' /\ represents s' (om_insert key v l) /\
    Len s' = match om_lookup key l with Some _ => Len s | None => S (Len s) end.
Proof.
  intros Hs. destruct (Put_refines s l key v Hs) as (s' & HP & Hs').
  exists s'. split_and!; [done|done|].
  rewrite (Len_refines _ _ Hs'), (Len_refines _ _ Hs).
  by apply om_insert_length, (represents_sorted s).
Qed.

(** After any run of [Put]s on a new skip list, for any coin flips,
    [Get] finds exactly the keys of the finite map built by the same
    insertions, with their latest values. *)
Theorem get_after_puts rnd kvs key :
  exists s, put_all kvs (New rnd) = Some s /\
    Get s key = Some (match foldl (fun (m : gmap bytes V) kv => <[kv.1 := kv.2]> m) ∅ kvs !! key with
                      | Some v => (v, true)
                      | None => (inhabitant, false)
                      end).
Proof.
  destruct (put_all_represents kvs _ _ (New_represents rnd)) as (s & l & HP & Hs & Hm).
  exists s. split; [done|]. rewrite (Get_refines s l) by done.
  by rewrite <- om_lookup_map, Hm.
Qed.

(** [Range start end] of a well-formed skip list is its [All] restricted
    to [start <= key < end] (a nil bound is no bound), [All] is in strictly
    ascending key order, and neither walk fails. *)
Theorem range_filters_all s l start end_ :
  represents s l ->
  exists out, All s = Some out /\ sorted_keys out /\ Len s = length out /\
    Range s start end_ = Some (filter (fun kv => in_range start end_ kv.1) out).
Proof.
  intros Hs. exists l. split_and!.
  - by apply All_refines.
  - by eapply represents_sorted.
  - by apply Len_refines.
  - by apply Range_refines.
Qed.
End skiplist.

Module Examples.
Definition k1 : bytes := [Byte.x61].
Definition k2 : bytes := [Byte.x62].
Definition k3 : bytes := [Byte.x62; Byte.x00].
Definition sl3 : option (SkipList nat) :=
  put_all [(k2, 2); (k1, 1); (k3, 3); (k2, 20)] (New [true; true; false; false; true; false]).

Example sl3_all : sl3 ≫= All = Some [(k1, 1); (k2, 20); (k3, 3)].
Proof. vm_compute. reflexivity. Qed.

Example sl3_range : sl3 ≫= (fun s => Range s (Some k2) (Some k3)) = Some [(k2, 20)].
Proof. vm_compute. reflexivity. Qed.

Example sl3_levels : sl_level <$> sl3 = Some 3.
Proof. vm_compute. reflexivity. Qed.

Lemma put_refines_insert_witness :
  exists s', Put (New [true; false]) k1 7 = Some s' /\
    represents s' [(k1, 7)] /\ Len s' = 1.
Proof.
  exact (put_refines_insert (New [true; false]) [] k1 7 (New_represents _)).
Defined.

Lemma range_filters_all_witness :
  exists out, All (New (V := nat) []) = Some out /\ sorted_keys out /\
    Len (New (V := nat) []) = length out /\
    Range (New (V := nat) []) (Some k1) None = Some (filter (fun kv => in_range (Some k1) None kv.1) out).
Proof.
  exact (range_filters_all (New []) [] (Some k1) None (New_represents _)).
Defined.
End Examples.
