(* ===== verification/MemTable.v ===== *)
(** * The MemTable (src/memtable/memtable.go)

    The mutable write buffer: a skip list of entries plus the approximate byte
    count that decides rotation.  [Put] and [Delete] are the only operations
    that change it.  The interface [WriteBuffer] states what the engine relies
    on; the MemTable is its instance. *)

From S2P Require Import Prelude OrdMap.
From S2P Require SkipList.
From stdpp Require Import base gmap sets list strings numbers fin_maps sorting.

(** ** Data *)

(** [type ValueType byte]. *)
Abbreviation ValueType := Byte.byte.
Definition TypeValue : ValueType := Byte.x01.
Definition TypeTombstone : ValueType := Byte.x02.

Record Entry := MkEntry { e_type : ValueType; e_value : bytes; e_seq : N }.

#[export] Instance Entry_eq_dec : EqDecision Entry.
Proof. solve_decision. Defined.

(** Go's zero value of the struct. *)
#[export] Instance Entry_inhabited : Inhabited Entry := populate (MkEntry Byte.x00 [] 0).

Definition entryOverhead : Z := 48.

Record MemTable := MkMemTable { skl : SkipList.SkipList Entry; mt_size : Z }.

#[export] Instance MemTable_eq_dec : EqDecision MemTable.
Proof. solve_decision. Defined.

(** ** Operations *)

Definition New (rnd : list bool) : MemTable := MkMemTable (SkipList.New rnd) 0.

Definition Put (m : MemTable) (key value : bytes) (seq : N) : option MemTable :=
  s ← SkipList.Put (skl m) key (MkEntry TypeValue value seq);
  Some (MkMemTable s
          (i64 (mt_size m + (Z.of_nat (length key) + Z.of_nat (length value) + entryOverhead)))).

Definition Delete (m : MemTable) (key : bytes) (seq : N) : option MemTable :=
  s ← SkipList.Put (skl m) key (MkEntry TypeTombstone [] seq);
  Some (MkMemTable s (i64 (mt_size m + (Z.of_nat (length key) + entryOverhead)))).

Definition Get (m : MemTable) (key : bytes) : option (Entry * bool) := SkipList.Get (skl m) key.

Definition Size (m : MemTable) : Z := mt_size m.

Definition Len (m : MemTable) : nat := SkipList.Len (skl m).

Definition All (m : MemTable) : option (list (SkipList.KV Entry)) := SkipList.All (skl m).

Definition Range (m : MemTable) (start end_ : option bytes) : option (list (SkipList.KV Entry)) :=
  SkipList.Range (skl m) start end_.

(** ** Refinement *)

Definition represents (m : MemTable) (l : list (bytes * Entry)) : Prop :=
  SkipList.represents (skl m) l.

(** One write to the buffer: a live value, or a tombstone. *)
Inductive mutation := MPut (key value : bytes) (seq : N) | MDelete (key : bytes) (seq : N).

Definition mut_key (u : mutation) : bytes := match u with MPut k _ _ | MDelete k _ => k end.
Definition mut_seq (u : mutation) : N := match u with MPut _ _ s | MDelete _ s => s end.
Definition mut_entry (u : mutation) : Entry :=
  match u with
  | MPut _ v s => MkEntry TypeValue v s
  | MDelete _ s => MkEntry TypeTombstone [] s
  end.

Definition apply_mutation (m : MemTable) (u : mutation) : option MemTable :=
  match u with MPut k v s => Put m k v s | MDelete k s => Delete m k s end.

Fixpoint apply_all (m : MemTable) (us : list mutation) : option MemTable :=
  match us with
  | [] => Some m
  | u :: us' => m' ← apply_mutation m u; apply_all m' us'
  end.

(** The bytes a mutation adds to the size estimate. *)
Definition mut_cost (u : mutation) : Z :=
  match u with
  | MPut k v _ => Z.of_nat (length k) + Z.of_nat (length v) + entryOverhead
  | MDelete k _ => Z.of_nat (length k) + entryOverhead
  end.

(** What the engine relies on. *)
Class WriteBuffer (M : Type) := {
  wb_new : list bool -> M;
  wb_apply : M -> mutation -> option M;
  wb_get : M -> bytes -> option (Entry * bool);
  wb_all : M -> option (list (bytes * Entry));
  wb_range : M -> option bytes -> option bytes -> option (list (bytes * Entry));
  wb_len : M -> nat;
  wb_repr : M -> list (bytes * Entry) -> Prop;
  wb_repr_new rnd : wb_repr (wb_new rnd) [];
  wb_repr_sorted m l : wb_repr m l -> sorted_keys l;
  wb_repr_apply m l u : wb_repr m l ->
    exists m', wb_apply m u = Some m' /\ wb_repr m' (om_insert (mut_key u) (mut_entry u) l);
  wb_repr_get m l k : wb_repr m l ->
    wb_get m k = Some (match om_lookup k l with Some e => (e, true) | None => (inhabitant, false) end);
  wb_repr_all m l : wb_repr m l -> wb_all m = Some l;
  wb_repr_range m l start end_ : wb_repr m l -> wb_range m start end_ = Some (om_range start end_ l);
  wb_repr_len m l : wb_repr m l -> wb_len m = length l
}.

Lemma apply_mutation_refines m l u :
  represents m l ->
  exists m', apply_mutation m u = Some m' /\
    represents m' (om_insert (mut_key u) (mut_entry u) l) /\
    mt_size m' = i64 (mt_size m + mut_cost u).
Proof.
  intros Hm. destruct u as [k v s|k s]; simpl; unfold Put, Delete;
    destruct (SkipList.Put_refines _ _ k (mut_entry (MPut k v s)) Hm) as (s1 & E1 & H1) ||
    destruct (SkipList.Put_refines _ _ k (mut_entry (MDelete k s)) Hm) as (s1 & E1 & H1);
    simpl in E1; rewrite E1; simpl; eauto.
Qed.

#[export] Program Instance MemTable_WriteBuffer : WriteBuffer MemTable := {|
  wb_new := New; wb_apply := apply_mutation; wb_get := Get; wb_all := All; wb_range := Range;
  wb_len := Len; wb_repr := represents |}.
Next Obligation. intros. apply SkipList.New_represents. Qed.
Next Obligation. intros m l. apply SkipList.represents_sorted. Qed.
Next Obligation.
  intros m l u Hm. destruct (apply_mutation_refines m l u Hm) as (m' & ? & ? & _). eauto.
Qed.
Next Obligation. intros m l k. apply SkipList.Get_refines. Qed.
Next Obligation. intros m l. apply SkipList.All_refines. Qed.
Next Obligation. intros m l start end_. apply SkipList.Range_refines. Qed.
Next Obligation. intros m l. apply SkipList.Len_refines. Qed.

Lemma i64_small z : (-2 ^ 63 <= z < 2 ^ 63)%Z -> i64 z = z.
Proof. intros. unfold i64. rewrite Z.mod_small by lia. lia. Qed.

Lemma i64_add_l a b : i64 (i64 a + b) = i64 (a + b).
Proof.
  unfold i64. f_equal.
  replace ((a + 2 ^ 63) mod 2 ^ 64 - 2 ^ 63 + b + 2 ^ 63)%Z
    with ((a + 2 ^ 63) mod 2 ^ 64 + b)%Z by lia.
  rewrite Zplus_mod_idemp_l. f_equal. lia.
Qed.

Lemma i64_idemp z : i64 (i64 z) = i64 z.
Proof. rewrite <- (Z.add_0_r z) at 2. rewrite <- i64_add_l. by rewrite Z.add_0_r. Qed.

Definition total_cost (us : list mutation) : Z := foldr (fun u z => mut_cost u + z)%Z 0%Z us.

Lemma apply_all_refines m l us :
  represents m l -> i64 (mt_size m) = mt_size m ->
  exists m', apply_all m us = Some m' /\
    represents m' (foldl (fun l u => om_insert (mut_key u) (mut_entry u) l) l us) /\
    mt_size m' = i64 (mt_size m + total_cost us).
Proof.
  revert m l; induction us as [|u us IH]; intros m l Hm Hi; simpl.
  - exists m. split_and!; auto. by rewrite Z.add_0_r.
  - destruct (apply_mutation_refines m l u Hm) as (m1 & -> & H1 & Hs). simpl.
    destruct (IH _ _ H1) as (m2 & -> & H2 & Hs2); [by rewrite Hs, i64_idemp|].
    exists m2. split_and!; auto.
    rewrite Hs2, Hs, i64_add_l. f_equal. lia.
Qed.

(** A MemTable that received any sequence of Puts and Deletes answers
    [Get] with the entry (value or tombstone, with its sequence number) of the
    last write to that key, and with [false] for a key never written. *)
Theorem memtable_get_last_write rnd us key :
  exists m, apply_all (New rnd) us = Some m /\
    Get m key = Some (match list.last (filter (fun u => mut_key u = key) us) with
                      | Some u => (mut_entry u, true)
                      | None => (inhabitant, false)
                      end).
Proof.
  destruct (apply_all_refines (New rnd) [] us (SkipList.New_represents rnd) eq_refl)
    as (m & -> & Hm & _).
  exists m. split; [done|]. unfold Get. rewrite (SkipList.Get_refines _ _ key Hm).
  enough (forall l, om_lookup key (foldl (fun l u => om_insert (mut_key u) (mut_entry u) l) l us) =
            match list.last (filter (fun u => mut_key u = key) us) with
            | Some u => Some (mut_entry u) | None => om_lookup key l end) as ->.
  { simpl. by destruct (list.last _). }
  clear Hm. induction us as [|u us IH]; intros l; simpl; [done|].
  rewrite IH, filter_cons. case_decide as Hk.
  - subst key. rewrite last_cons. destruct (list.last _); [done|]. apply om_lookup_insert_eq.
  - destruct (list.last _); [done|]. by apply om_lookup_insert_ne.
Qed.

(** C36: the size estimate of a MemTable is exactly the sum of the costs of the
    writes applied to it (overwrites count every time), as long as that sum
    stays within the signed 64-bit counter. *)
Theorem memtable_size_accounting rnd us :
  (total_cost us < 2 ^ 63)%Z ->
  exists m, apply_all (New rnd) us = Some m /\ Size m = total_cost us.
Proof.
  intros Hc.
  destruct (apply_all_refines (New rnd) [] us (SkipList.New_represents rnd) eq_refl)
    as (m & -> & _ & Hs).
  exists m. split; [done|]. unfold Size. rewrite Hs. simpl. apply i64_small.
  assert (0 <= total_cost us)%Z; [|lia].
  clear. induction us as [|u us IH]; simpl; [lia|].
  assert (0 <= mut_cost u)%Z by (destruct u; simpl; unfold entryOverhead; lia). lia.
Qed.

Lemma memtable_size_accounting_witness :
  exists m, apply_all (New [true]) [MPut [Byte.x61] [Byte.x62; Byte.x63] 1; MDelete [Byte.x61] 2] = Some m /\
    Size m = 100%Z.
Proof.
  exact (memtable_size_accounting [true]
           [MPut [Byte.x61] [Byte.x62; Byte.x63] 1; MDelete [Byte.x61] 2] ltac:(vm_compute; reflexivity)).
Defined.
