(* ===== verification/Versions.v ===== *)
(** * Versioned records

    The records of an SSTable (src/sstable/sstable.go, type [Record]) and the
    multi-version reading of a list of them: [newest] is what a reader bounded
    by a sequence number must see, [visible] what a scan must return.  These are
    the specification the table, merge and engine files refine.  Nothing here
    depends on the file format. *)

From S2P Require Import Prelude OrdMap MemTable.
From stdpp Require Import base gmap sets list strings numbers fin_maps sorting.

(** [Value] is the logical value; [Typ] is the field [Type]. *)
Record Record := MkRec { Key : bytes; Value : bytes; Typ : ValueType; Seq : N }.

#[export] Instance Record_eq_dec : EqDecision Record.
Proof. solve_decision. Defined.

(** ** The order of records in a table: key ascending, then Seq descending. *)
Definition rec_lt (r s : Record) : Prop := Key r <b Key s \/ Key r = Key s /\ (Seq s < Seq r)%N.

#[export] Instance rec_lt_dec : RelDecision rec_lt.
Proof. unfold rec_lt. intros r s. apply _. Defined.

Definition sorted_records (l : list Record) : Prop := StronglySorted rec_lt l.

(** ** Reading *)

(** The version a reader of [key] bounded by [maxSeq] may see. *)
Definition sees (key : bytes) (maxSeq : N) (r : Record) : Prop := Key r = key /\ (Seq r <= maxSeq)%N.

#[export] Instance sees_dec key maxSeq r : Decision (sees key maxSeq r).
Proof. unfold sees. apply _. Defined.

(** The more recent of two candidates, the first one on a tie. *)
Definition newer (a b : option Record) : option Record :=
  match a, b with
  | Some r, Some s => if (Seq r <? Seq s)%N then Some s else Some r
  | Some r, None => Some r
  | None, b => b
  end.

(** The most recent version of [key] with [Seq <= maxSeq]. *)
Fixpoint newest (key : bytes) (maxSeq : N) (l : list Record) : option Record :=
  match l with
  | [] => None
  | r :: l' =>
      if decide (sees key maxSeq r) then newer (Some r) (newest key maxSeq l') else newest key maxSeq l'
  end.

(** The first record of every run of records with the same key. *)
Fixpoint heads (last : option bytes) (l : list Record) : list Record :=
  match l with
  | [] => []
  | r :: l' => if bool_decide (last = Some (Key r)) then heads last l' else r :: heads (Some (Key r)) l'
  end.

(** What a scan of [start, end_) bounded by [maxSeq] returns from a sorted list. *)
Definition visible (start end_ : option bytes) (maxSeq : N) (l : list Record) : list Record :=
  heads None (filter (fun r => in_range start end_ (Key r) /\ (Seq r <= maxSeq)%N) l).

(** No two different records are the same version of a key. *)
Definition unique_versions (l : list Record) : Prop :=
  forall r s, r ∈ l -> s ∈ l -> Key r = Key s -> Seq r = Seq s -> r = s.

(** ** The order *)

#[export] Instance rec_lt_strict : StrictOrder rec_lt.
Proof.
  unfold rec_lt. split.
  - intros r [H|[_ H]]; [border|lia].
  - intros r s t [H1|[E1 H1]] [H2|[E2 H2]].
    + left. border.
    + left. by rewrite <- E2.
    + left. by rewrite E1.
    + right. split; [congruence|lia].
Qed.

Lemma rec_lt_trichotomy r s : rec_lt r s \/ (Key r = Key s /\ Seq r = Seq s) \/ rec_lt s r.
Proof.
  unfold rec_lt. destruct (bytes_trichotomy (Key r) (Key s)) as [?|[E|?]]; auto.
  destruct (N.lt_trichotomy (Seq r) (Seq s)) as [?|[?|?]]; auto.
Qed.

Lemma rec_lt_key r s : rec_lt r s -> Key r <=b Key s.
Proof. intros [H|[E _]]; [border|]. rewrite E. border. Qed.

Lemma sorted_records_cons r l :
  sorted_records (r :: l) <-> sorted_records l /\ Forall (rec_lt r) l.
Proof. split; [by intros [??]%StronglySorted_inv|]. intros [??]. by constructor. Qed.

Lemma sorted_unique l : sorted_records l -> unique_versions l.
Proof.
  induction 1 as [|r l Hl IH Hr]; intros a b Ha Hb Hk Hs.
  { by apply not_elem_of_nil in Ha. }
  rewrite Forall_forall in Hr. unfold rec_lt in Hr.
  apply elem_of_cons in Ha as [->|Ha]; apply elem_of_cons in Hb as [->|Hb]; auto.
  - destruct (Hr b Hb) as [H|[_ H]]; [rewrite Hk in H; border|lia].
  - destruct (Hr a Ha) as [H|[_ H]]; [rewrite Hk in H; border|lia].
Qed.

(** A sorted list is determined by its elements. *)
Lemma sorted_records_perm l1 l2 : sorted_records l1 -> sorted_records l2 -> l1 ≡ₚ l2 -> l1 = l2.
Proof.
  revert l2; induction l1 as [|r l1 IH]; intros l2 H1 H2 Hp.
  { by apply Permutation_nil_l in Hp. }
  destruct l2 as [|s l2]; [by apply Permutation_nil_r in Hp|].
  apply sorted_records_cons in H1 as [H1 Hr]. apply sorted_records_cons in H2 as [H2 Hs].
  rewrite Forall_forall in Hr, Hs.
  assert (r = s) as ->.
  { assert (r ∈ s :: l2) as [->|Hin]%elem_of_cons by (rewrite <- Hp; left); [done|].
    assert (s ∈ r :: l1) as [->|Hin']%elem_of_cons by (rewrite Hp; left); [done|].
    apply Hs in Hin. apply Hr in Hin'. destruct (irreflexivity rec_lt r). by etransitivity. }
  f_equal. apply IH; auto. by eapply Permutation_cons_inv.
Qed.

(** ** [newest] *)

Lemma newer_None_r a : newer a None = a.
Proof. by destruct a. Qed.

Lemma newer_assoc a b c : newer a (newer b c) = newer (newer a b) c.
Proof.
  destruct a as [r|], b as [s|], c as [t|]; simpl; try done; rewrite ?newer_None_r; try done.
  destruct (N.ltb_spec (Seq s) (Seq t)), (N.ltb_spec (Seq r) (Seq s)); simpl;
      destruct (N.ltb_spec (Seq r) (Seq t)), (N.ltb_spec (Seq s) (Seq t)), (N.ltb_spec (Seq r) (Seq s));
      done || lia.
Qed.

Lemma newest_cons key m r l :
  newest key m (r :: l) = newer (newest key m [r]) (newest key m l).
Proof. simpl. by destruct (decide _). Qed.

Lemma newest_app key m l1 l2 : newest key m (l1 ++ l2) = newer (newest key m l1) (newest key m l2).
Proof.
  induction l1 as [|r l1 IH]; [done|]. cbn [app].
  by rewrite newest_cons, (newest_cons key m r l1), IH, newer_assoc.
Qed.

Lemma newest_concat key m ls :
  newest key m (concat ls) = foldr (fun l acc => newer (newest key m l) acc) None ls.
Proof. induction ls as [|l ls IH]; simpl; [done|]. by rewrite newest_app, IH. Qed.

Lemma newest_Some key m l r :
  newest key m l = Some r ->
  r ∈ l /\ sees key m r /\ forall s, s ∈ l -> sees key m s -> (Seq s <= Seq r)%N.
Proof.
  revert r; induction l as [|a l IH]; intros r; simpl; [done|].
  destruct (decide (sees key m a)) as [Hs|Hs].
  - destruct (newest key m l) as [b|] eqn:E; simpl.
    + destruct (IH b eq_refl) as (Hb & Hsb & Hmax).
      destruct (N.ltb_spec (Seq a) (Seq b)); intros [= <-].
      * split_and!; [by right|done|]. intros s [->|Hin]%elem_of_cons Hss; [lia|auto].
      * split_and!; [by left|done|]. intros s [->|Hin]%elem_of_cons Hss; [lia|].
        specialize (Hmax s Hin Hss). lia.
    + intros [= <-]. split_and!; [by left|done|].
      intros s [->|Hin]%elem_of_cons Hss; [lia|]. exfalso. clear IH.
      induction l as [|c l IHl]; [by apply not_elem_of_nil in Hin|]. simpl in E.
      apply elem_of_cons in Hin as [->|Hin].
      * rewrite decide_True in E by done. by destruct (newest key m l) as [t|]; simpl in E; [case_match|].
      * destruct (decide (sees key m c)); [|by apply IHl].
        by destruct (newest key m l) as [t|]; simpl in E; [case_match|].
  - intros E. destruct (IH r E) as (Hr & Hsr & Hmax). split_and!; [by right|done|].
    intros s [->|Hin]%elem_of_cons Hss; [done|auto].
Qed.

Lemma newest_None key m l : newest key m l = None <-> forall r, r ∈ l -> ~ sees key m r.
Proof.
  induction l as [|a l IH]; simpl.
  - split; [|done]. intros _ r ?%not_elem_of_nil. done.
  - destruct (decide (sees key m a)) as [Hs|Hs].
    + split; [destruct (newest key m l); simpl; [case_match|]; done|].
      intros H. exfalso. by apply (H a); [left|].
    + rewrite IH. split.
      * intros H r [->|Hin]%elem_of_cons; auto.
      * intros H r Hin. apply H. by right.
Qed.

(** With unique versions [newest] is determined by its specification. *)
Lemma newest_unique key m l r :
  unique_versions l -> r ∈ l -> sees key m r ->
  (forall s, s ∈ l -> sees key m s -> (Seq s <= Seq r)%N) -> newest key m l = Some r.
Proof.
  intros Hu Hr Hs Hmax. destruct (newest key m l) as [s|] eqn:E.
  - apply newest_Some in E as (Hin & Hss & Hmax'). f_equal. symmetry. apply Hu; auto.
    + destruct Hs as [-> _], Hss as [-> _]. done.
    + specialize (Hmax s Hin Hss). specialize (Hmax' r Hr Hs). lia.
  - by apply (proj1 (newest_None key m l) E r) in Hr.
Qed.

(** Two lists with the same elements read the same. *)
Lemma newest_ext key m l1 l2 :
  unique_versions l2 -> (forall r, sees key m r -> r ∈ l1 <-> r ∈ l2) ->
  newest key m l1 = newest key m l2.
Proof.
  intros Hu He. destruct (newest key m l1) as [r|] eqn:E.
  - apply newest_Some in E as (Hr & Hs & Hmax). symmetry. apply newest_unique; [done|by apply He|done|].
    intros s Hin Hss. apply Hmax; [by apply He|done].
  - symmetry. apply newest_None. intros r Hr Hs. by apply (proj1 (newest_None key m l1) E r); [apply He|].
Qed.

(** A record is the newest version up to its own. *)
Lemma newest_self l r : unique_versions l -> r ∈ l -> newest (Key r) (Seq r) l = Some r.
Proof. intros Hu Hr. apply newest_unique; [done|done|split; [done|lia]|]. by intros s _ [_ ?]. Qed.

(** Reads tell the records. *)
Lemma newest_elem_of l l' r :
  unique_versions l' -> r ∈ l' -> newest (Key r) (Seq r) l' = newest (Key r) (Seq r) l -> r ∈ l.
Proof. intros Hu Hr E. rewrite (newest_self l' r Hu Hr) in E. by apply eq_sym, newest_Some in E as [? _]. Qed.

Lemma newest_perm key m l1 l2 : unique_versions l2 -> l1 ≡ₚ l2 -> newest key m l1 = newest key m l2.
Proof. intros Hu Hp. apply newest_ext; [done|]. intros r _. by rewrite Hp. Qed.

Lemma newest_filter key m (P : Record -> Prop) `{!forall r, Decision (P r)} l :
  (forall r, sees key m r -> P r) -> newest key m (filter P l) = newest key m l.
Proof.
  intros HP. induction l as [|r l IH]; [done|]. rewrite filter_cons. simpl.
  destruct (decide (P r)); simpl; rewrite IH; [done|].
  rewrite (decide_False (P := sees key m r)); [done|]. auto.
Qed.

(** In a sorted list the first match is the newest version. *)
Lemma newest_sorted key m l :
  sorted_records l -> newest key m l = head (filter (sees key m) l).
Proof.
  induction 1 as [|r l Hl IH Hr]; [done|]. rewrite filter_cons. simpl.
  destruct (decide (sees key m r)) as [Hs|Hs]; [|done]. simpl.
  destruct (newest key m l) as [s|] eqn:E; [|done]. simpl.
  apply newest_Some in E as (Hin & Hss & _). rewrite Forall_forall in Hr.
  destruct (N.ltb_spec (Seq r) (Seq s)) as [Hlt|]; [|done].
  destruct (Hr s Hin) as [H|[_ H]]; [|lia].
  destruct Hs as [E1 _], Hss as [E2 _]. rewrite E1, E2 in H. border.
Qed.

(** ** [visible] *)

Lemma elem_of_heads r last l :
  sorted_records l -> (forall k s, last = Some k -> s ∈ l -> k <=b Key s) ->
  r ∈ heads last l <-> last <> Some (Key r) /\ head (filter (fun s => Key s = Key r) l) = Some r.
Proof.
  intros Hl. revert last. induction Hl as [|a l Hl IH Ha]; intros last Hlast; simpl.
  { rewrite elem_of_nil. split; [done|]. by intros [_ ?]. }
  rewrite Forall_forall in Ha.
  assert (forall s, s ∈ l -> Key a <=b Key s) as Hge by (intros; by apply rec_lt_key, Ha).
  rewrite filter_cons. case_bool_decide as E.
  - rewrite IH by (intros k s Hk Hs; apply (Hlast k s Hk); by right).
    destruct (decide (Key a = Key r)) as [Ek|Ek]; [|done]. rewrite <- Ek. naive_solver.
  - rewrite elem_of_cons, IH by (intros k s [= <-] Hs; auto).
    destruct (decide (Key a = Key r)) as [Ek|Ek]; simpl.
    + split; [intros [->|[H _]]|intros [_ [= ->]]]; [done| |by left]. rewrite Ek in H. done.
    + split; [intros [->|[_ Hh]]|intros [_ Hh]]; [done| |by right; split; [congruence|]].
      split; [|done]. intros Hk. pose proof (Hlast _ a Hk ltac:(left)) as H1.
      assert (r ∈ filter (fun s => Key s = Key r) l) as [_ Hr]%list_elem_of_filter
        by (by apply list_elem_of_lookup_2 with 0; destruct (filter _ l)).
      specialize (Hge r Hr). assert (Key r <> Key a) by congruence. border.
Qed.

Lemma heads_sorted last l : sorted_records l -> StronglySorted bytes_lt (Key <$> heads last l).
Proof.
  intros Hl. revert last. induction Hl as [|a l Hl IH Ha]; intros last; simpl; [constructor|].
  case_bool_decide; [done|]. simpl. constructor; [done|]. apply Forall_map, Forall_forall.
  intros r Hr. rewrite Forall_forall in Ha.
  apply elem_of_heads in Hr as [Hne Hh]; [|done|].
  - assert (r ∈ filter (fun s => Key s = Key r) l) as [_ Hin]%list_elem_of_filter
      by (by apply list_elem_of_lookup_2 with 0; destruct (filter _ l)).
    apply Ha, rec_lt_key in Hin. assert (Key a <> Key r) by congruence. simpl. border.
  - intros k s [= <-] Hs. by apply rec_lt_key, Ha.
Qed.

(** A scan returns exactly the newest visible version of every key in range. *)
Lemma elem_of_visible start end_ m l r :
  sorted_records l ->
  r ∈ visible start end_ m l <-> in_range start end_ (Key r) /\ newest (Key r) m l = Some r.
Proof.
  intros Hl. unfold visible.
  rewrite elem_of_heads by (done || by apply StronglySorted_filter).
  rewrite list_filter_filter, newest_sorted by done.
  destruct (decide (in_range start end_ (Key r))) as [Hr|Hr].
  - rewrite (list_filter_iff _ (sees (Key r) m)); [naive_solver|].
    intros s. unfold sees. split; [tauto|]. intros [-> ?]. auto.
  - split; [|naive_solver]. intros [_ Hh]. exfalso. rewrite filter_Forall_nil in Hh; [done|].
    apply Forall_forall. intros s _ [Hk [Hs _]]. by rewrite Hk in Hs.
Qed.

Lemma visible_sorted start end_ m l :
  sorted_records l -> StronglySorted bytes_lt (Key <$> visible start end_ m l).
Proof. intros. by apply heads_sorted, StronglySorted_filter. Qed.

(** Sortedness of a concrete list of records. *)
Ltac sorted_recs :=
  unfold sorted_records;
  repeat first
    [ apply SSorted_nil | apply SSorted_cons | apply Forall_nil_2 | apply Forall_cons_2
    | left; vm_compute; reflexivity
    | right; split; vm_compute; reflexivity ].

(** A list sorted by key is determined by its elements. *)
Lemma key_sorted_ext l1 l2 :
  StronglySorted bytes_lt (Key <$> l1) -> StronglySorted bytes_lt (Key <$> l2) ->
  (forall r, r ∈ l1 <-> r ∈ l2) -> l1 = l2.
Proof.
  assert (forall l, StronglySorted bytes_lt (Key <$> l) -> sorted_records l) as Hs.
  { induction l as [|r l IH]; intros H; [constructor|].
    apply StronglySorted_inv in H as [H Hr]. constructor; [by apply IH|].
    change (Forall (bytes_lt (Key r)) (Key <$> l)) in Hr. rewrite Forall_fmap in Hr. eapply Forall_impl; [exact Hr|]. intros s Hs. by left. }
  intros H1%Hs H2%Hs He. apply sorted_records_perm; auto.
  apply NoDup_Permutation; [..|exact He];
    (eapply StronglySorted_NoDup; [|eassumption]); exact (irreflexivity rec_lt).
Qed.

(** A scan of a sorted list takes the newest visible version of the first key,
    unless that key is past the end, and goes on behind its group. *)
Lemma visible_group end_ m r l :
  sorted_records (r :: l) -> in_range None end_ (Key r) ->
  visible None end_ m (r :: l) =
    option_list (newest (Key r) m (r :: l)) ++
    visible None end_ m (filter (fun s => Key r <b Key s) (r :: l)).
Proof.
  intros Hl Hend. assert (Hf := Hl). apply (StronglySorted_filter _ (fun s => Key r <b Key s)) in Hf.
  assert (Hge : forall s, s ∈ r :: l -> Key r <=b Key s).
  { intros s [->|Hs]%elem_of_cons; [border|]. apply sorted_records_cons in Hl as [_ Hr].
    rewrite Forall_forall in Hr. by apply rec_lt_key, Hr. }
  assert (Hvis : forall s, s ∈ visible None end_ m (filter (fun s => Key r <b Key s) (r :: l)) -> Key r <b Key s).
  { intros s [_ Hs]%elem_of_visible; [|done].
    apply newest_Some in Hs as ([Hs _]%list_elem_of_filter & _). done. }
  apply key_sorted_ext; [by apply visible_sorted| |].
  - destruct (newest (Key r) m (r :: l)) as [s|] eqn:E; cbn [option_list app]; [|by apply visible_sorted].
    cbn [fmap list_fmap]. constructor; [by apply visible_sorted|]. apply Forall_map, Forall_forall.
    intros x Hx. simpl. apply Hvis in Hx. by apply newest_Some in E as (_ & [-> _] & _).
  - intros x. rewrite elem_of_app, !elem_of_visible by done.
    destruct (decide (Key x = Key r)) as [Ek|Ek].
    + rewrite Ek. split.
      * intros [_ ->]. left. simpl. by left.
      * intros [H|[_ H]].
        -- split; [done|]. destruct (newest (Key r) m (r :: l)); simpl in H; [|by apply not_elem_of_nil in H].
           by apply list_elem_of_singleton in H as ->.
        -- apply newest_Some in H as ([H _]%list_elem_of_filter & [H2 _] & _). rewrite Ek in H. border.
    + assert (Key x <b Key r -> newest (Key x) m (r :: l) = None) as Hlt.
      { intros Hx. apply newest_None. intros s Hs [E _]. apply Hge in Hs. rewrite E in Hs. border. }
      assert (x ∉ option_list (newest (Key r) m (r :: l))) as Hno.
      { destruct (newest (Key r) m (r :: l)) as [s|] eqn:E; simpl; [|by apply not_elem_of_nil].
        intros ->%list_elem_of_singleton. by apply newest_Some in E as (_ & [E _] & _). }
      destruct (bytes_trichotomy (Key x) (Key r)) as [Hx|[Hx|Hx]]; [|done|].
      * rewrite Hlt by done. split; [by intros [_ ?]|]. intros [?|[_ H]]; [done|].
        apply newest_Some in H as ([H _]%list_elem_of_filter & _). border.
      * rewrite newest_filter; [naive_solver|]. intros s [-> _]. done.
Qed.

Lemma visible_past_end end_ m r l :
  sorted_records (r :: l) -> ~ in_range None end_ (Key r) -> visible None end_ m (r :: l) = [].
Proof.
  intros Hl Hend. unfold visible. rewrite filter_Forall_nil; [done|].
  apply Forall_forall. intros s Hs [[_ Hr] _]. apply Hend. split; [done|].
  destruct end_ as [e|]; [|done]. apply elem_of_cons in Hs as [->|Hs]; [done|].
  apply sorted_records_cons in Hl as [_ Ha]. rewrite Forall_forall in Ha.
  specialize (rec_lt_key _ _ (Ha s Hs)). border.
Qed.

Lemma visible_start start end_ m l :
  visible (Some start) end_ m l = visible None end_ m (filter (fun r => start <=b Key r) l).
Proof.
  unfold visible. rewrite list_filter_filter. f_equal. apply list_filter_iff. intros r.
  unfold in_range. tauto.
Qed.
