(* ===== verification/GoIO.v ===== *)
(** * Files, faults and errors

    The part of the operating system the store runs on, as far as its code can
    observe it.  A [world] is the set of files, each with its data and the
    length of the prefix an [fsync] has made durable, and a list of faults:
    every fallible system call draws one, [None] meaning success and [Some n]
    meaning that the call fails (a write after [n] of its bytes reached the
    file).  The theorems quantify over the faults.  Calls drawn beyond the end
    of the list succeed.

    [M] is the state monad of Go functions returning an error: [Ok] is a normal
    return, [Err] a non-nil error, [Panic] a run-time panic. *)

From S2P Require Import Prelude.
From stdpp Require Import base gmap sets list strings numbers fin_maps.

(** The character of double quotes. *)
Definition dquote : Ascii.ascii := Ascii.ascii_of_nat 34.

(** [\[\]byte(s)]. *)
Definition bytes_of (s : string) : bytes := String.list_byte_of_string s.

(** ** Errors *)

(** [ErrNew] is a value made by [errors.New] (or by [fmt.Errorf] without
    [%w]), identified by its text; [ErrWrap] is [fmt.Errorf("...%w", ..., e)]. *)
Inductive error :=
| ErrNew (text : string)
| ErrWrap (text : string) (e : error).

#[export] Instance error_eq_dec : EqDecision error.
Proof. solve_decision. Defined.

(** The errors of the standard library the code compares against. *)
Definition EOF : error := ErrNew "EOF".
Definition ErrUnexpectedEOF : error := ErrNew "unexpected EOF".
Definition ErrNotExist : error := ErrNew "file does not exist".
Definition ErrIO : error := ErrNew "input/output error".
Definition ErrNegativeOffset : error := ErrNew "negative offset".

(** [errors.Is]: follow the [%w] chain. *)
Fixpoint errors_Is (e target : error) : bool :=
  bool_decide (e = target) ||
  match e with ErrNew _ => false | ErrWrap _ e' => errors_Is e' target end.

(** ** The world *)

Record file := MkFile { f_data : bytes; f_synced : nat }.

Record world := MkWorld { w_files : gmap string file; w_faults : list (option nat) }.

Inductive res (A : Type) :=
| Ok (a : A)
| Err (e : error)
| Panic.
Arguments Ok {A} _.
Arguments Err {A} _.
Arguments Panic {A}.

Definition M (A : Type) : Type := world -> res A * world.

Definition ret {A} (a : A) : M A := fun w => (Ok a, w).
Definition throw {A} (e : error) : M A := fun w => (Err e, w).
Definition panic {A} : M A := fun w => (Panic, w).

Definition bind {A B} (m : M A) (f : A -> M B) : M B :=
  fun w => match m w with
           | (Ok a, w') => f a w'
           | (Err e, w') => (Err e, w')
           | (Panic, w') => (Panic, w')
           end.

(** [x, err := m]: the error as a value. *)
Definition attempt {A} (m : M A) : M (A + error) :=
  fun w => match m w with
           | (Ok a, w') => (Ok (inl a), w')
           | (Err e, w') => (Ok (inr e), w')
           | (Panic, w') => (Panic, w')
           end.

(** [if err != nil { return fmt.Errorf("...: %w", err) }]. *)
Definition wrap {A} (text : string) (m : M A) : M A :=
  fun w => match m w with
           | (Err e, w') => (Err (ErrWrap text e), w')
           | r => r
           end.

(** [if err != nil { cleanup; return err }]. *)
Definition on_error {A} (m : M A) (cleanup : M unit) : M A :=
  fun w => match m w with
           | (Err e, w') =>
               match cleanup w' with
               | (Panic, w'') => (Panic, w'')
               | (_, w'') => (Err e, w'')
               end
           | r => r
           end.

(** A partial (panicking) pure computation. *)
Definition of_option {A} (o : option A) : M A :=
  match o with Some a => ret a | None => panic end.

Notation "'let!' p := m 'in' k" := (bind m (fun p => k))
  (at level 10, p pattern, m at level 200, k at level 200) : flume_scope.
Notation "m ;;; k" := (bind m (fun _ => k))
  (at level 199, right associativity) : flume_scope.

(** [x, err := m; if err != nil { return err }] where [m] returns both. *)
Definition or_throw {A} (m : M (A * option error)) : M A :=
  let! (x, e) := m in match e with Some e => throw e | None => ret x end.

(** ** System calls *)

Definition next_fault : M (option nat) :=
  fun w => match w_faults w with
           | [] => (Ok None, w)
           | f :: fs => (Ok f, MkWorld (w_files w) fs)
           end.

Definition upd_files (f : gmap string file -> gmap string file) : M unit :=
  fun w => (Ok tt, MkWorld (f (w_files w)) (w_faults w)).

Definition get_files : M (gmap string file) := fun w => (Ok (w_files w), w).

(** A call that either fails or has the given effect. *)
Definition syscall {A} (k : M A) : M A :=
  let! f := next_fault in match f with None => k | Some _ => throw ErrIO end.

(** [os.Create]: create or truncate. *)
Definition os_Create (path : string) : M unit :=
  syscall (upd_files <[path := MkFile [] 0]>).

(** [os.OpenFile(path, O_CREATE|O_RDWR|O_APPEND, ...)]. *)
Definition os_OpenAppend (path : string) : M unit :=
  syscall (upd_files (fun fs => match fs !! path with
                                | Some _ => fs
                                | None => <[path := MkFile [] 0]> fs
                                end)).

(** [os.Open]: the descriptor keeps the file's bytes, also after the file is
    unlinked; the store never writes a file it has open for reading. *)
Definition os_Open (path : string) : M bytes :=
  syscall (let! fs := get_files in
           match fs !! path with
           | Some f => ret (f_data f)
           | None => throw ErrNotExist
           end).

Definition append_data (p : bytes) (f : file) : file := MkFile (f_data f ++ p) (f_synced f).

(** [os.File.Write] on an append-only descriptor. *)
Definition file_Write (path : string) (p : bytes) : M unit :=
  let! f := next_fault in
  match f with
  | None => upd_files (alter (append_data p) path)
  | Some n => upd_files (alter (append_data (take n p)) path);;; throw ErrIO
  end.

(** [os.File.Sync]. *)
Definition file_Sync (path : string) : M unit :=
  syscall (upd_files (alter (fun f => MkFile (f_data f) (length (f_data f))) path)).

(** [os.File.Close]. *)
Definition file_Close : M unit := syscall (ret tt).

Definition os_Remove (path : string) : M unit :=
  syscall (let! fs := get_files in
           match fs !! path with
           | Some _ => upd_files (delete path)
           | None => throw ErrNotExist
           end).

Definition os_Rename (oldpath newpath : string) : M unit :=
  syscall (let! fs := get_files in
           match fs !! oldpath with
           | Some f => upd_files (fun fs => <[newpath := f]> (delete oldpath fs))
           | None => throw ErrNotExist
           end).

(** [os.File.ReadAt] of [n] bytes on a descriptor holding [data]. *)
Definition file_ReadAt (data : bytes) (n : N) (off : Z) : M bytes :=
  if (off <? 0)%Z then throw ErrNegativeOffset
  else
    syscall (if (Z.of_N n + off <=? Z.of_nat (length data))%Z
             then ret (slice (Z.to_nat off) (Z.to_nat off + N.to_nat n) data)
             else throw EOF).

(** [io.ReadFull] of [n] bytes from a reader with [rest] left: the bytes and the
    new rest.  Reading nothing always succeeds. *)
Definition io_ReadFull (rest : bytes) (n : N) : M (bytes * bytes) :=
  if (n =? 0)%N then ret ([], rest)
  else
    syscall (if (n <=? N.of_nat (length rest))%N then ret (take (N.to_nat n) rest, drop (N.to_nat n) rest)
             else match rest with [] => throw EOF | _ => throw ErrUnexpectedEOF end).

(** [make([]T, n)] with elements of [sz] bytes panics above the address space
    ([maxAlloc], 2^48 bytes on linux/amd64). *)
Definition makeslice (n sz : N) : M unit :=
  if (n * sz <=? 2 ^ 48)%N then ret tt else panic.

(** ** [bufio.Writer] with a 64 KiB buffer

    The error of a failed write is sticky.  [bw_err] is that error's presence. *)
Record bufw := MkBufw { bw_path : string; bw_buf : bytes; bw_err : bool }.

Definition bufSize : N := 65536.

Definition bufio_New (path : string) : bufw := MkBufw path [] false.

(** The updated writer and the error, if any. *)
Definition bufio_Flush (b : bufw) : M (bufw * option error) :=
  if bw_err b then ret (b, Some ErrIO)
  else
    match bw_buf b with
    | [] => ret (b, None)
    | buf =>
        let! r := attempt (file_Write (bw_path b) buf) in
        match r with
        | inl _ => ret (MkBufw (bw_path b) [] false, None)
        | inr e => ret (MkBufw (bw_path b) (bw_buf b) true, Some e)
        end
    end.

(** [Write]: what fits is buffered; a chunk larger than the free space either
    goes straight to the file (empty buffer) or fills and flushes the buffer
    first. *)
Definition bufio_direct (b : bufw) (p : bytes) : M (bufw * option error) :=
  let! r := attempt (file_Write (bw_path b) p) in
  match r with
  | inl _ => ret (b, None)
  | inr e => ret (MkBufw (bw_path b) (bw_buf b) true, Some e)
  end.

Definition bufio_Write (b : bufw) (p : bytes) : M (bufw * option error) :=
  if bw_err b then ret (b, Some ErrIO)
  else
    let avail := (bufSize - N.of_nat (length (bw_buf b)))%N in
    if (N.of_nat (length p) <=? avail)%N then ret (MkBufw (bw_path b) (bw_buf b ++ p) false, None)
    else
      match bw_buf b with
      | [] => bufio_direct b p
      | buf =>
          let! (b', e) := bufio_Flush (MkBufw (bw_path b) (buf ++ take (N.to_nat avail) p) false) in
          match e with
          | Some e => ret (b', Some e)
          | None =>
              let rest := drop (N.to_nat avail) p in
              if (N.of_nat (length rest) <=? bufSize)%N then ret (MkBufw (bw_path b) rest false, None)
              else bufio_direct b' rest
          end
      end.

(** ** Crashes

    After a power loss every file still holds at least its synced prefix; what
    follows it is arbitrary (lost, torn or garbage).  Which files there are is as the
    system calls left it: the model has no directory entries that are not on disk
    yet, although the code never syncs a directory. *)
Definition crash (w w' : world) : Prop :=
  forall path f, w_files w !! path = Some f ->
    exists tail, w_files w' !! path =
      Some (MkFile (take (f_synced f) (f_data f) ++ tail)
              (f_synced f `min` length (f_data f) + length tail)).

(** ** Automation

    [io_unfold] exposes a computation of [M] on an explicit world; [io_cases]
    runs it, one case per fault it draws. *)

Ltac io_unfold :=
  unfold os_Create, os_OpenAppend, os_Open, os_Remove, os_Rename, file_Write, file_Sync, file_Close,
    syscall, next_fault, upd_files, get_files, wrap, on_error, attempt, throw, ret, bind.

Ltac io_cases :=
  repeat (simpl;
    match goal with
    | |- context [match ?fl with [] => _ | _ :: _ => _ end] => is_var fl; destruct fl as [|[?n|] fl]
    | |- context [match ?fl with Some _ => _ | None => _ end] => is_var fl; destruct fl
    end); simpl.

Lemma os_Open_ok path f w :
  w_faults w = [] -> w_files w !! path = Some f -> attempt (os_Open path) w = (Ok (inl (f_data f)), w).
Proof.
  intros Hw Hf. destruct w as [fs fl]; simpl in *; subst fl. io_unfold. simpl. by rewrite Hf.
Qed.

Lemma alter_insert_file (g : file -> file) path f (fs : gmap string file) :
  fs !! path = Some f -> alter g path fs = <[path := g f]> fs.
Proof.
  intros Hf. apply map_eq. intros p. destruct (decide (path = p)) as [<-|Hne].
  - by rewrite lookup_alter_eq, lookup_insert_eq, Hf.
  - by rewrite lookup_alter_ne, lookup_insert_ne.
Qed.

Lemma alter_alter_file (g h : file -> file) path f (fs : gmap string file) :
  fs !! path = Some f -> alter g path (alter h path fs) = <[path := g (h f)]> fs.
Proof.
  intros Hf. rewrite (alter_insert_file h path f), (alter_insert_file g path (h f)); [|apply lookup_insert_eq|done].
  apply insert_insert_eq.
Qed.

Lemma os_Open_None path f fs fl :
  fs !! path = Some f ->
  attempt (os_Open path) (MkWorld fs (None :: fl)) = (Ok (inl (f_data f)), MkWorld fs fl).
Proof. intros Hf. io_unfold. simpl. by rewrite Hf. Qed.

Lemma io_ReadFull_None rest n fs fl :
  n <> 0%N -> (n <= N.of_nat (length rest))%N ->
  attempt (io_ReadFull rest n) (MkWorld fs (None :: fl)) =
    (Ok (inl (take (N.to_nat n) rest, drop (N.to_nat n) rest)), MkWorld fs fl).
Proof.
  intros Hn Hl. unfold io_ReadFull. rewrite (proj2 (N.eqb_neq _ _) Hn). io_unfold. simpl.
  by rewrite (proj2 (N.leb_le _ _) Hl).
Qed.

Lemma io_ReadFull_Some rest n k fs fl :
  n <> 0%N ->
  attempt (io_ReadFull rest n) (MkWorld fs (Some k :: fl)) = (Ok (inr ErrIO), MkWorld fs fl).
Proof. intros Hn. unfold io_ReadFull. by rewrite (proj2 (N.eqb_neq _ _) Hn). Qed.
