(* ===== verification/IOLogic.v ===== *)
(** * Reasoning about computations under faults

    Two judgements on the monad of GoIO.v, with a rule per combinator and
    system call:

    - [touches P m]: whatever faults are drawn, [m] leaves every file outside
      the set of paths [P] alone;
    - [triple P m Q]: from a world satisfying [P], [m] never panics; when it
      returns a value, [Q] holds; when it returns an error, a fault caused it
      (so without faults [m] succeeds).

    The rules are in the hint database [io]. *)

From S2P Require Import Prelude GoIO.
From stdpp Require Import base gmap sets list strings numbers fin_maps.

Create HintDb io.

(** ** Frames *)

Definition touches {A} (P : string -> Prop) (m : M A) : Prop :=
  forall w r w', m w = (r, w') ->
    (forall q, ~ P q -> w_files w' !! q = w_files w !! q) /\ (w_faults w = [] -> w_faults w' = []).

Section touches.
Context (P : string -> Prop).

Lemma touches_ret {A} (a : A) : touches P (ret a).
Proof. by intros w r w' [= _ <-]. Qed.

Lemma touches_throw {A} e : touches P (throw e : M A).
Proof. by intros w r w' [= _ <-]. Qed.

Lemma touches_panic {A} : touches P (panic : M A).
Proof. by intros w r w' [= _ <-]. Qed.

(** One computation after another. *)
Lemma touches_trans w w1 w2 :
  ((forall q, ~ P q -> w_files w1 !! q = w_files w !! q) /\ (w_faults w = [] -> w_faults w1 = [])) ->
  ((forall q, ~ P q -> w_files w2 !! q = w_files w1 !! q) /\ (w_faults w1 = [] -> w_faults w2 = [])) ->
  (forall q, ~ P q -> w_files w2 !! q = w_files w !! q) /\ (w_faults w = [] -> w_faults w2 = []).
Proof. intros [H1 F1] [H2 F2]. split; [intros q Hq; by rewrite H2, H1|auto]. Qed.

Lemma touches_bind {A B} (m : M A) (k : A -> M B) :
  touches P m -> (forall a, touches P (k a)) -> touches P (bind m k).
Proof.
  intros Hm Hk w r w'. unfold bind. destruct (m w) as [[a|e|] w1] eqn:E; intros H.
  - exact (touches_trans _ _ _ (Hm _ _ _ E) (Hk _ _ _ _ H)).
  - injection H as _ <-. exact (Hm _ _ _ E).
  - injection H as _ <-. exact (Hm _ _ _ E).
Qed.

Lemma touches_attempt {A} (m : M A) : touches P m -> touches P (attempt m).
Proof.
  intros Hm w r w'. unfold attempt. destruct (m w) as [[a|e|] w1] eqn:E; intros [= _ <-]; exact (Hm _ _ _ E).
Qed.

Lemma touches_wrap {A} t (m : M A) : touches P m -> touches P (wrap t m).
Proof.
  intros Hm w r w'. unfold wrap. destruct (m w) as [[a|e|] w1] eqn:E; intros [= _ <-]; exact (Hm _ _ _ E).
Qed.

Lemma touches_on_error {A} (m : M A) c : touches P m -> touches P c -> touches P (on_error m c).
Proof.
  intros Hm Hc w r w'. unfold on_error. destruct (m w) as [[a|e|] w1] eqn:E; intros H.
  - injection H as _ <-. exact (Hm _ _ _ E).
  - destruct (c w1) as [[?|?|] w2] eqn:E2; injection H as _ <-; exact (touches_trans _ _ _ (Hm _ _ _ E) (Hc _ _ _ E2)).
  - injection H as _ <-. exact (Hm _ _ _ E).
Qed.

Lemma touches_of_option {A} (o : option A) : touches P (of_option o).
Proof. destruct o; [apply touches_ret|apply touches_panic]. Qed.

Lemma touches_next_fault : touches P next_fault.
Proof. intros w r w'. unfold next_fault. destruct (w_faults w) eqn:E; intros [= _ <-]; by rewrite ?E. Qed.

Lemma touches_get_files : touches P get_files.
Proof. by intros w r w' [= _ <-]. Qed.

Lemma touches_upd_files f :
  (forall fs q, ~ P q -> f fs !! q = fs !! q) -> touches P (upd_files f).
Proof. intros Hf w r w' [= _ <-]. split; [intros q Hq; simpl; by apply Hf|done]. Qed.

Lemma touches_syscall {A} (k : M A) : touches P k -> touches P (syscall k).
Proof. intros Hk. apply touches_bind; [apply touches_next_fault|]. intros [?|]; [apply touches_throw|done]. Qed.

Lemma touches_alter path g : P path -> touches P (upd_files (alter g path)).
Proof. intros HP. apply touches_upd_files. intros fs q Hq. rewrite lookup_alter_ne; congruence. Qed.

Lemma touches_os_Create path : P path -> touches P (os_Create path).
Proof.
  intros HP. apply touches_syscall, touches_upd_files. intros fs q Hq.
  rewrite lookup_insert_ne; congruence.
Qed.

Lemma touches_os_OpenAppend path : P path -> touches P (os_OpenAppend path).
Proof.
  intros HP. apply touches_syscall, touches_upd_files. intros fs q Hq.
  case_match; [done|]. rewrite lookup_insert_ne; congruence.
Qed.

Lemma touches_os_Open path : touches P (os_Open path).
Proof.
  apply touches_syscall, touches_bind; [apply touches_get_files|]. intros fs.
  case_match; [apply touches_ret|apply touches_throw].
Qed.

Lemma touches_file_Write path p : P path -> touches P (file_Write path p).
Proof.
  intros HP. apply touches_bind; [apply touches_next_fault|]. intros [n|]; [|by apply touches_alter].
  apply touches_bind; [by apply touches_alter|]. intros _. apply touches_throw.
Qed.

Lemma touches_file_Sync path : P path -> touches P (file_Sync path).
Proof. intros HP. by apply touches_syscall, touches_alter. Qed.

Lemma touches_file_Close : touches P file_Close.
Proof. apply touches_syscall, touches_ret. Qed.

Lemma touches_os_Remove path : P path -> touches P (os_Remove path).
Proof.
  intros HP. apply touches_syscall, touches_bind; [apply touches_get_files|]. intros fs.
  case_match; [|apply touches_throw]. apply touches_upd_files. intros fs' q Hq.
  rewrite lookup_delete_ne; congruence.
Qed.

Lemma touches_os_Rename p1 p2 : P p1 -> P p2 -> touches P (os_Rename p1 p2).
Proof.
  intros H1 H2. apply touches_syscall, touches_bind; [apply touches_get_files|]. intros fs.
  case_match; [|apply touches_throw]. apply touches_upd_files. intros fs' q Hq.
  rewrite lookup_insert_ne, lookup_delete_ne; congruence.
Qed.

Lemma touches_file_ReadAt data n off : touches P (file_ReadAt data n off).
Proof.
  unfold file_ReadAt. case_match; [apply touches_throw|]. apply touches_syscall.
  case_match; [apply touches_ret|apply touches_throw].
Qed.

Lemma touches_io_ReadFull rest n : touches P (io_ReadFull rest n).
Proof.
  unfold io_ReadFull. case_match; [apply touches_ret|]. apply touches_syscall.
  case_match; [apply touches_ret|]. case_match; apply touches_throw.
Qed.

Lemma touches_makeslice n sz : touches P (makeslice n sz).
Proof. unfold makeslice. case_match; [apply touches_ret|apply touches_panic]. Qed.
End touches.

#[export] Hint Resolve touches_ret touches_throw touches_panic touches_attempt touches_wrap
  touches_on_error touches_of_option touches_next_fault touches_os_Create touches_os_OpenAppend
  touches_os_Open touches_file_Write touches_file_Sync touches_file_Close touches_os_Remove
  touches_os_Rename touches_file_ReadAt touches_io_ReadFull touches_makeslice : io.

(** [frame] proves [touches] goals by following the structure of the code. *)
Ltac frame :=
  repeat first
    [ progress intros
    | solve [eauto 3 with io]
    | match goal with
      | |- touches _ (bind _ _) => apply touches_bind
      | |- touches _ (wrap _ _) => apply touches_wrap
      | |- touches _ (attempt _) => apply touches_attempt
      | |- touches _ (on_error _ _) => apply touches_on_error
      | |- touches _ (match ?x with _ => _ end) => destruct x
      end ].

(** What a returned value satisfies, whatever the world. *)
Definition returns {A} (m : M A) (Q : A -> Prop) : Prop := forall w a w', m w = (Ok a, w') -> Q a.

Lemma returns_ret {A} (a : A) (Q : A -> Prop) : Q a -> returns (ret a) Q.
Proof. intros HQ w b w' [= <- _]. done. Qed.

Lemma returns_throw {A} e (Q : A -> Prop) : returns (throw e) Q.
Proof. done. Qed.

Lemma returns_bind {A B} (m : M A) (k : A -> M B) (R : A -> Prop) (Q : B -> Prop) :
  returns m R -> (forall a, R a -> returns (k a) Q) -> returns (bind m k) Q.
Proof.
  intros Hm Hk w b w'. unfold bind. destruct (m w) as [[a|e|] w1] eqn:E; try done.
  intros H. by apply (Hk a (Hm _ _ _ E) _ _ _ H).
Qed.

Lemma returns_any {A} (m : M A) : returns m (fun _ => True).
Proof. done. Qed.

Lemma touches_bind_returns {A B} P (m : M A) (k : A -> M B) (R : A -> Prop) :
  touches P m -> returns m R -> (forall a, R a -> touches P (k a)) -> touches P (bind m k).
Proof.
  intros Hm HR Hk w r w'. unfold bind. destruct (m w) as [[a|e|] w1] eqn:E; intros H.
  - exact (touches_trans _ _ _ _ (Hm _ _ _ E) (Hk a (HR _ _ _ E) _ _ _ H)).
  - injection H as _ <-. exact (Hm _ _ _ E).
  - injection H as _ <-. exact (Hm _ _ _ E).
Qed.

(** The path of a buffered writer never changes. *)
Definition same_path (b : bufw) (r : bufw * option error) : Prop := bw_path r.1 = bw_path b.

Lemma bufio_Flush_path b : returns (bufio_Flush b) (same_path b).
Proof.
  unfold bufio_Flush. case_match; [by apply returns_ret|]. case_match; [by apply returns_ret|].
  eapply returns_bind; [apply returns_any|]. intros [?|?] _; by apply returns_ret.
Qed.

Lemma bufio_direct_path b p : returns (bufio_direct b p) (same_path b).
Proof.
  unfold bufio_direct. eapply returns_bind; [apply returns_any|]. intros [?|?] _; by apply returns_ret.
Qed.

Lemma bufio_Write_path b p : returns (bufio_Write b p) (same_path b).
Proof.
  unfold bufio_Write. case_match; [by apply returns_ret|]. cbv zeta.
  case_match; [by apply returns_ret|]. case_match; [apply bufio_direct_path|].
  eapply returns_bind; [apply bufio_Flush_path|]. unfold same_path. simpl. intros [b' [e|]] Hb; simpl in Hb.
  - by apply returns_ret.
  - case_match; [by apply returns_ret|]. rewrite <- Hb. apply bufio_direct_path.
Qed.

Lemma touches_bufio_Flush P b : P (bw_path b) -> touches P (bufio_Flush b).
Proof. intros HP. unfold bufio_Flush. frame. Qed.

Lemma touches_bufio_direct P b p : P (bw_path b) -> touches P (bufio_direct b p).
Proof. intros HP. unfold bufio_direct. frame. Qed.

Lemma touches_bufio_Write P b p : P (bw_path b) -> touches P (bufio_Write b p).
Proof.
  intros HP. unfold bufio_Write. case_match; [frame|]. cbv zeta. case_match; [frame|].
  case_match; [by apply touches_bufio_direct|].
  eapply touches_bind_returns; [by apply touches_bufio_Flush|apply bufio_Flush_path|].
  unfold same_path. simpl. intros [b' e] Hb. simpl in Hb. destruct e; [frame|]. cbv zeta.
  case_match; [frame|]. apply touches_bufio_direct. by rewrite Hb.
Qed.

#[export] Hint Resolve touches_bufio_Flush touches_bufio_direct touches_bufio_Write : io.

(** ** Triples *)

Definition triple {A} (P : world -> Prop) (m : M A) (Q : A -> world -> Prop) : Prop :=
  forall w, P w ->
    match m w with
    | (Ok a, w') => Q a w' /\ (w_faults w = [] -> w_faults w' = [])
    | (Err _, _) => w_faults w <> []
    | (Panic, _) => False
    end.

Lemma triple_ret {A} (P : world -> Prop) (a : A) (Q : A -> world -> Prop) :
  (forall w, P w -> Q a w) -> triple P (ret a) Q.
Proof. intros H w HP. simpl. auto. Qed.

Lemma triple_bind {A B} P (m : M A) (k : A -> M B) R Q :
  triple P m R -> (forall a, triple (R a) (k a) Q) -> triple P (bind m k) Q.
Proof.
  intros Hm Hk w HP. specialize (Hm w HP). unfold bind. destruct (m w) as [[a|e|] w1]; [|done|done].
  destruct Hm as [HR Hfl]. specialize (Hk a w1 HR). destruct (k a w1) as [[b|e|] w2]; [|auto|done].
  destruct Hk as [HQ Hfl']. auto.
Qed.

Lemma triple_conseq {A} (P P' : world -> Prop) (m : M A) (Q Q' : A -> world -> Prop) :
  (forall w, P w -> P' w) -> (forall a w, Q' a w -> Q a w) -> triple P' m Q' -> triple P m Q.
Proof.
  intros HP HQ Hm w Hw. specialize (Hm w (HP w Hw)). destruct (m w) as [[a|e|] w1]; [|done|done].
  destruct Hm. auto.
Qed.

Lemma triple_wrap {A} P t (m : M A) Q : triple P m Q -> triple P (wrap t m) Q.
Proof. intros Hm w HP. specialize (Hm w HP). unfold wrap. by destruct (m w) as [[a|e|] w1]. Qed.

Lemma triple_on_error {A} P (m : M A) c Q :
  triple P m Q -> (forall w, (c w).1 <> Panic) -> triple P (on_error m c) Q.
Proof.
  intros Hm Hc w HP. specialize (Hm w HP). unfold on_error. destruct (m w) as [[a|e|] w1]; try done.
  specialize (Hc w1). destruct (c w1) as [[?|?|] w2]; done.
Qed.

Lemma triple_of_option {A} (P : world -> Prop) (o : option A) a (Q : A -> world -> Prop) :
  o = Some a -> (forall w, P w -> Q a w) -> triple P (of_option o) Q.
Proof. intros -> H. by apply triple_ret. Qed.

Lemma triple_syscall {A} P (k : M A) Q :
  (forall fs fl, P (MkWorld fs fl) -> P (MkWorld fs (tail fl))) -> triple P k Q -> triple P (syscall k) Q.
Proof.
  intros HP Hk [fs fl] Hw. unfold syscall, bind, next_fault. simpl.
  destruct fl as [|[n|] fl]; simpl; [by apply Hk|done|].
  specialize (Hk (MkWorld fs fl) (HP _ _ Hw)). destruct (k _) as [[a|e|] w1]; [|done|done].
  by destruct Hk as [HQ _].
Qed.

(** The world's files are exactly [fs]. *)
Definition files_are (fs : gmap string file) (w : world) : Prop := w_files w = fs.

Lemma triple_os_Create fs path :
  triple (files_are fs) (os_Create path) (fun _ => files_are (<[path := MkFile [] 0]> fs)).
Proof. apply triple_syscall; [done|]. intros w <-. done. Qed.

Lemma triple_os_Open fs path f :
  fs !! path = Some f ->
  triple (files_are fs) (os_Open path) (fun d w => d = f_data f /\ files_are fs w).
Proof.
  intros Hf. apply triple_syscall; [done|]. intros w Hw. unfold files_are in Hw.
  unfold bind, get_files. rewrite Hw, Hf. done.
Qed.

Lemma triple_file_Sync fs path f :
  fs !! path = Some f ->
  triple (files_are fs) (file_Sync path)
    (fun _ => files_are (<[path := MkFile (f_data f) (length (f_data f))]> fs)).
Proof.
  intros Hf. apply triple_syscall; [done|]. intros w Hw. simpl. split; [|done].
  unfold files_are in *; simpl. rewrite Hw. by rewrite (alter_insert_file _ _ f).
Qed.

Lemma triple_file_Close fs : triple (files_are fs) file_Close (fun _ => files_are fs).
Proof. apply triple_syscall; [done|]. by apply triple_ret. Qed.

Lemma triple_os_Rename fs p1 p2 f :
  fs !! p1 = Some f ->
  triple (files_are fs) (os_Rename p1 p2) (fun _ => files_are (<[p2 := f]> (delete p1 fs))).
Proof.
  intros Hf. apply triple_syscall; [done|]. intros w Hw. unfold files_are in Hw.
  unfold bind, get_files. by rewrite Hw, Hf, <- Hw.
Qed.

Lemma triple_os_Remove fs path f :
  fs !! path = Some f -> triple (files_are fs) (os_Remove path) (fun _ => files_are (delete path fs)).
Proof.
  intros Hf. apply triple_syscall; [done|]. intros w Hw. unfold files_are in Hw.
  unfold bind, get_files. by rewrite Hw, Hf, <- Hw.
Qed.

Lemma triple_file_ReadAt fs data n off :
  (0 <= off)%Z -> (Z.of_N n + off <= Z.of_nat (length data))%Z ->
  triple (files_are fs) (file_ReadAt data n off)
    (fun bs w => bs = slice (Z.to_nat off) (Z.to_nat off + N.to_nat n) data /\ files_are fs w).
Proof.
  intros H0 Hl. unfold file_ReadAt. destruct (Z.ltb_spec off 0); [lia|].
  rewrite (proj2 (Z.leb_le _ _)) by done. apply triple_syscall; [done|]. by apply triple_ret.
Qed.

Lemma triple_io_ReadFull fs rest n :
  (n <= N.of_nat (length rest))%N ->
  triple (files_are fs) (io_ReadFull rest n)
    (fun r w => r = (take (N.to_nat n) rest, drop (N.to_nat n) rest) /\ files_are fs w).
Proof.
  intros Hl. unfold io_ReadFull. destruct (N.eqb_spec n 0) as [->|Hn].
  - by apply triple_ret.
  - apply triple_syscall; [done|]. rewrite (proj2 (N.leb_le _ _)) by done. by apply triple_ret.
Qed.

Lemma triple_makeslice fs n sz :
  (n * sz <= 2 ^ 48)%N -> triple (files_are fs) (makeslice n sz) (fun _ => files_are fs).
Proof. intros Hl. unfold makeslice. rewrite (proj2 (N.leb_le _ _)) by done. by apply triple_ret. Qed.

(** A healthy buffered writer of a file made by [os.Create]: [content] is what
    was written so far, part of it still in the buffer. *)
Definition stream (path : string) (fs : gmap string file) (b : bufw) (content : bytes) (w : world) : Prop :=
  bw_path b = path /\ bw_err b = false /\
  exists data, content = data ++ bw_buf b /\ w_files w = <[path := MkFile data 0]> fs.

Lemma stream_write_file path fs data p w :
  w_files w = <[path := MkFile data 0]> fs ->
  match file_Write path p w with
  | (Ok _, w') => w_files w' = <[path := MkFile (data ++ p) 0]> fs /\ (w_faults w = [] -> w_faults w' = [])
  | (Err _, _) => w_faults w <> []
  | (Panic, _) => False
  end.
Proof.
  intros Hw. destruct w as [fs' fl]. simpl in Hw. subst fs'.
  io_unfold. destruct fl as [|[n|] fl]; simpl; [|done|];
    rewrite (alter_insert_file _ _ (MkFile data 0)) by apply lookup_insert_eq;
    by rewrite insert_insert_eq.
Qed.

Lemma triple_bufio_Flush path fs b c :
  triple (stream path fs b c) (or_throw (bufio_Flush b))
    (fun b' w => bw_path b' = path /\ bw_err b' = false /\ bw_buf b' = [] /\
                 w_files w = <[path := MkFile c 0]> fs).
Proof.
  intros w (Hp & He & data & -> & Hw). unfold or_throw, bufio_Flush. rewrite He.
  destruct (bw_buf b) as [|x buf] eqn:Eb; simpl.
  - rewrite app_nil_r. auto.
  - rewrite Hp. pose proof (stream_write_file path fs data (x :: buf) w Hw) as Hf.
    unfold bind, attempt. destruct (file_Write path _ w) as [[?|?|] w']; simpl; [|done|done].
    destruct Hf. auto 10.
Qed.

Lemma triple_bufio_direct path fs b c p :
  bw_buf b = [] ->
  triple (stream path fs b c) (or_throw (bufio_direct b p)) (fun b' => stream path fs b' (c ++ p)).
Proof.
  intros Hb w (Hp & He & data & -> & Hw). unfold or_throw, bufio_direct. rewrite Hp, Hb, app_nil_r.
  pose proof (stream_write_file path fs data p w Hw) as Hf. unfold bind, attempt.
  destruct (file_Write path p w) as [[?|?|] w']; simpl; [|done|done]. destruct Hf as [Hf Hfl].
  split; [|done]. split; [done|]. split; [done|]. exists (data ++ p). by rewrite Hb, app_nil_r.
Qed.

Lemma triple_bufio_Write path fs b c p :
  triple (stream path fs b c) (or_throw (bufio_Write b p)) (fun b' => stream path fs b' (c ++ p)).
Proof.
  intros w Hs. pose proof Hs as (Hp & He & data & -> & Hw). unfold bufio_Write. rewrite He.
  set (avail := (bufSize - N.of_nat (length (bw_buf b)))%N). cbv zeta.
  destruct (N.of_nat (length p) <=? avail)%N.
  { simpl. split; [|done]. split; [done|]. split; [done|]. exists data. by rewrite <- app_assoc. }
  destruct (bw_buf b) as [|x buf] eqn:Eb.
  { rewrite app_nil_r. refine (triple_bufio_direct path fs b data p Eb w _).
    split; [done|]. split; [done|]. exists data. by rewrite Eb, app_nil_r. }
  rewrite <- Eb in *.
  set (b1 := MkBufw (bw_path b) (bw_buf b ++ take (N.to_nat avail) p) false).
  assert (stream path fs b1 ((data ++ bw_buf b) ++ take (N.to_nat avail) p) w) as H1.
  { split; [done|]. split; [done|]. exists data. by rewrite <- app_assoc. }
  pose proof (triple_bufio_Flush _ _ _ _ w H1) as HF.
  unfold or_throw, bind in HF |- *. destruct (bufio_Flush b1 w) as [[[b2 [e|]]|e|] w2]; try done.
  simpl in HF. destruct HF as ((Hp2 & He2 & Hb2 & Hw2) & Hfl). simpl.
  destruct (N.of_nat (length (drop (N.to_nat avail) p)) <=? bufSize)%N; simpl.
  - split; [|done]. split; [done|]. split; [done|]. eexists. split; [|exact Hw2]. simpl.
    by rewrite <- !app_assoc, take_drop.
  - assert (stream path fs b2 ((data ++ bw_buf b) ++ take (N.to_nat avail) p) w2) as H2.
    { split; [done|]. split; [done|]. eexists. split; [|exact Hw2]. by rewrite Hb2, app_nil_r. }
    pose proof (triple_bufio_direct path fs b2 _ (drop (N.to_nat avail) p) Hb2 w2 H2) as HD.
    unfold or_throw, bind in HD. destruct (bufio_direct b2 _ w2) as [[[b3 [e|]]|e|] w3]; simpl in HD |- *; try done.
    + intros E. apply HD. auto.
    + destruct HD as [HD Hfl2]. split; [|auto]. rewrite <- !app_assoc, take_drop in HD. by rewrite <- app_assoc.
    + intros E. apply HD. auto.
Qed.

Lemma triple_pure {A} (phi : Prop) (P : world -> Prop) (m : M A) Q :
  (phi -> triple P m Q) -> triple (fun w => phi /\ P w) m Q.
Proof. intros H w [Hphi HP]. by apply H. Qed.

Lemma triple_post {A} P (m : M A) (Q Q' : A -> world -> Prop) :
  triple P m Q' -> (forall a w, Q' a w -> Q a w) -> triple P m Q.
Proof. intros Hm HQ. by eapply triple_conseq. Qed.

Lemma triple_bind_ret {A B} P (a : A) (k : A -> M B) Q : triple P (k a) Q -> triple P (bind (ret a) k) Q.
Proof. done. Qed.

(** A step whose result is known exactly. *)
Lemma triple_bind_eq {A B} P (m : M A) (k : A -> M B) a R Q :
  triple P m (fun b w => b = a /\ R w) -> triple R (k a) Q -> triple P (bind m k) Q.
Proof.
  intros Hm Hk. eapply triple_bind; [exact Hm|]. intros b w [-> Hw]. by apply Hk.
Qed.

Lemma bind_Ok {A B} (m : M A) (k : A -> M B) w a w1 : m w = (Ok a, w1) -> bind m k w = k a w1.
Proof. intros E. unfold bind. by rewrite E. Qed.

Lemma bind_Err {A B} (m : M A) (k : A -> M B) w e w1 : m w = (Err e, w1) -> bind m k w = (Err e, w1).
Proof. intros E. unfold bind. by rewrite E. Qed.

(** ** Errors

    [raises P m]: an error [m] returns satisfies [P].  The rules are for a [P]
    that holds of the operating system's errors and is kept by wrapping. *)

Definition raises (P : error -> Prop) {A} (m : M A) : Prop := forall w e w', m w = (Err e, w') -> P e.

Class ErrorClass (P : error -> Prop) : Prop := {
  ec_wrap t e : P e -> P (ErrWrap t e);
  ec_system e : e ∈ [ErrIO; EOF; ErrUnexpectedEOF; ErrNotExist; ErrNegativeOffset] -> P e }.

Create HintDb raises.

Section raises.
Context (P : error -> Prop) `{HP : !ErrorClass P}.

Lemma raises_ret {A} (a : A) : raises P (ret a).
Proof. done. Qed.

Lemma raises_throw {A} e : P e -> raises P (throw e : M A).
Proof. intros He w e' w' [= -> _]. done. Qed.

Lemma raises_panic {A} : raises P (panic : M A).
Proof. done. Qed.

Lemma raises_bind_returns {A B} (m : M A) (k : A -> M B) (R : A -> Prop) :
  raises P m -> returns m R -> (forall a, R a -> raises P (k a)) -> raises P (bind m k).
Proof.
  intros Hm Hr Hk w e w' H. unfold bind in H. destruct (m w) as [[a|e1|] w1] eqn:E.
  - by apply (Hk a (Hr _ _ _ E) _ _ _ H).
  - injection H as <- _. by apply (Hm _ _ _ E).
  - discriminate H.
Qed.

Lemma raises_bind {A B} (m : M A) (k : A -> M B) :
  raises P m -> (forall a, raises P (k a)) -> raises P (bind m k).
Proof. intros Hm Hk. eapply raises_bind_returns; [done|apply returns_any|auto]. Qed.

Lemma raises_attempt {A} (m : M A) : raises P (attempt m).
Proof. intros w e w' H. unfold attempt in H. by destruct (m w) as [[?|?|] ?]. Qed.

Lemma raises_wrap {A} t (m : M A) : raises P m -> raises P (wrap t m).
Proof.
  intros Hm w e w' H. unfold wrap in H. destruct (m w) as [[a|e1|] w1] eqn:E; try discriminate H.
  injection H as <- _. by apply ec_wrap, (Hm _ _ _ E).
Qed.

Lemma raises_on_error {A} (m : M A) c : raises P m -> raises P (on_error m c).
Proof.
  intros Hm w e w' H. unfold on_error in H. destruct (m w) as [[a|e1|] w1] eqn:E; try discriminate H.
  destruct (c w1) as [[?|?|] ?]; try discriminate H; injection H as <- _; by apply (Hm _ _ _ E).
Qed.

Lemma raises_of_option {A} (o : option A) : raises P (of_option o).
Proof. by destruct o. Qed.

Lemma raises_syscall {A} (k : M A) : raises P k -> raises P (syscall k).
Proof.
  intros Hk. apply raises_bind; [by intros [fs [|]]|]. intros [n|]; [|done].
  apply raises_throw, ec_system. by left.
Qed.

Lemma raises_upd_files f : raises P (upd_files f).
Proof. done. Qed.

Lemma raises_get_files : raises P get_files.
Proof. done. Qed.

Lemma raises_system {A} e : e ∈ [ErrIO; EOF; ErrUnexpectedEOF; ErrNotExist; ErrNegativeOffset] -> raises P (throw e : M A).
Proof. intros He. by apply raises_throw, ec_system. Qed.

(** The error a buffered writer reports. *)
Lemma bufio_Flush_error b : returns (bufio_Flush b) (fun r => r.2 = None \/ r.2 = Some ErrIO).
Proof.
  unfold bufio_Flush. intros [fs fl] r w'. destruct (bw_err b); [by intros [= <- _]; right|].
  destruct (bw_buf b); [by intros [= <- _]; left|]. io_unfold.
  destruct fl as [|[n|] fl]; simpl; intros [= <- _]; auto.
Qed.

Lemma bufio_direct_error b p : returns (bufio_direct b p) (fun r => r.2 = None \/ r.2 = Some ErrIO).
Proof.
  intros [fs fl] r w'. unfold bufio_direct. io_unfold.
  destruct fl as [|[n|] fl]; simpl; intros [= <- _]; auto.
Qed.

Lemma bufio_Write_error b p : returns (bufio_Write b p) (fun r => r.2 = None \/ r.2 = Some ErrIO).
Proof.
  unfold bufio_Write. destruct (bw_err b); [intros w r w' [= <- _]; by right|]. cbv zeta.
  case_match; [intros w r w' [= <- _]; by left|]. destruct (bw_buf b); [apply bufio_direct_error|].
  eapply returns_bind; [apply bufio_Flush_error|]. intros [b' [e|]] [He|He]; try discriminate He; cbn in He.
  - intros w r w' [= <- _]. by right.
  - case_match; [intros w r w' [= <- _]; by left|apply bufio_direct_error].
Qed.

Lemma raises_or_throw {A} (m : M (A * option error)) :
  raises P m -> returns m (fun r => r.2 = None \/ r.2 = Some ErrIO) -> raises P (or_throw m).
Proof.
  intros Hm Hr. eapply raises_bind_returns; [done|done|]. intros [a [e|]] [He|He]; try done.
  injection He as ->. by apply raises_system; left.
Qed.
End raises.

(** [raise] proves [raises] goals by following the structure of the code. *)
Ltac raise :=
  repeat first
    [ progress intros
    | solve [eauto 3 with raises]
    | match goal with
      | |- raises _ (bind _ _) => apply raises_bind
      | |- raises _ (wrap _ _) => apply raises_wrap
      | |- raises _ (attempt _) => apply raises_attempt
      | |- raises _ (on_error _ _) => apply raises_on_error
      | |- raises _ (syscall _) => apply raises_syscall
      | |- raises _ (throw _) => refine (raises_system _ _ _); solve [repeat constructor]
      | |- raises _ (match ?x with _ => _ end) => destruct x
      end ].

#[export] Hint Resolve raises_ret raises_panic raises_attempt raises_of_option raises_upd_files raises_get_files : raises.

Section raises_calls.
Context (P : error -> Prop) `{HP : !ErrorClass P}.

Lemma raises_file_Write path p : raises P (file_Write path p).
Proof.
  unfold file_Write. apply raises_bind; [by intros [fs [|]]|]. intros [n|]; raise.
Qed.

Lemma raises_file_ReadAt data n off : raises P (file_ReadAt data n off).
Proof. unfold file_ReadAt. raise. Qed.

Lemma raises_io_ReadFull rest n : raises P (io_ReadFull rest n).
Proof. unfold io_ReadFull. raise. Qed.

Lemma raises_makeslice n sz : raises P (makeslice n sz).
Proof. unfold makeslice. raise. Qed.

Lemma raises_os_Open path : raises P (os_Open path).
Proof. unfold os_Open. raise. Qed.

Lemma raises_os_Create path : raises P (os_Create path).
Proof. unfold os_Create. raise. Qed.

Lemma raises_os_Rename p q : raises P (os_Rename p q).
Proof. unfold os_Rename. raise. Qed.

Lemma raises_file_Sync path : raises P (file_Sync path).
Proof. unfold file_Sync. raise. Qed.

Lemma raises_file_Close : raises P file_Close.
Proof. unfold file_Close. raise. Qed.

Lemma raises_bufio_Flush b : raises P (bufio_Flush b).
Proof. unfold bufio_Flush. raise. Qed.

Lemma raises_bufio_Write b p : raises P (bufio_Write b p).
Proof. unfold bufio_Write, bufio_direct. raise; try apply raises_bufio_Flush. Qed.
End raises_calls.

#[export] Hint Resolve raises_file_ReadAt raises_io_ReadFull raises_makeslice raises_os_Open raises_os_Create
  raises_os_Rename raises_file_Sync raises_file_Close raises_bufio_Flush raises_bufio_Write raises_file_Write : raises.
