(* ===== verification/Bloom.v ===== *)
(** * The Bloom filter (src/bloom/bloom.go)

    The filter's bit array, its double hashing over FNV-1a and FNV-1, and its
    serialized form, with Go's wrapping uint32 arithmetic.  An operation that
    returns an option is [None] where the Go code panics (modulo zero, index
    out of range). *)

From Stdlib Require Import QArith.
From S2P Require Import Prelude GoIO.
From stdpp Require Import base gmap sets list strings numbers fin_maps.
Open Scope nat_scope.

(** The float64 arithmetic of the standard library's [math] package, which
    sizes a filter: [float_m n fp] is the value of
    [math.Ceil(-1 * float64(n) * math.Log(fp) / (math.Ln2 * math.Ln2))] and
    [float_k m n] that of [math.Round((m / float64(n)) * math.Ln2)]; both are
    integers. *)
Class FloatMath := { float_m : Z -> Q -> Z; float_k : Z -> Z -> Z }.

Record Filter := MkFilter { bits : bytes; numBits : N; numHash : N }.

#[export] Instance Filter_eq_dec : EqDecision Filter.
Proof. solve_decision. Defined.

Definition NewForEntries `{FloatMath} (n : Z) (fp : Q) : Filter :=
  let n := if (n <? 1)%Z then 1%Z else n in
  let fp := if Qle_bool fp 0 || Qle_bool 1 fp then (1 # 100)%Q else fp in
  let m := float_m n fp in
  let k := float_k m n in
  let k := if (k <? 1)%Z then 1%Z else k in
  let nb := u32 (Z.to_N m) in
  let nb := if (nb =? 0)%N then 1%N else nb in
  MkFilter (replicate (N.to_nat (u32 (nb + 7) / 8)) Byte.x00) nb (u32 (Z.to_N k)).

(** [hash/fnv]: 32-bit FNV-1a and FNV-1. *)
Definition fnv_offset : N := 2166136261.
Definition fnv_prime : N := 16777619.

Definition fnv32a (key : bytes) : N :=
  fold_left (fun h b => u32 (N.lxor h (Byte.to_N b) * fnv_prime)) key fnv_offset.

Definition fnv32 (key : bytes) : N :=
  fold_left (fun h b => N.lxor (u32 (h * fnv_prime)) (Byte.to_N b)) key fnv_offset.

Definition hashes (key : bytes) : N * N := (fnv32a key, fnv32 key).

(** [(h1 + i*h2) % f.numBits] in uint32 arithmetic. *)
Definition probe (f : Filter) (h1 h2 i : N) : option N :=
  if (numBits f =? 0)%N then None else Some (u32 (h1 + u32 (i * h2)) mod numBits f)%N.

Definition set_bit (idx : N) (b : Byte.byte) : Byte.byte :=
  byte_of_N (N.lor (Byte.to_N b) (N.shiftl 1 (idx mod 8))).

Definition test_bit (idx : N) (b : Byte.byte) : bool :=
  negb (N.land (Byte.to_N b) (N.shiftl 1 (idx mod 8)) =? 0)%N.

Fixpoint add_loop (cnt : nat) (i : N) (h1 h2 : N) (f : Filter) : option Filter :=
  match cnt with
  | O => Some f
  | S cnt' =>
      idx ← probe f h1 h2 i;
      _ ← bits f !! N.to_nat (idx / 8);
      add_loop cnt' (N.succ i) h1 h2
        (MkFilter (alter (set_bit idx) (N.to_nat (idx / 8)) (bits f)) (numBits f) (numHash f))
  end.

Definition Add (f : Filter) (key : bytes) : option Filter :=
  let (h1, h2) := hashes key in add_loop (N.to_nat (numHash f)) 0 h1 h2 f.

Fixpoint contain_loop (cnt : nat) (i : N) (h1 h2 : N) (f : Filter) : option bool :=
  match cnt with
  | O => Some true
  | S cnt' =>
      idx ← probe f h1 h2 i;
      b ← bits f !! N.to_nat (idx / 8);
      if test_bit idx b then contain_loop cnt' (N.succ i) h1 h2 f else Some false
  end.

Definition MayContain (f : Filter) (key : bytes) : option bool :=
  let (h1, h2) := hashes key in contain_loop (N.to_nat (numHash f)) 0 h1 h2 f.

Definition Encode (f : Filter) : bytes :=
  le_bytes 4 (numBits f) ++ le_bytes 4 (numHash f) ++ bits f.

Definition errShort : error := ErrNew "bloom: buffer too short".
Definition errCorrupt : error := ErrNew "bloom: corrupt filter".

Definition Decode (buf : bytes) : Filter + error :=
  if length buf <? 8 then inr errShort
  else
    let nb := le_N (slice 0 4 buf) in
    let nh := le_N (slice 4 8 buf) in
    let expectedBytes := N.to_nat (u32 (nb + 7) / 8) in
    if length buf - 8 =? expectedBytes
    then inl (MkFilter (drop 8 buf) nb nh)
    else inr errCorrupt.

(** A filter whose probes are all in range. *)
Definition wf (f : Filter) : Prop :=
  (0 < numBits f)%N /\ (numBits f <= 8 * N.of_nat (length (bits f)))%N.

(** Every bit set in [f] is set in [g]. *)
Definition extends (f g : Filter) : Prop :=
  numBits g = numBits f /\ numHash g = numHash f /\ length (bits g) = length (bits f) /\
  forall idx j b, bits f !! j = Some b -> test_bit idx b = true ->
    exists b', bits g !! j = Some b' /\ test_bit idx b' = true.

(** Adding every key of a list, as [sstable.Write] does. *)
Fixpoint add_all (f : Filter) (keys : list bytes) : option Filter :=
  match keys with
  | [] => Some f
  | k :: ks => f' ← Add f k; add_all f' ks
  end.

(** ** Lemmas *)

Lemma test_set_bit idx b : test_bit idx (set_bit idx b) = true.
Proof.
  unfold test_bit, set_bit. rewrite to_N_byte_of_N.
  apply negb_true_iff, N.eqb_neq. intros E.
  apply (f_equal (fun n => N.testbit n (idx mod 8))) in E.
  pose proof (N.mod_lt idx 8).
  change 256%N with (2 ^ 8)%N in E.
  rewrite N.shiftl_1_l, N.land_spec, N.mod_pow2_bits_low, N.lor_spec in E by lia.
  rewrite N.pow2_bits_true, N.bits_0, orb_true_r in E. done.
Qed.

Lemma test_bit_set_mono idx idx' b : test_bit idx b = true -> test_bit idx (set_bit idx' b) = true.
Proof.
  unfold test_bit, set_bit. rewrite to_N_byte_of_N.
  rewrite !negb_true_iff, !N.eqb_neq. intros Hne E. apply Hne.
  apply N.bits_inj. intros i. rewrite N.bits_0.
  apply (f_equal (fun n => N.testbit n i)) in E. rewrite N.bits_0 in E.
  rewrite (N.shiftl_1_l (idx' mod 8)), (N.shiftl_1_l (idx mod 8)), N.land_spec, N.pow2_bits_eqb in E.
  rewrite N.shiftl_1_l, N.land_spec, N.pow2_bits_eqb.
  destruct (N.eqb_spec (idx mod 8) i) as [Ei|]; [subst i|by rewrite andb_false_r].
  rewrite andb_true_r in E |- *. pose proof (N.mod_lt idx 8).
  change 256%N with (2 ^ 8)%N in E. rewrite N.mod_pow2_bits_low, N.lor_spec in E by lia.
  by apply orb_false_iff in E as [? _].
Qed.

Lemma extends_refl f : extends f f.
Proof. repeat split; eauto. Qed.

Lemma extends_trans f g h : extends f g -> extends g h -> extends f h.
Proof.
  intros (?&?&?&Hfg) (?&?&?&Hgh). repeat split; try congruence.
  intros idx j b Hb Ht. destruct (Hfg _ _ _ Hb Ht) as (b' & Hb' & Ht'). eauto.
Qed.

Lemma extends_wf f g : extends f g -> wf f -> wf g.
Proof. intros (Hn & _ & Hl & _). unfold wf. by rewrite Hn, Hl. Qed.

Lemma probe_spec f h1 h2 i :
  wf f -> exists idx b, probe f h1 h2 i = Some idx /\ bits f !! N.to_nat (idx / 8) = Some b.
Proof.
  intros [H0 Hl]. unfold probe. destruct (N.eqb_spec (numBits f) 0); [lia|].
  set (idx := (u32 _ mod numBits f)%N). exists idx.
  assert (idx < numBits f)%N by (apply N.mod_lt; lia).
  destruct (lookup_lt_is_Some_2 (bits f) (N.to_nat (idx / 8))) as [b Hb]; [|eauto].
  assert (idx / 8 < N.of_nat (length (bits f)))%N by (apply N.Div0.div_lt_upper_bound; lia). lia.
Qed.

Lemma extends_set f idx j :
  extends f (MkFilter (alter (set_bit idx) j (bits f)) (numBits f) (numHash f)).
Proof.
  repeat split; simpl; [by rewrite length_alter|].
  intros idx' j' b Hb Ht. rewrite list_lookup_alter. case_decide; subst; eauto.
  rewrite Hb; simpl. eauto using test_bit_set_mono.
Qed.

Lemma probe_extends f g h1 h2 i : extends f g -> probe g h1 h2 i = probe f h1 h2 i.
Proof. intros (Hn & _). unfold probe. by rewrite Hn. Qed.

Lemma contain_loop_extends cnt i h1 h2 f g :
  extends f g -> contain_loop cnt i h1 h2 f = Some true -> contain_loop cnt i h1 h2 g = Some true.
Proof.
  intros He. revert i; induction cnt as [|cnt IH]; intros i; simpl; [done|].
  rewrite (probe_extends f g) by done. destruct (probe f h1 h2 i) as [idx|]; simpl; [|done].
  destruct (bits f !! _) as [b|] eqn:Hb; simpl; [|done].
  destruct (test_bit idx b) eqn:Ht; [|done]. intros Hc.
  destruct He as (_ & _ & _ & He'). destruct (He' _ _ _ Hb Ht) as (b' & -> & Hb'). simpl.
  rewrite Hb'. by apply IH.
Qed.

Lemma MayContain_extends f g key :
  extends f g -> MayContain f key = Some true -> MayContain g key = Some true.
Proof.
  intros He. unfold MayContain. destruct (hashes key) as [h1 h2].
  destruct He as (Hn & Hh & He). rewrite Hh. by apply contain_loop_extends.
Qed.

Lemma contain_loop_total cnt i h1 h2 f : wf f -> is_Some (contain_loop cnt i h1 h2 f).
Proof.
  intros Hwf. revert i; induction cnt as [|cnt IH]; intros i; simpl; [eauto|].
  destruct (probe_spec f h1 h2 i Hwf) as (idx & b & -> & Hb). simpl. rewrite Hb. simpl.
  destruct (test_bit idx b); eauto.
Qed.

Lemma MayContain_total f key : wf f -> is_Some (MayContain f key).
Proof. intros. unfold MayContain. destruct (hashes key). by apply contain_loop_total. Qed.

Lemma add_loop_spec cnt i h1 h2 f :
  wf f ->
  exists f', add_loop cnt i h1 h2 f = Some f' /\ extends f f' /\ contain_loop cnt i h1 h2 f' = Some true.
Proof.
  revert i f; induction cnt as [|cnt IH]; intros i f Hwf; simpl.
  - exists f. split_and!; auto using extends_refl.
  - destruct (probe_spec f h1 h2 i Hwf) as (idx & b & Hp & Hb). rewrite Hp. simpl. rewrite Hb. simpl.
    set (f1 := MkFilter _ _ _).
    assert (extends f f1) as H1 by apply extends_set.
    destruct (IH (N.succ i) f1) as (f2 & -> & H2 & Hc); [by eapply extends_wf|].
    exists f2. split_and!; [done|by eapply extends_trans|].
    rewrite (probe_extends f f2) by (by eapply extends_trans). rewrite Hp. simpl.
    destruct H2 as (_ & _ & _ & H2).
    destruct (H2 idx (N.to_nat (idx / 8)) (set_bit idx b)) as (b' & -> & Hb').
    + simpl. by rewrite list_lookup_alter_eq, Hb.
    + apply test_set_bit.
    + simpl. by rewrite Hb'.
Qed.

Lemma Add_spec f key :
  wf f -> exists f', Add f key = Some f' /\ extends f f' /\ MayContain f' key = Some true.
Proof.
  intros Hwf. unfold Add, MayContain. destruct (hashes key) as [h1 h2].
  destruct (add_loop_spec (N.to_nat (numHash f)) 0 h1 h2 f Hwf) as (f' & -> & He & Hc).
  exists f'. split_and!; auto. destruct He as (_ & Hh & _). by rewrite Hh.
Qed.

Lemma add_all_spec f keys :
  wf f ->
  exists f', add_all f keys = Some f' /\ extends f f' /\
    forall k, k ∈ keys -> MayContain f' k = Some true.
Proof.
  revert f; induction keys as [|k keys IH]; intros f Hwf; simpl.
  - exists f. split_and!; auto using extends_refl. by intros k ?%not_elem_of_nil.
  - destruct (Add_spec f k Hwf) as (f1 & -> & H1 & Hk). simpl.
    destruct (IH f1) as (f2 & -> & H2 & Hks); [by eapply extends_wf|].
    exists f2. split_and!; [done|by eapply extends_trans|].
    intros k' [->|Hk']%elem_of_cons; [|auto]. by eapply MayContain_extends.
Qed.

(** The sizes for which [NewForEntries] does not wrap around. *)
Definition size_ok `{FloatMath} (n : Z) (fp : Q) : Prop := (0 < float_m n fp < 2 ^ 32 - 7)%Z.

Lemma NewForEntries_wf `{FloatMath} n fp :
  (1 <= n)%Z -> Qle_bool fp 0 = false -> Qle_bool 1 fp = false -> size_ok n fp ->
  let f := NewForEntries n fp in
  wf f /\ (numBits f < 2 ^ 32 - 7)%N /\ (numHash f < 2 ^ 32)%N /\
  length (bits f) = N.to_nat ((numBits f + 7) / 8).
Proof.
  intros Hn H0 H1 Hs. unfold size_ok in Hs. unfold NewForEntries.
  destruct (Z.ltb_spec n 1); [lia|]. rewrite H0, H1. simpl orb. cbv iota zeta. cbn [numBits numHash bits].
  rewrite (u32_small (Z.to_N _)) by lia.
  destruct (N.eqb_spec (Z.to_N (float_m n fp)) 0); [lia|].
  rewrite (u32_small (_ + 7)) by lia. unfold wf; cbn [numBits bits].
  rewrite length_replicate. split_and!; try lia; [|apply u32_lt].
  rewrite N2Nat.id. pose proof (N.div_mod (Z.to_N (float_m n fp) + 7) 8).
  pose proof (N.mod_lt (Z.to_N (float_m n fp) + 7) 8). lia.
Qed.

Lemma Decode_Encode f :
  (numBits f < 2 ^ 32 - 7)%N -> (numHash f < 2 ^ 32)%N ->
  length (bits f) = N.to_nat ((numBits f + 7) / 8) ->
  Decode (Encode f) = inl f.
Proof.
  intros Hb Hh Hl. unfold Decode, Encode.
  destruct (Nat.ltb_spec (length (le_bytes 4 (numBits f) ++ le_bytes 4 (numHash f) ++ bits f)) 8) as [Hlt|Hge].
  { rewrite !length_app, !length_le_bytes in Hlt. lia. }
  rewrite slice_app_l by (by rewrite length_le_bytes).
  rewrite (slice_app_mid (le_bytes 4 (numBits f)) (le_bytes 4 (numHash f)))
    by (rewrite ?length_le_bytes; lia).
  rewrite !le_N_small by (simpl; lia). rewrite !length_app, !length_le_bytes.
  rewrite u32_small by lia.
  destruct (Nat.eqb_spec (4 + (4 + length (bits f)) - 8) (N.to_nat ((numBits f + 7) / 8))); [|lia].
  f_equal. destruct f as [b nb nh]; simpl in *. f_equal.
Qed.

(** ** Properties *)

(** C34: no false negatives.  On a well-formed filter [Add] never panics, the
    key added is reported as possibly present from then on, and so is every
    key that was before. *)
Theorem add_no_false_negative f key :
  wf f ->
  exists f', Add f key = Some f' /\ wf f' /\ MayContain f' key = Some true /\
    forall k, MayContain f k = Some true -> MayContain f' k = Some true.
Proof.
  intros Hwf. destruct (Add_spec f key Hwf) as (f' & HA & He & Hc).
  exists f'. split_and!; eauto using extends_wf, MayContain_extends.
Qed.

Lemma add_no_false_negative_witness :
  exists f', Add (MkFilter [Byte.x00; Byte.x00] 10 3) [Byte.x6b] = Some f' /\ wf f' /\
    MayContain f' [Byte.x6b] = Some true /\
    forall k, MayContain (MkFilter [Byte.x00; Byte.x00] 10 3) k = Some true -> MayContain f' k = Some true.
Proof.
  apply (add_no_false_negative (MkFilter [Byte.x00; Byte.x00] 10 3) [Byte.x6b]).
  split; vm_compute; [reflexivity|discriminate].
Defined.

(** C35: the filter of a table file.  A filter built by [NewForEntries] for a size that does not overflow
    uint32, filled with any keys, is decoded unchanged from its encoding and
    still reports every one of those keys. *)
Theorem bloom_roundtrip `{FloatMath} n keys :
  (1 <= n)%Z -> size_ok n (1 # 100) ->
  exists f, add_all (NewForEntries n (1 # 100)) keys = Some f /\
    Decode (Encode f) = inl f /\
    forall k, k ∈ keys -> MayContain f k = Some true.
Proof.
  intros Hn Hs. destruct (NewForEntries_wf n (1 # 100) Hn eq_refl eq_refl Hs) as (Hwf & Hb & Hh & Hl).
  destruct (add_all_spec _ keys Hwf) as (f & HA & (Enb & Enh & El & _) & Hc).
  exists f. split_and!; auto. apply Decode_Encode; rewrite ?Enb, ?Enh; auto. by rewrite El, Hl.
Qed.

(** A sizing for tests: ten bits and seven hashes per entry. *)
Definition TenBits : FloatMath := {| float_m := fun n _ => (10 * n)%Z; float_k := fun _ _ => 7%Z |}.

Lemma bloom_roundtrip_witness :
  exists f, add_all (@NewForEntries TenBits 2 (1 # 100)) [[Byte.x61]; [Byte.x62; Byte.x63]] = Some f /\
    Decode (Encode f) = inl f /\
    forall k, k ∈ [[Byte.x61]; [Byte.x62; Byte.x63]] -> MayContain f k = Some true.
Proof.
  apply (@bloom_roundtrip TenBits 2 [[Byte.x61]; [Byte.x62; Byte.x63]]); vm_compute; done.
Defined.

(** [Decode] accepts some buffers no [Encode] of a usable filter produces:
    a header announcing zero bits, or 2^32 - 1 bits (the uint32 sum
    [numBits + 7] wraps around to 6), is accepted with an empty bit array, and
    the first [MayContain] on the result panics whatever the key. *)
Theorem decode_accepts_unusable key :
  (exists f, Decode (le_bytes 4 0 ++ le_bytes 4 1) = inl f /\ MayContain f key = None) /\
  (exists f, Decode (le_bytes 4 (2 ^ 32 - 1) ++ le_bytes 4 1) = inl f /\ MayContain f key = None).
Proof.
  split; eexists; (split; [vm_compute; reflexivity|]); unfold MayContain;
    destruct (hashes key) as [h1 h2]; [done|].
  simpl. unfold probe; simpl. done.
Qed.

Example fnv32a_a : fnv32a [Byte.x61] = 0xE40C292C%N.
Proof. vm_compute. reflexivity. Qed.

Example fnv32_a : fnv32 [Byte.x61] = 0x050C5D7E%N.
Proof. vm_compute. reflexivity. Qed.
