(* ===== verification/Wal.v ===== *)
(** * The write-ahead log (src/wal/wal.go)

    The record format with its CRC32 checksum, [Append] through the buffered
    writer down to [fsync], and [Replay] with its tolerance of a torn tail. *)

From S2P Require Import Prelude GoIO.
From stdpp Require Import base gmap sets list strings numbers fin_maps.

(** ** [hash/crc32]: the IEEE checksum (reflected polynomial 0xEDB88320) *)

Fixpoint crc32_bits (n : nat) (crc : N) : N :=
  match n with
  | O => crc
  | S n' =>
      crc32_bits n' (if N.testbit crc 0 then N.lxor (N.shiftr crc 1) 0xEDB88320%N else N.shiftr crc 1)
  end.

Definition ChecksumIEEE (bs : bytes) : N :=
  N.lxor (fold_left (fun crc b => crc32_bits 8 (N.lxor crc (Byte.to_N b))) bs 0xFFFFFFFF%N) 0xFFFFFFFF%N.

(** ** Data *)

Abbreviation RecordType := Byte.byte.
Definition RecordPut : RecordType := Byte.x01.
Definition RecordDelete : RecordType := Byte.x02.

Record Record_ := MkRecord { r_type : RecordType; r_key : bytes; r_value : bytes; r_seq : N }.

#[export] Instance Record_eq_dec : EqDecision Record_.
Proof. solve_decision. Defined.

Definition headerSize : N := 4 + 1 + 8 + 4 + 4.

Record WAL := MkWAL { wal_w : bufw }.

Definition Path (w : WAL) : string := bw_path (wal_w w).

(** ** Operations *)

Definition Open (path : string) : M WAL :=
  wrap "wal: failed to open" (os_OpenAppend path);;; ret (MkWAL (bufio_New path)).

(** [buf[4:]] of a record: what the checksum covers. *)
Definition payload (rec : Record_) : bytes :=
  [r_type rec] ++ le_bytes 8 (r_seq rec) ++
  le_bytes 4 (N.of_nat (length (r_key rec))) ++ le_bytes 4 (N.of_nat (length (r_value rec))) ++
  r_key rec ++ r_value rec.

Definition encode (rec : Record_) : bytes :=
  le_bytes 4 (ChecksumIEEE (payload rec)) ++ payload rec.

(** The updated log and the returned error, if any. *)
Definition Append (w : WAL) (rec : Record_) : M (WAL * option error) :=
  let buf := encode rec in
  let! (b1, e1) := bufio_Write (wal_w w) buf in
  match e1 with
  | Some e => ret (MkWAL b1, Some (ErrWrap "wal: write failed" e))
  | None =>
      let! (b2, e2) := bufio_Flush b1 in
      match e2 with
      | Some e => ret (MkWAL b2, Some (ErrWrap "wal: flush failed" e))
      | None =>
          let! r := attempt (file_Sync (bw_path b2)) in
          match r with
          | inr e => ret (MkWAL b2, Some (ErrWrap "wal: fsync failed" e))
          | inl _ => ret (MkWAL b2, None)
          end
      end
  end.

Definition Close (w : WAL) : M (WAL * option error) :=
  let! (b, e) := bufio_Flush (wal_w w) in
  match e with
  | Some e => ret (MkWAL b, Some (ErrWrap "wal: final flush failed" e))
  | None =>
      let! r := attempt file_Close in
      match r with
      | inr e => ret (MkWAL b, Some (ErrWrap "wal: close failed" e))
      | inl _ => ret (MkWAL b, None)
      end
  end.

Definition Remove (path : string) : M unit := os_Remove path.

Definition maxReasonableLen : N := 512 * 1024 * 1024.

Section replay.
Context {S : Type} (fn : S -> Record_ -> M S).

(** The loop of [Replay] over the bytes left to read; [fn] is the callback,
    acting on the caller's state.  Running out of fuel is a panic. *)
Fixpoint replay_loop (fuel : nat) (rest : bytes) (st : S) : M S :=
  match fuel with
  | O => panic
  | Datatypes.S fuel' =>
      let! h := attempt (io_ReadFull rest headerSize) in
      match h with
      | inr e =>
          if bool_decide (e = EOF) || bool_decide (e = ErrUnexpectedEOF) then ret st
          else throw (ErrWrap "wal: reading header" e)
      | inl (header, rest1) =>
          let crc := le_N (slice 0 4 header) in
          let typ := nth 4 header Byte.x00 in
          let seq := le_N (slice 5 13 header) in
          let keyLen := le_N (slice 13 17 header) in
          let valLen := le_N (slice 17 21 header) in
          if (maxReasonableLen <? keyLen)%N || (maxReasonableLen <? valLen)%N then ret st
          else
            let! b := attempt (io_ReadFull rest1 (keyLen + valLen)) in
            match b with
            | inr _ => ret st
            | inl (body, rest2) =>
                let check := [typ] ++ le_bytes 8 seq ++ le_bytes 4 keyLen ++ le_bytes 4 valLen ++ body in
                if negb (ChecksumIEEE check =? crc)%N then ret st
                else
                  let rec := MkRecord typ (take (N.to_nat keyLen) body) (drop (N.to_nat keyLen) body) seq in
                  let! st' := wrap "wal: apply callback" (fn st rec) in
                  replay_loop fuel' rest2 st'
            end
      end
  end.

Definition Replay (path : string) (st : S) : M S :=
  let! f := attempt (os_Open path) in
  match f with
  | inr e => if errors_Is e ErrNotExist then ret st
             else throw (ErrWrap "wal: failed to open for replay" e)
  | inl data => replay_loop (Datatypes.S (length data)) data st
  end.

(** Delivering a list of records to the callback. *)
Fixpoint deliver (recs : list Record_) (st : S) : M S :=
  match recs with
  | [] => ret st
  | rec :: recs' => let! st' := wrap "wal: apply callback" (fn st rec) in deliver recs' st'
  end.
End replay.

(** ** The format as a parser

    The first record of a byte stream, if a whole, plausible and uncorrupted
    one is there. *)
Definition parse_record (bs : bytes) : option (Record_ * bytes) :=
  let header := take 21 bs in
  let keyLen := le_N (slice 13 17 header) in
  let valLen := le_N (slice 17 21 header) in
  let seq := le_N (slice 5 13 header) in
  let typ := nth 4 header Byte.x00 in
  let rest := drop 21 bs in
  let body := take (N.to_nat (keyLen + valLen)) rest in
  let check := [typ] ++ le_bytes 8 seq ++ le_bytes 4 keyLen ++ le_bytes 4 valLen ++ body in
  if bool_decide (21 <= length bs) && (keyLen <=? maxReasonableLen)%N && (valLen <=? maxReasonableLen)%N
     && (keyLen + valLen <=? N.of_nat (length rest))%N
     && (ChecksumIEEE check =? le_N (slice 0 4 header))%N
  then Some (MkRecord typ (take (N.to_nat keyLen) body) (drop (N.to_nat keyLen) body) seq,
             drop (N.to_nat (keyLen + valLen)) rest)
  else None.

Fixpoint parse_loop (fuel : nat) (bs : bytes) : list Record_ :=
  match fuel with
  | O => []
  | S fuel' =>
      match parse_record bs with
      | Some (rec, rest) => rec :: parse_loop fuel' rest
      | None => []
      end
  end.

Definition parse (bs : bytes) : list Record_ := parse_loop (S (length bs)) bs.

Definition encode_all (recs : list Record_) : bytes := concat (map encode recs).

(** The records [Replay] can read back: lengths within the plausibility bound
    and a 64-bit sequence number. *)
Definition valid (rec : Record_) : Prop :=
  (N.of_nat (length (r_key rec)) <= maxReasonableLen)%N /\
  (N.of_nat (length (r_value rec)) <= maxReasonableLen)%N /\
  (r_seq rec < 2 ^ 64)%N.

Example crc32_check :
  ChecksumIEEE [Byte.x31; Byte.x32; Byte.x33; Byte.x34; Byte.x35; Byte.x36; Byte.x37; Byte.x38; Byte.x39]
  = 0xCBF43926%N.
Proof. vm_compute. reflexivity. Qed.

(** ** The record format *)

Lemma crc32_bits_lt n crc : (crc < 2 ^ 32 -> crc32_bits n crc < 2 ^ 32)%N.
Proof.
  revert crc; induction n as [|n IH]; intros crc Hc; simpl; [done|].
  apply IH. destruct (N.testbit crc 0); [apply lxor_lt; [|done]|]; by apply shiftr_lt.
Qed.

Lemma ChecksumIEEE_lt bs : (ChecksumIEEE bs < 2 ^ 32)%N.
Proof.
  unfold ChecksumIEEE. apply lxor_lt; [|done].
  assert (forall crc, (crc < 2 ^ 32 ->
    fold_left (fun crc b => crc32_bits 8 (N.lxor crc (Byte.to_N b))) bs crc < 2 ^ 32)%N) as H.
  { induction bs as [|b bs IH]; intros crc Hc; [done|]. cbn [fold_left].
    apply IH, crc32_bits_lt, lxor_lt; [done|].
    pose proof (Byte.to_N_bounded b). lia. }
  by apply H.
Qed.

Lemma length_payload rec :
  length (payload rec) = 17 + length (r_key rec) + length (r_value rec).
Proof. unfold payload. rewrite !length_app, !length_le_bytes. simpl. lia. Qed.

Lemma length_encode rec : length (encode rec) = 21 + length (r_key rec) + length (r_value rec).
Proof. unfold encode. rewrite length_app, length_le_bytes, length_payload. lia. Qed.

(** The fixed header of a record. *)
Definition header (rec : Record_) : bytes :=
  le_bytes 4 (ChecksumIEEE (payload rec)) ++ [r_type rec] ++ le_bytes 8 (r_seq rec) ++
  le_bytes 4 (N.of_nat (length (r_key rec))) ++ le_bytes 4 (N.of_nat (length (r_value rec))).

Lemma encode_header rec : encode rec = header rec ++ r_key rec ++ r_value rec.
Proof. unfold encode, header, payload. by rewrite <- !app_assoc. Qed.

Lemma length_header rec : length (header rec) = 21.
Proof. unfold header. rewrite !length_app, !length_le_bytes. done. Qed.

Lemma header_fields rec :
  valid rec ->
  le_N (slice 0 4 (header rec)) = ChecksumIEEE (payload rec) /\
  nth 4 (header rec) Byte.x00 = r_type rec /\
  le_N (slice 5 13 (header rec)) = r_seq rec /\
  le_N (slice 13 17 (header rec)) = N.of_nat (length (r_key rec)) /\
  le_N (slice 17 21 (header rec)) = N.of_nat (length (r_value rec)).
Proof.
  intros (Hk & Hv & Hs). unfold header, maxReasonableLen in *. split_and!.
  - rewrite slice_app_l by (by rewrite length_le_bytes).
    apply le_N_small, ChecksumIEEE_lt.
  - rewrite app_nth2; rewrite length_le_bytes; [done|lia].
  - rewrite (app_assoc (le_bytes 4 _)), slice_app_mid
      by (rewrite ?length_app, ?length_le_bytes; simpl; lia).
    by apply le_N_small.
  - rewrite (app_assoc (le_bytes 4 _)), (app_assoc _ (le_bytes 8 _)), slice_app_mid
      by (rewrite ?length_app, ?length_le_bytes; simpl; lia).
    apply le_N_small. simpl. lia.
  - rewrite (app_assoc (le_bytes 4 _)), (app_assoc _ (le_bytes 8 _)), (app_assoc _ (le_bytes 4 _)).
    rewrite <- (app_nil_r (le_bytes 4 (N.of_nat (length (r_value rec))))).
    rewrite slice_app_mid by (rewrite ?length_app, ?length_le_bytes; simpl; lia).
    apply le_N_small. simpl. lia.
Qed.

Lemma parse_record_encode rec tail :
  valid rec -> parse_record (encode rec ++ tail) = Some (rec, tail).
Proof.
  intros Hv. destruct (header_fields rec Hv) as (Hc & Ht & Hs & Hk & Hvl).
  unfold parse_record. rewrite encode_header, <- app_assoc.
  rewrite (take_app_length' (header rec)), (drop_app_length' (header rec)) by (by rewrite length_header).
  rewrite Hc, Ht, Hs, Hk, Hvl, <- Nat2N.inj_add, !Nat2N.id.
  rewrite (take_app_length' (r_key rec ++ r_value rec)) by (rewrite length_app; lia).
  rewrite (drop_app_length' (r_key rec ++ r_value rec)) by (rewrite length_app; lia).
  rewrite take_app_length, drop_app_length.
  replace ([r_type rec] ++ _) with (payload rec) by done.
  destruct Hv as (Hk' & Hv' & _).
  rewrite bool_decide_eq_true_2 by (rewrite length_app, length_header; lia).
  rewrite !(proj2 (N.leb_le _ _)) by (rewrite ?length_app; lia).
  rewrite N.eqb_refl. by destruct rec.
Qed.

Lemma parse_record_shorter bs rec rest :
  parse_record bs = Some (rec, rest) -> length rest + 21 <= length bs.
Proof.
  unfold parse_record. case_match eqn:E; [|done]. intros [= _ <-].
  rewrite !andb_true_iff, bool_decide_eq_true in E. rewrite !length_drop. lia.
Qed.

Lemma parse_loop_fuel f1 f2 bs : length bs < f1 -> length bs < f2 -> parse_loop f1 bs = parse_loop f2 bs.
Proof.
  revert f2 bs; induction f1 as [|f1 IH]; intros [|f2] bs H1 H2; simpl; try lia.
  destruct (parse_record bs) as [[rec rest]|] eqn:E; [|done].
  apply parse_record_shorter in E. f_equal. apply IH; lia.
Qed.

Lemma parse_cons bs :
  parse bs = match parse_record bs with Some (rec, rest) => rec :: parse rest | None => [] end.
Proof.
  unfold parse at 1. cbn [parse_loop]. destruct (parse_record bs) as [[rec rest]|] eqn:E; [|done].
  apply parse_record_shorter in E. f_equal. apply parse_loop_fuel; lia.
Qed.

Lemma parse_encode_all recs tail :
  Forall valid recs -> parse (encode_all recs ++ tail) = recs ++ parse tail.
Proof.
  induction 1 as [|rec recs Hr Hrs IH]; [done|].
  unfold encode_all in *; cbn [map concat]. rewrite <- app_assoc, parse_cons, parse_record_encode by done.
  by rewrite IH.
Qed.

(** A torn record is not a record. *)
Lemma parse_torn rec n : valid rec -> n < length (encode rec) -> parse (take n (encode rec)) = [].
Proof.
  intros Hv Hn. rewrite parse_cons. enough (parse_record (take n (encode rec)) = None) as -> by done.
  destruct (header_fields rec Hv) as (_ & _ & _ & Hk & Hvl).
  rewrite length_encode in Hn. rewrite encode_header.
  unfold parse_record. destruct (decide (21 <= n)) as [Hge|Hlt].
  - rewrite take_take, Nat.min_l by lia.
    pose proof (length_header rec) as Hl.
    rewrite (take_app_length' (header rec) (r_key rec ++ r_value rec) 21) by done.
    rewrite (take_app_ge _ _ n), (drop_app_length' (header rec) _ 21) by (rewrite length_header; lia).
    rewrite Hk, Hvl. case_match eqn:E; [|done]. exfalso.
    rewrite !andb_true_iff in E. destruct E as [[_ E] _].
    apply N.leb_le in E. rewrite length_take, length_app, length_header in E. lia.
  - rewrite bool_decide_eq_false_2; [done|].
    rewrite length_take, length_app, length_header. lia.
Qed.

(** ** [Replay] *)

Section replay_spec.
Context {S : Type} (fn : S -> Record_ -> res S).

(** A callback that only acts on the caller's state. *)
Definition pure_fn (st : S) (rec : Record_) : M S := fun w => (fn st rec, w).

Lemma io_ReadFull_ok rest n w :
  w_faults w = [] ->
  attempt (io_ReadFull rest n) w =
    (Ok (if (n <=? N.of_nat (length rest))%N
         then inl (take (N.to_nat n) rest, drop (N.to_nat n) rest)
         else inr (match rest with [] => EOF | _ => ErrUnexpectedEOF end)), w).
Proof.
  intros Hw. destruct w as [fs fl]; simpl in Hw; subst fl.
  unfold attempt, io_ReadFull. destruct (N.eqb_spec n 0) as [->|Hn].
  - by rewrite (proj2 (N.leb_le 0 _)) by lia.
  - unfold syscall, bind, next_fault; simpl. destruct (N.leb_spec n (N.of_nat (length rest))); [done|].
    by destruct rest.
Qed.

Lemma replay_loop_parse fuel rest st w :
  w_faults w = [] -> length rest < fuel ->
  replay_loop pure_fn fuel rest st w = deliver pure_fn (parse_loop fuel rest) st w.
Proof.
  revert rest st; induction fuel as [|fuel IH]; intros rest st Hw Hf; [lia|].
  cbn [replay_loop parse_loop]. unfold bind at 1. rewrite io_ReadFull_ok by done.
  unfold parse_record. change (N.to_nat headerSize) with 21.
  destruct (N.leb_spec headerSize (N.of_nat (length rest))) as [Hlen|Hlen].
  2:{ rewrite (bool_decide_eq_false_2 (21 <= length rest)) by (unfold headerSize in Hlen; lia).
      simpl. by destruct rest; simpl. }
  rewrite (bool_decide_eq_true_2 (21 <= length rest)) by (unfold headerSize in Hlen; lia). simpl.
  set (keyLen := le_N (slice 13 17 (take 21 rest))). set (valLen := le_N (slice 17 21 (take 21 rest))).
  rewrite !N.ltb_antisym, <- negb_andb.
  destruct ((keyLen <=? maxReasonableLen)%N && (valLen <=? maxReasonableLen)%N); [|done]. simpl.
  unfold bind at 1. rewrite io_ReadFull_ok by done.
  destruct (keyLen + valLen <=? N.of_nat (length (drop 21 rest)))%N; [|done]. simpl.
  destruct (ChecksumIEEE _ =? _)%N; [|done]. simpl.
  unfold bind, wrap, pure_fn at 1 3. destruct (fn st _) as [st'|e|]; [|done|done].
  apply IH; [done|]. rewrite !length_drop. unfold headerSize in Hlen. lia.
Qed.

Lemma Replay_parse path f st w :
  w_faults w = [] -> w_files w !! path = Some f ->
  Replay pure_fn path st w = deliver pure_fn (parse (f_data f)) st w.
Proof.
  intros Hw Hf. unfold Replay. unfold bind at 1. rewrite (os_Open_ok _ f) by done.
  apply replay_loop_parse; [done|lia].
Qed.
End replay_spec.

(** ** [Append] *)

(** The log's writer holds no pending bytes unless it has failed. *)
Definition clean (w : WAL) : Prop := bw_err (wal_w w) = false /\ bw_buf (wal_w w) = [].

Inductive append_outcome (w : WAL) (rec : Record_) (f : file) :
    WAL -> option error -> file -> Prop :=
| AppendOk :
    append_outcome w rec f w None
      (MkFile (f_data f ++ encode rec) (length (f_data f ++ encode rec)))
| AppendUnsynced e :
    append_outcome w rec f w (Some e) (append_data (encode rec) f)
| AppendTorn w' n e :
    bw_err (wal_w w') = true -> Path w' = Path w ->
    append_outcome w rec f w' (Some e) (append_data (take n (encode rec)) f).

Lemma encode_nonempty rec : exists b bs, encode rec = b :: bs.
Proof.
  pose proof (length_encode rec). destruct (encode rec); simpl in *; [lia|eauto].
Qed.

Lemma Append_cases w rec f wd :
  clean w -> w_files wd !! Path w = Some f ->
  exists w' r f' fl,
    Append w rec wd = (Ok (w', r), MkWorld (<[Path w := f']> (w_files wd)) fl) /\
    append_outcome w rec f w' r f'.
Proof.
  intros [He Hb] Hf. destruct w as [[path b er]], wd as [fs fl]. unfold Path in *; simpl in *. subst.
  unfold Append. destruct (encode_nonempty rec) as (b0 & bs0 & Henc). rewrite Henc.
  unfold bufio_Write, bufio_Flush, bufio_direct. io_unfold. cbn [wal_w bw_err bw_buf bw_path app length].
  destruct (_ <=? _)%N; io_cases;
    first [rewrite (alter_alter_file _ _ _ f) by done | rewrite (alter_insert_file _ _ f) by done];
    do 4 eexists; (split; [reflexivity|]); simpl; rewrite <- ?Henc; by constructor.
Qed.

(** The log after appending a list of records, and which appends returned nil. *)
Fixpoint append_all (w : WAL) (recs : list Record_) : M (WAL * list bool) :=
  match recs with
  | [] => ret (w, [])
  | rec :: recs' =>
      let! (w1, e) := Append w rec in
      let! (w2, acks) := append_all w1 recs' in
      ret (w2, (match e with None => true | Some _ => false end) :: acks)
  end.

(** The records whose append was acknowledged. *)
Fixpoint acked (recs : list Record_) (acks : list bool) : list Record_ :=
  match recs, acks with
  | rec :: recs', true :: acks' => rec :: acked recs' acks'
  | _ :: recs', false :: acks' => acked recs' acks'
  | _, _ => []
  end.

(** What the file of a live log holds: whole records [durable], all synced,
    whole records [pending] not yet synced, and a torn tail only after the
    writer has died. *)
Definition log_state (w : WAL) (f : file) (durable pending : list Record_) : Prop :=
  exists torn,
    f_data f = encode_all (durable ++ pending) ++ torn /\
    f_synced f = length (encode_all durable) /\
    (bw_err (wal_w w) = false -> torn = [] /\ bw_buf (wal_w w) = []) /\
    Forall valid (durable ++ pending).

Lemma encode_all_app l1 l2 : encode_all (l1 ++ l2) = encode_all l1 ++ encode_all l2.
Proof. unfold encode_all. by rewrite map_app, concat_app. Qed.

Lemma encode_all_one rec : encode_all [rec] = encode rec.
Proof. unfold encode_all. cbn [map concat]. apply app_nil_r. Qed.

Lemma Append_dead w rec wd :
  bw_err (wal_w w) = true -> exists e, Append w rec wd = (Ok (w, Some e), wd).
Proof.
  intros He. unfold Append, bufio_Write. destruct w as [[path buf er]]; simpl in *; subst.
  unfold bind, ret. eauto.
Qed.

Lemma Append_log w rec f wd durable pending :
  log_state w f durable pending -> valid rec -> w_files wd !! Path w = Some f ->
  exists w' r f' durable' pending' fl,
    Append w rec wd = (Ok (w', r), MkWorld (<[Path w := f']> (w_files wd)) fl) /\
    Path w' = Path w /\ log_state w' f' durable' pending' /\
    match r with
    | None => durable' = durable ++ pending ++ [rec] /\ pending' = []
    | Some _ => durable' = durable
    end.
Proof.
  intros (torn & Hd & Hs & Hc & Hv) Hrec Hf.
  destruct (bw_err (wal_w w)) eqn:He.
  { destruct (Append_dead w rec wd He) as [e HA]. exists w, (Some e), f, durable, pending, (w_faults wd).
    split_and!; auto; [|exists torn; rewrite He; split_and!; auto].
    rewrite HA. f_equal. destruct wd; simpl in *. by rewrite insert_id. }
  destruct Hc as [-> Hb]; [done|]. rewrite app_nil_r in Hd.
  assert (Hv' : Forall valid (durable ++ pending ++ [rec]))
    by (rewrite app_assoc; apply Forall_app; auto).
  destruct (Append_cases w rec f wd) as (w' & r & f' & fl & HA & Ho); [done|done|].
  destruct Ho as [|e|w' n e Herr Hp].
  - exists w, None, (MkFile (f_data f ++ encode rec) (length (f_data f ++ encode rec))),
      (durable ++ pending ++ [rec]), [], fl.
    split_and!; auto. exists []. rewrite !app_nil_r. simpl. rewrite He.
    rewrite Hd, app_assoc, (encode_all_app _ [rec]), encode_all_one. by rewrite app_assoc in Hv'.
  - exists w, (Some e), (append_data (encode rec) f), durable, (pending ++ [rec]), fl.
    split_and!; auto. exists []. rewrite app_nil_r. simpl. rewrite He.
    rewrite Hd, app_assoc, (encode_all_app _ [rec]), encode_all_one. by rewrite app_assoc in Hv'.
  - exists w', (Some e), (append_data (take n (encode rec)) f), durable, pending, fl.
    split_and!; auto. exists (take n (encode rec)). simpl. by rewrite Herr, Hd.
Qed.

Lemma append_all_log recs w f wd durable pending :
  log_state w f durable pending -> Forall valid recs -> w_files wd !! Path w = Some f ->
  exists w' acks f' durable' pending' fl,
    append_all w recs wd = (Ok (w', acks), MkWorld (<[Path w := f']> (w_files wd)) fl) /\
    log_state w' f' durable' pending' /\ (durable ++ acked recs acks) `sublist_of` durable'.
Proof.
  intros Hl Hr. revert w f wd durable pending Hl.
  induction Hr as [|rec recs Hrec Hrs IH]; intros w f wd durable pending Hl Hf; simpl.
  - exists w, [], f, durable, pending, (w_faults wd). rewrite app_nil_r. split_and!; auto.
    unfold ret. f_equal. destruct wd; simpl in *. by rewrite insert_id.
  - destruct (Append_log w rec f wd durable pending) as (w1 & r & f1 & d1 & p1 & fl1 & HA & Hp & Hl1 & Hr);
      [done|done|done|].
    unfold bind at 1. rewrite HA.
    destruct (IH w1 f1 (MkWorld (<[Path w := f1]> (w_files wd)) fl1) d1 p1) as
      (w2 & acks & f2 & d2 & p2 & fl2 & HB & Hl2 & Hsub); [done|by rewrite Hp; apply lookup_insert_eq|].
    unfold bind. rewrite HB. simpl. rewrite Hp, insert_insert_eq.
    do 6 eexists. split_and!; [reflexivity|exact Hl2|].
    destruct r as [e|]; simpl.
    + subst d1. done.
    + destruct Hr as [-> ->]. etransitivity; [|exact Hsub].
      rewrite <- !app_assoc. apply sublist_app; [done|]. simpl.
      by apply sublist_inserts_l.
Qed.

Lemma Append_ok w rec f wd :
  clean w -> w_faults wd = [] -> w_files wd !! Path w = Some f ->
  Append w rec wd =
    (Ok (w, None), MkWorld (<[Path w := MkFile (f_data f ++ encode rec) (length (f_data f ++ encode rec))]>
                              (w_files wd)) []).
Proof.
  intros [He Hb] Hw Hf. destruct w as [[path b er]], wd as [fs fl]. unfold Path in *; simpl in *. subst.
  unfold Append. destruct (encode_nonempty rec) as (b0 & bs0 & Henc). rewrite Henc.
  unfold bufio_Write, bufio_Flush, bufio_direct. io_unfold. cbn [wal_w bw_err bw_buf bw_path app length].
  destruct (_ <=? _)%N; io_cases; by rewrite (alter_alter_file _ _ _ f) by done.
Qed.

Lemma Open_fresh path wd :
  w_files wd !! path = None ->
  (exists fl, Open path wd =
     (Ok (MkWAL (bufio_New path)), MkWorld (<[path := MkFile [] 0]> (w_files wd)) fl)) \/
  (exists e wd', Open path wd = (Err e, wd')).
Proof.
  intros Hp. destruct wd as [fs fl]; simpl in *. unfold Open. io_unfold.
  io_cases; rewrite ?Hp; eauto.
Qed.

(** The callback that collects what is delivered. *)
Definition collect (st : list Record_) (rec : Record_) : res (list Record_) := Ok (st ++ [rec]).

Lemma deliver_collect recs st w : deliver (pure_fn collect) recs st w = (Ok (st ++ recs), w).
Proof.
  revert st; induction recs as [|rec recs IH]; intros st; simpl; [by rewrite app_nil_r|].
  unfold bind, wrap, pure_fn, collect in *. rewrite IH. by rewrite <- app_assoc.
Qed.

Lemma log_state_crash w f durable pending wd wd' :
  log_state w f durable pending -> w_files wd !! Path w = Some f -> crash wd wd' ->
  exists f' tail, w_files wd' !! Path w = Some f' /\ parse (f_data f') = durable ++ parse tail.
Proof.
  intros (torn & Hd & Hs & _ & Hv) Hf Hcr. destruct (Hcr _ _ Hf) as [tail Hf'].
  do 2 eexists. split; [exact Hf'|]. simpl. apply Forall_app in Hv as [Hv _].
  rewrite Hs, Hd, encode_all_app, <- !app_assoc, take_app_length.
  by apply parse_encode_all.
Qed.

(** ** Properties *)

(** C26: the durability guarantee.  Open a fresh log, append records under any
    pattern of failing writes, flushes and fsyncs, lose power (everything not
    yet fsynced may be lost, torn or replaced by garbage) and replay: every
    record whose [Append] returned nil is delivered, in the order of the
    appends. *)
Theorem wal_durability path recs wd w wd1 w2 acks wd2 wd3 :
  w_files wd !! path = None ->
  Forall valid recs ->
  Open path wd = (Ok w, wd1) ->
  append_all w recs wd1 = (Ok (w2, acks), wd2) ->
  crash wd2 wd3 -> w_faults wd3 = [] ->
  exists out, Replay (pure_fn collect) path [] wd3 = (Ok out, wd3) /\
    acked recs acks `sublist_of` out.
Proof.
  intros Hp Hv Ho Ha Hcr Hfl.
  destruct (Open_fresh path wd Hp) as [(fl & Ho')|(e & wd' & Ho')]; rewrite Ho' in Ho; [|done].
  injection Ho as <- <-.
  destruct (append_all_log recs (MkWAL (bufio_New path)) (MkFile [] 0)
              (MkWorld (<[path := MkFile [] 0]> (w_files wd)) fl) [] []) as
    (w2' & acks' & f2 & d2 & p2 & fl2 & Ha' & Hl & Hsub); [|done|apply lookup_insert_eq|].
  { exists []. by split_and!. }
  rewrite Ha' in Ha. injection Ha as -> -> <-.
  assert (Hpath : w_files wd3 !! path <> None /\
            exists f', w_files wd3 !! path = Some f' /\ exists tail, parse (f_data f') = d2 ++ parse tail).
  { destruct Hl as (torn & Hd & Hs & Hc & Hv2).
    destruct (log_state_crash (MkWAL (MkBufw path [] true)) f2 d2 p2
       (MkWorld (<[path := f2]> (<[path := MkFile [] 0]> (w_files wd))) fl2) wd3) as (f' & tail & Hf' & Hpr);
      [exists torn; by split_and!|apply lookup_insert_eq|done|].
    unfold Path in Hf'; simpl in Hf'. rewrite Hf'. split; [done|]. eauto. }
  destruct Hpath as (_ & f' & Hf' & tail & Hpr).
  rewrite (Replay_parse _ _ f') by done. rewrite deliver_collect, Hpr.
  eexists. split; [done|]. simpl in *. etransitivity; [exact Hsub|]. by apply sublist_inserts_r.
Qed.

(** C27: [Replay] of a log made of whole records and a torn last one, while no
    read fails, delivers exactly the whole records to the callback, in order, and
    stops without an error. *)
Theorem replay_exact {S} (fn : S -> Record_ -> res S) path recs rec n synced st wd :
  Forall valid (recs ++ [rec]) -> n < length (encode rec) -> w_faults wd = [] ->
  w_files wd !! path = Some (MkFile (encode_all recs ++ take n (encode rec)) synced) ->
  Replay (pure_fn fn) path st wd = deliver (pure_fn fn) recs st wd.
Proof.
  intros [Hv [Hr _]%Forall_cons]%Forall_app Hn Hfl Hf.
  rewrite (Replay_parse _ _ _ _ _ Hfl Hf). simpl.
  by rewrite parse_encode_all, parse_torn, app_nil_r.
Qed.

(** C39: the reader's limit.  Without failing system calls, a record with a value
    longer than 512 MiB (and below 4 GiB) appended to an empty log is
    acknowledged by [Append] as durable, but [Replay] takes its header for a
    corrupt one: it delivers nothing, without an error. *)
Theorem replay_drops_oversized {S} (fn : S -> Record_ -> res S) w rec st wd :
  (maxReasonableLen < N.of_nat (length (r_value rec)) < 2 ^ 32)%N ->
  clean w -> w_faults wd = [] -> w_files wd !! Path w = Some (MkFile [] 0) ->
  exists w' wd', Append w rec wd = (Ok (w', None), wd') /\
    Replay (pure_fn fn) (Path w) st wd' = (Ok st, wd').
Proof.
  intros [Hlo Hhi] Hc Hfl Hf. do 2 eexists. split; [by apply (Append_ok _ _ _ _ Hc Hfl Hf)|].
  erewrite Replay_parse; [|done|apply lookup_insert_eq]. simpl.
  enough (parse (encode rec) = []) as -> by done.
  rewrite parse_cons. enough (parse_record (encode rec) = None) as -> by done.
  unfold parse_record. pose proof (length_header rec) as Hl. rewrite encode_header.
  rewrite (take_app_length' (header rec) (r_key rec ++ r_value rec) 21) by done.
  assert (le_N (slice 17 21 (header rec)) = N.of_nat (length (r_value rec))) as ->.
  { unfold header. rewrite (app_assoc (le_bytes 4 _)), (app_assoc _ (le_bytes 8 _)), (app_assoc _ (le_bytes 4 _)).
    rewrite <- (app_nil_r (le_bytes 4 (N.of_nat (length (r_value rec))))).
    rewrite slice_app_mid by (rewrite ?length_app, ?length_le_bytes; simpl; lia).
    by apply le_N_small. }
  destruct (N.leb_spec (N.of_nat (length (r_value rec))) maxReasonableLen) as [Hle|_]; [lia|].
  by rewrite !andb_false_r.
Qed.

(** An input/output error while reading a record's body is treated as a
    torn tail: [Replay] returns nil without having delivered the record, so
    its caller cannot tell the log from a fully replayed one. *)
Theorem replay_swallows_read_error {S} (fn : S -> Record_ -> res S) path rec recs f st wd n fl :
  valid rec -> (r_key rec ++ r_value rec <> []) ->
  w_files wd !! path = Some f -> f_data f = encode_all (rec :: recs) ->
  w_faults wd = [None; None; Some n] ++ fl ->
  Replay (pure_fn fn) path st wd = (Ok st, MkWorld (w_files wd) fl).
Proof.
  intros Hv Hne Hf Hd Hfl. destruct wd as [fs fl']. simpl in *. subst fl'.
  destruct (header_fields rec Hv) as (_ & _ & _ & Hk & Hvl).
  unfold Replay. unfold bind at 1. rewrite (os_Open_None _ f) by done.
  cbn [replay_loop]. unfold bind at 1. rewrite Hd. unfold encode_all. cbn [map concat].
  rewrite encode_header, <- app_assoc. pose proof (length_header rec) as Hl.
  set (rest := (r_key rec ++ r_value rec) ++ _).
  rewrite io_ReadFull_None by (rewrite ?length_app, ?Hl; unfold headerSize; lia).
  change (N.to_nat headerSize) with 21.
  rewrite (take_app_length' (header rec) rest 21), (drop_app_length' (header rec) rest 21) by done.
  rewrite Hk, Hvl. destruct Hv as (Hk' & Hv' & _).
  rewrite !(proj2 (N.ltb_ge _ _)) by done. cbn [orb]. unfold bind at 1.
  rewrite io_ReadFull_Some; [done|].
  intros E. apply Hne. destruct (r_key rec), (r_value rec); simpl in *; (done || lia).
Qed.

(** ** Witnesses *)

Module Examples.
Definition rec1 : Record_ := MkRecord RecordPut [Byte.x61] [Byte.x31] 1.
Definition rec2 : Record_ := MkRecord RecordDelete [Byte.x62] [] 2.
Definition path1 : string := "1.wal".

Lemma valid1 : valid rec1.
Proof. split_and!; vm_compute; (discriminate || reflexivity). Qed.
Lemma valid2 : valid rec2.
Proof. split_and!; vm_compute; (discriminate || reflexivity). Qed.

Lemma valid12 : Forall valid [rec1; rec2].
Proof. apply Forall_cons; split; [exact valid1|]. apply Forall_cons; split; [exact valid2|constructor]. Qed.

(** The first append succeeds, the second fails at its fsync. *)
Definition wd0 : world := MkWorld ∅ [None; None; None; None; Some 0].
Definition run0 : res (WAL * list bool) * world :=
  (let! w := Open path1 in append_all w [rec1; rec2]) wd0.
Definition wd_crashed : world := MkWorld {[ path1 := MkFile (encode rec1 ++ [Byte.xff]) 24 ]} [].

Lemma wal_durability_witness :
  exists out, Replay (pure_fn collect) path1 [] wd_crashed = (Ok out, wd_crashed) /\
    [rec1] `sublist_of` out.
Proof.
  apply (wal_durability path1 [rec1; rec2] wd0 (MkWAL (bufio_New path1))
           (Open path1 wd0).2 (MkWAL (bufio_New path1)) [true; false] run0.2 wd_crashed).
  - reflexivity.
  - exact valid12.
  - vm_compute. reflexivity.
  - vm_compute. reflexivity.
  - intros path f Hf. assert (path = path1 /\ f = MkFile (encode rec1 ++ encode rec2) 23) as [-> ->].
    { assert (w_files run0.2 = {[ path1 := MkFile (encode rec1 ++ encode rec2) 23 ]}) as E
        by (vm_compute; reflexivity).
      rewrite E in Hf. apply lookup_singleton_Some in Hf as [H1 H2].
      exact (conj (eq_sym H1) (eq_sym H2)). }
    exists [Byte.xff]. vm_compute. reflexivity.
  - reflexivity.
Defined.

Lemma replay_exact_witness :
  Replay (pure_fn collect) path1 []
    (MkWorld {[ path1 := MkFile (encode_all [rec1] ++ take 9 (encode rec2)) 24 ]} []) =
  deliver (pure_fn collect) [rec1] []
    (MkWorld {[ path1 := MkFile (encode_all [rec1] ++ take 9 (encode rec2)) 24 ]} []).
Proof.
  apply (replay_exact collect path1 [rec1] rec2 9 24).
  - exact valid12.
  - vm_compute. lia.
  - reflexivity.
  - reflexivity.
Defined.

Definition big : Record_ := MkRecord RecordPut [Byte.x61] (replicate (N.to_nat 536870913) Byte.x00) 1.

Lemma replay_drops_oversized_witness :
  exists w' wd', Append (MkWAL (bufio_New path1)) big (MkWorld {[ path1 := MkFile [] 0 ]} []) = (Ok (w', None), wd') /\
    Replay (pure_fn collect) path1 [] wd' = (Ok [], wd').
Proof.
  apply (replay_drops_oversized collect (MkWAL (bufio_New path1)) big [] (MkWorld {[ path1 := MkFile [] 0 ]} [])).
  - unfold big. cbn [r_value]. rewrite length_replicate, N2Nat.id. split; reflexivity.
  - split; reflexivity.
  - reflexivity.
  - reflexivity.
Defined.

Definition wd_faulty : world :=
  MkWorld {[ path1 := MkFile (encode_all [rec1; rec2]) 45 ]} [None; None; Some 0].

Lemma replay_swallows_read_error_witness :
  Replay (pure_fn collect) path1 [] wd_faulty = (Ok [], MkWorld (w_files wd_faulty) []).
Proof.
  apply (replay_swallows_read_error collect path1 rec1 [rec2] (MkFile (encode_all [rec1; rec2]) 45) []
           wd_faulty 0 []).
  - exact valid1.
  - discriminate.
  - reflexivity.
  - reflexivity.
  - reflexivity.
Defined.
End Examples.
