(* ===== verification/SSTable.v ===== *)
(** * Writing SSTables (src/sstable/sstable.go)

    The file format and [Write]: the data block of records (optionally
    compressed one by one), the full index, the Bloom filter and the footer,
    written through the buffered writer to a temporary file that is synced and
    renamed into place.  [encode_table] is the format as a pure function; the
    theorems show that [Write] produces exactly that file or leaves the path
    alone, whatever fails. *)

From Stdlib Require Import QArith.
From S2P Require Import Prelude OrdMap GoIO IOLogic MemTable Versions.
From S2P Require Bloom.
From stdpp Require Import base gmap sets list strings numbers fin_maps sorting.
Open Scope nat_scope.

Definition magicNumber : N := 0x4B565353.
Definition compressedFlag : Byte.byte := Byte.x80.
Definition dataHeaderSize : N := 4 + 8 + 1 + 4.
Definition footerSize : N := 8 + 8 + 8 + 8 + 8 + 4.

Definition ErrEmptyMerge : error := ErrNew "sstable: merge produced no live records".

Record indexEntry := MkIdx { ie_key : bytes; ie_offset : N }.

#[export] Instance indexEntry_eq_dec : EqDecision indexEntry.
Proof. solve_decision. Defined.

(** [compress/flate] at its fastest level: the compressed form of a value, and
    what a reader makes of a byte string ([None]: a read error).  The code
    relies on the round trip. *)
Class Flate := { deflate : bytes -> bytes; inflate : bytes -> option bytes }.
Class FlateLaws (F : Flate) : Prop := { inflate_deflate v : inflate (deflate v) = Some v }.

(** Bit operations on the type byte. *)
Definition set_flag (t : Byte.byte) : Byte.byte :=
  byte_of_N (N.lor (Byte.to_N t) (Byte.to_N compressedFlag)).
Definition has_flag (t : Byte.byte) : bool :=
  negb (N.land (Byte.to_N t) (Byte.to_N compressedFlag) =? 0)%N.
Definition clear_flag (t : Byte.byte) : Byte.byte :=
  byte_of_N (N.ldiff (Byte.to_N t) (Byte.to_N compressedFlag)).

Section sstable.
Context `{FM : Bloom.FloatMath} `{FL : Flate}.

(** ** Operations *)

Definition compressValue (v : bytes) : bytes * bool :=
  match v with
  | [] => (v, false)
  | _ => let c := deflate v in if length v <=? length c then (v, false) else (c, true)
  end.

Definition decompressValue (v : bytes) : M bytes :=
  match inflate v with
  | Some out => ret out
  | None => throw (ErrWrap "decompressing value" (ErrNew "flate: corrupt input"))
  end.

(** The bytes stored for a record's value, and its type byte. *)
Definition stored (compress : bool) (r : Record) : bytes * Byte.byte :=
  if compress && bool_decide (Typ r = TypeValue) then
    match compressValue (Value r) with
    | (cv, true) => (cv, set_flag (Typ r))
    | (_, false) => (Value r, Typ r)
    end
  else (Value r, Typ r).

Definition rec_header (r : Record) (storedValue : bytes) (typ : Byte.byte) : bytes :=
  le_bytes 4 (N.of_nat (length (Key r))) ++ le_bytes 8 (Seq r) ++ [typ] ++
  le_bytes 4 (N.of_nat (length storedValue)).

(** The buffered writer and [offset]. *)
Record wstate := MkWs { ws_w : bufw; ws_off : N }.

(** The closure [write]. *)
Definition write (st : wstate) (b : bytes) : M wstate :=
  let! w := wrap "sstable: write failed" (or_throw (bufio_Write (ws_w st) b)) in
  ret (MkWs w (u64 (ws_off st + N.of_nat (length b)))).

Definition errUnsorted : error :=
  ErrNew "sstable: records passed to Write must be sorted by key ascending then Seq descending".

(** [prevKey != nil] and the order test; [None] is the nil slice. *)
Definition out_of_order (prevKey : option bytes) (prevSeq : N) (r : Record) : bool :=
  match prevKey with
  | None => false
  | Some k =>
      match bytes_compare k (Key r) with
      | Gt => true
      | Eq => (prevSeq <=? Seq r)%N
      | Lt => false
      end
  end.

(** A key as the caller's slice: whether an empty one arrives as nil depends on
    the caller (a copied skip-list key is nil, an iterator's key is not). *)
Definition key_slice (nilEmpty : bool) (k : bytes) : option bytes :=
  match k with [] => if nilEmpty then None else Some [] | _ => Some k end.

(** The loop over the records. *)
Fixpoint write_records (nilEmpty compress : bool) (records : list Record) (prevKey : option bytes)
    (prevSeq : N) (filter : Bloom.Filter) (index : list indexEntry) (st : wstate)
    : M (Bloom.Filter * list indexEntry * wstate) :=
  match records with
  | [] => ret (filter, index, st)
  | r :: records' =>
      if out_of_order prevKey prevSeq r then throw errUnsorted
      else
        let! filter' := of_option (Bloom.Add filter (Key r)) in
        let index' := index ++ [MkIdx (Key r) (ws_off st)] in
        let '(storedValue, typ) := stored compress r in
        let! st1 := write st (rec_header r storedValue typ) in
        let! st2 := write st1 (Key r) in
        let! st3 := (match storedValue with [] => ret st2 | _ => write st2 storedValue end) in
        write_records nilEmpty compress records' (key_slice nilEmpty (Key r)) (Seq r) filter' index' st3
  end.

Definition index_bytes (ie : indexEntry) : bytes :=
  le_bytes 4 (N.of_nat (length (ie_key ie))) ++ ie_key ie ++ le_bytes 8 (ie_offset ie).

Fixpoint write_index (index : list indexEntry) (st : wstate) : M wstate :=
  match index with
  | [] => ret st
  | ie :: index' => let! st' := write st (index_bytes ie) in write_index index' st'
  end.

Definition footer_bytes (indexOffset indexLen bloomOffset bloomLen numEntries : N) : bytes :=
  le_bytes 8 indexOffset ++ le_bytes 8 indexLen ++ le_bytes 8 bloomOffset ++
  le_bytes 8 bloomLen ++ le_bytes 8 numEntries ++ le_bytes 4 magicNumber.

(** Subtraction of uint64. *)
Definition sub64 (a b : N) : N := u64 (a + (2 ^ 64 - u64 b)).

(** Everything between creating the temporary file and closing it: what
    [abort] guards. *)
Definition Write_body (nilEmpty : bool) (tmpPath : string) (records : list Record) (compress : bool) : M unit :=
  let filter := Bloom.NewForEntries (Z.of_nat (length records)) (1 # 100) in
  let! (filter, index, st) :=
    write_records nilEmpty compress records None 0 filter [] (MkWs (bufio_New tmpPath) 0) in
  let indexOffset := ws_off st in
  let! st := write_index index st in
  let indexLen := sub64 (ws_off st) indexOffset in
  let bloomOffset := ws_off st in
  let! st := write st (Bloom.Encode filter) in
  let bloomLen := sub64 (ws_off st) bloomOffset in
  let! st := write st (footer_bytes indexOffset indexLen bloomOffset bloomLen (N.of_nat (length records))) in
  let! _ := wrap "sstable: flush" (or_throw (bufio_Flush (ws_w st))) in
  wrap "sstable: fsync" (file_Sync tmpPath).

Definition remove_tmp (tmpPath : string) : M unit :=
  let! _ := attempt (os_Remove tmpPath) in ret tt.

(** The closure [abort]. *)
Definition abort_tmp (tmpPath : string) : M unit :=
  let! _ := attempt file_Close in remove_tmp tmpPath.

Definition Write (nilEmpty : bool) (path : string) (records : list Record) (compress : bool) : M unit :=
  match records with
  | [] => throw (ErrNew "sstable: refusing to write an empty table")
  | _ =>
      let tmpPath := (path +:+ ".tmp")%string in
      let! _ := wrap "sstable: create" (os_Create tmpPath) in
      let! _ := on_error (Write_body nilEmpty tmpPath records compress) (abort_tmp tmpPath) in
      let! _ := on_error (wrap "sstable: close" file_Close) (remove_tmp tmpPath) in
      on_error (wrap "sstable: rename" (os_Rename tmpPath path)) (remove_tmp tmpPath)
  end.

(** ** The format as a function *)

Definition rec_bytes (compress : bool) (r : Record) : bytes :=
  rec_header r (stored compress r).1 (stored compress r).2 ++ Key r ++ (stored compress r).1.

Definition data_block (compress : bool) (rs : list Record) : bytes := concat (map (rec_bytes compress) rs).

(** The index entries of records laid out from [off]. *)
Fixpoint index_of (compress : bool) (off : N) (rs : list Record) : list indexEntry :=
  match rs with
  | [] => []
  | r :: rs' => MkIdx (Key r) off :: index_of compress (off + N.of_nat (length (rec_bytes compress r))) rs'
  end.

Definition index_block (index : list indexEntry) : bytes := concat (map index_bytes index).

Definition filter_of (rs : list Record) : option Bloom.Filter :=
  Bloom.add_all (Bloom.NewForEntries (Z.of_nat (length rs)) (1 # 100)) (Key <$> rs).

Definition encode_table (compress : bool) (rs : list Record) (f : Bloom.Filter) : bytes :=
  let data := data_block compress rs in
  let index := index_block (index_of compress 0 rs) in
  let bloom := Bloom.Encode f in
  data ++ index ++ bloom ++
  footer_bytes (N.of_nat (length data)) (N.of_nat (length index)) (N.of_nat (length (data ++ index)))
    (N.of_nat (length bloom)) (N.of_nat (length rs)).

(** Records the format can represent: 32-bit lengths, 64-bit sequence numbers. *)
Definition representable (compress : bool) (r : Record) : Prop :=
  (N.of_nat (length (Key r)) < 2 ^ 32)%N /\ (N.of_nat (length (stored compress r).1) < 2 ^ 32)%N /\
  (Seq r < 2 ^ 64)%N /\ (Byte.to_N (Typ r) < 128)%N.

(** A table the code can write and read back: every record representable, the
    file within [int64], the filter within uint32. *)
Definition fits (compress : bool) (rs : list Record) (f : Bloom.Filter) : Prop :=
  Forall (representable compress) rs /\ (N.of_nat (length (encode_table compress rs f)) < 2 ^ 48)%N /\
  (N.of_nat (length rs) * 32 <= 2 ^ 48)%N /\
  Bloom.size_ok (Z.of_nat (length rs)) (1 # 100).

(** ** [Write] succeeds and writes the format *)

Definition wstream (path : string) fs (st : wstate) (content : bytes) (w : world) : Prop :=
  ws_off st = u64 (N.of_nat (length content)) /\ stream path fs (ws_w st) content w.

Lemma triple_wstream {A} path fs st c (m : M A) Q :
  (ws_off st = u64 (N.of_nat (length c)) -> triple (wstream path fs st c) m Q) ->
  triple (wstream path fs st c) m Q.
Proof. intros H w Hw. apply H; [apply Hw|done]. Qed.

Lemma triple_write path fs st c b :
  triple (wstream path fs st c) (write st b) (fun st' => wstream path fs st' (c ++ b)).
Proof.
  unfold wstream, write. apply triple_pure. intros Ho.
  eapply triple_bind; [apply triple_wrap, triple_bufio_Write|]. intros b'. apply triple_ret. intros w Hw.
  split; [|done]. simpl. rewrite Ho, length_app. unfold u64. rewrite N.Div0.add_mod_idemp_l. f_equal. lia.
Qed.

Lemma out_of_order_spec k s r v t :
  out_of_order (Some k) s r = false <-> rec_lt (MkRec k v t s) r.
Proof.
  unfold out_of_order, rec_lt. simpl. destruct (bytes_compare k (Key r)) eqn:E.
  - apply bytes_compare_eq in E as <-. rewrite N.leb_gt. split; [auto|]. intros [H|[_ H]]; [border|done].
  - split; auto.
  - assert (Key r <b k) by (unfold bytes_lt; by rewrite bytes_compare_antisym, E).
    split; [done|]. intros [H1|[H1 _]]; [border|]. subst k. border.
Qed.

(** What the loop's [prevKey] and [prevSeq] say of the records still to come. *)
Definition prev_ok (prevKey : option bytes) (prevSeq : N) (rs : list Record) : Prop :=
  match prevKey with
  | None => True
  | Some k => forall r, r ∈ rs -> rec_lt (MkRec k [] Byte.x00 prevSeq) r
  end.

Lemma prev_ok_next nilEmpty r rs :
  sorted_records (r :: rs) -> prev_ok (key_slice nilEmpty (Key r)) (Seq r) rs.
Proof.
  intros [_ Hr]%sorted_records_cons. rewrite Forall_forall in Hr.
  unfold key_slice, prev_ok. destruct (Key r) as [|x k] eqn:Ek; [destruct nilEmpty; [done|]|];
    intros s Hs; specialize (Hr s Hs); unfold rec_lt in *; simpl; by rewrite Ek in Hr.
Qed.

Lemma data_block_cons compress r rs :
  data_block compress (r :: rs) = rec_bytes compress r ++ data_block compress rs.
Proof. done. Qed.

Lemma triple_write_records path fs nilEmpty compress rs prevKey prevSeq filter f index st c :
  sorted_records rs -> prev_ok prevKey prevSeq rs ->
  Bloom.add_all filter (Key <$> rs) = Some f ->
  (N.of_nat (length (c ++ data_block compress rs)) < 2 ^ 64)%N ->
  triple (wstream path fs st c)
    (write_records nilEmpty compress rs prevKey prevSeq filter index st)
    (fun r w => r.1 = (f, index ++ index_of compress (N.of_nat (length c)) rs) /\
                wstream path fs r.2 (c ++ data_block compress rs) w).
Proof.
  intros Hs. revert prevKey prevSeq filter index st c.
  induction rs as [|r rs IH]; intros prevKey prevSeq filter index st c Hp Hf Hl;
    cbn [write_records index_of fmap list_fmap Bloom.add_all] in *.
  { injection Hf as ->. apply triple_ret. intros w Hw. unfold data_block; simpl. by rewrite !app_nil_r. }
  assert (out_of_order prevKey prevSeq r = false) as ->.
  { destruct prevKey as [k|]; [|done]. apply (out_of_order_spec _ _ _ [] Byte.x00). apply Hp. by left. }
  destruct (Bloom.Add filter (Key r)) as [filter'|]; [|done]. simpl in Hf.
  set (c' := c ++ rec_bytes compress r).
  assert (c ++ data_block compress (r :: rs) = c' ++ data_block compress rs) as Ec
    by (unfold c'; by rewrite <- app_assoc, <- data_block_cons).
  rewrite Ec in Hl |- *.
  replace (N.of_nat (length c) + N.of_nat (length (rec_bytes compress r)))%N with (N.of_nat (length c'))
    by (unfold c'; rewrite length_app; lia).
  assert (rec_bytes compress r = rec_header r (stored compress r).1 (stored compress r).2 ++
            Key r ++ (stored compress r).1) as Er by done.
  destruct (stored compress r) as [sv typ]. cbn [fst snd] in Er.
  apply triple_wstream. intros Ho. cbn [of_option]. apply triple_bind_ret.
  assert (ws_off st = N.of_nat (length c)) as ->.
  { rewrite Ho. apply u64_small. unfold c' in Hl. rewrite !length_app in Hl. lia. }
  eapply triple_bind; [apply triple_write|]. intros st1. eapply triple_bind; [apply triple_write|]. intros st2.
  apply triple_bind with (fun st3 => wstream path fs st3 c').
  { unfold c'. rewrite Er. destruct sv as [|b sv].
    - apply triple_ret. intros w. by rewrite app_nil_r, app_assoc.
    - eapply triple_post; [apply triple_write|]. intros st3 w. by rewrite <- !app_assoc. }
  intros st3. eapply triple_post; [apply IH; [by apply sorted_records_cons in Hs as [? _]| |done|done]|].
  - by apply prev_ok_next.
  - intros [[f1 i1] st4] w. simpl. by rewrite <- app_assoc.
Qed.

Lemma triple_write_index path fs index st c :
  triple (wstream path fs st c) (write_index index st) (fun st' => wstream path fs st' (c ++ index_block index)).
Proof.
  revert st c; induction index as [|ie index IH]; intros st c; simpl.
  - apply triple_ret. intros w. unfold index_block; simpl. by rewrite app_nil_r.
  - eapply triple_bind; [apply triple_write|]. intros st'. eapply triple_post; [apply IH|].
    intros st2 w. unfold index_block; cbn [map concat]. by rewrite app_assoc.
Qed.

Lemma sub64_exact a b : (b <= a)%N -> (a < 2 ^ 64)%N -> sub64 (u64 a) (u64 b) = (a - b)%N.
Proof.
  intros Hab Ha. unfold sub64. rewrite (u64_small (u64 b)), !(u64_small a), (u64_small b) by (try apply u64_lt; lia).
  unfold u64. replace (a + (2 ^ 64 - b))%N with (a - b + 1 * 2 ^ 64)%N by lia.
  rewrite N.Div0.mod_add. apply N.mod_small. lia.
Qed.

Lemma length_footer a b c d e : length (footer_bytes a b c d e) = 44.
Proof. unfold footer_bytes. by rewrite !length_app, !length_le_bytes. Qed.

Lemma filter_of_total compress rs f :
  fits compress rs f -> rs <> [] ->
  exists f', filter_of rs = Some f' /\ Bloom.Decode (Bloom.Encode f') = inl f' /\ Bloom.wf f' /\
    forall k, k ∈ Key <$> rs -> Bloom.MayContain f' k = Some true.
Proof.
  intros (_ & _ & _ & Hs) Hne. assert (1 <= Z.of_nat (length rs))%Z by (destruct rs; simpl; [done|lia]).
  destruct (Bloom.NewForEntries_wf _ (1 # 100) ltac:(done) eq_refl eq_refl Hs) as (Hwf & Hb & Hh & Hl).
  destruct (Bloom.add_all_spec _ (Key <$> rs) Hwf) as (f' & HA & He & Hc).
  exists f'. split; [exact HA|]. split; [|split; [by eapply Bloom.extends_wf|done]].
  destruct He as (Enb & Enh & El & _). apply Bloom.Decode_Encode; rewrite ?Enb, ?Enh; auto. by rewrite El, Hl.
Qed.

Lemma triple_Write_body path fs nilEmpty compress rs f :
  sorted_records rs -> fits compress rs f -> filter_of rs = Some f ->
  triple (files_are (<[path := MkFile [] 0]> fs)) (Write_body nilEmpty path rs compress)
    (fun _ => files_are (<[path := MkFile (encode_table compress rs f) (length (encode_table compress rs f))]> fs)).
Proof.
  intros Hs (_ & Hlen & _) Hf. unfold Write_body. cbv zeta.
  set (T := encode_table compress rs f) in *.
  set (D := data_block compress rs). set (X := index_block (index_of compress 0 rs)).
  assert (T = ((D ++ X) ++ Bloom.Encode f) ++ footer_bytes (N.of_nat (length D)) (N.of_nat (length X))
    (N.of_nat (length (D ++ X))) (N.of_nat (length (Bloom.Encode f))) (N.of_nat (length rs))) as ET
    by (unfold T, encode_table; by rewrite <- !app_assoc).
  pose proof (f_equal length ET) as EL. rewrite !length_app in EL.
  assert (N.of_nat (length ([] ++ D)) < 2 ^ 64)%N as HD by (rewrite app_nil_l; clear -Hlen EL; lia).
  eapply triple_bind.
  { eapply triple_conseq; [|intros ? ? H; exact H|
      apply (triple_write_records path fs nilEmpty compress rs None 0 _ f [] (MkWs (bufio_New path) 0) [] Hs)];
      [|done|exact Hf|exact HD].
    intros w Hw. split; [done|]. split; [done|]. split; [done|]. by exists []. }
  intros [[f1 index] st]. cbn [fst snd app length]. apply triple_pure. intros [= -> ->].
  change (N.of_nat 0) with 0%N. fold D.
  apply triple_wstream. intros Ho. eapply triple_bind; [apply triple_write_index|]. intros st1. fold X.
  apply triple_wstream. intros Ho1. eapply triple_bind; [apply triple_write|]. intros st2.
  apply triple_wstream. intros Ho2. rewrite Ho, Ho1, Ho2.
  rewrite !sub64_exact, !u64_small by (rewrite ?length_app; lia).
  rewrite !length_app. replace (N.of_nat (length D + length X) - N.of_nat (length D))%N with (N.of_nat (length X)) by lia.
  replace (N.of_nat (length D + length X + length (Bloom.Encode f)) - N.of_nat (length D + length X))%N
    with (N.of_nat (length (Bloom.Encode f))) by lia.
  rewrite length_app in ET.
  eapply triple_bind; [apply triple_write|]. intros st3. rewrite <- ET.
  eapply triple_bind with (R := fun _ => files_are (<[path := MkFile T 0]> fs)).
  { apply triple_wrap. unfold wstream. apply triple_pure. intros _.
    eapply triple_post; [apply triple_bufio_Flush|]. intros b w H. apply H. }
  intros _. apply triple_wrap. eapply triple_post; [apply triple_file_Sync, lookup_insert_eq|].
  intros u w. by rewrite insert_insert_eq.
Qed.

Lemma abort_no_panic tmp w : (abort_tmp tmp w).1 <> Panic.
Proof.
  unfold abort_tmp, remove_tmp. destruct w as [fs fl]. io_unfold.
  destruct fl as [|[?|] [|[?|] fl]]; simpl; try done; by destruct (fs !! tmp).
Qed.

Lemma remove_no_panic tmp w : (remove_tmp tmp w).1 <> Panic.
Proof.
  unfold remove_tmp. destruct w as [fs fl]. io_unfold.
  destruct fl as [|[?|] fl]; simpl; try done; by destruct (fs !! tmp).
Qed.

Definition tmp_of (path : string) : string := (path +:+ ".tmp")%string.

Lemma tmp_ne path : tmp_of path <> path.
Proof.
  unfold tmp_of. induction path as [|c path IH]; [done|]. intros [= E]. by apply IH.
Qed.

Lemma triple_Write fs nilEmpty path compress rs f :
  rs <> [] -> sorted_records rs -> fits compress rs f -> filter_of rs = Some f ->
  triple (files_are fs) (Write nilEmpty path rs compress)
    (fun _ => files_are (<[path := MkFile (encode_table compress rs f) (length (encode_table compress rs f))]>
                           (delete (tmp_of path) fs))).
Proof.
  intros Hne Hs Hfit Hf. unfold Write. destruct rs as [|r rs]; [done|]. cbv zeta. fold (tmp_of path).
  eapply triple_bind; [apply triple_wrap, triple_os_Create|]. intros u2.
  eapply triple_bind; [apply triple_on_error; [by apply triple_Write_body|apply abort_no_panic]|]. intros u1.
  eapply triple_bind; [apply triple_on_error; [apply triple_wrap, triple_file_Close|apply remove_no_panic]|].
  intros u3. apply triple_on_error; [|apply remove_no_panic]. apply triple_wrap.
  eapply triple_post; [apply triple_os_Rename, lookup_insert_eq|]. intros u w Hw.
  by rewrite delete_insert_eq in Hw.
Qed.

(** ** [Write] touches nothing else *)

Lemma returns_write st b : returns (write st b) (fun st' => bw_path (ws_w st') = bw_path (ws_w st)).
Proof.
  unfold write. eapply returns_bind with (fun w => bw_path w = bw_path (ws_w st)).
  - intros w b' w' H. unfold wrap, or_throw, bind in H.
    destruct (bufio_Write (ws_w st) b w) as [[[b1 [e|]]|e|] w1] eqn:E; try done.
    injection H as <- _. by apply bufio_Write_path in E.
  - intros b' Hb. by apply returns_ret.
Qed.

Section frame.
Context (P : string -> Prop).

Lemma touches_or_throw {A} (m : M (A * option error)) : touches P m -> touches P (or_throw m).
Proof. intros. unfold or_throw. frame. Qed.

Lemma touches_write st b : P (bw_path (ws_w st)) -> touches P (write st b).
Proof.
  intros. unfold write. apply touches_bind; [|frame].
  by apply touches_wrap, touches_or_throw, touches_bufio_Write.
Qed.

Lemma touches_write_then {A} st b (k : wstate -> M A) :
  P (bw_path (ws_w st)) -> (forall st', P (bw_path (ws_w st')) -> touches P (k st')) ->
  touches P (bind (write st b) k).
Proof.
  intros HP Hk. eapply touches_bind_returns; [by apply touches_write|apply returns_write|].
  intros st' E. apply Hk. by rewrite E.
Qed.
End frame.

Section frame_body.
Context (P : string -> Prop).

Lemma write_records_path nilEmpty compress rs pk ps f index st :
  returns (write_records nilEmpty compress rs pk ps f index st)
    (fun r => bw_path (ws_w r.2) = bw_path (ws_w st)).
Proof.
  revert pk ps f index st; induction rs as [|r rs IH]; intros; cbn [write_records]; [by apply returns_ret|].
  case_match; [apply returns_throw|].
  eapply returns_bind; [apply returns_any|]. intros f' _. cbv zeta. destruct (stored compress r) as [sv typ].
  eapply returns_bind; [apply returns_write|]. intros st1 E1.
  eapply returns_bind; [apply returns_write|]. intros st2 E2.
  eapply returns_bind with (fun st3 => bw_path (ws_w st3) = bw_path (ws_w st)).
  - destruct sv; [apply returns_ret; congruence|].
    intros w a w' Hw. apply returns_write in Hw. congruence.
  - intros st3 E3 w a w' Hw. apply IH in Hw. congruence.
Qed.

Lemma touches_write_records nilEmpty compress rs pk ps f index st :
  P (bw_path (ws_w st)) -> touches P (write_records nilEmpty compress rs pk ps f index st).
Proof.
  revert pk ps f index st; induction rs as [|r rs IH]; intros pk ps f index st HP; cbn [write_records]; [frame|].
  case_match; [frame|]. apply touches_bind; [frame|]. intros f'. cbv zeta.
  destruct (stored compress r) as [sv typ].
  apply touches_write_then; [done|]. intros st1 H1. apply touches_write_then; [done|]. intros st2 H2.
  destruct sv.
  - apply touches_bind_returns with (fun st3 => st3 = st2); [frame|by apply returns_ret|]. intros ? ->. auto.
  - apply touches_write_then; auto.
Qed.

Lemma write_index_path index st :
  returns (write_index index st) (fun st' => bw_path (ws_w st') = bw_path (ws_w st)).
Proof.
  revert st; induction index as [|ie index IH]; intros st; simpl; [by apply returns_ret|].
  eapply returns_bind; [apply returns_write|]. intros st1 E1 w a w' Hw. apply IH in Hw. congruence.
Qed.

Lemma touches_write_index index st : P (bw_path (ws_w st)) -> touches P (write_index index st).
Proof.
  revert st; induction index as [|ie index IH]; intros st HP; simpl; [frame|]. apply touches_write_then; auto.
Qed.

Lemma touches_Write_body nilEmpty tmp rs compress :
  P tmp -> touches P (Write_body nilEmpty tmp rs compress).
Proof.
  intros HP. unfold Write_body. cbv zeta.
  eapply touches_bind_returns; [by apply touches_write_records|apply write_records_path|].
  intros [[f index] st]. simpl. intros E1.
  eapply touches_bind_returns; [apply touches_write_index; by rewrite E1|apply write_index_path|].
  intros st1 E2. rewrite E1 in E2.
  apply touches_write_then; [by rewrite E2|]. intros st2 H2.
  apply touches_write_then; [done|]. intros st3 H3.
  apply touches_bind; [|frame]. by apply touches_wrap, touches_or_throw, touches_bufio_Flush.
Qed.
End frame_body.

#[local] Hint Resolve touches_Write_body : io.

Lemma touches_Write nilEmpty path rs compress :
  touches (fun q => q = path \/ q = tmp_of path) (Write nilEmpty path rs compress).
Proof.
  set (P := fun q => q = path \/ q = tmp_of path).
  assert (P path) by (by left). assert (P (tmp_of path)) by (by right). clearbody P.
  unfold Write. destruct rs as [|r rs]; [frame|]. cbv zeta. fold (tmp_of path).
  unfold abort_tmp, remove_tmp. frame.
Qed.

(** Unless it returns nil, [Write] leaves its path alone. *)
Lemma Write_error_path nilEmpty path rs compress w r w' :
  Write nilEmpty path rs compress w = (r, w') -> r <> Ok tt -> w_files w' !! path = w_files w !! path.
Proof.
  intros HW Hr. unfold Write in HW. destruct rs as [|r0 rs]; [by injection HW as _ <-|].
  cbv zeta in HW. fold (tmp_of path) in HW.
  set (P := fun q => q = tmp_of path). assert (~ P path) as Hp by (intros E; by apply (tmp_ne path)).
  assert (P (tmp_of path)) as HPt by done. clearbody P.
  unfold bind at 1 in HW.
  destruct (wrap _ (os_Create _) w) as [[?|e|] w1] eqn:E1; [|injection HW as <- <-..].
  2,3: by apply (touches_wrap P _ _ (touches_os_Create P _ HPt) _ _ _ E1).
  rewrite <- (proj1 (touches_wrap P _ _ (touches_os_Create P _ HPt) _ _ _ E1) path Hp). clear E1.
  assert (touches P (on_error (Write_body nilEmpty (tmp_of path) (r0 :: rs) compress) (abort_tmp (tmp_of path)))) as HT
    by (apply touches_on_error; [by apply touches_Write_body|unfold abort_tmp, remove_tmp; frame; done]).
  unfold bind at 1 in HW. destruct (on_error _ _ w1) as [[?|e|] w2] eqn:E1; [|injection HW as <- <-..].
  2,3: by apply (HT _ _ _ E1).
  rewrite <- (proj1 (HT _ _ _ E1) path Hp). clear E1 HT.
  assert (touches P (on_error (wrap "sstable: close" file_Close) (remove_tmp (tmp_of path)))) as HT
    by (unfold remove_tmp; frame).
  unfold bind at 1 in HW. destruct (on_error _ _ w2) as [[?|e|] w3] eqn:E1; [|injection HW as <- <-..].
  2,3: by apply (HT _ _ _ E1).
  rewrite <- (proj1 (HT _ _ _ E1) path Hp). clear E1 HT.
  unfold on_error, wrap, os_Rename, syscall, bind, next_fault, get_files in HW.
  destruct w3 as [fs fl]; simpl in HW |- *.
  assert (touches P (remove_tmp (tmp_of path))) as HT by (unfold remove_tmp; frame).
  destruct fl as [|[n|] fl]; simpl in HW; try (destruct (fs !! tmp_of path); simpl in HW);
    try (injection HW as <- <-; done);
    (match type of HW with context [remove_tmp ?t ?u] => destruct (remove_tmp t u) as [[?|?|] w4] eqn:E1 end;
     injection HW as <- <-; by apply (HT _ _ _ E1)).
Qed.

(** ** [Write] checks the order *)

(** Every key arrives as a non-nil slice. *)
Definition keys_present (nilEmpty : bool) (rs : list Record) : Prop :=
  Forall (fun r => key_slice nilEmpty (Key r) = Some (Key r)) rs.

Lemma returns_write_records_sorted nilEmpty compress rs pk ps f index st :
  keys_present nilEmpty rs ->
  returns (write_records nilEmpty compress rs pk ps f index st)
    (fun _ => Sorted rec_lt rs /\
       match pk with Some k => HdRel rec_lt (MkRec k [] Byte.x00 ps) rs | None => True end).
Proof.
  intros Hk. revert pk ps f index st.
  induction Hk as [|r rs Hr Hk IH]; intros pk ps f index st; cbn [write_records].
  { apply returns_ret. split; [constructor|]. by destruct pk; [constructor|]. }
  destruct (out_of_order pk ps r) eqn:Eo; [apply returns_throw|].
  eapply returns_bind; [apply returns_any|]. intros f' _. cbv zeta. destruct (stored compress r) as [sv typ].
  do 2 (eapply returns_bind; [apply returns_any|]; intros ? _).
  eapply returns_bind; [apply returns_any|]. intros st3 _ w1 u1 w2 Hw. apply IH in Hw as [Hs Hh].
  rewrite Hr in Hh. split.
  - constructor; [done|]. destruct Hh as [|s l Hh]; constructor. exact Hh.
  - destruct pk as [k|]; [|done]. constructor. by apply (out_of_order_spec _ _ _ [] Byte.x00) in Eo.
Qed.

Lemma Write_Ok_sorted nilEmpty path rs compress w w' :
  keys_present nilEmpty rs -> Write nilEmpty path rs compress w = (Ok tt, w') -> sorted_records rs.
Proof.
  intros Hk HW. apply Sorted_StronglySorted; [intros a b c; apply transitivity|].
  unfold Write in HW. destruct rs as [|r rs]; [done|]. cbv zeta in HW. unfold bind at 1 in HW.
  destruct (wrap _ _ w) as [[?|?|] w1]; try done. unfold bind at 1 in HW.
  destruct (on_error (Write_body _ _ _ _) _ w1) as [[?|?|] w2] eqn:E; try done. clear HW.
  unfold on_error in E. destruct (Write_body _ _ _ _ w1) as [[?|?|] w3] eqn:E2; try done.
  2: by destruct (abort_tmp _ w3) as [[?|?|] ?].
  unfold Write_body in E2. cbv zeta in E2. unfold bind at 1 in E2.
  destruct (write_records _ _ _ _ _ _ _ _ w1) as [[?|?|] w4] eqn:E3; try done.
  by apply returns_write_records_sorted in E3 as [? _].
Qed.

(** ** Properties *)

(** C28: writing a table is atomic and exact.  Under any pattern of failing
    system calls (all calls failing from some point on is a crash there),
    [Write] of sorted records leaves every file but the target and its
    temporary alone; when it returns nil the target holds exactly the encoded
    table, completely synced, and the temporary is gone; when it returns an
    error the target is untouched and a fault was the cause; it never
    panics. *)
Theorem write_atomic nilEmpty path rs compress f w :
  rs <> [] -> sorted_records rs -> fits compress rs f -> filter_of rs = Some f ->
  exists r w', Write nilEmpty path rs compress w = (r, w') /\
    (forall q, q <> path -> q <> tmp_of path -> w_files w' !! q = w_files w !! q) /\
    match r with
    | Ok _ =>
        w_files w' !! path = Some (MkFile (encode_table compress rs f) (length (encode_table compress rs f))) /\
        w_files w' !! tmp_of path = None
    | Err _ => w_files w' !! path = w_files w !! path /\ w_faults w <> []
    | Panic => False
    end.
Proof.
  intros Hne Hs Hfit Hf.
  pose proof (triple_Write (w_files w) nilEmpty path compress rs f Hne Hs Hfit Hf w eq_refl) as HT.
  pose proof (Write_error_path nilEmpty path rs compress w) as HE.
  pose proof (touches_Write nilEmpty path rs compress w) as HF.
  destruct (Write nilEmpty path rs compress w) as [r w']. exists r, w'. split; [done|]. split.
  { intros q H1 H2. apply (HF r w' eq_refl). naive_solver. }
  destruct r as [?|e|]; [|by split; [apply (HE _ _ eq_refl)|]|done].
  destruct HT as [HT _]. unfold files_are in HT. rewrite HT. split; [apply lookup_insert_eq|].
  pose proof (tmp_ne path). rewrite lookup_insert_ne by congruence. apply lookup_delete_eq.
Qed.

(** The order check.  Records with a key out of order, or two records of a
    key not in strictly descending Seq (so any exact duplicate), are never
    written: whatever the faults, [Write] does not return nil and leaves the
    target alone. *)
Theorem write_rejects_unsorted nilEmpty path rs compress w :
  keys_present nilEmpty rs -> ~ sorted_records rs ->
  exists r w', Write nilEmpty path rs compress w = (r, w') /\ r <> Ok tt /\
    w_files w' !! path = w_files w !! path.
Proof.
  intros Hk Hn. pose proof (Write_error_path nilEmpty path rs compress w) as HE.
  pose proof (Write_Ok_sorted nilEmpty path rs compress w) as HS.
  destruct (Write nilEmpty path rs compress w) as [r w']. exists r, w'. split; [done|].
  assert (r <> Ok tt) by (intros ->; by apply Hn, (HS w' Hk)). split; [done|]. by apply (HE r).
Qed.
End sstable.

(** ** Witnesses *)

(** A toy codec for tests: a run of the letter a takes two bytes. *)
Definition run_a (v : bytes) : bool :=
  (length v <? 256) && bool_decide (v = replicate (length v) Byte.x61).

Definition RunA : Flate := {|
  deflate v := if run_a v then [Byte.x01; byte_of_N (N.of_nat (length v))] else Byte.x00 :: v;
  inflate c := match c with
               | [Byte.x01; n] => Some (replicate (N.to_nat (Byte.to_N n)) Byte.x61)
               | Byte.x00 :: v => Some v
               | _ => None
               end |}.

#[export] Instance RunA_laws : FlateLaws RunA.
Proof.
  constructor. intros v. simpl. destruct (run_a v) eqn:E; [|done].
  unfold run_a in E. apply andb_prop in E as [El Er]. apply Nat.ltb_lt in El.
  rewrite to_N_byte_of_N, N.mod_small by lia.
  rewrite Nat2N.id. apply bool_decide_eq_true in Er. by rewrite <- Er.
Qed.

Module Examples.
#[local] Existing Instance RunA.
#[local] Existing Instance Bloom.TenBits.

Definition a_ : bytes := [Byte.x61].
Definition b_ : bytes := [Byte.x62].
(** Two versions of a key, the newer one compressible, and a tombstone. *)
Definition recs : list Record :=
  [MkRec a_ (replicate 20 Byte.x61) TypeValue 5; MkRec a_ b_ TypeValue 2; MkRec b_ [] TypeTombstone 3].
Definition filt : Bloom.Filter := default (Bloom.MkFilter [] 0 0) (filter_of recs).

Lemma recs_sorted : sorted_records recs.
Proof. sorted_recs. Qed.

Lemma recs_fit : fits true recs filt.
Proof.
  unfold fits, recs. rewrite !Forall_cons, Forall_nil. unfold representable.
  split_and!; vm_compute; done.
Qed.

Lemma write_atomic_witness :
  exists r w', Write true "1.sst" recs true (MkWorld ∅ [None; None; None]) = (r, w') /\
    (forall q, q <> "1.sst"%string -> q <> tmp_of "1.sst" ->
       w_files w' !! q = (∅ : gmap string file) !! q) /\
    match r with
    | Ok _ =>
        w_files w' !! "1.sst"%string = Some (MkFile (encode_table true recs filt) (length (encode_table true recs filt))) /\
        w_files w' !! tmp_of "1.sst" = None
    | Err _ => w_files w' !! "1.sst"%string = (∅ : gmap string file) !! "1.sst"%string /\ [@None nat; None; None] <> []
    | Panic => False
    end.
Proof.
  apply (write_atomic true "1.sst" recs true filt (MkWorld ∅ [None; None; None])).
  - discriminate.
  - exact recs_sorted.
  - exact recs_fit.
  - vm_compute. reflexivity.
Defined.

Lemma write_rejects_unsorted_witness :
  exists r w', Write true "1.sst" (rev recs) false (MkWorld ∅ []) = (r, w') /\ r <> Ok tt /\
    w_files w' !! "1.sst"%string = (∅ : gmap string file) !! "1.sst"%string.
Proof.
  apply (write_rejects_unsorted true "1.sst" (rev recs) false (MkWorld ∅ [])).
  - repeat constructor.
  - unfold sorted_records. intros [_ H]%StronglySorted_inv. rewrite !Forall_cons in H.
    destruct H as [[H|[H _]] _]; vm_compute in H; discriminate.
Defined.

Example write_runs :
  (Write true "1.sst" recs true (MkWorld ∅ [])).1 = Ok tt.
Proof. vm_compute. reflexivity. Qed.

Example write_crash_at_rename :
  let w := (Write true "1.sst" recs true (MkWorld ∅ [None; None; None; None; Some 0; Some 0])).2 in
  w_files w !! "1.sst"%string = None /\ is_Some (w_files w !! "1.sst.tmp"%string).
Proof. vm_compute. eauto. Qed.
End Examples.
