(* ===== verification/Table.v ===== *)
(** * Opened SSTables (src/sstable/table.go)

    [Open] parses a table's footer, index and filter; [Get] is the point
    lookup, [Iterator] the full scan compaction uses and [RangeIterator] the
    index-driven range scan.  [table_of] is the value [Open] returns on a
    written table; the theorems show that each way of reading it agrees with
    the reading of its records defined in Versions.v.  The reference count that
    defers closing and deleting the file is a state machine of its own. *)

From Stdlib Require Import QArith.
From S2P Require Import Prelude OrdMap GoIO IOLogic MemTable Versions SSTable.
From S2P Require Bloom.
From stdpp Require Import base gmap sets list strings numbers fin_maps sorting.
Open Scope nat_scope.

(** ** Data *)

(** The descriptor [file] is its contents: a table's file never changes.  A read
    through a descriptor that was closed, an error in Go, succeeds here; that the
    engine's readers never do so is shown in ReadersSteps.v ([open_table]). *)
Record Table := MkTable {
  t_path : string;
  t_file : bytes;
  t_index : list indexEntry;
  t_filter : Bloom.Filter;
  t_numEntries : N;
  t_minKey : option bytes;
  t_maxKey : option bytes;
  t_dataBlockSz : Z;
  t_fileSize : Z;
  t_refCount : Z;
  t_removeOnZero : bool;
  t_released : bool }.

Record Iterator := MkIter { it_r : bytes; it_pos : Z; it_limit : Z }.

Record RangeIterator := MkRange { ri_t : Table; ri_idx : nat; ri_end : option bytes; ri_maxSeq : N }.

Definition close_quiet : M unit := let! _ := attempt file_Close in ret tt.

(** ** [Open] *)

Definition errTruncatedIndex : error := ErrNew "sstable: truncated index entry".

(** The loop over the index block, on the bytes from [pos] on; running out of
    fuel is a panic. *)
Fixpoint parse_index (fuel : nat) (rest : bytes) (index : list indexEntry) : M (list indexEntry) :=
  match fuel with
  | O => panic
  | S fuel' =>
      match rest with
      | [] => ret index
      | _ =>
          if length rest <? 4 then throw errTruncatedIndex
          else
            let klen := N.to_nat (le_N (take 4 rest)) in
            let rest1 := drop 4 rest in
            if length rest1 <? klen + 8 then throw errTruncatedIndex
            else
              let key := take klen rest1 in
              let off := le_N (slice klen (klen + 8) rest1) in
              parse_index fuel' (drop (klen + 8) rest1) (index ++ [MkIdx key off])
      end
  end.

(** A copy of an index key as a slice: copying no bytes gives the nil slice. *)
Definition nil_if_empty (k : bytes) : option bytes := match k with [] => None | _ => Some k end.

Definition read_block (data : bytes) (off len : N) : M bytes :=
  makeslice len 1;;;
  if (0 <? len)%N then file_ReadAt data len (i64 (Z.of_N off)) else ret [].

(** [Open] from the footer on. *)
Definition Open_footer (path : string) (data : bytes) (footer : bytes) : M Table :=
  let size := N.of_nat (length data) in
  if negb (le_N (slice 40 44 footer) =? magicNumber)%N
  then throw (ErrNew "sstable: failed magic-number validation")
  else
    let indexOffset := le_N (slice 0 8 footer) in
    let indexLen := le_N (slice 8 16 footer) in
    let bloomOffset := le_N (slice 16 24 footer) in
    let bloomLen := le_N (slice 24 32 footer) in
    let numEntries := le_N (slice 32 40 footer) in
    if (size <? u64 (indexOffset + indexLen))%N || (size <? u64 (bloomOffset + bloomLen))%N
    then throw (ErrNew "sstable: footer references offsets beyond end of file")
    else
      let! indexBuf := wrap "sstable: reading index block" (read_block data indexOffset indexLen) in
      makeslice numEntries 32;;;
      let! index := parse_index (S (length indexBuf)) indexBuf [] in
      let! bloomBuf := wrap "sstable: reading bloom filter block" (read_block data bloomOffset bloomLen) in
      match Bloom.Decode bloomBuf with
      | inr e => throw (ErrWrap "sstable: decoding bloom filter" e)
      | inl filter =>
          let minKey := ie ← head index; nil_if_empty (ie_key ie) in
          let maxKey := ie ← last index; nil_if_empty (ie_key ie) in
          ret (MkTable path data index filter numEntries minKey maxKey
                 (i64 (Z.of_N indexOffset)) (Z.of_N size) 1 false false)
      end.

(** [Open] after [os.Open]: on an error the file is closed. *)
Definition Open_body (path : string) (data : bytes) : M Table :=
  wrap "sstable: stat" (syscall (ret tt));;;
  let size := N.of_nat (length data) in
  if (size <? footerSize)%N then throw (ErrNew "sstable: too small to contain a valid footer")
  else
    let! footer := wrap "sstable: reading footer"
                     (file_ReadAt data footerSize (Z.of_N size - Z.of_N footerSize)) in
    Open_footer path data footer.

Definition Open (path : string) : M Table :=
  let! data := wrap "sstable: open" (os_Open path) in
  on_error (Open_body path data) close_quiet.

Definition Path (t : Table) : string := t_path t.
Definition NumEntries (t : Table) : N := t_numEntries t.
Definition SizeBytes (t : Table) : Z := t_fileSize t.
Definition KeyRange (t : Table) : option bytes * option bytes := (t_minKey t, t_maxKey t).

(** A nil slice compares as the empty one. *)
Definition MayContainRange (t : Table) (key : bytes) : bool :=
  match t_minKey t with
  | None => false
  | Some mn => bytes_leb mn key && bytes_leb key (default [] (t_maxKey t))
  end.

(** ** Lifetime *)

Definition Acquire (t : Table) : bool * Table :=
  if t_released t then (false, t)
  else (true, MkTable (t_path t) (t_file t) (t_index t) (t_filter t) (t_numEntries t) (t_minKey t)
                (t_maxKey t) (t_dataBlockSz t) (t_fileSize t) (t_refCount t + 1) (t_removeOnZero t)
                (t_released t)).

(** The fields [refCount], [removeOnZero] and [released] of a table updated. *)
Definition set_life (t : Table) (refs : Z) (remove released : bool) : Table :=
  MkTable (t_path t) (t_file t) (t_index t) (t_filter t) (t_numEntries t) (t_minKey t) (t_maxKey t)
    (t_dataBlockSz t) (t_fileSize t) refs remove released.

Definition err_of (r : unit + error) : option error := match r with inl _ => None | inr e => Some e end.

(** The updated table and the returned error, if any. *)
Definition Release (t : Table) : M (Table * option error) :=
  let refs := (t_refCount t - 1)%Z in
  if (0 <? refs)%Z then ret (set_life t refs (t_removeOnZero t) (t_released t), None)
  else
    let t' := set_life t refs (t_removeOnZero t) true in
    let! c := attempt file_Close in
    let err := err_of c in
    let! err := (if t_removeOnZero t then
                   let! r := attempt (os_Remove (t_path t)) in
                   match r with
                   | inr rerr => ret (if negb (errors_Is rerr ErrNotExist) && negb (bool_decide (is_Some err))
                                      then Some rerr else err)
                   | inl _ => ret err
                   end
                 else ret err) in
    ret (t', ErrWrap "sstable: releasing" <$> err).

Definition Retire (t : Table) : M (Table * option error) :=
  Release (set_life t (t_refCount t) true (t_released t)).

Section table.
Context `{FL : Flate}.

(** ** Reading records *)

Definition readRecordAt (f : bytes) (offset : Z) : M Record :=
  let! header := wrap "read header" (file_ReadAt f dataHeaderSize offset) in
  let keyLen := le_N (slice 0 4 header) in
  let seq := le_N (slice 4 12 header) in
  let rawTyp := nth 12 header Byte.x00 in
  let valLen := le_N (slice 13 17 header) in
  let bodyLen := (keyLen + valLen)%N in
  makeslice bodyLen 1;;;
  let! body := (if (0 <? bodyLen)%N
                then wrap "read body" (file_ReadAt f bodyLen (i64 (offset + Z.of_N dataHeaderSize)))
                else ret []) in
  let value := drop (N.to_nat keyLen) body in
  let! value := (if has_flag rawTyp then wrap "record" (decompressValue value) else ret value) in
  ret (MkRec (take (N.to_nat keyLen) body) value (clear_flag rawTyp) seq).

(** ** [Get] *)

(** The loop from the first entry of the key's group. *)
Fixpoint get_loop (t : Table) (key : bytes) (maxSeq : N) (entries : list indexEntry) : M (option Record) :=
  match entries with
  | [] => ret None
  | ie :: entries' =>
      if bytes_eqb (ie_key ie) key then
        let! rec := wrap "sstable: reading record" (readRecordAt (t_file t) (i64 (Z.of_N (ie_offset ie)))) in
        if (Seq rec <=? maxSeq)%N then ret (Some rec) else get_loop t key maxSeq entries'
      else ret None
  end.

(** The first index entry with a key not below the given one. *)
Definition search_index (t : Table) (key : bytes) : nat :=
  sort_Search (length (t_index t))
    (fun i => match t_index t !! i with Some ie => bytes_leb key (ie_key ie) | None => true end).

Definition Get (t : Table) (key : bytes) (maxSeq : N) : M (option Record) :=
  if negb (MayContainRange t key) then ret None
  else
    let! may := of_option (Bloom.MayContain (t_filter t) key) in
    if negb may then ret None
    else get_loop t key maxSeq (drop (search_index t key) (t_index t)).

(** ** [Iterator] *)

Definition NewIterator (t : Table) : M Iterator :=
  let! data := wrap "sstable: opening for iteration" (os_Open (t_path t)) in
  ret (MkIter data 0 (t_dataBlockSz t)).

Definition Iterator_Next (it : Iterator) : M (option Record * Iterator) :=
  if (it_limit it <=? it_pos it)%Z then ret (None, it)
  else
    let! (header, r1) := wrap "sstable: iterator header read" (io_ReadFull (it_r it) dataHeaderSize) in
    let keyLen := le_N (slice 0 4 header) in
    let seq := le_N (slice 4 12 header) in
    let rawTyp := nth 12 header Byte.x00 in
    let valLen := le_N (slice 13 17 header) in
    let! (key, r2) := wrap "sstable: iterator key read" (io_ReadFull r1 keyLen) in
    let! (value, r3) := wrap "sstable: iterator value read" (io_ReadFull r2 valLen) in
    let! value := (if has_flag rawTyp then wrap "sstable: iterator decompress" (decompressValue value)
                   else ret value) in
    let pos := i64 (it_pos it + (Z.of_N dataHeaderSize + Z.of_N keyLen + Z.of_N valLen)) in
    ret (Some (MkRec key value (clear_flag rawTyp) seq), MkIter r3 pos (it_limit it)).

Definition Iterator_Close (it : Iterator) : M unit := file_Close.

(** ** [RangeIterator] *)

Definition NewRangeIterator (t : Table) (start end_ : option bytes) (maxSeq : N) : RangeIterator :=
  MkRange t (match start with None => 0 | Some s => search_index t s end) end_ maxSeq.

(** The inner loop over a key's version group: the first visible version and
    the index after the group. *)
Fixpoint scan_group (t : Table) (key : bytes) (maxSeq : N) (entries : list indexEntry)
    (found : option Record) (idx : nat) : M (option Record * nat) :=
  match entries with
  | [] => ret (found, idx)
  | ie :: entries' =>
      if bytes_eqb (ie_key ie) key then
        let! found' := (match found with
                        | Some r => ret (Some r)
                        | None =>
                            let! r := wrap "sstable: range iterator"
                                        (readRecordAt (t_file t) (i64 (Z.of_N (ie_offset ie)))) in
                            ret (if (Seq r <=? maxSeq)%N then Some r else None)
                        end) in
        scan_group t key maxSeq entries' found' (S idx)
      else ret (found, idx)
  end.

Definition past_end (end_ : option bytes) (key : bytes) : bool :=
  match end_ with None => false | Some e => bytes_leb e key end.

Definition set_idx (it : RangeIterator) (idx : nat) : RangeIterator :=
  MkRange (ri_t it) idx (ri_end it) (ri_maxSeq it).

(** The outer loop; running out of fuel is a panic. *)
Fixpoint next_loop (fuel : nat) (it : RangeIterator) : M (option Record * RangeIterator) :=
  match fuel with
  | O => panic
  | S fuel' =>
      match drop (ri_idx it) (t_index (ri_t it)) with
      | [] => ret (None, it)
      | (ie :: _) as entries =>
          if past_end (ri_end it) (ie_key ie) then ret (None, it)
          else
            let! (found, idx) := scan_group (ri_t it) (ie_key ie) (ri_maxSeq it) entries None (ri_idx it) in
            match found with
            | Some r => ret (Some r, set_idx it idx)
            | None => next_loop fuel' (set_idx it idx)
            end
      end
  end.

Definition RangeIterator_Next (it : RangeIterator) : M (option Record * RangeIterator) :=
  next_loop (S (length (t_index (ri_t it)))) it.

(** Reading an iterator to its end, as its users do. *)
Fixpoint drain {I} (next : I -> M (option Record * I)) (fuel : nat) (it : I) : M (list Record) :=
  match fuel with
  | O => panic
  | S fuel' =>
      let! (r, it') := next it in
      match r with
      | None => ret []
      | Some r => let! rs := drain next fuel' it' in ret (r :: rs)
      end
  end.

(** ** The record format read back *)

Lemma flag_bits t :
  (Byte.to_N t < 128)%N ->
  has_flag t = false /\ clear_flag t = t /\ has_flag (set_flag t) = true /\ clear_flag (set_flag t) = t.
Proof.
  intros Ht. by destruct t; first [exfalso; revert Ht; vm_compute; discriminate | vm_compute].
Qed.

Lemma rec_header_fields r sv typ :
  (N.of_nat (length (Key r)) < 2 ^ 32)%N -> (N.of_nat (length sv) < 2 ^ 32)%N -> (Seq r < 2 ^ 64)%N ->
  let h := rec_header r sv typ in
  length h = 17 /\ le_N (slice 0 4 h) = N.of_nat (length (Key r)) /\ le_N (slice 4 12 h) = Seq r /\
  nth 12 h Byte.x00 = typ /\ le_N (slice 13 17 h) = N.of_nat (length sv).
Proof.
  intros Hk Hv Hs h. unfold h, rec_header. split_and!.
  - by rewrite !length_app, !length_le_bytes.
  - rewrite slice_app_l by (by rewrite length_le_bytes). by apply le_N_small.
  - rewrite slice_app_mid by (rewrite ?length_le_bytes; lia). by apply le_N_small.
  - rewrite app_assoc, app_nth2; rewrite length_app, !length_le_bytes; [done|lia].
  - rewrite (app_assoc (le_bytes 4 _)), (app_assoc _ [typ]).
    rewrite <- (app_nil_r (le_bytes 4 (N.of_nat (length sv)))).
    rewrite slice_app_mid by (rewrite ?length_app, ?length_le_bytes; simpl; lia). by apply le_N_small.
Qed.

(** A computation whose only effect is its result [a], faults apart. *)
Definition reads {A} (m : M A) (a : A) : Prop :=
  forall fs, triple (files_are fs) m (fun b w => b = a /\ files_are fs w).

Lemma reads_ret {A} (a : A) : reads (ret a) a.
Proof. intros fs. by apply triple_ret. Qed.

Lemma reads_bind {A B} (m : M A) (k : A -> M B) a b : reads m a -> reads (k a) b -> reads (bind m k) b.
Proof. intros Hm Hk fs. eapply triple_bind_eq; [apply Hm|apply Hk]. Qed.

Lemma reads_wrap {A} t (m : M A) a : reads m a -> reads (wrap t m) a.
Proof. intros Hm fs. apply triple_wrap, Hm. Qed.

Lemma reads_makeslice n sz : (n * sz <= 2 ^ 48)%N -> reads (makeslice n sz) tt.
Proof. intros H fs. unfold makeslice. rewrite (proj2 (N.leb_le _ _)) by done. by apply triple_ret. Qed.

Lemma reads_file_ReadAt data n off a :
  (0 <= off)%Z -> (Z.of_N n + off <= Z.of_nat (length data))%Z ->
  a = slice (Z.to_nat off) (Z.to_nat off + N.to_nat n) data ->
  reads (file_ReadAt data n off) a.
Proof. intros H0 Hl -> fs. by apply triple_file_ReadAt. Qed.

Lemma reads_ReadAt_mid (a b c : bytes) n off :
  off = Z.of_nat (length a) -> n = N.of_nat (length b) -> reads (file_ReadAt (a ++ b ++ c) n off) b.
Proof.
  intros -> ->. apply reads_file_ReadAt; rewrite ?length_app; [lia|lia|].
  by rewrite slice_app_mid by lia.
Qed.

Lemma reads_io_ReadFull (b c : bytes) n :
  n = N.of_nat (length b) -> reads (io_ReadFull (b ++ c) n) (b, c).
Proof.
  intros -> fs. eapply triple_post; [apply triple_io_ReadFull; rewrite length_app; lia|].
  intros r w [-> Hw]. by rewrite Nat2N.id, take_app_length, drop_app_length.
Qed.

(** The descriptor of a table reads the same whatever the world. *)
Lemma reads_run {A} (m : M A) a w :
  reads m a ->
  match m w with
  | (Ok b, w') => b = a /\ w_files w' = w_files w
  | (Err _, _) => w_faults w <> []
  | (Panic, _) => False
  end.
Proof.
  intros Hm. specialize (Hm (w_files w) w eq_refl). destruct (m w) as [[b|e|] w']; [|done|done].
  by destruct Hm as [[-> Hw] _].
Qed.

Lemma reads_nofault {A} (m : M A) a w :
  reads m a -> w_faults w = [] -> exists w', m w = (Ok a, w') /\ w_files w' = w_files w /\ w_faults w' = [].
Proof.
  intros Hm Hw. specialize (Hm (w_files w) w eq_refl). destruct (m w) as [[b|e|] w']; [|done|done].
  destruct Hm as [[-> Hf] Hfl]. eauto.
Qed.

Context `{HFL : !FlateLaws FL}.

(** What [Write] stores for a value is read back as the value. *)
Lemma reads_stored compress r :
  representable compress r ->
  reads (if has_flag (stored compress r).2
         then wrap "record" (decompressValue (stored compress r).1) else ret (stored compress r).1) (Value r) /\
  reads (if has_flag (stored compress r).2
         then wrap "sstable: iterator decompress" (decompressValue (stored compress r).1)
         else ret (stored compress r).1) (Value r) /\
  clear_flag (stored compress r).2 = Typ r.
Proof.
  intros (_ & _ & _ & Ht). destruct (flag_bits (Typ r) Ht) as (H1 & H2 & H3 & H4).
  unfold stored. destruct (compress && _); [|cbn [fst snd]; rewrite H1; auto using reads_ret].
  unfold compressValue. destruct (Value r) as [|x v] eqn:Ev; [cbn [fst snd]; rewrite H1, H2; auto using reads_ret|].
  cbv zeta. destruct (length (x :: v) <=? length (deflate (x :: v))); cbn [fst snd].
  - rewrite H1. auto using reads_ret.
  - rewrite H3, H4. unfold decompressValue. rewrite inflate_deflate.
    auto using reads_wrap, reads_ret.
Qed.

Lemma reads_readRecordAt compress r (pre post : bytes) off :
  representable compress r -> (Z.of_nat (length (pre ++ rec_bytes compress r ++ post)) < 2 ^ 63)%Z ->
  off = Z.of_nat (length pre) ->
  reads (readRecordAt (pre ++ rec_bytes compress r ++ post) off) r.
Proof.
  intros Hr Hlen ->. pose proof Hr as (Hk & Hv & Hs & Ht).
  destruct (reads_stored compress r Hr) as (Hval & _ & Hty). unfold rec_bytes in *.
  destruct (stored compress r) as [sv typ]. cbn [fst snd] in *.
  destruct (rec_header_fields r sv typ Hk Hv Hs) as (Hl & F1 & F2 & F3 & F4).
  set (h := rec_header r sv typ) in *. rewrite <- app_assoc in *. rewrite <- app_assoc in *.
  unfold readRecordAt. eapply reads_bind; [apply reads_wrap, reads_ReadAt_mid; [done|by rewrite Hl]|].
  cbv zeta. rewrite F1, F2, F3, F4.
  eapply reads_bind; [apply reads_makeslice; lia|].
  eapply reads_bind with (Key r ++ sv).
  { destruct (N.ltb_spec 0 (N.of_nat (length (Key r)) + N.of_nat (length sv))) as [Hpos|Hz].
    - apply reads_wrap. rewrite (app_assoc pre h), (app_assoc (Key r) sv). apply reads_ReadAt_mid.
      + rewrite !length_app, Hl in *. rewrite i64_small; unfold dataHeaderSize; lia.
      + rewrite length_app. lia.
    - destruct (Key r), sv; simpl in Hz; try lia. apply reads_ret. }
  rewrite Nat2N.id, take_app_length, drop_app_length.
  eapply reads_bind; [exact Hval|]. rewrite Hty. destruct r. apply reads_ret.
Qed.

(** ** [Open] on a written table *)

Definition table_of `{Bloom.FloatMath} (path : string) (compress : bool) (rs : list Record) (f : Bloom.Filter) : Table :=
  MkTable path (encode_table compress rs f) (index_of compress 0 rs) f (N.of_nat (length rs))
    (r ← head rs; nil_if_empty (Key r)) (r ← last rs; nil_if_empty (Key r))
    (Z.of_nat (length (data_block compress rs))) (Z.of_nat (length (encode_table compress rs f))) 1 false false.

Definition entry_ok (ie : indexEntry) : Prop :=
  (N.of_nat (length (ie_key ie)) < 2 ^ 32)%N /\ (ie_offset ie < 2 ^ 64)%N.

Lemma length_index_block index : length index <= length (index_block index).
Proof.
  induction index as [|ie index IH]; [done|]. unfold index_block in *. cbn [map concat length].
  assert (1 <= length (index_bytes ie)) by (unfold index_bytes; rewrite !length_app, !length_le_bytes; lia).
  rewrite length_app. lia.
Qed.

Lemma reads_parse_index index fuel acc :
  Forall entry_ok index -> length index < fuel -> reads (parse_index fuel (index_block index) acc) (acc ++ index).
Proof.
  intros Hok. revert fuel acc. induction Hok as [|ie index [Hk Ho] Hok IH]; intros [|fuel] acc Hf; simpl in Hf; try lia.
  { simpl. rewrite app_nil_r. apply reads_ret. }
  unfold index_block in *. cbn [map concat]. unfold index_bytes at 1.
  set (tl := concat (map index_bytes index)) in *. rewrite <- !app_assoc.
  set (kb := le_bytes 4 _). set (ob := le_bytes 8 _).
  assert (length kb = 4) as Lk by apply length_le_bytes. assert (length ob = 8) as Lo by apply length_le_bytes.
  cbn [parse_index]. destruct (kb ++ ie_key ie ++ ob ++ tl) as [|x l] eqn:E.
  { apply (f_equal length) in E. rewrite !length_app in E. simpl in E. lia. }
  rewrite <- E. rewrite (proj2 (Nat.ltb_ge _ _)) by (rewrite !length_app; lia).
  rewrite (take_app_length' kb), (drop_app_length' kb) by done. cbv zeta.
  replace (N.to_nat (le_N kb)) with (length (ie_key ie)) by (unfold kb; rewrite le_N_small by done; lia).
  rewrite (proj2 (Nat.ltb_ge _ _)) by (rewrite !length_app; lia).
  rewrite take_app_length, slice_app_mid by lia.
  replace (le_N ob) with (ie_offset ie) by (unfold ob; by rewrite le_N_small).
  rewrite (app_assoc (ie_key ie)), (drop_app_length' (ie_key ie ++ ob)) by (rewrite length_app; lia).
  replace (MkIdx (ie_key ie) (ie_offset ie)) with ie by (by destruct ie).
  replace (acc ++ ie :: index) with ((acc ++ [ie]) ++ index) by (by rewrite <- app_assoc).
  apply IH. lia.
Qed.

Lemma index_of_ok `{Bloom.FloatMath} compress off rs :
  Forall (representable compress) rs ->
  (off + N.of_nat (length (data_block compress rs)) < 2 ^ 64)%N ->
  Forall entry_ok (index_of compress off rs).
Proof.
  intros Hr. revert off. induction Hr as [|r rs (Hk & _) Hr IH]; intros off Hl; cbn [index_of]; [constructor|].
  rewrite data_block_cons, length_app in Hl. constructor; [split; cbn [ie_key ie_offset]; [done|lia]|]. apply IH. lia.
Qed.

Lemma index_of_length compress off rs : length (index_of compress off rs) = length rs.
Proof. revert off; induction rs as [|r rs IH]; intros off; simpl; [done|]. by rewrite IH. Qed.

Lemma index_of_keys compress off rs : ie_key <$> index_of compress off rs = Key <$> rs.
Proof. revert off; induction rs as [|r rs IH]; intros off; simpl; [done|]. by rewrite IH. Qed.

Lemma footer_fields a b c d e :
  (a < 2 ^ 64)%N -> (b < 2 ^ 64)%N -> (c < 2 ^ 64)%N -> (d < 2 ^ 64)%N -> (e < 2 ^ 64)%N ->
  let F := footer_bytes a b c d e in
  le_N (slice 0 8 F) = a /\ le_N (slice 8 16 F) = b /\ le_N (slice 16 24 F) = c /\
  le_N (slice 24 32 F) = d /\ le_N (slice 32 40 F) = e /\ le_N (slice 40 44 F) = magicNumber.
Proof.
  intros Ha Hb Hc Hd He F. unfold F, footer_bytes.
  pose proof (length_le_bytes 8 a) as La. pose proof (length_le_bytes 8 b) as Lb.
  pose proof (length_le_bytes 8 c) as Lc. pose proof (length_le_bytes 8 d) as Ld.
  pose proof (length_le_bytes 8 e) as Le. pose proof (length_le_bytes 4 magicNumber) as Lm.
  split_and!.
  - rewrite slice_app_l by lia. by apply le_N_small.
  - rewrite slice_app_mid by lia. by apply le_N_small.
  - rewrite (app_assoc (le_bytes 8 a)), slice_app_mid by (rewrite ?length_app; lia). by apply le_N_small.
  - rewrite (app_assoc (le_bytes 8 a)), (app_assoc _ (le_bytes 8 c)), slice_app_mid by (rewrite ?length_app; lia).
    by apply le_N_small.
  - rewrite (app_assoc (le_bytes 8 a)), (app_assoc _ (le_bytes 8 c)), (app_assoc _ (le_bytes 8 d)),
      slice_app_mid by (rewrite ?length_app; lia).
    by apply le_N_small.
  - rewrite (app_assoc (le_bytes 8 a)), (app_assoc _ (le_bytes 8 c)), (app_assoc _ (le_bytes 8 d)),
      (app_assoc _ (le_bytes 8 e)), <- (app_nil_r (le_bytes 4 magicNumber)), slice_app_mid by (rewrite ?length_app; lia).
    by apply le_N_small.
Qed.

Lemma reads_read_block (a b c : bytes) off len :
  off = N.of_nat (length a) -> len = N.of_nat (length b) -> (N.of_nat (length (a ++ b ++ c)) < 2 ^ 48)%N ->
  reads (read_block (a ++ b ++ c) off len) b.
Proof.
  intros -> -> Hl. rewrite !length_app in Hl. unfold read_block.
  eapply reads_bind; [apply reads_makeslice; lia|].
  destruct (N.ltb_spec 0 (N.of_nat (length b))).
  - apply reads_ReadAt_mid; [rewrite i64_small; lia|done].
  - destruct b; simpl in *; [apply reads_ret|lia].
Qed.

Lemma head_index compress rs :
  (ie ← head (index_of compress 0 rs); nil_if_empty (ie_key ie)) = (r ← head rs; nil_if_empty (Key r)).
Proof. by destruct rs. Qed.

Lemma last_index compress rs :
  (ie ← last (index_of compress 0 rs); nil_if_empty (ie_key ie)) = (r ← last rs; nil_if_empty (Key r)).
Proof.
  transitivity (k ← last (ie_key <$> index_of compress 0 rs); nil_if_empty k).
  - rewrite fmap_last. by destruct (last (index_of compress 0 rs)).
  - rewrite index_of_keys, fmap_last. by destruct (last rs).
Qed.

Lemma reads_Open_body `{Bloom.FloatMath} path compress rs f :
  fits compress rs f -> Bloom.Decode (Bloom.Encode f) = inl f ->
  reads (Open_body path (encode_table compress rs f)) (table_of path compress rs f).
Proof.
  intros (Hr & Hlen & Hn & _) Hdec. unfold Open_body, table_of.
  set (T := encode_table compress rs f) in *. unfold encode_table in T.
  set (D := data_block compress rs) in *. set (X := index_block (index_of compress 0 rs)) in *.
  set (B := Bloom.Encode f) in *. set (F := footer_bytes _ _ _ _ _) in T.
  assert (length F = 44) as LF by apply length_footer.
  assert (length T = length D + (length X + (length B + 44))) as LT
    by (unfold T; by rewrite !length_app, LF).
  assert (length (D ++ X) = length D + length X) as LDX by apply length_app.
  destruct (footer_fields (N.of_nat (length D)) (N.of_nat (length X)) (N.of_nat (length (D ++ X)))
              (N.of_nat (length B)) (N.of_nat (length rs))) as (F1 & F2 & F3 & F4 & F5 & F6); try lia.
  fold F in F1, F2, F3, F4, F5, F6.
  eapply reads_bind; [apply reads_wrap; intros fs; apply triple_syscall; [done|by apply triple_ret]|].
  cbv zeta. destruct (N.ltb_spec (N.of_nat (length T)) footerSize) as [Hs|_]; [unfold footerSize in Hs; lia|].
  eapply reads_bind with F.
  { apply reads_wrap. unfold T. rewrite (app_assoc X), (app_assoc D).
    rewrite <- (app_nil_r F) at 1. apply reads_ReadAt_mid.
    - rewrite !length_app, LF. simpl. unfold footerSize. lia.
    - by rewrite LF. }
  unfold Open_footer. cbv zeta. rewrite F1, F2, F3, F4, F5, F6. rewrite N.eqb_refl. cbn [negb].
  rewrite !u64_small by lia.
  rewrite !(proj2 (N.ltb_ge _ _)) by lia. cbn [orb].
  eapply reads_bind with X.
  { apply reads_wrap. unfold T. apply reads_read_block; [done|done|]. by fold T. }
  eapply reads_bind; [apply reads_makeslice; lia|].
  eapply reads_bind with (index_of compress 0 rs).
  { rewrite <- (app_nil_l (index_of compress 0 rs)) at 1.
    apply reads_parse_index; [apply index_of_ok; [done|fold D; lia]|].
    pose proof (length_index_block (index_of compress 0 rs)) as HX. fold X in HX. lia. }
  eapply reads_bind with B.
  { apply reads_wrap. unfold T. rewrite (app_assoc D). apply reads_read_block; [done|done|].
    rewrite <- app_assoc. by fold T. }
  rewrite Hdec, head_index, last_index, i64_small by lia.
  replace (Z.of_N (N.of_nat (length D))) with (Z.of_nat (length D)) by lia.
  replace (Z.of_N (N.of_nat (length T))) with (Z.of_nat (length T)) by lia. apply reads_ret.
Qed.

Lemma close_quiet_no_panic w : (close_quiet w).1 <> Panic.
Proof. destruct w as [fs [|[?|] fl]]; done. Qed.

Lemma triple_Open `{Bloom.FloatMath} fs path compress rs f n :
  fits compress rs f -> Bloom.Decode (Bloom.Encode f) = inl f ->
  fs !! path = Some (MkFile (encode_table compress rs f) n) ->
  triple (files_are fs) (Open path) (fun t w => t = table_of path compress rs f /\ files_are fs w).
Proof.
  intros Hfit Hd Hp. unfold Open.
  eapply triple_bind_eq; [apply triple_wrap; by apply triple_os_Open|].
  apply triple_on_error; [by apply reads_Open_body|apply close_quiet_no_panic].
Qed.

(** ** Tables that hold a list of records

    The interface between a table and its users: its index lists the records'
    keys in order, every entry leads to its record, the filter knows every
    key, the key range is the records'. *)

Definition entry_at (t : Table) (ie : indexEntry) (r : Record) : Prop :=
  ie_key ie = Key r /\ reads (readRecordAt (t_file t) (i64 (Z.of_N (ie_offset ie)))) r.

Record holds (t : Table) (rs : list Record) : Prop := {
  holds_sorted : sorted_records rs;
  holds_entries : Forall2 (entry_at t) (t_index t) rs;
  holds_filter : forall k, k ∈ Key <$> rs -> Bloom.MayContain (t_filter t) k = Some true;
  holds_total : forall k, is_Some (Bloom.MayContain (t_filter t) k);
  holds_min : t_minKey t = (r ← head rs; nil_if_empty (Key r));
  holds_max : t_maxKey t = (r ← last rs; nil_if_empty (Key r)) }.

Lemma index_entries compress rs (pre post : bytes) :
  Forall (representable compress) rs ->
  (Z.of_nat (length (pre ++ data_block compress rs ++ post)) < 2 ^ 63)%Z ->
  Forall2 (fun ie r => ie_key ie = Key r /\
             reads (readRecordAt (pre ++ data_block compress rs ++ post) (i64 (Z.of_N (ie_offset ie)))) r)
    (index_of compress (N.of_nat (length pre)) rs) rs.
Proof.
  intros Hr. revert pre. induction Hr as [|r rs Hrep Hr IH]; intros pre Hl; cbn [index_of]; [constructor|].
  rewrite data_block_cons, <- app_assoc in *. constructor.
  - split; [done|]. cbn [ie_offset]. rewrite !length_app in Hl. apply reads_readRecordAt; [done|rewrite !length_app; lia|].
    rewrite i64_small; lia.
  - specialize (IH (pre ++ rec_bytes compress r)). rewrite <- !app_assoc in IH. specialize (IH Hl).
    by rewrite length_app, Nat2N.inj_add in IH.
Qed.

Lemma table_of_holds `{Bloom.FloatMath} path compress rs f :
  rs <> [] -> sorted_records rs -> fits compress rs f -> filter_of rs = Some f ->
  holds (table_of path compress rs f) rs.
Proof.
  intros Hne Hs Hfit Hf. destruct (filter_of_total compress rs f Hfit Hne) as (f' & Hf' & _ & Hwf & Hc).
  rewrite Hf in Hf'. injection Hf' as <-. destruct Hfit as (Hr & Hlen & _).
  constructor; try done.
  - unfold entry_at, table_of; cbn [t_index t_file].
    apply (index_entries compress rs [] _ Hr). unfold encode_table in Hlen. cbv zeta in Hlen. rewrite app_nil_l. lia.
  - intros k. by apply Bloom.MayContain_total.
Qed.

Section held.
Context (t : Table) (rs : list Record) (Ht : holds t rs).

Lemma index_length : length (t_index t) = length rs.
Proof. eapply Forall2_length, holds_entries, Ht. Qed.

Lemma search_index_filter key :
  drop (search_index t key) rs = filter (fun r => key <=b Key r) rs.
Proof.
  unfold search_index. rewrite index_length.
  rewrite (sort_Search_ext _ _ (fun i => match rs !! i with Some r => bytes_leb key (Key r) | None => true end)).
  - destruct (search_filter rs (fun r => bytes_leb key (Key r))) as [Hd _].
    + intros i j x y Hij Hx Hy Hp. apply bytes_leb_le in Hp. apply bytes_leb_le.
      destruct (decide (i = j)) as [->|Hne]; [by simplify_eq|].
      assert (rec_lt x y) as Hxy%rec_lt_key; [|border].
      eapply StronglySorted_lookup; [apply (holds_sorted _ _ Ht)|exact Hx|exact Hy|lia].
    + rewrite Hd. apply list_filter_iff. intros r. apply bytes_leb_le.
  - intros a Ha. pose proof (holds_entries _ _ Ht) as HF. rewrite Forall2_lookup in HF. specialize (HF a).
    destruct HF as [ie r [E _]|]; [by rewrite E|done].
Qed.

Lemma held_range r : r ∈ rs -> (forall a, head rs = Some a -> Key a <> []) ->
  MayContainRange t (Key r) = true.
Proof.
  intros Hr Hne. pose proof (holds_sorted _ _ Ht) as Hs.
  destruct (last rs) as [z|] eqn:Ez; [|apply last_None in Ez; rewrite Ez in Hr; by apply not_elem_of_nil in Hr].
  assert (default [] (t_maxKey t) = Key z) as Hmax
    by (rewrite (holds_max _ _ Ht), Ez; simpl; by destruct (Key z)).
  destruct (head rs) as [a|] eqn:Ea; [|destruct rs; [by apply not_elem_of_nil in Hr|done]].
  assert (t_minKey t = Some (Key a)) as Hmin
    by (rewrite (holds_min _ _ Ht), Ea; specialize (Hne a eq_refl); simpl; by destruct (Key a)).
  unfold MayContainRange. rewrite Hmin, Hmax. apply andb_true_iff. split; apply bytes_leb_le.
  - clear Hmax Ez. destruct rs as [|a' l]; [done|]. injection Ea as ->.
    apply elem_of_cons in Hr as [->|Hr]; [border|]. apply sorted_records_cons in Hs as [_ Ha].
    rewrite Forall_forall in Ha. by apply rec_lt_key, Ha.
  - apply last_Some in Ez as [l' El']. rewrite El' in Hr, Hs.
    apply elem_of_app in Hr as [Hr|Hr%list_elem_of_singleton]; [|subst; border].
    apply rec_lt_key. eapply StronglySorted_app_1_elem_of; [exact Hs|exact Hr|]. by left.
Qed.

Lemma reads_get_loop key m es rs' :
  Forall2 (entry_at t) es rs' -> sorted_records rs' -> Forall (fun r => key <=b Key r) rs' ->
  reads (get_loop t key m es) (newest key m rs').
Proof.
  intros HF Hs. rewrite newest_sorted by done.
  induction HF as [|ie r es rs' [Ek Hr] HF IH]; intros Hge; cbn [get_loop]; [apply reads_ret|].
  apply sorted_records_cons in Hs as [Hs Hlt]. apply Forall_cons in Hge as [Hk Hge].
  rewrite Ek, filter_cons. destruct (bytes_eqb (Key r) key) eqn:E.
  - apply bytes_eqb_eq in E. eapply reads_bind; [by apply reads_wrap|].
    destruct (N.leb_spec (Seq r) m); [rewrite decide_True by done; apply reads_ret|].
    rewrite decide_False by (intros [_ ?]; lia). by apply IH.
  - apply bytes_eqb_ne in E. rewrite decide_False by (by intros [? _]).
    rewrite filter_Forall_nil; [apply reads_ret|]. rewrite Forall_forall in Hlt |- *.
    intros s Hin [Es _]. apply Hlt, rec_lt_key in Hin. rewrite Es in Hin.
    apply E. apply bytes_le_lteq in Hk as [Hk|Hk]; [border|done].
Qed.

Lemma entries_from i : Forall2 (entry_at t) (drop i (t_index t)) (drop i rs).
Proof. apply Forall2_drop, holds_entries, Ht. Qed.

(** [Get] on a table that holds [rs] is the newest version of the key. *)
Lemma reads_Get key m :
  (forall r, head rs = Some r -> Key r <> []) -> reads (Get t key m) (newest key m rs).
Proof.
  intros Hne. unfold Get. destruct (MayContainRange t key) eqn:Hmc; cbn [negb].
  - destruct (holds_total _ _ Ht key) as [may Hmay]. rewrite Hmay. cbn [of_option].
    eapply reads_bind; [apply reads_ret|]. destruct may; cbn [negb].
    + rewrite <- (newest_filter key m (fun r => key <=b Key r)) by (intros r [-> _]; border).
      rewrite <- search_index_filter. apply reads_get_loop.
      * apply entries_from.
      * rewrite search_index_filter. apply StronglySorted_filter, (holds_sorted _ _ Ht).
      * rewrite search_index_filter. apply Forall_forall. by intros r [? _]%list_elem_of_filter.
    + enough (newest key m rs = None) as -> by apply reads_ret.
      apply newest_None. intros r Hr [<- _]. rewrite (holds_filter _ _ Ht) in Hmay; [done|].
      by apply list_elem_of_fmap_2.
  - enough (newest key m rs = None) as -> by apply reads_ret.
    apply newest_None. intros r Hr [<- _]. by rewrite held_range in Hmc.
Qed.

(** ** The range iterator *)

Lemma reads_scan_group key m es rs' found idx :
  Forall2 (entry_at t) es rs' -> sorted_records rs' -> Forall (fun r => key <=b Key r) rs' ->
  exists n, reads (scan_group t key m es found idx)
              (match found with Some r => Some r | None => newest key m rs' end, idx + n) /\
    drop n rs' = filter (fun r => key <b Key r) rs' /\
    (forall r, head rs' = Some r -> Key r = key -> 0 < n).
Proof.
  intros HF Hs. rewrite newest_sorted by done. revert found idx.
  induction HF as [|ie r es rs' [Ek Hr] HF IH]; intros found idx Hge; cbn [scan_group].
  { exists 0. rewrite Nat.add_0_r. split_and!; [|done|done]. destruct found; apply reads_ret. }
  apply sorted_records_cons in Hs as [Hs Hlt]. apply Forall_cons in Hge as [Hk Hge].
  rewrite Ek. destruct (bytes_eqb (Key r) key) eqn:E.
  - apply bytes_eqb_eq in E.
    set (found' := match found with Some r => Some r | None => if (Seq r <=? m)%N then Some r else None end).
    destruct (IH Hs found' (S idx) Hge) as (n & Hn & Hd & _). exists (S n). split_and!.
    + eapply reads_bind with found'.
      { unfold found'. destruct found; [apply reads_ret|].
        eapply reads_bind; [by apply reads_wrap|]. apply reads_ret. }
      replace (idx + S n) with (S idx + n) by lia. unfold found' in Hn |- *. destruct found as [r0|]; [done|].
      rewrite (filter_cons (sees key m)). unfold sees at 2.
      destruct (N.leb_spec (Seq r) m); [rewrite decide_True by done|rewrite decide_False by (intros [_ ?]; lia)]; done.
    + simpl. rewrite Hd, filter_cons, decide_False; [done|]. rewrite E. apply bytes_lt_irrefl.
    + intros. lia.
  - apply bytes_eqb_ne in E.
    assert (key <b Key r) by (apply bytes_le_lteq in Hk as [?|?]; [done|congruence]).
    assert (Forall (fun s => key <b Key s) (r :: rs')) as Hall.
    { apply Forall_cons. split; [done|]. eapply Forall_impl; [exact Hlt|].
      intros s Hs'%rec_lt_key. simpl. border. }
    exists 0. rewrite Nat.add_0_r. split_and!.
    + rewrite filter_Forall_nil; [destruct found; apply reads_ret|].
      eapply Forall_impl; [exact Hall|]. simpl. intros s Hs' [Es _]. rewrite Es in Hs'. border.
    + by rewrite filter_Forall_id.
    + intros s [= <-] ?. done.
Qed.

(** What an iterator positioned at [ri_idx] still has to return. *)
Definition pending (it : RangeIterator) : list Record :=
  visible None (ri_end it) (ri_maxSeq it) (drop (ri_idx it) rs).

Lemma past_end_spec end_ key : past_end end_ key = false <-> in_range None end_ key.
Proof.
  unfold past_end, in_range. destruct end_ as [e|]; [|done].
  rewrite <- bytes_nle_gt, <- bytes_leb_le. destruct (bytes_leb e key); naive_solver.
Qed.

Lemma reads_next_loop fuel it :
  ri_t it = t -> length (drop (ri_idx it) rs) < fuel ->
  exists it', reads (next_loop fuel it) (head (pending it), it') /\ ri_t it' = t /\
    pending it' = tail (pending it).
Proof.
  revert it; induction fuel as [|fuel IH]; intros it Et Hf; [lia|]. cbn [next_loop]. rewrite Et.
  assert (Hs : sorted_records (drop (ri_idx it) rs)).
  { pose proof (holds_sorted _ _ Ht) as Hs. rewrite <- (take_drop (ri_idx it) rs) in Hs.
    by eapply StronglySorted_app_1_r. }
  pose proof (entries_from (ri_idx it)) as HF. unfold pending.
  destruct (drop (ri_idx it) rs) as [|r l] eqn:El.
  { apply Forall2_nil_inv_r in HF. rewrite HF. exists it. rewrite El. split_and!; [apply reads_ret|done|done]. }
  apply Forall2_cons_inv_r in HF as (ie & es & [Ek Hr] & HF & Eix). rewrite Eix, Ek.
  destruct (past_end (ri_end it) (Key r)) eqn:Epe.
  { assert (visible None (ri_end it) (ri_maxSeq it) (r :: l) = []) as ->.
    { apply visible_past_end; [done|]. rewrite <- past_end_spec. by rewrite Epe. }
    exists it. rewrite El, visible_past_end; [split_and!; [apply reads_ret|done|done]|done|].
    rewrite <- past_end_spec. by rewrite Epe. }
  apply past_end_spec in Epe. rewrite visible_group by done.
  destruct (reads_scan_group (Key r) (ri_maxSeq it) (ie :: es) (r :: l) None (ri_idx it))
    as (n & Hn & Hd & Hpos); [by constructor|done| |].
  { apply Forall_cons. split; [border|]. apply sorted_records_cons in Hs as [_ Ha].
    eapply Forall_impl; [exact Ha|]. intros s. apply rec_lt_key. }
  specialize (Hpos r eq_refl eq_refl).
  assert (Hdrop : drop (ri_idx it + n) rs = filter (fun s => Key r <b Key s) (r :: l))
    by (by rewrite <- drop_drop, El).
  destruct (newest (Key r) (ri_maxSeq it) (r :: l)) as [s|]; cbn [option_list app head tail].
  - exists (set_idx it (ri_idx it + n)). split_and!; [|done|].
    + eapply reads_bind; [exact Hn|]. apply reads_ret.
    + unfold pending. simpl. by rewrite Hdrop.
  - destruct (IH (set_idx it (ri_idx it + n))) as (it' & Hit & Et' & Hp); [done| |].
    { simpl. rewrite <- drop_drop, El, length_drop. simpl in *. lia. }
    unfold pending in Hit at 1. simpl in Hit. rewrite Hdrop in Hit.
    exists it'. split_and!; [|done|].
    + eapply reads_bind; [exact Hn|]. exact Hit.
    + unfold pending in Hp |- *. simpl in Hp. by rewrite Hdrop in Hp.
Qed.

Lemma reads_RangeIterator_Next it :
  ri_t it = t ->
  exists it', reads (RangeIterator_Next it) (head (pending it), it') /\ ri_t it' = t /\
    pending it' = tail (pending it).
Proof.
  intros Et. apply reads_next_loop; [done|]. rewrite Et, length_drop, index_length. lia.
Qed.

Lemma pending_New start end_ m :
  pending (NewRangeIterator t start end_ m) = visible start end_ m rs.
Proof.
  unfold pending, NewRangeIterator. simpl. destruct start as [s|]; [|done].
  by rewrite search_index_filter, visible_start.
Qed.

Lemma reads_drain_range fuel it :
  ri_t it = t -> length (pending it) < fuel -> reads (drain RangeIterator_Next fuel it) (pending it).
Proof.
  revert it; induction fuel as [|fuel IH]; intros it Et Hf; [lia|]. cbn [drain].
  destruct (reads_RangeIterator_Next it Et) as (it' & Hn & Et' & Hp).
  eapply reads_bind; [exact Hn|]. cbv beta iota.
  destruct (pending it) as [|r l] eqn:Ep; cbn [head tail] in *; [apply reads_ret|].
  eapply reads_bind; [apply IH; [done|rewrite Hp; simpl in *; lia]|]. rewrite Hp. apply reads_ret.
Qed.
End held.

(** ** The full iterator *)

Lemma reads_Iterator_Next compress r post pos limit :
  representable compress r -> (0 <= pos)%Z -> (pos + Z.of_nat (length (rec_bytes compress r)) < 2 ^ 63)%Z ->
  (pos < limit)%Z ->
  reads (Iterator_Next (MkIter (rec_bytes compress r ++ post) pos limit))
    (Some r, MkIter post (pos + Z.of_nat (length (rec_bytes compress r))) limit).
Proof.
  intros Hr H0 Hlen Hpos. pose proof Hr as (Hk & Hv & Hs & Ht).
  destruct (reads_stored compress r Hr) as (_ & Hval & Hty). unfold rec_bytes in *.
  destruct (stored compress r) as [sv typ]. cbn [fst snd] in *.
  destruct (rec_header_fields r sv typ Hk Hv Hs) as (Hl & F1 & F2 & F3 & F4).
  set (h := rec_header r sv typ) in *. rewrite !length_app, Hl in *. rewrite <- !app_assoc.
  unfold Iterator_Next. cbn [it_limit it_pos it_r]. rewrite (proj2 (Z.leb_gt _ _)) by done.
  eapply reads_bind; [apply reads_wrap, reads_io_ReadFull; by rewrite Hl|].
  cbv beta iota zeta. rewrite F1, F2, F3, F4.
  eapply reads_bind; [by apply reads_wrap, reads_io_ReadFull|]. cbv beta iota.
  eapply reads_bind; [by apply reads_wrap, reads_io_ReadFull|]. cbv beta iota.
  eapply reads_bind; [exact Hval|]. rewrite Hty. rewrite i64_small by (unfold dataHeaderSize; lia).
  replace (pos + (Z.of_N dataHeaderSize + Z.of_N (N.of_nat (length (Key r))) + Z.of_N (N.of_nat (length sv))))%Z
    with (pos + Z.of_nat (17 + (length (Key r) + length sv)))%Z by (unfold dataHeaderSize; lia).
  destruct r. apply reads_ret.
Qed.

Lemma reads_drain_iterator compress rs post pos fuel :
  Forall (representable compress) rs -> (0 <= pos)%Z ->
  (pos + Z.of_nat (length (data_block compress rs)) < 2 ^ 63)%Z -> length rs < fuel ->
  reads (drain Iterator_Next fuel
           (MkIter (data_block compress rs ++ post) pos (pos + Z.of_nat (length (data_block compress rs))))) rs.
Proof.
  intros Hr. revert pos fuel. induction Hr as [|r rs Hrep Hr IH]; intros pos [|fuel] H0 Hl Hf; simpl in Hf; try lia.
  - cbn [drain]. unfold Iterator_Next. cbn [it_limit it_pos]. rewrite (proj2 (Z.leb_le _ _)) by (simpl; lia).
    eapply reads_bind; [apply reads_ret|]. apply reads_ret.
  - rewrite data_block_cons in *. rewrite length_app in *. cbn [drain]. rewrite <- app_assoc.
    assert (17 <= length (rec_bytes compress r)).
    { unfold rec_bytes, rec_header. rewrite !length_app, !length_le_bytes. simpl. lia. }
    eapply reads_bind; [apply reads_Iterator_Next; [done|done|lia|lia]|]. cbv beta iota.
    replace (pos + Z.of_nat (length (rec_bytes compress r) + length (data_block compress rs)))%Z
      with (pos + Z.of_nat (length (rec_bytes compress r)) + Z.of_nat (length (data_block compress rs)))%Z by lia.
    eapply reads_bind; [apply IH; lia|]. apply reads_ret.
Qed.

(** Reading every record of a table through a new iterator. *)
Definition scan_all (t : Table) (fuel : nat) : M (list Record) :=
  let! it := NewIterator t in drain Iterator_Next fuel it.

(** ** Properties *)

(** What a result of [m] started in [w] must be for [m] to compute [a]: the
    value [a] without changing a file, or an error that a fault caused. *)
Definition computes {A} (m : M A) (w : world) (a : A) : Prop :=
  match m w with
  | (Ok b, w') => b = a /\ w_files w' = w_files w
  | (Err _, _) => w_faults w <> []
  | (Panic, _) => False
  end.

(** C29: a written table opens.  [Write] of sorted records followed by [Open]
    returns a table that holds exactly those records (index, filter and key
    range included), unless a system call failed; it never panics. *)
Theorem open_write_roundtrip `{Bloom.FloatMath} nilEmpty path rs compress f w :
  rs <> [] -> sorted_records rs -> fits compress rs f -> filter_of rs = Some f ->
  match (let! _ := Write nilEmpty path rs compress in Open path) w with
  | (Ok t, w') => t = table_of path compress rs f /\ holds t rs /\
      w_files w' !! path = Some (MkFile (t_file t) (length (t_file t)))
  | (Err _, _) => w_faults w <> []
  | (Panic, _) => False
  end.
Proof.
  intros Hne Hs Hfit Hf.
  assert (triple (files_are (w_files w)) (let! _ := Write nilEmpty path rs compress in Open path)
    (fun t w' => t = table_of path compress rs f /\ holds t rs /\
      w_files w' !! path = Some (MkFile (t_file t) (length (t_file t))))) as HT.
  { destruct (filter_of_total compress rs f Hfit Hne) as (f' & Hf' & Hd & _). rewrite Hf in Hf'. injection Hf' as <-.
    eapply triple_bind; [by apply triple_Write|]. intros u.
    eapply triple_post; [apply (triple_Open _ path compress rs f (length (encode_table compress rs f))); [done|done|apply lookup_insert_eq]|].
    intros t w' [-> Hw]. split; [done|]. split; [by apply table_of_holds|].
    rewrite Hw. apply lookup_insert_eq. }
  specialize (HT w eq_refl). destruct (bind _ _ w) as [[t|e|] w']; [apply HT|done|done].
Qed.

(** C30: the point lookup.  On a table that holds [rs], the smallest key of which
    is not empty, [Get key maxSeq] is the most recent version of the key with [Seq <= maxSeq], and nothing exactly
    when there is none. *)
Theorem table_get_newest t rs key maxSeq w :
  holds t rs -> (forall r, head rs = Some r -> Key r <> []) ->
  computes (Get t key maxSeq) w (newest key maxSeq rs).
Proof. intros Ht Hne. by apply reads_run, reads_Get. Qed.

(** C31: the range scan.  Draining a range iterator of a table that holds [rs]
    returns the newest version with [Seq <= maxSeq] of every key in
    [[start, end)], once each and in key order. *)
Theorem range_iterator_visible t rs start end_ maxSeq fuel w :
  holds t rs -> length (visible start end_ maxSeq rs) < fuel ->
  computes (drain RangeIterator_Next fuel (NewRangeIterator t start end_ maxSeq)) w
    (visible start end_ maxSeq rs).
Proof.
  intros Ht Hf. rewrite <- (pending_New t rs Ht) in Hf |- *. apply reads_run. by apply (reads_drain_range t rs Ht).
Qed.

(** The full scan.  A new iterator over a written table returns every
    record, every version included, in file order. *)
Theorem iterator_returns_all `{Bloom.FloatMath} path compress rs f n fuel w :
  fits compress rs f -> length rs < fuel ->
  w_files w !! path = Some (MkFile (encode_table compress rs f) n) ->
  computes (scan_all (table_of path compress rs f) fuel) w rs.
Proof.
  intros (Hr & Hlen & _) Hf Hp.
  assert (triple (files_are (w_files w)) (scan_all (table_of path compress rs f) fuel)
            (fun a w' => a = rs /\ files_are (w_files w) w')) as HT.
  { unfold scan_all, NewIterator. eapply triple_bind_eq.
    { eapply triple_bind_eq; [apply triple_wrap; by apply (triple_os_Open _ _ (MkFile (encode_table compress rs f) n))|].
      apply triple_ret. intros w' Hw'. split; [reflexivity|exact Hw']. }
    cbn [t_dataBlockSz table_of f_data].
    unfold encode_table in Hlen |- *. cbv zeta in Hlen |- *. rewrite length_app in Hlen.
    rewrite <- (Z.add_0_l (Z.of_nat (length (data_block compress rs)))).
    apply reads_drain_iterator; [done|lia|lia|done]. }
  specialize (HT w eq_refl). unfold computes. destruct (scan_all _ _ w) as [[a|e|] w']; [|done|done].
  by destruct HT as [[-> Hw] _].
Qed.

(** A table whose smallest key is the empty key answers no lookup: [Open]
    leaves its minimum key nil, which [MayContainRange] takes for an empty
    table, so [Get] finds none of its records.  (The engine never writes an
    empty key.) *)
Theorem empty_key_hides_table t rs r key maxSeq w :
  holds t (r :: rs) -> Key r = [] -> Get t key maxSeq w = (Ok None, w).
Proof.
  intros Ht Hk. unfold Get, MayContainRange. rewrite (holds_min _ _ Ht). simpl. by rewrite Hk.
Qed.

(** [Open] trusts two numbers of the footer.  An index length whose sum
    with the offset wraps around uint64, or an entry count beyond what [make]
    can allocate, passes the checks and panics instead of returning an error. *)
Theorem open_corrupt_footer_panics path data n off len bo bl nEntries w :
  w_faults w = [] ->
  w_files w !! path = Some (MkFile (data ++ footer_bytes off len bo bl nEntries) n) ->
  (off < 2 ^ 64 /\ len < 2 ^ 64 /\ bo < 2 ^ 64 /\ bl < 2 ^ 64 /\ nEntries < 2 ^ 64)%N ->
  (u64 (off + len) <= N.of_nat (length data) /\ u64 (bo + bl) <= N.of_nat (length data))%N ->
  (2 ^ 48 < len)%N \/ len = 0%N /\ (2 ^ 43 < nEntries)%N ->
  (Open path w).1 = Panic.
Proof.
  intros Hfl Hp (H1 & H2 & H3 & H4 & Hn) [Ho Hb] Hbig.
  set (F := footer_bytes off len bo bl nEntries) in *.
  destruct (footer_fields off len bo bl nEntries) as (F1 & F2 & F3 & F4 & F5 & F6); try done.
  fold F in F1, F2, F3, F4, F5, F6. assert (length F = 44) as LF by apply length_footer.
  assert (reads (wrap "sstable: stat" (syscall (ret tt))) tt) as HR1.
  { apply reads_wrap. intros fs. apply triple_syscall; [done|by apply triple_ret]. }
  assert (reads (wrap "sstable: reading footer" (file_ReadAt (data ++ F) footerSize
    (Z.of_N (N.of_nat (length (data ++ F))) - Z.of_N footerSize))) F) as HR2.
  { apply reads_wrap. rewrite <- (app_nil_r F) at 1. apply reads_ReadAt_mid.
    - rewrite length_app, LF. unfold footerSize. lia.
    - by rewrite LF. }
  unfold Open. unfold bind at 1, wrap at 1.
  pose proof (os_Open_ok path _ w Hfl Hp) as HO. unfold attempt in HO.
  destruct (os_Open path w) as [[d|e|] w0]; [|done|done]. injection HO as -> ->. cbn [f_data].
  unfold on_error, Open_body. unfold bind at 1.
  destruct (reads_nofault _ _ w HR1 Hfl) as (w1 & -> & _ & Hfl1). cbv zeta.
  rewrite (proj2 (N.ltb_ge _ _)) by (rewrite length_app, LF; unfold footerSize; lia).
  unfold bind at 1. destruct (reads_nofault _ _ w1 HR2 Hfl1) as (w2 & -> & _ & Hfl2).
  unfold Open_footer. cbv zeta. rewrite F1, F2, F3, F4, F5, F6, N.eqb_refl. cbn [negb].
  rewrite !(proj2 (N.ltb_ge _ _)) by (rewrite length_app; lia). cbn [orb].
  destruct Hbig as [Hlen|[-> Hent]].
  - unfold bind at 1, wrap at 1, read_block. unfold bind at 1, makeslice.
    by rewrite (proj2 (N.leb_gt _ _)) by lia.
  - assert (forall t d o w, wrap t (read_block d o 0) w = (Ok [], w)) as E by done.
    unfold bind at 1. rewrite E. unfold bind at 1, makeslice at 1.
    by rewrite (proj2 (N.leb_gt (nEntries * 32) _)) by lia.
Qed.
End table.

(** ** The reference count as a protocol

    [l_refs] is the number of references handed out and not yet given up: the
    creator's own and one per successful [Acquire].  A reference is given up
    once, by [Release] or [Retire]; [l_retired] records whether [Retire] has been
    called, by whomever and however many references were left then.  Everything
    else that runs leaves the table's file alone. *)

Record lstate := MkL { l_table : Table; l_refs : nat; l_retired : bool; l_world : world }.

Inductive life_step : lstate -> lstate -> Prop :=
| LAcquire t t' n r w :
    Acquire t = (true, t') -> life_step (MkL t n r w) (MkL t' (S n) r w)
| LRelease t t' n r w e w' :
    Release t w = (Ok (t', e), w') -> life_step (MkL t (S n) r w) (MkL t' n r w')
| LRetire t t' n r w e w' :
    Retire t w = (Ok (t', e), w') -> life_step (MkL t (S n) r w) (MkL t' n true w')
| LOther t n r w w' :
    w_files w' !! t_path t = w_files w !! t_path t -> life_step (MkL t n r w) (MkL t n r w').

(** References and count agree; the table is released exactly when none is
    left; it is marked for removal exactly when it was retired; until it is
    released its file is as it was. *)
Definition life_inv (path : string) (f : option file) (s : lstate) : Prop :=
  t_path (l_table s) = path /\ t_refCount (l_table s) = Z.of_nat (l_refs s) /\
  t_released (l_table s) = (l_refs s =? 0) /\ t_removeOnZero (l_table s) = l_retired s /\
  (0 < l_refs s -> w_files (l_world s) !! path = f).

(** The fields [Release] leaves behind. *)
Lemma Release_spec t w t' e w' :
  Release t w = (Ok (t', e), w') ->
  t' = set_life t (t_refCount t - 1) (t_removeOnZero t)
         (t_released t || (t_refCount t - 1 <=? 0)%Z) /\
  ((1 < t_refCount t)%Z -> w' = w).
Proof.
  unfold Release. destruct (Z.ltb_spec 0 (t_refCount t - 1)) as [Hlt|Hge].
  - intros [= <- _ <-]. rewrite (proj2 (Z.leb_gt _ _)) by lia. by rewrite orb_false_r.
  - rewrite (proj2 (Z.leb_le _ _)) by lia. rewrite orb_true_r. intros H. split; [|lia].
    revert H. unfold bind. destruct (attempt file_Close w) as [[r|?|] w1]; try done.
    destruct (t_removeOnZero t); [|by intros [= <- _ _]].
    destruct (attempt (os_Remove (t_path t)) w1) as [[r2|?|] w2]; try done.
    destruct r2; by intros [= <- _ _].
Qed.

Lemma life_step_release path f r t t' n w w' e :
  life_inv path f (MkL t (S n) r w) -> Release t w = (Ok (t', e), w') -> life_inv path f (MkL t' n r w').
Proof.
  intros (Hp & Hc & Hr & Hm & Hf) H. simpl in *. apply Release_spec in H as [-> Hw].
  unfold life_inv; simpl. rewrite Hr, Hc. split_and!; [done|lia| |done|].
  - cbn [orb]. destruct n; simpl; [done|]. apply Z.leb_gt. lia.
  - intros Hn. rewrite Hw by lia. apply Hf. lia.
Qed.

Lemma life_step_inv path f s s' : life_inv path f s -> life_step s s' -> life_inv path f s'.
Proof.
  intros Hi Hs. destruct Hs as [t t' n r w Ha|t t' n r w e w' Hr|t t' n r w e w' Hr|t n r w w' Hw].
  - destruct Hi as (Hp & Hc & Hr & Hm & Hf). unfold Acquire in Ha. simpl in *.
    destruct (t_released t) eqn:Er; [done|]. injection Ha as <-. unfold life_inv; simpl.
    split_and!; [done|lia|done|done|]. intros _. apply Hf. destruct n; [done|lia].
  - by eapply life_step_release.
  - unfold Retire in Hr.
    eapply (life_step_release path f true (set_life t (t_refCount t) true (t_released t))); [|exact Hr].
    destruct Hi as (Hp & Hc & Hl & Hm & Hf). by split_and!.
  - destruct Hi as (Hp & Hc & Hr & Hm & Hf). unfold life_inv; simpl in *. split_and!; auto.
    rewrite <- Hp in *. intros Hn. rewrite Hw. auto.
Qed.

Lemma life_inv_runs t w s :
  t_refCount t = 1%Z -> t_released t = false -> t_removeOnZero t = false ->
  rtc life_step (MkL t 1 false w) s -> life_inv (t_path t) (w_files w !! t_path t) s.
Proof.
  intros Hc Hr Hm Hs.
  assert (life_inv (t_path t) (w_files w !! t_path t) (MkL t 1 false w)) as Hi.
  { unfold life_inv; simpl. by rewrite Hc, Hr, Hm. }
  revert Hi. generalize (w_files w !! t_path t). intros f.
  induction Hs as [s|s1 s2 s3 Hstep Hs IH]; [done|]. intros Hi. apply IH. by eapply life_step_inv.
Qed.

(** [Release], by the count it finds: an earlier reference costs nothing; the
    last one deletes the file if the table is marked, and only then. *)
Lemma Release_earlier t w : (1 < t_refCount t)%Z ->
  exists t', Release t w = (Ok (t', None), w) /\ t_released t' = t_released t.
Proof.
  intros Hc. unfold Release. rewrite (proj2 (Z.ltb_lt _ _)) by lia. by eexists.
Qed.

Lemma Release_last t w f : t_refCount t = 1%Z -> w_faults w = [] -> w_files w !! t_path t = Some f ->
  exists t' w', Release t w = (Ok (t', None), w') /\
    w_files w' !! t_path t = if t_removeOnZero t then None else Some f.
Proof.
  intros Hc Hfl Hf. destruct w as [fs fl]. simpl in *. subst fl. unfold Release. rewrite Hc.
  destruct (t_removeOnZero t) eqn:Em; io_unfold; simpl.
  - rewrite Hf. simpl. do 2 eexists. split; [done|]. apply lookup_delete_eq.
  - do 2 eexists. by split.
Qed.

(** C33: the life of a table.  Starting from a newly opened table with its
    creator's reference, whatever interleaving of acquisitions, releases,
    retirements and other activity follows: while a reference is held the table
    is not released and its file is still on disk with its contents, also when
    the table was retired before; once the last one is given up, [Acquire] fails
    for good.  Giving up a reference that is not the last, by [Release] or
    [Retire], touches nothing on disk.  Giving up the last one, when no system
    call fails, deletes the file if that is done by [Retire] or if the table was
    retired at any earlier moment, and leaves the file as it was otherwise. *)
Theorem table_lifecycle t w s :
  t_refCount t = 1%Z -> t_released t = false -> t_removeOnZero t = false ->
  rtc life_step (MkL t 1 false w) s ->
  (0 < l_refs s -> t_released (l_table s) = false /\
     w_files (l_world s) !! t_path t = w_files w !! t_path t) /\
  (l_refs s = 0 -> Acquire (l_table s) = (false, l_table s)) /\
  (1 < l_refs s ->
     (exists t', Release (l_table s) (l_world s) = (Ok (t', None), l_world s) /\ t_released t' = false) /\
     (exists t', Retire (l_table s) (l_world s) = (Ok (t', None), l_world s) /\ t_released t' = false)) /\
  (forall f, l_refs s = 1 -> w_faults (l_world s) = [] -> w_files w !! t_path t = Some f ->
     (exists t' w', Release (l_table s) (l_world s) = (Ok (t', None), w') /\
        w_files w' !! t_path t = if l_retired s then None else Some f) /\
     (exists t' w', Retire (l_table s) (l_world s) = (Ok (t', None), w') /\ w_files w' !! t_path t = None)).
Proof.
  intros Hc Hr Hm Hs. destruct (life_inv_runs t w s Hc Hr Hm Hs) as (Hp & Hc' & Hr' & Hm' & Hf').
  split_and!.
  - intros Hn. split; [|auto]. rewrite Hr'. apply Nat.eqb_neq. lia.
  - intros Hn. unfold Acquire. by rewrite Hr', Hn.
  - intros Hn. assert (t_released (l_table s) = false) as E by (rewrite Hr'; apply Nat.eqb_neq; lia).
    split.
    + destruct (Release_earlier (l_table s) (l_world s)) as (t' & H1 & H2); [lia|]. exists t'. by rewrite H2.
    + unfold Retire.
      destruct (Release_earlier (set_life (l_table s) (t_refCount (l_table s)) true (t_released (l_table s)))
        (l_world s)) as (t' & H1 & H2); [simpl; lia|]. exists t'. by rewrite H1, H2.
  - intros f Hn Hfl Hf. rewrite Hf in Hf'. specialize (Hf' ltac:(lia)). rewrite <- Hp in *. rewrite <- Hm'. split.
    + apply Release_last; [lia|done|done].
    + apply (Release_last (set_life (l_table s) (t_refCount (l_table s)) true (t_released (l_table s))) _ f);
        [simpl; lia|done|done].
Qed.

(** ** Witnesses *)

Module Examples.
#[local] Existing Instance RunA.
#[local] Existing Instance Bloom.TenBits.
Import SSTable.Examples.

Definition tab : Table := table_of "1.sst" true recs filt.
Definition image : file := MkFile (t_file tab) (length (t_file tab)).
Definition disk : world := MkWorld {[ "1.sst"%string := image ]} [].

Lemma tab_holds : holds tab recs.
Proof.
  apply table_of_holds; [discriminate|exact recs_sorted|exact recs_fit|].
  vm_compute. reflexivity.
Defined.

Lemma open_write_roundtrip_witness :
  match (let! _ := Write true "1.sst" recs true in Open "1.sst") (MkWorld ∅ []) with
  | (Ok t, w') => t = tab /\ holds t recs /\
      w_files w' !! "1.sst"%string = Some (MkFile (t_file t) (length (t_file t)))
  | (Err _, _) => @nil (option nat) <> []
  | (Panic, _) => False
  end.
Proof.
  apply (open_write_roundtrip true "1.sst" recs true filt (MkWorld ∅ [])).
  - discriminate.
  - exact recs_sorted.
  - exact recs_fit.
  - vm_compute. reflexivity.
Defined.

Lemma table_get_newest_witness : computes (Get tab a_ 4) disk (newest a_ 4 recs).
Proof.
  apply (table_get_newest tab recs a_ 4 disk tab_holds).
  intros r Hr. injection Hr as <-. discriminate.
Defined.

Example table_get_value : newest a_ 4 recs = Some (MkRec a_ b_ TypeValue 2).
Proof. vm_compute. reflexivity. Qed.

Lemma range_iterator_visible_witness :
  computes (drain RangeIterator_Next 3 (NewRangeIterator tab (Some a_) None 4)) disk (visible (Some a_) None 4 recs).
Proof.
  apply (range_iterator_visible tab recs (Some a_) None 4 3 disk tab_holds).
  apply Nat.ltb_lt. vm_compute. reflexivity.
Defined.

Lemma iterator_returns_all_witness : computes (scan_all tab 4) disk recs.
Proof.
  apply (iterator_returns_all "1.sst" true recs filt (length (t_file tab)) 4 disk).
  - exact recs_fit.
  - apply Nat.ltb_lt. vm_compute. reflexivity.
  - vm_compute. reflexivity.
Defined.

(** A table with the empty key. *)
Definition recs0 : list Record := [MkRec [] b_ TypeValue 1; MkRec a_ b_ TypeValue 2].
Definition filt0 : Bloom.Filter := default (Bloom.MkFilter [] 0 0) (filter_of recs0).
Definition tab0 : Table := table_of "0.sst" false recs0 filt0.

Lemma tab0_holds : holds tab0 recs0.
Proof.
  apply table_of_holds; [discriminate|sorted_recs| |vm_compute; reflexivity].
  unfold fits, recs0. rewrite !Forall_cons, Forall_nil. unfold representable. split_and!; vm_compute; done.
Defined.

Lemma empty_key_hides_table_witness : Get tab0 a_ 9 disk = (Ok None, disk).
Proof.
  apply (empty_key_hides_table tab0 [MkRec a_ b_ TypeValue 2] (MkRec [] b_ TypeValue 1) a_ 9 disk tab0_holds).
  reflexivity.
Defined.

Definition bad_disk : world :=
  MkWorld {[ "2.sst"%string := MkFile ([] ++ footer_bytes (2 ^ 64 - 2 ^ 50) (2 ^ 50) 0 0 0) 44 ]} [].

Lemma open_corrupt_footer_panics_witness : (Open "2.sst" bad_disk).1 = Panic.
Proof.
  apply (open_corrupt_footer_panics "2.sst" [] 44 (2 ^ 64 - 2 ^ 50) (2 ^ 50) 0 0 0 bad_disk).
  - reflexivity.
  - vm_compute. reflexivity.
  - split_and!; vm_compute; reflexivity.
  - split; vm_compute; discriminate.
  - left. vm_compute. reflexivity.
Defined.

(** A reader acquires the table, the compactor retires it, the reader releases. *)
Definition tab1 : Table := (Acquire tab).2.
Definition tab2 : Table := set_life tab1 1 true false.

Lemma table_lifecycle_witness :
  exists t' w', Release tab2 disk = (Ok (t', None), w') /\ w_files w' !! "1.sst"%string = None.
Proof.
  destruct (table_lifecycle tab disk (MkL tab2 1 true disk)) as (_ & _ & _ & H).
  - reflexivity.
  - reflexivity.
  - reflexivity.
  - apply rtc_l with (MkL tab1 2 false disk); [by apply LAcquire|].
    apply rtc_l with (MkL tab2 1 true disk); [|apply rtc_refl].
    apply LRetire with None. reflexivity.
  - destruct (H image) as [Hrel _]; [reflexivity|reflexivity|reflexivity|exact Hrel].
Defined.
End Examples.
