(* ===== verification/Merge.v ===== *)
(** * Compaction's k-way merge (src/sstable/merge.go)

    [Merge] reads every record of its input tables through one iterator each,
    pops them in order from a heap, collects the versions of a key into a group
    and keeps those some reader may still need.  [merge_spec] is the outcome as
    a pure function of the inputs' records; the theorems show that [Merge]
    writes exactly that list and that it reads the same as its inputs from
    [minKeepSeq] on. *)

From Stdlib Require Import QArith.
From S2P Require Import Prelude OrdMap Heap GoIO IOLogic MemTable Versions SSTable Table.
From S2P Require Bloom.
From stdpp Require Import base gmap sets list strings numbers fin_maps sorting.
Open Scope nat_scope.

(** ** Data *)

(** [mi_iter] is the index of the item's iterator. *)
Record mergeItem := MkItem { mi_rec : Record; mi_iter : nat }.

(** [mergeHeap.Less]. *)
Definition merge_less (a b : mergeItem) : bool :=
  match bytes_compare (Key (mi_rec a)) (Key (mi_rec b)) with
  | Lt => true
  | Gt => false
  | Eq => (Seq (mi_rec b) <? Seq (mi_rec a))%N
  end.

(** ** Operations *)

(** [sort.Slice] by Seq descending: the insertion sort the standard library
    uses on short slices.  On longer ones it may order equal Seqs differently;
    without equal Seqs the result is the same. *)
Fixpoint insert_desc (r : Record) (l : list Record) : list Record :=
  match l with
  | [] => [r]
  | s :: l' => if (Seq s <? Seq r)%N then r :: s :: l' else s :: insert_desc r l'
  end.

Definition sort_desc (group : list Record) : list Record := fold_left (fun l r => insert_desc r l) group [].

(** The walk over a sorted group; [first] is [i == 0]. *)
Fixpoint retain (first : bool) (minKeepSeq : N) (isBottommost : bool) (group : list Record) : list Record :=
  match group with
  | [] => []
  | r :: group' =>
      if first && isBottommost && bool_decide (Typ r = TypeTombstone) && (Seq r <=? minKeepSeq)%N then []
      else r :: (if (Seq r <=? minKeepSeq)%N then [] else retain false minKeepSeq isBottommost group')
  end.

Section merge.
Context `{FM : Bloom.FloatMath} `{FL : Flate}.

Definition close_all (iters : list Iterator) : M unit :=
  foldr (fun it k => attempt (Iterator_Close it);;; k) (ret tt) iters.

Fixpoint open_iters (tables : list Table) (opened : list Iterator) : M (list Iterator) :=
  match tables with
  | [] => ret opened
  | t :: tables' =>
      let! it := on_error (wrap "sstable: merge: opening iterator" (NewIterator t)) (close_all opened) in
      open_iters tables' (opened ++ [it])
  end.

(** Advance iterator [i] and push what it returns. *)
Definition refill (text : string) (h : list mergeItem) (iters : list Iterator) (i : nat)
    : M (list mergeItem * list Iterator) :=
  let! it := of_option (iters !! i) in
  let! (r, it') := wrap text (Iterator_Next it) in
  ret (match r with Some rec => Push merge_less h (MkItem rec i) | None => h end, <[i := it']> iters).

(** The initial reads, from iterator [i] on, [k] of them. *)
Fixpoint fill (k : nat) (i : nat) (h : list mergeItem) (iters : list Iterator) : M (list mergeItem * list Iterator) :=
  match k with
  | O => ret (h, iters)
  | S k' =>
      let! (h', iters') := refill "sstable: merge: initial read" h iters i in
      fill k' (S i) h' iters'
  end.

(** The inner loop: every further version of [key]; running out of fuel is a
    panic, here and below. *)
Fixpoint gather (fuel : nat) (key : bytes) (group : list Record) (h : list mergeItem) (iters : list Iterator)
    : M (list Record * list mergeItem * list Iterator) :=
  match fuel with
  | O => panic
  | S fuel' =>
      match h with
      | [] => ret (group, h, iters)
      | root :: _ =>
          if bytes_eqb (Key (mi_rec root)) key then
            let! (dup, h1) := of_option (Pop merge_less h) in
            let! (h2, iters') := refill "sstable: merge: read error" h1 iters (mi_iter dup) in
            gather fuel' key (group ++ [mi_rec dup]) h2 iters'
          else ret (group, h, iters)
      end
  end.

(** The outer loop. *)
Fixpoint merge_loop (fuel : nat) (minKeepSeq : N) (isBottommost : bool) (h : list mergeItem)
    (iters : list Iterator) (merged : list Record) : M (list Record) :=
  match fuel with
  | O => panic
  | S fuel' =>
      match h with
      | [] => ret merged
      | _ =>
          let! (top, h1) := of_option (Pop merge_less h) in
          let! (h2, iters2) := refill "sstable: merge: read error" h1 iters (mi_iter top) in
          let! (group, h3, iters3) := gather fuel' (Key (mi_rec top)) [mi_rec top] h2 iters2 in
          merge_loop fuel' minKeepSeq isBottommost h3 iters3
            (merged ++ retain true minKeepSeq isBottommost (sort_desc group))
      end
  end.

(** Everything after the iterators are open; [fuel] bounds the loops. *)
Definition Merge_body (fuel : nat) (outPath : string) (minKeepSeq : N) (isBottommost compress : bool)
    (iters : list Iterator) : M unit :=
  let! (h, iters) := fill (length iters) 0 [] iters in
  let! merged := merge_loop fuel minKeepSeq isBottommost h iters [] in
  match merged with
  | [] => throw ErrEmptyMerge
  | _ => Write false outPath merged compress
  end.

(** The deferred closes run after the body, whatever it returned. *)
Definition Merge (fuel : nat) (tables : list Table) (outPath : string) (minKeepSeq : N)
    (isBottommost compress : bool) : M unit :=
  match tables with
  | [] => throw (ErrNew "sstable: cannot merge zero tables")
  | _ =>
      let! iters := open_iters tables [] in
      let! r := attempt (Merge_body fuel outPath minKeepSeq isBottommost compress iters) in
      close_all iters;;;
      match r with inl _ => ret tt | inr e => throw e end
  end.
End merge.

(** ** The outcome as a function *)

(** Dropping from a sorted list what no reader at or above [minKeepSeq] can
    see: [last] is the current key, [closed] whether an older version of it is
    still needed. *)
Fixpoint compact (minKeepSeq : N) (isBottommost : bool) (last : option bytes) (closed : bool) (l : list Record)
    : list Record :=
  match l with
  | [] => []
  | r :: l' =>
      if bool_decide (last = Some (Key r)) then
        if closed then compact minKeepSeq isBottommost last true l'
        else r :: compact minKeepSeq isBottommost last (Seq r <=? minKeepSeq)%N l'
      else if isBottommost && bool_decide (Typ r = TypeTombstone) && (Seq r <=? minKeepSeq)%N
           then compact minKeepSeq isBottommost (Some (Key r)) true l'
           else r :: compact minKeepSeq isBottommost (Some (Key r)) (Seq r <=? minKeepSeq)%N l'
  end.

(** The records in table order. *)
Definition rec_le (r s : Record) : Prop := ~ rec_lt s r.
#[export] Instance rec_le_dec : RelDecision rec_le.
Proof. unfold rec_le. intros r s. apply _. Defined.

Definition merge_spec (minKeepSeq : N) (isBottommost : bool) (rss : list (list Record)) : list Record :=
  compact minKeepSeq isBottommost None false (merge_sort rec_le (concat rss)).

(** What a reader makes of a lookup result: a tombstone means "not found". *)
Definition live (r : option Record) : option Record :=
  r ← r; if bool_decide (Typ r = TypeTombstone) then None else Some r.

(** ** Groups *)

Definition keyed (k : bytes) (g : list Record) : Prop := Forall (fun r => Key r = k) g.

Lemma insert_desc_perm r l : insert_desc r l ≡ₚ r :: l.
Proof.
  induction l as [|s l IH]; simpl; [done|]. case_match; [done|]. rewrite IH. apply Permutation_swap.
Qed.

Lemma sort_desc_perm g : sort_desc g ≡ₚ g.
Proof.
  unfold sort_desc. enough (forall acc, fold_left (fun l r => insert_desc r l) g acc ≡ₚ acc ++ g) as H by apply (H []).
  induction g as [|r g IH]; intros acc; simpl; [by rewrite app_nil_r|].
  rewrite IH, insert_desc_perm. by rewrite <- Permutation_middle.
Qed.

Definition seq_ge (r s : Record) : Prop := (Seq s <= Seq r)%N.

Lemma insert_desc_sorted r l : StronglySorted seq_ge l -> StronglySorted seq_ge (insert_desc r l).
Proof.
  induction 1 as [|s l Hl IH Hs]; simpl; [repeat constructor|].
  destruct (N.ltb_spec (Seq s) (Seq r)) as [Hlt|Hge].
  - constructor; [by constructor|]. constructor; [unfold seq_ge; lia|].
    eapply Forall_impl; [exact Hs|]. unfold seq_ge. intros; lia.
  - constructor; [done|]. rewrite insert_desc_perm. by constructor.
Qed.

Lemma sort_desc_sorted g : StronglySorted seq_ge (sort_desc g).
Proof.
  unfold sort_desc. enough (forall acc, StronglySorted seq_ge acc ->
    StronglySorted seq_ge (fold_left (fun l r => insert_desc r l) g acc)) as H by (apply H; constructor).
  induction g as [|r g IH]; intros acc Ha; simpl; [done|]. by apply IH, insert_desc_sorted.
Qed.

(** Without two equal versions the sorted group is in table order. *)
Lemma group_sorted k g : keyed k g -> NoDup g -> unique_versions g -> sorted_records (sort_desc g).
Proof.
  intros Hk Hnd Hu. pose proof (sort_desc_sorted g) as Hs. pose proof (sort_desc_perm g) as Hp.
  unfold keyed in Hk. rewrite <- Hp in Hk, Hnd.
  assert (unique_versions (sort_desc g)) as Hu'.
  { intros r s. rewrite Hp. apply Hu. }
  clear Hp Hu. revert Hk Hnd Hu'. induction Hs as [|r l Hl IH Hr]; intros Hk Hnd Hu; [constructor|].
  apply NoDup_cons in Hnd as [Hnot Hnd]. apply Forall_cons in Hk as [Hkr Hk].
  constructor; [apply IH; auto; intros a b Ha Hb; apply Hu; by right|].
  rewrite Forall_forall in Hr, Hk |- *. intros s Hin. right. rewrite Hkr, (Hk s Hin). split; [done|].
  specialize (Hr s Hin). unfold seq_ge in Hr. destruct (decide (Seq r = Seq s)) as [E|]; [|lia].
  destruct Hnot. rewrite (Hu r s); [done|left|by right|by rewrite Hkr, (Hk s Hin)|done].
Qed.

Section retained.
Context (minKeepSeq : N) (bottom : bool).
#[local] Abbreviation compact := (Merge.compact minKeepSeq bottom).
#[local] Abbreviation retain b := (Merge.retain b minKeepSeq bottom).

Lemma compact_rest k closed rest :
  Forall (fun r => Key r <> k) rest -> compact (Some k) closed rest = compact None false rest.
Proof.
  intros Hr. destruct Hr as [|r rest Hk Hr]; [done|]. cbn [Merge.compact].
  by rewrite bool_decide_false by congruence.
Qed.

Lemma compact_tail k closed g rest :
  keyed k g -> Forall (fun r => Key r <> k) rest ->
  compact (Some k) closed (g ++ rest) = (if closed then [] else retain false g) ++ compact None false rest.
Proof.
  intros Hg Hr. revert closed. induction Hg as [|r g Hk Hg IH]; intros closed; cbn [app].
  - rewrite (compact_rest k) by done. by destruct closed.
  - cbn [Merge.compact Merge.retain andb]. rewrite bool_decide_true by congruence.
    destruct closed; [apply IH|]. rewrite IH. simpl. by destruct (_ <=? _)%N.
Qed.

Lemma compact_group k g rest :
  keyed k g -> Forall (fun r => Key r <> k) rest ->
  compact None false (g ++ rest) = retain true g ++ compact None false rest.
Proof.
  intros Hg Hr. destruct Hg as [|r g Hk Hg]; [done|]. cbn [app Merge.compact Merge.retain andb].
  rewrite bool_decide_false by done. rewrite Hk.
  rewrite !(compact_tail k) by done.
  destruct (bottom && _ && _); [done|]. simpl. by destruct (_ <=? _)%N.
Qed.

Lemma retain_sublist first g : retain first g `sublist_of` g.
Proof.
  revert first; induction g as [|r g IH]; intros first; cbn [Merge.retain]; [done|].
  case_match; [apply sublist_nil_l|]. apply sublist_skip. case_match; [apply sublist_nil_l|apply IH].
Qed.

(** Reading at or above [minKeepSeq] the retained part of a group. *)
Lemma retain_false_newest k m g :
  keyed k g -> (minKeepSeq <= m)%N -> sorted_records g ->
  newest k m (retain false g) = newest k m g.
Proof.
  intros Hg Hm. induction Hg as [|r g Hk Hg IH]; intros Hs; [done|]. cbn [Merge.retain andb].
  apply sorted_records_cons in Hs as [Hs Hr]. cbn [newest].
  destruct (N.leb_spec (Seq r) minKeepSeq) as [Hle|Hgt]; [|by rewrite IH].
  rewrite !decide_True by (split; [done|lia]). simpl.
  destruct (newest k m g) as [s|] eqn:E; [|done]. simpl.
  apply newest_Some in E as (Hin & [Hks _] & _). rewrite Forall_forall in Hr.
  destruct (Hr s Hin) as [H|[_ H]]; [rewrite Hk, Hks in H; border|].
  by rewrite (proj2 (N.ltb_ge _ _)) by lia.
Qed.

(** The first version of a group: dropped only as a tombstone nobody needs. *)
Lemma retain_newest k m g :
  keyed k g -> (minKeepSeq <= m)%N -> sorted_records g ->
  newest k m (retain true g) = newest k m g \/
  bottom = true /\ newest k m (retain true g) = None /\ live (newest k m g) = None.
Proof.
  intros Hg Hm Hs. destruct g as [|r g]; [by left|]. cbn [Merge.retain andb].
  destruct (bottom && _ && _) eqn:E.
  - right. rewrite !andb_true_iff, bool_decide_eq_true in E. destruct E as [[-> Ht] Hle%N.leb_le].
    split; [done|]. split; [done|]. apply Forall_cons in Hg as [Hk Hg].
    rewrite newest_sorted by done. rewrite filter_cons_True by (split; [done|lia]). simpl.
    by rewrite bool_decide_true.
  - left. rewrite <- (retain_false_newest k m (r :: g)) by done. done.
Qed.
End retained.

(** ** Keys in ascending groups *)

(** [gs] splits its concatenation into non-empty groups of one key each, the
    keys ascending. *)
Inductive grouped : list (list Record) -> Prop :=
| grouped_nil : grouped []
| grouped_cons k g gs :
    g <> [] -> keyed k g -> grouped gs -> Forall (fun r => k <b Key r) (concat gs) -> grouped (g :: gs).

Lemma grouped_perm gs (f : list Record -> list Record) :
  (forall g, f g ≡ₚ g) -> grouped gs -> grouped (map f gs) /\ concat (map f gs) ≡ₚ concat gs.
Proof.
  intros Hf. induction 1 as [|k g gs Hne Hk Hg IH Hlt]; [by repeat constructor|].
  destruct IH as [IH1 IH2]. simpl. split; [|by rewrite Hf, IH2].
  apply grouped_cons with k; [|unfold keyed; by rewrite Hf|done|by rewrite IH2].
  intros E. specialize (Hf g). rewrite E in Hf. by apply Permutation_nil_l in Hf.
Qed.

Lemma concat_sorted gs :
  grouped gs -> Forall sorted_records gs -> sorted_records (concat gs).
Proof.
  induction 1 as [|k g gs Hne Hk Hg IH Hlt]; intros Hs; [constructor|].
  apply Forall_cons in Hs as [Hs Hss]. specialize (IH Hss). simpl.
  clear Hne. revert Hk. induction Hs as [|r g Hs IHg Hr]; intros Hk; [done|].
  apply Forall_cons in Hk as [Hkr Hk]. simpl. constructor; [by apply IHg|].
  apply Forall_app. split; [done|]. eapply Forall_impl; [exact Hlt|]. intros s Hks. left. simpl in Hks.
  by rewrite Hkr.
Qed.

Lemma compact_concat mk bottom gs :
  grouped gs -> compact mk bottom None false (concat gs) = concat (map (retain true mk bottom) gs).
Proof.
  induction 1 as [|k g gs Hne Hk Hg IH Hlt]; [done|]. simpl. rewrite (compact_group mk bottom k), IH; [done|done|].
  eapply Forall_impl; [exact Hlt|]. intros r Hr E. simpl in Hr. rewrite E in Hr. border.
Qed.

Lemma newest_outside k m l : Forall (fun r => Key r <> k) l -> newest k m l = None.
Proof. intros Hl. apply newest_None. intros r Hr [E _]. rewrite Forall_forall in Hl. by apply (Hl r). Qed.

(** The retained groups read like the groups. *)
Lemma retained_newest mk bottom gs k m :
  (mk <= m)%N -> grouped gs -> Forall sorted_records gs ->
  let out := concat (map (retain true mk bottom) gs) in
  live (newest k m out) = live (newest k m (concat gs)) /\
  (bottom = false -> newest k m out = newest k m (concat gs)).
Proof.
  intros Hm Hg Hs. induction Hg as [|k0 g gs Hne Hk Hg IH Hlt]; [done|].
  apply Forall_cons in Hs as [Hs Hss]. simpl. rewrite !newest_app.
  destruct (decide (k0 = k)) as [->|Hk0].
  - assert (forall l, l `sublist_of` concat gs -> newest k m l = None) as Hnone.
    { intros l Hl. apply newest_outside, Forall_forall. intros r Hr E. rewrite Forall_forall in Hlt.
      eapply elem_of_sublist in Hr; [|exact Hl]. apply Hlt in Hr. rewrite E in Hr. border. }
    rewrite (Hnone (concat gs)) by done. rewrite (Hnone (concat (map _ gs))).
    + rewrite !newer_None_r. destruct (retain_newest mk bottom k m g) as [->|(-> & -> & ->)]; auto. by split.
    + clear. induction gs as [|g gs IH]; simpl; [done|]. apply sublist_app; [apply retain_sublist|done].
  - assert (forall l, l `sublist_of` g -> newest k m l = None) as Hnone.
    { intros l Hl. apply newest_outside, Forall_forall. intros r Hr E. unfold keyed in Hk. rewrite Forall_forall in Hk.
      eapply elem_of_sublist in Hr; [|exact Hl]. apply Hk in Hr. congruence. }
    rewrite (Hnone g) by done. rewrite (Hnone (retain true mk bottom g)) by apply retain_sublist. simpl. by apply IH.
Qed.

(** *** Which records are retained *)

(** The versions above [minKeepSeq]; of those at or below it the newest of each
    key; but no tombstone at or below it that is the newest version of its key,
    at the bottom. *)
Definition retained (minKeepSeq : N) (isBottommost : bool) (l : list Record) (r : Record) : Prop :=
  r ∈ l /\
  ((minKeepSeq < Seq r)%N \/ forall s, s ∈ l -> Key s = Key r -> (Seq s <= minKeepSeq)%N -> (Seq s <= Seq r)%N) /\
  ~ (isBottommost = true /\ Typ r = TypeTombstone /\ (Seq r <= minKeepSeq)%N /\
     forall s, s ∈ l -> Key s = Key r -> (Seq s <= Seq r)%N).

Lemma retained_perm mk bottom l l' r : l ≡ₚ l' -> retained mk bottom l r <-> retained mk bottom l' r.
Proof. intros Hp. unfold retained. by setoid_rewrite Hp. Qed.

(** In a group the versions come in descending order. *)
Lemma group_desc k r g : keyed k (r :: g) -> sorted_records (r :: g) -> sorted_records g /\ forall s, s ∈ g -> (Seq s < Seq r)%N.
Proof.
  intros [Hk Hg]%Forall_cons [Hs Hr]%sorted_records_cons. split; [done|]. intros s Hin. unfold keyed in Hg.
  rewrite Forall_forall in Hg, Hr. destruct (Hr s Hin) as [H|[_ H]]; [|done]. rewrite Hk, (Hg s Hin) in H. border.
Qed.

Lemma retain_false_elem mk bottom k g r :
  keyed k g -> sorted_records g ->
  r ∈ Merge.retain false mk bottom g <->
    r ∈ g /\ ((mk < Seq r)%N \/ forall s, s ∈ g -> (Seq s <= mk)%N -> (Seq s <= Seq r)%N).
Proof.
  intros Hk. induction g as [|x g IH]; intros Hs; cbn [Merge.retain andb]; [by rewrite elem_of_nil; naive_solver|].
  destruct (group_desc k x g Hk Hs) as [Hs' Hlt]. apply Forall_cons in Hk as [_ Hk].
  rewrite elem_of_cons. setoid_rewrite elem_of_cons. destruct (N.leb_spec (Seq x) mk) as [Hle|Hgt].
  - split.
    + intros [->|Hn]; [|by apply not_elem_of_nil in Hn]. split; [by left|]. right. intros s [->|Hin] _; [done|].
      specialize (Hlt s Hin). lia.
    + intros [[->|Hin] Hr]; [by left|]. specialize (Hlt r Hin). destruct Hr as [Hr|Hr]; [lia|]. specialize (Hr x (or_introl eq_refl) Hle). lia.
  - rewrite (IH Hk Hs'). split.
    + intros [->|[Hin Hr]]; [split; [by left|by left]|]. split; [by right|]. destruct Hr as [Hr|Hr]; [by left|right].
      intros s [->|Hs2] Hle; [lia|by apply Hr].
    + intros [[->|Hin] Hr]; [by left|]. right. split; [done|]. destruct Hr as [Hr|Hr]; [by left|right]. auto.
Qed.

Lemma retain_elem mk bottom k g r :
  keyed k g -> sorted_records g -> r ∈ Merge.retain true mk bottom g <-> retained mk bottom g r.
Proof.
  intros Hk Hs. assert (retained mk bottom g r <-> r ∈ Merge.retain false mk bottom g /\
    ~ (bottom = true /\ Typ r = TypeTombstone /\ (Seq r <= mk)%N /\ forall s, s ∈ g -> (Seq s <= Seq r)%N)) as ->.
  { rewrite (retain_false_elem mk bottom k g r Hk Hs). unfold retained. unfold keyed in Hk. rewrite Forall_forall in Hk.
    assert (forall s, s ∈ g -> r ∈ g -> Key s = Key r) as HK by (intros s H1 H2; by rewrite (Hk s H1), (Hk r H2)).
    split.
    - intros (Hr & H1 & H2). split; [split; [done|]|].
      + destruct H1 as [H1|H1]; [by left|right]. intros s Hin. apply H1; [done|by apply HK].
      + intros (B1 & B2 & B3 & B4). apply H2. split_and!; [done..|]. intros s Hin _. by apply B4.
    - intros [[Hr H1] H2]. split_and!; [done| |].
      + destruct H1 as [H1|H1]; [by left|right; auto].
      + intros (B1 & B2 & B3 & B4). apply H2. split_and!; [done..|]. intros s Hin. apply B4; [done|by apply HK]. }
  destruct g as [|x g]; [cbn; rewrite elem_of_nil; tauto|]. destruct (group_desc k x g Hk Hs) as [_ Hlt].
  destruct (bottom && bool_decide (Typ x = TypeTombstone) && (Seq x <=? mk)%N) eqn:E.
  - rewrite (retain_false_elem mk bottom k _ r Hk Hs). cbn [Merge.retain andb]. rewrite E.
    rewrite !andb_true_iff, bool_decide_eq_true, N.leb_le in E. destruct E as [[Hb Ht] Hle].
    split; [by intros ?%not_elem_of_nil|]. setoid_rewrite elem_of_cons. intros [[[->|Hin] Hr] Hn]; exfalso.
    + apply Hn. split_and!; [done..|]. intros s [->|Hin]; [done|]. specialize (Hlt s Hin). lia.
    + specialize (Hlt r Hin). destruct Hr as [Hr|Hr]; [lia|]. specialize (Hr x (or_introl eq_refl) Hle). lia.
  - cbn [Merge.retain andb]. rewrite E. split; [|tauto]. intros Hr. split; [done|]. intros (-> & Ht & Hle & Hmax).
    assert (r = x) as ->.
    { change (r ∈ Merge.retain false mk true (x :: g)) in Hr. eapply elem_of_sublist in Hr; [|apply retain_sublist].
      apply elem_of_cons in Hr as [->|Hin]; [done|]. specialize (Hlt r Hin). specialize (Hmax x ltac:(by left)). lia. }
    rewrite bool_decide_true, (proj2 (N.leb_le _ _)) in E by done. done.
Qed.

Lemma retained_elem mk bottom gs r :
  grouped gs -> Forall sorted_records gs ->
  r ∈ concat (map (Merge.retain true mk bottom) gs) <-> retained mk bottom (concat gs) r.
Proof.
  intros Hg. induction Hg as [|k g gs Hne Hk Hg IH Hlt]; intros Hs; [unfold retained; cbn; rewrite elem_of_nil; tauto|].
  apply Forall_cons in Hs as [Hs Hss]. cbn [map concat]. rewrite elem_of_app, (retain_elem mk bottom k g r Hk Hs), (IH Hss).
  unfold keyed in Hk. rewrite Forall_forall in Hk, Hlt.
  assert (forall s t, s ∈ g -> t ∈ concat gs -> Key s <> Key t) as Hne'.
  { intros s t H1%Hk H2%Hlt E. rewrite <- E, H1 in H2. border. }
  unfold retained. setoid_rewrite elem_of_app. split.
  - intros [(H1 & H2 & H3)|(H1 & H2 & H3)]; (split_and!; [auto|destruct H2 as [H2|H2]; [by left|right]|]).
    + intros s [Hin|Hin] Hks; [auto|by destruct (Hne' r s)].
    + intros (B1 & B2 & B3 & B4). apply H3. split_and!; auto.
    + intros s [Hin|Hin] Hks; [by destruct (Hne' s r)|auto].
    + intros (B1 & B2 & B3 & B4). apply H3. split_and!; auto.
  - intros ([H1|H1] & H2 & H3); [left|right]; (split_and!; [done|destruct H2 as [H2|H2]; [by left|right; auto]|]);
      intros (B1 & B2 & B3 & B4); apply H3; (split_and!; [done..|]); intros s [Hin|Hin] Hks; auto; exfalso; by eapply Hne'.
Qed.

(** ** The heap of candidates *)

Lemma merge_less_lt a b : merge_less a b = true <-> rec_lt (mi_rec a) (mi_rec b).
Proof.
  unfold merge_less, rec_lt. destruct (bytes_compare (Key (mi_rec a)) (Key (mi_rec b))) eqn:E.
  - apply bytes_compare_eq in E. rewrite E, N.ltb_lt. split; [auto|]. intros [H|[_ H]]; [border|done].
  - split; auto.
  - assert (Key (mi_rec b) <b Key (mi_rec a)) as Hgt by (unfold bytes_lt; by rewrite bytes_compare_antisym, E).
    split; [done|]. intros [H|[H _]]; [border|]. rewrite H in Hgt. border.
Qed.

Lemma merge_less_le a b : Heap.le merge_less a b <-> ~ rec_lt (mi_rec b) (mi_rec a).
Proof. unfold Heap.le. rewrite <- merge_less_lt. by destruct (merge_less b a). Qed.

Lemma merge_less_asym a b : merge_less a b = true -> merge_less b a = false.
Proof.
  rewrite merge_less_lt. intros H. change (Heap.le merge_less a b). rewrite merge_less_le. intros H'.
  apply (irreflexivity rec_lt (mi_rec a)). by etransitivity.
Qed.

Lemma merge_le_trans a b c : Heap.le merge_less a b -> Heap.le merge_less b c -> Heap.le merge_less a c.
Proof.
  rewrite !merge_less_le. intros Hab Hbc Hca.
  destruct (rec_lt_trichotomy (mi_rec a) (mi_rec b)) as [H|[[Ek Es]|H]]; [|clear Hab|done].
  - apply Hbc. by etransitivity.
  - apply Hbc. unfold rec_lt in *. by rewrite <- Ek, <- Es.
Qed.

Lemma merge_le_key a b : Heap.le merge_less a b -> Key (mi_rec a) <=b Key (mi_rec b).
Proof.
  rewrite merge_less_le. intros H. destruct (rec_lt_trichotomy (mi_rec a) (mi_rec b)) as [Hr|[[E _]|Hr]]; [|rewrite E; border|done].
  by apply rec_lt_key.
Qed.

Section candidates.
Context `{FL : Flate}.

(** Iterator [it] will return exactly [rs]. *)
Fixpoint yields (it : Iterator) (rs : list Record) : Prop :=
  match rs with
  | [] => reads (Iterator_Next it) (None, it)
  | r :: rs' => exists it', reads (Iterator_Next it) (Some r, it') /\ yields it' rs'
  end.

(** The records not yet merged. *)
Definition pool (h : list mergeItem) (rests : list (list Record)) : list Record :=
  (mi_rec <$> h) ++ concat rests.

(** The heap is one, iterator [i] yields [rests !! i], and except for the
    iterators in [E] an iterator with something left has its predecessor in the
    heap. *)
Record minv (E : nat -> Prop) (h : list mergeItem) (iters : list Iterator) (rests : list (list Record)) : Prop := {
  minv_heap : is_heap merge_less h;
  minv_yields : Forall2 yields iters rests;
  minv_sorted : Forall sorted_records rests;
  minv_index : Forall (fun x => mi_iter x < length iters) h;
  minv_cover : forall i r rest, rests !! i = Some (r :: rest) -> E i \/
                 exists x, x ∈ h /\ mi_iter x = i /\ rec_lt (mi_rec x) r }.

Lemma concat_insert_cons (rests : list (list Record)) i r rest :
  rests !! i = Some (r :: rest) -> concat rests ≡ₚ r :: concat (<[i := rest]> rests).
Proof.
  revert i; induction rests as [|l rests IH]; intros [|i] Hi; simplify_eq/=; [done|].
  rewrite (IH i Hi). by rewrite <- Permutation_middle.
Qed.

Lemma reads_refill E text h iters rests i :
  minv E h iters rests -> i < length iters ->
  exists h' iters' rests', reads (refill text h iters i) (h', iters') /\
    minv (fun j => E j /\ j <> i) h' iters' rests' /\ pool h' rests' ≡ₚ pool h rests /\
    length iters' = length iters.
Proof.
  intros [Hh Hy Hs Hx Hc] Hi. destruct (lookup_lt_is_Some_2 iters i Hi) as [it Hit].
  destruct (Forall2_lookup_l _ _ _ _ _ Hy Hit) as (rest & Hrest & Hyi).
  unfold refill. rewrite Hit. cbn [of_option]. destruct rest as [|r rest]; simpl in Hyi.
  - exists h, (<[i := it]> iters), rests. split_and!.
    + eapply reads_bind; [apply reads_ret|]. eapply reads_bind; [by apply reads_wrap|]. apply reads_ret.
    + rewrite list_insert_id by done. constructor; try done. intros j r' rest' Hj.
      destruct (Hc j r' rest' Hj) as [HE|?]; [|auto]. left. split; [done|]. intros ->. by rewrite Hrest in Hj.
    + done.
    + by rewrite length_insert.
  - destruct Hyi as (it' & Hn & Hyi). exists (Push merge_less h (MkItem r i)), (<[i := it']> iters), (<[i := rest]> rests).
    assert (Hs' : sorted_records (r :: rest)) by (rewrite Forall_lookup in Hs; by apply (Hs i)).
    split_and!.
    + eapply reads_bind; [apply reads_ret|]. eapply reads_bind; [by apply reads_wrap|]. apply reads_ret.
    + constructor.
      * apply Push_heap; [apply merge_le_trans|apply merge_less_asym|done].
      * by apply Forall2_insert.
      * apply Forall_insert; [done|]. by apply sorted_records_cons in Hs' as [? _].
      * rewrite Push_perm. rewrite length_insert. by constructor.
      * intros j r' rest' Hj. destruct (decide (j = i)) as [->|Hne].
        -- right. rewrite list_lookup_insert_eq in Hj by (by eapply lookup_lt_Some). injection Hj as ->.
           exists (MkItem r i). rewrite Push_perm. split_and!; [left|done|].
           apply sorted_records_cons in Hs' as [_ Hr]. by apply Forall_cons in Hr as [? _].
        -- rewrite list_lookup_insert_ne in Hj by done. destruct (Hc j r' rest' Hj) as [?|(x & Hin & Hxi & Hlt)]; [auto|].
           right. exists x. rewrite Push_perm. split_and!; [by right|done|done].
    + unfold pool. rewrite Push_perm, (concat_insert_cons rests i r rest) by done. simpl.
      by rewrite <- Permutation_middle.
    + by rewrite length_insert.
Qed.

(** An element of the pool is in the heap or behind an element of it. *)
Lemma pool_cover h iters rests r :
  minv (fun _ => False) h iters rests -> r ∈ pool h rests -> exists x, x ∈ h /\ Key (mi_rec x) <=b Key r.
Proof.
  intros [Hh Hy Hs Hx Hc] [Hr|Hr]%elem_of_app.
  - apply list_elem_of_fmap in Hr as (x & -> & Hin). exists x. split; [done|border].
  - apply list_elem_of_In, in_concat in Hr as (rest & Hrest%list_elem_of_In & Hr%list_elem_of_In).
    apply list_elem_of_lookup in Hrest as [i Hi]. destruct rest as [|r0 rest]; [by apply not_elem_of_nil in Hr|].
    destruct (Hc i r0 rest Hi) as [[]|(x & Hin & _ & Hlt)]. exists x. split; [done|].
    apply rec_lt_key in Hlt. apply elem_of_cons in Hr as [->|Hr]; [done|].
    rewrite Forall_lookup in Hs. specialize (Hs i _ Hi). apply sorted_records_cons in Hs as [_ Hs].
    rewrite Forall_forall in Hs. specialize (rec_lt_key _ _ (Hs r Hr)). border.
Qed.

Lemma pool_min h iters rests x0 h0 :
  minv (fun _ => False) h iters rests -> h = x0 :: h0 -> Forall (fun r => Key (mi_rec x0) <=b Key r) (pool h rests).
Proof.
  intros Hi Eh. apply Forall_forall. intros r Hr. destruct (pool_cover _ _ _ _ Hi Hr) as (x & Hin & Hle).
  assert (Key (mi_rec x0) <=b Key (mi_rec x)); [|border]. apply merge_le_key.
  eapply heap_min; [apply merge_le_trans|apply merge_less_asym|apply Hi|by subst|done].
Qed.

Lemma pool_empty iters rests : minv (fun _ => False) [] iters rests -> pool [] rests = [].
Proof.
  intros Hi. destruct (pool [] rests) as [|r l] eqn:E; [done|].
  destruct (pool_cover _ _ _ r Hi) as (x & Hin & _); [rewrite E; by left|]. by apply not_elem_of_nil in Hin.
Qed.

(** Taking the least candidate and refilling from its iterator. *)
Lemma reads_step text h iters rests x0 h0 :
  minv (fun _ => False) h iters rests -> h = x0 :: h0 ->
  exists h1 h2 iters2 rests2, Pop merge_less h = Some (x0, h1) /\
    reads (refill text h1 iters (mi_iter x0)) (h2, iters2) /\
    minv (fun _ => False) h2 iters2 rests2 /\ pool h rests ≡ₚ mi_rec x0 :: pool h2 rests2.
Proof.
  intros Hi Eh. pose proof Hi as [Hh Hy Hs Hx Hc].
  destruct (Pop_spec merge_less merge_le_trans merge_less_asym h x0 h0 Hh Eh) as (h1 & Hpop & Hperm & Hh1 & _).
  assert (minv (fun j => j = mi_iter x0) h1 iters rests) as Hi1.
  { constructor; try done.
    - rewrite Hperm in Hx. by apply Forall_cons in Hx as [_ ?].
    - intros i r rest Hir. destruct (Hc i r rest Hir) as [[]|(x & Hin & Hxi & Hlt)].
      rewrite Hperm in Hin. apply elem_of_cons in Hin as [->|Hin]; [by left|]. right. eauto. }
  destruct (reads_refill _ text h1 iters rests (mi_iter x0) Hi1) as (h2 & iters2 & rests2 & Hr & Hi2 & Hp & _).
  { rewrite Forall_forall in Hx. apply Hx. subst. by left. }
  exists h1, h2, iters2, rests2. split_and!; [done|done| |].
  - destruct Hi2 as [? ? ? ? Hc2]. constructor; try done. intros i r rest Hir.
    destruct (Hc2 i r rest Hir) as [[-> ?]|?]; [done|auto].
  - rewrite Hp. unfold pool. by rewrite Hperm.
Qed.

Lemma reads_gather fuel k group h iters rests :
  minv (fun _ => False) h iters rests -> length (pool h rests) < fuel ->
  Forall (fun r => k <=b Key r) (pool h rests) ->
  exists g h' iters' rests', reads (gather fuel k group h iters) (group ++ g, h', iters') /\
    minv (fun _ => False) h' iters' rests' /\ pool h rests ≡ₚ g ++ pool h' rests' /\ keyed k g /\
    Forall (fun r => k <b Key r) (pool h' rests').
Proof.
  revert group h iters rests; induction fuel as [|fuel IH]; intros group h iters rests Hi Hf Hge; [lia|].
  cbn [gather]. destruct h as [|root h0] eqn:Eh.
  { exists [], [], iters, rests. rewrite app_nil_r. split_and!; [apply reads_ret|done|done|constructor|].
    by rewrite (pool_empty _ _ Hi). }
  rewrite <- Eh in *. destruct (bytes_eqb (Key (mi_rec root)) k) eqn:E.
  - apply bytes_eqb_eq in E.
    destruct (reads_step "sstable: merge: read error" h iters rests root h0 Hi Eh)
      as (h1 & h2 & iters2 & rests2 & Hpop & Hr & Hi2 & Hp).
    rewrite Hp in Hge, Hf. apply Forall_cons in Hge as [_ Hge]. simpl in Hf.
    destruct (IH (group ++ [mi_rec root]) h2 iters2 rests2 Hi2 ltac:(lia) Hge) as (g & h3 & iters3 & rests3 & Hg & Hi3 & Hp3 & Hk & Hlt).
    exists (mi_rec root :: g), h3, iters3, rests3. split_and!; [|done| |by constructor|done].
    + rewrite Hpop. cbn [of_option]. eapply reads_bind; [apply reads_ret|]. cbv beta iota.
      eapply reads_bind; [exact Hr|]. cbv beta iota. replace (group ++ mi_rec root :: g) with ((group ++ [mi_rec root]) ++ g) by (by rewrite <- app_assoc).
      exact Hg.
    + by rewrite Hp, Hp3.
  - apply bytes_eqb_ne in E. exists [], h, iters, rests. rewrite app_nil_r.
    split_and!; [apply reads_ret|done|done|constructor|].
    pose proof (pool_min _ _ _ _ _ Hi Eh) as Hmin. rewrite Forall_forall in Hmin, Hge |- *.
    intros r Hr. specialize (Hmin r Hr).
    assert (k <=b Key (mi_rec root)) as Hk by (apply Hge; unfold pool; subst h; by left).
    apply bytes_le_lteq in Hk as [Hk|Hk]; [border|congruence].
Qed.

Lemma reads_merge_loop fuel mk bottom h iters rests merged :
  minv (fun _ => False) h iters rests -> length (pool h rests) < fuel ->
  exists gs, reads (merge_loop fuel mk bottom h iters merged)
               (merged ++ concat (map (fun g => retain true mk bottom (sort_desc g)) gs)) /\
    grouped gs /\ concat gs ≡ₚ pool h rests.
Proof.
  revert h iters rests merged; induction fuel as [|fuel IH]; intros h iters rests merged Hi Hf; [lia|].
  cbn [merge_loop]. destruct h as [|x0 h0] eqn:Eh.
  { exists []. rewrite app_nil_r. split_and!; [apply reads_ret|constructor|]. by rewrite (pool_empty _ _ Hi). }
  rewrite <- Eh in *.
  destruct (reads_step "sstable: merge: read error" h iters rests x0 h0 Hi Eh)
    as (h1 & h2 & iters2 & rests2 & Hpop & Hr & Hi2 & Hp).
  pose proof (pool_min _ _ _ _ _ Hi Eh) as Hmin. rewrite Hp in Hmin, Hf. apply Forall_cons in Hmin as [_ Hmin].
  simpl in Hf.
  destruct (reads_gather fuel (Key (mi_rec x0)) [mi_rec x0] h2 iters2 rests2 Hi2 ltac:(lia) Hmin)
    as (g & h3 & iters3 & rests3 & Hg & Hi3 & Hp3 & Hk & Hlt).
  set (G := [mi_rec x0] ++ g) in *.
  destruct (IH h3 iters3 rests3 (merged ++ retain true mk bottom (sort_desc G)) Hi3) as (gs & Hgs & Hgr & Hperm).
  { rewrite Hp3, length_app in Hf. lia. }
  exists (G :: gs). split_and!.
  - rewrite Hpop. cbn [of_option]. eapply reads_bind; [apply reads_ret|]. cbv beta iota.
    eapply reads_bind; [exact Hr|]. cbv beta iota. eapply reads_bind; [exact Hg|]. cbv beta iota.
    cbn [map concat]. rewrite (app_assoc merged). exact Hgs.
  - apply grouped_cons with (Key (mi_rec x0)); [done|by constructor|done|by rewrite Hperm].
  - cbn [concat]. rewrite Hperm, Hp, Hp3. done.
Qed.

Lemma reads_fill k i h iters rests :
  minv (fun j => i <= j) h iters rests -> i + k = length iters ->
  exists h' iters' rests', reads (fill k i h iters) (h', iters') /\
    minv (fun _ => False) h' iters' rests' /\ pool h' rests' ≡ₚ pool h rests.
Proof.
  revert i h iters rests; induction k as [|k IH]; intros i h iters rests Hi Hk; cbn [fill].
  - exists h, iters, rests. split_and!; [apply reads_ret| |done].
    destruct Hi as [? Hy ? ? Hc]. constructor; try done. intros j r rest Hj.
    destruct (Hc j r rest Hj) as [Hle|?]; [|auto]. apply lookup_lt_Some in Hj.
    apply Forall2_length in Hy. lia.
  - destruct (reads_refill _ "sstable: merge: initial read" h iters rests i Hi ltac:(lia))
      as (h1 & iters1 & rests1 & Hr & Hi1 & Hp & Hl).
    destruct (IH (S i) h1 iters1 rests1) as (h2 & iters2 & rests2 & Hf & Hi2 & Hp2); [|lia|].
    { destruct Hi1 as [? ? ? ? Hc]. constructor; try done. intros j r rest Hj.
      destruct (Hc j r rest Hj) as [[Hle Hne]|?]; [left; lia|auto]. }
    exists h2, iters2, rests2. split_and!; [|done|by rewrite Hp2].
    eapply reads_bind; [exact Hr|]. exact Hf.
Qed.
End candidates.

(** ** [Merge] computes [merge_spec] *)

Definition version (r : Record) : bytes * N := (Key r, Seq r).

(** No version of a key occurs twice in the inputs. *)
Definition disjoint_versions (rss : list (list Record)) : Prop := NoDup (version <$> concat rss).

Lemma disjoint_unique l : NoDup (version <$> l) -> NoDup l /\ unique_versions l.
Proof.
  intros Hnd. split; [by eapply NoDup_fmap_1|]. intros r s Hr Hs Hk Hq.
  apply list_elem_of_lookup in Hr as [i Hi]. apply list_elem_of_lookup in Hs as [j Hj].
  assert (i = j) as ->; [|by simplify_eq].
  eapply NoDup_lookup; [exact Hnd|by rewrite list_lookup_fmap, Hi|].
  rewrite list_lookup_fmap, Hj. simpl. unfold version. by rewrite Hk, Hq.
Qed.

Lemma rec_le_total : Total rec_le.
Proof.
  intros r s. unfold rec_le. destruct (rec_lt_dec s r) as [H|H]; [right|by left].
  intros H'. apply (irreflexivity rec_lt r). by etransitivity.
Qed.

Lemma rec_le_trans : Transitive rec_le.
Proof.
  intros r s t Hrs Hst Htr.
  destruct (rec_lt_trichotomy r s) as [H|[[Ek Es]|H]]; [| |done].
  - apply Hst. by etransitivity.
  - apply Hst. unfold rec_lt in *. by rewrite <- Ek, <- Es.
Qed.

Lemma merge_sort_records l : NoDup (version <$> l) -> sorted_records (merge_sort rec_le l).
Proof.
  intros Hnd. rewrite <- (merge_sort_Permutation rec_le l) in Hnd.
  pose proof (@StronglySorted_merge_sort _ rec_le _ rec_le_trans rec_le_total l) as Hs.
  induction Hs as [|r l' Hl IH Hr]; [constructor|].
  apply NoDup_cons in Hnd as [Hnot Hnd]. constructor; [by apply IH|].
  rewrite Forall_forall in Hr |- *. intros s Hin. specialize (Hr s Hin). unfold rec_le in Hr.
  destruct (rec_lt_trichotomy r s) as [H|[[Ek Es]|H]]; [done| |done].
  destruct Hnot. apply list_elem_of_fmap. exists s. unfold version. by rewrite Ek, Es.
Qed.

(** The groups the loop forms determine the outcome. *)
Lemma groups_spec mk bottom gs rss :
  grouped gs -> concat gs ≡ₚ concat rss -> disjoint_versions rss ->
  Forall sorted_records (map sort_desc gs) /\ grouped (map sort_desc gs) /\
  concat (map sort_desc gs) = merge_sort rec_le (concat rss) /\
  concat (map (fun g => retain true mk bottom (sort_desc g)) gs) = merge_spec mk bottom rss.
Proof.
  intros Hg Hp Hd. unfold disjoint_versions in Hd. assert (Hd' := Hd). rewrite <- Hp in Hd.
  destruct (grouped_perm gs sort_desc sort_desc_perm Hg) as [Hg' Hp'].
  assert (Forall sorted_records (map sort_desc gs)) as Hs.
  { clear Hp Hp' Hg' Hd'. induction Hg as [|k g gs Hne Hk Hg IH Hlt]; [constructor|]. simpl in *.
    rewrite fmap_app in Hd. apply NoDup_app in Hd as (Hd1 & _ & Hd2).
    constructor; [|by apply IH]. destruct (disjoint_unique g Hd1). by apply group_sorted with k. }
  assert (concat (map sort_desc gs) = merge_sort rec_le (concat rss)) as E.
  { apply sorted_records_perm; [by apply concat_sorted|by apply merge_sort_records|].
    by rewrite Hp', Hp, merge_sort_Permutation. }
  split_and!; [done|done|done|]. unfold merge_spec. rewrite <- E, compact_concat by done.
  by rewrite map_map.
Qed.

Lemma merge_spec_newest mk bottom gs rss k m :
  grouped gs -> concat gs ≡ₚ concat rss -> disjoint_versions rss -> (mk <= m)%N ->
  live (newest k m (merge_spec mk bottom rss)) = live (newest k m (concat rss)) /\
  (bottom = false -> newest k m (merge_spec mk bottom rss) = newest k m (concat rss)).
Proof.
  intros Hg Hp Hd Hm. destruct (groups_spec mk bottom gs rss Hg Hp Hd) as (Hs & Hg' & E & <-).
  rewrite <- (newest_perm k m (merge_sort rec_le (concat rss)) (concat rss)).
  - rewrite <- E. pose proof (retained_newest mk bottom (map sort_desc gs) k m Hm Hg' Hs) as H.
    by rewrite map_map in H.
  - by apply disjoint_unique.
  - apply merge_sort_Permutation.
Qed.

Lemma merge_spec_sorted mk bottom gs rss :
  grouped gs -> concat gs ≡ₚ concat rss -> disjoint_versions rss ->
  sorted_records (merge_spec mk bottom rss) /\ merge_spec mk bottom rss ⊆ concat rss.
Proof.
  intros Hg Hp Hd. destruct (groups_spec mk bottom gs rss Hg Hp Hd) as (Hs & Hg' & E & <-).
  assert (concat (map (fun g => retain true mk bottom (sort_desc g)) gs) `sublist_of` concat (map sort_desc gs)) as Hsub.
  { clear. induction gs as [|g gs IH]; simpl; [done|]. apply sublist_app; [apply retain_sublist|done]. }
  split.
  - eapply StronglySorted_sublist; [exact Hsub|]. by apply concat_sorted.
  - intros r Hr. eapply elem_of_sublist in Hr; [|exact Hsub]. rewrite E in Hr.
    by rewrite merge_sort_Permutation in Hr.
Qed.

(** A table whose file is in place. *)
Definition on_disk `{Bloom.FloatMath} `{Flate} (fs : gmap string file) (t : Table) (rs : list Record) : Prop :=
  sorted_records rs /\ exists compress f n, fs !! t_path t = Some (MkFile (encode_table compress rs f) n) /\
    t_dataBlockSz t = Z.of_nat (length (data_block compress rs)) /\
    Forall (representable compress) rs /\ (N.of_nat (length (encode_table compress rs f)) < 2 ^ 48)%N.

(** ** The errors of the merge

    [ErrEmptyMerge] is the one error of [Merge] a compaction treats as success:
    no other error, however wrapped, is taken for it. *)

Definition not_empty_merge (e : error) : Prop := errors_Is e ErrEmptyMerge = false.

#[export] Instance not_empty_merge_class : ErrorClass not_empty_merge.
Proof.
  split.
  - intros t e He. unfold not_empty_merge in *. cbn. by rewrite He.
  - intros e He. repeat (apply elem_of_cons in He as [->|He]; [reflexivity|]). inversion He.
Qed.

#[local] Hint Resolve not_empty_merge_class : raises.

Section merge_spec.
Context `{FM : Bloom.FloatMath} `{FL : Flate} `{HFL : !FlateLaws FL}.

Lemma yields_block compress rs post pos :
  Forall (representable compress) rs -> (0 <= pos)%Z ->
  (pos + Z.of_nat (length (data_block compress rs)) < 2 ^ 63)%Z ->
  yields (MkIter (data_block compress rs ++ post) pos (pos + Z.of_nat (length (data_block compress rs)))) rs.
Proof.
  intros Hr. revert pos. induction Hr as [|r rs Hrep Hr IH]; intros pos H0 Hl; cbn [yields].
  - unfold Iterator_Next. cbn [it_limit it_pos]. rewrite (proj2 (Z.leb_le _ _)) by (simpl; lia). apply reads_ret.
  - rewrite data_block_cons in *. rewrite length_app in *. rewrite <- app_assoc.
    assert (17 <= length (rec_bytes compress r)).
    { unfold rec_bytes, rec_header. rewrite !length_app, !length_le_bytes. simpl. lia. }
    eexists. split; [apply reads_Iterator_Next; [done|done|lia|lia]|].
    replace (pos + Z.of_nat (length (rec_bytes compress r) + length (data_block compress rs)))%Z
      with (pos + Z.of_nat (length (rec_bytes compress r)) + Z.of_nat (length (data_block compress rs)))%Z by lia.
    apply IH; lia.
Qed.

Lemma triple_NewIterator fs t rs :
  on_disk fs t rs -> triple (files_are fs) (NewIterator t) (fun it w => yields it rs /\ files_are fs w).
Proof.
  intros (_ & compress & f & n & Hf & Hsz & Hr & Hl). unfold NewIterator.
  eapply triple_bind; [apply triple_wrap; by apply (triple_os_Open _ _ _ Hf)|].
  intros d. apply triple_pure. intros ->. apply triple_ret. intros w Hw. split; [|done].
  rewrite Hsz. cbn [f_data]. unfold encode_table in Hl |- *. cbv zeta in Hl |- *. rewrite length_app in Hl.
  rewrite <- (Z.add_0_l (Z.of_nat _)). apply yields_block; [done|lia|lia].
Qed.

Lemma triple_close_all (P : world -> Prop) iters :
  (forall fs fl, P (MkWorld fs fl) -> P (MkWorld fs (tail fl))) -> triple P (close_all iters) (fun _ => P).
Proof.
  intros HP. induction iters as [|it iters IH]; simpl; [by apply triple_ret|].
  eapply triple_bind with (fun _ => P); [|intros _; exact IH].
  intros [fs fl] Hw. unfold Iterator_Close. io_unfold. specialize (HP _ _ Hw).
  destruct fl as [|[?|] fl]; simpl in *; split; done.
Qed.

Lemma close_all_no_panic iters w : (close_all iters w).1 <> Panic.
Proof.
  pose proof (triple_close_all (fun _ => True) iters ltac:(done) w I) as H.
  by destruct (close_all iters w) as [[?|?|] ?].
Qed.

Lemma triple_open_iters fs tables rss opened rss0 :
  Forall2 (on_disk fs) tables rss -> Forall2 yields opened rss0 ->
  triple (files_are fs) (open_iters tables opened) (fun its w => Forall2 yields its (rss0 ++ rss) /\ files_are fs w).
Proof.
  intros Ht. revert opened rss0. induction Ht as [|t rs tables rss Hrs Ht IH]; intros opened rss0 Ho; simpl.
  - apply triple_ret. intros w Hw. by rewrite app_nil_r.
  - eapply triple_bind; [apply triple_on_error; [by apply triple_wrap, triple_NewIterator|apply close_all_no_panic]|].
    intros it. apply triple_pure. intros Hit.
    replace (rss0 ++ rs :: rss) with ((rss0 ++ [rs]) ++ rss) by (by rewrite <- app_assoc).
    apply IH. by apply Forall2_app; [|constructor].
Qed.

(** The part of the body before [Write]. *)
Lemma reads_merged fuel mk bottom iters rss :
  Forall2 yields iters rss -> Forall sorted_records rss -> length (concat rss) < fuel ->
  exists gs h its, reads (fill (length iters) 0 [] iters) (h, its) /\
    reads (merge_loop fuel mk bottom h its []) (concat (map (fun g => retain true mk bottom (sort_desc g)) gs)) /\
    grouped gs /\ concat gs ≡ₚ concat rss.
Proof.
  intros Hy Hs Hf.
  destruct (reads_fill (length iters) 0 [] iters rss) as (h & its & rests & Hfill & Hi & Hp); [|done|].
  { constructor; [apply is_heap_nil|done|done|constructor|]. intros i r rest _. left. lia. }
  destruct (reads_merge_loop fuel mk bottom h its rests [] Hi) as (gs & Hm & Hg & Hperm).
  { rewrite Hp. exact Hf. }
  exists gs, h, its. split_and!; [done|done|done|]. by rewrite Hperm, Hp.
Qed.

(** ** Nothing but the output is written *)

Lemma touches_decompress P v : touches P (decompressValue v).
Proof. unfold decompressValue. frame. Qed.
#[local] Hint Resolve touches_decompress : io.

Lemma touches_Iterator_Next P it : touches P (Iterator_Next it).
Proof. unfold Iterator_Next. frame. Qed.
#[local] Hint Resolve touches_Iterator_Next : io.

Lemma touches_refill P text h iters i : touches P (refill text h iters i).
Proof. unfold refill. frame. Qed.
#[local] Hint Resolve touches_refill : io.

Lemma touches_fill P k i h iters : touches P (fill k i h iters).
Proof. revert i h iters; induction k as [|k IH]; intros i h iters; cbn [fill]; frame. Qed.

Lemma touches_gather P fuel k group h iters : touches P (gather fuel k group h iters).
Proof. revert group h iters; induction fuel as [|fuel IH]; intros group h iters; cbn [gather]; frame. Qed.
#[local] Hint Resolve touches_gather : io.

Lemma touches_merge_loop P fuel mk bottom h iters merged : touches P (merge_loop fuel mk bottom h iters merged).
Proof.
  revert h iters merged; induction fuel as [|fuel IH]; intros h iters merged; cbn [merge_loop]; frame.
Qed.

Lemma touches_close_all P iters : touches P (close_all iters).
Proof. induction iters as [|it iters IH]; simpl; [frame|]. unfold Iterator_Close. frame. Qed.
#[local] Hint Resolve touches_close_all touches_fill touches_merge_loop : io.

Lemma touches_open_iters P tables opened : touches P (open_iters tables opened).
Proof.
  revert opened; induction tables as [|t tables IH]; intros opened; simpl; [frame|].
  apply touches_bind; [unfold NewIterator; frame|]. intros it. apply IH.
Qed.

(** A computation that changes no file. *)
Lemma touches_none {A} (m : M A) w r w' :
  touches (fun _ => False) m -> m w = (r, w') -> w_files w' = w_files w.
Proof. intros Hm E. apply map_eq. intros q. apply (Hm _ _ _ E). by intros []. Qed.

Abbreviation fails m := (raises not_empty_merge m).

Ltac raise_own :=
  repeat first [ progress raise | match goal with |- raises _ (throw _) => apply raises_throw; reflexivity end ].

Lemma fails_decompress v : fails (decompressValue v).
Proof. unfold decompressValue. raise_own. Qed.
#[local] Hint Resolve fails_decompress : raises.

Lemma fails_Iterator_Next it : fails (Iterator_Next it).
Proof. unfold Iterator_Next. raise_own. Qed.
#[local] Hint Resolve fails_Iterator_Next : raises.

Lemma fails_write st b : fails (SSTable.write st b).
Proof.
  unfold SSTable.write. apply raises_bind; [|raise]. apply raises_wrap; [apply _|]. apply raises_or_throw; [apply _|raise|apply bufio_Write_error].
Qed.
#[local] Hint Resolve fails_write : raises.

Lemma fails_write_records nilEmpty compress rs pk ps f index st :
  fails (write_records nilEmpty compress rs pk ps f index st).
Proof.
  revert pk ps f index st. induction rs as [|r rs IH]; intros pk ps f index st; cbn [write_records]; raise_own.
Qed.

Lemma fails_write_index index st : fails (write_index index st).
Proof. revert st. induction index as [|ie index IH]; intros st; cbn [write_index]; raise_own. Qed.
#[local] Hint Resolve fails_write_records fails_write_index : raises.

Lemma fails_Write_body nilEmpty tmp rs compress : fails (Write_body nilEmpty tmp rs compress).
Proof.
  unfold Write_body. raise_own. apply raises_or_throw; [apply _|raise|apply bufio_Flush_error].
Qed.
#[local] Hint Resolve fails_Write_body : raises.

Lemma fails_Write nilEmpty path rs compress : fails (SSTable.Write nilEmpty path rs compress).
Proof. unfold SSTable.Write. raise_own. Qed.

Lemma fails_refill text h iters i : fails (refill text h iters i).
Proof. unfold refill. raise_own. Qed.
#[local] Hint Resolve fails_refill : raises.

Lemma fails_fill k i h iters : fails (fill k i h iters).
Proof. revert i h iters. induction k as [|k IH]; intros i h iters; cbn [fill]; raise_own. Qed.

Lemma fails_gather fuel key group h iters : fails (gather fuel key group h iters).
Proof. revert group h iters. induction fuel as [|fuel IH]; intros group h iters; cbn [gather]; raise_own. Qed.
#[local] Hint Resolve fails_fill fails_gather : raises.

Lemma fails_merge_loop fuel mk bottom h iters merged : fails (merge_loop fuel mk bottom h iters merged).
Proof. revert h iters merged. induction fuel as [|fuel IH]; intros h iters merged; cbn [merge_loop]; raise_own. Qed.

Lemma fails_open_iters ts opened : fails (open_iters ts opened).
Proof.
  revert opened. induction ts as [|t ts IH]; intros opened; cbn [open_iters]; [raise|].
  apply raises_bind; [|done]. apply raises_on_error, raises_wrap; [apply _|]. unfold NewIterator. raise.
Qed.
#[local] Hint Resolve fails_merge_loop fails_open_iters fails_Write : raises.

(** What is left of [Merge_body] when the records are merged. *)
Definition Write_merged (outPath : string) (compress : bool) (out : list Record) : M unit :=
  match out with [] => throw ErrEmptyMerge | _ => Write false outPath out compress end.

Lemma Merge_body_run fuel outPath mk bottom compress iters h its out w :
  reads (fill (length iters) 0 [] iters) (h, its) -> reads (merge_loop fuel mk bottom h its []) out ->
  (exists w', w_files w' = w_files w /\ (w_faults w = [] -> w_faults w' = []) /\
     Merge_body fuel outPath mk bottom compress iters w = Write_merged outPath compress out w') \/
  (exists e w', Merge_body fuel outPath mk bottom compress iters w = (Err e, w') /\
     w_files w' = w_files w /\ w_faults w <> [] /\ not_empty_merge e).
Proof.
  intros H1 H2. unfold Merge_body, bind.
  pose proof (H1 (w_files w) w eq_refl) as R1.
  destruct (fill (length iters) 0 [] iters w) as [[a|e|] w1] eqn:E1; [|right|by destruct R1].
  2: { exists e, w1. split_and!; [done|by apply (touches_none _ _ _ _ (touches_fill _ _ _ _ _) E1)|done|].
       by apply (fails_fill _ _ _ _ _ _ _ E1). }
  destruct R1 as [[-> Hw1] Hfl1].
  pose proof (H2 (w_files w1) w1 eq_refl) as R2.
  destruct (merge_loop _ _ _ h its [] w1) as [[a|e|] w2] eqn:E2; [|right|done].
  2: { exists e, w2. split_and!; [done| |auto|by apply (fails_merge_loop _ _ _ _ _ _ _ _ _ E2)].
       by rewrite (touches_none _ _ _ _ (touches_merge_loop _ _ _ _ _ _ _) E2). }
  destruct R2 as [[-> Hw2] Hfl2]. left. exists w2. split_and!; [congruence|auto|done].
Qed.

(** [Merge] is opening the inputs and [Write_merged] of what they hold. *)
Lemma Merge_run fuel tables rss outPath mk bottom compress w :
  tables <> [] -> Forall2 (on_disk (w_files w)) tables rss -> length (concat rss) < fuel ->
  (exists gs w0 r w1 w2, grouped gs /\ concat gs ≡ₚ concat rss /\
     w_files w0 = w_files w /\ (w_faults w = [] -> w_faults w0 = []) /\
     Write_merged outPath compress (concat (map (fun g => retain true mk bottom (sort_desc g)) gs)) w0 = (r, w1) /\
     w_files w2 = w_files w1 /\ (w_faults w1 = [] -> w_faults w2 = []) /\
     Merge fuel tables outPath mk bottom compress w = (r, w2)) \/
  (exists e w', Merge fuel tables outPath mk bottom compress w = (Err e, w') /\
     w_files w' = w_files w /\ w_faults w <> [] /\ not_empty_merge e).
Proof.
  intros Hne Ht Hf.
  assert (Forall sorted_records rss) as Hs.
  { clear -Ht. induction Ht as [|t rs tables rss [Hs _] Ht IH]; by constructor. }
  pose proof (triple_open_iters (w_files w) tables rss [] [] Ht ltac:(constructor) w eq_refl) as HO.
  unfold Merge. destruct tables as [|t0 tables]; [done|].
  destruct (open_iters (t0 :: tables) [] w) as [[iters|e|] w1] eqn:E1; [| |done].
  2: { rewrite !(bind_Err _ _ _ _ _ E1). right. exists e, w1.
       split_and!; [done|by apply (touches_none _ _ _ _ (touches_open_iters _ _ _) E1)|done|by apply (fails_open_iters _ _ _ _ _ E1)]. }
  rewrite !(bind_Ok _ _ _ _ _ E1). destruct HO as [[Hy Hw1] Hfl1]. unfold files_are in Hw1.
  destruct (reads_merged fuel mk bottom iters rss Hy Hs Hf) as (gs & h & its & R1 & R2 & Hg & Hp).
  set (out := concat _) in R2.
  assert (forall w2, exists w3, close_all iters w2 = (Ok tt, w3) /\ w_files w3 = w_files w2 /\
      (w_faults w2 = [] -> w_faults w3 = [])) as Hclose.
  { intros w2. pose proof (triple_close_all (files_are (w_files w2)) iters ltac:(done) w2 eq_refl) as HC.
    assert (forall e w3, close_all iters w2 <> (Err e, w3)) as HnE.
    { clear. intros e. revert w2. induction iters as [|it iters IH]; intros w2 w3; simpl; [done|].
      unfold bind, attempt, Iterator_Close. destruct (file_Close w2) as [[?|?|] w4] eqn:E; [apply IH|apply IH|].
      by destruct w2 as [fs [|[?|] fl]]. }
    destruct (close_all iters w2) as [[[]|e|] w3] eqn:E; [|by destruct (HnE e w3)|done].
    exists w3. by destruct HC. }
  destruct (Merge_body_run fuel outPath mk bottom compress iters h its out w1 R1 R2)
    as [(w2 & Hw2 & Hfl2 & HB)|(e & w2 & HB & Hw2 & Hfl2 & He)].
  - left. destruct (Write_merged outPath compress out w2) as [r w3] eqn:EW.
    assert (exists w4, w_files w4 = w_files w3 /\ (w_faults w3 = [] -> w_faults w4 = []) /\
      (let! r := attempt (Merge_body fuel outPath mk bottom compress iters) in
       close_all iters;;; match r with inl _ => ret tt | inr e => throw e end) w1 = (r, w4)) as (w4 & Hw4 & Hfl4 & HM).
    { unfold attempt, bind. rewrite HB. destruct (Hclose w3) as (w4 & HC & Hw4 & Hfl4).
      destruct r as [[]|e|]; [exists w4; by rewrite HC|exists w4; by rewrite HC|by exists w3]. }
    exists gs, w2, r, w3, w4. split_and!; [done|done|congruence|auto|done|done|done|done].
  - right. destruct (Hclose w2) as (w4 & HC & Hw4 & _). exists e, w4.
    unfold attempt, bind. rewrite HB, HC. split_and!; [done|congruence|intros E; apply Hfl2; auto|done].
Qed.

(** Under any faults [Merge] changes no file but its output and its temporary,
    and the output only when it returns nil. *)
Lemma Merge_frame fuel tables rss outPath mk bottom compress w r w' :
  tables <> [] -> Forall2 (on_disk (w_files w)) tables rss -> length (concat rss) < fuel ->
  Merge fuel tables outPath mk bottom compress w = (r, w') ->
  (forall q, q <> outPath -> q <> tmp_of outPath -> w_files w' !! q = w_files w !! q) /\
  (r <> Ok tt -> w_files w' !! outPath = w_files w !! outPath).
Proof.
  intros Hne Ht Hf HM.
  destruct (Merge_run fuel tables rss outPath mk bottom compress w Hne Ht Hf)
    as [(gs & w0 & r0 & w1 & w2 & _ & _ & Hw0 & _ & HW & Hw2 & _ & HM')|(e & w2 & HM' & Hw2 & _)];
    rewrite HM' in HM; injection HM as <- <-; [|by rewrite Hw2].
  rewrite Hw2, <- Hw0. unfold Write_merged in HW.
  destruct (concat (map _ gs)) as [|x out]; [cbv [throw] in HW; by injection HW as <- <-|]. split.
  - intros q H1 H2. apply (touches_Write _ _ _ _ _ _ _ HW). naive_solver.
  - intros Hr. by apply (Write_error_path _ _ _ _ _ _ _ HW).
Qed.

Lemma merge_spec_elem mk bottom gs rss r :
  grouped gs -> concat gs ≡ₚ concat rss -> disjoint_versions rss ->
  r ∈ merge_spec mk bottom rss <-> retained mk bottom (concat rss) r.
Proof.
  intros Hg Hp Hd. destruct (groups_spec mk bottom gs rss Hg Hp Hd) as (Hs & Hg' & E & <-).
  pose proof (retained_elem mk bottom (map sort_desc gs) r Hg' Hs) as H. rewrite map_map in H. rewrite H, E.
  apply retained_perm, merge_sort_Permutation.
Qed.

(** ** What a compaction needs to know about a merge *)

(** [out] may take the place of [ins] for readers at or above [mk]. *)
Definition replaces (mk : N) (bottom : bool) (out ins : list Record) : Prop :=
  sorted_records out /\ out ⊆ ins /\
  (forall k m, (mk <= m)%N ->
    live (newest k m out) = live (newest k m ins) /\ (bottom = false -> newest k m out = newest k m ins)) /\
  forall r, r ∈ out <-> retained mk bottom ins r.

Lemma merge_spec_replaces mk bottom gs rss :
  grouped gs -> concat gs ≡ₚ concat rss -> disjoint_versions rss ->
  replaces mk bottom (merge_spec mk bottom rss) (concat rss).
Proof.
  intros Hg Hp Hd. destruct (merge_spec_sorted mk bottom gs rss Hg Hp Hd). split_and!; [done|done| |].
  - intros k m Hm. by eapply merge_spec_newest.
  - intros r. by eapply merge_spec_elem.
Qed.

Lemma Merge_outcome fuel tables rss outPath mk bottom compress w :
  tables <> [] -> Forall2 (on_disk (w_files w)) tables rss -> disjoint_versions rss -> length (concat rss) < fuel ->
  let out := merge_spec mk bottom rss in
  (out <> [] -> exists f, filter_of out = Some f /\ fits compress out f) ->
  match Merge fuel tables outPath mk bottom compress w with
  | (Ok _, w') => replaces mk bottom out (concat rss) /\ out <> [] /\
      (exists f, filter_of out = Some f /\ fits compress out f /\
        w_files w' !! outPath = Some (MkFile (encode_table compress out f) (length (encode_table compress out f)))) /\
      (w_faults w = [] -> w_faults w' = [])
  | (Err e, w') =>
      if errors_Is e ErrEmptyMerge
      then replaces mk bottom out (concat rss) /\ out = [] /\ (w_faults w = [] -> w_faults w' = [])
      else w_faults w <> []
  | (Panic, _) => False
  end.
Proof.
  intros Hne Ht Hd Hf out Hfit.
  destruct (Merge_run fuel tables rss outPath mk bottom compress w Hne Ht Hf)
    as [(gs & w0 & r & w1 & w2 & Hg & Hp & Hw0 & Hfl0 & HW & Hw2 & Hfl2 & HM)|(e & w2 & HM & Hw2 & Hfl & He)].
  - rewrite HM. destruct (groups_spec mk bottom gs rss Hg Hp Hd) as (_ & _ & _ & E). rewrite E in HW. fold out in HW.
    pose proof (merge_spec_replaces mk bottom gs rss Hg Hp Hd) as Hrep. fold out in Hrep. clear HM E.
    destruct out as [|x out']; cbn [Write_merged] in HW.
    { injection HW as <- <-. cbn. split_and!; [done|done|]. intros Hw. auto. }
    destruct (Hfit ltac:(done)) as (f & Hff & Hfits).
    pose proof (triple_Write (w_files w0) false outPath compress (x :: out') f ltac:(done) (proj1 Hrep) Hfits Hff w0 eq_refl) as HT.
    rewrite HW in HT. destruct r as [u|e|]; [| |done].
    + destruct HT as [HT HTf]. split_and!; [done|done| |by auto]. exists f. split_and!; [done|done|].
      rewrite Hw2. unfold files_are in HT. rewrite HT. apply lookup_insert_eq.
    + rewrite (fails_Write _ _ _ _ _ _ _ HW : errors_Is e ErrEmptyMerge = false). auto.
  - by rewrite HM, (He : errors_Is e ErrEmptyMerge = false).
Qed.

(** ** Properties *)

(** C25: the merge.  On tables whose files are in place and which share no
    version of a key, [Merge] computes [merge_spec] of their records: when that
    is empty it returns ErrEmptyMerge and creates nothing, otherwise it writes
    exactly that list (sorted, so the order check of [Write] passes) to the
    output.  Any other error comes from a failed system call and leaves the
    output alone; the loops end and nothing panics. *)
Theorem merge_refines_spec fuel tables rss outPath mk bottom compress w :
  tables <> [] -> Forall2 (on_disk (w_files w)) tables rss -> disjoint_versions rss ->
  length (concat rss) < fuel ->
  let out := merge_spec mk bottom rss in
  (out <> [] -> exists f, filter_of out = Some f /\ fits compress out f) ->
  match Merge fuel tables outPath mk bottom compress w with
  | (Ok _, w') => exists f, filter_of out = Some f /\ out <> [] /\
      w_files w' !! outPath = Some (MkFile (encode_table compress out f) (length (encode_table compress out f)))
  | (Err e, w') => w_files w' !! outPath = w_files w !! outPath /\
      (e = ErrEmptyMerge /\ out = [] \/ w_faults w <> [])
  | (Panic, _) => False
  end.
Proof.
  intros Hne Ht Hd Hf out Hfit.
  pose proof (Merge_frame fuel tables rss outPath mk bottom compress w) as HF.
  destruct (Merge_run fuel tables rss outPath mk bottom compress w Hne Ht Hf)
    as [(gs & w0 & r & w1 & w2 & Hg & Hp & Hw0 & Hfl0 & HW & Hw2 & _ & HM)|(e & w2 & HM & Hw2 & Hfl & _)];
    rewrite HM in HF |- *; [|by rewrite Hw2; auto].
  destruct (groups_spec mk bottom gs rss Hg Hp Hd) as (_ & _ & _ & E). rewrite E in HW. fold out in HW.
  destruct (merge_spec_sorted mk bottom gs rss Hg Hp Hd) as [Hs _]. fold out in Hs.
  specialize (HF r w2 Hne Ht Hf eq_refl) as [_ HF].
  destruct out as [|x out']; cbn [Write_merged] in HW.
  { cbv [throw] in HW. injection HW as <- <-. split; [by apply HF|]. by left. }
  destruct (Hfit ltac:(done)) as (f & Hff & Hfits).
  pose proof (triple_Write (w_files w0) false outPath compress (x :: out') f ltac:(done) Hs Hfits Hff w0 eq_refl) as HT.
  rewrite HW in HT. destruct r as [u|e|]; [| |done].
  - exists f. split_and!; [done|done|]. destruct HT as [HT _]. unfold files_are in HT.
    rewrite Hw2, HT. apply lookup_insert_eq.
  - split; [by apply HF|]. right. auto.
Qed.

(** Compaction is invisible to readers.  When [Merge] returns nil, its
    output holds a sorted list of records of the inputs such that every lookup
    bounded by a sequence number at or above [minKeepSeq] finds the same live
    value, or finds nothing, in the output and in the inputs together; unless
    the merge is bottommost even the same record. *)
Theorem merge_preserves_reads fuel tables rss outPath mk bottom compress w w' :
  tables <> [] -> Forall2 (on_disk (w_files w)) tables rss -> disjoint_versions rss ->
  length (concat rss) < fuel ->
  (merge_spec mk bottom rss <> [] ->
     exists f, filter_of (merge_spec mk bottom rss) = Some f /\ fits compress (merge_spec mk bottom rss) f) ->
  Merge fuel tables outPath mk bottom compress w = (Ok tt, w') ->
  exists out f n, w_files w' !! outPath = Some (MkFile (encode_table compress out f) n) /\
    sorted_records out /\ out ⊆ concat rss /\
    forall key m, (mk <= m)%N ->
      live (newest key m out) = live (newest key m (concat rss)) /\
      (bottom = false -> newest key m out = newest key m (concat rss)).
Proof.
  intros Hne Ht Hd Hf Hfit HM.
  destruct (Merge_run fuel tables rss outPath mk bottom compress w Hne Ht Hf)
    as [(gs & w0 & r & w1 & w2 & Hg & Hp & Hw0 & Hfl0 & HW & Hw2 & _ & HM')|(e & w2 & HM' & _)];
    rewrite HM in HM'; [|done]. injection HM' as <- ->.
  destruct (merge_spec_sorted mk bottom gs rss Hg Hp Hd) as [Hs Hsub].
  destruct (groups_spec mk bottom gs rss Hg Hp Hd) as (_ & _ & _ & E). rewrite E in HW.
  assert (merge_spec mk bottom rss <> []) as Hout by (intros E'; by rewrite E' in HW).
  destruct (Hfit Hout) as (f & Hff & Hfits).
  exists (merge_spec mk bottom rss), f, (length (encode_table compress (merge_spec mk bottom rss) f)).
  split_and!; [|done|done|by intros; eapply merge_spec_newest].
  pose proof (triple_Write (w_files w0) false outPath compress _ f Hout Hs Hfits Hff w0 eq_refl) as HT.
  unfold Write_merged in HW. destruct (merge_spec mk bottom rss) as [|x out]; [done|].
  rewrite HW in HT. destruct HT as [HT _]. unfold files_are in HT. rewrite Hw2, HT. apply lookup_insert_eq.
Qed.

Lemma retain_keeps mk bottom first k g :
  keyed k g -> StronglySorted seq_ge g ->
  filter (fun r => mk < Seq r)%N (retain first mk bottom g) = filter (fun r => mk < Seq r)%N g.
Proof.
  intros Hk Hs. revert first. induction Hs as [|r g Hs IH Hr]; intros first; [done|]. cbn [Merge.retain].
  apply Forall_cons in Hk as [_ Hk]. destruct (N.leb_spec (Seq r) mk) as [Hle|Hgt].
  - assert (filter (fun r => mk < Seq r)%N (r :: g) = []) as ->.
    { apply filter_Forall_nil. constructor; [lia|]. eapply Forall_impl; [exact Hr|]. unfold seq_ge. intros; lia. }
    case_match; [done|]. rewrite filter_cons_False by lia. done.
  - rewrite andb_false_r. rewrite !filter_cons_True by lia. by rewrite IH.
Qed.

(** [Merge] does not remove duplicate versions, and [Write] refuses them:
    if the inputs hold the same version of a key twice, above [minKeepSeq],
    [Merge] never succeeds and leaves the output alone, whatever fails. *)
Theorem merge_rejects_duplicates fuel tables rss outPath mk bottom compress w :
  tables <> [] -> Forall2 (on_disk (w_files w)) tables rss -> length (concat rss) < fuel ->
  ~ NoDup (version <$> filter (fun r => mk < Seq r)%N (concat rss)) ->
  exists r w', Merge fuel tables outPath mk bottom compress w = (r, w') /\ r <> Ok tt /\
    w_files w' !! outPath = w_files w !! outPath.
Proof.
  intros Hne Ht Hf Hdup.
  destruct (Merge fuel tables outPath mk bottom compress w) as [r w'] eqn:HM. exists r, w'. split; [done|].
  destruct (Merge_frame _ _ _ _ _ _ _ _ _ _ Hne Ht Hf HM) as [_ Hpath].
  enough (r <> Ok tt) by auto. intros ->. apply Hdup.
  destruct (Merge_run fuel tables rss outPath mk bottom compress w Hne Ht Hf)
    as [(gs & w0 & r & w1 & w2 & Hg & Hp & _ & _ & HW & _ & _ & HM')|(e & w2 & HM' & _)];
    rewrite HM in HM'; [|done]. injection HM' as <- ->.
  set (out := concat (map _ gs)) in HW.
  assert (sorted_records out) as Hs.
  { unfold Write_merged in HW. destruct out as [|x out]; [done|]. eapply Write_Ok_sorted; [|exact HW].
    unfold keys_present. apply Forall_forall. intros y _. unfold key_slice. by destruct (Key y). }
  assert (filter (fun r => mk < Seq r)%N (concat rss) ≡ₚ filter (fun r => mk < Seq r)%N out) as ->.
  { rewrite <- Hp. unfold out. clear -Hg. induction Hg as [|k g gs Hne Hk Hg IH Hlt]; [done|]. simpl.
    rewrite !filter_app, IH. rewrite (retain_keeps _ _ _ k); [by rewrite sort_desc_perm| |apply sort_desc_sorted].
    unfold keyed. by rewrite sort_desc_perm. }
  apply (StronglySorted_filter _ (fun r => mk < Seq r)%N) in Hs.
  induction Hs as [|x l Hl IH Hx]; [constructor|]. cbn [fmap list_fmap]. constructor; [|done].
  intros (y & Ey & Hy)%list_elem_of_fmap. rewrite Forall_forall in Hx. specialize (Hx y Hy).
  injection Ey as Ek Es. destruct Hx as [H|[_ H]]; [rewrite Ek in H; border|lia].
Qed.
End merge_spec.

(** ** Witnesses *)

Module Examples.
#[local] Existing Instance RunA.
#[local] Existing Instance Bloom.TenBits.
Import SSTable.Examples Table.Examples.

(** A newer table: a deletes, b lives again. *)
Definition recs2 : list Record := [MkRec a_ [] TypeTombstone 7; MkRec b_ a_ TypeValue 6].
Definition filt2 : Bloom.Filter := default (Bloom.MkFilter [] 0 0) (filter_of recs2).
Definition tab2' : Table := table_of "2.sst" false recs2 filt2.
Definition disk2 : world :=
  MkWorld {[ "1.sst"%string := image; "2.sst"%string := MkFile (t_file tab2') 0 ]} [].

Lemma tab2_on_disk : on_disk (w_files disk2) tab2' recs2.
Proof.
  split; [sorted_recs|]. exists false, filt2, 0. unfold recs2. rewrite !Forall_cons, Forall_nil. unfold representable.
  split_and!; vm_compute; done.
Defined.

Lemma tab_on_disk : on_disk (w_files disk2) tab recs.
Proof.
  split; [exact recs_sorted|]. exists true, filt, (length (t_file tab)). destruct recs_fit as (Hr & Hl & _).
  split_and!; [vm_compute; done|vm_compute; done|exact Hr|].
  exact Hl.
Defined.

Lemma disk2_ok : Forall2 (on_disk (w_files disk2)) [tab2'; tab] [recs2; recs].
Proof. apply Forall2_cons_2; [exact tab2_on_disk|]. apply Forall2_cons_2; [exact tab_on_disk|apply Forall2_nil_2]. Defined.

Lemma disk2_disjoint : disjoint_versions [recs2; recs].
Proof. unfold disjoint_versions. apply (bool_decide_unpack _). vm_compute. exact I. Defined.

(** Merging with a snapshot at 4, not bottommost: the tombstone survives, and of
    [a_] the version the snapshot sees. *)
Example merge_spec_example :
  merge_spec 4 false [recs2; recs] =
    [MkRec a_ [] TypeTombstone 7; MkRec a_ (replicate 20 Byte.x61) TypeValue 5; MkRec a_ b_ TypeValue 2;
     MkRec b_ a_ TypeValue 6; MkRec b_ [] TypeTombstone 3] /\
  merge_spec max_u64 true [recs2; recs] = [MkRec b_ a_ TypeValue 6].
Proof. split; vm_compute; reflexivity. Qed.

Definition out1 : list Record := merge_spec max_u64 true [recs2; recs].
Definition filt3 : Bloom.Filter := default (Bloom.MkFilter [] 0 0) (filter_of out1).

Lemma out1_fits : exists f, filter_of out1 = Some f /\ fits false out1 f.
Proof.
  exists filt3. assert (out1 = [MkRec b_ a_ TypeValue 6]) as E by (vm_compute; reflexivity).
  split; [vm_compute; reflexivity|]. unfold filt3. rewrite E. unfold fits, representable. rewrite Forall_singleton.
  split_and!; vm_compute; done.
Defined.

Lemma merge_refines_spec_witness :
  match Merge 6 [tab2'; tab] "3.sst" max_u64 true false disk2 with
  | (Ok _, w') => exists f, filter_of out1 = Some f /\ out1 <> [] /\
      w_files w' !! "3.sst"%string = Some (MkFile (encode_table false out1 f) (length (encode_table false out1 f)))
  | (Err e, w') => w_files w' !! "3.sst"%string = w_files disk2 !! "3.sst"%string /\
      (e = ErrEmptyMerge /\ out1 = [] \/ w_faults disk2 <> [])
  | (Panic, _) => False
  end.
Proof.
  apply (merge_refines_spec 6 [tab2'; tab] [recs2; recs] "3.sst" max_u64 true false disk2).
  - discriminate.
  - exact disk2_ok.
  - exact disk2_disjoint.
  - apply Nat.ltb_lt. vm_compute. reflexivity.
  - intros _. exact out1_fits.
Defined.

Lemma merge_preserves_reads_witness :
  exists out f n, w_files (Merge 6 [tab2'; tab] "3.sst" max_u64 true false disk2).2 !! "3.sst"%string =
      Some (MkFile (encode_table false out f) n) /\
    sorted_records out /\ out ⊆ concat [recs2; recs] /\
    forall key m, (max_u64 <= m)%N ->
      live (newest key m out) = live (newest key m (concat [recs2; recs])) /\
      (true = false -> newest key m out = newest key m (concat [recs2; recs])).
Proof.
  apply (merge_preserves_reads 6 [tab2'; tab] [recs2; recs] "3.sst" max_u64 true false disk2).
  - discriminate.
  - exact disk2_ok.
  - exact disk2_disjoint.
  - apply Nat.ltb_lt. vm_compute. reflexivity.
  - intros _. exact out1_fits.
  - vm_compute. reflexivity.
Defined.

Lemma merge_rejects_duplicates_witness :
  exists r w', Merge 7 [tab; tab] "3.sst" 0 false false disk2 = (r, w') /\ r <> Ok tt /\
    w_files w' !! "3.sst"%string = w_files disk2 !! "3.sst"%string.
Proof.
  apply (merge_rejects_duplicates 7 [tab; tab] [recs; recs] "3.sst" 0 false false disk2).
  - discriminate.
  - apply Forall2_cons_2; [exact tab_on_disk|]. apply Forall2_cons_2; [exact tab_on_disk|apply Forall2_nil_2].
  - apply Nat.ltb_lt. vm_compute. reflexivity.
  - apply (bool_decide_unpack (~ NoDup _)). vm_compute. exact I.
Defined.

Example merge_runs : (Merge 6 [tab2'; tab] "3.sst" max_u64 true false disk2).1 = Ok tt.
Proof. vm_compute. reflexivity. Qed.
End Examples.
