(* ===== verification/Metrics.v ===== *)
(** * Metrics (src/metrics/metrics.go, src/engine/engine_metrics.go)

    Counters, gauges, the labelled gauge and the latency histogram as pure
    state with their int64 arithmetic, and the set of metrics the engine keeps.
    Their text is in MetricsText.v. *)

From S2P Require Import Prelude MemTable.
From stdpp Require Import base gmap sets list strings numbers fin_maps sorting.

Record Counter := MkCounter { c_name : string; c_help : string; c_value : Z }.
Record Gauge := MkGauge { g_name : string; g_help : string; g_value : Z }.
Record GaugeVec := MkGaugeVec { gv_name : string; gv_help : string; gv_labelName : string; gv_values : gmap string Z }.
Record Histogram := MkHistogram {
  h_name : string; h_help : string;
  h_bounds : list Z;  (** ascending upper bounds in nanoseconds *)
  h_counts : list Z;  (** per bucket, not cumulative *)
  h_sumNs : Z; h_count : Z }.

Inductive metric := MCounter (c : Counter) | MGauge (g : Gauge) | MGaugeVec (g : GaugeVec) | MHistogram (h : Histogram).

(** ** Operations *)

Definition Counter_Inc (c : Counter) : Counter := MkCounter (c_name c) (c_help c) (i64 (c_value c + 1)).
Definition Counter_Add (c : Counter) (delta : Z) : Counter := MkCounter (c_name c) (c_help c) (i64 (c_value c + delta)).
Definition Gauge_Set (g : Gauge) (v : Z) : Gauge := MkGauge (g_name g) (g_help g) v.
Definition Gauge_Add (g : Gauge) (delta : Z) : Gauge := MkGauge (g_name g) (g_help g) (i64 (g_value g + delta)).
Definition GaugeVec_Set (g : GaugeVec) (labelValue : string) (v : Z) : GaugeVec :=
  MkGaugeVec (gv_name g) (gv_help g) (gv_labelName g) (<[labelValue := v]> (gv_values g)).

(** 100us, 500us, 1ms, 5ms, 10ms, 50ms, 100ms, 500ms, 1s, 5s. *)
Definition defaultLatencyBucketsNs : list Z :=
  [100000; 500000; 1000000; 5000000; 10000000; 50000000; 100000000; 500000000; 1000000000; 5000000000]%Z.

Definition NewHistogram (name help : string) : Histogram :=
  MkHistogram name help defaultLatencyBucketsNs (replicate (length defaultLatencyBucketsNs) 0%Z) 0 0.

Definition bucket (bounds : list Z) (ns : Z) : nat :=
  sort_Search (length bounds) (fun i => match bounds !! i with Some b => (ns <=? b)%Z | None => true end).

Definition Observe (h : Histogram) (d : Z) : Histogram :=
  let ns := if (d <? 0)%Z then 0%Z else d in
  let sum := i64 (h_sumNs h + ns) in
  let count := i64 (h_count h + 1) in
  let idx := bucket (h_bounds h) ns in
  let counts := if idx =? length (h_bounds h) then h_counts h
                else alter (fun n => i64 (n + 1)) idx (h_counts h) in
  MkHistogram (h_name h) (h_help h) (h_bounds h) counts sum count.

(** The [_bucket{le=bound}] series [render] prints: running sums. *)
Fixpoint cumulate (acc : Z) (counts : list Z) : list Z :=
  match counts with
  | [] => []
  | n :: counts' => i64 (acc + n) :: cumulate (i64 (acc + n)) counts'
  end.

(** ** The engine's metrics *)

Inductive counter_id :=
| putTotal | deleteTotal | getTotal | getHitTotal | getMissTotal | scanTotal | flushTotal
| flushFailedTotal | compactionTotal | compactionFailedTotal | snapshotOpenTotal.
Inductive gauge_id := memtableEntries | immutableMemtables | sstablesTotal | activeSnapshots.
Inductive histogram_id := writeLatency | getLatency | flushLatency | compactionLatency.

#[export] Instance counter_id_eq_dec : EqDecision counter_id.
Proof. solve_decision. Defined.
#[export] Instance gauge_id_eq_dec : EqDecision gauge_id.
Proof. solve_decision. Defined.
#[export] Instance histogram_id_eq_dec : EqDecision histogram_id.
Proof. solve_decision. Defined.

Record engineMetrics := MkMetrics {
  em_counter : counter_id -> Counter;
  em_gauge : gauge_id -> Gauge;
  em_perLevel : GaugeVec;
  em_hist : histogram_id -> Histogram }.

Definition newEngineMetrics : engineMetrics := {|
  em_counter c :=
    match c with
    | putTotal => MkCounter "kvstore_puts_total" "Total number of Put calls." 0
    | deleteTotal => MkCounter "kvstore_deletes_total" "Total number of Delete calls." 0
    | getTotal => MkCounter "kvstore_gets_total" "Total number of Get calls (including Snapshot.Get)." 0
    | getHitTotal => MkCounter "kvstore_get_hits_total" "Total number of Get calls that found a value." 0
    | getMissTotal => MkCounter "kvstore_get_misses_total" "Total number of Get calls that found no value." 0
    | scanTotal => MkCounter "kvstore_scans_total" "Total number of Scan calls started (including Snapshot.Scan)." 0
    | flushTotal => MkCounter "kvstore_flushes_total" "Total number of MemTable flushes attempted." 0
    | flushFailedTotal => MkCounter "kvstore_flush_failures_total" "Total number of MemTable flushes that failed." 0
    | compactionTotal => MkCounter "kvstore_compactions_total" "Total number of compaction passes attempted." 0
    | compactionFailedTotal =>
        MkCounter "kvstore_compaction_failures_total" "Total number of compaction passes that failed." 0
    | snapshotOpenTotal => MkCounter "kvstore_snapshots_opened_total" "Total number of snapshots opened." 0
    end;
  em_gauge g :=
    match g with
    | memtableEntries => MkGauge "kvstore_memtable_entries" "Current number of entries in the active MemTable." 0
    | immutableMemtables =>
        MkGauge "kvstore_immutable_memtables" "Current number of immutable MemTables awaiting flush." 0
    | sstablesTotal => MkGauge "kvstore_sstables_total" "Current total number of on-disk SSTables across all levels." 0
    | activeSnapshots => MkGauge "kvstore_active_snapshots" "Current number of open snapshots." 0
    end;
  em_perLevel := MkGaugeVec "kvstore_sstables_per_level" "Current number of SSTables at each compaction level." "level" ∅;
  em_hist h :=
    match h with
    | writeLatency => NewHistogram "kvstore_write_duration_seconds" "Put/Delete call latency in seconds."
    | getLatency => NewHistogram "kvstore_get_duration_seconds" "Get call latency in seconds."
    | flushLatency => NewHistogram "kvstore_flush_duration_seconds" "MemTable flush latency in seconds."
    | compactionLatency => NewHistogram "kvstore_compaction_duration_seconds" "Compaction pass latency in seconds."
    end |}.

Definition upd_counter (c : counter_id) (f : Counter -> Counter) (m : engineMetrics) : engineMetrics :=
  MkMetrics (fun c' => if decide (c' = c) then f (em_counter m c') else em_counter m c')
    (em_gauge m) (em_perLevel m) (em_hist m).
Definition upd_gauge (g : gauge_id) (f : Gauge -> Gauge) (m : engineMetrics) : engineMetrics :=
  MkMetrics (em_counter m) (fun g' => if decide (g' = g) then f (em_gauge m g') else em_gauge m g')
    (em_perLevel m) (em_hist m).
Definition upd_perLevel (f : GaugeVec -> GaugeVec) (m : engineMetrics) : engineMetrics :=
  MkMetrics (em_counter m) (em_gauge m) (f (em_perLevel m)) (em_hist m).
Definition upd_hist (h : histogram_id) (f : Histogram -> Histogram) (m : engineMetrics) : engineMetrics :=
  MkMetrics (em_counter m) (em_gauge m) (em_perLevel m)
    (fun h' => if decide (h' = h) then f (em_hist m h') else em_hist m h').

(** ** Properties *)

Definition observe_all (h : Histogram) (ds : list Z) : Histogram := fold_left Observe ds h.

(** The observations a cumulative bucket must count. *)
Definition at_most (bound : Z) (ds : list Z) : Z := Z.of_nat (length (filter (fun d => (d <= bound)%Z) ds)).

Lemma cumulate_lookup acc counts i :
  (0 <= acc)%Z -> Forall (fun n => (0 <= n)%Z) counts -> (acc + foldr Z.add 0 counts < 2 ^ 63)%Z ->
  i < length counts -> cumulate acc counts !! i = Some (acc + foldr Z.add 0 (take (S i) counts))%Z.
Proof.
  intros Ha Hc. revert acc i Ha. induction Hc as [|n counts Hn Hc IH]; intros acc i Ha Hs Hi; simpl in *; [lia|].
  assert (0 <= foldr Z.add 0 counts)%Z by (clear -Hc; induction Hc; simpl; lia).
  rewrite i64_small by lia. destruct i as [|i]; simpl.
  - f_equal. lia.
  - rewrite IH by lia. f_equal. lia.
Qed.

Lemma bucket_spec bounds ns i b :
  StronglySorted Z.lt bounds -> bounds !! i = Some b -> bucket bounds ns <= i <-> (ns <= b)%Z.
Proof.
  intros Hs Hb. unfold bucket.
  destruct (sort_Search_spec (length bounds)
              (fun i => match bounds !! i with Some b => (ns <=? b)%Z | None => true end)) as (Hr & Hlo & Hhi).
  { intros j k Hjk Hk Hj. destruct (bounds !! j) as [x|] eqn:Ex; [|apply lookup_ge_None in Ex; lia].
    destruct (bounds !! k) as [y|] eqn:Ey; [|done]. apply Z.leb_le in Hj. apply Z.leb_le.
    destruct (decide (j = k)) as [->|Hne]; [by simplify_eq|].
    assert (x < y)%Z by (eapply (StronglySorted_lookup Z.lt); [exact Hs|exact Ex|exact Ey|lia]). lia. }
  set (r := sort_Search _ _) in *. clearbody r. split.
  - intros Hle. specialize (Hhi i Hle (lookup_lt_Some _ _ _ Hb)). simpl in Hhi. rewrite Hb in Hhi. by apply Z.leb_le.
  - intros Hle. destruct (decide (r <= i)) as [|Hn]; [done|]. specialize (Hlo i ltac:(lia)). simpl in Hlo.
    rewrite Hb in Hlo. apply Z.leb_gt in Hlo. lia.
Qed.

Lemma sum_alter (counts : list Z) idx i :
  idx < length counts ->
  foldr Z.add 0%Z (take (S i) (alter (fun n => n + 1)%Z idx counts)) =
    (foldr Z.add 0 (take (S i) counts) + if decide (idx <= i)%nat then 1 else 0)%Z.
Proof.
  revert idx i; induction counts as [|n counts IH]; intros idx i Hi; simpl in Hi; [lia|].
  destruct idx as [|idx]; cbn [alter list_alter].
  - rewrite decide_True by lia. simpl. lia.
  - destruct i as [|i]; cbn [take foldr].
    + rewrite decide_False by lia. rewrite !take_0. cbn [foldr]. lia.
    + change (list_alter (fun n : Z => (n + 1)%Z) idx counts) with (alter (fun n : Z => (n + 1)%Z) idx counts).
      rewrite IH by lia. case_decide; case_decide; lia.
Qed.

Lemma at_most_snoc b ds d :
  at_most b (ds ++ [d]) = (at_most b ds + if decide (d <= b)%Z then 1 else 0)%Z.
Proof.
  unfold at_most. rewrite filter_app, length_app, Nat2Z.inj_add. f_equal.
  rewrite filter_cons. by case_decide.
Qed.

(** What the per-bucket counts add up to. *)
Definition counts_ok (h : Histogram) (ds : list Z) : Prop :=
  length (h_counts h) = length (h_bounds h) /\ Forall (fun n => (0 <= n <= Z.of_nat (length ds))%Z) (h_counts h) /\
  h_count h = Z.of_nat (length ds) /\
  forall i b, h_bounds h !! i = Some b -> foldr Z.add 0%Z (take (S i) (h_counts h)) = at_most b ds.

Lemma Observe_ok h ds d :
  StronglySorted Z.lt (h_bounds h) -> Forall (fun b => (0 <= b)%Z) (h_bounds h) ->
  (Z.of_nat (length (ds ++ [d])) < 2 ^ 63)%Z ->
  counts_ok h ds -> counts_ok (Observe h d) (ds ++ [d]).
Proof.
  intros Hsort Hpos Hlen (Hl & Hc & Hn & Hsum). rewrite length_app in Hlen. simpl in Hlen.
  set (ns := if (d <? 0)%Z then 0%Z else d). set (idx := bucket (h_bounds h) ns).
  assert (Hns : forall i b, h_bounds h !! i = Some b -> (ns <= b)%Z <-> (d <= b)%Z).
  { intros i b Hb. rewrite Forall_lookup in Hpos. specialize (Hpos i b Hb). unfold ns.
    destruct (Z.ltb_spec d 0); lia. }
  assert (Hidx : forall i b, h_bounds h !! i = Some b -> idx <= i <-> (d <= b)%Z).
  { intros i b Hb. rewrite <- (Hns i b Hb). by apply bucket_spec. }
  assert (Hle : idx <= length (h_bounds h)) by apply sort_Search_le.
  assert (Hcount : h_count (Observe h d) = Z.of_nat (length (ds ++ [d]))).
  { simpl. rewrite Hn, length_app. simpl. rewrite i64_small by lia. lia. }
  unfold counts_ok. split_and!; [| |exact Hcount|].
  - unfold Observe; simpl. fold ns idx. case_match; [done|]. by rewrite length_alter.
  - unfold Observe; simpl. fold ns idx. rewrite length_app. simpl. case_match.
    + eapply Forall_impl; [exact Hc|]. simpl. intros; lia.
    + apply Forall_lookup. intros i n. rewrite list_lookup_alter. rewrite Forall_lookup in Hc.
      case_decide; subst.
      * intros (n0 & Hn0 & ->)%fmap_Some. specialize (Hc _ _ Hn0). rewrite i64_small by lia. lia.
      * intros Hi. specialize (Hc _ _ Hi). simpl in Hc. lia.
  - intros i b Hb. change (h_bounds (Observe h d)) with (h_bounds h) in Hb. rewrite at_most_snoc, <- (Hsum i b Hb).
    unfold Observe; cbn [h_counts]. fold ns idx. specialize (Hidx i b Hb).
    apply lookup_lt_Some in Hb as Hi. destruct (Nat.eqb_spec idx (length (h_bounds h))) as [E|E].
    + rewrite decide_False by (rewrite <- Hidx; lia). lia.
    + assert (alter (fun n => i64 (n + 1)) idx (h_counts h) = alter (fun n => n + 1)%Z idx (h_counts h)) as ->.
      { apply list_eq. intros j. rewrite !list_lookup_alter. case_decide; [subst|done].
        destruct (h_counts h !! idx) as [n|] eqn:En; [|done]. simpl. f_equal.
        rewrite Forall_lookup in Hc. specialize (Hc _ _ En). apply i64_small. lia. }
      rewrite sum_alter by lia. repeat case_decide; tauto || lia.
Qed.

Lemma NewHistogram_ok name help : counts_ok (NewHistogram name help) [].
Proof.
  unfold counts_ok, NewHistogram. cbn [h_counts h_bounds h_count]. split_and!; [done| |done|].
  - apply Forall_replicate. simpl. lia.
  - intros i b Hb. unfold at_most. simpl. apply lookup_lt_Some in Hb. simpl in Hb.
    do 10 (destruct i as [|i]; [done|]). lia.
Qed.

Lemma observe_all_ok h ds :
  StronglySorted Z.lt (h_bounds h) -> Forall (fun b => (0 <= b)%Z) (h_bounds h) ->
  (Z.of_nat (length ds) < 2 ^ 63)%Z -> counts_ok h [] ->
  counts_ok (observe_all h ds) ds /\ h_bounds (observe_all h ds) = h_bounds h.
Proof.
  intros Hs Hp. induction ds as [|d ds IH] using rev_ind; intros Hl H0; [done|].
  unfold observe_all in *. rewrite fold_left_app. cbn [fold_left]. rewrite length_app in Hl. simpl in Hl.
  destruct (IH ltac:(lia) H0) as [IH1 IH2]. split; [|by rewrite <- IH2].
  apply Observe_ok; [by rewrite IH2|by rewrite IH2| |done]. rewrite length_app. simpl. lia.
Qed.

Lemma length_cumulate acc counts : length (cumulate acc counts) = length counts.
Proof. revert acc. induction counts as [|n counts IH]; intros acc; [done|]. cbn. by rewrite IH. Qed.

Lemma observe_all_new name help ds :
  (Z.of_nat (length ds) < 2 ^ 63)%Z ->
  counts_ok (observe_all (NewHistogram name help) ds) ds /\
  h_bounds (observe_all (NewHistogram name help) ds) = defaultLatencyBucketsNs.
Proof.
  intros Hl. apply (observe_all_ok (NewHistogram name help)).
  - repeat first [apply SSorted_nil | apply SSorted_cons | apply Forall_nil_2 | apply Forall_cons_2 | lia].
  - repeat first [apply Forall_nil_2 | apply Forall_cons_2 | lia].
  - done.
  - apply NewHistogram_ok.
Qed.

(** The running sums are the cumulative buckets. *)
Lemma cumulate_at_most h ds :
  counts_ok h ds -> h_bounds h = defaultLatencyBucketsNs -> (Z.of_nat (length ds) < 2 ^ 59)%Z ->
  cumulate 0 (h_counts h) = (fun b => at_most b ds) <$> defaultLatencyBucketsNs.
Proof.
  intros (Hlen & Hc & Hn & Hsum) Hbd Hl. rewrite Hbd in Hlen, Hsum.
  assert (forall l : list Z, Forall (fun n => (0 <= n <= Z.of_nat (length ds))%Z) l ->
    (0 <= foldr Z.add 0 l <= Z.of_nat (length l) * Z.of_nat (length ds))%Z) as Hb.
  { induction 1 as [|n l Hn' Hl' IH]; simpl; lia. }
  specialize (Hb _ Hc). assert (length (h_counts h) = 10) as H10 by exact Hlen.
  apply list_eq_same_length with 10; [by rewrite length_fmap|by rewrite length_cumulate|].
  intros i x y Hi Hx Hy. rewrite list_lookup_fmap in Hy. destruct (defaultLatencyBucketsNs !! i) as [b|] eqn:Eb; [|done]. injection Hy as <-.
  rewrite cumulate_lookup in Hx; [|lia| |lia|lia].
  - injection Hx as <-. by rewrite Z.add_0_l, (Hsum i b Eb).
  - eapply Forall_impl; [exact Hc|]. simpl. lia.
Qed.

(** The latency histogram.  After any observations (fewer than 2^59) the
    cumulative bucket of a bound counts exactly the observations at most that
    bound, negative durations included, and the total counts them all. *)
Theorem histogram_cumulative name help ds i b :
  (Z.of_nat (length ds) < 2 ^ 59)%Z -> defaultLatencyBucketsNs !! i = Some b ->
  let h := observe_all (NewHistogram name help) ds in
  cumulate 0 (h_counts h) !! i = Some (at_most b ds) /\ h_count h = Z.of_nat (length ds).
Proof.
  intros Hl Hb h. destruct (observe_all_new name help ds ltac:(lia)) as [Hok Hbd]. split; [|apply Hok].
  unfold h. by rewrite (cumulate_at_most _ ds), list_lookup_fmap, Hb.
Qed.

Lemma histogram_cumulative_witness :
  let h := observe_all (NewHistogram "a" "b") [-5; 100000; 700000; 9000000000]%Z in
  cumulate 0 (h_counts h) !! 2 = Some (at_most 1000000 [-5; 100000; 700000; 9000000000]%Z) /\
  h_count h = 4%Z.
Proof.
  apply (histogram_cumulative "a" "b" [-5; 100000; 700000; 9000000000]%Z 2 1000000); reflexivity.
Defined.
