(* ===== verification/FileNames.v ===== *)
(** * File names and the directory listing (src/engine/engine.go)

    The names under which the engine keeps its logs and tables, the parser that
    recovers level and generation from a table's name, and [scanDir], which
    rebuilds the engine's list of files from a directory.  Paths are strings; a
    directory is the prefix of its files' paths (the store creates no
    subdirectories), and [dir] is a clean path. *)

From S2P Require Import Prelude GoIO IOLogic.
From Stdlib Require Import Ascii.
From stdpp Require Import base gmap sets list strings numbers fin_maps sorting.

(** ** [fmt] and [strconv] *)

Definition digit (d : N) : Ascii.ascii := Ascii.ascii_of_N (48 + d).

(** The last [w] decimal digits of [n]. *)
Fixpoint fixed (w : nat) (n : N) : string :=
  match w with
  | O => ""
  | S w' => String (digit (n / 10 ^ N.of_nat w' mod 10)) (fixed w' n)
  end.

Fixpoint num_digits_from (fuel w : nat) (n : N) : nat :=
  match fuel with
  | O => w
  | S fuel' => if (n <? 10 ^ N.of_nat w)%N then w else num_digits_from fuel' (S w) n
  end.

Definition num_digits (n : N) : nat := num_digits_from (N.to_nat (N.log2 n)) 1 n.

(** [%0wd]: at least [w] digits, padded with zeros. *)
Definition printf0 (w : nat) (n : N) : string := fixed (Nat.max w (num_digits n)) n.

Definition is_digit (c : Ascii.ascii) : bool :=
  ((48 <=? Ascii.N_of_ascii c) && (Ascii.N_of_ascii c <=? 57))%N.

Fixpoint parse_digits (s : string) (acc : N) : option N :=
  match s with
  | EmptyString => Some acc
  | String c s' => if is_digit c then parse_digits s' (10 * acc + (Ascii.N_of_ascii c - 48)) else None
  end.

(** [strconv.ParseUint(s, 10, 64)]. *)
Definition ParseUint (s : string) : option N :=
  match s with
  | EmptyString => None
  | _ => n ← parse_digits s 0; if (n <? 2 ^ 64)%N then Some n else None
  end.

(** [strconv.Atoi]. *)
Definition Atoi (s : string) : option Z :=
  match s with
  | EmptyString => None
  | String c s' =>
      let neg := bool_decide (c = "-"%char) in
      let body := if neg || bool_decide (c = "+"%char) then s' else s in
      match body with
      | EmptyString => None
      | _ =>
          n ← parse_digits body 0;
          let z := if neg then (- Z.of_N n)%Z else Z.of_N n in
          if ((- 2 ^ 63 <=? z) && (z <? 2 ^ 63))%Z then Some z else None
      end
  end.

(** ** [strings] and [filepath] *)

Fixpoint HasSuffix (s suffix : string) : bool :=
  bool_decide (s = suffix) || match s with String _ s' => HasSuffix s' suffix | EmptyString => false end.

Fixpoint TrimSuffix (s suffix : string) : string :=
  if bool_decide (s = suffix) then ""
  else match s with String c s' => String c (TrimSuffix s' suffix) | EmptyString => "" end.

(** [strings.SplitN(s, "-", 2)] when it has two parts. *)
Fixpoint split_dash (s : string) : option (string * string) :=
  match s with
  | EmptyString => None
  | String c s' =>
      if bool_decide (c = "-"%char) then Some (EmptyString, s')
      else '(a, b) ← split_dash s'; Some (String c a, b)
  end.

Definition Join (dir name : string) : string := dir +:+ "/" +:+ name.

(** ** Names *)

Definition walBase (gen : N) : string := printf0 20 gen +:+ ".wal".
Definition walFileName (dir : string) (gen : N) : string := Join dir (walBase gen).

Definition sstBase (level : Z) (gen : N) : string :=
  "L" +:+ printf0 2 (Z.to_N level) +:+ "-" +:+ printf0 20 gen +:+ ".sst".
Definition sstFileName (dir : string) (level : Z) (gen : N) : string := Join dir (sstBase level gen).

Definition parseSSTFilename (name : string) : option (Z * N) :=
  let base := TrimSuffix name ".sst" in
  '(p0, p1) ← split_dash base;
  match p0 with
  | String c ((String _ _) as lvl) =>
      if bool_decide (c = "L"%char) then
        l ← Atoi lvl; g ← ParseUint p1; Some (l, g)
      else None
  | _ => None
  end.

(** ** [scanDir] *)

Record sstFileInfo := MkSSTInfo { sf_path : string; sf_level : Z; sf_gen : N }.

(** [name] of a path [dir/name]. *)
Fixpoint strip_prefix (pre s : string) : option string :=
  match pre, s with
  | EmptyString, _ => Some s
  | String c pre', String c' s' => if bool_decide (c = c') then strip_prefix pre' s' else None
  | _, EmptyString => None
  end.

Fixpoint no_slash (s : string) : bool :=
  match s with
  | EmptyString => true
  | String c s' => negb (bool_decide (c = "/"%char)) && no_slash s'
  end.

Definition string_le (a b : string) : Prop := String.leb a b = true.
#[export] Instance string_le_dec : RelDecision string_le.
Proof. intros a b. unfold string_le. apply _. Defined.

(** [os.ReadDir]: the names of the directory's files, sorted. *)
Definition ReadDir (dir : string) : M (list string) :=
  syscall (let! fs := get_files in
           ret (merge_sort string_le
                  (omap (fun p => name ← strip_prefix (dir +:+ "/") p; if no_slash name then Some name else None)
                     (fst <$> map_to_list fs)))).

(** The loop over the entries. *)
Fixpoint scan_entries (dir : string) (names : list string) (walFiles : list string)
    (sstFiles : list sstFileInfo) (maxGen : N) : list string * list sstFileInfo * N :=
  match names with
  | [] => (walFiles, sstFiles, maxGen)
  | name :: names' =>
      let full := Join dir name in
      if HasSuffix name ".wal" then
        match ParseUint (TrimSuffix name ".wal") with
        | None => scan_entries dir names' walFiles sstFiles maxGen
        | Some gen => scan_entries dir names' (walFiles ++ [full]) sstFiles (N.max maxGen gen)
        end
      else if HasSuffix name ".sst" then
        match parseSSTFilename name with
        | None => scan_entries dir names' walFiles sstFiles maxGen
        | Some (level, gen) =>
            scan_entries dir names' walFiles (sstFiles ++ [MkSSTInfo full level gen]) (N.max maxGen gen)
        end
      else scan_entries dir names' walFiles sstFiles maxGen
  end.

Definition gen_le (a b : sstFileInfo) : Prop := (sf_gen a <= sf_gen b)%N.
#[export] Instance gen_le_dec : RelDecision gen_le.
Proof. intros a b. unfold gen_le. apply _. Defined.

Definition scanDir (dir : string) : M (list string * list sstFileInfo * N) :=
  let! names := wrap "engine: reading directory" (ReadDir dir) in
  let '(walFiles, sstFiles, maxGen) := scan_entries dir names [] [] 0 in
  ret (merge_sort string_le walFiles, merge_sort gen_le sstFiles, maxGen).

(** ** Lemmas *)

Lemma digit_N d : (d < 10)%N -> Ascii.N_of_ascii (digit d) = (48 + d)%N.
Proof. intros. unfold digit. rewrite Ascii.N_ascii_embedding by lia. done. Qed.

Lemma is_digit_digit d : (d < 10)%N -> is_digit (digit d) = true.
Proof. intros H. unfold is_digit. rewrite digit_N by done. apply andb_true_iff. split; apply N.leb_le; lia. Qed.

Lemma parse_fixed w n acc : parse_digits (fixed w n) acc = Some (acc * 10 ^ N.of_nat w + n mod 10 ^ N.of_nat w)%N.
Proof.
  revert acc; induction w as [|w IH]; intros acc; cbn [fixed parse_digits].
  - rewrite N.mod_1_r. f_equal. simpl. lia.
  - assert (n / 10 ^ N.of_nat w mod 10 < 10)%N as Hd by (by apply N.mod_lt).
    rewrite is_digit_digit, digit_N, IH by done. f_equal.
    rewrite (N.add_comm 48), N.add_sub.
    rewrite Nat2N.inj_succ, N.pow_succ_r by lia. rewrite (N.mul_comm 10 (10 ^ N.of_nat w)), N.Div0.mod_mul_r. ring.
Qed.

Lemma num_digits_from_spec fuel w n :
  1 <= w -> (n < 10 ^ N.of_nat (w + fuel))%N ->
  (n < 10 ^ N.of_nat (num_digits_from fuel w n))%N /\ 1 <= num_digits_from fuel w n.
Proof.
  revert w; induction fuel as [|fuel IH]; intros w Hw Hn; simpl; [by rewrite Nat.add_0_r in Hn|].
  destruct (N.ltb_spec n (10 ^ N.of_nat w)); [done|]. apply IH; [lia|].
  by replace (S w + fuel) with (w + S fuel) by lia.
Qed.

Lemma num_digits_spec n : (n < 10 ^ N.of_nat (num_digits n))%N /\ 1 <= num_digits n.
Proof.
  apply num_digits_from_spec; [lia|].
  replace (N.of_nat (1 + N.to_nat (N.log2 n))) with (N.succ (N.log2 n)) by lia.
  assert (n < 2 ^ N.succ (N.log2 n))%N as H.
  { destruct (N.eq_dec n 0%N) as [->|]; [done|]. apply N.log2_spec. lia. }
  eapply N.lt_le_trans; [exact H|]. apply N.pow_le_mono_l. lia.
Qed.

Lemma parse_printf0 w n : parse_digits (printf0 w n) 0 = Some n.
Proof.
  unfold printf0. rewrite parse_fixed. f_equal. rewrite N.mul_0_l, N.add_0_l. apply N.mod_small.
  destruct (num_digits_spec n) as [H _]. eapply N.lt_le_trans; [exact H|]. apply N.pow_le_mono_r; lia.
Qed.

Lemma fixed_shape w n : 1 <= w -> exists c s, fixed w n = String c s /\ is_digit c = true.
Proof. destruct w as [|w]; [lia|]. intros _. do 2 eexists. split; [done|]. by apply is_digit_digit, N.mod_lt. Qed.

Lemma printf0_shape w n : exists c s, printf0 w n = String c s /\ is_digit c = true.
Proof. apply fixed_shape. pose proof (num_digits_spec n). lia. Qed.

Lemma ParseUint_printf0 w n : (n < 2 ^ 64)%N -> ParseUint (printf0 w n) = Some n.
Proof.
  intros Hn. destruct (printf0_shape w n) as (c & s & E & _). unfold ParseUint.
  pose proof (parse_printf0 w n) as Hp. rewrite E in Hp |- *. rewrite Hp. simpl.
  by rewrite (proj2 (N.ltb_lt _ _)).
Qed.

Lemma Atoi_printf0 w n : (n < 2 ^ 63)%N -> Atoi (printf0 w n) = Some (Z.of_N n).
Proof.
  intros Hn. destruct (printf0_shape w n) as (c & s & E & Hc). unfold Atoi.
  pose proof (parse_printf0 w n) as Hp. rewrite E in Hp |- *.
  rewrite (bool_decide_eq_false_2 (c = "-"%char)) by (by intros ->).
  rewrite (bool_decide_eq_false_2 (c = "+"%char)) by (by intros ->). cbn [orb]. rewrite Hp. cbn [mbind option_bind].
  by rewrite (proj2 (andb_true_iff _ _)) by (split; [apply Z.leb_le|apply Z.ltb_lt]; lia).
Qed.

Lemma app_suffix_ne c s suf : String c s +:+ suf <> suf.
Proof.
  intros E. apply (f_equal String.length) in E.
  assert (forall a b, String.length (a +:+ b) = String.length a + String.length b) as Hl.
  { induction a as [|x a IH]; intros b; [done|]. simpl. f_equal. apply IH. }
  rewrite Hl in E. simpl in E. lia.
Qed.

Lemma HasSuffix_app s suf : HasSuffix (s +:+ suf) suf = true.
Proof.
  induction s as [|c s IH].
  - change (EmptyString +:+ suf) with suf. by destruct suf; cbn [HasSuffix]; case_bool_decide.
  - simpl. rewrite IH. apply orb_true_r.
Qed.

Lemma TrimSuffix_app s suf : TrimSuffix (s +:+ suf) suf = s.
Proof.
  induction s as [|c s IH].
  - change (EmptyString +:+ suf) with suf. by destruct suf; cbn [TrimSuffix]; case_bool_decide.
  - pose proof (app_suffix_ne c s suf). simpl in *. rewrite bool_decide_false by done. by rewrite IH.
Qed.

(** A string of digits. *)
Fixpoint all_digits (s : string) : bool :=
  match s with EmptyString => true | String c s' => is_digit c && all_digits s' end.

Lemma all_digits_printf0 w n : all_digits (printf0 w n) = true.
Proof.
  unfold printf0. generalize (Nat.max w (num_digits n)). intros k. induction k as [|k IH]; [done|].
  cbn [fixed all_digits]. rewrite IH, is_digit_digit; [done|]. by apply N.mod_lt.
Qed.

Lemma split_dash_digits s t : all_digits s = true -> split_dash (s +:+ "-" +:+ t) = Some (s, t).
Proof.
  induction s as [|c s IH]; [done|]. intros [Hc Hs]%andb_true_iff. simpl.
  rewrite bool_decide_false by (by intros ->). simpl in IH. by rewrite IH.
Qed.

Lemma string_app_assoc a b c : (a +:+ b) +:+ c = a +:+ (b +:+ c).
Proof.
  induction a as [|x a IH]; [done|].
  change (String x ((a +:+ b) +:+ c) = String x (a +:+ (b +:+ c))). by rewrite IH.
Qed.

Lemma parse_sstBase level gen :
  (0 <= level < 2 ^ 63)%Z -> (gen < 2 ^ 64)%N ->
  HasSuffix (sstBase level gen) ".sst" = true /\ parseSSTFilename (sstBase level gen) = Some (level, gen).
Proof.
  intros Hl Hg. unfold sstBase.
  replace ("L" +:+ printf0 2 (Z.to_N level) +:+ "-" +:+ printf0 20 gen +:+ ".sst")
    with (("L" +:+ printf0 2 (Z.to_N level) +:+ "-" +:+ printf0 20 gen) +:+ ".sst").
  2: by rewrite !string_app_assoc.
  split; [apply HasSuffix_app|]. unfold parseSSTFilename. rewrite TrimSuffix_app.
  destruct (printf0_shape 2 (Z.to_N level)) as (c & s & E & Hc).
  pose proof (split_dash_digits (printf0 2 (Z.to_N level)) (printf0 20 gen) (all_digits_printf0 _ _)) as Hsp.
  change ("L" +:+ printf0 2 (Z.to_N level) +:+ "-" +:+ printf0 20 gen)
    with (String "L" (printf0 2 (Z.to_N level) +:+ "-" +:+ printf0 20 gen)).
  cbn [split_dash]. rewrite bool_decide_false by done. rewrite Hsp. cbn [mbind option_bind].
  pose proof (Atoi_printf0 2 (Z.to_N level) ltac:(lia)) as Ha. rewrite E in Ha |- *.
  rewrite bool_decide_true by done. rewrite Ha. cbn [mbind option_bind].
  rewrite ParseUint_printf0 by done. cbn [mbind option_bind]. by rewrite Z2N.id by lia.
Qed.

(** *** The last character tells the kinds of file apart *)

Fixpoint last_ascii (s : string) : option Ascii.ascii :=
  match s with
  | EmptyString => None
  | String c s' => match last_ascii s' with Some c' => Some c' | None => Some c end
  end.

Lemma last_ascii_app s t c : last_ascii t = Some c -> last_ascii (s +:+ t) = Some c.
Proof. intros Ht. induction s as [|x s IH]; [done|]. simpl. simpl in IH. by rewrite IH. Qed.

Lemma last_walFileName dir gen : last_ascii (walFileName dir gen) = Some "l"%char.
Proof. unfold walFileName, Join, walBase. by repeat apply last_ascii_app. Qed.

Lemma last_sstFileName dir level gen : last_ascii (sstFileName dir level gen) = Some "t"%char.
Proof. unfold sstFileName, Join, sstBase. by repeat apply last_ascii_app. Qed.

(** *** Names the engine makes *)

Lemma last_ascii_snoc s c : last_ascii (s +:+ String c EmptyString) = Some c.
Proof. by apply last_ascii_app. Qed.

Lemma HasSuffix_Some s suf : HasSuffix s suf = true -> exists pre, s = pre +:+ suf.
Proof.
  induction s as [|c s IH]; cbn [HasSuffix].
  - rewrite orb_false_r. intros H%bool_decide_eq_true. by exists EmptyString.
  - intros [H%bool_decide_eq_true|H]%orb_true_iff; [by exists EmptyString|]. destruct (IH H) as [pre ->]. by exists (String c pre).
Qed.

Lemma sst_not_wal name : HasSuffix name ".sst" = true -> HasSuffix name ".wal" = false.
Proof.
  intros Hs. destruct (HasSuffix name ".wal") eqn:Hw; [|done]. exfalso.
  destruct (HasSuffix_Some _ _ Hs) as [a Ea], (HasSuffix_Some _ _ Hw) as [b Eb].
  assert (last_ascii name = Some "t"%char) as E1 by (rewrite Ea; by apply last_ascii_app).
  assert (last_ascii name = Some "l"%char) as E2 by (rewrite Eb; by apply last_ascii_app).
  congruence.
Qed.

Lemma no_slash_app a b : no_slash (a +:+ b) = no_slash a && no_slash b.
Proof. induction a as [|c a IH]; [done|]. cbn [no_slash]. rewrite <- andb_assoc, <- IH. done. Qed.

Lemma no_slash_digits s : all_digits s = true -> no_slash s = true.
Proof.
  induction s as [|c s IH]; [done|]. intros [Hc Hs]%andb_true_iff. cbn [no_slash]. rewrite IH by done.
  by rewrite bool_decide_false by (by intros ->).
Qed.

Lemma no_slash_walBase gen : no_slash (walBase gen) = true.
Proof. unfold walBase. by rewrite no_slash_app, no_slash_digits by apply all_digits_printf0. Qed.

Lemma no_slash_sstBase level gen : no_slash (sstBase level gen) = true.
Proof. unfold sstBase. by rewrite !no_slash_app, !(no_slash_digits (printf0 _ _)) by apply all_digits_printf0. Qed.

Lemma walBase_name gen :
  (gen < 2 ^ 64)%N -> HasSuffix (walBase gen) ".wal" = true /\ ParseUint (TrimSuffix (walBase gen) ".wal") = Some gen.
Proof. intros Hg. unfold walBase. by rewrite HasSuffix_app, TrimSuffix_app, ParseUint_printf0. Qed.

(** *** The names of logs sort in the order of their generations *)

Lemma string_le_stdpp a b : string_le a b <-> String.le a b.
Proof. unfold string_le, String.le. by rewrite Is_true_true. Qed.

#[export] Instance string_le_trans : Transitive string_le.
Proof. intros a b c. rewrite !string_le_stdpp. apply (transitivity (R := String.le)). Qed.
#[export] Instance string_le_antisymm : AntiSymm (=) string_le.
Proof. intros a b. rewrite !string_le_stdpp. apply (anti_symm String.le). Qed.
#[export] Instance string_le_total : Total string_le.
Proof. intros a b. rewrite !string_le_stdpp. apply (total String.le). Qed.

Lemma string_le_head c a b : string_le a b -> string_le (String c a) (String c b).
Proof.
  unfold string_le, String.leb. cbn [String.compare]. unfold Ascii.compare. by rewrite N.compare_refl.
Qed.

Lemma string_le_prefix p a b : string_le a b -> string_le (p +:+ a) (p +:+ b).
Proof. intros H. induction p as [|c p IH]; [done|]. by apply (string_le_head c). Qed.

Lemma string_le_digit d1 d2 a b : (d1 < d2)%N -> (d2 < 10)%N -> string_le (String (digit d1) a) (String (digit d2) b).
Proof.
  intros H1 H2. unfold string_le, String.leb. cbn [String.compare]. unfold Ascii.compare.
  rewrite !digit_N by lia. by rewrite (proj2 (N.compare_lt_iff _ _)) by lia.
Qed.

Lemma fixed_mod w n : fixed w (n mod 10 ^ N.of_nat w) = fixed w n.
Proof.
  assert (forall k, k <= w -> fixed k (n mod 10 ^ N.of_nat w) = fixed k n) as H; [|by apply H].
  induction k as [|k IH]; intros Hk; [done|]. cbn [fixed]. rewrite IH by lia. do 2 f_equal.
  replace (N.of_nat w) with (N.of_nat k + N.of_nat (w - k))%N by lia. rewrite N.pow_add_r.
  rewrite N.Div0.mod_mul_r, N.mul_comm, N.div_add by (apply N.pow_nonzero; lia).
  rewrite N.div_small by (apply N.mod_lt, N.pow_nonzero; lia). cbn.
  replace (N.of_nat (w - k)) with (1 + N.of_nat (w - k - 1))%N by lia. rewrite N.pow_add_r, N.pow_1_r.
  rewrite N.add_0_l, N.Div0.mod_mul_r, (N.mul_comm 10 (_ mod _)), N.Div0.mod_add. by rewrite N.Div0.mod_mod.
Qed.

Lemma fixed_order w n m s : (n <= m)%N -> (m < 10 ^ N.of_nat w)%N -> string_le (fixed w n +:+ s) (fixed w m +:+ s).
Proof.
  revert n m. induction w as [|w IH]; intros n m Hle Hm.
  { cbn. apply string_le_stdpp. apply (reflexivity (R := String.le)). }
  set (p := (10 ^ N.of_nat w)%N). assert (p <> 0)%N as Hp by (apply N.pow_nonzero; lia).
  assert (m < 10 * p)%N as Hm' by (rewrite Nat2N.inj_succ, N.pow_succ_r in Hm by lia; exact Hm).
  assert (n / p <= m / p)%N as Hd by (by apply N.Div0.div_le_mono).
  assert (m / p < 10)%N as Hm10 by (apply N.Div0.div_lt_upper_bound; lia).
  change (string_le (String (digit ((n / p) mod 10)%N) (fixed w n +:+ s)) (String (digit ((m / p) mod 10)%N) (fixed w m +:+ s))).
  rewrite !(N.mod_small (_ / _)%N) by lia.
  destruct (N.eq_dec (n / p)%N (m / p)%N) as [E|Hne]; [|apply string_le_digit; lia].
  rewrite E. apply string_le_head. rewrite <- (fixed_mod w n), <- (fixed_mod w m). fold p.
  pose proof (N.mod_lt m p Hp). pose proof (N.div_mod' n p). pose proof (N.div_mod' m p). rewrite <- E in *.
  apply IH; [|done]. lia.
Qed.

Lemma num_digits_from_le fuel w n k : w <= k -> (n < 10 ^ N.of_nat k)%N -> num_digits_from fuel w n <= k.
Proof.
  revert w. induction fuel as [|fuel IH]; intros w Hw Hn; cbn; [done|]. destruct (N.ltb_spec n (10 ^ N.of_nat w)) as [|Hge]; [done|].
  apply IH; [|done]. destruct (decide (w = k)) as [->|]; [lia|lia].
Qed.

Lemma printf0_20 n : (n < 2 ^ 64)%N -> printf0 20 n = fixed 20 n.
Proof.
  intros Hn. unfold printf0. f_equal. apply Nat.max_l. apply num_digits_from_le; [lia|].
  eapply N.lt_le_trans; [exact Hn|]. by vm_compute.
Qed.

Lemma walFileName_order dir g1 g2 : (g1 <= g2)%N -> (g2 < 2 ^ 64)%N -> string_le (walFileName dir g1) (walFileName dir g2).
Proof.
  intros Hle Hg. unfold walFileName, Join, walBase. do 2 apply string_le_prefix. rewrite !printf0_20 by lia.
  apply fixed_order; [done|]. eapply N.lt_le_trans; [exact Hg|]. by vm_compute.
Qed.

Lemma walFileName_inj dir g1 g2 : (g1 < 2 ^ 64)%N -> (g2 < 2 ^ 64)%N -> walFileName dir g1 = walFileName dir g2 -> g1 = g2.
Proof.
  intros H1 H2 E. unfold walFileName, Join in E. apply (inj (String.append dir)), (inj (String.append "/")) in E.
  pose proof (proj2 (walBase_name g1 H1)) as E1. rewrite E, (proj2 (walBase_name g2 H2)) in E1. congruence.
Qed.

(** Table file names.  The name of a table is parsed back to its level and
    generation, for every level and generation the engine can produce, so a
    directory listing recovers each table's level. *)
Theorem sst_filename_roundtrip level gen :
  (0 <= level < 2 ^ 63)%Z -> (gen < 2 ^ 64)%N ->
  HasSuffix (sstBase level gen) ".sst" = true /\ parseSSTFilename (sstBase level gen) = Some (level, gen).
Proof. apply parse_sstBase. Qed.

Lemma sst_filename_roundtrip_witness :
  HasSuffix (sstBase 1 42) ".sst" = true /\ parseSSTFilename (sstBase 1 42) = Some (1%Z, 42%N).
Proof. apply (sst_filename_roundtrip 1 42); [split; [discriminate|reflexivity]|reflexivity]. Defined.

Example sst_name : sstFileName "db" 1 42 = "db/L01-00000000000000000042.sst".
Proof. vm_compute. reflexivity. Qed.
