(* ===== verification/MetricsScrape.v ===== *)
(** * Reading the metrics

    A reader of the text format of MetricsText.v, and what it reads of the
    engine's registry: for every series what was recorded in it. *)

From S2P Require Import Prelude GoIO MemTable Metrics FileNames MetricsText.
From Stdlib Require Import Ascii.
From stdpp Require Import base gmap sets list strings numbers fin_maps sorting.
Open Scope nat_scope.

(** ** The reader *)

Fixpoint lines (s : string) : list string :=
  match s with
  | EmptyString => [EmptyString]
  | String c s' =>
      if in_line c then match lines s' with l :: ls => String c l :: ls | [] => [String c EmptyString] end
      else EmptyString :: lines s'
  end.

(** What precedes and follows the last space. *)
Fixpoint last_space (s : string) : option (string * string) :=
  match s with
  | EmptyString => None
  | String c s' =>
      match last_space s' with
      | Some (a, b) => Some (String c a, b)
      | None => if bool_decide (c = " "%char) then Some (EmptyString, s') else None
      end
  end.

(** A sample is a line that is no comment: a series and its value. *)
Definition parse_line (l : string) : option (string * string) :=
  match l with
  | EmptyString => None
  | String c _ => if bool_decide (c = "#"%char) then None else last_space l
  end.

Definition scrape (text : string) : list (string * string) := omap parse_line (lines text).

(** ** Characters *)

Lemma all_chars_app p a b : all_chars p (a +:+ b) = all_chars p a && all_chars p b.
Proof.
  induction a as [|c a IH]; [done|].
  change (p c && all_chars p (a +:+ b) = p c && all_chars p a && all_chars p b). by rewrite IH, andb_assoc.
Qed.

Lemma all_chars_impl p q s : (forall c, p c = true -> q c = true) -> all_chars p s = true -> all_chars q s = true.
Proof. intros Hpq. induction s as [|c s IH]; [done|]. cbn. intros [H1 H2]%andb_true_iff. by rewrite Hpq, IH. Qed.

Lemma word_in_line s : all_chars in_word s = true -> all_chars in_line s = true.
Proof. apply all_chars_impl. unfold in_word. by intros c [? _]%andb_true_iff. Qed.

Lemma all_chars_substring p i n s : all_chars p s = true -> all_chars p (String.substring i n s) = true.
Proof.
  revert i n. induction s as [|c s IH]; intros i n; [by destruct i, n|]. cbn. intros [H1 H2]%andb_true_iff.
  destruct i; [destruct n; [done|]; cbn; by rewrite H1, IH|by apply IH].
Qed.

Lemma word_digits s : all_digits s = true -> all_chars in_word s = true.
Proof.
  induction s as [|c s IH]; [done|]. cbn. intros [Hc Hs]%andb_true_iff. rewrite IH by done.
  assert (in_word c = true) as ->; [|done]. unfold is_digit in Hc. unfold in_word, in_line.
  rewrite !bool_decide_false; [done|by intros ->..].
Qed.

Lemma word_printf0 w n : all_chars in_word (printf0 w n) = true.
Proof. apply word_digits, all_digits_printf0. Qed.

Lemma word_Itoa z : all_chars in_word (Itoa z) = true.
Proof. unfold Itoa. destruct (z <? 0)%Z; [|apply word_printf0]. rewrite all_chars_app, word_printf0. done. Qed.

Lemma word_zeros n : all_chars in_word (zeros n) = true.
Proof. induction n; [done|]. cbn. by rewrite IHn. Qed.

Lemma word_decimal ns : all_chars in_word (decimal_seconds ns) = true.
Proof.
  unfold decimal_seconds. destruct (ns =? 0)%N; [done|]. destruct (strip_zeros 15 ns) as [m k]. cbv zeta.
  destruct (_ <? -4)%Z; [destruct (_ =? 1)|destruct (_ <=? 0)%Z; [|destruct (_ <=? _)]];
    rewrite ?all_chars_app, ?word_zeros, ?all_chars_substring, ?word_printf0; done || apply word_printf0.
Qed.

Section scrape.
Context `{FT : FloatText}.

Lemma word_seconds ns : all_chars in_word (formatSeconds ns) = true.
Proof. unfold formatSeconds. destruct (_ && _); [apply word_decimal|apply FormatFloat_word]. Qed.

Lemma line_Quote s : all_chars in_line (Quote s) = true.
Proof.
  assert (forall c, all_chars in_line (escape c) = true) as He.
  { intros c. destruct c as [[] [] [] [] [] [] [] []]; reflexivity. }
  unfold Quote. cbn [all_chars]. rewrite all_chars_app. cbn [all_chars].
  induction s as [|c s IH]; [done|]. cbn [escape_all]. rewrite all_chars_app, He. exact IH.
Qed.

(** ** Lines *)

Lemma lines_app a s : all_chars in_line a = true -> lines (a +:+ newline +:+ s) = a :: lines s.
Proof.
  induction a as [|c a IH]; [done|]. cbn [all_chars]. intros [H1 H2]%andb_true_iff.
  change (lines (String c (a +:+ newline +:+ s)) = String c a :: lines s). cbn [lines]. by rewrite H1, IH.
Qed.

Lemma scrape_line a s : all_chars in_line a = true -> scrape (a +:+ newline +:+ s) = option_list (parse_line a) ++ scrape s.
Proof. intros Ha. unfold scrape. rewrite lines_app by done. cbn. by destruct (parse_line a). Qed.

Lemma last_space_word v : all_chars in_word v = true -> last_space v = None.
Proof.
  induction v as [|c v IH]; [done|]. cbn. intros [Hc Hv]%andb_true_iff. rewrite IH by done. unfold in_word in Hc.
  apply andb_true_iff in Hc as [_ Hc]. by destruct (bool_decide (c = " "%char)).
Qed.

Lemma last_space_app a v : all_chars in_word v = true -> last_space (a +:+ " " +:+ v) = Some (a, v).
Proof.
  intros Hv. induction a as [|c a IH].
  - change (last_space (String " " v) = Some (EmptyString, v)). cbn [last_space]. by rewrite last_space_word.
  - change (last_space (String c (a +:+ " " +:+ v)) = Some (String c a, v)). cbn [last_space]. by rewrite IH.
Qed.

(** A name: what may begin a sample. *)
Definition is_name (s : string) : bool :=
  match s with EmptyString => false | String c _ => negb (bool_decide (c = "#"%char)) && all_chars in_line s end.

Lemma is_name_app a b : is_name a = true -> all_chars in_line b = true -> is_name (a +:+ b) = true.
Proof.
  destruct a as [|c a]; [done|]. intros [H1 H2]%andb_true_iff Hb. change (is_name (String c (a +:+ b)) = true). cbn [is_name all_chars] in *.
  rewrite H1, all_chars_app. cbn [andb]. by rewrite andb_assoc, H2.
Qed.

Lemma scrape_sample name v s :
  is_name name = true -> all_chars in_word v = true -> scrape (sample name v +:+ s) = (name, v) :: scrape s.
Proof.
  intros Hn Hv. unfold sample. replace ((name +:+ " " +:+ v +:+ newline) +:+ s) with ((name +:+ " " +:+ v) +:+ newline +:+ s)
    by (by rewrite !string_app_assoc).
  destruct name as [|c name]; [done|]. apply andb_true_iff in Hn as [Hc Hn]. rewrite scrape_line.
  - assert (parse_line (String c name +:+ " " +:+ v) = Some (String c name, v)) as ->; [|done].
    change (String c name +:+ " " +:+ v) with (String c (name +:+ " " +:+ v)). cbn [parse_line].
    apply negb_true_iff in Hc. rewrite Hc. exact (last_space_app (String c name) v Hv).
  - rewrite !all_chars_app, Hn. cbn. by apply word_in_line.
Qed.

Lemma scrape_comments name help kind s :
  all_chars in_line (name +:+ help +:+ kind) = true -> scrape (comments name help kind +:+ s) = scrape s.
Proof.
  rewrite !all_chars_app. intros [Hn [Hh Hk]%andb_true_iff]%andb_true_iff. unfold comments.
  replace (("# HELP " +:+ name +:+ " " +:+ help +:+ newline +:+ "# TYPE " +:+ name +:+ " " +:+ kind +:+ newline) +:+ s)
    with (("# HELP " +:+ name +:+ " " +:+ help) +:+ newline +:+ ("# TYPE " +:+ name +:+ " " +:+ kind) +:+ newline +:+ s)
    by (by rewrite !string_app_assoc).
  rewrite scrape_line by (rewrite !all_chars_app, Hn, Hh; done). rewrite scrape_line by (rewrite !all_chars_app, Hn, Hk; done). done.
Qed.

Lemma name_labelled name label v : is_name name = true -> all_chars in_line label = true -> is_name (labelled name label v) = true.
Proof. intros Hn Hl. unfold labelled. apply is_name_app; [done|]. rewrite !all_chars_app, Hl, line_Quote. done. Qed.
(** ** Metrics *)

(** The samples of a metric. *)
Definition histogram_samples (name : string) (bounds cumulative : list Z) (sum count : Z) : list (string * string) :=
  ((fun bn => (labelled (name +:+ "_bucket") "le" (formatSeconds bn.1), Itoa bn.2)) <$> zip bounds cumulative) ++
  [(labelled (name +:+ "_bucket") "le" "+Inf", Itoa count); (name +:+ "_sum", formatSeconds sum); (name +:+ "_count", Itoa count)].

Definition level_samples (name label : string) (values : gmap string Z) : list (string * string) :=
  (fun k => (labelled name label k, Itoa (default 0%Z (values !! k)))) <$> merge_sort string_le (elements (dom values)).

Definition metric_samples (m : metric) : list (string * string) :=
  match m with
  | MCounter c => [(c_name c, Itoa (c_value c))]
  | MGauge g => [(g_name g, Itoa (g_value g))]
  | MGaugeVec gv => level_samples (gv_name gv) (gv_labelName gv) (gv_values gv)
  | MHistogram h => histogram_samples (h_name h) (h_bounds h) (cumulate 0 (h_counts h)) (h_sumNs h) (h_count h)
  end.

(** Names and help texts fit on their lines. *)
Definition presentable (m : metric) : bool :=
  match m with
  | MCounter c => is_name (c_name c) && all_chars in_line (c_help c)
  | MGauge g => is_name (g_name g) && all_chars in_line (g_help g)
  | MGaugeVec gv => is_name (gv_name gv) && all_chars in_line (gv_help gv) && all_chars in_line (gv_labelName gv)
  | MHistogram h => is_name (h_name h) && all_chars in_line (h_help h)
  end.

Lemma name_line s : is_name s = true -> all_chars in_line s = true.
Proof. destruct s as [|c s]; [done|]. by intros [_ ?]%andb_true_iff. Qed.

(** The labels of a vector in any order. *)
Lemma sorted_labels (keys : list string) (values : gmap string Z) :
  keys ≡ₚ elements (dom values) -> merge_sort string_le keys = merge_sort string_le (elements (dom values)).
Proof.
  intros Hk. apply (StronglySorted_unique string_le); [apply (StronglySorted_merge_sort string_le)..|]. by rewrite !merge_sort_Permutation.
Qed.

Lemma scrape_samples {X} (f g : X -> string) (l : list X) s :
  (forall x, is_name (f x) = true) -> (forall x, all_chars in_word (g x) = true) ->
  scrape (foldr String.append "" ((fun x => sample (f x) (g x)) <$> l) +:+ s) = ((fun x => (f x, g x)) <$> l) ++ scrape s.
Proof.
  intros Hf Hg. induction l as [|x l IH]; [done|]. cbn [fmap list_fmap foldr]. rewrite string_app_assoc, scrape_sample by done.
  cbn [app]. by rewrite <- IH.
Qed.

Lemma buckets_samples name acc buckets :
  render_buckets name acc buckets =
    foldr String.append "" ((fun bn => sample (labelled (name +:+ "_bucket") "le" (formatSeconds bn.1)) (Itoa bn.2)) <$>
      zip (buckets.*1) (cumulate acc (buckets.*2))).
Proof. revert acc. induction buckets as [|[b n] buckets IH]; intros acc; [done|]. cbn. f_equal. apply IH. Qed.

Lemma scrape_metric order m s :
  presentable m = true -> (forall gv, m = MGaugeVec gv -> order gv ≡ₚ elements (dom (gv_values gv))) ->
  match m with MHistogram h => length (h_counts h) = length (h_bounds h) | _ => True end ->
  scrape (render order m +:+ s) = metric_samples m ++ scrape s.
Proof.
  destruct m as [c|g|gv|h]; cbn [presentable render metric_samples]; intros Hp Ho Hl.
  - apply andb_true_iff in Hp as [Hn Hh]. unfold Counter_render.
    rewrite string_app_assoc, scrape_comments by (rewrite !all_chars_app, name_line, Hh by done; done).
    by rewrite scrape_sample by (done || apply word_Itoa).
  - apply andb_true_iff in Hp as [Hn Hh]. unfold Gauge_render.
    rewrite string_app_assoc, scrape_comments by (rewrite !all_chars_app, name_line, Hh by done; done).
    by rewrite scrape_sample by (done || apply word_Itoa).
  - rewrite !andb_true_iff in Hp. destruct Hp as [[Hn Hh] Hlb]. unfold GaugeVec_render. cbv zeta. rewrite (sorted_labels _ _ (Ho gv eq_refl)).
    rewrite string_app_assoc, scrape_comments by (rewrite !all_chars_app, name_line, Hh by done; done).
    apply (scrape_samples (labelled (gv_name gv) (gv_labelName gv)) (fun k => Itoa (default 0%Z (gv_values gv !! k)))); intros k;
      [by apply name_labelled|apply word_Itoa].
  - apply andb_true_iff in Hp as [Hn Hh]. unfold Histogram_render, histogram_samples.
    rewrite string_app_assoc, scrape_comments by (rewrite !all_chars_app, name_line, Hh by done; done).
    rewrite buckets_samples, fst_zip, snd_zip by lia. rewrite string_app_assoc.
    assert (is_name (h_name h +:+ "_bucket") = true) as Hb by by apply is_name_app.
    rewrite (scrape_samples (fun bn => labelled (h_name h +:+ "_bucket") "le" (formatSeconds bn.1)) (fun bn => Itoa bn.2))
      by (intros bn; apply word_Itoa || by apply name_labelled).
    rewrite !string_app_assoc, <- app_assoc. f_equal.
    rewrite scrape_sample by (apply word_Itoa || by apply name_labelled).
    rewrite scrape_sample by (apply word_seconds || by apply is_name_app).
    rewrite scrape_sample by (apply word_Itoa || by apply is_name_app). done.
Qed.

Lemma scrape_registry order ms :
  Forall (fun m => presentable m = true /\ (forall gv, m = MGaugeVec gv -> order gv ≡ₚ elements (dom (gv_values gv))) /\
    match m with MHistogram h => length (h_counts h) = length (h_bounds h) | _ => True end) ms ->
  scrape (Render order ms) = concat (metric_samples <$> ms).
Proof.
  induction 1 as [|m ms (H1 & H2 & H3) _ IH]; [done|]. cbn [Render foldr fmap list_fmap concat]. unfold Render in IH.
  by rewrite scrape_metric, IH.
Qed.
End scrape.

(** ** The engine's metrics *)

(** What the engine does with its metrics. *)
Inductive update :=
| Inc (c : counter_id)
| SetGauge (g : gauge_id) (v : Z)
| AddGauge (g : gauge_id) (delta : Z)
| SetLevel (label : string) (v : Z)
| ObserveIn (h : histogram_id) (d : Z).

Definition update_metrics (m : engineMetrics) (u : update) : engineMetrics :=
  match u with
  | Inc c => upd_counter c Counter_Inc m
  | SetGauge g v => upd_gauge g (fun x => Gauge_Set x v) m
  | AddGauge g delta => upd_gauge g (fun x => Gauge_Add x delta) m
  | SetLevel label v => upd_perLevel (fun x => GaugeVec_Set x label v) m
  | ObserveIn h d => upd_hist h (fun x => Observe x d) m
  end.

Definition recorded (us : list update) : engineMetrics := fold_left update_metrics us newEngineMetrics.

(** What was recorded: how often a counter was incremented, what a gauge was set
    to and adjusted by since, and the observations of a histogram. *)
Definition hits (c : counter_id) (us : list update) : Z :=
  Z.of_nat (length (List.filter (fun u => match u with Inc c' => bool_decide (c = c') | _ => false end) us)).

Definition gauge_now (g : gauge_id) (us : list update) : Z :=
  fold_left (fun v u =>
    match u with
    | SetGauge g' v' => if decide (g = g') then v' else v
    | AddGauge g' delta => if decide (g = g') then i64 (v + delta) else v
    | _ => v
    end) us 0%Z.

Definition levels_now (us : list update) : gmap string Z :=
  fold_left (fun m u => match u with SetLevel label v => <[label := v]> m | _ => m end) us ∅.

Definition observed (h : histogram_id) (us : list update) : list Z :=
  omap (fun u => match u with ObserveIn h' d => if decide (h = h') then Some d else None | _ => None end) us.

Definition total_ns (ds : list Z) : Z := fold_left (fun s d => i64 (s + Z.max 0 d)) ds 0%Z.

Lemma recorded_snoc us u : recorded (us ++ [u]) = update_metrics (recorded us) u.
Proof. unfold recorded. by rewrite fold_left_app. Qed.

Lemma recorded_counter c us :
  (Z.of_nat (length us) < 2 ^ 63)%Z ->
  em_counter (recorded us) c =
    MkCounter (c_name (em_counter newEngineMetrics c)) (c_help (em_counter newEngineMetrics c)) (hits c us).
Proof.
  induction us as [|u us IH] using rev_ind; intros Hl; [by destruct c|]. rewrite length_app in Hl. cbn in Hl.
  specialize (IH ltac:(lia)). rewrite recorded_snoc. unfold hits. rewrite List.filter_app, length_app. fold (hits c us).
  assert (0 <= hits c us <= Z.of_nat (length us))%Z as Hh by (unfold hits; pose proof (List.filter_length_le
    (fun u => match u with Inc c' => bool_decide (c = c') | _ => false end) us); lia).
  destruct u; cbn [update_metrics upd_counter upd_gauge upd_perLevel upd_hist em_counter List.filter];
    [|cbn [length]; rewrite Nat.add_0_r; exact IH..].
  destruct (decide (c = c0)) as [->|Hn].
  - rewrite bool_decide_true by done. cbn [length]. rewrite IH. unfold Counter_Inc. cbn [c_name c_help c_value].
    rewrite i64_small by lia. f_equal. unfold hits. lia.
  - rewrite bool_decide_false by done. cbn [length]. by rewrite Nat.add_0_r.
Qed.

Lemma recorded_gauge g us :
  em_gauge (recorded us) g =
    MkGauge (g_name (em_gauge newEngineMetrics g)) (g_help (em_gauge newEngineMetrics g)) (gauge_now g us).
Proof.
  induction us as [|u us IH] using rev_ind; [by destruct g|]. rewrite recorded_snoc. unfold gauge_now. rewrite fold_left_app.
  fold (gauge_now g us). destruct u; cbn; try done; destruct (decide (g = g0)) as [->|]; try done; by rewrite IH.
Qed.

Lemma recorded_levels us :
  em_perLevel (recorded us) =
    MkGaugeVec (gv_name (em_perLevel newEngineMetrics)) (gv_help (em_perLevel newEngineMetrics)) "level" (levels_now us).
Proof.
  induction us as [|u us IH] using rev_ind; [done|]. rewrite recorded_snoc. unfold levels_now. rewrite fold_left_app.
  fold (levels_now us). destruct u; cbn; try done. by rewrite IH.
Qed.

Lemma recorded_hist h us : em_hist (recorded us) h = observe_all (em_hist newEngineMetrics h) (observed h us).
Proof.
  induction us as [|u us IH] using rev_ind; [by destruct h|]. rewrite recorded_snoc. unfold observed. rewrite omap_app.
  fold (observed h us). unfold observe_all. rewrite fold_left_app. fold (observe_all (em_hist newEngineMetrics h) (observed h us)).
  destruct u; cbn; try done. destruct (decide (h = h0)) as [->|]; [|done]. by rewrite IH.
Qed.

Lemma length_observed h us : length (observed h us) <= length us.
Proof.
  induction us as [|u us IH]; [done|]. unfold observed in *. cbn [omap list_omap].
  destruct u; cbn [length]; try lia. destruct (decide (h = h0)); cbn [length]; lia.
Qed.

Lemma observe_all_sum h ds : h_sumNs h = 0%Z -> h_sumNs (observe_all h ds) = total_ns ds /\ h_name (observe_all h ds) = h_name h /\ h_help (observe_all h ds) = h_help h.
Proof.
  intros H0. induction ds as [|d ds IH] using rev_ind; [done|]. unfold observe_all, total_ns in *. rewrite !fold_left_app.
  destruct IH as (IH & ? & ?). cbn. split_and!; try done. rewrite IH. f_equal. destruct (Z.ltb_spec d 0); lia.
Qed.

Section registry.
Context `{FT : FloatText}.

(** What a reader of the engine's metrics sees. *)
Definition latency_samples (h : histogram_id) (ds : list Z) : list (string * string) :=
  histogram_samples (h_name (em_hist newEngineMetrics h)) defaultLatencyBucketsNs ((fun b => at_most b ds) <$> defaultLatencyBucketsNs)
    (total_ns ds) (Z.of_nat (length ds)).

Definition seen (us : list update) : list (string * string) :=
  ((fun c => (c_name (em_counter newEngineMetrics c), Itoa (hits c us))) <$>
    [putTotal; deleteTotal; getTotal; getHitTotal; getMissTotal; scanTotal; flushTotal; flushFailedTotal; compactionTotal;
     compactionFailedTotal; snapshotOpenTotal]) ++
  ((fun g => (g_name (em_gauge newEngineMetrics g), Itoa (gauge_now g us))) <$> [memtableEntries; immutableMemtables; sstablesTotal]) ++
  level_samples "kvstore_sstables_per_level" "level" (levels_now us) ++
  [(g_name (em_gauge newEngineMetrics activeSnapshots), Itoa (gauge_now activeSnapshots us))] ++
  concat ((fun h => latency_samples h (observed h us)) <$> [writeLatency; getLatency; flushLatency; compactionLatency]).

Lemma recorded_latency h us :
  (Z.of_nat (length us) < 2 ^ 59)%Z ->
  length (h_counts (em_hist (recorded us) h)) = length (h_bounds (em_hist (recorded us) h)) /\
  metric_samples (MHistogram (em_hist (recorded us) h)) = latency_samples h (observed h us) /\
  presentable (MHistogram (em_hist (recorded us) h)) = true.
Proof.
  intros Hl. rewrite recorded_hist. set (ds := observed h us). pose proof (length_observed h us : length ds <= length us) as Hds.
  assert (em_hist newEngineMetrics h = NewHistogram (h_name (em_hist newEngineMetrics h)) (h_help (em_hist newEngineMetrics h))) as Eh by (by destruct h).
  destruct (observe_all_sum (em_hist newEngineMetrics h) ds ltac:(by destruct h)) as (Es & En & Ehp).
  destruct (observe_all_new (h_name (em_hist newEngineMetrics h)) (h_help (em_hist newEngineMetrics h)) ds ltac:(lia)) as [Hok Hbd].
  rewrite <- Eh in Hok, Hbd. split_and!; [apply Hok| |].
  - cbn [metric_samples]. unfold latency_samples. rewrite Es, En, Hbd, (cumulate_at_most _ ds Hok Hbd) by lia. by rewrite (proj1 (proj2 (proj2 Hok))).
  - cbn [presentable]. rewrite En, Ehp. by destruct h.
Qed.

(** C40: what is scraped is what was recorded.  Whatever the engine does with its
    metrics, fewer than 2^59 times, and in whatever order the labels of its vector
    are visited, a reader of the text that [Render] writes gets one sample per
    counter with the number of its increments, per gauge with its value, per
    level in ascending order of the labels, and for every latency the number of
    observations up to each bound, their sum and their number. *)
Theorem metrics_scrape order us :
  (Z.of_nat (length us) < 2 ^ 59)%Z -> (forall gv, order gv ≡ₚ elements (dom (gv_values gv))) ->
  scrape (Render order (MetricsRegistry (recorded us))) = seen us.
Proof.
  intros Hl Ho. rewrite scrape_registry.
  - unfold MetricsRegistry, seen. rewrite !fmap_app, !concat_app. cbn [fmap list_fmap concat app].
    rewrite !(proj1 (proj2 (recorded_latency _ us Hl))). cbn [metric_samples].
    rewrite !recorded_counter, !recorded_gauge, recorded_levels by lia. cbn [c_name c_value g_name g_value gv_name gv_labelName gv_values app].
    cbn [em_perLevel newEngineMetrics gv_name]. by rewrite <- !app_assoc.
  - unfold MetricsRegistry. cbn [fmap list_fmap app].
    repeat (apply Forall_cons; split; [|]); [..|by apply Forall_nil]; split_and!; try done; cbn [presentable];
      try (by rewrite recorded_counter by lia); try (by rewrite recorded_gauge); try (by rewrite recorded_levels); try apply recorded_latency; done.
Qed.
End registry.

(** ** A run *)

Definition plain_floats : FloatText.
Proof. by refine {| FormatFloat_g := fun _ => "?"%string |}. Defined.

Definition updates1 : list update :=
  [Inc putTotal; ObserveIn writeLatency 700000; SetGauge memtableEntries 3; Inc putTotal; ObserveIn writeLatency 2000; AddGauge activeSnapshots 1;
   SetLevel "1" 4; SetLevel "0" 2; SetLevel "1" 7; AddGauge activeSnapshots (-1)]%Z.

Definition by_map (gv : GaugeVec) : list string := reverse (elements (dom (gv_values gv))).

Lemma metrics_scrape_witness :
  scrape (Render (FT := plain_floats) by_map (MetricsRegistry (recorded updates1))) = seen (FT := plain_floats) updates1.
Proof.
  apply (metrics_scrape (FT := plain_floats) by_map updates1 eq_refl). intros gv. apply reverse_Permutation.
Defined.

Example seen1 :
  drop 11 (take 21 (seen (FT := plain_floats) updates1)) =
    [("kvstore_memtable_entries", "3"); ("kvstore_immutable_memtables", "0"); ("kvstore_sstables_total", "0");
     (labelled "kvstore_sstables_per_level" "level" "0", "2"); (labelled "kvstore_sstables_per_level" "level" "1", "7");
     ("kvstore_active_snapshots", "0"); (labelled "kvstore_write_duration_seconds_bucket" "le" "0.0001", "1");
     (labelled "kvstore_write_duration_seconds_bucket" "le" "0.0005", "1"); (labelled "kvstore_write_duration_seconds_bucket" "le" "0.001", "2");
     (labelled "kvstore_write_duration_seconds_bucket" "le" "0.005", "2")]%string.
Proof. vm_compute. reflexivity. Qed.
