(* ===== verification/EngineState.v ===== *)
(** * The engine's state (src/engine/engine.go)

    The [Engine] struct with the objects it points to, its options, and the
    monad its methods run in.  Tables are shared objects with a reference
    count, so they live in a store and the engine's list, a compaction plan and
    a scan hold their numbers; a MemTable is owned by the engine, and the
    number given to it when it is created stands for its address.

    [E] is [M] with the engine's state: a method returns its error as a value,
    so the state changes it made before failing are kept. *)

From S2P Require Import Prelude GoIO IOLogic MemTable Versions SSTable Table Metrics.
From S2P Require Wal.
From stdpp Require Import base gmap sets list strings numbers fin_maps sorting.

Definition ErrClosed : error := ErrNew "engine: store is closed".
Definition ErrNotFound : error := ErrNew "engine: key not found".
Definition ErrEmptyKey : error := ErrNew "engine: key must not be empty".

(** ** Options *)

Record options := MkOptions {
  o_flushThreshold : Z; o_l0CompactionTrigger : Z; o_baseLevelSizeBytes : Z;
  o_levelSizeMultiplier : Z; o_maxLevels : Z; o_compress : bool }.

Definition defaultOptions : options :=
  MkOptions (4 * 1024 * 1024) 4 (2 * 1024 * 1024) 10 7 false.

Definition Option_ : Type := options -> options.

Definition WithFlushThreshold (n : Z) : Option_ := fun o =>
  MkOptions n (o_l0CompactionTrigger o) (o_baseLevelSizeBytes o) (o_levelSizeMultiplier o) (o_maxLevels o) (o_compress o).
Definition WithL0CompactionTrigger (n : Z) : Option_ := fun o =>
  MkOptions (o_flushThreshold o) n (o_baseLevelSizeBytes o) (o_levelSizeMultiplier o) (o_maxLevels o) (o_compress o).
Definition WithBaseLevelSizeBytes (n : Z) : Option_ := fun o =>
  MkOptions (o_flushThreshold o) (o_l0CompactionTrigger o) n (o_levelSizeMultiplier o) (o_maxLevels o) (o_compress o).
Definition WithLevelSizeMultiplier (n : Z) : Option_ := fun o =>
  MkOptions (o_flushThreshold o) (o_l0CompactionTrigger o) (o_baseLevelSizeBytes o) n (o_maxLevels o) (o_compress o).
Definition WithMaxLevels (n : Z) : Option_ := fun o =>
  MkOptions (o_flushThreshold o) (o_l0CompactionTrigger o) (o_baseLevelSizeBytes o) (o_levelSizeMultiplier o) n (o_compress o).
Definition WithCompression (enabled : bool) : Option_ := fun o =>
  MkOptions (o_flushThreshold o) (o_l0CompactionTrigger o) (o_baseLevelSizeBytes o) (o_levelSizeMultiplier o)
    (o_maxLevels o) enabled.

(** ** State *)

(** The field [mt] of a job or an entry is a pointer: its number and what it
    points to, which no longer changes once the MemTable is rotated out. *)
Record flushJob := MkJob { j_id : N; j_mt : MemTable; j_walPath : string }.
#[export] Instance flushJob_eq_dec : EqDecision flushJob.
Proof. solve_decision. Defined.
Record immEntry := MkImm { im_id : N; im_mt : MemTable; im_walPath : string }.
Record leveledTable := MkLT { lt_level : Z; lt_table : nat }.

Record Engine := MkEngine {
  e_dir : string;
  e_memId : N; e_mem : MemTable; e_wal : Wal.WAL; e_walPath : string;
  e_imm : list immEntry;
  e_tables : list leveledTable;
  e_closed : bool;
  e_seq : N; e_genCounter : N;
  e_opts : options;
  e_activeSnapshots : gmap N Z;
  e_m : engineMetrics;
  e_compactCh : bool;             (** a signal is pending in [compactCh] *)
  e_flushCh : list flushJob;      (** [flushCh], oldest first *)
  e_store : gmap nat Table;       (** the table objects *)
  e_nextTable : nat;
  e_clock : list Z }.             (** the durations [time.Since] will return *)

Definition set_mem (id : N) (mt : MemTable) (e : Engine) : Engine :=
  MkEngine (e_dir e) id mt (e_wal e) (e_walPath e) (e_imm e) (e_tables e) (e_closed e) (e_seq e) (e_genCounter e)
    (e_opts e) (e_activeSnapshots e) (e_m e) (e_compactCh e) (e_flushCh e) (e_store e) (e_nextTable e) (e_clock e).
Definition set_wal (w : Wal.WAL) (path : string) (e : Engine) : Engine :=
  MkEngine (e_dir e) (e_memId e) (e_mem e) w path (e_imm e) (e_tables e) (e_closed e) (e_seq e) (e_genCounter e)
    (e_opts e) (e_activeSnapshots e) (e_m e) (e_compactCh e) (e_flushCh e) (e_store e) (e_nextTable e) (e_clock e).
Definition set_imm (imm : list immEntry) (e : Engine) : Engine :=
  MkEngine (e_dir e) (e_memId e) (e_mem e) (e_wal e) (e_walPath e) imm (e_tables e) (e_closed e) (e_seq e) (e_genCounter e)
    (e_opts e) (e_activeSnapshots e) (e_m e) (e_compactCh e) (e_flushCh e) (e_store e) (e_nextTable e) (e_clock e).
Definition set_tables (ts : list leveledTable) (e : Engine) : Engine :=
  MkEngine (e_dir e) (e_memId e) (e_mem e) (e_wal e) (e_walPath e) (e_imm e) ts (e_closed e) (e_seq e) (e_genCounter e)
    (e_opts e) (e_activeSnapshots e) (e_m e) (e_compactCh e) (e_flushCh e) (e_store e) (e_nextTable e) (e_clock e).
Definition set_closed (c : bool) (e : Engine) : Engine :=
  MkEngine (e_dir e) (e_memId e) (e_mem e) (e_wal e) (e_walPath e) (e_imm e) (e_tables e) c (e_seq e) (e_genCounter e)
    (e_opts e) (e_activeSnapshots e) (e_m e) (e_compactCh e) (e_flushCh e) (e_store e) (e_nextTable e) (e_clock e).
Definition set_lastSeq (s : N) (e : Engine) : Engine :=
  MkEngine (e_dir e) (e_memId e) (e_mem e) (e_wal e) (e_walPath e) (e_imm e) (e_tables e) (e_closed e) s (e_genCounter e)
    (e_opts e) (e_activeSnapshots e) (e_m e) (e_compactCh e) (e_flushCh e) (e_store e) (e_nextTable e) (e_clock e).
Definition set_gen (g : N) (e : Engine) : Engine :=
  MkEngine (e_dir e) (e_memId e) (e_mem e) (e_wal e) (e_walPath e) (e_imm e) (e_tables e) (e_closed e) (e_seq e) g
    (e_opts e) (e_activeSnapshots e) (e_m e) (e_compactCh e) (e_flushCh e) (e_store e) (e_nextTable e) (e_clock e).
Definition set_snaps (s : gmap N Z) (e : Engine) : Engine :=
  MkEngine (e_dir e) (e_memId e) (e_mem e) (e_wal e) (e_walPath e) (e_imm e) (e_tables e) (e_closed e) (e_seq e) (e_genCounter e)
    (e_opts e) s (e_m e) (e_compactCh e) (e_flushCh e) (e_store e) (e_nextTable e) (e_clock e).
Definition set_metrics (m : engineMetrics) (e : Engine) : Engine :=
  MkEngine (e_dir e) (e_memId e) (e_mem e) (e_wal e) (e_walPath e) (e_imm e) (e_tables e) (e_closed e) (e_seq e) (e_genCounter e)
    (e_opts e) (e_activeSnapshots e) m (e_compactCh e) (e_flushCh e) (e_store e) (e_nextTable e) (e_clock e).
Definition set_compactCh (c : bool) (e : Engine) : Engine :=
  MkEngine (e_dir e) (e_memId e) (e_mem e) (e_wal e) (e_walPath e) (e_imm e) (e_tables e) (e_closed e) (e_seq e) (e_genCounter e)
    (e_opts e) (e_activeSnapshots e) (e_m e) c (e_flushCh e) (e_store e) (e_nextTable e) (e_clock e).
Definition set_flushCh (q : list flushJob) (e : Engine) : Engine :=
  MkEngine (e_dir e) (e_memId e) (e_mem e) (e_wal e) (e_walPath e) (e_imm e) (e_tables e) (e_closed e) (e_seq e) (e_genCounter e)
    (e_opts e) (e_activeSnapshots e) (e_m e) (e_compactCh e) q (e_store e) (e_nextTable e) (e_clock e).
Definition set_store (s : gmap nat Table) (next : nat) (e : Engine) : Engine :=
  MkEngine (e_dir e) (e_memId e) (e_mem e) (e_wal e) (e_walPath e) (e_imm e) (e_tables e) (e_closed e) (e_seq e) (e_genCounter e)
    (e_opts e) (e_activeSnapshots e) (e_m e) (e_compactCh e) (e_flushCh e) s next (e_clock e).
Definition set_clock (c : list Z) (e : Engine) : Engine :=
  MkEngine (e_dir e) (e_memId e) (e_mem e) (e_wal e) (e_walPath e) (e_imm e) (e_tables e) (e_closed e) (e_seq e) (e_genCounter e)
    (e_opts e) (e_activeSnapshots e) (e_m e) (e_compactCh e) (e_flushCh e) (e_store e) (e_nextTable e) c.

(** ** The monad *)

Definition E (A : Type) : Type := Engine -> M (Engine * (A + error)).

Definition eret {A} (a : A) : E A := fun e => ret (e, inl a).
Definition ethrow {A} (err : error) : E A := fun e => ret (e, inr err).

Definition ebind {A B} (m : E A) (k : A -> E B) : E B := fun e =>
  let! (e', r) := m e in
  match r with
  | inl a => k a e'
  | inr err => ret (e', inr err)
  end.

(** The error of [m] as a value. *)
Definition etry {A} (m : E A) : E (A + error) := fun e =>
  let! (e', r) := m e in ret (e', inl r).

Definition ewrap {A} (text : string) (m : E A) : E A := fun e =>
  let! (e', r) := m e in
  ret (e', match r with inl a => inl a | inr err => inr (ErrWrap text err) end).

Definition eget : E Engine := fun e => ret (e, inl e).
Definition emod (f : Engine -> Engine) : E unit := fun e => ret (f e, inl tt).

(** A call outside the engine's state. *)
Definition lift {A} (m : M A) : E A := fun e => let! r := attempt m in ret (e, r).

(** [return v, err] of a call made before. *)
Definition of_sum {A} (r : A + error) : E A :=
  match r with inl a => eret a | inr err => ethrow err end.

Notation "'let?' p := m 'in' k" := (ebind m (fun p => k))
  (at level 10, p pattern, m at level 200, k at level 200) : flume_scope.
Notation "m ;;? k" := (ebind m (fun _ => k))
  (at level 199, right associativity) : flume_scope.

Fixpoint efor {A} (l : list A) (f : A -> E unit) : E unit :=
  match l with
  | [] => eret tt
  | x :: l' => f x;;? efor l' f
  end.

(** ** Metrics and time *)

Definition inc (c : counter_id) : E unit := emod (fun e => set_metrics (upd_counter c Counter_Inc (e_m e)) e).
Definition gauge_add (g : gauge_id) (d : Z) : E unit :=
  emod (fun e => set_metrics (upd_gauge g (fun x => Gauge_Add x d) (e_m e)) e).
Definition gauge_set (g : gauge_id) (v : Z) : E unit :=
  emod (fun e => set_metrics (upd_gauge g (fun x => Gauge_Set x v) (e_m e)) e).

(** [h.Observe(time.Since(start))]. *)
Definition observe_since (h : histogram_id) : E unit := emod (fun e =>
  let d := default 0%Z (head (e_clock e)) in
  set_clock (tail (e_clock e)) (set_metrics (upd_hist h (fun x => Observe x d) (e_m e)) e)).

(** ** Tables *)

Definition alloc_table (t : Table) : E nat := fun e =>
  ret (set_store (<[e_nextTable e := t]> (e_store e)) (S (e_nextTable e)) e, inl (e_nextTable e)).

(** Dereferencing a table. *)
Definition load_table (tid : nat) : E Table := fun e =>
  match e_store e !! tid with Some t => ret (e, inl t) | None => panic end.

Definition store_table (tid : nat) (t : Table) : E unit :=
  emod (fun e => set_store (<[tid := t]> (e_store e)) (e_nextTable e) e).

Definition acquire_all (tids : list nat) : E unit :=
  efor tids (fun tid => let? t := load_table tid in store_table tid (Acquire t).2).

(** A table's method that returns the updated table and an error. *)
Definition table_call (f : Table -> M (Table * option error)) (tid : nat) : E (option error) :=
  let? t := load_table tid in
  let? (t', err) := lift (f t) in
  store_table tid t';;? eret err.

(** Errors are logged. *)
Definition releaseAll (tids : list nat) : E unit :=
  efor tids (fun tid => table_call Release tid;;? eret tt).

Definition allTablesLocked (e : Engine) : list nat := lt_table <$> e_tables e.

Definition levelTablesLocked (e : Engine) (level : Z) : list nat :=
  lt_table <$> filter (fun lt => lt_level lt = level) (e_tables e).

Definition nextGen : E N := fun e =>
  let g := u64 (e_genCounter e + 1) in ret (set_gen g e, inl g).
