(* ===== verification/Engine.v ===== *)
(** * The engine (src/engine/engine.go)

    Reads, writes, rotation, flushing, compaction, snapshots, opening with
    recovery, and closing, each one function over the state of EngineState.v
    that makes the same changes in the same order as the code.  A method that
    takes the engine's lock more than once is the composition of its critical
    sections ([write_locked] and [rotate_swap], [flush_write] and [flush_commit],
    [compact_merge] and [compact_commit]), which Interleave.v interleaves. *)

From S2P Require Import Prelude OrdMap GoIO IOLogic MemTable Versions SSTable Table Merge Metrics FileNames EngineState.
From S2P Require Wal Bloom.
From stdpp Require Import base gmap sets list strings numbers fin_maps sorting.
Open Scope nat_scope.

(** [^uint64(0)]. *)
Definition unboundedSeq : N := max_u64.

Definition buildRecords (mt : MemTable) : option (list Record) :=
  kvs ← MemTable.All mt;
  Some (map (fun kv => MkRec kv.1 (e_value kv.2) (e_type kv.2) (MemTable.e_seq kv.2)) kvs).

(** [targetSizeForLevel], with the wrap-around of int64. *)
Definition targetSizeForLevel (o : options) (lvl : Z) : Z :=
  Nat.iter (Z.to_nat (lvl - 1)) (fun size => i64 (size * o_levelSizeMultiplier o)) (o_baseLevelSizeBytes o).

Record compactionPlan := MkPlan { p_inputs : list nat; p_targetLevel : Z }.

Section engine.
Context `{FM : Bloom.FloatMath} `{FL : Flate}.
(** The coin flips of the skip list a new MemTable gets. *)
Context (coins : N -> list bool).

(** ** Reading *)

(** The closure [consider]. *)
Definition consider (maxSeq : N) (best : option Record) (rec : Record) : option Record :=
  if (maxSeq <? Seq rec)%N then best
  else match best with
       | None => Some rec
       | Some b => if (Seq b <? Seq rec)%N then Some rec else Some b
       end.

(** A MemTable's answer, with the zero [Key] of the literal. *)
Definition mem_record (entry : Entry) : Record := MkRec [] (e_value entry) (e_type entry) (MemTable.e_seq entry).

Definition consider_mem (key : bytes) (maxSeq : N) (best : option Record) (mt : MemTable) : E (option Record) :=
  let? (entry, ok) := lift (of_option (MemTable.Get mt key)) in
  eret (if ok then consider maxSeq best (mem_record entry) else best).

(** The loop over the immutable MemTables, newest first. *)
Fixpoint consider_imm (key : bytes) (maxSeq : N) (best : option Record) (mts : list MemTable) : E (option Record) :=
  match mts with
  | [] => eret best
  | mt :: mts' => let? best' := consider_mem key maxSeq best mt in consider_imm key maxSeq best' mts'
  end.

Fixpoint consider_tables (key : bytes) (maxSeq : N) (best : option Record) (tids : list nat) : E (option Record) :=
  match tids with
  | [] => eret best
  | tid :: tids' =>
      let? t := load_table tid in
      let? r := ewrap "engine: reading sstable" (lift (Table.Get t key maxSeq)) in
      consider_tables key maxSeq (match r with Some rec => consider maxSeq best rec | None => best end) tids'
  end.

(** [getAt] between the acquisition and the release of the tables. *)
Definition getAt_body (e : Engine) (key : bytes) (maxSeq : N) (tids : list nat) : E bytes :=
  let? best := consider_mem key maxSeq None (e_mem e) in
  let? best := consider_imm key maxSeq best (rev (im_mt <$> e_imm e)) in
  let? best := consider_tables key maxSeq best tids in
  match best with
  | None => ethrow ErrNotFound
  | Some b => if bool_decide (Typ b = TypeTombstone) then ethrow ErrNotFound else eret (Value b)
  end.

Definition getAt (key : bytes) (maxSeq : N) : E bytes :=
  match key with
  | [] => ethrow ErrEmptyKey
  | _ =>
      let? e := eget in
      if e_closed e then ethrow ErrClosed
      else
        let tids := allTablesLocked e in
        acquire_all tids;;?
        let? r := etry (getAt_body e key maxSeq tids) in
        releaseAll tids;;?
        of_sum r
  end.

Definition recordGet (err : option error) : E unit :=
  observe_since getLatency;;?
  inc getTotal;;?
  match err with
  | None => inc getHitTotal
  | Some e => if errors_Is e ErrNotFound then inc getMissTotal else eret tt
  end.

Definition err_opt {A} (r : A + error) : option error := match r with inl _ => None | inr e => Some e end.

Definition Get (key : bytes) : E bytes :=
  let? r := etry (getAt key unboundedSeq) in
  recordGet (err_opt r);;?
  of_sum r.

(** ** Choosing a compaction *)

Definition size_of (e : Engine) (tid : nat) : Z := match e_store e !! tid with Some t => SizeBytes t | None => 0%Z end.

(** The loop over the levels from [lvl] on, [k] of them. *)
Fixpoint pick_level (e : Engine) (k : nat) (lvl : Z) : option compactionPlan :=
  match k with
  | O => None
  | S k' =>
      match levelTablesLocked e lvl with
      | [] => pick_level e k' (lvl + 1)%Z
      | levelTables =>
          let total := fold_left (fun total tid => i64 (total + size_of e tid)) levelTables 0%Z in
          if (targetSizeForLevel (e_opts e) lvl <? total)%Z
          then Some (MkPlan (levelTables ++ levelTablesLocked e (lvl + 1)) (lvl + 1))
          else pick_level e k' (lvl + 1)%Z
      end
  end.

Definition pickCompactionLocked (e : Engine) : option compactionPlan :=
  let l0 := levelTablesLocked e 0 in
  if (o_l0CompactionTrigger (e_opts e) <=? Z.of_nat (length l0))%Z
  then Some (MkPlan (l0 ++ levelTablesLocked e 1) 1)
  else pick_level e (Z.to_nat (o_maxLevels (e_opts e) - 2)) 1.

Definition maybeTriggerCompaction : E unit :=
  let? e := eget in
  match pickCompactionLocked e with
  | None => eret tt
  | Some _ => emod (set_compactCh true)
  end.

Definition minActiveSnapshotSeq (e : Engine) : N :=
  map_fold (fun seq _ mn => if (seq <? mn)%N then seq else mn) unboundedSeq (e_activeSnapshots e).

(** ** Flushing *)

(** [append(imm[:i], imm[i+1:]...)] at the first entry for the MemTable. *)
Fixpoint remove_imm (id : N) (imm : list immEntry) : list immEntry :=
  match imm with
  | [] => []
  | ent :: imm' => if (im_id ent =? id)%N then imm' else ent :: remove_imm id imm'
  end.

(** *** [doFlush]

    Its work without the lock: the table of the job's MemTable, or nothing when a
    system call fails. *)
Definition flush_write (job : flushJob) : E (option Table) :=
  let? gen := nextGen in
  let? e := eget in
  let path := sstFileName (e_dir e) 0 gen in
  let? records := lift (of_option (buildRecords (j_mt job))) in
  let? w := etry (lift (SSTable.Write true path records (o_compress (e_opts e)))) in
  match w with
  | inr _ => eret None
  | inl _ =>
      let? t := etry (lift (Table.Open path)) in
      eret (match t with inr _ => None | inl t => Some t end)
  end.

(** From the lock on. *)
Definition flush_commit (job : flushJob) (t : Table) : E unit :=
  let? tid := alloc_table t in
  emod (fun e' => set_imm (remove_imm (j_id job) (e_imm e'))
                    (set_tables (e_tables e' ++ [MkLT 0 tid]) e'));;?
  let? _ := etry (lift (Wal.Remove (j_walPath job))) in
  maybeTriggerCompaction.

(** The body up to its metrics: whether the flush failed. *)
Definition doFlush_body (job : flushJob) : E bool :=
  let? t := flush_write job in
  match t with None => eret true | Some t => flush_commit job t;;? eret false end.

Definition doFlush (job : flushJob) : E unit :=
  let? failed := doFlush_body job in
  inc flushTotal;;?
  (if failed : bool then inc flushFailedTotal else eret tt);;?
  observe_since flushLatency.

(** One round of [flushWorker]; nothing happens on an empty queue. *)
Definition flushWorker_step : E unit :=
  let? e := eget in
  match e_flushCh e with
  | [] => eret tt
  | job :: rest => emod (set_flushCh rest);;? doFlush job
  end.

(** The drain before [flushWorker] exits. *)
Fixpoint flushWorker_drain (n : nat) : E unit :=
  match n with
  | O => eret tt
  | S n' => flushWorker_step;;? flushWorker_drain n'
  end.

(** ** Writing *)

Definition flushQueueDepth : nat := 16.

(** [e.flushCh <- job]: on a full queue the sender waits until the worker has
    taken a job. *)
Definition send_job (job : flushJob) : E unit :=
  let? e := eget in
  (if length (e_flushCh e) <? flushQueueDepth then eret tt else flushWorker_step);;?
  emod (fun e' => set_flushCh (e_flushCh e' ++ [job]) e').

(** The part under the lock, and closing the old log; the job to hand over. *)
Definition rotate_swap : E (option flushJob) :=
  let? e := eget in
  if (MemTable.Size (e_mem e) <? o_flushThreshold (e_opts e))%Z then eret None
  else
    let? newGen := nextGen in
    let newWALPath := walFileName (e_dir e) newGen in
    let? newWAL := ewrap "opening new wal" (lift (Wal.Open newWALPath)) in
    emod (fun e' => set_imm (e_imm e' ++ [MkImm (e_memId e) (e_mem e) (e_walPath e)])
                      (set_wal newWAL newWALPath (set_mem newGen (MemTable.New (coins newGen)) e')));;?
    let? _ := lift (Wal.Close (e_wal e)) in
    eret (Some (MkJob (e_memId e) (e_mem e) (e_walPath e))).

Definition rotate : E unit :=
  let? job := rotate_swap in
  match job with None => eret tt | Some job => send_job job end.

(** *** [write]

    Writers hold the lock together: each takes its sequence number, appends to the
    log and changes the MemTable, in steps between which others come. *)
Definition write_begin : E N :=
  let? e := eget in
  if e_closed e then ethrow ErrClosed
  else
    let seq := u64 (e_seq e + 1) in
    emod (set_lastSeq seq);;?
    eret seq.

Definition write_log (rec : Wal.Record_) : E unit :=
  let? e := eget in
  let? (w, err) := lift (Wal.Append (e_wal e) rec) in
  emod (set_wal w (e_walPath e));;?
  match err with
  | Some err => ethrow (ErrWrap "engine: wal append failed" err)
  | None => eret tt
  end.

(** Whether the MemTable is full. *)
Definition write_apply (key value : bytes) (typ : Wal.RecordType) (seq : N) : E bool :=
  let? e := eget in
  let? mt := lift (of_option (if bool_decide (typ = Wal.RecordPut) then MemTable.Put (e_mem e) key value seq
                              else MemTable.Delete (e_mem e) key seq)) in
  emod (set_mem (e_memId e) mt);;?
  eret (o_flushThreshold (e_opts e) <=? MemTable.Size mt)%Z.

(** All of it under the lock. *)
Definition write_locked (key value : bytes) (typ : Wal.RecordType) : E bool :=
  let? seq := write_begin in
  write_log (Wal.MkRecord typ key value seq);;?
  write_apply key value typ seq.

Definition write (key value : bytes) (typ : Wal.RecordType) : E unit :=
  let? full := write_locked key value typ in
  if full : bool then ewrap "engine: rotating memtable" rotate else eret tt.

Definition Put (key value : bytes) : E unit :=
  match key with
  | [] => ethrow ErrEmptyKey
  | _ =>
      let? r := etry (write key value Wal.RecordPut) in
      observe_since writeLatency;;? inc putTotal;;? of_sum r
  end.

Definition Delete (key : bytes) : E unit :=
  match key with
  | [] => ethrow ErrEmptyKey
  | _ =>
      let? r := etry (write key [] Wal.RecordDelete) in
      observe_since writeLatency;;? inc deleteTotal;;? of_sum r
  end.

(** ** Compaction *)

Definition isBottommost (e : Engine) (targetLevel : Z) : bool :=
  forallb (fun lvl => match levelTablesLocked e lvl with [] => true | _ => false end)
    (seqZ (targetLevel + 1) (o_maxLevels (e_opts e) - (targetLevel + 1))).

(** Fuel for [Merge]: one more than the records of the inputs. *)
Definition merge_fuel (ts : list Table) : nat := S (foldr (fun t n => length (t_index t) + n) 0 ts).

(** From the choice of the inputs to the end of the merge, without the lock. *)
Definition compact_merge (plan : compactionPlan) (bottommost : bool) : E (string * (unit + error)) :=
  let? e := eget in
  let minKeepSeq := minActiveSnapshotSeq e in
  let? gen := nextGen in
  let outPath := sstFileName (e_dir e) (p_targetLevel plan) gen in
  let inputs := omap (fun tid => e_store e !! tid) (p_inputs plan) in
  let? r := etry (lift (Merge.Merge (merge_fuel inputs) inputs outPath minKeepSeq bottommost (o_compress (e_opts e)))) in
  eret (outPath, r).

(** [remaining := e.tables[:0]] shares its array with [e.tables]: after the loop
    the first slots of [e.tables] hold [remaining], the others what they held. *)
Definition overwrite {A} (remaining ts : list A) : list A := remaining ++ drop (length remaining) ts.

(** The commit, under the lock. *)
Definition compact_commit (plan : compactionPlan) (outPath : string) (mergeErr : unit + error) : E unit :=
  let? e := eget in
  let remaining := filter (fun lt => lt_table lt ∉ p_inputs plan) (e_tables e) in
  emod (set_tables (overwrite remaining (e_tables e)));;?
  (match mergeErr with
   | inl _ =>
       let? t := ewrap "engine: reopening compacted sstable" (lift (Table.Open outPath)) in
       let? tid := alloc_table t in
       emod (set_tables (remaining ++ [MkLT (p_targetLevel plan) tid]))
   | inr err =>
       if errors_Is err ErrEmptyMerge then emod (set_tables remaining)
       else ethrow (ErrWrap "engine: compaction merge failed" err)
   end);;?
  efor (p_inputs plan) (fun tid => table_call Retire tid;;? eret tt);;?
  maybeTriggerCompaction.

Definition runCompaction : E unit :=
  let? e := eget in
  match pickCompactionLocked e with
  | None => eret tt
  | Some plan =>
      let? r := etry (let? (outPath, mergeErr) := compact_merge plan (isBottommost e (p_targetLevel plan)) in
                      compact_commit plan outPath mergeErr) in
      inc compactionTotal;;?
      (match r with inr _ => inc compactionFailedTotal | inl _ => eret tt end);;?
      observe_since compactionLatency;;?
      of_sum r
  end.

(** One round of [compactionLoop]; an error is logged. *)
Definition compactionLoop_step : E unit :=
  let? e := eget in
  if e_compactCh e then emod (set_compactCh false);;? (let? _ := etry runCompaction in eret tt) else eret tt.

(** ** Snapshots *)

Record Snapshot_ := MkSnapshot { s_seq : N; s_closed : bool }.

(** The part under the engine's lock. *)
Definition snapshot_load : E N :=
  let? e := eget in
  if e_closed e then ethrow ErrClosed else eret (e_seq e).

(** The part under [snapMu], and the metrics. *)
Definition snapshot_register (seq : N) : E Snapshot_ :=
  emod (fun e' => set_snaps (<[seq := (default 0 (e_activeSnapshots e' !! seq) + 1)%Z]> (e_activeSnapshots e')) e');;?
  inc snapshotOpenTotal;;?
  gauge_add activeSnapshots 1;;?
  eret (MkSnapshot seq false).

Definition Snapshot : E Snapshot_ :=
  let? seq := snapshot_load in snapshot_register seq.

Definition Snapshot_Get (s : Snapshot_) (key : bytes) : E bytes :=
  let? r := etry (getAt key (s_seq s)) in
  recordGet (err_opt r);;?
  of_sum r.

Definition Snapshot_Close (s : Snapshot_) : E Snapshot_ :=
  if s_closed s then eret s
  else
    emod (fun e => let n := (default 0 (e_activeSnapshots e !! s_seq s) - 1)%Z in
                   set_snaps (if (n <=? 0)%Z then delete (s_seq s) (e_activeSnapshots e)
                              else <[s_seq s := n]> (e_activeSnapshots e)) e);;?
    gauge_add activeSnapshots (-1);;?
    eret (MkSnapshot (s_seq s) true).

(** ** Opening *)

(** The callback of [Replay] in [recoverFromWALs]; it also tracks the largest
    sequence number. *)
Definition recover_record (st : MemTable * N) (rec : Wal.Record_) : M (MemTable * N) :=
  let (recovered, maxSeq) := st in
  let maxSeq := if (maxSeq <? Wal.r_seq rec)%N then Wal.r_seq rec else maxSeq in
  if bool_decide (Wal.r_type rec = Wal.RecordPut) then
    let! mt := of_option (MemTable.Put recovered (Wal.r_key rec) (Wal.r_value rec) (Wal.r_seq rec)) in ret (mt, maxSeq)
  else if bool_decide (Wal.r_type rec = Wal.RecordDelete) then
    let! mt := of_option (MemTable.Delete recovered (Wal.r_key rec) (Wal.r_seq rec)) in ret (mt, maxSeq)
  else throw (ErrNew "unrecognized WAL record type").

Fixpoint replay_all (walFiles : list string) (st : MemTable * N) : M (MemTable * N) :=
  match walFiles with
  | [] => ret st
  | path :: walFiles' =>
      let! st' := wrap "engine: recovering from wal" (Wal.Replay recover_record path st) in
      replay_all walFiles' st'
  end.

(** [wal.Remove], tolerating a file that is gone. *)
Definition remove_wal (path : string) : M unit :=
  let! r := attempt (Wal.Remove path) in
  match r with
  | inr err => if errors_Is err ErrNotExist then ret tt else throw err
  | inl _ => ret tt
  end.

Definition recoverFromWALs (walFiles : list string) : E unit :=
  match walFiles with
  | [] => eret tt
  | _ =>
      let? (recovered, maxSeq) := lift (replay_all walFiles (MemTable.New (coins 0), 0%N)) in
      let? e := eget in
      emod (set_lastSeq (if (e_seq e <? maxSeq)%N then maxSeq else e_seq e));;?
      (if 0 <? MemTable.Len recovered then
         let? gen := nextGen in
         let path := sstFileName (e_dir e) 0 gen in
         let? records := lift (of_option (buildRecords recovered)) in
         ewrap "engine: flushing recovered memtable" (lift (SSTable.Write true path records (o_compress (e_opts e))));;?
         let? t := ewrap "engine: reopening freshly-recovered sstable" (lift (Table.Open path)) in
         let? tid := alloc_table t in
         emod (fun e' => set_tables (e_tables e' ++ [MkLT 0 tid]) e')
       else eret tt);;?
      efor walFiles (fun path => ewrap "engine: removing recovered wal" (lift (remove_wal path)))
  end.

Definition open_tables (sstFiles : list sstFileInfo) : E unit :=
  efor sstFiles (fun sf =>
    let? t := ewrap "engine: opening existing sstable" (lift (Table.Open (sf_path sf))) in
    let? tid := alloc_table t in
    emod (fun e => set_tables (e_tables e ++ [MkLT (sf_level sf) tid]) e)).

(** The struct literal of [Open], with the options applied. *)
Definition new_engine (dir : string) (opts : list Option_) (clock : list Z) : Engine :=
  MkEngine dir 0 (MemTable.New []) (Wal.MkWAL (bufio_New "")) "" [] [] false 0 0
    (fold_left (fun o f => f o) opts defaultOptions) ∅ newEngineMetrics false [] ∅ 0 clock.

Definition Open (dir : string) (opts : list Option_) (clock : list Z) : M Engine :=
  let! (e, r) :=
    (lift (wrap "engine: creating directory" (syscall (ret tt)));;?
     let? (walFiles, sstFiles, maxGen) := lift (scanDir dir) in
     emod (set_gen maxGen);;?
     open_tables sstFiles;;?
     recoverFromWALs walFiles;;?
     let? newGen := nextGen in
     let walP := walFileName dir newGen in
     let? w := ewrap "engine: opening new wal" (lift (Wal.Open walP)) in
     emod (fun e => set_mem newGen (MemTable.New (coins newGen)) (set_wal w walP e))) (new_engine dir opts clock) in
  match r with
  | inl _ => ret e
  | inr err => throw err
  end.

(** ** Closing *)

(** Rounds of the two background goroutines. *)
Inductive work := FlushRound | CompactRound.

Definition work_round (x : work) : E unit :=
  let? _ := etry (match x with FlushRound => flushWorker_step | CompactRound => compactionLoop_step end) in eret tt.

Definition run_work (ws : list work) : E unit := efor ws work_round.

(** [e.wg.Wait()], after [close(e.stopCh)].  A worker whose other channel is ready
    too may take either branch of its [select]: it makes some more rounds, [ws],
    before it sees that the engine stops.  Then the compaction loop returns, with a
    compaction signalled or not, and the flush worker drains its queue.  A round
    that is already running finishes first. *)
Definition wait_workers (ws : list work) : E unit :=
  run_work ws;;?
  let? e := eget in
  flushWorker_drain (length (e_flushCh e)).

(** The loop over the tables; the first error is kept. *)
Fixpoint release_tables (tids : list nat) (firstErr : option error) : E (option error) :=
  match tids with
  | [] => eret firstErr
  | tid :: tids' =>
      let? err := table_call Release tid in
      release_tables tids' (match firstErr, err with
                            | None, Some err => Some (ErrWrap "engine: releasing sstable" err)
                            | _, _ => firstErr
                            end)
  end.

(** The flush of the active MemTable. *)
Definition final_flush (e : Engine) : E unit :=
  if 0 <? MemTable.Len (e_mem e) then
    let? gen := nextGen in
    let path := sstFileName (e_dir e) 0 gen in
    let? records := lift (of_option (buildRecords (e_mem e))) in
    ewrap "engine: final flush on close failed" (lift (SSTable.Write true path records (o_compress (e_opts e))));;?
    let? t := ewrap "engine: reopening final flushed sstable" (lift (Table.Open path)) in
    let? tid := alloc_table t in
    emod (fun e' => set_tables (e_tables e' ++ [MkLT 0 tid]) e')
  else eret tt.

Definition Close_body : E unit :=
  let? e := eget in
  final_flush e;;?
  let? (w, err) := lift (Wal.Close (e_wal e)) in
  emod (set_wal w (e_walPath e));;?
  match err with
  | Some err => ethrow (ErrWrap "engine: closing wal" err)
  | None =>
      ewrap "engine: removing final wal" (lift (remove_wal (e_walPath e)));;?
      let? e := eget in
      let? firstErr := release_tables (allTablesLocked e) None in
      match firstErr with None => eret tt | Some err => ethrow err end
  end.

Definition Close (ws : list work) : E unit :=
  let? e := eget in
  if e_closed e then eret tt
  else emod (set_closed true);;? wait_workers ws;;? Close_body.

(** ** Statistics *)

Record Stats_ := MkStats {
  MemTableEntries : Z; ImmutableMemTables : Z; SSTables : Z; TablesPerLevel : list Z }.

Definition per_level (e : Engine) : list Z :=
  fold_left (fun acc lt => if (0 <=? lt_level lt)%Z then alter (fun n => i64 (n + 1)) (Z.to_nat (lt_level lt)) acc else acc)
    (e_tables e) (replicate (Z.to_nat (o_maxLevels (e_opts e))) 0%Z).

Fixpoint set_levels (lvl : nat) (counts : list Z) : E unit :=
  match counts with
  | [] => eret tt
  | n :: counts' =>
      emod (fun e => set_metrics (upd_perLevel (fun g => GaugeVec_Set g (printf0 1 (N.of_nat lvl)) n) (e_m e)) e);;?
      set_levels (S lvl) counts'
  end.

Definition Stats : E Stats_ :=
  let? e := eget in
  let perLevel := per_level e in
  let entries := Z.of_nat (MemTable.Len (e_mem e)) in
  gauge_set memtableEntries entries;;?
  gauge_set immutableMemtables (Z.of_nat (length (e_imm e)));;?
  gauge_set sstablesTotal (Z.of_nat (length (e_tables e)));;?
  set_levels 0 perLevel;;?
  eret (MkStats entries (Z.of_nat (length (e_imm e))) (Z.of_nat (length (e_tables e))) perLevel).
End engine.
