(* ===== verification/EngineLogic.v ===== *)
(** * Reasoning about the engine's methods

    [wp m Q e w] says that the method [m], run on the engine [e] in the world
    [w], neither panics nor escapes the monad and ends with a result, an engine
    and a world that satisfy [Q].  The rules follow the structure of the code;
    the tactic [wp_step] applies them.  The rest of the file is about what an
    engine holds: the records of its MemTables and tables, and the reads they
    determine. *)

From S2P Require Import Prelude OrdMap GoIO IOLogic MemTable Versions SSTable Table Merge Metrics FileNames EngineState.
From S2P Require Wal SkipList.
From stdpp Require Import base gmap sets list strings numbers fin_maps sorting.
Open Scope nat_scope.

(** ** Weakest preconditions *)

Definition wp {A} (m : E A) (Q : A + error -> Engine -> world -> Prop) (e : Engine) (w : world) : Prop :=
  match m e w with
  | (Ok (e', r), w') => Q r e' w'
  | _ => False
  end.

Section rules.
Context {A B : Type}.
Implicit Types (Q : A + error -> Engine -> world -> Prop) (e : Engine) (w : world).

Lemma wp_mono (m : E A) Q Q' e w :
  wp m Q e w -> (forall r e' w', Q r e' w' -> Q' r e' w') -> wp m Q' e w.
Proof. unfold wp. destruct (m e w) as [[[e' r]|?|] w']; auto. Qed.

Lemma wp_run (m : E A) Q e w : wp m Q e w -> exists r e' w', m e w = (Ok (e', r), w') /\ Q r e' w'.
Proof. unfold wp. destruct (m e w) as [[[e' r]|?|] w']; [eauto|done|done]. Qed.

Lemma wp_of_run (m : E A) Q e w r e' w' : m e w = (Ok (e', r), w') -> Q r e' w' -> wp m Q e w.
Proof. unfold wp. by intros ->. Qed.

Lemma wp_conj (m : E A) Q Q' e w : wp m Q e w -> wp m Q' e w -> wp m (fun r e' w' => Q r e' w' /\ Q' r e' w') e w.
Proof. unfold wp. destruct (m e w) as [[[e' r]|?|] w']; auto. Qed.

Lemma wp_bind (m : E B) (k : B -> E A) Q e w :
  wp m (fun r e' w' => match r with inl b => wp (k b) Q e' w' | inr err => Q (inr err) e' w' end) e w ->
  wp (ebind m k) Q e w.
Proof.
  unfold wp, ebind, bind. destruct (m e w) as [[[e' [b|err]]|?|] w']; auto.
Qed.

Lemma wp_eret (a : A) Q e w : Q (inl a) e w -> wp (eret a) Q e w.
Proof. done. Qed.

Lemma wp_ethrow err Q e w : Q (inr err) e w -> wp (ethrow err) Q e w.
Proof. done. Qed.

Lemma wp_of_sum (r : A + error) Q e w : Q r e w -> wp (of_sum r) Q e w.
Proof. by destruct r. Qed.

Lemma wp_etry (m : E A) (Q : (A + error) + error -> Engine -> world -> Prop) e w :
  wp m (fun r => Q (inl r)) e w -> wp (etry m) Q e w.
Proof. unfold wp, etry, bind. destruct (m e w) as [[[e' r]|?|] w']; auto. Qed.

Lemma wp_ewrap text (m : E A) Q e w :
  wp m (fun r => Q (match r with inl a => inl a | inr err => inr (ErrWrap text err) end)) e w ->
  wp (ewrap text m) Q e w.
Proof. unfold wp, ewrap, bind. destruct (m e w) as [[[e' r]|?|] w']; auto. Qed.

Lemma wp_lift (m : M A) Q e w :
  match m w with
  | (Ok a, w') => Q (inl a) e w'
  | (Err err, w') => Q (inr err) e w'
  | (Panic, _) => False
  end -> wp (lift m) Q e w.
Proof. unfold wp, lift, attempt, bind, ret. destruct (m w) as [[a|err|] w']; auto. Qed.

Lemma wp_lift_option (o : option A) a Q e w : o = Some a -> Q (inl a) e w -> wp (lift (of_option o)) Q e w.
Proof. by intros ->. Qed.
End rules.

Lemma wp_eget (Q : Engine + error -> Engine -> world -> Prop) e w : Q (inl e) e w -> wp eget Q e w.
Proof. done. Qed.

Lemma wp_emod f (Q : unit + error -> Engine -> world -> Prop) e w : Q (inl tt) (f e) w -> wp (emod f) Q e w.
Proof. done. Qed.

Lemma wp_load_table tid t (Q : Table + error -> Engine -> world -> Prop) e w :
  e_store e !! tid = Some t -> Q (inl t) e w -> wp (load_table tid) Q e w.
Proof. intros E H. unfold wp, load_table. by rewrite E. Qed.

Lemma wp_alloc_table t (Q : nat + error -> Engine -> world -> Prop) e w :
  Q (inl (e_nextTable e)) (set_store (<[e_nextTable e := t]> (e_store e)) (S (e_nextTable e)) e) w ->
  wp (alloc_table t) Q e w.
Proof. done. Qed.

Lemma wp_nextGen (Q : N + error -> Engine -> world -> Prop) e w :
  Q (inl (u64 (e_genCounter e + 1))) (set_gen (u64 (e_genCounter e + 1)) e) w -> wp nextGen Q e w.
Proof. done. Qed.

(** A loop whose body never fails, with an invariant over the elements done. *)
Lemma wp_efor {X} (f : X -> E unit) (P : list X -> Engine -> world -> Prop) l e w :
  P [] e w ->
  (forall done x rest e' w', l = done ++ x :: rest -> P done e' w' ->
     wp (f x) (fun r e'' w'' => r = inl tt /\ P (done ++ [x]) e'' w'') e' w') ->
  wp (efor l f) (fun r e' w' => r = inl tt /\ P l e' w') e w.
Proof.
  intros H0 Hstep.
  assert (forall rest done e' w', l = done ++ rest -> P done e' w' ->
            wp (efor rest f) (fun r e' w' => r = inl tt /\ P l e' w') e' w') as HI; [|by apply (HI l [])].
  induction rest as [|x rest IH]; intros done e' w' El HP; cbn [efor].
  - apply wp_eret. rewrite app_nil_r in El. by subst.
  - apply wp_bind. eapply wp_mono; [by apply Hstep with rest|].
    intros r e'' w'' [-> HP']. apply (IH (done ++ [x])); [|done]. by rewrite <- app_assoc.
Qed.

Ltac wp_step :=
  lazymatch goal with
  | |- wp (ebind _ _) _ _ _ => apply wp_bind
  | |- wp (eret _) _ _ _ => apply wp_eret
  | |- wp (ethrow _) _ _ _ => apply wp_ethrow
  | |- wp eget _ _ _ => apply wp_eget
  | |- wp (emod _) _ _ _ => apply wp_emod
  | |- wp nextGen _ _ _ => apply wp_nextGen
  | |- wp (alloc_table _) _ _ _ => apply wp_alloc_table
  | |- wp (etry _) _ _ _ => apply wp_etry
  | |- wp (ewrap _ _) _ _ _ => apply wp_ewrap
  | |- wp (of_sum _) _ _ _ => apply wp_of_sum
  end; cbv beta iota.
Ltac wp_steps := repeat wp_step.

(** ** The table objects replaced *)

Definition with_store (s : gmap nat Table) (e : Engine) : Engine := set_store s (e_nextTable e) e.

Lemma with_store_id e : with_store (e_store e) e = e.
Proof. by destruct e. Qed.
