(* ===== verification/EngineInv.v ===== *)
(** * What an engine holds

    [inv c e w]: in the world [w] the engine [e] holds the contents [c], the
    records of the active MemTable, of the immutable ones and of the tables.
    Every record is a different version, stamped with a sequence number the
    engine has handed out; every table is open, pinned and in place on disk
    under a name of its own.  [view] is the multi-version store they make
    together.  [layered] is the order in time that dropping tombstones relies
    on. *)

From S2P Require Import Prelude OrdMap GoIO IOLogic MemTable Versions SSTable Table Merge FileNames EngineState EngineLogic.
From S2P Require Wal SkipList.
From stdpp Require Import base gmap sets list strings numbers fin_maps sorting.
From Stdlib Require Import Ascii.
Open Scope nat_scope.

(** ** MemTables *)

Definition rec_of (kv : bytes * Entry) : Record := MkRec kv.1 (e_value kv.2) (e_type kv.2) (MemTable.e_seq kv.2).

Definition mem_holds (mt : MemTable) (rs : list Record) : Prop := exists l, wb_repr mt l /\ rs = rec_of <$> l.

Lemma keys_rec_of l : Key <$> (rec_of <$> l) = l.*1.
Proof. rewrite <- list_fmap_compose. by apply list_fmap_ext. Qed.

Lemma mem_holds_keys mt rs : mem_holds mt rs -> StronglySorted bytes_lt (Key <$> rs).
Proof. intros (l & Hl & ->). rewrite keys_rec_of. exact (wb_repr_sorted mt l Hl). Qed.

Lemma mem_holds_sorted mt rs : mem_holds mt rs -> sorted_records rs.
Proof.
  intros H%mem_holds_keys. induction rs as [|r rs IH]; [constructor|]. cbn [fmap list_fmap] in H.
  apply StronglySorted_inv in H as [H1 H2]. constructor; [by apply IH|].
  rewrite Forall_fmap in H2. eapply Forall_impl; [exact H2|]. intros s Hs. by left.
Qed.

(** A key occurs at most once. *)
Lemma mem_holds_unique mt rs r s : mem_holds mt rs -> r ∈ rs -> s ∈ rs -> Key r = Key s -> r = s.
Proof.
  intros H%mem_holds_keys Hr Hs Hk.
  apply list_elem_of_lookup in Hr as [i Hi]. apply list_elem_of_lookup in Hs as [j Hj].
  assert (i = j) as ->; [|congruence].
  assert ((Key <$> rs) !! i = Some (Key r)) as Ei by by rewrite list_lookup_fmap, Hi.
  assert ((Key <$> rs) !! j = Some (Key s)) as Ej by by rewrite list_lookup_fmap, Hj.
  destruct (Nat.lt_trichotomy i j) as [Hlt|[?|Hlt]]; [|done|]; exfalso.
  - pose proof (StronglySorted_lookup bytes_lt _ i j _ _ H Ei Ej Hlt) as Hb. rewrite Hk in Hb. border.
  - pose proof (StronglySorted_lookup bytes_lt _ j i _ _ H Ej Ei Hlt) as Hb. rewrite Hk in Hb. border.
Qed.

Lemma mem_holds_get mt rs key :
  mem_holds mt rs ->
  exists entry ok, MemTable.Get mt key = Some (entry, ok) /\
    if ok : bool then rec_of (key, entry) ∈ rs else forall r, r ∈ rs -> Key r <> key.
Proof.
  intros (l & Hl & ->). pose proof (wb_repr_sorted mt l Hl) as Hs. pose proof (wb_repr_get mt l key Hl) as Hg.
  destruct (om_lookup key l) as [en|] eqn:E.
  - exists en, true. split; [exact Hg|]. apply list_elem_of_fmap. exists (key, en). split; [done|].
    by apply om_lookup_In.
  - exists inhabitant, false. split; [exact Hg|]. intros r ([k en] & -> & Hin)%list_elem_of_fmap Hk. simpl in Hk.
    subst k. apply om_lookup_In in Hin; congruence.
Qed.

(** ** Tables *)

Definition wal_path (p : string) : Prop := last_ascii p = Some "l"%char.

(** A path [scanDir] or [sstFileName] gives to a table. *)
Definition sst_path (dir : string) (level : Z) (gen : N) (p : string) : Prop :=
  exists name, p = FileNames.Join dir name /\ parseSSTFilename name = Some (level, gen) /\ last_ascii p = Some "t"%char.

Section contents.
Context `{FM : Bloom.FloatMath} `{FL : Flate}.

(** The file of a table, as [Write] made it. *)
Definition intact (fs : gmap string file) (t : Table) (rs : list Record) : Prop :=
  sorted_records rs /\ exists compress f n, fs !! t_path t = Some (MkFile (encode_table compress rs f) n) /\
    t_dataBlockSz t = Z.of_nat (length (data_block compress rs)) /\ fits compress rs f /\ filter_of rs = Some f.

Lemma intact_on_disk fs t rs : intact fs t rs -> on_disk fs t rs.
Proof.
  intros (Hs & compress & f & n & Hf & Hd & Hfit & _). split; [done|]. exists compress, f, n. split_and!; try done; apply Hfit.
Qed.

Record table_ok (e : Engine) (w : world) (lt : leveledTable) (rs : list Record) : Prop := {
  tok_level : (0 <= lt_level lt < 2 ^ 63)%Z;
  tok_nonempty : rs <> [];
  tok_keys : Forall (fun r => Key r <> []) rs;
  tok_table : exists t gen, e_store e !! lt_table lt = Some t /\ holds t rs /\ intact (w_files w) t rs /\
    t_released t = false /\ (1 <= t_refCount t)%Z /\
    sst_path (e_dir e) (lt_level lt) gen (t_path t) /\ (gen <= e_genCounter e)%N /\ t_removeOnZero t = false }.

(** ** Contents *)

Record contents := MkContents {
  c_mem : list Record; c_imm : list (list Record); c_tables : list (list Record) }.

Definition view (c : contents) : list Record := c_mem c ++ concat (rev (c_imm c)) ++ concat (c_tables c).

Definition job_of (ie : immEntry) : flushJob := MkJob (im_id ie) (im_mt ie) (im_walPath ie).

Definition table_path (e : Engine) (lt : leveledTable) : option string := t_path <$> e_store e !! lt_table lt.

Record inv (c : contents) (e : Engine) (w : world) : Prop := {
  inv_mem : mem_holds (e_mem e) (c_mem c);
  inv_imm : Forall2 (fun ie rs => mem_holds (im_mt ie) rs /\ rs <> []) (e_imm e) (c_imm c);
  inv_tables : Forall2 (table_ok e w) (e_tables e) (c_tables c);
  inv_tids : NoDup (lt_table <$> e_tables e);
  inv_paths : NoDup (table_path e <$> e_tables e);
  inv_store : forall tid, e_nextTable e <= tid -> e_store e !! tid = None;
  inv_versions : NoDup (version <$> view c);
  inv_keys : Forall (fun r => Key r <> [] /\ (Seq r <= e_seq e)%N) (view c);
  inv_ids : NoDup (e_memId e :: (im_id <$> e_imm e));
  inv_ids_gen : Forall (fun id => id <= e_genCounter e)%N (e_memId e :: (im_id <$> e_imm e));
  inv_jobs : e_flushCh e `sublist_of` (job_of <$> e_imm e);
  inv_wals : Forall wal_path (e_walPath e :: (im_walPath <$> e_imm e));
  inv_wal : bw_path (Wal.wal_w (e_wal e)) = e_walPath e }.

(** ** Order in time *)

(** Where both have versions of a key, those of [l1] are older. *)
Definition older (l1 l2 : list Record) : Prop :=
  forall r s, r ∈ l1 -> s ∈ l2 -> Key r = Key s -> (Seq r < Seq s)%N.

Record layered (c : contents) (e : Engine) : Prop := {
  lay_mem : Forall (fun l => older l (c_mem c)) (c_imm c);
  lay_imm : forall i j l1 l2, i < j -> c_imm c !! i = Some l1 -> c_imm c !! j = Some l2 -> older l1 l2;
  lay_tables : forall l, l ∈ c_tables c -> Forall (older l) (c_mem c :: c_imm c);
  lay_levels : forall i j a b l1 l2, e_tables e !! i = Some a -> e_tables e !! j = Some b ->
    c_tables c !! i = Some l1 -> c_tables c !! j = Some l2 -> (lt_level b < lt_level a)%Z -> older l1 l2 }.

(** ** Consequences *)

Lemma inv_unique c e w : inv c e w -> unique_versions (view c).
Proof. intros H. apply disjoint_unique, H. Qed.

Lemma elem_of_view r c :
  r ∈ view c <-> r ∈ c_mem c \/ (exists l, l ∈ c_imm c /\ r ∈ l) \/ (exists l, l ∈ c_tables c /\ r ∈ l).
Proof.
  unfold view. rewrite !elem_of_app, !elem_of_concat. setoid_rewrite <- (Permutation_rev (c_imm c)).
  naive_solver.
Qed.

(** Same engine up to what no read, write or background job depends on. *)
Lemma inv_irrelevant c e e' w w' :
  inv c e w -> w_files w' = w_files w ->
  e_dir e' = e_dir e -> e_memId e' = e_memId e -> e_mem e' = e_mem e -> e_wal e' = e_wal e -> e_walPath e' = e_walPath e ->
  e_imm e' = e_imm e -> e_tables e' = e_tables e -> e_seq e' = e_seq e -> e_genCounter e' = e_genCounter e ->
  e_flushCh e' = e_flushCh e -> e_store e' = e_store e -> e_nextTable e' = e_nextTable e ->
  inv c e' w'.
Proof.
  intros [] Hw Hd Hi Hm Hwal Hwp Himm Ht Hs Hg Hf Hst Hn.
  split; rewrite ?Hi, ?Hm, ?Hwal, ?Hwp, ?Himm, ?Ht, ?Hs, ?Hg, ?Hf, ?Hst, ?Hn; try done.
  - eapply Forall2_impl; [done|]. intros lt rs []. split; [done..|].
    rewrite Hst, Hd, Hg, Hw. done.
  - by rewrite (list_fmap_ext _ (table_path e) _ (fun _ lt _ => f_equal (fmap t_path) (f_equal (lookup _) Hst))).
Qed.

(** ** Reads *)

(** The answer to a read from the record it finds. *)
Definition answer (r : option Record) : bytes + error :=
  match live r with Some r => inl (Value r) | None => inr ErrNotFound end.
End contents.
