(* ===== verification/EngineRead.v ===== *)
(** * Point reads

    [getAt] against the contents of the engine: it answers from the newest
    visible version over the MemTables and tables, leaves the engine as it was
    (every table reference it takes is given back) and fails only when a system
    call does. *)

From S2P Require Import Prelude OrdMap GoIO IOLogic MemTable Versions SSTable Table Merge Metrics FileNames EngineState EngineLogic EngineInv Engine.
From S2P Require Wal SkipList.
From stdpp Require Import base gmap sets list strings numbers fin_maps sorting.
Open Scope nat_scope.

(** ** Pinned tables *)

(** A table with [n] more references. *)
Definition pin (n : nat) (t : Table) : Table :=
  set_life t (t_refCount t + Z.of_nat n) (t_removeOnZero t) (t_released t).

Lemma pin_0 t : pin 0 t = t.
Proof. destruct t. unfold pin, set_life. simpl. by rewrite Z.add_0_r. Qed.

Definition count (tid : nat) (l : list nat) : nat := length (filter (fun i => i = tid) l).

Lemma count_app tid l1 l2 : count tid (l1 ++ l2) = count tid l1 + count tid l2.
Proof. unfold count. by rewrite filter_app, length_app. Qed.

Lemma count_one tid i : count tid [i] = if decide (i = tid) then 1 else 0.
Proof. unfold count. rewrite filter_cons. by destruct (decide (i = tid)). Qed.

(** [s] is the store [base] with a reference more for every occurrence in [l]. *)
Definition pinned (base : gmap nat Table) (l : list nat) (s : gmap nat Table) : Prop :=
  forall tid, s !! tid = pin (count tid l) <$> base !! tid.

Lemma pinned_nil base s : pinned base [] s -> s = base.
Proof.
  intros H. apply map_eq. intros i. rewrite (H i). unfold count. simpl.
  destruct (base !! i); simpl; [by rewrite pin_0|done].
Qed.

(** A table of the store that is open and referenced. *)
Definition open_table (s : gmap nat Table) (tid : nat) : Prop :=
  exists t, s !! tid = Some t /\ t_released t = false /\ (1 <= t_refCount t)%Z.

Lemma wp_acquire_all e w tids :
  Forall (open_table (e_store e)) tids ->
  wp (acquire_all tids)
    (fun r e' w' => r = inl tt /\ exists s, e' = with_store s e /\ w' = w /\ pinned (e_store e) tids s) e w.
Proof.
  intros Hop. unfold acquire_all.
  apply (wp_efor _ (fun dn e' w' => exists s, e' = with_store s e /\ w' = w /\ pinned (e_store e) dn s)).
  - exists (e_store e). rewrite with_store_id. split_and!; [done|done|]. intros tid.
    unfold count. simpl. destruct (e_store e !! tid); simpl; [by rewrite pin_0|done].
  - intros dn tid rest e' w' El (s & -> & -> & Hs).
    assert (open_table (e_store e) tid) as (t & Et & Hrel & Href).
    { rewrite Forall_forall in Hop. apply Hop. rewrite El, elem_of_app. right. by left. }
    wp_step. eapply wp_load_table; [cbn; by rewrite (Hs tid), Et|]. cbn [fst snd]. unfold store_table. wp_step.
    split; [done|]. eexists. split_and!; [by destruct e|done|].
    unfold Acquire. cbn [e_store with_store set_store t_released pin set_life]. rewrite Hrel. cbn [snd].
    intros i. rewrite count_app, count_one. destruct (decide (tid = i)) as [->|Hne].
    + rewrite lookup_insert_eq, Et. simpl. f_equal. unfold pin, set_life. simpl. rewrite Hrel. f_equal. lia.
    + rewrite lookup_insert_ne by done. rewrite (Hs i). by rewrite Nat.add_0_r.
Qed.

Lemma wp_releaseAll e w tids s :
  Forall (open_table (e_store e)) tids -> pinned (e_store e) tids s ->
  wp (releaseAll tids) (fun r e' w' => r = inl tt /\ e' = e /\ w' = w) (with_store s e) w.
Proof.
  intros Hop Hs. unfold releaseAll. eapply wp_mono.
  { apply (wp_efor _ (fun dn e' w' => exists s rest, tids = dn ++ rest /\ e' = with_store s e /\ w' = w /\
                          pinned (e_store e) rest s)).
    - exists s, tids. split_and!; done.
    - intros dn tid rest e' w' El (s' & rest' & El' & -> & -> & Hs').
      rewrite El in El'. apply app_inv_head in El'. subst rest'.
      assert (open_table (e_store e) tid) as (t & Et & Hrel & Href).
      { rewrite Forall_forall in Hop. apply Hop. rewrite El, elem_of_app. right. by left. }
      unfold table_call. do 2 wp_step. eapply wp_load_table; [cbn; by rewrite (Hs' tid), Et|].
      assert (count tid (tid :: rest) = S (count tid rest)) as Ec.
      { unfold count. by rewrite filter_cons_True. }
      rewrite Ec. wp_step. apply wp_lift. unfold Release. cbn [t_refCount pin set_life].
      rewrite (proj2 (Z.ltb_lt _ _)) by lia. cbv [ret]. wp_step. unfold store_table. wp_steps.
      split; [done|]. eexists _, rest. split_and!; [by rewrite El, <- app_assoc|by destruct e|done|].
      cbn [e_store with_store set_store]. intros i. destruct (decide (tid = i)) as [->|Hne].
      + rewrite lookup_insert_eq, Et. simpl. f_equal. unfold pin, set_life. simpl. f_equal. lia.
      + rewrite lookup_insert_ne by done. rewrite (Hs' i). do 2 f_equal.
        unfold count. by rewrite filter_cons_False. }
  intros r e' w' [-> (s' & rest & El & -> & -> & Hs')]. split; [done|].
  assert (rest = []) as -> by (rewrite <- (app_nil_r tids) in El at 1; by apply app_inv_head in El).
  apply pinned_nil in Hs'. subst. split; [apply with_store_id|done].
Qed.

(** ** The candidates *)

(** What is left of a record in a MemTable's answer. *)
Definition strip (r : Record) : Record := MkRec [] (Value r) (Typ r) (Seq r).

Lemma strip_newer a b : strip <$> newer a b = newer (strip <$> a) (strip <$> b).
Proof. destruct a as [a|], b as [b|]; simpl; try done. by destruct (Seq a <? Seq b)%N. Qed.

Lemma answer_strip a b : strip <$> a = strip <$> b -> answer a = answer b.
Proof.
  destruct a as [a|], b as [b|]; simpl; try done. intros [= Hv Ht _]. unfold answer, live. simpl. rewrite Ht.
  case_bool_decide; by rewrite ?Hv.
Qed.

Lemma consider_newer m best r :
  consider m best r = newer best (if (Seq r <=? m)%N then Some r else None).
Proof.
  unfold consider. destruct (N.ltb_spec m (Seq r)), (N.leb_spec (Seq r) m); try lia.
  - by rewrite newer_None_r.
  - destruct best; simpl; [by destruct (_ <? _)%N|done].
Qed.

(** The only version of a key in a MemTable. *)
Lemma newest_only key m rs r :
  (forall s, s ∈ rs -> Key s = key -> s = r) -> r ∈ rs -> Key r = key ->
  newest key m rs = if (Seq r <=? m)%N then Some r else None.
Proof.
  intros Hu Hr Hk. destruct (newest key m rs) as [s|] eqn:E.
  - apply newest_Some in E as (Hs & [Hks Hm] & _). rewrite (Hu s Hs Hks) in *.
    by rewrite (proj2 (N.leb_le _ _) Hm).
  - destruct (N.leb_spec (Seq r) m) as [Hm|]; [|done].
    exfalso. by apply (proj1 (newest_None key m rs) E r).
Qed.

Section reads.
Context `{FM : Bloom.FloatMath} `{FL : Flate}.

Lemma holds_pin t n rs : holds t rs -> holds (pin n t) rs.
Proof. by intros []. Qed.

Lemma touches_Get P t key m : touches P (Table.Get t key m).
Proof.
  unfold Table.Get. frame. clear. induction (drop (search_index t key) (t_index t)) as [|ie es IH]; cbn [get_loop]; [frame|].
  unfold readRecordAt, decompressValue. frame.
Qed.

(** A point lookup changes no file, and errs only when a system call does. *)
Lemma Get_run t rs key m w :
  holds t rs -> Forall (fun r => Key r <> []) rs ->
  match Table.Get t key m w with
  | (Ok a, w') => a = newest key m rs /\ w_files w' = w_files w /\ (w_faults w = [] -> w_faults w' = [])
  | (Err _, w') => w_files w' = w_files w /\ w_faults w <> []
  | (Panic, _) => False
  end.
Proof.
  intros Ht Hk. pose proof (fun r w' => touches_none (Table.Get t key m) w r w' (touches_Get _ t key m)) as HF.
  pose proof (reads_Get t rs Ht key m) as HR.
  assert (forall r, head rs = Some r -> Key r <> []) as Hh.
  { intros r Hr. destruct rs; [done|]. injection Hr as ->. by apply Forall_cons in Hk as []. }
  specialize (HR Hh (w_files w) w eq_refl). destruct (Table.Get t key m w) as [[a|e|] w']; [|split; [by apply (HF _ _ eq_refl)|done]|done].
  destruct HR as [[-> Hw] Hfl]. auto.
Qed.

Lemma wp_consider_mem key m best mt rs (Q : option Record + error -> Engine -> world -> Prop) e w :
  mem_holds mt rs ->
  (forall b, strip <$> b = newer (strip <$> best) (strip <$> newest key m rs) -> Q (inl b) e w) ->
  wp (consider_mem key m best mt) Q e w.
Proof.
  intros Hm HQ. destruct (mem_holds_get mt rs key Hm) as (en & ok & E & Hok). unfold consider_mem.
  wp_step. eapply wp_lift_option; [exact E|]. cbv beta iota. wp_step. apply HQ. destruct ok.
  - rewrite consider_newer, strip_newer, (newest_only key m rs (rec_of (key, en))); [|intros s Hs Hk|done|done].
    + simpl. by destruct (_ <=? m)%N.
    + by apply (mem_holds_unique mt rs).
  - assert (newest key m rs = None) as ->.
    { apply newest_None. intros r Hr [Hk _]. by apply (Hok r). }
    simpl. by rewrite newer_None_r.
Qed.

Lemma wp_consider_imm key m mts rss (Q : option Record + error -> Engine -> world -> Prop) e w best :
  Forall2 mem_holds mts rss ->
  (forall b, strip <$> b = newer (strip <$> best) (strip <$> newest key m (concat rss)) -> Q (inl b) e w) ->
  wp (consider_imm key m best mts) Q e w.
Proof.
  intros Hm. revert best. induction Hm as [|mt rs mts rss Hmt Hm IH]; intros best HQ; cbn [consider_imm].
  - wp_step. apply HQ. simpl. by rewrite newer_None_r.
  - wp_step. eapply wp_consider_mem; [done|]. intros b Hb. apply IH. intros b' Hb'. apply HQ.
    cbn [concat]. by rewrite Hb', Hb, newest_app, strip_newer, newer_assoc.
Qed.

(** The tables as a reader finds them: pinned or not. *)
Definition readable (e : Engine) (tid : nat) (rs : list Record) : Prop :=
  exists t, e_store e !! tid = Some t /\ holds t rs /\ Forall (fun r => Key r <> []) rs.

Lemma wp_consider_tables key m tids rss (Q : option Record + error -> Engine -> world -> Prop) e w best :
  Forall2 (readable e) tids rss ->
  (forall b w', w_files w' = w_files w -> strip <$> b = newer (strip <$> best) (strip <$> newest key m (concat rss)) ->
     Q (inl b) e w') ->
  (forall err w', w_files w' = w_files w -> w_faults w <> [] -> Q (inr err) e w') ->
  wp (consider_tables key m best tids) Q e w.
Proof.
  intros Ht. revert w best. induction Ht as [|tid rs tids rss (t & Et & Hh & Hk) Ht IH];
    intros w best HQ HE; cbn [consider_tables].
  - wp_step. apply HQ; [done|]. simpl. by rewrite newer_None_r.
  - wp_step. eapply wp_load_table; [done|]. do 2 wp_step. apply wp_lift.
    pose proof (Get_run t rs key m w Hh Hk) as HG. destruct (Table.Get t key m w) as [[a|err|] w1]; [|by destruct HG; apply HE|done].
    destruct HG as (-> & Hw1 & Hfl). apply IH.
    + intros b w' Hw' Hb. apply HQ; [by rewrite Hw'|]. cbn [concat].
      rewrite Hb, newest_app, strip_newer, newer_assoc. f_equal.
      destruct (newest key m rs) as [r|] eqn:E; simpl; [|by rewrite newer_None_r].
      apply newest_Some in E as (_ & [_ Hm] & _).
      by rewrite consider_newer, (proj2 (N.leb_le _ _) Hm), strip_newer.
    + intros err w' Hw' Hfl'. apply HE; [by rewrite Hw'|]. auto.
Qed.

(** ** [getAt] *)

Lemma inv_open_tables c e w : inv c e w -> Forall (open_table (e_store e)) (allTablesLocked e).
Proof.
  intros Hi. unfold allTablesLocked. apply Forall_fmap, Forall_forall. intros lt Hin.
  apply list_elem_of_lookup in Hin as [i Hi'].
  destruct (Forall2_lookup_l _ _ _ _ _ (inv_tables _ _ _ Hi) Hi') as (rs & _ & Hok).
  destruct (tok_table _ _ _ _ Hok) as (t & g & Et & _ & _ & Hrel & Href & _). by exists t.
Qed.

Lemma inv_readable c e w l s :
  inv c e w -> pinned (e_store e) l s -> Forall2 (readable (with_store s e)) (allTablesLocked e) (c_tables c).
Proof.
  intros Hi Hs. unfold allTablesLocked. apply Forall2_fmap_l. eapply Forall2_impl; [apply (inv_tables _ _ _ Hi)|].
  intros lt rs [_ _ Hk (t & g & Et & Hh & _)]. eexists. split; [cbn; by rewrite (Hs _), Et|].
  split; [by apply holds_pin|done].
Qed.

Definition read_ok (key : bytes) (m : N) (c : contents) (w : world) (r : bytes + error) : Prop :=
  r = answer (newest key m (view c)) \/ (exists err, r = inr err) /\ w_faults w <> [].

(** No read depends on the engine's sequence number. *)
Lemma wp_getAt_body q c e w key m s tids :
  inv c (set_lastSeq q e) w -> pinned (e_store e) tids s ->
  wp (getAt_body e key m (allTablesLocked e))
    (fun r e' w' => e' = with_store s e /\ w_files w' = w_files w /\ read_ok key m c w r) (with_store s e) w.
Proof.
  intros Hi Hs. unfold getAt_body.
  wp_step. eapply wp_consider_mem; [apply (inv_mem _ _ _ Hi)|]. intros b1 Hb1.
  wp_step. eapply (wp_consider_imm key m _ (rev (c_imm c))).
  { apply Forall2_rev, Forall2_fmap_l. eapply Forall2_impl; [apply (inv_imm _ _ _ Hi)|]. by intros ie rs []. }
  intros b2 Hb2. wp_step.
  eapply (wp_consider_tables key m _ (c_tables c)); [exact (inv_readable _ _ _ _ _ Hi Hs)| |].
  - intros b3 w' Hw' Hb3.
    unfold read_ok. assert (answer b3 = answer (newest key m (view c))) as <-.
    { apply answer_strip. rewrite Hb3, Hb2, Hb1. unfold view. by rewrite !newest_app, !strip_newer, newer_assoc. }
    unfold answer, live. destruct b3 as [r|]; [|wp_step; auto]. simpl.
    case_bool_decide; wp_step; auto.
  - intros err w' Hw' Hfl. split_and!; [done|done|]. right. eauto.
Qed.

(** The outcome of [getAt]: the engine and the files are left as they were. *)
Definition get_post (key : bytes) (m : N) (c : contents) (e : Engine) (w : world) (r : bytes + error) (e' : Engine) (w' : world) : Prop :=
  e' = e /\ w_files w' = w_files w /\ (key = [] -> r = inr ErrEmptyKey) /\
  (key <> [] -> e_closed e = true -> r = inr ErrClosed) /\ (key <> [] -> e_closed e = false -> read_ok key m c w r).

Lemma wp_getAt_seq q c e w key m : inv c (set_lastSeq q e) w -> wp (getAt key m) (get_post key m c e w) e w.
Proof.
  intros Hi. unfold getAt, get_post. destruct key as [|b key]; [by wp_step|]. do 2 wp_step.
  destruct (e_closed e) eqn:Ec; [by wp_step|]. wp_step.
  pose proof (inv_open_tables _ _ _ Hi : Forall (open_table (e_store e)) (allTablesLocked e)) as Hop.
  eapply wp_mono; [by apply wp_acquire_all|]. intros ? ? ? (-> & s & -> & -> & Hs).
  do 2 wp_step. eapply wp_mono; [by eapply (wp_getAt_body q)|]. intros r ? w1 (-> & Hw1 & Hr).
  wp_step. eapply wp_mono; [by apply wp_releaseAll|]. intros ? ? ? (-> & -> & ->).
  wp_step. split_and!; naive_solver.
Qed.

Lemma wp_getAt c e w key m : inv c e w -> wp (getAt key m) (get_post key m c e w) e w.
Proof. intros Hi. apply (wp_getAt_seq (e_seq e)). by destruct e. Qed.

(** C17: point reads.  Whatever the state of the engine, [getAt] returns the
    value of the newest version of the key with [Seq <= maxSeq] among the active
    MemTable, the immutable ones and all tables, and ErrNotFound when there is
    none or it is a tombstone.  It rejects an empty key and a closed engine,
    fails otherwise only if a system call failed, never panics, and leaves the
    engine, table reference counts included, and all files unchanged. *)
Theorem getAt_newest c e w key m :
  inv c e w ->
  exists r w', getAt key m e w = (Ok (e, r), w') /\ w_files w' = w_files w /\
    (key = [] -> r = inr ErrEmptyKey) /\
    (key <> [] -> e_closed e = true -> r = inr ErrClosed) /\
    (key <> [] -> e_closed e = false -> read_ok key m c w r).
Proof.
  intros Hi. destruct (wp_run _ _ _ _ (wp_getAt c e w key m Hi)) as (r & e' & w' & E & -> & H). by exists r, w'.
Qed.
End reads.
