(* ===== verification/EngineFlush.v ===== *)
(** * Flushing

    A flush moves one immutable MemTable to a new level-0 table.  Whatever
    fails on the way, the engine keeps answering every read as before. *)

From S2P Require Import Prelude OrdMap GoIO IOLogic MemTable Versions SSTable Table Merge Metrics FileNames EngineState EngineLogic EngineInv Engine.
From S2P Require Wal SkipList Bloom.
From Stdlib Require Import Ascii.
From stdpp Require Import base gmap sets list strings numbers fin_maps sorting.
Open Scope nat_scope.

(** ** Paths *)

Lemma sst_path_new dir level gen :
  (0 <= level < 2 ^ 63)%Z -> (gen < 2 ^ 64)%N -> sst_path dir level gen (sstFileName dir level gen).
Proof.
  intros Hl Hg. exists (sstBase level gen). split_and!; [done|by apply parse_sstBase|apply last_sstFileName].
Qed.

Lemma sst_path_gen dir l1 g1 l2 g2 p : sst_path dir l1 g1 p -> sst_path dir l2 g2 p -> g1 = g2.
Proof.
  intros (n1 & -> & E1 & _) (n2 & E & E2 & _). unfold FileNames.Join in E.
  apply (inj (String.append dir)), (inj (String.append "/")) in E. subst. congruence.
Qed.

Lemma sst_path_tmp dir l g p q : sst_path dir l g p -> p <> tmp_of q.
Proof.
  intros (n & _ & _ & E) ->. unfold tmp_of in E. rewrite (last_ascii_app q _ "p"%char) in E; done.
Qed.

Lemma sst_path_wal dir l g p : sst_path dir l g p -> ~ wal_path p.
Proof. unfold wal_path. intros (n & _ & _ & E) E'. congruence. Qed.

(** A path an existing table of the engine may have. *)
Definition known (e : Engine) (p : string) : Prop :=
  exists level gen, sst_path (e_dir e) level gen p /\ (gen <= e_genCounter e)%N.

Lemma known_fresh e level p :
  (0 <= level < 2 ^ 63)%Z -> (e_genCounter e < max_u64)%N -> known e p ->
  p <> sstFileName (e_dir e) level (e_genCounter e + 1) /\
  p <> tmp_of (sstFileName (e_dir e) level (e_genCounter e + 1)).
Proof.
  intros Hl Hg (l & g & Hp & Hle). split; [|by eapply sst_path_tmp].
  intros ->. pose proof (sst_path_gen _ _ _ _ _ _ Hp (sst_path_new (e_dir e) level (e_genCounter e + 1) Hl ltac:(unfold max_u64 in *; lia))).
  lia.
Qed.

Definition same_known (e : Engine) (w w' : world) : Prop := forall p, known e p -> w_files w' !! p = w_files w !! p.

Lemma same_known_trans e w1 w2 w3 : same_known e w1 w2 -> same_known e w2 w3 -> same_known e w1 w3.
Proof. intros H1 H2 p Hp. by rewrite H2, H1. Qed.

Lemma same_known_eq e w w' : w_files w' = w_files w -> same_known e w w'.
Proof. intros E p _. by rewrite E. Qed.

Lemma touches_known {A} (m : M A) P e w r w' :
  touches P m -> m w = (r, w') -> (forall p, known e p -> ~ P p) -> same_known e w w'.
Proof. intros Hm Hr HP p Hp. apply (Hm _ _ _ Hr). by apply HP. Qed.

Section tables.
Context `{FM : Bloom.FloatMath} `{FL : Flate}.

Lemma table_ok_keep e e' w w' lt rs :
  table_ok e w lt rs -> e_dir e' = e_dir e -> (e_genCounter e <= e_genCounter e')%N ->
  e_store e' !! lt_table lt = e_store e !! lt_table lt ->
  (forall p, table_path e lt = Some p -> w_files w' !! p = w_files w !! p) -> table_ok e' w' lt rs.
Proof.
  intros [Hl Hne Hk (t & g & Et & Hh & Hd & Hrel & Href & Hp & Hg & Hrm)] Ed Eg Es Hw. split; [done..|].
  exists t, g. rewrite Es, Ed. split_and!; try done; [|lia].
  destruct Hd as (Hs & compress & f & n & Hf & Hd). split; [done|]. exists compress, f, n.
  split; [|done]. rewrite Hw; [done|]. unfold table_path. by rewrite Et.
Qed.

Lemma tables_keep_files e e' w w' lts rss :
  Forall2 (table_ok e w) lts rss -> e_dir e' = e_dir e -> (e_genCounter e <= e_genCounter e')%N ->
  (forall tid, tid ∈ lt_table <$> lts -> e_store e' !! tid = e_store e !! tid) ->
  (forall p, Some p ∈ table_path e <$> lts -> w_files w' !! p = w_files w !! p) ->
  Forall2 (table_ok e' w') lts rss.
Proof.
  intros Ht Ed Eg Es Hw. induction Ht as [|lt rs lts rss Hlt Ht IH]; constructor.
  - eapply table_ok_keep; [done..| |].
    + apply Es. by left.
    + intros p Hp. apply Hw. rewrite <- Hp. by left.
  - apply IH; [intros tid Hin; apply Es; by right|intros p Hin; apply Hw; by right].
Qed.

Lemma table_ok_known e w lt rs p : table_ok e w lt rs -> table_path e lt = Some p -> known e p.
Proof.
  intros [_ _ _ (t & g & Et & _ & _ & _ & _ & Hs & Hg & _)] Hp. unfold table_path in Hp.
  rewrite Et in Hp. injection Hp as <-. by exists (lt_level lt), g.
Qed.

Lemma tables_keep e e' w w' lts rss :
  Forall2 (table_ok e w) lts rss -> e_dir e' = e_dir e -> (e_genCounter e <= e_genCounter e')%N ->
  (forall tid, tid ∈ lt_table <$> lts -> e_store e' !! tid = e_store e !! tid) -> same_known e w w' ->
  Forall2 (table_ok e' w') lts rss.
Proof.
  intros Ht Ed Eg Es Hw. eapply tables_keep_files; [done..|]. intros p Hin. apply Hw.
  apply list_elem_of_fmap in Hin as (lt & Hp & Hin). apply list_elem_of_lookup in Hin as [i Hlt].
  destruct (Forall2_lookup_l _ _ _ _ _ Ht Hlt) as (rs & _ & Hok). by eapply table_ok_known.
Qed.

Lemma inv_world c e w w' : inv c e w -> same_known e w w' -> inv c e w'.
Proof. intros [] Hw. split; try done. by eapply tables_keep. Qed.

Lemma inv_fresh_tid c e w tid : inv c e w -> tid ∈ lt_table <$> e_tables e -> tid < e_nextTable e.
Proof.
  intros Hi Hin. apply list_elem_of_fmap in Hin as (lt & -> & Hin).
  apply list_elem_of_lookup in Hin as [i Hlt].
  destruct (Forall2_lookup_l _ _ _ _ _ (inv_tables _ _ _ Hi) Hlt) as (rs & _ & Hok).
  destruct (tok_table _ _ _ _ Hok) as (t & g & Et & _).
  destruct (decide (lt_table lt < e_nextTable e)) as [|Hge]; [done|].
  by rewrite (inv_store _ _ _ Hi) in Et by lia.
Qed.

(** Adding a table under a fresh number and a fresh path. *)
Lemma table_path_insert c e w t lts :
  inv c e w -> lts ⊆ e_tables e ->
  table_path (set_store (<[e_nextTable e := t]> (e_store e)) (S (e_nextTable e)) e) <$> lts = table_path e <$> lts.
Proof.
  intros Hi Hsub. apply list_fmap_ext. intros i lt Hlt. unfold table_path. cbn. rewrite lookup_insert_ne; [done|].
  assert (lt_table lt < e_nextTable e); [|lia]. eapply inv_fresh_tid; [done|].
  by apply list_elem_of_fmap_2, Hsub, (list_elem_of_lookup_2 _ i).
Qed.

Lemma known_table c e w p : inv c e w -> Some p ∈ table_path e <$> e_tables e -> known e p.
Proof.
  intros Hi Hin. apply list_elem_of_fmap in Hin as (lt & Hp & Hin). apply list_elem_of_lookup in Hin as [i Hlt].
  destruct (Forall2_lookup_l _ _ _ _ _ (inv_tables _ _ _ Hi) Hlt) as (rs & _ & Hok). by eapply table_ok_known.
Qed.

Lemma nodup_paths c e w t lts tid level p :
  inv c e w -> lts `sublist_of` e_tables e -> tid = e_nextTable e -> t_path t = p -> Some p ∉ table_path e <$> e_tables e ->
  NoDup (table_path (set_store (<[e_nextTable e := t]> (e_store e)) (S (e_nextTable e)) e) <$> (lts ++ [MkLT level tid])).
Proof.
  intros Hi Hsub -> Hp Hk.
  assert (lts ⊆ e_tables e) as Hsub' by (intros x Hx; by apply (elem_of_sublist _ _ _ Hx Hsub)).
  rewrite fmap_app, (table_path_insert c e w) by done. apply NoDup_app. split_and!.
  - eapply sublist_NoDup; [apply (inv_paths _ _ _ Hi)|]. by apply fmap_sublist.
  - intros q Hin Hq%list_elem_of_singleton. unfold table_path in Hq. cbn in Hq. rewrite lookup_insert_eq in Hq. cbn in Hq.
    subst q. apply Hk. rewrite <- Hp. eapply elem_of_sublist; [exact Hin|]. by apply fmap_sublist.
  - apply NoDup_singleton.
Qed.

(** The records a table can be written from. *)
Definition flushable (compress : bool) (rs : list Record) : Prop :=
  exists f, filter_of rs = Some f /\ fits compress rs f.

Lemma Write_run nilEmpty path rs compress f w :
  rs <> [] -> sorted_records rs -> fits compress rs f -> filter_of rs = Some f ->
  match SSTable.Write nilEmpty path rs compress w with
  | (Ok _, w') =>
      w_files w' = <[path := MkFile (encode_table compress rs f) (length (encode_table compress rs f))]>
                     (delete (tmp_of path) (w_files w)) /\ (w_faults w = [] -> w_faults w' = [])
  | (Err _, w') => w_faults w <> [] /\ forall q, q <> path -> q <> tmp_of path -> w_files w' !! q = w_files w !! q
  | (Panic, _) => False
  end.
Proof.
  intros Hne Hs Hfit Hf.
  pose proof (triple_Write (w_files w) nilEmpty path compress rs f Hne Hs Hfit Hf w eq_refl) as HT.
  pose proof (touches_Write nilEmpty path rs compress w) as HF.
  destruct (SSTable.Write nilEmpty path rs compress w) as [[u|e|] w']; [done| |done].
  split; [done|]. intros q H1 H2. apply (HF _ _ eq_refl). naive_solver.
Qed.

Lemma touches_parse_index P n rest acc : touches P (parse_index n rest acc).
Proof. revert rest acc. induction n as [|n IH]; intros rest acc; cbn [parse_index]; frame. Qed.
#[local] Hint Resolve touches_parse_index : io.

Lemma touches_Open P path : touches P (Table.Open path).
Proof. unfold Table.Open, Open_body, Open_footer, read_block, close_quiet. frame. Qed.

Lemma Open_run path compress rs f n w :
  FlateLaws FL -> rs <> [] -> sorted_records rs -> fits compress rs f -> filter_of rs = Some f ->
  w_files w !! path = Some (MkFile (encode_table compress rs f) n) ->
  match Table.Open path w with
  | (Ok t, w') => t = table_of path compress rs f /\ w_files w' = w_files w /\ (w_faults w = [] -> w_faults w' = [])
  | (Err _, w') => w_faults w <> [] /\ w_files w' = w_files w
  | (Panic, _) => False
  end.
Proof.
  intros HFL Hne Hs Hfit Hf Hp.
  destruct (filter_of_total compress rs f Hfit Hne) as (f' & Hf' & Hd & _). rewrite Hf in Hf'. injection Hf' as <-.
  pose proof (triple_Open (w_files w) path compress rs f n Hfit Hd Hp w eq_refl) as HT.
  pose proof (fun r w' => touches_none (Table.Open path) w r w' (touches_Open _ path)) as HF.
  destruct (Table.Open path w) as [[t|e|] w']; [|split; [done|by apply (HF _ _ eq_refl)]|done].
  destruct HT as [[-> Hw] Hfl]. done.
Qed.

(** A table found on disk and opened. *)
Lemma table_ok_at e w level gen tid path compress rs f n :
  FlateLaws FL -> (0 <= level < 2 ^ 63)%Z -> (gen <= e_genCounter e)%N -> sst_path (e_dir e) level gen path ->
  rs <> [] -> sorted_records rs -> Forall (fun r => Key r <> []) rs -> fits compress rs f -> filter_of rs = Some f ->
  e_store e !! tid = Some (table_of path compress rs f) ->
  w_files w !! path = Some (MkFile (encode_table compress rs f) n) -> table_ok e w (MkLT level tid) rs.
Proof.
  intros HFL Hl Hg Hp Hne Hs Hk Hfit Hf Et Hw. split; [done..|].
  exists (table_of path compress rs f), gen. split_and!; try done.
  - by apply table_of_holds.
  - split; [done|]. by exists compress, f, n.
Qed.
End tables.

(** ** The flush of one MemTable *)

Section flush.
Context `{FM : Bloom.FloatMath} `{FL : Flate} `{HFL : !FlateLaws FL}.

Lemma buildRecords_holds mt rs : mem_holds mt rs -> buildRecords mt = Some rs.
Proof. intros (l & Hl & ->). unfold buildRecords. by rewrite (wb_repr_all mt l Hl : MemTable.All mt = _). Qed.

Definition flushed (c : contents) (ls1 ls2 : list (list Record)) (rs : list Record) : contents :=
  MkContents (c_mem c) (ls1 ++ ls2) (c_tables c ++ [rs]).

Lemma view_flushed c ls1 ls2 rs : c_imm c = ls1 ++ rs :: ls2 -> view (flushed c ls1 ls2 rs) ≡ₚ view c.
Proof.
  intros E. unfold view, flushed. simpl. rewrite E. rewrite <- !Permutation_rev, !concat_app. cbn [concat].
  rewrite app_nil_r. solve_Permutation.
Qed.

Lemma view_perm_reads c c' e w key m : inv c e w -> view c' ≡ₚ view c -> newest key m (view c') = newest key m (view c).
Proof. intros Hi Hp. apply newest_perm; [by eapply inv_unique|done]. Qed.

Lemma remove_imm_middle imm1 ie imm2 :
  NoDup (im_id <$> (imm1 ++ ie :: imm2)) -> remove_imm (im_id ie) (imm1 ++ ie :: imm2) = imm1 ++ imm2.
Proof.
  induction imm1 as [|a imm1 IH]; simpl; intros Hnd; [by rewrite N.eqb_refl|].
  apply NoDup_cons in Hnd as [Hnot Hnd]. destruct (N.eqb_spec (im_id a) (im_id ie)) as [E|]; [|by rewrite IH].
  destruct Hnot. rewrite E, fmap_app. apply elem_of_app. right. by left.
Qed.

(** An immutable MemTable leaves the list. *)
Lemma inv_drop_imm c e w imm1 ie imm2 ls1 rs ls2 :
  inv c e w -> e_imm e = imm1 ++ ie :: imm2 -> c_imm c = ls1 ++ rs :: ls2 -> length imm1 = length ls1 ->
  e_flushCh e `sublist_of` (job_of <$> imm2) ->
  inv (MkContents (c_mem c) (ls1 ++ ls2) (c_tables c)) (set_imm (imm1 ++ imm2) e) w.
Proof.
  intros Hi Ei Ec Hlen Hj.
  pose proof (inv_imm _ _ _ Hi) as HI. rewrite Ei, Ec in HI. apply Forall2_app_inv in HI as [HI1 HI2]; [|done].
  apply Forall2_cons in HI2 as [_ HI2].
  assert (imm1 ++ imm2 `sublist_of` e_imm e) as Hsub.
  { rewrite Ei. apply sublist_app; [done|]. by apply sublist_cons. }
  assert (view (MkContents (c_mem c) (ls1 ++ ls2) (c_tables c)) `sublist_of` view c) as Hv.
  { unfold view. cbn. rewrite Ec, !rev_app_distr. cbn. rewrite !concat_app. cbn. rewrite app_nil_r, <- !app_assoc.
    apply sublist_app; [done|]. apply sublist_app; [done|]. by apply sublist_inserts_l. }
  destruct Hi; split; try done; cbn.
  - by apply Forall2_app.
  - by eapply tables_keep.
  - eapply sublist_NoDup; [done|]. by apply fmap_sublist.
  - by eapply Forall_sublist.
  - eapply sublist_NoDup; [done|]. by apply sublist_skip, fmap_sublist.
  - eapply Forall_sublist; [|done]. by apply sublist_skip, fmap_sublist.
  - rewrite fmap_app. by apply sublist_inserts_l.
  - eapply Forall_sublist; [|done]. by apply sublist_skip, fmap_sublist.
Qed.

(** An opened table joins the list. *)
Definition attach (level : Z) (t : Table) (e : Engine) : Engine :=
  set_tables (e_tables e ++ [MkLT level (e_nextTable e)])
    (set_store (<[e_nextTable e := t]> (e_store e)) (S (e_nextTable e)) e).

Definition add_table (rs : list Record) (c : contents) : contents :=
  MkContents (c_mem c) (c_imm c) (c_tables c ++ [rs]).

Lemma view_add_table rs c : view (add_table rs c) = view c ++ rs.
Proof. unfold view, add_table. cbn. rewrite concat_app. cbn. by rewrite app_nil_r, <- !app_assoc. Qed.

Lemma inv_attach c e w level gen path compress rs f n :
  inv c e w -> (0 <= level < 2 ^ 63)%Z -> (gen <= e_genCounter e)%N -> sst_path (e_dir e) level gen path ->
  Some path ∉ table_path e <$> e_tables e ->
  rs <> [] -> sorted_records rs -> fits compress rs f -> filter_of rs = Some f ->
  Forall (fun r => Key r <> [] /\ (Seq r <= e_seq e)%N) rs -> NoDup (version <$> view c ++ rs) ->
  w_files w !! path = Some (MkFile (encode_table compress rs f) n) ->
  inv (add_table rs c) (attach level (table_of path compress rs f) e) w.
Proof.
  intros Hi Hl Hg Hsp Hpn Hne Hs Hfit Hf Hks Hnd Hp. pose proof (inv_keys _ _ _ Hi) as Hks0. pose proof (inv_store _ _ _ Hi) as Hst.
  pose proof (nodup_paths c e w (table_of path compress rs f) (e_tables e) _ level path Hi ltac:(done) eq_refl eq_refl Hpn) as Hpaths.
  assert (forall tid, tid ∈ lt_table <$> e_tables e -> tid < e_nextTable e) as Hfresh by (intros; by eapply inv_fresh_tid).
  destruct Hi; split; try done.
  - cbn. apply Forall2_app.
    + eapply tables_keep; [done|done|cbn; lia| |done]. intros tid Hin. cbn.
      rewrite lookup_insert_ne; [done|]. specialize (Hfresh _ Hin). lia.
    + constructor; [|constructor]. apply (table_ok_at _ _ level gen _ path compress rs f n); cbn; try done.
      * eapply Forall_impl; [exact Hks|]. by intros r [].
      * by rewrite lookup_insert_eq.
  - cbn. rewrite fmap_app. apply NoDup_app. split_and!; [done| |apply NoDup_singleton].
    intros tid Hin ->%list_elem_of_singleton. specialize (Hfresh _ Hin). simpl in *. lia.
  - intros tid Hle. cbn in *. rewrite lookup_insert_ne by lia. apply Hst. lia.
  - by rewrite view_add_table.
  - rewrite view_add_table. by apply Forall_app.
Qed.

Lemma inv_gen c e w g : inv c e w -> (e_genCounter e <= g)%N -> inv c (set_gen g e) w.
Proof.
  intros [] Hg. split; try done; cbn.
  - by eapply tables_keep.
  - eapply Forall_impl; [done|]. intros; cbn in *; lia.
Qed.

(** A table just written under a fresh name. *)
Definition with_table (level : Z) (t : Table) (e : Engine) : Engine := attach level t (set_gen (e_genCounter e + 1) e).

Lemma inv_add_table c e w w' level rs f :
  inv c e w -> (0 <= level < 2 ^ 63)%Z -> (e_genCounter e < max_u64)%N ->
  rs <> [] -> sorted_records rs -> fits (o_compress (e_opts e)) rs f -> filter_of rs = Some f ->
  Forall (fun r => Key r <> [] /\ (Seq r <= e_seq e)%N) rs -> NoDup (version <$> view c ++ rs) ->
  let path := sstFileName (e_dir e) level (e_genCounter e + 1) in
  let data := encode_table (o_compress (e_opts e)) rs f in
  same_known e w w' -> w_files w' !! path = Some (MkFile data (length data)) ->
  inv (add_table rs c) (with_table level (table_of path (o_compress (e_opts e)) rs f) e) w'.
Proof.
  intros Hi Hl Hg Hne Hs Hfit Hf Hks Hnd path data Hw Hp.
  apply (inv_attach c (set_gen (e_genCounter e + 1) e) w' level (e_genCounter e + 1) path _ rs f (length data)); try done.
  - apply inv_gen; [by eapply inv_world|lia].
  - apply sst_path_new; [done|]. unfold max_u64 in *. cbn in *. lia.
  - intros Hin. change (Some path ∈ table_path e <$> e_tables e) in Hin.
    by destruct (known_fresh e level path Hl Hg (known_table _ _ _ _ Hi Hin)).
Qed.

(** *** Files *)

(** A file that is entirely on disk. *)
Definition synced_at (w : world) (p : string) : Prop := exists f, w_files w !! p = Some f /\ f_synced f = length (f_data f).

(** The path of the next table. *)
Definition next_path (lvl : Z) (e : Engine) : string := sstFileName (e_dir e) lvl (e_genCounter e + 1).

(** A step without failing system calls that gives up the tables [ins] and the
    files [gone] and, if [out] is set, adds a table at level [lvl]. *)
Record moved (lvl : Z) (out : bool) (ins : list leveledTable) (gone : list string)
    (e : Engine) (w : world) (e' : Engine) (w' : world) : Prop := {
  mv_tables : forall lt, lt ∈ e_tables e' <-> lt ∈ e_tables e /\ lt ∉ ins \/ out = true /\ lt = MkLT lvl (e_nextTable e);
  mv_store : forall lt, lt ∈ e_tables e -> lt ∉ ins -> e_store e' !! lt_table lt = e_store e !! lt_table lt;
  mv_new : out = true -> exists t, e_store e' !! e_nextTable e = Some t /\ t_path t = next_path lvl e /\
    t_refCount t = 1%Z /\ synced_at w' (next_path lvl e);
  mv_none : out = false -> w_files w' !! next_path lvl e = w_files w !! next_path lvl e;
  mv_gone : forall p, p ∈ gone -> w_files w' !! p = None;
  mv_same : forall p, p <> next_path lvl e -> p <> tmp_of (next_path lvl e) -> p ∉ gone -> w_files w' !! p = w_files w !! p;
  mv_gen : e_genCounter e' = (e_genCounter e + 1)%N }.

(** What a background job leaves alone. *)
Definition steady (e e' : Engine) : Prop :=
  e_dir e' = e_dir e /\ e_closed e' = e_closed e /\ e_seq e' = e_seq e /\ e_opts e' = e_opts e /\
  e_activeSnapshots e' = e_activeSnapshots e /\ e_memId e' = e_memId e /\ e_mem e' = e_mem e /\
  e_wal e' = e_wal e /\ e_walPath e' = e_walPath e.

Lemma wp_maybeTrigger e w (Q : unit + error -> Engine -> world -> Prop) :
  (forall b, Q (inl tt) (set_compactCh b e) w) -> wp maybeTriggerCompaction Q e w.
Proof.
  intros H. unfold maybeTriggerCompaction. wp_step. wp_step. destruct (pickCompactionLocked e); wp_step; [apply H|].
  specialize (H (e_compactCh e)). by destruct e.
Qed.

Lemma Remove_run path w :
  match Wal.Remove path w with
  | (Panic, _) => False
  | (_, w') => (forall q, q <> path -> w_files w' !! q = w_files w !! q) /\
               (w_faults w = [] -> w_faults w' = [] /\ w_files w' !! path = None)
  end.
Proof.
  pose proof (touches_os_Remove (fun q => q = path) path eq_refl w) as HF. unfold Wal.Remove.
  assert (forall r w', os_Remove path w = (r, w') -> r <> Panic /\ (w_faults w = [] -> w_faults w' = [] /\ w_files w' !! path = None)) as Hp.
  { destruct w as [fs fl]. io_unfold. destruct fl as [|[n|] fl]; simpl; intros r w'; destruct (fs !! path) eqn:E;
      intros [= <- <-]; (split; [done|]); intros ?; try done; (split; [done|]); cbn; by rewrite ?lookup_delete_eq. }
  destruct (os_Remove path w) as [r w']. destruct (Hp r w' eq_refl) as [Hn Hf].
  destruct r as [u|err|]; [..|done]; (split; [intros q Hq; by apply (HF _ _ eq_refl)|done]).
Qed.

(** Only the tables matter, and the next free names. *)
Lemma moved_ext lvl out ins gone e1 w e1' w' e2 e2' :
  moved lvl out ins gone e1 w e1' w' ->
  e_tables e2 = e_tables e1 -> e_store e2 = e_store e1 -> e_dir e2 = e_dir e1 -> e_nextTable e2 = e_nextTable e1 ->
  e_genCounter e2 = e_genCounter e1 ->
  e_tables e2' = e_tables e1' -> e_store e2' = e_store e1' -> e_genCounter e2' = e_genCounter e1' ->
  moved lvl out ins gone e2 w e2' w'.
Proof.
  intros [] E1 E2 E3 E4 E5 E6 E7 E8. assert (next_path lvl e2 = next_path lvl e1) as En by (unfold next_path; congruence).
  split; rewrite ?E1, ?E2, ?E4, ?E5, ?E6, ?E7, ?E8, ?En; done.
Qed.

(** A table joins the list, its file is written and the files [gone] are removed. *)
Lemma moved_attach lvl gone e w e' w' :
  e_tables e' = e_tables e ++ [MkLT lvl (e_nextTable e)] ->
  (exists t, e_store e' = <[e_nextTable e := t]> (e_store e) /\ t_path t = next_path lvl e /\ t_refCount t = 1%Z) ->
  (forall lt, lt ∈ e_tables e -> lt_table lt <> e_nextTable e) ->
  e_genCounter e' = (e_genCounter e + 1)%N ->
  synced_at w' (next_path lvl e) ->
  (forall p, p ∈ gone -> w_files w' !! p = None) ->
  (forall p, p <> next_path lvl e -> p <> tmp_of (next_path lvl e) -> p ∉ gone -> w_files w' !! p = w_files w !! p) ->
  moved lvl true [] gone e w e' w'.
Proof.
  intros Et (t & Es & Hp & Hr) Hf Hg Hs Hgone Hsame. split; try done.
  - intros lt. rewrite Et, elem_of_app, list_elem_of_singleton. split.
    + intros [H|H]; [left; split; [done|apply not_elem_of_nil]|by right].
    + intros [[H _]|[_ H]]; auto.
  - intros lt Hlt _. rewrite Es, lookup_insert_ne; [done|]. by apply not_eq_sym, Hf.
  - intros _. exists t. rewrite Es, lookup_insert_eq. done.
Qed.

(** *** The two parts of [doFlush] *)

Definition table_bytes (compress : bool) (rs : list Record) (f : Bloom.Filter) : file :=
  MkFile (encode_table compress rs f) (length (encode_table compress rs f)).

(** The table file of [rs], written under a name of its own and not listed yet. *)
Record claimed (lvl : Z) (path : string) (rs : list Record) (f : Bloom.Filter) (e : Engine) (w : world) : Prop := {
  cl_path : exists g, sst_path (e_dir e) lvl g path /\ (g <= e_genCounter e)%N;
  cl_new : Some path ∉ table_path e <$> e_tables e;
  cl_filter : filter_of rs = Some f;
  cl_fits : fits (o_compress (e_opts e)) rs f;
  cl_file : w_files w !! path = Some (table_bytes (o_compress (e_opts e)) rs f) }.

Lemma claimed_known lvl path rs f e w : claimed lvl path rs f e w -> known e path.
Proof. intros [(g & Hp & Hg) _ _ _ _]. by exists lvl, g. Qed.

Lemma claimed_keep lvl path rs f e e' w w' :
  claimed lvl path rs f e w -> e_dir e' = e_dir e -> e_opts e' = e_opts e -> (e_genCounter e <= e_genCounter e')%N ->
  Some path ∉ table_path e' <$> e_tables e' -> w_files w' !! path = w_files w !! path -> claimed lvl path rs f e' w'.
Proof.
  intros [(g & Hp & Hg) _ Hf Hfit Hw] Ed Eo Eg Hn Ew. split; rewrite ?Ed, ?Eo, ?Ew; try done. exists g. split; [done|lia].
Qed.

(** The name of the next table is free. *)
Lemma claimed_next c e w lvl rs f w' :
  inv c e w -> (0 <= lvl < 2 ^ 63)%Z -> (e_genCounter e < max_u64)%N -> filter_of rs = Some f -> fits (o_compress (e_opts e)) rs f ->
  w_files w' !! next_path lvl e = Some (table_bytes (o_compress (e_opts e)) rs f) ->
  claimed lvl (next_path lvl e) rs f (set_gen (e_genCounter e + 1) e) w'.
Proof.
  intros Hi Hl Hg Hf Hfit Hw. split; [| |exact Hf|exact Hfit|exact Hw].
  - exists (e_genCounter e + 1)%N. split; [|cbn; lia]. apply sst_path_new; [done|]. unfold max_u64 in Hg. cbn. lia.
  - intros Hin. change (Some (next_path lvl e) ∈ table_path e <$> e_tables e) in Hin.
    by destruct (known_fresh e lvl _ Hl Hg (known_table _ _ _ _ Hi Hin)).
Qed.

Lemma wp_flush_write job rs f e w :
  mem_holds (j_mt job) rs -> rs <> [] -> filter_of rs = Some f -> fits (o_compress (e_opts e)) rs f -> (e_genCounter e < max_u64)%N ->
  wp (flush_write job) (fun r e' w' => e' = set_gen (e_genCounter e + 1) e /\ (w_faults w = [] -> w_faults w' = []) /\
    (forall q, q <> next_path 0 e -> q <> tmp_of (next_path 0 e) -> w_files w' !! q = w_files w !! q) /\
    (r = inl None /\ w_faults w <> [] \/
     r = inl (Some (table_of (next_path 0 e) (o_compress (e_opts e)) rs f)) /\
       w_files w' !! next_path 0 e = Some (table_bytes (o_compress (e_opts e)) rs f))) e w.
Proof.
  intros Hm Hne Hf Hfit Hg. pose proof (mem_holds_sorted _ _ Hm) as Hs. unfold flush_write.
  wp_step. wp_step. rewrite u64_small by (unfold max_u64 in Hg; lia). wp_step. wp_step. wp_step.
  eapply wp_lift_option; [by apply buildRecords_holds|]. cbv beta iota. wp_step. wp_step. apply wp_lift.
  cbn [e_dir e_opts e_genCounter set_gen]. change (sstFileName (e_dir e) 0 (e_genCounter e + 1)) with (next_path 0 e). set (path := next_path 0 e).
  pose proof (Write_run true path rs _ f w Hne Hs Hfit Hf) as HW.
  destruct (SSTable.Write true path rs (o_compress (e_opts e)) w) as [[u|err|] w1]; [| |done].
  2: { wp_step. destruct HW as [Hfl HW]. split_and!; [done|done|done|by left]. }
  destruct HW as [HW Hfl1]. wp_step. wp_step. apply wp_lift.
  pose proof (Open_run path _ rs f (length (encode_table (o_compress (e_opts e)) rs f)) w1 HFL Hne Hs Hfit Hf) as HO.
  rewrite HW in HO. specialize (HO (lookup_insert_eq _ _ _)).
  assert (forall w2, w_files w2 = w_files w1 -> forall q, q <> path -> q <> tmp_of path -> w_files w2 !! q = w_files w !! q) as Hframe.
  { intros w2 -> q H1 H2. by rewrite HW, lookup_insert_ne, lookup_delete_ne. }
  rewrite <- HW in HO. destruct (Table.Open path w1) as [[t|err|] w2]; [| |done]; wp_step.
  - destruct HO as (-> & HO & Hfl2). split_and!; [done|auto|by apply Hframe|right]. split; [done|]. rewrite HO, HW. apply lookup_insert_eq.
  - destruct HO as [Hfl HO]. split_and!; [done|intros Hw; by destruct Hfl; auto|by apply Hframe|left]. split; [done|]. intros Hw. by apply Hfl, Hfl1.
Qed.

(** A MemTable whose table is on disk becomes that table. *)
Lemma inv_flushed_at c e w imm1 ie imm2 ls1 rs ls2 path f :
  inv c e w -> e_imm e = imm1 ++ ie :: imm2 -> c_imm c = ls1 ++ rs :: ls2 -> length imm1 = length ls1 ->
  e_flushCh e `sublist_of` (job_of <$> imm2) -> claimed 0 path rs f e w ->
  inv (flushed c ls1 ls2 rs) (set_imm (imm1 ++ imm2) (attach 0 (table_of path (o_compress (e_opts e)) rs f) e)) w.
Proof.
  intros Hi Ei Ec Hlen Hj [(g & Hp & Hg) Hn Hf Hfit Hfile].
  pose proof (inv_drop_imm c e w imm1 ie imm2 ls1 rs ls2 Hi Ei Ec Hlen Hj) as Hi'.
  pose proof (inv_imm _ _ _ Hi) as HI. rewrite Ei, Ec in HI. apply Forall2_app_inv in HI as [_ HI2]; [|done].
  apply Forall2_cons in HI2 as [[Hm Hne] _]. pose proof (view_flushed c ls1 ls2 rs Ec) as Hv.
  rewrite (view_add_table rs (MkContents (c_mem c) (ls1 ++ ls2) (c_tables c)) : view (flushed c ls1 ls2 rs) = _) in Hv.
  eapply (inv_attach _ _ w 0 g path _ rs f _ Hi'); try done.
  - by eapply mem_holds_sorted.
  - pose proof (inv_keys _ _ _ Hi) as Hk. rewrite <- Hv in Hk. by apply Forall_app in Hk as [_ Hk].
  - rewrite Hv. apply Hi.
Qed.

Lemma wp_flush_commit c e w imm1 ie imm2 ls1 rs ls2 path f :
  inv c e w -> e_imm e = imm1 ++ ie :: imm2 -> c_imm c = ls1 ++ rs :: ls2 -> length imm1 = length ls1 ->
  e_flushCh e `sublist_of` (job_of <$> imm2) -> claimed 0 path rs f e w ->
  let t := table_of path (o_compress (e_opts e)) rs f in
  wp (flush_commit (job_of ie) t) (fun r e' w' => r = inl tt /\
    (exists b, e' = set_compactCh b (set_imm (imm1 ++ imm2) (attach 0 t e))) /\ inv (flushed c ls1 ls2 rs) e' w' /\
    (forall q, q <> im_walPath ie -> w_files w' !! q = w_files w !! q) /\
    (w_faults w = [] -> w_faults w' = [] /\ w_files w' !! im_walPath ie = None)) e w.
Proof.
  intros Hi Ei Ec Hlen Hj Hcl t. unfold flush_commit. do 6 wp_step. apply wp_lift.
  cbn [e_imm e_tables e_nextTable set_store job_of j_id j_walPath]. rewrite Ei, remove_imm_middle.
  2: { rewrite <- Ei. by pose proof (inv_ids _ _ _ Hi) as [_ ?]%NoDup_cons. }
  pose proof (Remove_run (im_walPath ie) w) as HR.
  pose proof (inv_flushed_at c e w imm1 ie imm2 ls1 rs ls2 path f Hi Ei Ec Hlen Hj Hcl) as Hnew. fold t in Hnew.
  assert (wal_path (im_walPath ie)) as Hwal.
  { pose proof (inv_wals _ _ _ Hi) as Hw. rewrite Ei, fmap_app in Hw. by decompose_Forall_hyps. }
  assert (forall b w', (forall q, q <> im_walPath ie -> w_files w' !! q = w_files w !! q) ->
    inv (flushed c ls1 ls2 rs) (set_compactCh b (set_imm (imm1 ++ imm2) (attach 0 t e))) w') as Hok.
  { intros b w' Hw'. eapply inv_irrelevant; [eapply inv_world; [exact Hnew|]|done..]. intros p (l & g' & Hpp & _). apply Hw'.
    intros ->. by apply (sst_path_wal _ _ _ _ Hpp). }
  destruct (Wal.Remove (im_walPath ie) w) as [[u3|err|] w3]; [| |done]; apply wp_maybeTrigger;
    intros b; destruct HR as [HR Hfl3]; (split_and!; [done|by exists b|by apply Hok|done|done]).
Qed.

Lemma wp_doFlush_body c e w imm1 ie imm2 ls1 rs ls2 :
  inv c e w -> e_imm e = imm1 ++ ie :: imm2 -> c_imm c = ls1 ++ rs :: ls2 -> length imm1 = length ls1 ->
  e_flushCh e `sublist_of` (job_of <$> imm2) -> (e_genCounter e < max_u64)%N ->
  flushable (o_compress (e_opts e)) rs ->
  wp (doFlush_body (job_of ie)) (fun r e' w' => steady e e' /\ e_flushCh e' = e_flushCh e /\
    (w_faults w = [] -> w_faults w' = []) /\
    (r = inl true /\ inv c e' w' /\ w_faults w <> [] /\ e_tables e' = e_tables e /\ e_imm e' = e_imm e \/
     r = inl false /\ inv (flushed c ls1 ls2 rs) e' w' /\ e_imm e' = imm1 ++ imm2 /\
       e_tables e' = e_tables e ++ [MkLT 0 (e_nextTable e)] /\
       (w_faults w = [] -> moved 0 true [] [im_walPath ie] e w e' w'))) e w.
Proof.
  intros Hi Ei Ec Hlen Hj Hg (f & Hf & Hfit). unfold doFlush_body.
  pose proof (inv_imm _ _ _ Hi) as HI. rewrite Ei, Ec in HI. apply Forall2_app_inv in HI as [_ HI2]; [|done].
  apply Forall2_cons in HI2 as [[Hm Hne] _].
  wp_step. eapply wp_mono; [by apply (wp_flush_write (job_of ie) rs f)|]. set (path := next_path 0 e).
  intros r ? w1 (-> & Hfl1 & Hframe & Hr).
  assert (same_known e w w1) as Hsk by (intros p Hp; by apply Hframe; apply (known_fresh e 0)).
  assert (inv c (set_gen (e_genCounter e + 1) e) w1) as Hi1 by (apply inv_gen; [by eapply inv_world|lia]).
  destruct Hr as [[-> Hw]|[-> Hfile]].
  { wp_step. split_and!; [done|done|done|left]. done. }
  assert (wal_path (im_walPath ie)) as Hwal.
  { pose proof (inv_wals _ _ _ Hi) as Hw. rewrite Ei, fmap_app in Hw. by decompose_Forall_hyps. }
  assert (path <> im_walPath ie) as Hpw.
  { intros E. rewrite <- E in Hwal. unfold wal_path, path, next_path in Hwal. by rewrite last_sstFileName in Hwal. }
  wp_step. eapply wp_mono.
  { eapply (wp_flush_commit c _ w1 imm1 ie imm2 ls1 rs ls2 path f Hi1 Ei Ec Hlen Hj). by eapply claimed_next. }
  intros r e' w' (-> & (b & ->) & Hi2 & Hf2 & Hfl2). wp_step.
  split_and!; [done|done|intros Hw; by destruct (Hfl2 (Hfl1 Hw))|right]. split_and!; [done|done|done|done|]. intros Hw.
  destruct (Hfl2 (Hfl1 Hw)) as [_ Hgone]. apply moved_attach; [done|by eexists| |done| |by intros p ->%list_elem_of_singleton|].
  - intros lt Hlt E. pose proof (inv_fresh_tid c e w (lt_table lt) Hi (list_elem_of_fmap_2 _ _ _ Hlt)). lia.
  - exists (table_bytes (o_compress (e_opts e)) rs f). split; [|done]. by rewrite Hf2.
  - intros p Hp1 Hp2 Hp3%not_elem_of_cons. rewrite Hf2 by apply Hp3. by apply Hframe.
Qed.

(** The jobs of the queue are those of immutable MemTables before [last]. *)
Definition queued (last : list immEntry) (e : Engine) : Prop :=
  exists l, e_imm e = l ++ last /\ e_flushCh e `sublist_of` (job_of <$> l).

(** They are exactly those, oldest first: no flush has failed. *)
Definition in_order_upto (last : list immEntry) (e : Engine) : Prop :=
  exists l, e_imm e = l ++ last /\ e_flushCh e = job_of <$> l.

Definition in_order (e : Engine) : Prop := e_flushCh e = job_of <$> e_imm e.

Lemma in_order_nil e : in_order_upto [] e <-> in_order e.
Proof.
  unfold in_order_upto, in_order. split; [by intros (l & -> & ->); rewrite app_nil_r|].
  intros E. exists (e_imm e). by rewrite app_nil_r.
Qed.

Definition same_reads (c c' : contents) : Prop := forall key m, newest key m (view c') = newest key m (view c).

Lemma layered_flushed c e e' ls2 rs tid :
  layered c e -> c_imm c = rs :: ls2 -> length (e_tables e) = length (c_tables c) ->
  Forall (fun lt => 0 <= lt_level lt)%Z (e_tables e) -> e_tables e' = e_tables e ++ [MkLT 0 tid] ->
  layered (flushed c [] ls2 rs) e'.
Proof.
  intros [Hm Hi Ht Hl] Ec Hlen Hlv Et. rewrite Ec in *. constructor; cbn.
  - by apply Forall_cons in Hm as [_ Hm].
  - intros i j l1 l2 Hij E1 E2. apply (Hi (S i) (S j)); [lia|done..].
  - intros l [Hin| ->%list_elem_of_singleton]%elem_of_app.
    + specialize (Ht l Hin). apply Forall_cons in Ht as [? [? ?]%Forall_cons]. by constructor.
    + constructor; [by decompose_Forall_hyps|]. apply Forall_forall. intros l Hin.
      apply list_elem_of_lookup in Hin as [j Hj]. apply (Hi 0 (S j)); [lia|done..].
  - intros i j a b l1 l2. rewrite Et. intros Ea Eb E1 E2 Hlt.
    apply lookup_app_Some in Ea as [Ea|[Hge Ea]]; apply lookup_app_Some in Eb as [Eb|[Hge' Eb]].
    + apply (Hl i j a b); try done; rewrite lookup_app_l in E1, E2; try done; rewrite <- Hlen; by eapply lookup_lt_Some.
    + apply list_lookup_singleton_Some in Eb as [Ej <-].
      rewrite lookup_app_r in E2 by lia. rewrite Hlen in Ej. rewrite Ej in E2. injection E2 as <-.
      rewrite lookup_app_l in E1 by (rewrite <- Hlen; by eapply lookup_lt_Some).
      assert (l1 ∈ c_tables c) as Hin by by eapply list_elem_of_lookup_2. specialize (Ht _ Hin). by decompose_Forall_hyps.
    + apply list_lookup_singleton_Some in Ea as [_ <-]. cbn in Hlt.
      rewrite Forall_forall in Hlv. assert (0 <= lt_level b)%Z; [|lia]. by eapply Hlv, list_elem_of_lookup_2.
    + apply list_lookup_singleton_Some in Ea as [_ <-]. apply list_lookup_singleton_Some in Eb as [_ <-]. lia.
Qed.

Lemma inv_levels c e w : inv c e w -> Forall (fun lt => 0 <= lt_level lt)%Z (e_tables e).
Proof.
  intros Hi. apply Forall_forall. intros lt Hin. apply list_elem_of_lookup in Hin as [i Hlt].
  destruct (Forall2_lookup_l _ _ _ _ _ (inv_tables _ _ _ Hi) Hlt) as (rs & _ & Hok).
  pose proof (tok_level _ _ _ _ Hok). lia.
Qed.

(** The tables an engine had, and at most one more, at level 0. *)
Definition grown (e e' : Engine) : Prop :=
  e_tables e' = e_tables e \/ exists tid, e_tables e' = e_tables e ++ [MkLT 0 tid].

(** What one job of the flush worker does. *)
Definition flush_post (last : list immEntry) (c : contents) (e : Engine) (w : world)
    (r : unit + error) (e' : Engine) (w' : world) : Prop :=
  r = inl tt /\ steady e e' /\ e_flushCh e' = tail (e_flushCh e) /\ queued last e' /\
  (w_faults w = [] -> w_faults w' = []) /\ grown e e' /\
  (w_faults w = [] -> match e_flushCh e with
                      | [] => e' = e /\ w' = w
                      | job :: _ => moved 0 true [] [j_walPath job] e w e' w'
                      end) /\
  exists c', inv c' e' w' /\ same_reads c c' /\ c_imm c' `sublist_of` c_imm c /\ c_mem c' = c_mem c /\
    (w_faults w = [] -> length (c_tables c') = length (c_tables c) + length (take 1 (e_flushCh e))) /\
    (layered c e -> in_order_upto last e -> layered c' e' /\ (in_order_upto last e' \/ w_faults w <> [])).

(** The first job names the first immutable MemTable if the queue is in order. *)
Lemma queue_head e imm1 ie imm2 last rest :
  NoDup (im_id <$> e_imm e) -> e_imm e = imm1 ++ ie :: imm2 ++ last ->
  e_flushCh e = job_of ie :: rest -> in_order_upto last e -> imm1 = [] /\ rest = job_of <$> imm2.
Proof.
  intros Hnd Ei Eq (l & El & Hq). rewrite El in Ei.
  replace (imm1 ++ ie :: imm2 ++ last) with ((imm1 ++ ie :: imm2) ++ last) in Ei by by rewrite <- app_assoc.
  apply app_inv_tail in Ei as ->. rewrite Eq in Hq. destruct imm1 as [|ie0 imm1].
  - split; [done|]. by injection Hq.
  - exfalso. cbn in Hq. injection Hq as Hid _ _ _. rewrite El in Hnd. cbn in Hnd.
    apply NoDup_cons in Hnd as [Hnot _]. apply Hnot. rewrite <- Hid, !fmap_app, !elem_of_app. left; right; by left.
Qed.

Lemma wp_flushWorker_step last c e w :
  inv c e w -> queued last e ->
  (forall ls ls', c_imm c = ls ++ ls' -> length ls' = length last -> Forall (flushable (o_compress (e_opts e))) ls) ->
  (e_genCounter e < max_u64)%N ->
  wp flushWorker_step (flush_post last c e w) e w.
Proof.
  intros Hi (l & El & Hj) Hfl Hg. unfold flushWorker_step. do 2 wp_step. destruct (e_flushCh e) as [|job rest] eqn:Eq.
  { wp_step. split_and!; [done|done|by rewrite Eq|exists l; by rewrite Eq|done|by left|by rewrite Eq|]. exists c. split_and!; [done..| |by auto].
    intros _. rewrite Eq. simpl. lia. }
  do 2 wp_step. apply sublist_cons_l in Hj as (k1 & k2 & Ej & Hrest).
  apply fmap_app_inv in Ej as (imm1 & imm' & -> & Ej & ->).
  symmetry in Ej. apply fmap_cons_inv in Ej as (ie & imm2 & -> & -> & ->).
  rewrite <- app_assoc in El. cbn in El.
  pose proof (inv_imm _ _ _ Hi) as HI. rewrite El in HI.
  apply Forall2_app_inv_l in HI as (ls1 & l & HI1 & HI2 & Ec).
  apply Forall2_cons_inv_l in HI2 as (rs & ls2 & _ & HI2 & ->).
  assert (rest `sublist_of` job_of <$> imm2 ++ last) as Hrest' by (rewrite fmap_app; by apply sublist_inserts_r).
  assert (inv c (set_flushCh rest e) w) as Hi'.
  { destruct Hi. split; try done; cbn; [by eapply tables_keep|].
    rewrite El, fmap_app. cbn. by apply sublist_inserts_l, sublist_cons. }
  unfold doFlush. wp_step. eapply wp_mono.
  { apply (wp_doFlush_body c _ w imm1 ie (imm2 ++ last) ls1 rs ls2); [done|done|done|by eapply Forall2_length|done|done|].
    cbn. apply Forall2_app_inv_l in HI2 as (l2 & l3 & _ & H3 & ->).
    specialize (Hfl (ls1 ++ rs :: l2) l3 ltac:(by rewrite Ec, <- app_assoc) ltac:(symmetry; by eapply Forall2_length)).
    by decompose_Forall_hyps. }
  intros r e1 w1 (Hst & Hq & Hfl1 & Hcase). cbv beta.
  destruct Hcase as [(-> & Hi1 & Hf & Et & Eim)|(-> & Hi1 & Eim & Et & Hmv)]; unfold inc, observe_since; do 5 wp_step; wp_steps.
  - split_and!; [done|exact Hst|by rewrite Eq| | | | |].
    { exists (imm1 ++ ie :: imm2). cbn. rewrite Eim, Hq. cbn. rewrite El, <- app_assoc. split; [done|].
      rewrite fmap_app. by apply sublist_inserts_l, sublist_cons. }
    { exact Hfl1. } { by left. } { done. }
    exists c. split_and!; [by eapply inv_irrelevant|done..|]. intros HL _. split; [|by right].
    destruct HL. split; try done. cbn. rewrite Et. done.
  - split_and!; [done|exact Hst|by rewrite Eq| | | | |].
    { exists (imm1 ++ imm2). cbn. rewrite Eim, Hq. cbn. rewrite <- app_assoc. split; [done|].
      rewrite fmap_app. by apply sublist_inserts_l. }
    { exact Hfl1. } { right. by eexists. } { intros Hw. rewrite Eq. by eapply moved_ext; [exact (Hmv Hw)|..]. }
    exists (flushed c ls1 ls2 rs). split_and!; [by eapply inv_irrelevant| | |done| |].
    + intros key m. eapply view_perm_reads; [exact Hi|]. by apply view_flushed.
    + rewrite Ec. cbn. apply sublist_app; [done|]. by apply sublist_cons.
    + intros _. rewrite Eq. cbn. by rewrite length_app.
    + intros HL Hin. pose proof (inv_ids _ _ _ Hi) as [_ Hnd]%NoDup_cons.
      destruct (queue_head _ _ _ _ _ _ Hnd El Eq Hin) as [-> ->]. destruct ls1; [|by inversion HI1]. split.
      * eapply layered_flushed; [done|done|by eapply Forall2_length, Hi|by eapply inv_levels|exact Et].
      * left. exists imm2. cbn. by rewrite Hq, Eim.
Qed.

(** C16: flushing.  A job of the flush worker changes no read at any sequence
    number, whether it succeeds or fails at any system call: the MemTable stays
    readable until its table is.  Without faults the worker takes its job off
    the queue, turns it into a table and keeps the layers in order of time. *)
Theorem flush_preserves_reads c e w :
  inv c e w -> Forall (flushable (o_compress (e_opts e))) (c_imm c) -> (e_genCounter e < max_u64)%N ->
  exists e' w', flushWorker_step e w = (Ok (e', inl tt), w') /\ e_flushCh e' = tail (e_flushCh e) /\
    exists c', inv c' e' w' /\ same_reads c c' /\
      (w_faults w = [] -> length (c_tables c') = length (c_tables c) + length (take 1 (e_flushCh e))) /\
      (layered c e -> in_order e -> layered c' e' /\ (in_order e' \/ w_faults w <> [])).
Proof.
  intros Hi Hf' Hg.
  assert (forall ls ls', c_imm c = ls ++ ls' -> length ls' = length (@nil immEntry) ->
    Forall (flushable (o_compress (e_opts e))) ls) as Hf.
  { intros ls [|l ls'] E Hl; [|done]. by rewrite app_nil_r in E; subst. }
  assert (queued [] e) as Hq by (exists (e_imm e); rewrite app_nil_r; split; [done|apply Hi]).
  destruct (wp_run _ _ _ _ (wp_flushWorker_step [] c e w Hi Hq Hf Hg))
    as (r & e' & w' & E & -> & _ & Hqe & _ & _ & _ & _ & c' & Hi' & Hr & _ & _ & Hp & HL).
  exists e', w'. split_and!; [done|done|]. exists c'. by rewrite <- !in_order_nil.
Qed.
End flush.
