(* ===== verification/EngineLogs.v ===== *)
(** * Logs and files on disk

    What the files of a store hold while it runs without failing system calls:
    [durable e w] says that the directory holds the engine's tables and the logs
    of its MemTables and nothing else of the store's, and that every MemTable is
    what its log records, all of it synced.  Flushes keep it; EngineWrite.v and
    EngineCompact.v show the same of writes and compactions. *)

From S2P Require Import Prelude OrdMap GoIO IOLogic MemTable Versions SSTable Table Merge Metrics FileNames EngineState EngineLogic EngineInv Engine EngineFlush.
From S2P Require Wal SkipList Bloom.
From Stdlib Require Import Ascii.
From stdpp Require Import base gmap sets list strings numbers fin_maps sorting.
Open Scope nat_scope.

(** ** Names *)

(** What an entry contributes. *)
Definition wal_name (name : string) : Prop := HasSuffix name ".wal" = true /\ is_Some (ParseUint (TrimSuffix name ".wal")).
Definition sst_name (name : string) (level : Z) (gen : N) : Prop :=
  HasSuffix name ".wal" = false /\ HasSuffix name ".sst" = true /\ parseSSTFilename name = Some (level, gen).

(** A file of the store in the directory. *)
Definition wal_file (dir p : string) : Prop := exists name, p = FileNames.Join dir name /\ no_slash name = true /\ wal_name name.
Definition sst_file (dir p : string) (level : Z) (gen : N) : Prop :=
  exists name, p = FileNames.Join dir name /\ no_slash name = true /\ sst_name name level gen.

Lemma sst_file_path dir p level gen : sst_file dir p level gen -> sst_path dir level gen p.
Proof.
  intros (name & -> & _ & _ & Hs & Hp). exists name. split_and!; [done|done|].
  destruct (HasSuffix_Some _ _ Hs) as [pre ->]. unfold FileNames.Join. by repeat apply last_ascii_app.
Qed.

Lemma wal_file_path dir p : wal_file dir p -> wal_path p.
Proof.
  intros (name & -> & _ & Hs & _). destruct (HasSuffix_Some _ _ Hs) as [pre ->].
  unfold wal_path, FileNames.Join. by repeat apply last_ascii_app.
Qed.

(** ** What a log records *)

Definition mut_rec (u : mutation) : Record := rec_of (mut_key u, mut_entry u).

Lemma elem_of_om_insert {V} k (v : V) l p :
  sorted_keys l -> p ∈ om_insert k v l <-> p = (k, v) \/ p ∈ l /\ p.1 <> k.
Proof.
  intros Hs. destruct p as [k' v']. rewrite <- (om_lookup_In k' v' (om_insert k v l)) by by apply om_insert_sorted.
  destruct (decide (k' = k)) as [->|Hne]; cbn.
  - rewrite om_lookup_insert_eq. naive_solver.
  - rewrite om_lookup_insert_ne, om_lookup_In by done. naive_solver.
Qed.

Lemma mem_holds_apply mt rs u :
  mem_holds mt rs ->
  exists mt' rs', apply_mutation mt u = Some mt' /\ mem_holds mt' rs' /\
    forall s, s ∈ rs' <-> s = mut_rec u \/ s ∈ rs /\ Key s <> mut_key u.
Proof.
  intros (l & Hl & ->). destruct (wb_repr_apply mt l u Hl) as (mt' & E & Hl').
  exists mt', (rec_of <$> om_insert (mut_key u) (mut_entry u) l). split; [exact E|]. split; [by eexists|].
  intros s. rewrite !list_elem_of_fmap. setoid_rewrite elem_of_om_insert; [|exact (wb_repr_sorted mt l Hl)]. split.
  - intros (p & -> & [->|[Hin Hne]]); [by left|]. right. split; [by exists p|done].
  - intros [->|[(p & -> & Hin) Hne]]; [eexists; split; [done|by left]|]. exists p. split; [done|by right].
Qed.

Definition mutation_of (typ : Wal.RecordType) (key value : bytes) (seq : N) : mutation :=
  if bool_decide (typ = Wal.RecordPut) then MPut key value seq else MDelete key seq.

Definition known_type (rec : Wal.Record_) : Prop := Wal.r_type rec = Wal.RecordPut \/ Wal.r_type rec = Wal.RecordDelete.

(** The write a log record stands for. *)
Definition mut_of (rec : Wal.Record_) : mutation := mutation_of (Wal.r_type rec) (Wal.r_key rec) (Wal.r_value rec) (Wal.r_seq rec).

Lemma mut_of_key rec : mut_key (mut_of rec) = Wal.r_key rec.
Proof. unfold mut_of, mutation_of. by case_bool_decide. Qed.

(** Replaying records into a MemTable that holds [l]. *)
Definition replayed (l : list (bytes * Entry)) (recs : list Wal.Record_) : list (bytes * Entry) :=
  fold_left (fun l rec => om_insert (mut_key (mut_of rec)) (mut_entry (mut_of rec)) l) recs l.

(** What is recovered from the logs: of every key the last write. *)
Definition recovered (recs : list Wal.Record_) : list Record := rec_of <$> replayed [] recs.
Definition log_rec (rec : Wal.Record_) : Record := mut_rec (mut_of rec).

Lemma replayed_snoc l recs rec :
  replayed l (recs ++ [rec]) = om_insert (mut_key (mut_of rec)) (mut_entry (mut_of rec)) (replayed l recs).
Proof. unfold replayed. by rewrite fold_left_app. Qed.

Lemma replayed_sorted l recs : sorted_keys l -> sorted_keys (replayed l recs).
Proof. induction recs as [|rec recs IH] using rev_ind; intros Hl; [done|]. rewrite replayed_snoc. by apply om_insert_sorted, IH. Qed.

Lemma elem_of_recovered recs r : r ∈ recovered recs -> exists rec, rec ∈ recs /\ r = log_rec rec.
Proof.
  unfold recovered. induction recs as [|rec recs IH] using rev_ind; [by intros ?%not_elem_of_nil|].
  rewrite replayed_snoc. intros (kv & -> & Hin)%list_elem_of_fmap.
  apply elem_of_om_insert in Hin as [->|[Hin _]]; [| |apply replayed_sorted; constructor].
  - exists rec. rewrite elem_of_app. split; [right; by left|done].
  - destruct IH as (rec' & Hin' & E); [by apply list_elem_of_fmap_2|]. exists rec'. rewrite elem_of_app. auto.
Qed.

Lemma recovered_unique recs a b : a ∈ recovered recs -> b ∈ recovered recs -> Key a = Key b -> a = b.
Proof.
  unfold recovered. intros ([k1 e1] & -> & Ha)%list_elem_of_fmap ([k2 e2] & -> & Hb)%list_elem_of_fmap Hk. cbn in Hk. subst k2.
  apply om_lookup_In in Ha; [|apply replayed_sorted; constructor]. apply om_lookup_In in Hb; [|apply replayed_sorted; constructor].
  rewrite Ha in Hb. by injection Hb as <-.
Qed.

Lemma log_rec_key rec : Key (log_rec rec) = Wal.r_key rec /\ Seq (log_rec rec) = Wal.r_seq rec.
Proof. unfold log_rec, mut_of, mutation_of. by case_bool_decide. Qed.

(** Written in ascending order, the logs and what is recovered from them read the
    same without a bound. *)
Lemma recovered_newest recs key m :
  StronglySorted N.lt (Wal.r_seq <$> recs) -> Forall (fun rec => Wal.r_seq rec <= m)%N recs ->
  newest key m (recovered recs) = newest key m (log_rec <$> recs).
Proof.
  induction recs as [|rec recs IH] using rev_ind; intros Hs Hm; [done|].
  rewrite fmap_app in Hs. rewrite fmap_app. apply Forall_app in Hm as [Hm [Hle _]%Forall_cons].
  assert (StronglySorted N.lt (Wal.r_seq <$> recs)) as Hs1 by (by eapply StronglySorted_app_1_l).
  assert (forall r, r ∈ log_rec <$> recs -> (Seq r < Wal.r_seq rec)%N) as Hlt.
  { intros r (rec' & -> & Hin)%list_elem_of_fmap.
    rewrite (proj2 (log_rec_key rec')).
    eapply (StronglySorted_app_1_elem_of N.lt); [exact Hs| |by left]. by apply list_elem_of_fmap_2. }
  specialize (IH Hs1 Hm). rewrite newest_app, <- IH. cbn [fmap list_fmap newest].
  destruct (log_rec_key rec) as [Kr Sr].
  assert (forall s, s ∈ recovered (recs ++ [rec]) <-> s = log_rec rec \/ s ∈ recovered recs /\ Key s <> Wal.r_key rec) as Hel.
  { intros s. unfold recovered. rewrite replayed_snoc, !list_elem_of_fmap.
    setoid_rewrite elem_of_om_insert; [|apply replayed_sorted; constructor]. rewrite mut_of_key. split.
    - intros (p & -> & [->|[Hin Hne]]); [left; unfold log_rec, mut_rec; by rewrite mut_of_key|right]. split; [by exists p|done].
    - intros [->|[(p & -> & Hin) Hne]]; [eexists; split; [|by left]; unfold log_rec, mut_rec; by rewrite mut_of_key|].
      exists p. split; [done|by right]. }
  assert (forall l, unique_versions (recovered l)) as Hu by (intros l a b Ha Hb Hk _; by apply (recovered_unique l)).
  destruct (decide (sees key m (log_rec rec))) as [Hss|Hns].
  - assert (newer (newest key m (recovered recs)) (newer (Some (log_rec rec)) None) = Some (log_rec rec)) as ->.
    { destruct (newest key m (recovered recs)) as [s|] eqn:En; [|done].
      apply newest_Some in En as ((rec' & Hin & ->)%elem_of_recovered & _ & _).
      specialize (Hlt (log_rec rec') ltac:(by apply list_elem_of_fmap_2)). unfold newer. rewrite Sr. by rewrite (proj2 (N.ltb_lt _ _)). }
    apply newest_unique; [done|apply Hel; by left|done|]. intros s [->|[(rec' & Hin & ->)%elem_of_recovered _]]%Hel _; [done|].
    rewrite Sr. apply N.lt_le_incl, Hlt. by apply list_elem_of_fmap_2.
  - rewrite newer_None_r.
    assert (Key (log_rec rec) <> key) as Hne by (intros E; apply Hns; split; [done|lia]).
    apply newest_ext; [done|]. intros s [Hk _]. rewrite Hel. split; [|intros Hin; right; split; [done|congruence]].
    intros [->|[Hin _]]; [congruence|done].
Qed.


(** ** Names of new files *)

Lemma sst_file_new dir level gen :
  (0 <= level < 2 ^ 63)%Z -> (gen < 2 ^ 64)%N -> sst_file dir (sstFileName dir level gen) level gen.
Proof.
  intros Hl Hg. exists (sstBase level gen). destruct (parse_sstBase level gen Hl Hg) as [Hs Hp].
  split_and!; [done|apply no_slash_sstBase|]. split_and!; [by apply sst_not_wal|done|done].
Qed.

Lemma wal_file_new dir gen : (gen < 2 ^ 64)%N -> wal_file dir (walFileName dir gen).
Proof.
  intros Hg. exists (walBase gen). destruct (walBase_name gen Hg) as [Hs Hp].
  split_and!; [done|apply no_slash_walBase|]. split; [done|by eexists].
Qed.

Lemma sst_path_level dir l1 g1 l2 g2 p : sst_path dir l1 g1 p -> sst_path dir l2 g2 p -> l1 = l2.
Proof.
  intros (n1 & -> & E1 & _) (n2 & E & E2 & _). unfold FileNames.Join in E.
  apply (inj (String.append dir)), (inj (String.append "/")) in E. subst. congruence.
Qed.

Lemma wal_path_sst p dir l g : wal_path p -> ~ sst_path dir l g p.
Proof. intros Hw Hs. by apply (sst_path_wal _ _ _ _ Hs). Qed.

Lemma wal_path_tmp p q : wal_path p -> p <> tmp_of q.
Proof. intros Hw ->. unfold wal_path, tmp_of in Hw. by rewrite (last_ascii_app q _ "p"%char) in Hw. Qed.

(** ** The invariant *)

Section durable.
Context `{FM : Bloom.FloatMath} `{FL : Flate} `{HFL : !FlateLaws FL}.

(** The MemTables with their logs, oldest first; the active one comes last. *)
Definition logs (e : Engine) : list immEntry := e_imm e ++ [MkImm (e_memId e) (e_mem e) (e_walPath e)].

Record log_ok (dir : string) (w : world) (ie : immEntry) (recs : list Wal.Record_) : Prop := {
  lo_path : im_walPath ie = walFileName dir (im_id ie);
  lo_file : exists f, w_files w !! im_walPath ie = Some f /\ f_data f = Wal.encode_all recs /\ f_synced f = length (f_data f);
  lo_valid : Forall (fun rec => Wal.valid rec /\ known_type rec /\ Wal.r_key rec <> []) recs;
  lo_mem : wb_repr (im_mt ie) (replayed [] recs) }.

(** The logs of [ls] record a sequence of writes. *)
Definition logged (ls : list immEntry) (e : Engine) (w : world) (recss : list (list Wal.Record_)) : Prop :=
  Forall2 (log_ok (e_dir e) w) ls recss /\ StronglySorted N.lt (Wal.r_seq <$> concat recss) /\
  Forall (fun rec => Wal.r_seq rec <= e_seq e)%N (concat recss).

(** The directory holds the logs of [ls] and the engine's tables. *)
Record stored (ls : list immEntry) (e : Engine) (w : world) : Prop := {
  du_logs : exists recss, logged ls e w recss;
  du_ids : StronglySorted N.lt (im_id <$> ls);
  du_wals : forall p, is_Some (w_files w !! p) -> wal_file (e_dir e) p -> p ∈ im_walPath <$> ls;
  du_ssts : forall p l g, is_Some (w_files w !! p) -> sst_file (e_dir e) p l g ->
    exists lt, lt ∈ e_tables e /\ lt_level lt = l /\ table_path e lt = Some p;
  du_tables : forall lt, lt ∈ e_tables e -> exists t g, e_store e !! lt_table lt = Some t /\ t_refCount t = 1%Z /\
    sst_file (e_dir e) (t_path t) (lt_level lt) g /\ synced_at w (t_path t) }.

Definition durable (e : Engine) (w : world) : Prop := Wal.clean (e_wal e) /\ stored (logs e) e w.

(** What it does not depend on. *)
Lemma stored_same ls e e' w w' :
  stored ls e w -> w_files w' = w_files w ->
  e_dir e' = e_dir e -> e_tables e' = e_tables e -> e_seq e' = e_seq e -> e_store e' = e_store e -> stored ls e' w'.
Proof.
  intros [(recss & HL & Hs) Hid Hw Ht Htab] Ew E1 E7 E8 E9.
  split; rewrite ?E1, ?E7, ?Ew; try done.
  - exists recss. unfold logged. rewrite E1, E8. split; [|done]. eapply Forall2_impl; [exact HL|].
    intros ie recs []. split; [done|by rewrite Ew|done|done].
  - intros p l g Hp Hf. destruct (Ht p l g Hp Hf) as (lt & H1 & H2 & H3). exists lt. unfold table_path in *. by rewrite E9.
  - intros lt Hlt. destruct (Htab lt Hlt) as (t & g & H1 & H2 & H3 & f & H4). exists t, g. rewrite E9.
    split_and!; try done. exists f. by rewrite Ew.
Qed.

Lemma durable_same e e' w w' :
  durable e w -> w_files w' = w_files w ->
  e_dir e' = e_dir e -> e_memId e' = e_memId e -> e_mem e' = e_mem e -> e_wal e' = e_wal e -> e_walPath e' = e_walPath e ->
  e_imm e' = e_imm e -> e_tables e' = e_tables e -> e_seq e' = e_seq e -> e_store e' = e_store e -> durable e' w'.
Proof.
  intros [Hc Hst] Ew E1 E2 E3 E4 E5 E6 E7 E8 E9. split; [by rewrite E4|].
  assert (logs e' = logs e) as -> by (unfold logs; congruence). by apply (stored_same _ e e' w w').
Qed.

Lemma log_ok_wal dir w ie recs : log_ok dir w ie recs -> wal_path (im_walPath ie).
Proof. intros []. rewrite lo_path0. apply last_walFileName. Qed.

Lemma log_ok_keep dir w w' ie recs :
  log_ok dir w ie recs -> w_files w' !! im_walPath ie = w_files w !! im_walPath ie -> log_ok dir w' ie recs.
Proof. intros [] E. split; [done|by rewrite E|done|done]. Qed.

Lemma logs_ids c e w : inv c e w -> Forall (fun id => id <= e_genCounter e)%N (im_id <$> logs e).
Proof.
  intros Hi. unfold logs. rewrite fmap_app. pose proof (inv_ids_gen _ _ _ Hi) as [H1 H2]%Forall_cons.
  apply Forall_app. split; [done|by repeat constructor].
Qed.

Lemma stored_log ls e w ie : stored ls e w -> ie ∈ ls -> exists recs, log_ok (e_dir e) w ie recs.
Proof.
  intros [(recss & HL & _) _ _ _ _] Hin. apply list_elem_of_lookup in Hin as [i Hi].
  destruct (Forall2_lookup_l _ _ _ _ _ HL Hi) as (recs & _ & Hok). by exists recs.
Qed.

(** Logs have different names. *)
Lemma logs_paths e w l1 l2 a b :
  stored (l1 ++ l2) e w -> (e_genCounter e < max_u64)%N ->
  Forall (fun id => id <= e_genCounter e)%N (im_id <$> l1 ++ l2) ->
  a ∈ l1 -> b ∈ l2 -> im_walPath a <> im_walPath b.
Proof.
  intros Hst Hg Hids Ha Hb E. rewrite Forall_fmap, Forall_forall in Hids.
  assert (forall ie, ie ∈ l1 ++ l2 -> im_walPath ie = walFileName (e_dir e) (im_id ie) /\ (im_id ie < 2 ^ 64)%N) as Hp.
  { intros ie Hin. split; [by destruct (stored_log _ _ _ _ Hst Hin) as [recs []]|].
    specialize (Hids ie Hin). cbn in Hids. unfold max_u64 in Hg. lia. }
  destruct (Hp a ltac:(by apply elem_of_app; left)) as [Ea La], (Hp b ltac:(by apply elem_of_app; right)) as [Eb Lb].
  rewrite Ea, Eb in E. apply walFileName_inj in E; [|done|done].
  pose proof (du_ids _ _ _ Hst) as Hs. rewrite fmap_app in Hs.
  pose proof (StronglySorted_app_1_elem_of N.lt _ _ (im_id a) (im_id b) Hs
    ltac:(by apply list_elem_of_fmap_2) ltac:(by apply list_elem_of_fmap_2)). lia.
Qed.

Lemma path_inj c e w a b p :
  inv c e w -> a ∈ e_tables e -> b ∈ e_tables e -> table_path e a = Some p -> table_path e b = Some p -> a = b.
Proof.
  intros Hi Ha Hb Hpa Hpb. apply list_elem_of_lookup in Ha as [i Ha]. apply list_elem_of_lookup in Hb as [j Hb].
  assert (i = j) as ->; [|congruence].
  eapply (NoDup_lookup (table_path e <$> e_tables e)); [apply Hi|by rewrite list_lookup_fmap, Ha|].
  rewrite list_lookup_fmap, Hb. cbn. congruence.
Qed.

Lemma listed_known c e w lt p : inv c e w -> lt ∈ e_tables e -> table_path e lt = Some p -> known e p.
Proof. intros Hi Hlt Hp. eapply known_table; [done|]. rewrite <- Hp. by apply list_elem_of_fmap_2. Qed.
(** ** Tables come and go *)

(** The files [moved] gives up: the logs of [imm0] and the files of [ins]. *)
Definition gives_up (imm0 : list immEntry) (ins : list leveledTable) (e : Engine) (gone : list string) : Prop :=
  forall p, p ∈ gone <-> p ∈ im_walPath <$> imm0 \/ exists lt, lt ∈ ins /\ lt ∈ e_tables e /\ table_path e lt = Some p.

Section moves.
Context (c : contents) (e e' : Engine) (w w' : world) (lvl : Z) (out : bool) (ins : list leveledTable) (gone : list string)
  (imm0 ls : list immEntry).
Context (Hi : inv c e w) (Hd : stored (imm0 ++ ls) e w) (Hg : (e_genCounter e < max_u64)%N) (Hl : (0 <= lvl < 2 ^ 63)%Z).
Context (Hids : Forall (fun id => id <= e_genCounter e)%N (im_id <$> imm0 ++ ls)).
Context (Hm : moved lvl out ins gone e w e' w') (Hup : gives_up imm0 ins e gone).

Lemma new_path_sst : sst_file (e_dir e) (next_path lvl e) lvl (e_genCounter e + 1).
Proof. apply sst_file_new; [done|]. unfold max_u64 in Hg. lia. Qed.

Lemma log_path_ne p : wal_path p -> p <> next_path lvl e /\ p <> tmp_of (next_path lvl e).
Proof.
  intros Hp. split; [|by apply wal_path_tmp]. intros ->. by eapply (wal_path_sst _ _ _ _ Hp), sst_file_path, new_path_sst.
Qed.

Lemma moved_log_file ie : ie ∈ ls -> w_files w' !! im_walPath ie = w_files w !! im_walPath ie.
Proof.
  intros Hin. destruct (stored_log _ _ _ ie Hd) as [recs Hok]; [by apply elem_of_app; right|].
  pose proof (log_ok_wal _ _ _ _ Hok) as Hwal. destruct (log_path_ne _ Hwal) as [H1 H2].
  apply (mv_same _ _ _ _ _ _ _ _ Hm); [done|done|]. rewrite (Hup _). intros [(ie0 & E & H0)%list_elem_of_fmap|(lt & _ & Hlt & Hp)].
  - by apply (logs_paths e w imm0 ls ie0 ie Hd Hg Hids).
  - destruct (listed_known _ _ _ _ _ Hi Hlt Hp) as (l & g & Hs & _). by apply (wal_path_sst _ _ _ _ Hwal Hs).
Qed.

Lemma moved_table lt : lt ∈ e_tables e -> lt ∉ ins -> table_path e' lt = table_path e lt.
Proof. intros H1 H2. unfold table_path. by rewrite (mv_store _ _ _ _ _ _ _ _ Hm lt H1 H2). Qed.

Lemma moved_table_file lt p :
  lt ∈ e_tables e -> lt ∉ ins -> table_path e lt = Some p -> w_files w' !! p = w_files w !! p.
Proof.
  intros H1 H2 Hp. destruct (known_fresh e lvl p Hl Hg (listed_known _ _ _ _ _ Hi H1 Hp)) as [N1 N2].
  apply (mv_same _ _ _ _ _ _ _ _ Hm); [done|done|]. rewrite (Hup _). intros [(ie0 & E & H0)%list_elem_of_fmap|(lt' & H3 & H4 & Hp')].
  - destruct (listed_known _ _ _ _ _ Hi H1 Hp) as (l & g & Hs & _). apply (sst_path_wal _ _ _ _ Hs). subst p.
    destruct (stored_log _ _ _ ie0 Hd) as [recs Hok]; [by apply elem_of_app; left|]. by eapply log_ok_wal.
  - by rewrite (path_inj _ _ _ lt lt' p Hi H1 H4 Hp Hp') in H2.
Qed.

(** Files of the store that were there before. *)
Lemma moved_back p :
  is_Some (w_files w' !! p) -> p <> next_path lvl e -> p <> tmp_of (next_path lvl e) -> is_Some (w_files w !! p) /\ p ∉ gone.
Proof.
  intros Hp N1 N2. destruct (decide (p ∈ gone)) as [Hin|Hn].
  - rewrite (mv_gone _ _ _ _ _ _ _ _ Hm p Hin) in Hp. by destruct Hp.
  - split; [|done]. by rewrite <- (mv_same _ _ _ _ _ _ _ _ Hm p N1 N2 Hn).
Qed.

Lemma moved_ssts p l g :
  is_Some (w_files w' !! p) -> sst_file (e_dir e) p l g -> exists lt, lt ∈ e_tables e' /\ lt_level lt = l /\ table_path e' lt = Some p.
Proof.
  intros Hp Hf. pose proof (mv_tables _ _ _ _ _ _ _ _ Hm) as HT.
  destruct (decide (p = next_path lvl e)) as [->|N1].
  - rewrite (sst_path_level _ _ _ _ _ _ (sst_file_path _ _ _ _ Hf) (sst_file_path _ _ _ _ new_path_sst)).
    destruct out eqn:Eo.
    + destruct (mv_new _ _ _ _ _ _ _ _ Hm eq_refl) as (t & Et & Ep & _). exists (MkLT lvl (e_nextTable e)).
      split; [apply HT; by right|]. split; [done|]. unfold table_path. cbn. rewrite Et. cbn. by rewrite Ep.
    + rewrite (mv_none _ _ _ _ _ _ _ _ Hm eq_refl) in Hp. destruct (du_ssts _ _ _ Hd _ _ _ Hp Hf) as (lt & H1 & _ & H3).
      by destruct (known_fresh e lvl _ Hl Hg (listed_known _ _ _ _ _ Hi H1 H3)).
  - assert (p <> tmp_of (next_path lvl e)) as N2 by (eapply sst_path_tmp, sst_file_path, Hf).
    destruct (moved_back p Hp N1 N2) as [Hp0 Hn]. destruct (du_ssts _ _ _ Hd _ _ _ Hp0 Hf) as (lt & H1 & H2 & H3).
    assert (lt ∉ ins) as Hlt by (intros Hin; apply Hn, Hup; right; by exists lt).
    exists lt. split; [apply HT; by left|]. split; [done|]. by rewrite moved_table.
Qed.

Lemma stored_moved : e_dir e' = e_dir e -> e_seq e' = e_seq e -> stored ls e' w'.
Proof.
  intros E1 E3. pose proof (mv_tables _ _ _ _ _ _ _ _ Hm) as HT. split.
  - destruct (du_logs _ _ _ Hd) as (recss & HL & Hs & Hq).
    apply Forall2_app_inv_l in HL as (rs0 & rs1 & _ & HL & ->). exists rs1. unfold logged. rewrite E1, E3.
    rewrite concat_app in Hs, Hq. rewrite fmap_app in Hs. split_and!; [|by apply StronglySorted_app_1_r in Hs|by apply Forall_app in Hq as [_ Hq]].
    apply Forall2_same_length_lookup_2; [by eapply Forall2_length|]. intros i ie recs H1 H2.
    eapply log_ok_keep; [by eapply Forall2_lookup_lr|]. apply moved_log_file. by eapply list_elem_of_lookup_2.
  - pose proof (du_ids _ _ _ Hd) as Hs. rewrite fmap_app in Hs. by apply StronglySorted_app_1_r in Hs.
  - rewrite E1. intros p Hp Hf. destruct (log_path_ne p (wal_file_path _ _ Hf)) as [N1 N2].
    destruct (moved_back p Hp N1 N2) as [Hp0 Hn]. pose proof (du_wals _ _ _ Hd p Hp0 Hf) as Hin. rewrite fmap_app in Hin.
    apply elem_of_app in Hin as [Hin|]; [|done]. destruct Hn. apply Hup. by left.
  - rewrite E1. exact moved_ssts.
  - rewrite E1. intros lt [[H1 H2]|[Eo ->]]%HT.
    + destruct (du_tables _ _ _ Hd lt H1) as (t & g & Et & Hr & Hf & f & Hs). exists t, g.
      rewrite (mv_store _ _ _ _ _ _ _ _ Hm lt H1 H2). split_and!; [done..|]. exists f.
      rewrite (moved_table_file lt); [done|done|done|]. unfold table_path. by rewrite Et.
    + destruct (mv_new _ _ _ _ _ _ _ _ Hm Eo) as (t & Et & Ep & Hr & Hs). exists t, (e_genCounter e + 1)%N. cbn. rewrite Ep.
      split_and!; [done|done|apply new_path_sst|done].
Qed.
End moves.

Lemma durable_moved c e e' w w' lvl out ins gone imm0 :
  inv c e w -> durable e w -> (e_genCounter e < max_u64)%N -> (0 <= lvl < 2 ^ 63)%Z ->
  moved lvl out ins gone e w e' w' -> gives_up imm0 ins e gone -> e_imm e = imm0 ++ e_imm e' -> steady e e' -> durable e' w'.
Proof.
  intros Hi [Hc Hd] Hg Hl Hm Hup Himm (E1 & _ & E3 & _ & _ & E6 & E7 & E8 & E9). split; [by rewrite E8|].
  assert (logs e = imm0 ++ logs e') as El by (unfold logs; by rewrite Himm, E6, E7, E9, app_assoc).
  pose proof (logs_ids _ _ _ Hi) as Hids. rewrite El in Hd, Hids.
  by apply (stored_moved c e e' w w' lvl out ins gone imm0 (logs e')).
Qed.

(** ** Flushing *)

Lemma job_of_inj a b : job_of a = job_of b -> a = b.
Proof. destruct a, b. unfold job_of. cbn. congruence. Qed.

Lemma durable_flush last c e w r e' w' :
  inv c e w -> (e_genCounter e < max_u64)%N -> flush_post last c e w r e' w' -> layered c e -> in_order_upto last e ->
  w_faults w = [] -> durable e w -> durable e' w'.
Proof.
  intros Hi Hg (_ & Hst & Hq & _ & _ & _ & Hmv & c' & _ & _ & _ & _ & _ & HL) HLy Ho Hw Hd. specialize (Hmv Hw).
  destruct (HL HLy Ho) as [_ [Ho'|]]; [|done]. destruct Ho as (l & El & Ef), Ho' as (l' & El' & Ef').
  rewrite Ef in Hmv, Hq. destruct l as [|ie l]; [by destruct Hmv as [-> ->]|]. cbn in Hmv, Hq.
  assert (l' = l) as ->.
  { rewrite Ef' in Hq. clear -Hq. revert l' Hq. induction l as [|a l IH]; intros [|b l']; cbn; [done..|].
    intros [= H1 H2 H3 H4]. destruct a, b. cbn in *. subst. f_equal. by apply IH. }
  apply (durable_moved c e e' w w' 0 true [] [im_walPath ie] [ie]); try done.
  - intros p. cbn [fmap list_fmap]. rewrite !list_elem_of_singleton. split; [by left|]. intros [->|(lt & Hin & _)]; [done|by apply not_elem_of_nil in Hin].
  - by rewrite El, El'.
Qed.
(** ** Writing *)

Lemma logs_last e w recss :
  logged (logs e) e w recss -> exists rss recs, recss = rss ++ [recs] /\ Forall2 (log_ok (e_dir e) w) (e_imm e) rss /\
    log_ok (e_dir e) w (MkImm (e_memId e) (e_mem e) (e_walPath e)) recs.
Proof.
  intros (HL & _). apply Forall2_app_inv_l in HL as (rss & l & HL & Hlast & ->).
  apply Forall2_cons_inv_l in Hlast as (recs & l' & Hok & Hn & ->). apply Forall2_nil_inv_l in Hn as ->. by exists rss, recs.
Qed.

(** Logging a write. *)
Lemma durable_append c e w rec mt wl err w' :
  inv c e w -> (e_genCounter e < max_u64)%N -> durable e w -> w_faults w = [] ->
  Wal.valid rec -> known_type rec -> Wal.r_key rec <> [] -> Wal.r_seq rec = (e_seq e + 1)%N -> apply_mutation (e_mem e) (mut_of rec) = Some mt ->
  Wal.Append (e_wal e) rec w = (Ok (wl, err), w') ->
  durable (set_mem (e_memId e) mt (set_wal wl (e_walPath e) (set_lastSeq (e_seq e + 1) e))) w'.
Proof.
  intros Hi Hg [Hcl Hd] Hw Hv Hk Hkey Hsq Hmt HA. destruct (du_logs _ _ _ Hd) as (recss & HL).
  destruct (logs_last _ _ _ HL) as (rss & recs & -> & HLi & [Hp (f & Hf & Hfd & Hfs) Hval Hm]). cbn in Hp, Hf.
  assert (wb_repr (e_mem e) (replayed [] recs)) as Hm' by exact Hm. clear Hm. rename Hm' into Hm.
  pose proof (Wal.Append_ok (e_wal e) rec f w Hcl Hw) as HA'. unfold Wal.Path in HA'.
  rewrite (inv_wal _ _ _ Hi) in HA'. specialize (HA' Hf). rewrite HA in HA'. injection HA' as -> -> ->.
  set (f' := MkFile _ _) in *. set (e' := set_mem _ _ _). set (w' := MkWorld _ _).
  destruct HL as (_ & Hs & Hq). rewrite concat_app in Hs, Hq. cbn in Hs, Hq. rewrite app_nil_r in Hs, Hq.
  assert (forall p, p <> e_walPath e -> w_files w' !! p = w_files w !! p) as Hne by (intros p Hne; by apply lookup_insert_ne).
  assert (forall p, is_Some (w_files w' !! p) -> is_Some (w_files w !! p)) as Hex.
  { intros p. destruct (decide (p = e_walPath e)) as [->|Hn]; [rewrite Hf; by eexists|by rewrite Hne]. }
  assert (im_walPath <$> logs e' = im_walPath <$> logs e) as Elp by (unfold logs; by rewrite !fmap_app).
  assert (im_id <$> logs e' = im_id <$> logs e) as Eid by (unfold logs; by rewrite !fmap_app).
  split; [exact Hcl|]. split.
  - exists (rss ++ [recs ++ [rec]]). split_and!.
    + apply Forall2_app; [|constructor; [|constructor]].
      * apply Forall2_same_length_lookup_2; [by eapply Forall2_length|]. intros i ie r H1 H2.
        eapply log_ok_keep; [by eapply Forall2_lookup_lr|]. apply Hne.
        apply (logs_paths e w (e_imm e) _ ie (MkImm (e_memId e) (e_mem e) (e_walPath e)) Hd Hg (logs_ids _ _ _ Hi));
          [by eapply list_elem_of_lookup_2|by left].
      * split; cbn; [done| | |].
        -- exists f'. rewrite lookup_insert_eq. split_and!; [done| |done]. unfold f'. cbn.
           by rewrite Hfd, Wal.encode_all_app, Wal.encode_all_one.
        -- apply Forall_app. split; [done|]. by apply Forall_singleton.
        -- rewrite replayed_snoc. destruct (wb_repr_apply (e_mem e) (replayed [] recs) (mut_of rec) Hm) as (mt' & E & Hm').
           assert (Some mt = Some mt') as [= ->] by by rewrite <- Hmt, <- E. exact Hm'.
    + rewrite concat_app. cbn. rewrite app_nil_r, app_assoc, fmap_app. apply StronglySorted_app. split_and!.
      * intros a b (r & -> & Hr)%list_elem_of_fmap ->%list_elem_of_singleton. rewrite Forall_forall in Hq. specialize (Hq r Hr). lia.
      * done.
      * repeat constructor.
    + rewrite concat_app. cbn. rewrite app_nil_r, app_assoc. apply Forall_app. split; [|constructor; [lia|constructor]].
      eapply Forall_impl; [exact Hq|]. intros r Hr. cbn in *. lia.
  - rewrite Eid. apply Hd.
  - intros p Hp' Hwf. rewrite Elp. by apply (du_wals _ _ _ Hd); [apply Hex|].
  - intros p l g Hp' Hsf. exact (du_ssts _ _ _ Hd p l g (Hex p Hp') Hsf).
  - intros lt Hlt. destruct (du_tables _ _ _ Hd lt Hlt) as (t & g & Et & Hr & Hsf & f2 & Hs2). exists t, g.
    split_and!; [done..|]. exists f2. rewrite Hne; [done|]. intros E. rewrite E in Hsf.
    apply sst_file_path in Hsf. apply (sst_path_wal _ _ _ _ Hsf). rewrite Hp. apply last_walFileName.
Qed.

(** The engine right after the swap. *)
Definition swapped (mt0 : MemTable) (path : string) (e : Engine) : Engine :=
  set_imm (e_imm e ++ [MkImm (e_memId e) (e_mem e) (e_walPath e)])
    (set_wal (Wal.MkWAL (bufio_New path)) path (set_mem (e_genCounter e + 1) mt0 (set_gen (e_genCounter e + 1) e))).

(** A new log. *)
Lemma durable_swapped c e w rnd w' :
  inv c e w -> (e_genCounter e < max_u64)%N -> durable e w ->
  let path := walFileName (e_dir e) (e_genCounter e + 1) in
  w_files w' = <[path := MkFile [] 0]> (w_files w) ->
  durable (swapped (MemTable.New rnd) path e) w'.
Proof.
  intros Hi Hg [Hcl Hd] path Hw. pose proof (logs_ids _ _ _ Hi) as Hle.
  destruct (du_logs _ _ _ Hd) as (recss & HL & Hs & Hq). set (e' := swapped _ _ _).
  assert (logs e' = logs e ++ [MkImm (e_genCounter e + 1) (MemTable.New rnd) path]) as El by done.
  assert (forall p, p <> path -> w_files w' !! p = w_files w !! p) as Hne by (intros p Hn; by rewrite Hw, lookup_insert_ne).
  assert (forall lt t g, lt ∈ e_tables e -> e_store e !! lt_table lt = Some t -> sst_file (e_dir e) (t_path t) (lt_level lt) g -> t_path t <> path) as Htp.
  { intros lt t g _ _ Hsf E. rewrite E in Hsf. apply sst_file_path in Hsf. apply (sst_path_wal _ _ _ _ Hsf). apply last_walFileName. }
  split; [done|]. split.
  - exists (recss ++ [[]]). unfold logged. rewrite El, concat_app, app_nil_r. split_and!; [|done|done].
    apply Forall2_app; [|constructor; [|constructor]].
    + apply Forall2_same_length_lookup_2; [by eapply Forall2_length|]. intros i ie r H1 H2.
      pose proof (Forall2_lookup_lr _ _ _ _ _ _ HL H1 H2) as Hok. eapply log_ok_keep; [exact Hok|]. apply Hne.
      rewrite (lo_path _ _ _ _ Hok). intros E. rewrite Forall_forall in Hle.
      assert (im_id ie ∈ im_id <$> logs e) as Hin by (apply list_elem_of_fmap_2; by eapply list_elem_of_lookup_2).
      specialize (Hle _ Hin). cbn in Hle. unfold max_u64 in Hg. apply walFileName_inj in E; lia.
    + split; cbn; [done| |constructor|exact (wb_repr_new rnd)].
      exists (MkFile [] 0). by rewrite Hw, lookup_insert_eq.
  - rewrite El, fmap_app. apply StronglySorted_app. split_and!; [|apply Hd|repeat constructor].
    intros a b Ha ->%list_elem_of_singleton. rewrite Forall_forall in Hle. specialize (Hle a Ha). cbn in *. lia.
  - intros p Hp Hf. rewrite El, fmap_app. destruct (decide (p = path)) as [->|Hn]; [apply elem_of_app; right; by left|].
    apply elem_of_app. left. apply (du_wals _ _ _ Hd); [by rewrite <- Hne|done].
  - intros p l g Hp Hf. assert (p <> path) as Hn.
    { intros ->. by apply (sst_path_wal _ _ _ _ (sst_file_path _ _ _ _ Hf)), last_walFileName. }
    exact (du_ssts _ _ _ Hd p l g ltac:(by rewrite <- Hne) Hf).
  - intros lt Hlt. destruct (du_tables _ _ _ Hd lt Hlt) as (t & g & Et & Hr & Hsf & f & Hsy). exists t, g.
    split_and!; [done..|]. exists f. rewrite Hne; [done|]. by eapply Htp.
Qed.

(** The name is free. *)
Lemma durable_fresh c e w :
  inv c e w -> (e_genCounter e < max_u64)%N -> durable e w -> w_files w !! walFileName (e_dir e) (e_genCounter e + 1) = None.
Proof.
  intros Hi Hg [_ Hd]. destruct (w_files w !! _) as [f|] eqn:E; [|done]. exfalso. unfold max_u64 in Hg.
  pose proof (du_wals _ _ _ Hd _ ltac:(by eexists) (wal_file_new (e_dir e) (e_genCounter e + 1) ltac:(lia))) as (ie & Ep & Hin)%list_elem_of_fmap.
  destruct (stored_log _ _ _ _ Hd Hin) as [recs Hok]. rewrite (lo_path _ _ _ _ Hok) in Ep.
  pose proof (logs_ids _ _ _ Hi) as Hle. rewrite Forall_fmap, Forall_forall in Hle. specialize (Hle _ Hin). cbn in Hle.
  apply walFileName_inj in Ep; lia.
Qed.

Lemma Open_wal_quiet path w :
  w_faults w = [] -> w_files w !! path = None ->
  Wal.Open path w = (Ok (Wal.MkWAL (bufio_New path)), MkWorld (<[path := MkFile [] 0]> (w_files w)) []).
Proof. destruct w as [fs fl]. cbn. intros -> Hp. unfold Wal.Open. io_unfold. cbn. by rewrite Hp. Qed.

Lemma Close_wal_quiet wl w :
  Wal.clean wl -> w_faults w = [] -> Wal.Close wl w = (Ok (wl, None), w).
Proof.
  destruct wl as [[path buf er]], w as [fs fl]. intros [He Hb] Hw. cbn in *. subst. done.
Qed.
End durable.
