(* ===== verification/EngineWrite.v ===== *)
(** * Writing

    What [Put] and [Delete] do to the contents of the engine, rotation of the
    MemTable and of the log included. *)

From S2P Require Import Prelude OrdMap GoIO IOLogic MemTable Versions SSTable Table Merge Metrics FileNames EngineState EngineLogic EngineInv Engine EngineFlush EngineLogs.
From S2P Require Wal SkipList Bloom.
From Stdlib Require Import Ascii.
From stdpp Require Import base gmap sets list strings numbers fin_maps sorting.
Open Scope nat_scope.

(** ** The log as the engine uses it *)

(** Runs that end normally, on the writer [b], without touching other files;
    without faults they succeed unless the writer had failed before. *)
Definition writes_to {A} (path : string) (failed : bool) (m : M A) (Q : A -> bool -> Prop) : Prop :=
  forall w, exists a w', m w = (Ok a, w') /\ (forall q, q <> path -> w_files w' !! q = w_files w !! q) /\
    exists ok, Q a ok /\ (w_faults w = [] -> w_faults w' = [] /\ (failed = false -> ok = true)).

Lemma attempt_file_Write path p :
  writes_to path false (attempt (file_Write path p)) (fun r ok => ok = true -> r = inl tt).
Proof.
  intros [fs fl]. io_unfold. destruct fl as [|[n|] fl]; simpl.
  - eexists _, _. split; [reflexivity|]. split; [intros q Hq; cbn; by rewrite lookup_alter_ne|]. by exists true.
  - eexists _, _. split; [reflexivity|]. split; [intros q Hq; cbn; by rewrite lookup_alter_ne|]. by exists false.
  - eexists _, _. split; [reflexivity|]. split; [intros q Hq; cbn; by rewrite lookup_alter_ne|]. by exists true.
Qed.

Lemma attempt_quiet path (m : M unit) :
  m = file_Close \/ m = file_Sync path ->
  writes_to path false (attempt m) (fun r ok => ok = true -> r = inl tt).
Proof.
  intros [-> | ->] [fs fl]; io_unfold; destruct fl as [|[n|] fl]; simpl;
    (eexists _, _; split; [reflexivity|]; split; [intros q Hq; cbn; by rewrite ?lookup_alter_ne|]);
    (by exists true) || (by exists false).
Qed.

Definition buf_ok (b : bufw) (r : bufw * option error) (ok : bool) : Prop :=
  bw_path r.1 = bw_path b /\ (r.2 = None -> bw_err r.1 = false) /\ (ok = true -> r.2 = None).

Lemma writes_bind {A B} path failed (m : M A) (k : A -> M B) R Q :
  writes_to path failed m R ->
  (forall a ok, R a ok -> writes_to path (negb ok) (k a) Q) -> writes_to path failed (bind m k) Q.
Proof.
  intros Hm Hk w. destruct (Hm w) as (a & w1 & E1 & F1 & ok1 & H1 & N1).
  destruct (Hk a ok1 H1 w1) as (b & w2 & E2 & F2 & ok2 & H2 & N2).
  exists b, w2. split; [by rewrite (bind_Ok m k w a w1)|]. split; [intros q Hq; by rewrite F2, F1|].
  exists ok2. split; [done|]. intros Hw. destruct (N1 Hw) as [Hw1 Ho1]. destruct (N2 Hw1) as [Hw2 Ho2].
  split; [done|]. intros Hf. apply Ho2. by rewrite Ho1.
Qed.

Lemma writes_ret {A} path failed (a : A) (Q : A -> bool -> Prop) :
  Q a (negb failed) -> writes_to path failed (ret a) Q.
Proof.
  intros HQ w. exists a, w. split; [done|]. split; [done|]. exists (negb failed). split; [done|].
  intros Hw. split; [done|]. by intros ->.
Qed.

Lemma writes_failed {A} path failed failed' (m : M A) Q :
  writes_to path failed m Q -> (failed' = false -> failed = false) -> writes_to path failed' m Q.
Proof.
  intros Hm Hf w. destruct (Hm w) as (a & w1 & E1 & F1 & ok & H1 & N1). exists a, w1. split_and!; [done|done|].
  exists ok. split; [done|]. intros Hw. destruct (N1 Hw) as [? Ho]. auto.
Qed.

(** Returning a pair with the error of a call. *)
Ltac writes_ret_cases :=
  let r := fresh in let ok := fresh in let H := fresh in
  intros r ok H; cbn in H; first [destruct r as [[]|?] | idtac]; apply writes_ret; rewrite ?negb_involutive;
  repeat split; cbn; try done; try (intros ->; by specialize (H eq_refl)).

Lemma writes_Flush b : writes_to (bw_path b) (bw_err b) (bufio_Flush b) (buf_ok b).
Proof.
  unfold bufio_Flush. destruct b as [path buf [|]]; cbn [bw_path bw_err bw_buf]; [by apply writes_ret|].
  destruct buf as [|x buf]; [by apply writes_ret|].
  eapply writes_bind; [apply attempt_file_Write|]. writes_ret_cases.
Qed.

Lemma writes_direct b p failed : bw_err b = false -> writes_to (bw_path b) failed (bufio_direct b p) (buf_ok b).
Proof.
  intros Hb. eapply writes_failed with (failed := false); [|done]. unfold bufio_direct.
  eapply writes_bind; [apply attempt_file_Write|]. writes_ret_cases.
Qed.

Lemma writes_Write b p : writes_to (bw_path b) (bw_err b) (bufio_Write b p) (buf_ok b).
Proof.
  unfold bufio_Write. destruct b as [path buf [|]]; cbn [bw_path bw_err bw_buf]; [by apply writes_ret|].
  cbv zeta. case_match; [by apply writes_ret|]. destruct buf as [|x buf]; [by apply (writes_direct (MkBufw path [] false))|].
  eapply writes_bind; [apply (writes_Flush (MkBufw path _ false))|].
  intros [b' [err|]] ok (Hp & He & Hok); cbn in Hp, He, Hok.
  - apply writes_ret. split_and!; [done|done|]. cbn. rewrite negb_involutive. intros ->. by specialize (Hok eq_refl).
  - case_match; [by apply writes_ret|]. rewrite <- Hp.
    intros w. destruct (writes_direct b' (drop (N.to_nat (bufSize - N.of_nat (length (x :: buf)))) p) (negb ok) (He eq_refl) w)
      as (a & w1 & E & F & k & (H1 & H2) & N1).
    exists a, w1. split_and!; [done|done|]. exists k. split; [exact (conj H1 H2)|exact N1].
Qed.

Definition wal_ok (w : Wal.WAL) (r : Wal.WAL * option error) (ok : bool) : Prop :=
  bw_path (Wal.wal_w r.1) = bw_path (Wal.wal_w w) /\ (r.2 = None -> bw_err (Wal.wal_w r.1) = false) /\ (ok = true -> r.2 = None).

Lemma writes_Append w rec :
  writes_to (bw_path (Wal.wal_w w)) (bw_err (Wal.wal_w w)) (Wal.Append w rec) (wal_ok w).
Proof.
  unfold Wal.Append. cbv zeta. eapply writes_bind; [apply writes_Write|].
  intros [b1 [err|]] ok (Hp & He & Hok); cbn in Hp, He, Hok.
  - apply writes_ret. split_and!; [done|done|]. cbn. rewrite negb_involutive. intros ->. by specialize (Hok eq_refl).
  - rewrite <- Hp. eapply writes_bind.
    { eapply writes_failed; [apply writes_Flush|]. intros _. by apply He. }
    intros [b2 [err|]] ok2 (Hp2 & He2 & Hok2); cbn in Hp2, He2, Hok2.
    + apply writes_ret. split_and!; [cbn; congruence|done|]. cbn. rewrite negb_involutive. intros ->. by specialize (Hok2 eq_refl).
    + rewrite Hp2. eapply writes_bind.
      { eapply writes_failed; [apply attempt_quiet; by right|done]. }
      intros [[]|err] ok3 H3; apply writes_ret; (split_and!; [cbn; congruence|cbn; auto; done|]); cbn; [done|].
      rewrite negb_involutive. intros ->. by specialize (H3 eq_refl).
Qed.

Lemma writes_Close w :
  writes_to (bw_path (Wal.wal_w w)) (bw_err (Wal.wal_w w)) (Wal.Close w) (wal_ok w).
Proof.
  unfold Wal.Close. eapply writes_bind; [apply writes_Flush|].
  intros [b1 [err|]] ok (Hp & He & Hok); cbn in Hp, He, Hok.
  - apply writes_ret. split_and!; [done|done|]. cbn. rewrite negb_involutive. intros ->. by specialize (Hok eq_refl).
  - eapply writes_bind.
    { eapply writes_failed; [apply attempt_quiet; by left|done]. }
    intros [[]|err] ok3 H3; apply writes_ret; (split_and!; [cbn; congruence|cbn; auto; done|]); cbn; [done|].
    rewrite negb_involutive. intros ->. by specialize (H3 eq_refl).
Qed.

Lemma Open_wal_run path w :
  match Wal.Open path w with
  | (Ok wl, w') => wl = Wal.MkWAL (bufio_New path) /\ (forall q, q <> path -> w_files w' !! q = w_files w !! q) /\
                   (w_faults w = [] -> w_faults w' = [])
  | (Err _, w') => (forall q, q <> path -> w_files w' !! q = w_files w !! q) /\ w_faults w <> []
  | (Panic, _) => False
  end.
Proof.
  destruct w as [fs fl]. unfold Wal.Open. io_unfold. destruct fl as [|[n|] fl]; cbn; [| |]; split_and!; try done;
    intros q Hq; destruct (fs !! path); by rewrite ?lookup_insert_ne.
Qed.

(** ** Contents after a write *)

(** The contents without the active MemTable's version of a key. *)
Definition drop_mem (key : bytes) (c : contents) : contents :=
  MkContents (filter (fun s => Key s <> key) (c_mem c)) (c_imm c) (c_tables c).

(** Reads after [r] has been written over [c]. *)
Definition put_reads (c : contents) (r : Record) (c' : contents) : Prop :=
  forall key m, newest key m (view c') =
    if decide (sees key m r) then Some r else newest key m (view (drop_mem (Key r) c)).

Lemma put_reads_same c r c' c'' : put_reads c r c' -> same_reads c' c'' -> put_reads c r c''.
Proof. intros H1 H2 key m. by rewrite H2. Qed.

Lemma view_split c : view c = c_mem c ++ view (MkContents [] (c_imm c) (c_tables c)).
Proof. done. Qed.

(** Away from the key, a write changes nothing. *)
Lemma drop_mem_other c key key' m : key <> key' -> newest key m (view (drop_mem key' c)) = newest key m (view c).
Proof.
  intros Hne. rewrite (view_split (drop_mem key' c)), (view_split c), !newest_app. f_equal.
  apply newest_filter. by intros r [-> _].
Qed.

(** The map after the write. *)
Lemma put_map (c : contents) (r : Record) (c' : contents) (mp : gmap bytes bytes) :
  put_reads c r c' -> (Seq r <= unboundedSeq)%N -> (forall key, Value <$> live (newest key unboundedSeq (view c)) = mp !! key) ->
  forall key, Value <$> live (newest key unboundedSeq (view c')) =
    (if bool_decide (Typ r = TypeTombstone) then delete (Key r) mp else <[Key r := Value r]> mp) !! key.
Proof.
  intros Hp Hs Hm key. rewrite Hp. destruct (decide (sees key unboundedSeq r)) as [[<- _]|Hn].
  - unfold live. cbn. case_bool_decide as Ht.
    + rewrite lookup_delete_eq. by rewrite ?Ht.
    + rewrite lookup_insert_eq. by rewrite ?Ht.
  - assert (key <> Key r) as Hne by (intros ->; by apply Hn).
    rewrite drop_mem_other, Hm by done. case_bool_decide; [by rewrite lookup_delete_ne|by rewrite lookup_insert_ne].
Qed.

Section writes.
Context `{FM : Bloom.FloatMath} `{FL : Flate} `{HFL : !FlateLaws FL}.

(** What is not in the active MemTable. *)
Definition below (c : contents) : list Record := view (MkContents [] (c_imm c) (c_tables c)).

(** A version that may go into the active MemTable. *)
Definition fresh_for (c : contents) (r : Record) : Prop :=
  Forall (fun s => Seq s < Seq r)%N (below c) /\ Forall (fun s => Seq s <> Seq r) (c_mem c).

Lemma fresh_above c r : Forall (fun s => Seq s < Seq r)%N (view c) -> fresh_for c r.
Proof.
  rewrite (view_split c). intros [Hm Hb]%Forall_app. split; [exact Hb|]. eapply Forall_impl; [exact Hm|]. cbn. lia.
Qed.

(** The version that goes in has its number for itself. *)
Lemma unique_put c r rs' :
  unique_versions (view c) -> fresh_for c r -> (forall s, s ∈ rs' <-> s = r \/ s ∈ c_mem c /\ Key s <> Key r) ->
  unique_versions (view (MkContents rs' (c_imm c) (c_tables c))).
Proof.
  intros Hu [Hlt _] Hrs. rewrite Forall_forall in Hlt.
  assert (forall s, s ∈ view (MkContents rs' (c_imm c) (c_tables c)) -> s = r \/ s ∈ view c /\ (Key s = Key r -> (Seq s < Seq r)%N)) as Hv.
  { intros s. rewrite (view_split (MkContents rs' _ _)), (view_split c), !elem_of_app. cbn. rewrite Hrs. fold (below c). naive_solver. }
  intros s s' [->|[H1 Hn1]]%Hv [->|[H2 Hn2]]%Hv Hk Hq; [done| | |by apply Hu].
  - specialize (Hn2 (eq_sym Hk)). lia.
  - specialize (Hn1 Hk). lia.
Qed.

Lemma put_reads_mem c r rs' :
  unique_versions (view c) -> fresh_for c r ->
  (forall s, s ∈ rs' <-> s = r \/ s ∈ c_mem c /\ Key s <> Key r) ->
  put_reads c r (MkContents rs' (c_imm c) (c_tables c)).
Proof.
  intros Hu Hf Hrs key m. pose proof Hf as [Hlt _].
  assert (forall s, s ∈ view (MkContents rs' (c_imm c) (c_tables c)) <-> s = r \/ s ∈ view (drop_mem (Key r) c)) as Hv.
  { intros s. rewrite (view_split (MkContents rs' _ _)), (view_split (drop_mem (Key r) c)), !elem_of_app. cbn.
    rewrite Hrs, list_elem_of_filter. naive_solver. }
  assert (forall s, s ∈ view (drop_mem (Key r) c) -> s ∈ view c /\ (Key s = Key r -> (Seq s < Seq r)%N)) as Hsub.
  { intros s. rewrite (view_split (drop_mem _ _)), (view_split c), !elem_of_app. cbn. rewrite list_elem_of_filter. fold (below c).
    rewrite Forall_forall in Hlt. naive_solver. }
  pose proof (unique_put c r rs' Hu Hf Hrs) as Hu'.
  destruct (decide (sees key m r)) as [Hs|Hs].
  - apply newest_unique; [done|apply Hv; by left|done|].
    intros s [->|Hin]%Hv Hss; [done|]. destruct (Hsub s Hin) as [_ Hn], Hs as [Hk _], Hss as [Hk' _]. apply N.lt_le_incl, Hn. congruence.
  - symmetry. apply newest_ext; [done|]. intros s Hss. rewrite Hv. split; [by right|]. intros [->|?]; done.
Qed.

Lemma nodup_version_mem mt rs : mem_holds mt rs -> NoDup (version <$> rs).
Proof.
  intros H. apply NoDup_fmap_2_strong.
  - intros r s Hr Hs [= Hk _]. by apply (mem_holds_unique mt rs).
  - pose proof (mem_holds_sorted _ _ H) as Hs. clear H. induction Hs as [|r l Hl IH Hr]; [constructor|].
    constructor; [|done]. intros Hin. rewrite Forall_forall in Hr. by apply (irreflexivity rec_lt r), Hr.
Qed.

Lemma inv_put_version c e w u mt' rs' :
  inv c e w -> mut_key u <> [] -> (mut_seq u <= e_seq e)%N -> version (mut_rec u) ∉ version <$> below c ->
  mem_holds mt' rs' -> (forall s, s ∈ rs' <-> s = mut_rec u \/ s ∈ c_mem c /\ Key s <> mut_key u) ->
  inv (MkContents rs' (c_imm c) (c_tables c)) (set_mem (e_memId e) mt' e) w.
Proof.
  intros Hi Hk Hsq Hfb Hm Hrs.
  assert (Key (mut_rec u) = mut_key u /\ Seq (mut_rec u) = mut_seq u) as [Kr Sr] by (by destruct u).
  pose proof (inv_keys _ _ _ Hi) as Hks. pose proof (inv_versions _ _ _ Hi) as Hv.
  rewrite (view_split c) in Hks, Hv. fold (below c) in Hks, Hv. rewrite Forall_app in Hks. destruct Hks as [Hkm Hkr].
  rewrite fmap_app in Hv. apply NoDup_app in Hv as (Hvm & Hdisj & Hvr).
  destruct Hi; split; try done; cbn.
  - by eapply tables_keep.
  - change (NoDup (version <$> rs' ++ below c)). rewrite fmap_app. apply NoDup_app.
    split_and!; [by eapply nodup_version_mem| |done].
    intros v (s & -> & [->|[Hin _]]%Hrs)%list_elem_of_fmap Hv'; [done|].
    apply (Hdisj (version s)); [by apply list_elem_of_fmap_2|done].
  - change (Forall (fun r => Key r <> [] /\ (Seq r <= e_seq e)%N) (rs' ++ below c)). apply Forall_app.
    split; [|done]. apply Forall_forall. intros s [->|[Hin _]]%Hrs; [by rewrite Kr, Sr|]. rewrite Forall_forall in Hkm. by apply Hkm.
Qed.

Lemma inv_put c e w u mt' rs' :
  inv c e w -> mut_key u <> [] -> (mut_seq u <= e_seq e)%N -> fresh_for c (mut_rec u) ->
  mem_holds mt' rs' -> (forall s, s ∈ rs' <-> s = mut_rec u \/ s ∈ c_mem c /\ Key s <> mut_key u) ->
  inv (MkContents rs' (c_imm c) (c_tables c)) (set_mem (e_memId e) mt' e) w.
Proof.
  intros Hi Hk Hsq [Hfb _]. apply inv_put_version; [done..|]. rewrite Forall_forall in Hfb.
  intros (s & [= _ Hq] & Hs)%list_elem_of_fmap. specialize (Hfb s Hs). change (Seq (mut_rec u) = Seq s) in Hq. lia.
Qed.

Lemma layered_put c e' r rs' e :
  layered c e -> fresh_for c r -> (forall s, s ∈ rs' <-> s = r \/ s ∈ c_mem c /\ Key s <> Key r) ->
  e_tables e' = e_tables e -> layered (MkContents rs' (c_imm c) (c_tables c)) e'.
Proof.
  intros [Hm Him Ht Hl] [Hfb _] Hrs Et.
  assert (forall l, older l (c_mem c) -> (forall s, s ∈ l -> s ∈ below c) -> older l rs') as Hold.
  { intros l Ho Hin s s' H1 [->|[H2 _]]%Hrs Hk; [|by apply Ho]. rewrite Forall_forall in Hfb. apply Hfb. by apply Hin. }
  split; cbn.
  - apply Forall_forall. intros l Hl'. rewrite Forall_forall in Hm. apply Hold; [by apply Hm|].
    intros s Hs. apply elem_of_view. right; left. by exists l.
  - done.
  - intros l Hin. specialize (Ht l Hin). apply Forall_cons in Ht as [H1 H2]. constructor; [|done].
    apply Hold; [done|]. intros s Hs. apply elem_of_view. right; right. by exists l.
  - by rewrite Et.
Qed.

(** ** Rotation *)

(** What no write changes besides the sequence number. *)
Definition kept (e e' : Engine) : Prop :=
  e_dir e' = e_dir e /\ e_closed e' = e_closed e /\ e_opts e' = e_opts e /\ e_activeSnapshots e' = e_activeSnapshots e.

(** The order in time survives unless a flush failed. *)
Definition keeps_order (c : contents) (e : Engine) (w : world) (c' : contents) (e' : Engine) : Prop :=
  layered c e -> in_order e -> layered c' e' /\ (in_order e' \/ w_faults w <> []).

(** So do the files. *)
Definition keeps_files (c : contents) (e : Engine) (w : world) (e' : Engine) (w' : world) : Prop :=
  layered c e -> in_order e -> w_faults w = [] -> durable e w -> durable e' w'.

Definition faulted {A} (r : A + error) (w : world) : Prop := (exists err, r = inr err) /\ w_faults w <> [].

Definition rotated (c : contents) : contents := MkContents [] (c_imm c ++ [c_mem c]) (c_tables c).

Lemma view_rotated c : view (rotated c) = view c.
Proof. unfold view, rotated. cbn. rewrite rev_app_distr. cbn. by rewrite <- app_assoc. Qed.

Lemma inv_swapped c e w rnd :
  inv c e w -> c_mem c <> [] -> (e_genCounter e < max_u64)%N ->
  inv (rotated c) (swapped (MemTable.New rnd) (walFileName (e_dir e) (e_genCounter e + 1)) e) w.
Proof.
  intros Hi Hne Hg. pose proof (inv_ids _ _ _ Hi) as Hnd. pose proof (inv_ids_gen _ _ _ Hi) as Hle.
  pose proof (inv_wals _ _ _ Hi) as Hwl.
  assert (forall l, Forall (fun id => id <= e_genCounter e)%N l -> Forall (fun id => id <= e_genCounter e + 1)%N l) as Hle'.
  { intros l Hl. eapply Forall_impl; [done|]. intros; cbn in *; lia. }
  assert (im_id <$> e_imm e ++ [MkImm (e_memId e) (e_mem e) (e_walPath e)] ≡ₚ e_memId e :: (im_id <$> e_imm e)) as Hp.
  { rewrite fmap_app. cbn. by rewrite Permutation_app_comm. }
  constructor; try apply Hi; try (rewrite view_rotated; apply Hi).
  - exists []. split; [exact (wb_repr_new rnd)|done].
  - cbn. apply Forall2_app; [apply Hi|]. constructor; [|constructor]. split; [apply Hi|done].
  - eapply tables_keep; [apply Hi|done|cbn; lia|done|done].
  - cbn. constructor; [|by rewrite Hp]. rewrite Hp. intros Hin. rewrite Forall_forall in Hle. specialize (Hle _ Hin). cbn in Hle. lia.
  - cbn. constructor; [lia|]. rewrite Hp. by apply Hle'.
  - cbn. rewrite fmap_app. apply sublist_inserts_r, Hi.
  - cbn. apply Forall_cons in Hwl as [H1 H2]. constructor; [apply last_walFileName|]. rewrite fmap_app. apply Forall_app. by repeat constructor.
  - done.
Qed.

Lemma layered_rotated c e e' : layered c e -> e_tables e' = e_tables e -> layered (rotated c) e'.
Proof.
  intros [Hm Hi Ht Hl] Et. rewrite Forall_forall in Hm. split; cbn.
  - apply Forall_forall. intros l _ r s _ Hs. inversion Hs.
  - intros i j l1 l2 Hij E1 E2. apply lookup_app_Some in E2 as [E2|[Hge E2]].
    + rewrite lookup_app_l in E1 by (apply lookup_lt_Some in E2; lia). by eapply Hi.
    + apply list_lookup_singleton_Some in E2 as [E2 <-].
      rewrite lookup_app_l in E1 by lia. apply Hm. by eapply list_elem_of_lookup_2.
  - intros l Hin. specialize (Ht l Hin). apply Forall_cons in Ht as [H1 H2]. constructor.
    + intros r s _ Hs. inversion Hs.
    + apply Forall_app. by repeat constructor.
  - by rewrite Et.
Qed.

(** Handing a job to the worker, after the swap. *)
Lemma wp_send_job c e w imm ie :
  inv c e w -> e_imm e = imm ++ [ie] -> e_flushCh e `sublist_of` (job_of <$> imm) ->
  (forall ls l, c_imm c = ls ++ [l] -> Forall (flushable (o_compress (e_opts e))) ls) -> (e_genCounter e < max_u64)%N ->
  wp (send_job (job_of ie)) (fun r e' w' => r = inl tt /\ kept e e' /\ e_seq e' = e_seq e /\ e_wal e' = e_wal e /\ grown e e' /\
    exists c', inv c' e' w' /\ same_reads c c' /\
      (layered c e -> e_flushCh e = job_of <$> imm -> layered c' e' /\ (in_order e' \/ w_faults w <> []) /\
        (w_faults w = [] -> durable e w -> durable e' w'))) e w.
Proof.
  intros Hi Ei Hj Hfl Hg. unfold send_job. do 3 wp_step.
  assert (forall c1 e1 w1, inv c1 e1 w1 -> queued [ie] e1 -> inv c1 (set_flushCh (e_flushCh e1 ++ [job_of ie]) e1) w1) as Hadd.
  { intros c1 e1 w1 Hi1 (l1 & E1 & Hs1). destruct Hi1; split; try done; cbn; [by eapply tables_keep|].
    rewrite E1, fmap_app. by apply sublist_app. }
  destruct (length (e_flushCh e) <? flushQueueDepth).
  - do 2 wp_step. split_and!; [done|done|done|done|by left|]. exists c. split_and!; [by apply Hadd; [|exists imm]|done|].
    intros [] Hq. split_and!; [by split| |intros _ Hd; by apply (durable_same e _ w w Hd)].
    left. unfold in_order. cbn. by rewrite Ei, Hq, fmap_app.
  - eapply wp_mono.
    { apply (wp_flushWorker_step [ie] c e w Hi); [by exists imm| |done].
      intros ls [|l [|? ls']] E Hl; try done. by eapply Hfl. }
    intros r e1 w1 Hpost. pose proof Hpost as (-> & Hst & _ & Hq1 & _ & Hgr & _ & c1 & Hi1 & Hr & _ & _ & _ & HL). wp_step.
    destruct Hst as (S1 & S2 & S3 & S4 & S5 & _ & _ & S8 & _).
    split_and!; [done|by split_and!|done|done|done|]. exists c1. split_and!; [by apply Hadd|done|].
    intros HLy Hqe. destruct HL as [HL1 HL2]; [done|by exists imm|]. split; [by destruct HL1|]. split.
    2: { intros Hw Hd. apply (durable_same e1 _ w1 w1); try done.
         apply (durable_flush [ie] c e w (inl tt)); try done. by exists imm. }
    destruct HL2 as [(l & E & Ef)|]; [left|by right]. unfold in_order. cbn. by rewrite E, Ef, fmap_app.
Qed.

(** Only logs are written. *)
Definition only_logs (w w' : world) : Prop :=
  (forall q, ~ wal_path q -> w_files w' !! q = w_files w !! q) /\ (w_faults w = [] -> w_faults w' = []).

Lemma only_logs_known e w w' : only_logs w w' -> same_known e w w'.
Proof. intros [H _] p (l & g & Hp & _). apply H. intros Hw. exact (sst_path_wal _ _ _ _ Hp Hw). Qed.

Lemma only_logs_trans w1 w2 w3 : only_logs w1 w2 -> only_logs w2 w3 -> only_logs w1 w3.
Proof. intros [H1 F1] [H2 F2]. split; [intros q Hq; by rewrite H2, H1|auto]. Qed.

(** The MemTable that becomes immutable. *)
Definition retiring (e : Engine) : immEntry := MkImm (e_memId e) (e_mem e) (e_walPath e).

(** The part of the rotation before the hand-over. *)
Lemma wp_rotate_swap coins c e w :
  inv c e w -> c_mem c <> [] -> (e_genCounter e + 1 < max_u64)%N ->
  wp (rotate_swap coins) (fun r e' w' => only_logs w w' /\
    (r = inl None /\ e' = e /\ w' = w \/
     faulted r w /\ e' = set_gen (e_genCounter e + 1) e \/
     r = inl (Some (job_of (retiring e))) /\
       e' = swapped (MemTable.New (coins (e_genCounter e + 1)%N)) (walFileName (e_dir e) (e_genCounter e + 1)) e /\
       inv (rotated c) e' w' /\ (w_faults w = [] -> durable e w -> durable e' w'))) e w.
Proof.
  intros Hi Hne Hg. unfold rotate_swap. do 2 wp_step. destruct (_ <? _)%Z.
  { wp_step. split; [done|]. by left. }
  do 2 wp_step. rewrite u64_small by (unfold max_u64 in Hg; lia). do 2 wp_step. apply wp_lift.
  set (path := walFileName (e_dir e) (e_genCounter e + 1)).
  pose proof (Open_wal_run path w) as HO. pose proof (Open_wal_quiet path w) as HOq.
  assert (wal_path path) as Hpw by apply last_walFileName.
  destruct (Wal.Open path w) as [[wl|err|] w1]; [| |done].
  2: { destruct HO as [HF Hw]. split; [split; [intros q Hq; apply HF; by intros ->|done]|]. right; left. split; [|done]. by split; [eexists|]. }
  destruct HO as (-> & HF & Hfl1). assert (only_logs w w1) as H1 by (split; [intros q Hq; apply HF; by intros ->|done]).
  do 3 wp_step. apply wp_lift. pose proof (Close_wal_quiet (e_wal e) w1) as HCq.
  destruct (writes_Close (e_wal e) w1) as (a & w2 & EC & HC & ok & _ & Hfl2). rewrite EC in HCq |- *. wp_step.
  assert (only_logs w1 w2) as H2.
  { split; [|intros Hw; by destruct (Hfl2 Hw)]. intros q Hq. apply HC. rewrite (inv_wal _ _ _ Hi). intros ->.
    pose proof (inv_wals _ _ _ Hi) as Hwl. by apply Forall_cons in Hwl as [? _]. }
  pose proof (only_logs_trans _ _ _ H1 H2) as H12. split; [done|]. right; right.
  set (e' := swapped (MemTable.New (coins (e_genCounter e + 1)%N)) path e).
  enough (inv (rotated c) e' w2 /\ (w_faults w = [] -> durable e w -> durable e' w2)) as [? ?] by by split_and!. split.
  - eapply inv_world; [apply inv_swapped; [done|done|lia]|]. by apply (only_logs_known _ _ _ H12).
  - intros Hw Hd. specialize (HOq Hw (durable_fresh c e w Hi ltac:(lia) Hd)). injection HOq as ->.
    specialize (HCq (proj1 Hd) eq_refl). injection HCq as _ ->.
    by apply (durable_swapped c e w (coins (e_genCounter e + 1)%N) _ Hi ltac:(lia) Hd).
Qed.

Lemma wp_rotate coins c e w :
  inv c e w -> c_mem c <> [] -> Forall (flushable (o_compress (e_opts e))) (c_imm c) ->
  (e_genCounter e + 1 < max_u64)%N ->
  wp (Engine.rotate coins) (fun r e' w' => (r = inl tt \/ faulted r w) /\ kept e e' /\ e_seq e' = e_seq e /\
    (bw_err (Wal.wal_w (e_wal e)) = false -> bw_err (Wal.wal_w (e_wal e')) = false) /\ grown e e' /\
    exists c', inv c' e' w' /\ same_reads c c' /\ keeps_order c e w c' e' /\ keeps_files c e w e' w') e w.
Proof.
  intros Hi Hne Hfl Hg. unfold Engine.rotate. wp_step. eapply wp_mono; [by apply (wp_rotate_swap coins c e w Hi Hne Hg)|].
  intros r e1 w1 [Ho [(-> & -> & ->)|[[Hf ->]|(-> & -> & Hi1 & Hd1)]]].
  - wp_step. split_and!; [by left|done|done|done|by left|]. exists c. split_and!; [done|done| |by intros ????]. intros ??. auto.
  - destruct r as [o|err]; [by destruct Hf as [[? [=]] _]|]. split_and!; [right; split; [by exists err|apply Hf]|done|done|done|by left|]. exists c.
    split_and!; [apply inv_gen; [eapply inv_world; [done|by apply (only_logs_known e w w1)]|lia]|done|intros [] Hq; split; [by split|by left]|].
    intros _ _ Hw. by destruct Hf.
  - eapply wp_mono.
    { eapply (wp_send_job (rotated c) _ w1 (e_imm e) (retiring e)); [exact Hi1|done|apply Hi| |cbn; lia].
      cbn. intros ls l E. by apply app_inj_tail in E as [<- _]. }
    intros r e' w' (-> & Hk & Hs & Hwl & Hgr & c' & Hi' & Hr & HL). split_and!; [by left|exact Hk|exact Hs|by rewrite Hwl|exact Hgr|].
    exists c'. split_and!; [done|intros key m; by rewrite Hr, view_rotated| |].
    + intros HLy Hq. destruct HL as (H1 & H2 & _); [by eapply layered_rotated|exact Hq|]. split; [done|].
      destruct H2 as [|Hw2]; [by left|right]. intros Hw. by destruct Ho as [_ Ho]; specialize (Ho Hw).
    + intros HLy Hq Hw Hd. destruct HL as (_ & _ & H3); [by eapply layered_rotated|exact Hq|].
      apply H3; [by apply Ho|by apply Hd1].
Qed.

(** ** [write] *)

Lemma inv_set_wal c e w wl : inv c e w -> bw_path (Wal.wal_w wl) = e_walPath e -> inv c (set_wal wl (e_walPath e) e) w.
Proof. intros [] Hp. split; try done. by eapply tables_keep. Qed.

Lemma inv_seq c e w s : inv c e w -> (e_seq e <= s)%N -> inv c (set_lastSeq s e) w.
Proof.
  intros [] Hs. split; try done; [by eapply tables_keep|]. cbn.
  eapply Forall_impl; [done|]. intros r [? ?]. split; [done|lia].
Qed.

Definition write_post (c : contents) (e : Engine) (w : world) (rec : Record)
    (r : unit + error) (e' : Engine) (w' : world) : Prop :=
  kept e e' /\ e_seq e' = (e_seq e + 1)%N /\
  (w_faults w = [] -> bw_err (Wal.wal_w (e_wal e)) = false -> r = inl tt /\ bw_err (Wal.wal_w (e_wal e')) = false) /\
  grown e e' /\
  exists c', inv c' e' w' /\ keeps_order c e w c' e' /\
    (put_reads c rec c' \/ (exists err, r = inr err) /\ same_reads c c') /\
    ((N.of_nat (length (Key rec)) <= Wal.maxReasonableLen)%N -> (N.of_nat (length (Value rec)) <= Wal.maxReasonableLen)%N ->
     keeps_files c e w e' w').

Lemma wp_write_log_seq sq rec c e w :
  inv c (set_lastSeq sq e) w ->
  wp (write_log rec) (fun r e' w' => only_logs w w' /\ exists wl, bw_path (Wal.wal_w wl) = e_walPath e /\
    e' = set_wal wl (e_walPath e) e /\ inv c (set_lastSeq sq e') w' /\
    ((faulted r w \/ (exists err, r = inr err) /\ bw_err (Wal.wal_w (e_wal e)) = true) \/
     r = inl tt /\ bw_err (Wal.wal_w wl) = false /\ Wal.Append (e_wal e) rec w = (Ok (wl, None), w'))) e w.
Proof.
  intros Hi. unfold write_log. do 3 wp_step. apply wp_lift.
  destruct (writes_Append (e_wal e) rec w) as ([wl err] & w1 & EA & HF & ok & (Hp & Hbe & Hok) & Hfl1). rewrite EA. cbn [fst snd] in *.
  assert (bw_path (Wal.wal_w (e_wal e)) = e_walPath e) as Hwp by exact (inv_wal _ _ _ Hi).
  rewrite Hwp in Hp.
  assert (only_logs w w1) as Ho.
  { split; [|intros Hw; by destruct (Hfl1 Hw)]. intros q Hq. apply HF. intros ->. rewrite Hwp in Hq.
    pose proof (inv_wals _ _ _ Hi : Forall wal_path (e_walPath e :: (im_walPath <$> e_imm e))) as Hwl. by apply Forall_cons in Hwl as [? _]. }
  assert (inv c (set_lastSeq sq (set_wal wl (e_walPath e) e)) w1) as Hi1.
  { apply (inv_set_wal c (set_lastSeq sq e)); [|done]. eapply inv_world; [done|]. by apply (only_logs_known e w w1). }
  do 2 wp_step.
  assert (forall r, (faulted r w \/ (exists err, r = inr err) /\ bw_err (Wal.wal_w (e_wal e)) = true) \/
      r = inl tt /\ bw_err (Wal.wal_w wl) = false /\ (Ok (wl, err), w1) = (Ok (wl, None), w1 : world) ->
    only_logs w w1 /\ exists wl', bw_path (Wal.wal_w wl') = e_walPath e /\ set_wal wl (e_walPath e) e = set_wal wl' (e_walPath e) e /\
      inv c (set_lastSeq sq (set_wal wl (e_walPath e) e)) w1 /\
      ((faulted r w \/ (exists err, r = inr err) /\ bw_err (Wal.wal_w (e_wal e)) = true) \/
       r = inl tt /\ bw_err (Wal.wal_w wl') = false /\ (Ok (wl, err), w1) = (Ok (wl', None), w1))) as Hpost.
  { intros r Hr. split; [done|]. by exists wl. }
  destruct err as [err|]; wp_step; apply Hpost; [left|right].
  - destruct (bw_err (Wal.wal_w (e_wal e))) eqn:Eb; [right; by split; [eexists|]|left]. split; [by eexists|]. intros Hw.
    destruct (Hfl1 Hw) as [_ H]. by specialize (Hok (H eq_refl)).
  - split_and!; [done|by apply Hbe|done].
Qed.

Lemma wp_write_log rec c e w :
  inv c e w ->
  wp (write_log rec) (fun r e' w' => only_logs w w' /\ exists wl, bw_path (Wal.wal_w wl) = e_walPath e /\
    e' = set_wal wl (e_walPath e) e /\ inv c e' w' /\
    ((faulted r w \/ (exists err, r = inr err) /\ bw_err (Wal.wal_w (e_wal e)) = true) \/
     r = inl tt /\ bw_err (Wal.wal_w wl) = false /\ Wal.Append (e_wal e) rec w = (Ok (wl, None), w'))) e w.
Proof.
  intros Hi. eapply wp_mono; [apply (wp_write_log_seq (e_seq e) rec c e w); by destruct e|].
  intros r e' w' (H1 & wl & H2 & -> & H4 & H5). split; [done|]. exists wl. split_and!; [done|done| |done]. by destruct e.
Qed.

Lemma mut_rec_seq typ key value seq : Seq (mut_rec (mutation_of typ key value seq)) = seq.
Proof. unfold mutation_of. by case_bool_decide. Qed.

Lemma mut_rec_key typ key value seq : Key (mut_rec (mutation_of typ key value seq)) = key.
Proof. unfold mutation_of. by case_bool_decide. Qed.

Lemma wp_write_apply c e w key value typ seq :
  let rec := mut_rec (mutation_of typ key value seq) in
  inv c e w -> key <> [] -> (seq <= e_seq e)%N -> fresh_for c rec ->
  wp (write_apply key value typ seq) (fun r e' w' => w' = w /\ (exists full, r = inl full) /\
    exists mt rs, e' = set_mem (e_memId e) mt e /\ apply_mutation (e_mem e) (mutation_of typ key value seq) = Some mt /\ rs <> [] /\
      let c' := MkContents rs (c_imm c) (c_tables c) in
      inv c' e' w' /\ put_reads c rec c' /\ (forall s, s ∈ rs <-> s = rec \/ s ∈ c_mem c /\ Key s <> Key rec)) e w.
Proof.
  intros rec Hi Hk Hs Hf. unfold write_apply. do 3 wp_step. set (u := mutation_of typ key value seq) in *.
  assert ((if bool_decide (typ = Wal.RecordPut) then MemTable.Put (e_mem e) key value seq
           else MemTable.Delete (e_mem e) key seq) = apply_mutation (e_mem e) u) as E0.
  { unfold u, mutation_of. by case_bool_decide. }
  assert (mut_key u = key /\ mut_seq u = seq) as [Uk Us].
  { unfold u, mutation_of. by case_bool_decide. }
  assert (Key rec = mut_key u) as Kr by (unfold rec; by destruct u).
  destruct (mem_holds_apply (e_mem e) (c_mem c) u (inv_mem _ _ _ Hi)) as (mt' & rs' & E & Hm' & Hrs).
  eapply wp_lift_option; [rewrite E0; exact E|]. cbv beta iota. do 3 wp_step. split; [done|]. split; [by eexists|].
  exists mt', rs'. split_and!; [done|exact E| | | |by rewrite Kr].
  - intros En. assert (mut_rec u ∈ rs') as Hin by (apply Hrs; by left). rewrite En in Hin. inversion Hin.
  - apply (inv_put c e w u mt' rs' Hi); try done; [by rewrite Uk|by rewrite Us].
  - apply put_reads_mem; [by eapply inv_unique|done|by rewrite Kr].
Qed.

(** The part of a write under the lock: the engine with the new version in the
    log and in the active MemTable. *)
Definition wrote (e : Engine) (wl : Wal.WAL) (mt : MemTable) : Engine :=
  set_mem (e_memId e) mt (set_wal wl (e_walPath e) (set_lastSeq (e_seq e + 1) e)).

Definition locked_post (c : contents) (e : Engine) (w : world) (rec : Record) (r : bool + error) (e' : Engine) (w' : world) : Prop :=
  only_logs w w' /\ exists wl, bw_path (Wal.wal_w wl) = e_walPath e /\
  ((faulted r w \/ (exists err, r = inr err) /\ bw_err (Wal.wal_w (e_wal e)) = true) /\
     e' = set_wal wl (e_walPath e) (set_lastSeq (e_seq e + 1) e) /\ inv c e' w' \/
   (exists full, r = inl full) /\ bw_err (Wal.wal_w wl) = false /\
     exists mt rs, e' = wrote e wl mt /\ rs <> [] /\
       let c' := MkContents rs (c_imm c) (c_tables c) in
       inv c' e' w' /\ put_reads c rec c' /\ (forall s, s ∈ rs <-> s = rec \/ s ∈ c_mem c /\ Key s <> Key rec) /\
       ((N.of_nat (length (Key rec)) <= Wal.maxReasonableLen)%N -> (N.of_nat (length (Value rec)) <= Wal.maxReasonableLen)%N ->
         w_faults w = [] -> durable e w -> durable e' w')).

Lemma next_fresh c e w rec : inv c e w -> (e_seq e < Seq rec)%N -> fresh_for c rec.
Proof. intros Hi Hs. apply fresh_above. eapply Forall_impl; [apply (inv_keys _ _ _ Hi)|]. intros r [_ H]. cbn in *. lia. Qed.

Lemma wp_write_locked c e w key value typ :
  typ = Wal.RecordPut \/ typ = Wal.RecordDelete /\ value = [] -> inv c e w -> key <> [] -> e_closed e = false -> (e_seq e < max_u64)%N -> (e_genCounter e < max_u64)%N ->
  wp (write_locked key value typ) (locked_post c e w (mut_rec (mutation_of typ key value (e_seq e + 1)))) e w.
Proof.
  intros Htyp Hi Hk Hc Hs Hg. unfold write_locked, write_begin. do 3 wp_step. rewrite Hc.
  rewrite u64_small by (unfold max_u64 in Hs; lia). do 4 wp_step. set (e0 := set_lastSeq (e_seq e + 1) e).
  assert (inv c e0 w) as Hi0 by (apply inv_seq; [done|lia]).
  eapply wp_mono; [by apply (wp_write_log (Wal.MkRecord typ key value (e_seq e + 1)) c e0 w)|].
  intros r e1 w1 (Ho & wl & Hp & -> & Hi1 & [Hf|(-> & Hbe & EA)]).
  { assert (exists err, r = inr err) as [err ->] by (by destruct Hf as [[? _]|[? _]]). split; [done|]. exists wl. split; [done|]. left.
    split; [|done]. destruct Hf as [[_ ?]|[_ ?]]; [left|right]; (split; [by eexists|done]). }
  set (u := mutation_of typ key value (e_seq e + 1)). pose proof (mut_rec_key typ key value (e_seq e + 1)) as Kr.
  eapply wp_mono.
  { apply (wp_write_apply c _ w1 key value typ (e_seq e + 1) Hi1 Hk); [cbn; lia|]. apply (next_fresh c e w); [done|]. rewrite mut_rec_seq. lia. }
  fold u in Kr |- *. intros r e2 w2 (-> & [full ->] & mt & rs & -> & Emt & Hne & Hi2 & Hput & Hrs). split; [done|]. exists wl. split; [done|]. right.
  split; [by eexists|]. split; [done|]. exists mt, rs. split; [done|]. split; [done|]. cbv zeta. split_and!; [exact Hi2|exact Hput|exact Hrs|].
  intros Hlk Hlv Hw Hd.
  apply (durable_append c e w (Wal.MkRecord typ key value (e_seq e + 1)) mt wl None w1 Hi ltac:(lia) Hd Hw); try done.
  - rewrite Kr in Hlk. split_and!; [exact Hlk| |unfold max_u64 in Hs; cbn; lia]. unfold u, mutation_of in Hlv. cbn.
    destruct Htyp as [Ht|[Ht Hv]]; [by rewrite Ht in Hlv|]. rewrite Hv. cbn. unfold Wal.maxReasonableLen. lia.
  - unfold known_type. cbn. naive_solver.
Qed.

Lemma wp_write coins c e w key value typ :
  typ = Wal.RecordPut \/ typ = Wal.RecordDelete /\ value = [] -> inv c e w -> key <> [] -> e_closed e = false -> (e_seq e < max_u64)%N -> (e_genCounter e + 1 < max_u64)%N ->
  Forall (flushable (o_compress (e_opts e))) (c_imm c) ->
  wp (Engine.write coins key value typ)
    (write_post c e w (mut_rec (mutation_of typ key value (e_seq e + 1)))) e w.
Proof.
  intros Htyp Hi Hk Hc Hs Hg Hfl. unfold Engine.write. wp_step. eapply wp_mono; [apply (wp_write_locked c e w key value typ); try done; lia|].
  set (rec := mut_rec _). assert (Seq rec = (e_seq e + 1)%N) as Sr by apply mut_rec_seq.
  intros r e1 w1 (Ho & wl & Hp & [(Hf & -> & Hi1)|((full & ->) & Hbe & mt & rs & -> & Hne & Hi1 & Hput & Hrs & Hdur)]).
  { assert (exists err, r = inr err) as [err ->] by (by destruct Hf as [[? _]|[? _]]).
    split_and!; [done|done| |by left|].
    - intros Hw He. destruct Hf as [[_ ?]|[_ Hb]]; [done|]. by rewrite He in Hb.
    - exists c. split_and!; [done|intros [] Hq; split; [by split|by left]|right; by split; [eexists|]|].
      intros _ _ _ _ Hw Hd. destruct Hf as [[_ ?]|[_ Hb]]; [done|]. by rewrite (proj1 (proj1 Hd)) in Hb. }
  set (c1 := MkContents rs (c_imm c) (c_tables c)) in *. set (e1 := wrote e wl mt) in *.
  assert (forall e', e_tables e' = e_tables e -> layered c e -> layered c1 e') as HL.
  { intros e' Et HL. apply (layered_put c e' rec rs e HL); [|done|done]. apply (next_fresh c e w); [done|lia]. }
  destruct full.
  - wp_step. eapply wp_mono; [by apply (wp_rotate coins c1 e1 w1)|].
    intros r e' w' (Hr & Hk' & Hs' & Hbe' & Hgr & c' & Hi' & Hrd & Hor & Hfs). split_and!; [exact Hk'|done| |exact Hgr|].
    + intros Hw He. split; [|by apply Hbe']. destruct Hr as [-> |[_ Hw1]]; [done|]. by destruct Hw1; apply Ho.
    + exists c'. split_and!; [done| |left; by eapply put_reads_same|].
      * intros HL0 Hq. destruct Hor as [H1 H2]; [by apply HL|done|]. split; [done|]. destruct H2 as [|H2]; [by left|right].
        intros Hw. by apply H2, Ho.
      * intros Hlk Hlv HL0 Hq Hw Hd. apply Hfs; [by apply HL|done|by apply Ho|by apply Hdur].
  - wp_step. split_and!; [done|done|intros _ He; done|by left|]. exists c1. split_and!; [done| |by left|].
    + intros HL0 Hq. split; [by apply HL|by left].
    + intros Hlk Hlv _ _ Hw Hd. by apply Hdur.
Qed.

Definition write_op coins (del : bool) (key value : bytes) : E unit :=
  if del then Engine.Delete coins key else Engine.Put coins key value.

Definition write_rec (del : bool) (key value : bytes) (seq : N) : Record :=
  if del then MkRec key [] TypeTombstone seq else MkRec key value TypeValue seq.

Lemma wp_write_op coins (del : bool) c e w key value :
  inv c e w -> (e_seq e < max_u64)%N -> (e_genCounter e + 1 < max_u64)%N ->
  Forall (flushable (o_compress (e_opts e))) (c_imm c) ->
  wp (write_op coins del key value) (fun r e' w' => (key = [] -> r = inr ErrEmptyKey /\ e' = e /\ w' = w) /\
    (key <> [] -> e_closed e = true -> r = inr ErrClosed /\ inv c e' w') /\
    (key <> [] -> e_closed e = false -> write_post c e w (write_rec del key value (e_seq e + 1)) r e' w')) e w.
Proof.
  intros Hi Hs Hg Hfl. set (rec := write_rec del key value (e_seq e + 1)).
  assert (forall typ v total, typ = Wal.RecordPut \/ typ = Wal.RecordDelete /\ v = [] -> rec = mut_rec (mutation_of typ key v (e_seq e + 1)) -> key <> [] ->
    wp (let? r := etry (Engine.write coins key v typ) in observe_since writeLatency;;? inc total;;? of_sum r)
      (fun r e' w' => (key = [] -> r = inr ErrEmptyKey /\ e' = e /\ w' = w) /\
         (key <> [] -> e_closed e = true -> r = inr ErrClosed /\ inv c e' w') /\
         (key <> [] -> e_closed e = false -> write_post c e w rec r e' w')) e w) as Hw.
  { intros typ v total Htyp -> Hne. do 2 wp_step. destruct (e_closed e) eqn:Ec.
    - unfold Engine.write, write_locked, write_begin. do 4 wp_step. rewrite Ec. unfold observe_since, inc. wp_steps.
      split_and!; [done|intros _ _; split; [done|by eapply inv_irrelevant]|done].
    - eapply wp_mono; [by apply wp_write|]. intros r e' w' (H1 & H2 & H3 & H4 & c' & Hi' & HL & Hr & Hf).
      unfold observe_since, inc. wp_steps. split_and!; [done|done|]. intros _ _.
      split_and!; [exact H1|exact H2|exact H3|exact H4|]. exists c'. split_and!; [by eapply inv_irrelevant| |exact Hr|].
      2: { intros Hlk Hlv HL0 Hq Hw Hd. by apply (durable_same e' _ w' w'); [apply Hf|..]. }
      intros HL0 Hq. destruct (HL HL0 Hq) as [[] ?]. split; [by split|done]. }
  unfold write_op, rec, write_rec, Engine.Put, Engine.Delete. destruct del, key as [|b key]; try (by wp_step); apply Hw; auto.
Qed.

(** C18: writes.  [Put] and [Delete] reject an empty key and a closed engine.
    Otherwise the call either fails and no read changes, or (always, if it
    returns nil) every read bounded at or above the new sequence number finds
    the new version, reads of other keys are unchanged, and a read of the key
    below that number loses exactly the version the active MemTable held.
    Rotation and the flush it may wait for are included.  Without faults, on a
    sound log, it returns nil, and what is on disk still makes up the store. *)
Theorem write_reads coins (del : bool) c e w key value :
  inv c e w -> (e_seq e < max_u64)%N -> (e_genCounter e + 1 < max_u64)%N ->
  Forall (flushable (o_compress (e_opts e))) (c_imm c) ->
  let op := if del then Engine.Delete coins key else Engine.Put coins key value in
  let rec := if del then MkRec key [] TypeTombstone (e_seq e + 1) else MkRec key value TypeValue (e_seq e + 1) in
  exists r e' w', op e w = (Ok (e', r), w') /\
    (key = [] -> r = inr ErrEmptyKey /\ e' = e /\ w' = w) /\
    (key <> [] -> e_closed e = true -> r = inr ErrClosed /\ inv c e' w') /\
    (key <> [] -> e_closed e = false -> write_post c e w rec r e' w').
Proof.
  intros Hi Hs Hg Hfl op rec.
  destruct (wp_run _ _ _ _ (wp_write_op coins del c e w key value Hi Hs Hg Hfl)) as (r & e' & w' & E & H). by exists r, e', w'.
Qed.
End writes.
