(* ===== verification/EngineCompact.v ===== *)
(** * Compaction

    A compaction pass replaces the tables of two levels by one table.  It is
    invisible to every reader at or above the smallest sequence number an open
    snapshot holds. *)

From S2P Require Import Prelude OrdMap GoIO IOLogic MemTable Versions SSTable Table Merge Metrics FileNames EngineState EngineLogic EngineInv Engine EngineFlush EngineLogs.
From S2P Require Wal SkipList Bloom.
From stdpp Require Import base gmap sets list strings numbers fin_maps sorting.
Open Scope nat_scope.

(** ** Snapshots *)

Lemma minActive_spec (s : gmap N Z) :
  let m := map_fold (fun seq _ mn => if (seq <? mn)%N then seq else mn) unboundedSeq s in
  (m <= unboundedSeq)%N /\ (forall seq, is_Some (s !! seq) -> (m <= seq)%N) /\
  (m = unboundedSeq \/ is_Some (s !! m)).
Proof.
  cbv zeta. revert s. apply (map_fold_weak_ind (fun m (s : gmap N Z) => (m <= unboundedSeq)%N /\
    (forall seq, is_Some (s !! seq) -> (m <= seq)%N) /\ (m = unboundedSeq \/ is_Some (s !! m)))).
  - split_and!; [done|intros seq [? E]; by rewrite lookup_empty in E|by left].
  - intros k v s m Hk (H1 & H2 & H3). split_and!.
    + destruct (N.ltb_spec k m); lia.
    + intros seq Hs. destruct (decide (k = seq)) as [->|Hne].
      * destruct (N.ltb_spec seq m); lia.
      * rewrite lookup_insert_ne in Hs by done. specialize (H2 seq Hs). destruct (N.ltb_spec k m); lia.
    + destruct (N.ltb_spec k m); [right; by rewrite lookup_insert_eq|].
      destruct H3 as [|H3]; [by left|right]. destruct (decide (k = m)) as [->|Hne]; [by rewrite lookup_insert_eq|].
      by rewrite lookup_insert_ne.
Qed.

(** ** The choice of the inputs *)

Lemma filter_zip {A B} (P : A -> Prop) `{!forall x, Decision (P x)} (l : list A) (k : list B) :
  length l = length k -> filter P l = (filter (fun p => P p.1) (zip l k)).*1.
Proof.
  revert k. induction l as [|x l IH]; intros [|y k] Hl; try done. cbn [zip zip_with].
  rewrite !filter_cons. cbn. destruct (decide (P x)); cbn; rewrite <- IH by (cbn in Hl; lia); done.
Qed.

Lemma filter_split {A} (P : A -> Prop) `{!forall x, Decision (P x)} l :
  l ≡ₚ filter P l ++ filter (fun x => ~ P x) l.
Proof.
  induction l as [|x l IH]; [done|]. rewrite !filter_cons. destruct (decide (P x)).
  - rewrite decide_False by tauto. cbn. by f_equiv.
  - rewrite decide_True by done. rewrite <- Permutation_middle. by f_equiv.
Qed.

Section compact.
Context `{FM : Bloom.FloatMath} `{FL : Flate} `{HFL : !FlateLaws FL}.

(** The tables with their records. *)
Definition tables_of (c : contents) (e : Engine) : list (leveledTable * list Record) := zip (e_tables e) (c_tables c).

Definition at_level (l : Z) (p : leveledTable * list Record) : Prop := lt_level p.1 = l.
#[local] Instance at_level_dec l p : Decision (at_level l p).
Proof. unfold at_level. apply _. Defined.

(** The inputs of a pass over the levels [l] and [l + 1]. *)
Definition inputs_of (l : Z) (c : contents) (e : Engine) : list (leveledTable * list Record) :=
  filter (at_level l) (tables_of c e) ++ filter (at_level (l + 1)) (tables_of c e).

Definition tids (ps : list (leveledTable * list Record)) : list nat := (fun p => lt_table p.1) <$> ps.
Definition others (ps : list (leveledTable * list Record)) (c : contents) (e : Engine) : list (leveledTable * list Record) :=
  filter (fun p => lt_table p.1 ∉ tids ps) (tables_of c e).

(** The tables [ps] can be merged into one table at level [l + 1]: whatever else is
    at their levels or above them is newer.  Tables flushed since they were chosen
    are among the others. *)
Record selection (l : Z) (ps : list (leveledTable * list Record)) (c : contents) (e : Engine) : Prop := {
  sel_sub : ps ⊆ tables_of c e;
  sel_nodup : NoDup (tids ps);
  sel_levels : forall p, p ∈ ps -> lt_level p.1 = l \/ lt_level p.1 = (l + 1)%Z;
  sel_newer : forall p q, p ∈ ps -> q ∈ others ps c e -> (lt_level q.1 <= l)%Z -> older p.2 q.2 }.

(** Nothing lies below the output. *)
Definition at_bottom (l : Z) (ps : list (leveledTable * list Record)) (c : contents) (e : Engine) : Prop :=
  forall q, q ∈ others ps c e -> (lt_level q.1 <= l)%Z.

Lemma inv_length c e w : inv c e w -> length (e_tables e) = length (c_tables c).
Proof. intros Hi. by eapply Forall2_length, Hi. Qed.

Lemma tables_of_1 c e w : inv c e w -> (tables_of c e).*1 = e_tables e.
Proof. intros Hi. apply fst_zip. by rewrite (inv_length c e w). Qed.
Lemma tables_of_2 c e w : inv c e w -> (tables_of c e).*2 = c_tables c.
Proof. intros Hi. apply snd_zip. by rewrite (inv_length c e w). Qed.

Lemma sublist_filter {A} (P : A -> Prop) `{!forall x, Decision (P x)} (l : list A) : filter P l `sublist_of` l.
Proof.
  induction l as [|x l IH]; [done|]. rewrite filter_cons. destruct (decide (P x)); [by constructor|by apply sublist_cons].
Qed.

Lemma elem_of_others ps c e p : p ∈ others ps c e <-> p ∈ tables_of c e /\ lt_table p.1 ∉ tids ps.
Proof. unfold others. rewrite list_elem_of_filter. tauto. Qed.

Lemma elem_of_inputs l c e p : p ∈ inputs_of l c e <-> p ∈ tables_of c e /\ (lt_level p.1 = l \/ lt_level p.1 = (l + 1)%Z).
Proof. unfold inputs_of, at_level. rewrite elem_of_app, !list_elem_of_filter. tauto. Qed.

Lemma elem_of_tids ps p : p ∈ ps -> lt_table p.1 ∈ tids ps.
Proof. apply (list_elem_of_fmap_2 (fun p => lt_table p.1)). Qed.

Lemma tables_of_ok c e w p : inv c e w -> p ∈ tables_of c e -> p.1 ∈ e_tables e /\ table_ok e w p.1 p.2.
Proof.
  destruct p as [lt rs]. intros Hi Hp. apply list_elem_of_lookup in Hp as [i Hp]. unfold tables_of in Hp.
  apply lookup_zip_Some in Hp as [H1 H2]. split; [by eapply list_elem_of_lookup_2|].
  by eapply Forall2_lookup_lr; [apply (inv_tables _ _ _ Hi)|..].
Qed.

(** A table number names one table. *)
Lemma tid_inj c e w a b : inv c e w -> a ∈ e_tables e -> b ∈ e_tables e -> lt_table a = lt_table b -> a = b.
Proof.
  intros Hi Ha Hb Hab. apply list_elem_of_lookup in Ha as [i Ha]. apply list_elem_of_lookup in Hb as [j Hb].
  assert (i = j) as ->; [|congruence].
  eapply (NoDup_lookup (lt_table <$> e_tables e)); [apply Hi|by rewrite list_lookup_fmap, Ha|].
  rewrite list_lookup_fmap, Hb. cbn. congruence.
Qed.

(** ... and its records. *)
Lemma tables_of_inj c e w p q :
  inv c e w -> p ∈ tables_of c e -> q ∈ tables_of c e -> lt_table p.1 = lt_table q.1 -> p = q.
Proof.
  intros Hi Hp Hq Ht. apply list_elem_of_lookup in Hp as [i Hp]. apply list_elem_of_lookup in Hq as [j Hq].
  assert (i = j) as ->; [|congruence].
  eapply (NoDup_lookup (lt_table <$> (tables_of c e).*1)); [rewrite (tables_of_1 c e w Hi); apply Hi| |];
    rewrite !list_lookup_fmap; [by rewrite Hp|rewrite Hq; cbn; congruence].
Qed.

Lemma nodup_tables_of c e w : inv c e w -> NoDup (tables_of c e).
Proof.
  intros Hi. apply (NoDup_fmap_1 fst), (NoDup_fmap_1 lt_table). rewrite (tables_of_1 c e w Hi). apply Hi.
Qed.

Lemma split_tables l ps c e w : inv c e w -> selection l ps c e -> tables_of c e ≡ₚ ps ++ others ps c e.
Proof.
  intros Hi Hs. rewrite (filter_split (fun p => lt_table p.1 ∈ tids ps) (tables_of c e)) at 1. unfold others. f_equiv.
  apply NoDup_Permutation.
  - eapply sublist_NoDup; [by eapply nodup_tables_of|apply sublist_filter].
  - eapply NoDup_fmap_1, (sel_nodup _ _ _ _ Hs).
  - intros p. rewrite list_elem_of_filter. split.
    + intros [(q & Et & Hq)%list_elem_of_fmap Hp]. by rewrite (tables_of_inj c e w p q Hi Hp (sel_sub _ _ _ _ Hs _ Hq) Et).
    + intros Hp. split; [by apply elem_of_tids|by apply (sel_sub _ _ _ _ Hs)].
Qed.

Lemma levelTables_of c e w l :
  inv c e w -> levelTablesLocked e l = (fun p => lt_table p.1) <$> filter (at_level l) (tables_of c e).
Proof.
  intros Hi. unfold levelTablesLocked, tables_of.
  rewrite (filter_zip (fun lt => lt_level lt = l) (e_tables e) (c_tables c)) by by apply (inv_length c e w).
  by rewrite <- list_fmap_compose.
Qed.

(** The plan names two adjacent levels, the first of them not empty. *)
Lemma pick_level_spec e k lvl plan :
  pick_level e k lvl = Some plan ->
  exists l, (lvl <= l < lvl + Z.of_nat k)%Z /\ p_targetLevel plan = (l + 1)%Z /\
    p_inputs plan = levelTablesLocked e l ++ levelTablesLocked e (l + 1) /\ levelTablesLocked e l <> [].
Proof.
  revert lvl. induction k as [|k IH]; intros lvl; cbn [pick_level]; [done|].
  destruct (levelTablesLocked e lvl) as [|t ts] eqn:E.
  - intros H. destruct (IH _ H) as (l & Hl & H'). exists l. split; [lia|done].
  - case_match; [|intros H'; destruct (IH _ H') as (l & Hl & H''); exists l; split; [lia|done]].
    intros [= <-]. exists lvl. rewrite E. split_and!; [lia|lia|done|done|done].
Qed.

Lemma pick_spec e plan :
  pickCompactionLocked e = Some plan -> (0 < o_l0CompactionTrigger (e_opts e))%Z -> (2 <= o_maxLevels (e_opts e))%Z ->
  exists l, (0 <= l)%Z /\ (l + 1 < o_maxLevels (e_opts e))%Z /\ p_targetLevel plan = (l + 1)%Z /\
    p_inputs plan = levelTablesLocked e l ++ levelTablesLocked e (l + 1) /\ levelTablesLocked e l <> [].
Proof.
  unfold pickCompactionLocked. intros Hp Ht Hm. destruct (Z.leb_spec (o_l0CompactionTrigger (e_opts e)) (Z.of_nat (length (levelTablesLocked e 0)))).
  - injection Hp as <-. exists 0%Z. split_and!; [lia|lia|done|done|]. intros E. rewrite E in *. cbn in *. lia.
  - destruct (pick_level_spec _ _ _ _ Hp) as (l & Hl & H'). exists l. split_and!; [lia|lia|apply H'..].
Qed.

(** The configurations and the level numbers compaction is made for. *)
Definition config_ok (o : options) : Prop := (0 < o_l0CompactionTrigger o)%Z /\ (2 <= o_maxLevels o < 2 ^ 62)%Z.
Definition levels_ok (e : Engine) : Prop := Forall (fun lt => lt_level lt < o_maxLevels (e_opts e))%Z (e_tables e).

(** ** Reads across a compaction *)

Definition compacted (ps : list (leveledTable * list Record)) (out : list (list Record)) (c : contents) (e : Engine) : contents :=
  MkContents (c_mem c) (c_imm c) ((others ps c e).*2 ++ out).

(** What is not compacted. *)
Definition kept_records (ps : list (leveledTable * list Record)) (c : contents) (e : Engine) : list Record :=
  c_mem c ++ concat (rev (c_imm c)) ++ concat (others ps c e).*2.

Lemma view_inputs l ps c e w : inv c e w -> selection l ps c e -> view c ≡ₚ kept_records ps c e ++ concat ps.*2.
Proof.
  intros Hi Hs. unfold view, kept_records. rewrite <- !app_assoc. do 2 f_equiv.
  rewrite <- (tables_of_2 c e w Hi). rewrite (split_tables l ps c e w Hi Hs) at 1. rewrite fmap_app, concat_app.
  apply Permutation_app_comm.
Qed.

Lemma view_compacted ps out c e : view (compacted ps out c e) = kept_records ps c e ++ concat out.
Proof. unfold view, compacted, kept_records. cbn. by rewrite concat_app, <- !app_assoc. Qed.

Lemma live_over U I O k m :
  live (newest k m O) = live (newest k m I) -> O ⊆ I -> (newest k m O = newest k m I \/ older I U) ->
  live (newest k m (U ++ O)) = live (newest k m (U ++ I)).
Proof.
  intros Hl Hsub Hor. rewrite !newest_app. destruct Hor as [->|Hold]; [done|].
  destruct (newest k m U) as [u|] eqn:EU; [|done].
  apply newest_Some in EU as (Hu & [Hk _] & _).
  assert (forall L, L ⊆ I -> newer (Some u) (newest k m L) = Some u) as Hn.
  { intros L HL. destruct (newest k m L) as [i|] eqn:EI; [|done]. apply newest_Some in EI as (Hin & [Hki _] & _).
    cbn. specialize (Hold i u (HL _ Hin) Hu ltac:(congruence)). destruct (N.ltb_spec (Seq u) (Seq i)); [lia|done]. }
  by rewrite !Hn.
Qed.

(** Only levels above the inputs are left when the merge is bottommost. *)
Lemma bottommost_spec e l :
  isBottommost e (l + 1) = true -> forall lt, lt ∈ e_tables e -> (lt_level lt < o_maxLevels (e_opts e))%Z -> (lt_level lt <= l + 1)%Z.
Proof.
  unfold isBottommost. intros Hb lt Hin Hlt. destruct (Z.le_gt_cases (lt_level lt) (l + 1)) as [|Hgt]; [done|]. exfalso.
  rewrite forallb_forall in Hb. specialize (Hb (lt_level lt)).
  assert (levelTablesLocked e (lt_level lt) = []) as E.
  { destruct (levelTablesLocked e (lt_level lt)) eqn:E; [done|]. discriminate Hb.
    apply list_elem_of_In, elem_of_seqZ. lia. }
  unfold levelTablesLocked in E. apply fmap_nil_inv in E.
  assert (lt ∈ filter (fun lt' => lt_level lt' = lt_level lt) (e_tables e)) as Hf by by apply list_elem_of_filter.
  rewrite E in Hf. inversion Hf.
Qed.

Lemma layered_pairs c e w p q :
  inv c e w -> layered c e -> p ∈ tables_of c e -> q ∈ tables_of c e -> (lt_level q.1 < lt_level p.1)%Z -> older p.2 q.2.
Proof.
  intros Hi HL Hp Hq Hlt. apply list_elem_of_lookup in Hp as [i Hp]. apply list_elem_of_lookup in Hq as [j Hq].
  destruct p as [a l1], q as [b l2]. unfold tables_of in Hp, Hq. apply lookup_zip_Some in Hp as [Hp1 Hp2], Hq as [Hq1 Hq2].
  eapply (lay_levels _ _ HL); [exact Hp1|exact Hq1|exact Hp2|exact Hq2|done].
Qed.

Lemma tables_of_content c e p : p ∈ tables_of c e -> p.2 ∈ c_tables c.
Proof.
  destruct p as [a l]. intros Hp. apply list_elem_of_lookup in Hp as [i Hp]. unfold tables_of in Hp.
  apply lookup_zip_Some in Hp as [_ Hp]. by eapply list_elem_of_lookup_2.
Qed.

(** The levels a pass chooses from are a selection. *)
Lemma tids_inputs l c e w p : inv c e w -> p ∈ tables_of c e ->
  lt_table p.1 ∈ tids (inputs_of l c e) <-> lt_level p.1 = l \/ lt_level p.1 = (l + 1)%Z.
Proof.
  intros Hi Hp. unfold tids. rewrite list_elem_of_fmap. split.
  - intros (q & Et & [Hq Hl]%elem_of_inputs). by rewrite (tables_of_inj c e w p q Hi Hp Hq Et).
  - intros Hl. exists p. split; [done|]. by apply elem_of_inputs.
Qed.

Lemma nodup_input_tids l c e w : inv c e w -> NoDup (tids (inputs_of l c e)).
Proof.
  intros Hi. unfold tids. apply NoDup_fmap_2_strong.
  - intros p q [Hp _]%elem_of_inputs [Hq _]%elem_of_inputs. by apply (tables_of_inj c e w).
  - pose proof (nodup_tables_of c e w Hi) as Hnd. unfold inputs_of. apply NoDup_app. split_and!.
    + eapply sublist_NoDup; [exact Hnd|apply sublist_filter].
    + intros p [H1 _]%list_elem_of_filter [H2 _]%list_elem_of_filter. unfold at_level in *. lia.
    + eapply sublist_NoDup; [exact Hnd|apply sublist_filter].
Qed.

Lemma selection_inputs l c e w : inv c e w -> layered c e -> selection l (inputs_of l c e) c e.
Proof.
  intros Hi HL. split.
  - intros p Hp. by apply elem_of_inputs in Hp as [Hp _].
  - by eapply nodup_input_tids.
  - intros p Hp. by apply elem_of_inputs in Hp as [_ Hp].
  - intros p q [Hp Hlp]%elem_of_inputs [Hq Hn]%elem_of_others Hlq. apply (layered_pairs c e w p q Hi HL Hp Hq).
    rewrite (tids_inputs l c e w q Hi Hq) in Hn. lia.
Qed.

Lemma bottom_inputs l c e w :
  inv c e w -> levels_ok e -> isBottommost e (l + 1) = true -> at_bottom l (inputs_of l c e) c e.
Proof.
  intros Hi Hlv Hb q [Hq Hn]%elem_of_others. destruct (tables_of_ok c e w q Hi Hq) as [Hin _].
  rewrite (tids_inputs l c e w q Hi Hq) in Hn. unfold levels_ok in Hlv. rewrite Forall_forall in Hlv.
  pose proof (bottommost_spec e l Hb q.1 Hin (Hlv _ Hin)). lia.
Qed.

Lemma inputs_older l ps c e w :
  inv c e w -> layered c e -> selection l ps c e -> at_bottom l ps c e -> older (concat ps.*2) (kept_records ps c e).
Proof.
  intros Hi HL Hsel Ho r s Hr Hs Hk. apply elem_of_concat in Hr as (x & Hx & Hr).
  apply list_elem_of_fmap in Hx as (p & -> & Hp).
  pose proof (lay_tables _ _ HL p.2 (tables_of_content _ _ _ (sel_sub _ _ _ _ Hsel _ Hp))) as Ht. apply Forall_cons in Ht as [Hm Him].
  unfold kept_records in Hs. rewrite !elem_of_app, !elem_of_concat in Hs.
  destruct Hs as [Hs|[(x & Hx & Hs)|(x & Hx & Hs)]].
  - by apply (Hm r s).
  - rewrite <- Permutation_rev in Hx. rewrite Forall_forall in Him. by apply (Him x Hx r s).
  - apply list_elem_of_fmap in Hx as (q & -> & Hq). by apply (sel_newer _ _ _ _ Hsel p q Hp Hq (Ho q Hq) r s).
Qed.

Lemma layered_compacted l ps out c e e' w tid :
  inv c e w -> layered c e -> selection l ps c e -> out ⊆ concat ps.*2 ->
  forall outs tabs, (outs = [] /\ tabs = [] \/ outs = [out] /\ tabs = [MkLT (l + 1) tid]) ->
  e_tables e' = (others ps c e).*1 ++ tabs ->
  layered (compacted ps outs c e) e'.
Proof.
  intros Hi HL Hsel Hsub outs tabs Hcase Et.
  assert (forall r, r ∈ out -> exists p, p ∈ ps /\ p ∈ tables_of c e /\ r ∈ p.2 /\ (lt_level p.1 = l \/ lt_level p.1 = (l + 1)%Z)) as Hout.
  { intros r Hr%Hsub. apply elem_of_concat in Hr as (x & Hx & Hr). apply list_elem_of_fmap in Hx as (p & -> & Hp).
    exists p. split_and!; [done|by apply (sel_sub _ _ _ _ Hsel)|done|by apply (sel_levels _ _ _ _ Hsel)]. }
  assert (forall i a l1, e_tables e' !! i = Some a -> ((others ps c e).*2 ++ outs) !! i = Some l1 ->
    (a, l1) ∈ others ps c e \/ lt_level a = (l + 1)%Z /\ l1 = out) as Hat.
  { intros i a l1. rewrite Et. intros Ha H1. apply lookup_app_Some in Ha as [Ha|[Hge Ha]].
    - rewrite lookup_app_l in H1 by (rewrite length_fmap; apply lookup_lt_Some in Ha; by rewrite length_fmap in Ha).
      left. rewrite list_lookup_fmap in Ha. rewrite list_lookup_fmap in H1. destruct (others ps c e !! i) as [p|] eqn:Ep; [|done].
      cbn in Ha, H1. apply (list_elem_of_lookup_2 _ i). destruct p. cbn in *. congruence.
    - right. rewrite lookup_app_r in H1 by (rewrite length_fmap; by rewrite length_fmap in Hge).
      destruct Hcase as [[-> ->]|[-> ->]]; [done|].
      apply list_lookup_singleton_Some in Ha as [_ <-]. by apply list_lookup_singleton_Some in H1 as [_ <-]. }
  split; cbn; [apply HL|apply HL| |].
  - intros x [Hx|Hx]%elem_of_app.
    + apply list_elem_of_fmap in Hx as (p & -> & Hp). apply elem_of_others in Hp as [Hp _].
      by apply (lay_tables _ _ HL), tables_of_content with e.
    + destruct Hcase as [[-> _]|[-> _]]; [inversion Hx|]. apply list_elem_of_singleton in Hx as ->.
      apply Forall_forall. intros y Hy r s Hr. destruct (Hout r Hr) as (p & _ & Hp & Hr' & _).
      pose proof (lay_tables _ _ HL p.2 (tables_of_content _ _ _ Hp)) as Ht. rewrite Forall_forall in Ht. by apply (Ht y Hy r s).
  - intros i j a b l1 l2 Ha Hb H1 H2 Hlt.
    destruct (Hat _ _ _ Ha H1) as [Hp|[Hla ->]], (Hat _ _ _ Hb H2) as [Hq|[Hlb ->]]; [| | |lia].
    + apply elem_of_others in Hp as [Hp _], Hq as [Hq _]. by apply (layered_pairs c e w (a, l1) (b, l2)).
    + intros r s Hr Hs Hk. destruct (Hout s Hs) as (q & _ & Hq & Hs' & Hlq). apply elem_of_others in Hp as [Hp _].
      apply (layered_pairs c e w (a, l1) q Hi HL Hp Hq); [cbn in *; lia|done..].
    + intros r s Hr Hs Hk. destruct (Hout r Hr) as (p & Hp & _ & Hr' & _).
      apply (sel_newer _ _ _ _ Hsel p (b, l2) Hp Hq); [cbn in *; lia|done..].
Qed.

(** ** The state across a compaction *)

Lemma others_sublist ps c e w : inv c e w -> (others ps c e).*1 `sublist_of` e_tables e.
Proof. intros Hi. rewrite <- (tables_of_1 c e w Hi). apply fmap_sublist, sublist_filter. Qed.

Lemma nodup_inputs l ps c e w : inv c e w -> selection l ps c e -> NoDup (version <$> kept_records ps c e ++ concat ps.*2).
Proof. intros Hi Hs. rewrite <- (view_inputs l ps c e w Hi Hs). apply Hi. Qed.

(** The inputs leave the list. *)
Lemma inv_dropped l ps c e w : inv c e w -> selection l ps c e -> inv (compacted ps [] c e) (set_tables (others ps c e).*1 e) w.
Proof.
  intros Hi Hsel. pose proof (others_sublist ps c e w Hi) as Hsub. pose proof (nodup_inputs l ps c e w Hi Hsel) as Hnd.
  pose proof (inv_keys _ _ _ Hi) as Hks. rewrite (view_inputs l ps c e w Hi Hsel) in Hks. apply Forall_app in Hks as [Hks _].
  rewrite fmap_app in Hnd. apply NoDup_app in Hnd as (Hnd & _ & _).
  assert (forall p, p ∈ others ps c e -> table_ok e w p.1 p.2) as Hok.
  { intros p Hp. apply elem_of_others in Hp as [Hp _]. by eapply tables_of_ok. }
  assert (view (compacted ps [] c e) = kept_records ps c e) as Hv by by rewrite view_compacted, app_nil_r.
  destruct Hi; split; try done; rewrite ?Hv; try done.
  - cbn. rewrite app_nil_r. apply (tables_keep e _ w w); [|done|cbn; lia|done|done].
    clear -Hok. induction (others ps c e) as [|p qs IH]; [constructor|]. constructor; [apply Hok; by left|].
    apply IH. intros q Hq. apply Hok. by right.
  - cbn. eapply sublist_NoDup; [done|]. by apply fmap_sublist.
  - cbn. eapply sublist_NoDup; [done|]. by apply fmap_sublist.
Qed.

(** Updates of table objects the engine no longer lists. *)
Lemma inv_retired c e w s w' :
  inv c e w -> (forall tid, tid ∈ lt_table <$> e_tables e -> s !! tid = e_store e !! tid) ->
  (forall tid, t_path <$> s !! tid = t_path <$> e_store e !! tid) ->
  (forall p, Some p ∈ table_path e <$> e_tables e -> w_files w' !! p = w_files w !! p) ->
  inv c (with_store s e) w'.
Proof.
  intros [] Hs Hp Hw. split; try done.
  - by eapply tables_keep_files.
  - cbn. rewrite (list_fmap_ext _ (table_path e)); [done|]. intros i lt _. unfold table_path. cbn. apply Hp.
  - intros tid Hle. cbn in *. specialize (Hp tid). rewrite inv_store in Hp by done. by destruct (s !! tid).
Qed.

(** The object after [Retire]. *)
Definition dropped (t : Table) : Table :=
  set_life t (t_refCount t - 1) true (if (0 <? t_refCount t - 1)%Z then t_released t else true).

Lemma Retire_run t w :
  exists err w', Retire t w = (Ok (dropped t, err), w') /\
    (forall q, q <> t_path t -> w_files w' !! q = w_files w !! q) /\
    (w_faults w = [] -> w_faults w' = [] /\
       (w_files w !! t_path t = None -> w_files w' !! t_path t = None) /\ (t_refCount t = 1%Z -> w_files w' !! t_path t = None)).
Proof.
  unfold Retire, Release, dropped. cbv zeta. cbn [t_refCount set_life]. destruct (Z.ltb_spec 0 (t_refCount t - 1)).
  { eexists _, _. split; [reflexivity|]. split_and!; [done|]. intros ?. split_and!; [done|done|lia]. }
  destruct w as [fs fl]. cbn [t_removeOnZero set_life t_path]. io_unfold.
  destruct fl as [|[n|] [|[n'|] fl]]; simpl; try (destruct (fs !! t_path t) eqn:E); simpl;
    repeat case_match; eexists _, _; (split; [reflexivity|]); simpl;
    (split; [intros q Hq; by rewrite ?lookup_delete_ne|]); intros Hw; try done;
    (split_and!; [done|intros _; by rewrite ?lookup_delete_eq|intros _; by rewrite ?lookup_delete_eq]).
Qed.

(** What retiring the tables [dn] has done: each has lost a reference, no other
    table is touched and no other file, and those of tables that nobody else holds are gone. *)
Definition retired (dn : list nat) (e : Engine) (w : world) (s : gmap nat Table) (w' : world) : Prop :=
  (forall tid, s !! tid = (if decide (tid ∈ dn) then dropped <$> e_store e !! tid else e_store e !! tid)) /\
  (forall tid, t_path <$> s !! tid = t_path <$> e_store e !! tid) /\
  (forall p, (forall tid, tid ∈ dn -> t_path <$> e_store e !! tid <> Some p) -> w_files w' !! p = w_files w !! p) /\
  (w_faults w = [] -> w_faults w' = [] /\ forall tid t, tid ∈ dn -> e_store e !! tid = Some t -> t_refCount t = 1%Z ->
     w_files w' !! t_path t = None).

Lemma wp_retire_all e w tids :
  (forall tid, tid ∈ tids -> is_Some (e_store e !! tid)) -> NoDup tids ->
  wp (efor tids (fun tid => table_call Retire tid;;? eret tt))
    (fun r e' w' => r = inl tt /\ exists s, e' = with_store s e /\ retired tids e w s w') e w.
Proof.
  intros Hin Hnd.
  apply (wp_efor _ (fun dn e' w' => exists s, e' = with_store s e /\ retired dn e w s w')).
  { exists (e_store e). rewrite with_store_id. split; [done|]. split_and!; [done|done|done|].
    intros Hw. split; [done|]. by intros ? ? ?%not_elem_of_nil. }
  intros dn tid rest e' w' El (s & -> & Hs & Hp & Hf & Hfl).
  assert (tid ∉ dn) as Hnew.
  { rewrite El in Hnd. apply NoDup_app in Hnd as (_ & Hnd & _). intros H. apply (Hnd tid H). by left. }
  assert (tid ∈ tids) as Ht by (rewrite El, elem_of_app; right; by left).
  destruct (Hin tid Ht) as [t E0]. assert (s !! tid = Some t) as Et by by rewrite Hs, decide_False.
  cbv beta. wp_step. unfold table_call. wp_step. eapply wp_load_table; [exact Et|]. wp_step. apply wp_lift.
  destruct (Retire_run t w') as (err & w1 & -> & Hw1 & Hfl1). unfold store_table. wp_steps.
  split; [done|]. eexists. split; [by destruct e|]. cbn. split_and!.
  - intros i. destruct (decide (tid = i)) as [<-|Hne].
    + rewrite lookup_insert_eq, decide_True, E0 by (apply elem_of_app; right; by left). done.
    + rewrite lookup_insert_ne by done. rewrite Hs. apply decide_ext. rewrite elem_of_app, list_elem_of_singleton. naive_solver.
  - intros i. destruct (decide (tid = i)) as [<-|Hne].
    + by rewrite lookup_insert_eq, E0.
    + by rewrite lookup_insert_ne.
  - intros p Hp'. rewrite Hw1; [apply Hf; intros i Hi; apply Hp'; apply elem_of_app; by left|].
    intros ->. apply (Hp' tid); [apply elem_of_app; right; by left|]. by rewrite E0.
  - intros Hw. destruct (Hfl Hw) as [Hw' Hgone]. destruct (Hfl1 Hw') as (Hw2 & Hnone & Hone). split; [done|].
    intros i t0 [Hi|Hi]%elem_of_app Ei Hr.
    + specialize (Hgone i t0 Hi Ei Hr). destruct (decide (t_path t0 = t_path t)) as [E|Hne]; [rewrite E in *; by apply Hnone|by rewrite Hw1].
    + apply list_elem_of_singleton in Hi as ->. rewrite E0 in Ei. injection Ei as <-. by apply Hone.
Qed.

(** ** One pass *)

(** The merged tables, whichever level is chosen, can be written. *)
Definition mergeable (c : contents) (e : Engine) : Prop :=
  forall l bottom, let out := merge_spec (minActiveSnapshotSeq e) bottom (inputs_of l c e).*2 in
    out <> [] -> flushable (o_compress (e_opts e)) out.

(** What readers at or above [mk] see is the same. *)
Definition same_live (mk : N) (c c' : contents) : Prop :=
  forall key m, (mk <= m)%N -> live (newest key m (view c')) = live (newest key m (view c)).

Lemma same_live_compacted l ps c e w mk bottom out :
  inv c e w -> layered c e -> selection l ps c e -> (bottom = true -> at_bottom l ps c e) ->
  replaces mk bottom (concat out) (concat ps.*2) -> same_live mk c (compacted ps out c e).
Proof.
  intros Hi HL Hsel Hb (_ & Hsub & Hr & _) key m Hm. rewrite view_compacted.
  rewrite (newest_perm key m (view c) (kept_records ps c e ++ concat ps.*2)).
  3: by eapply view_inputs. 2: by eapply disjoint_unique, nodup_inputs.
  destruct (Hr key m Hm) as [Hlive Hex]. apply live_over; [done|done|]. destruct bottom; [right|left; by apply Hex].
  eapply inputs_older; [done|done|done|by apply Hb].
Qed.

Lemma input_tids l c e w :
  inv c e w -> levelTablesLocked e l ++ levelTablesLocked e (l + 1) = tids (inputs_of l c e).
Proof. intros Hi. unfold tids, inputs_of. by rewrite fmap_app, !(levelTables_of c e w). Qed.

Lemma remaining_eq ps c e w plan :
  inv c e w -> p_inputs plan = tids ps ->
  filter (fun lt => lt_table lt ∉ p_inputs plan) (e_tables e) = (others ps c e).*1.
Proof.
  intros Hi Hp. rewrite (filter_zip _ (e_tables e) (c_tables c)) by by apply (inv_length c e w).
  f_equal. apply list_filter_iff. intros p. by rewrite Hp.
Qed.

(** The table objects of the inputs. *)
Lemma omap_inputs e w ps :
  (forall p, p ∈ ps -> table_ok e w p.1 p.2) ->
  let ts := omap (fun tid => e_store e !! tid) ((fun p : leveledTable * list Record => lt_table p.1) <$> ps) in
  Forall2 (on_disk (w_files w)) ts ps.*2 /\ length (concat ps.*2) < merge_fuel ts /\ (ps <> [] -> ts <> []).
Proof.
  intros Hok. cbv zeta. induction ps as [|p ps IH]; [cbn; split_and!; [apply Forall2_nil_2|unfold merge_fuel; cbn; lia|done]|].
  destruct IH as (H1 & H2 & _); [intros q Hq; apply Hok; by right|].
  destruct (Hok p ltac:(by left)) as [_ _ _ (t & g & Et & Hh & Hd%intact_on_disk & _)].
  cbn. rewrite Et. unfold merge_fuel in *. cbn in *. rewrite length_app, (index_length t p.2 Hh). split_and!; [by constructor|lia|done].
Qed.

(** What a merge of [ps] leaves for the commit. *)
Definition merged (l : Z) (mk : N) (bottom : bool) (ps : list (leveledTable * list Record)) (path : string)
    (mr : unit + error) (e : Engine) (w : world) : Prop :=
  let out := merge_spec mk bottom ps.*2 in
  match mr with
  | inl _ => replaces mk bottom out (concat ps.*2) /\ out <> [] /\ exists f, claimed (l + 1) path out f e w
  | inr err => errors_Is err ErrEmptyMerge = true -> replaces mk bottom out (concat ps.*2) /\ out = []
  end.

(** A merge that failed, not one without output. *)
Definition merge_failed (mr : unit + error) : Prop := exists err, mr = inr err /\ errors_Is err ErrEmptyMerge = false.

Lemma wp_compact_merge l ps c e w plan bottom :
  inv c e w -> selection l ps c e -> (let out := merge_spec (minActiveSnapshotSeq e) bottom ps.*2 in out <> [] -> flushable (o_compress (e_opts e)) out) ->
  (0 <= l)%Z -> (l + 1 < 2 ^ 62)%Z -> (e_genCounter e < max_u64)%N ->
  p_targetLevel plan = (l + 1)%Z -> p_inputs plan = tids ps -> ps <> [] ->
  wp (compact_merge plan bottom) (fun r e' w' => e' = set_gen (e_genCounter e + 1) e /\
    (forall q, q <> next_path (l + 1) e -> q <> tmp_of (next_path (l + 1) e) -> w_files w' !! q = w_files w !! q) /\
    exists mr, r = inl (next_path (l + 1) e, mr) /\ merged l (minActiveSnapshotSeq e) bottom ps (next_path (l + 1) e) mr e' w' /\
      (mr = inl tt \/ w_files w' !! next_path (l + 1) e = w_files w !! next_path (l + 1) e) /\
      (w_faults w = [] -> w_faults w' = [] /\ ~ merge_failed mr)) e w.
Proof.
  intros Hi Hsel Hmg Hl0 Hl Hg Ht Hp Hne. set (path := next_path (l + 1) e). set (mk := minActiveSnapshotSeq e).
  set (out := merge_spec mk bottom ps.*2). unfold compact_merge. wp_step. wp_step. cbv zeta. do 2 wp_step.
  rewrite u64_small by (unfold max_u64 in Hg; lia). cbv zeta. do 2 wp_step. apply wp_lift. rewrite Ht, Hp.
  change (sstFileName (e_dir (set_gen (e_genCounter e + 1) e)) (l + 1) (e_genCounter e + 1)) with path.
  destruct (omap_inputs e w ps) as (H1 & H2 & H3).
  { intros p Hin. by eapply tables_of_ok, (sel_sub _ _ _ _ Hsel). }
  assert (disjoint_versions ps.*2) as Hd.
  { pose proof (nodup_inputs l ps c e w Hi Hsel) as Hnd. rewrite fmap_app in Hnd. by apply NoDup_app in Hnd as (_ & _ & Hnd). }
  unfold tids in *. set (ts := omap _ _) in *. fold mk.
  pose proof (Merge_outcome (merge_fuel ts) ts ps.*2 path mk bottom (o_compress (e_opts e)) w (H3 Hne) H1 Hd H2 Hmg) as HM.
  cbv zeta in HM. fold out in HM.
  pose proof (fun r w' => Merge_frame (merge_fuel ts) ts ps.*2 path mk bottom (o_compress (e_opts e)) w r w' (H3 Hne) H1 H2) as HF.
  destruct (Merge.Merge _ _ _ _ _ _ w) as [[[]|err|] w1]; [| |done]; specialize (HF _ _ eq_refl) as [HF HFe]; wp_step;
    (split; [done|]); (split; [exact HF|]).
  - destruct HM as (Hrep & Hno & (f & Hf & Hfit & Hfile) & Hfl). exists (inl tt). split_and!; [done| |by left|].
    + split_and!; [exact Hrep|exact Hno|]. exists f. apply (claimed_next c e w); try done. lia.
    + intros Hw. split; [by apply Hfl|]. by intros (? & [=] & _).
  - exists (inr err). split; [done|]. destruct (errors_Is err ErrEmptyMerge) eqn:Ee.
    + destruct HM as (Hrep & Ho & Hfl). split_and!; [done|right; by apply HFe|]. intros Hw. split; [by apply Hfl|].
      intros (? & [= <-] & ?). congruence.
    + split_and!; [unfold merged; by rewrite Ee|right; by apply HFe|]. intros Hw. by destruct HM.
Qed.

(** The versions that are left when the tables with the records [ins] were merged. *)
Definition reclaimed (mk : N) (bottom : bool) (ins : list Record) (c c' : contents) : Prop :=
  forall r, r ∈ view c' <-> r ∈ view c /\ r ∉ ins \/ retained mk bottom ins r.

Lemma reclaimed_compacted l ps out c e w mk bottom :
  inv c e w -> selection l ps c e -> replaces mk bottom (concat out) (concat ps.*2) ->
  reclaimed mk bottom (concat ps.*2) c (compacted ps out c e).
Proof.
  intros Hi Hsel (_ & _ & _ & Ho) r. rewrite view_compacted, elem_of_app, Ho. f_equiv.
  pose proof (nodup_inputs l ps c e w Hi Hsel) as Hnd. rewrite fmap_app in Hnd. apply NoDup_app in Hnd as (_ & Hnd & _).
  rewrite (view_inputs l ps c e w Hi Hsel), elem_of_app. split; [|tauto]. intros Hk. split; [by left|].
  intros Hin. by apply (Hnd (version r)); apply list_elem_of_fmap_2.
Qed.

(** The list of tables after a pass with the plan: at most one table at the target
    level comes for the inputs. *)
Definition relisted_tables (plan : compactionPlan) (l l' : list leveledTable) : Prop :=
  exists new, l' = filter (fun lt => lt_table lt ∉ p_inputs plan) l ++ new /\ length new <= 1 /\
    Forall (fun lt => lt_level lt = p_targetLevel plan) new.

(** The outcome of a pass for readers at or above [mk]. *)
Definition pass_post (mk : N) (G : contents -> list leveledTable -> Prop) (c : contents) (e' : Engine) (w' : world) : Prop :=
  exists c', inv c' e' w' /\ same_live mk c c' /\ layered c' e' /\ levels_ok e' /\
    c_mem c' = c_mem c /\ c_imm c' = c_imm c /\ G c' (e_tables e').

Lemma levels_others ps c e w : inv c e w -> levels_ok e -> Forall (fun lt => lt_level lt < o_maxLevels (e_opts e))%Z (others ps c e).*1.
Proof. intros Hi Hl. eapply Forall_sublist; [by eapply others_sublist|done]. Qed.

(** *** The commit *)

(** The table list with the output, if there is any, in place of the inputs. *)
Definition replaced (l : Z) (ps : list (leveledTable * list Record)) (t : option Table) (c : contents) (e : Engine) : Engine :=
  match t with
  | Some t => attach (l + 1) t (set_tables (others ps c e).*1 e)
  | None => set_tables (others ps c e).*1 e
  end.

Lemma elem_of_replaced l ps t c e lt :
  lt ∈ e_tables (replaced l ps t c e) <-> lt ∈ (others ps c e).*1 \/ is_Some t /\ lt = MkLT (l + 1) (e_nextTable e).
Proof.
  destruct t as [t|]; cbn; [rewrite elem_of_app, list_elem_of_singleton|]; [naive_solver|].
  split; [auto|]. by intros [|[[? [=]] _]].
Qed.

Lemma replaced_store l ps t c e tid : tid < e_nextTable e -> e_store (replaced l ps t c e) !! tid = e_store e !! tid.
Proof. intros Ht. destruct t; cbn; [|done]. by rewrite lookup_insert_ne by lia. Qed.

Lemma elem_of_other_tids ps c e w lt :
  inv c e w -> lt ∈ (others ps c e).*1 -> lt ∈ e_tables e /\ (lt_table lt ∉ tids ps) /\ lt_table lt < e_nextTable e.
Proof.
  intros Hi (p & -> & [Hp Hn]%elem_of_others)%list_elem_of_fmap. destruct (tables_of_ok _ _ _ _ Hi Hp) as [H _].
  split_and!; [done|done|]. eapply inv_fresh_tid; [done|]. by apply list_elem_of_fmap_2.
Qed.

Lemma elem_of_selected l ps c e w tid :
  inv c e w -> selection l ps c e -> tid ∈ tids ps -> exists lt, lt ∈ e_tables e /\ tid = lt_table lt /\ tid < e_nextTable e.
Proof.
  intros Hi Hsel (p & -> & Hp%(sel_sub _ _ _ _ Hsel))%list_elem_of_fmap. destruct (tables_of_ok _ _ _ _ Hi Hp) as [H _].
  exists p.1. split_and!; [done|done|]. eapply inv_fresh_tid; [done|]. by apply list_elem_of_fmap_2.
Qed.

(** Dropping the inputs' objects after the commit changes nothing. *)
Lemma wp_retire_inputs l ps t c e w c' w1 :
  inv c e w -> selection l ps c e -> inv c' (replaced l ps t c e) w1 ->
  (forall t0, t = Some t0 -> Some (t_path t0) ∉ table_path e <$> e_tables e) ->
  wp (efor (tids ps) (fun tid => table_call Retire tid;;? eret tt))
    (fun r e2 w2 => r = inl tt /\ inv c' e2 w2 /\ exists s, e2 = with_store s (replaced l ps t c e) /\
       retired (tids ps) (replaced l ps t c e) w1 s w2) (replaced l ps t c e) w1.
Proof.
  intros Hi Hsel Hi' Hnew. pose proof (fun tid => elem_of_selected l ps c e w tid Hi Hsel) as Hin.
  eapply wp_mono.
  { apply wp_retire_all; [|apply Hsel]. intros tid (lt & H1 & -> & H2)%Hin. rewrite replaced_store by done.
    apply list_elem_of_lookup in H1 as [i H1].
    destruct (Forall2_lookup_l _ _ _ _ _ (inv_tables _ _ _ Hi) H1) as (rs & _ & Hok).
    by destruct (tok_table _ _ _ _ Hok) as (t1 & g & Et & _). }
  intros r e2 w2 (-> & s & -> & Hret). pose proof Hret as (Hs & Hp & Hf & _). split_and!; [done| |by exists s].
  apply (inv_retired c' _ w1); [done| |done|].
  - intros tid (lt & -> & Hlt)%list_elem_of_fmap. rewrite Hs. apply decide_False.
    apply elem_of_replaced in Hlt as [Hlt|[_ ->]]; [by destruct (elem_of_other_tids ps c e w lt Hi Hlt) as (_ & ? & _)|].
    cbn. intros (lt' & _ & _ & Hlt')%Hin. lia.
  - intros p (lt & Ep & Hlt)%list_elem_of_fmap. apply Hf. intros tid Hps Epath.
    destruct (Hin tid Hps) as (lt' & H1 & -> & Hlt'). rewrite replaced_store in Epath by done.
    apply elem_of_replaced in Hlt as [Hlt|[[t0 ->] ->]].
    + destruct (elem_of_other_tids ps c e w lt Hi Hlt) as (H3 & H4 & H5). unfold table_path in Ep. rewrite replaced_store in Ep by done.
      rewrite (path_inj c e w lt lt' p Hi H3 H1 (eq_sym Ep) Epath) in H4. done.
    + apply (Hnew t0 eq_refl). unfold table_path in Ep. cbn in Ep. rewrite lookup_insert_eq in Ep. cbn in Ep.
      rewrite <- Ep, <- Epath. by apply (list_elem_of_fmap_2 (table_path e)).
Qed.

(** What a commit does: the list is replaced, then the inputs are given up. *)
Definition committed (l : Z) (ps : list (leveledTable * list Record)) (t : option Table) (c : contents)
    (e : Engine) (w : world) (e' : Engine) (w' : world) : Prop :=
  exists b s w2, e' = set_compactCh b (with_store s (replaced l ps t c e)) /\ w_files w2 = w_files w /\
    (w_faults w = [] -> w_faults w2 = []) /\ retired (tids ps) (replaced l ps t c e) w2 s w'.

Lemma committed_files l ps t c e w e' w' p :
  inv c e w -> selection l ps c e -> committed l ps t c e w e' w' -> Some p ∉ table_path e <$> e_tables e ->
  w_files w' !! p = w_files w !! p.
Proof.
  intros Hi Hsel (b & s & w2 & -> & <- & _ & (_ & _ & Hf & _)) Hp. apply Hf. intros tid Hps E.
  destruct (elem_of_selected l ps c e w tid Hi Hsel Hps) as (lt & H1 & -> & H2). rewrite replaced_store in E by done.
  apply Hp. rewrite <- E. by apply (list_elem_of_fmap_2 (table_path e)).
Qed.

Lemma committed_paths l ps t c e w e' w' p :
  inv c e w -> committed l ps t c e w e' w' -> Some p ∈ table_path e' <$> e_tables e' ->
  Some p ∈ table_path e <$> e_tables e \/ exists t0, t = Some t0 /\ p = t_path t0.
Proof.
  intros Hi (b & s & w2 & -> & _ & _ & (_ & Hs & _)) (lt & Ep & Hlt)%list_elem_of_fmap. unfold table_path in Ep. cbn in Ep.
  rewrite Hs in Ep. change (lt ∈ e_tables (replaced l ps t c e)) in Hlt. apply elem_of_replaced in Hlt as [Hlt|[[t0 ->] ->]].
  - left. destruct (elem_of_other_tids ps c e w lt Hi Hlt) as (H1 & _ & H2). rewrite replaced_store in Ep by done.
    rewrite Ep. by apply (list_elem_of_fmap_2 (table_path e)).
  - right. exists t0. split; [done|]. cbn in Ep. rewrite lookup_insert_eq in Ep. by injection Ep.
Qed.

(** The merged table takes the place of the inputs. *)
Lemma inv_compacted l ps c e w mk bottom out path f :
  inv c e w -> selection l ps c e -> (0 <= l < 2 ^ 62)%Z ->
  replaces mk bottom out (concat ps.*2) -> out <> [] -> claimed (l + 1) path out f e w ->
  inv (compacted ps [out] c e) (replaced l ps (Some (table_of path (o_compress (e_opts e)) out f)) c e) w.
Proof.
  intros Hi Hsel Hl Hrep Hne [(g & Hp & Hg) Hn Hf Hfit Hfile].
  replace (compacted ps [out] c e) with (add_table out (compacted ps [] c e)).
  2: { unfold add_table, compacted. cbn. by rewrite app_nil_r. }
  pose proof (nodup_inputs l ps c e w Hi Hsel) as Hnd. pose proof (inv_keys _ _ _ Hi) as Hks.
  rewrite (view_inputs l ps c e w Hi Hsel) in Hks. apply Forall_app in Hks as [_ Hks].
  eapply (inv_attach _ _ w (l + 1) g path _ out f _ (inv_dropped l ps c e w Hi Hsel)); try done.
  - lia.
  - intros Hin. apply Hn. eapply elem_of_sublist; [exact Hin|]. apply fmap_sublist. by eapply others_sublist.
  - apply Hrep.
  - apply Forall_forall. intros r Hr. rewrite Forall_forall in Hks. by apply Hks, Hrep.
  - rewrite view_compacted. cbn. rewrite app_nil_r. rewrite fmap_app in Hnd |- *.
    apply NoDup_app in Hnd as (Hn1 & Hn2 & Hn3). apply NoDup_app. split_and!; [done| |].
    + intros v Hv (r & -> & Hr)%list_elem_of_fmap. apply (Hn2 _ Hv), list_elem_of_fmap_2. by apply Hrep.
    + destruct Hrep as [Hs _]. clear -Hs. apply NoDup_fmap_2_strong.
      * intros r s Hr Hs' [= Hk Hq]. by apply (sorted_unique out Hs).
      * induction Hs as [|r o Ho IH Hr]; [constructor|]. constructor; [|done]. intros Hin.
        rewrite Forall_forall in Hr. by apply (irreflexivity rec_lt r), Hr.
Qed.

Lemma wp_compact_commit l ps c e w plan path mk bottom mr :
  inv c e w -> layered c e -> levels_ok e -> selection l ps c e -> (bottom = true -> at_bottom l ps c e) ->
  (0 <= l)%Z -> (l + 1 < o_maxLevels (e_opts e))%Z -> (l + 1 < 2 ^ 62)%Z ->
  p_targetLevel plan = (l + 1)%Z -> p_inputs plan = tids ps -> merged l mk bottom ps path mr e w ->
  wp (compact_commit plan path mr) (fun r e' w' => steady e e' /\ e_flushCh e' = e_flushCh e /\ e_imm e' = e_imm e /\
    (r = inl tt /\ pass_post mk (fun c' l' => reclaimed mk bottom (concat ps.*2) c c' /\ relisted_tables plan (e_tables e) l') c e' w' /\ (exists t, (t = None \/ mr = inl tt /\ exists t0, t = Some t0 /\ t_path t0 = path /\ t_refCount t0 = 1%Z /\
         t_released t0 = false /\ t_removeOnZero t0 = false) /\
       (is_Some t <-> mr = inl tt) /\ committed l ps t c e w e' w') \/
     (exists err, r = inr err) /\ (merge_failed mr \/ w_faults w <> []))) e w.
Proof.
  intros Hi HL Hlv Hsel Hb Hl0 Hlm Hl Ht Hp Hmr. set (out := merge_spec mk bottom ps.*2) in *.
  unfold compact_commit. do 2 wp_step. rewrite (remaining_eq ps c e w plan Hi Hp). cbv zeta. do 3 wp_step.
  destruct mr as [[]|err].
  - destruct Hmr as (Hrep & Hne & f & Hcl). do 2 wp_step. apply wp_lift.
    pose proof (Open_run path _ out f _ w HFL Hne (proj1 Hrep) (cl_fits _ _ _ _ _ _ Hcl) (cl_filter _ _ _ _ _ _ Hcl) (cl_file _ _ _ _ _ _ Hcl)) as HO.
    destruct (Table.Open path w) as [[t|e2|] w2]; [| |done].
    2: { split_and!; try done. right. split; [by eexists|]. right. by destruct HO. }
    destruct HO as (-> & HO & Hfl2). do 3 wp_step. rewrite Hp, Ht. wp_step. set (t := table_of path _ out f).
    pose proof (inv_compacted l ps c e w mk bottom out path f Hi Hsel ltac:(lia) Hrep Hne Hcl) as Hnew. fold t in Hnew.
    eapply wp_mono.
    { apply (wp_retire_inputs l ps (Some t) c e w (compacted ps [out] c e) w2 Hi Hsel).
      - eapply inv_world; [exact Hnew|by apply same_known_eq].
      - intros t0 [= <-]. apply Hcl. }
    intros r e2 w3 (-> & Hi2 & s & -> & Hret). apply wp_maybeTrigger. intros b. split_and!; try done.
    left. split; [done|]. split.
    + exists (compacted ps [out] c e). split_and!; [by eapply inv_irrelevant| | | |done|done| |].
      * eapply same_live_compacted; try done. cbn. by rewrite app_nil_r.
      * eapply (layered_compacted l ps out c e _ w (e_nextTable e) Hi HL Hsel); [apply Hrep|by right|done].
      * unfold levels_ok. cbn. apply Forall_app. split; [by eapply levels_others|]. by repeat constructor.
      * apply (reclaimed_compacted l _ _ _ _ w); [done|done|]. cbn. by rewrite app_nil_r.
      * exists [MkLT (l + 1) (e_nextTable e)]. cbn. rewrite (remaining_eq ps c e w plan Hi Hp). split_and!; [done|lia|by repeat constructor].
    + exists (Some t). split_and!; [right; split; [done|]; by exists t|done|]. by exists b, s, w2.
  - destruct (errors_Is err ErrEmptyMerge) eqn:Ee; [|wp_step; split_and!; try done; right; split; [by eexists|left; by exists err]].
    destruct (Hmr Ee) as (Hrep & Hout). wp_step. rewrite Hp. wp_step.
    eapply wp_mono.
    { apply (wp_retire_inputs l ps None c e w (compacted ps [] c e) w Hi Hsel); [by eapply inv_dropped|done]. }
    intros r e2 w3 (-> & Hi2 & s & -> & Hret). apply wp_maybeTrigger. intros b. split_and!; try done.
    left. split; [done|]. split.
    + exists (compacted ps [] c e). split_and!; [by eapply inv_irrelevant| | | |done|done| |].
      * eapply same_live_compacted; try done. unfold out in Hout. rewrite Hout in Hrep. exact Hrep.
      * eapply (layered_compacted l ps [] c e _ w 0 Hi HL Hsel); [by intros ? ?%not_elem_of_nil|by left|cbn; by rewrite app_nil_r].
      * unfold levels_ok. cbn. by eapply levels_others.
      * apply (reclaimed_compacted l _ _ _ _ w); [done|done|]. unfold out in Hout. by rewrite Hout in Hrep.
      * exists []. cbn. rewrite (remaining_eq ps c e w plan Hi Hp), app_nil_r. split_and!; [done|lia|constructor].
    + exists None. split_and!; [by left|by split; [intros [? [=]]|]|]. by exists b, s, w.
Qed.

(** *** The files after the commit *)

Lemma tables_of_lookup c e w lt : inv c e w -> lt ∈ e_tables e -> exists rs, (lt, rs) ∈ tables_of c e.
Proof.
  intros Hi Hlt. rewrite <- (tables_of_1 c e w Hi) in Hlt. apply list_elem_of_fmap in Hlt as ([lt' rs] & -> & Hp). by exists rs.
Qed.

Section files.
Context (l : Z) (ps : list (leveledTable * list Record)) (c : contents) (e : Engine) (w : world).
Context (Hi : inv c e w) (Hsel : selection l ps c e).

Definition input_tables : list leveledTable := ps.*1.
Definition input_paths : list string := omap (table_path e) input_tables.

Lemma elem_of_input_tables lt : lt ∈ input_tables <-> lt ∈ e_tables e /\ lt_table lt ∈ tids ps.
Proof.
  unfold input_tables. split.
  - intros (p & -> & Hp)%list_elem_of_fmap. split; [|by apply elem_of_tids].
    apply (sel_sub _ _ _ _ Hsel) in Hp. by destruct (tables_of_ok _ _ _ _ Hi Hp).
  - intros [Hlt (p & Et & Hp)%list_elem_of_fmap]. apply list_elem_of_fmap. exists p. split; [|done].
    destruct (tables_of_ok _ _ _ _ Hi (sel_sub _ _ _ _ Hsel _ Hp)) as [H2 _]. exact (tid_inj c e w lt p.1 Hi Hlt H2 Et).
Qed.

Lemma elem_of_other_tables lt : lt ∈ (others ps c e).*1 <-> lt ∈ e_tables e /\ lt ∉ input_tables.
Proof.
  split.
  - intros H. destruct (elem_of_other_tids ps c e w lt Hi H) as (H1 & H2 & _). split; [done|]. by intros [_ ?]%elem_of_input_tables.
  - intros [Hlt Hn]. destruct (tables_of_lookup c e w lt Hi Hlt) as [rs Hp]. apply list_elem_of_fmap. exists (lt, rs).
    split; [done|]. apply elem_of_others. split; [done|]. intros H. by apply Hn, elem_of_input_tables.
Qed.

Lemma elem_of_input_paths p : p ∈ input_paths <-> exists lt, lt ∈ input_tables /\ table_path e lt = Some p.
Proof. unfold input_paths. by rewrite list_elem_of_omap. Qed.

(** The merge has written its table, or nothing, and the commit followed. *)
Lemma durable_compacted t w1 e' w' :
  durable e w -> (e_genCounter e < max_u64)%N -> (0 <= l < 2 ^ 62)%Z ->
  (forall q, q <> next_path (l + 1) e -> q <> tmp_of (next_path (l + 1) e) -> w_files w1 !! q = w_files w !! q) ->
  (forall t0, t = Some t0 -> t_path t0 = next_path (l + 1) e /\ t_refCount t0 = 1%Z /\ synced_at w1 (next_path (l + 1) e)) ->
  (t = None -> w_files w1 !! next_path (l + 1) e = w_files w !! next_path (l + 1) e) ->
  committed l ps t c (set_gen (e_genCounter e + 1) e) w1 e' w' -> w_faults w1 = [] ->
  steady e e' -> e_imm e' = e_imm e -> durable e' w'.
Proof.
  intros Hd Hg Hl Hframe Hout Hnone Hcom Hw1 Hst Him. set (e1 := set_gen (e_genCounter e + 1) e) in *.
  destruct Hcom as (b & s & w2 & -> & Ew & Hw2 & (Hs & Hps & Hf & Hgone)). destruct (Hgone (Hw2 Hw1)) as [_ Hgone'].
  assert (forall tid, tid ∈ tids ps -> exists lt, lt ∈ e_tables e /\ lt ∈ input_tables /\ tid = lt_table lt /\ tid < e_nextTable e) as Hit.
  { intros tid Ht. destruct (elem_of_selected l ps c e w tid Hi Hsel Ht) as (lt & H1 & -> & H2). exists lt.
    split_and!; [done|by apply elem_of_input_tables|done|done]. }
  assert (forall tid, tid < e_nextTable e -> e_store (replaced l ps t c e1) !! tid = e_store e !! tid) as Hold.
  { intros tid Ht. by rewrite replaced_store. }
  assert (forall p, p ∉ input_paths -> w_files w' !! p = w_files w1 !! p) as Hkeep.
  { intros p Hp. rewrite <- Ew. apply Hf. intros tid (lt & H1 & H2 & -> & H3)%Hit E. rewrite Hold in E by done.
    apply Hp, elem_of_input_paths. by exists lt. }
  assert (next_path (l + 1) e ∉ input_paths) as Hnp.
  { intros (lt & H1 & H2)%elem_of_input_paths. apply elem_of_input_tables in H1 as [H1 _].
    by destruct (known_fresh e (l + 1) _ ltac:(lia) Hg (listed_known _ _ _ _ _ Hi H1 H2)). }
  apply (durable_moved c e _ w w' (l + 1) (if t is Some _ then true else false) input_tables input_paths []); try done; [lia| |].
  - split; [| | | | | |by destruct t].
    + intros lt. change (lt ∈ e_tables (replaced l ps t c e1) <-> lt ∈ e_tables e /\ lt ∉ input_tables \/
        (if t is Some _ then true else false) = true /\ lt = MkLT (l + 1) (e_nextTable e)).
      rewrite elem_of_replaced, <- elem_of_other_tables. change (others ps c e1) with (others ps c e).
      destruct t; cbn; [|naive_solver]. split; [intros [|[_ ?]]; auto|intros [|[_ ?]]; [auto|right; by split; [eexists|]]].
    + intros lt H1 H2. cbn. pose proof (inv_fresh_tid c e w (lt_table lt) Hi (list_elem_of_fmap_2 _ _ _ H1)) as H3.
      rewrite Hs, decide_False, Hold; [done|done|]. intros Hin. apply H2, elem_of_input_tables. done.
    + intros Ht. destruct t as [t|]; [|done]. destruct (Hout t eq_refl) as (Ep & Hr & f & Hsf & Hsy). exists t. split_and!; [|done|done|].
      * cbn. rewrite Hs, decide_False; [apply lookup_insert_eq|]. intros (lt & _ & _ & _ & H3)%Hit. lia.
      * exists f. by rewrite Hkeep.
    + intros Ht. destruct t; [done|]. rewrite Hkeep by done. by apply Hnone.
    + intros p (lt & H1 & H2)%elem_of_input_paths. apply elem_of_input_tables in H1 as [H1 H3].
      pose proof (inv_fresh_tid c e w (lt_table lt) Hi (list_elem_of_fmap_2 _ _ _ H1)) as H4.
      destruct (du_tables _ _ _ (proj2 Hd) lt H1) as (t1 & g & Et & Hr & _). unfold table_path in H2. rewrite Et in H2. injection H2 as <-.
      apply (Hgone' (lt_table lt)); [done|by rewrite Hold|done].
    + intros p N1 N2 N3. rewrite Hkeep by done. by apply Hframe.
  - intros p. rewrite elem_of_input_paths. split.
    + intros (lt & H1 & H2). right. exists lt. pose proof H1 as [H3 _]%elem_of_input_tables. done.
    + intros [H|(lt & H1 & _ & H3)]; [by apply not_elem_of_nil in H|by exists lt].
Qed.
End files.

(** The records of the tables a plan names. *)
Definition plan_records (plan : compactionPlan) (c : contents) (e : Engine) : list Record :=
  concat (filter (fun p => lt_table p.1 ∈ p_inputs plan) (tables_of c e)).*2.

Definition plan_bottom (plan : compactionPlan) (e : Engine) : bool := isBottommost e (p_targetLevel plan).

(** What a pass leaves of the store. *)
Definition pass_leaves (c : contents) (e : Engine) (c' : contents) (l' : list leveledTable) : Prop :=
  match pickCompactionLocked e with
  | None => c' = c /\ l' = e_tables e
  | Some plan => reclaimed (minActiveSnapshotSeq e) (plan_bottom plan e) (plan_records plan c e) c c' /\
      relisted_tables plan (e_tables e) l'
  end.

Lemma plan_records_perm l ps c e w plan :
  inv c e w -> selection l ps c e -> p_inputs plan = tids ps -> plan_records plan c e ≡ₚ concat ps.*2.
Proof.
  intros Hi Hsel Hp. unfold plan_records. do 2 f_equiv. rewrite Hp. apply NoDup_Permutation.
  - apply NoDup_filter. by eapply nodup_tables_of.
  - eapply NoDup_fmap_1, (sel_nodup _ _ _ _ Hsel).
  - intros p. rewrite list_elem_of_filter. split.
    + intros [(q & Et & Hq)%list_elem_of_fmap Hin]. by rewrite (tables_of_inj c e w p q Hi Hin (sel_sub _ _ _ _ Hsel _ Hq) Et).
    + intros Hin. split; [by apply elem_of_tids|by apply (sel_sub _ _ _ _ Hsel)].
Qed.

Lemma reclaimed_perm mk bottom ins ins' c c' : ins ≡ₚ ins' -> reclaimed mk bottom ins c c' -> reclaimed mk bottom ins' c c'.
Proof. intros Hp H r. rewrite (H r), (retained_perm mk bottom ins ins' r Hp). by rewrite Hp. Qed.

Lemma pass_leaves_sub c e w c' l' : inv c e w -> pass_leaves c e c' l' -> view c' ⊆ view c.
Proof.
  intros Hi. unfold pass_leaves. destruct (pickCompactionLocked e) as [plan|]; [|by intros [-> _]].
  intros [H _] r [[? _]|[Hr _]]%H; [done|]. unfold plan_records in Hr. apply elem_of_view. right; right.
  apply elem_of_concat in Hr as (rs & (p & -> & [_ Hp]%list_elem_of_filter)%list_elem_of_fmap & Hr). exists p.2. split; [|done].
  rewrite <- (tables_of_2 c e w Hi). by apply list_elem_of_fmap_2.
Qed.

Lemma wp_runCompaction c e w :
  inv c e w -> layered c e -> levels_ok e -> config_ok (e_opts e) -> mergeable c e -> (e_genCounter e < max_u64)%N ->
  wp runCompaction (fun r e' w' => steady e e' /\ e_flushCh e' = e_flushCh e /\ e_imm e' = e_imm e /\
    (w_faults w = [] -> durable e w -> durable e' w') /\
    (r = inl tt /\ pass_post (minActiveSnapshotSeq e) (pass_leaves c e) c e' w' \/ (exists err, r = inr err) /\ w_faults w <> [])) e w.
Proof.
  intros Hi HL Hlv [Hc1 Hc2] Hmg Hg. unfold runCompaction. do 2 wp_step.
  destruct (pickCompactionLocked e) as [plan|] eqn:Ep.
  2: { wp_step. split_and!; try done. left. split; [done|]. exists c. unfold pass_leaves. by rewrite Ep. }
  destruct (pick_spec e plan Ep Hc1 ltac:(lia)) as (l & Hl0 & Hlm & Ht & Hp & Hne).
  rewrite (input_tids l c e w Hi) in Hp. set (ps := inputs_of l c e) in *. do 3 wp_step. rewrite Ht.
  assert (ps <> []) as Hin.
  { intros E. apply Hne. pose proof (input_tids l c e w Hi) as E2. fold ps in E2. rewrite E in E2. by apply app_nil in E2 as [-> _]. }
  pose proof (selection_inputs l c e w Hi HL) as Hsel. fold ps in Hsel.
  eapply wp_mono.
  { apply (wp_compact_merge l ps c e w plan (isBottommost e (l + 1)) Hi Hsel (Hmg l _) Hl0 ltac:(lia) Hg Ht Hp Hin). }
  intros ? ? w1 (-> & Hframe & mr & -> & Hmr & Hsame & Hfl). cbv beta iota. set (e1 := set_gen (e_genCounter e + 1) e).
  assert (inv c e1 w1) as Hi1.
  { apply inv_gen; [|lia]. eapply inv_world; [exact Hi|]. intros p Hk. apply Hframe; by apply (known_fresh e (l + 1)); [lia| |]. }
  assert (forall P : Prop, merge_failed mr \/ P -> w_faults w = [] -> P) as Hnf by (intros P [?|?] Hw; [by destruct (Hfl Hw)|done]).
  eapply wp_mono.
  { apply (wp_compact_commit l ps c e1 w1 plan (next_path (l + 1) e) (minActiveSnapshotSeq e) (isBottommost e (l + 1)) mr Hi1); try done; [by destruct HL|by destruct Hsel| |lia].
    intros Hb. by apply (bottom_inputs l c e w). }
  intros r e2 w2 (Hst & Hq & Him & Hr).
  assert (w_faults w = [] -> durable e w -> durable e2 w2) as Hdur.
  { intros Hw Hd. destruct (Hfl Hw) as [Hw1 _]. destruct Hr as [(_ & _ & t & Hte & Htm & Hcom)|[_ Hbad]].
    - apply (durable_compacted l ps c e w Hi Hsel t w1 e2 w2 Hd Hg ltac:(lia) Hframe); try done.
      + intros t0 ->. destruct Hte as [|(-> & t1 & [= <-] & E1 & E2 & _)]; [done|]. split_and!; [done|done|].
        destruct Hmr as (_ & _ & f & Hcl). eexists. split; [apply (cl_file _ _ _ _ _ _ Hcl)|done].
      + intros ->. destruct Hsame as [E|]; [|done]. destruct (proj2 Htm E) as [? [=]].
    - by apply (Hnf _ Hbad) in Hw. }
  unfold inc, observe_since.
  assert (forall e3, e_dir e3 = e_dir e2 -> e_memId e3 = e_memId e2 -> e_mem e3 = e_mem e2 -> e_wal e3 = e_wal e2 ->
    e_walPath e3 = e_walPath e2 -> e_imm e3 = e_imm e2 -> e_tables e3 = e_tables e2 -> e_seq e3 = e_seq e2 ->
    e_genCounter e3 = e_genCounter e2 -> e_flushCh e3 = e_flushCh e2 -> e_store e3 = e_store e2 ->
    e_nextTable e3 = e_nextTable e2 -> e_opts e3 = e_opts e2 ->
    r = inl tt /\ pass_post (minActiveSnapshotSeq e) (pass_leaves c e) c e3 w2 \/ (exists err, r = inr err) /\ w_faults w <> []) as Hpost.
  { intros e3 E1 E2 E3 E4 E5 E6 E7 E8 E9 E10 E11 E12 E13. destruct Hr as [(-> & (c' & Hi' & Hs & [] & Hv & Hm & Hm2 & Hrc & Hrl) & _)|[Hr Hbad]].
    - left. split; [done|]. exists c'. split_and!; [by eapply inv_irrelevant|done|by split; rewrite ?E7| |done|done|].
      { unfold levels_ok in *. by rewrite E7, E13. }
      unfold pass_leaves, plan_bottom. rewrite Ep, Ht, E7. split; [|exact Hrl]. eapply reclaimed_perm; [|exact Hrc]. symmetry.
      by eapply plan_records_perm.
    - right. split; [done|]. intros Hw. destruct (Hfl Hw) as [Hw1 _]. by apply (Hnf _ Hbad) in Hw. }
  wp_steps. destruct r as [[]|err]; wp_steps; split_and!; try done; try (by apply Hpost);
    intros Hw Hd; by apply (durable_same e2 _ w2 w2); [apply Hdur|..].
Qed.


(** C15: what compaction reclaims.  A pass in which no system call fails returns
    nil.  If there is nothing to compact it changes nothing; otherwise its inputs
    leave the list of tables and at most one table at the target level comes, and
    of the versions in the inputs exactly these are left in the store: those above
    the smallest sequence number of an open snapshot (all of them are at or below
    it, if no snapshot is open), and of those at or below it the newest of each
    key, but not if it is the newest version of its key, a tombstone, and no table
    lies below.  Versions elsewhere are not touched. *)
Theorem compaction_reclaims c e w :
  inv c e w -> layered c e -> levels_ok e -> config_ok (e_opts e) -> mergeable c e -> (e_genCounter e < max_u64)%N ->
  w_faults w = [] ->
  exists e' w' c', runCompaction e w = (Ok (e', inl tt), w') /\ inv c' e' w' /\
    match pickCompactionLocked e with
    | None => c' = c /\ e_tables e' = e_tables e
    | Some plan =>
        relisted_tables plan (e_tables e) (e_tables e') /\
        forall r, r ∈ view c' <->
          r ∈ view c /\ r ∉ plan_records plan c e \/
          retained (minActiveSnapshotSeq e) (plan_bottom plan e) (plan_records plan c e) r
    end.
Proof.
  intros Hi HL Hlv Hc Hmg Hg Hw.
  destruct (wp_run _ _ _ _ (wp_runCompaction c e w Hi HL Hlv Hc Hmg Hg)) as (r & e' & w' & E & _ & _ & _ & _ & Hr).
  destruct Hr as [[-> (c' & Hi' & _ & _ & _ & _ & _ & Hp)]|[_ H]]; [|done]. exists e', w', c'. split_and!; [done|done|].
  unfold pass_leaves in Hp. destruct (pickCompactionLocked e) as [plan|]; [by destruct Hp|done].
Qed.
End compact.
