(* ===== verification/EngineOpen.v ===== *)
(** * Opening a store

    What [scanDir] finds in a directory, and the engine that [Open] builds from
    it: every table is opened at its level, every log is replayed into a
    MemTable that is flushed to a table, and the logs are removed. *)

From S2P Require Import Prelude OrdMap GoIO IOLogic MemTable Versions SSTable Table Merge Metrics FileNames EngineState EngineLogic EngineInv Engine EngineRead EngineFlush EngineLogs EngineWrite.
From S2P Require Wal SkipList Bloom.
From Stdlib Require Import Ascii.
From stdpp Require Import base gmap sets list strings numbers fin_maps sorting.
Open Scope nat_scope.

(** ** The directory *)

Definition dir_names (dir : string) (fs : gmap string file) : list string :=
  merge_sort string_le
    (omap (fun p => name ← FileNames.strip_prefix (dir +:+ "/") p; if no_slash name then Some name else None) (fst <$> map_to_list fs)).

Definition dir_files (dir : string) (fs : gmap string file) : list string * list sstFileInfo * N :=
  let '(wals, ssts, gen) := scan_entries dir (dir_names dir fs) [] [] 0 in
  (merge_sort string_le wals, merge_sort gen_le ssts, gen).

Lemma scanDir_quiet dir w : w_faults w = [] -> scanDir dir w = (Ok (dir_files dir (w_files w)), w).
Proof.
  destruct w as [fs fl]. intros Hw. simpl in Hw. subst fl. unfold scanDir, dir_files, ReadDir, dir_names. io_unfold. cbn.
  destruct (scan_entries _ _ _ _ _) as [[wals ssts] gen]. done.
Qed.

Lemma strip_prefix_app pre s : FileNames.strip_prefix pre (pre +:+ s) = Some s.
Proof. induction pre as [|c pre IH]; [by destruct s|]. simpl. by rewrite bool_decide_true. Qed.

Lemma strip_prefix_Some pre s t : FileNames.strip_prefix pre s = Some t -> s = pre +:+ t.
Proof.
  revert s. induction pre as [|c pre IH]; intros s; [by intros [= ->]|]. destruct s as [|c' s]; [done|]. simpl.
  case_bool_decide; [|done]. subst. intros H. apply IH in H as ->. done.
Qed.

Lemma string_app_inj pre s t : pre +:+ s = pre +:+ t -> s = t.
Proof. intros E. pose proof (strip_prefix_app pre s) as H. rewrite E, strip_prefix_app in H. by injection H. Qed.

Lemma Join_split dir name : FileNames.Join dir name = (dir +:+ "/") +:+ name.
Proof. unfold FileNames.Join. by rewrite string_app_assoc. Qed.

Lemma Join_inj dir a b : FileNames.Join dir a = FileNames.Join dir b -> a = b.
Proof. rewrite !Join_split. apply string_app_inj. Qed.

Lemma elem_of_dir_names dir fs name :
  name ∈ dir_names dir fs <-> no_slash name = true /\ is_Some (fs !! FileNames.Join dir name).
Proof.
  unfold dir_names. rewrite merge_sort_Permutation, list_elem_of_omap. split.
  - intros (p & (kv & -> & Hin)%list_elem_of_fmap & H). destruct (FileNames.strip_prefix _ _) as [n|] eqn:E; [|done].
    cbn in H. destruct (no_slash n) eqn:En; [|done]. injection H as <-. split; [done|].
    rewrite Join_split, <- (strip_prefix_Some _ _ _ E). exists kv.2. apply elem_of_map_to_list. by destruct kv.
  - intros [Hn [f Hf]]. exists (FileNames.Join dir name). split.
    + apply list_elem_of_fmap. exists (FileNames.Join dir name, f). split; [done|]. by apply elem_of_map_to_list.
    + rewrite Join_split, strip_prefix_app. cbn. by rewrite Hn.
Qed.

Lemma NoDup_omap {A B} (f : A -> option B) (l : list A) :
  (forall a a' b, f a = Some b -> f a' = Some b -> a = a') -> NoDup l -> NoDup (omap f l).
Proof.
  intros Hf. induction 1 as [|a l Hnot Hl IH]; [constructor|]. cbn. destruct (f a) as [b|] eqn:E; [|done].
  constructor; [|done]. intros (a' & Hin & E')%list_elem_of_omap. by rewrite (Hf a a' b E E') in Hnot.
Qed.

Lemma NoDup_dir_names dir fs : NoDup (dir_names dir fs).
Proof.
  unfold dir_names. rewrite merge_sort_Permutation. apply NoDup_omap; [|apply NoDup_fst_map_to_list].
  intros a a' b Ha Hb. destruct (FileNames.strip_prefix _ a) as [n|] eqn:E; [|done]. destruct (FileNames.strip_prefix _ a') as [n'|] eqn:E'; [|done].
  cbn in Ha, Hb. destruct (no_slash n), (no_slash n'); simplify_eq. by rewrite (strip_prefix_Some _ _ _ E), (strip_prefix_Some _ _ _ E').
Qed.

Definition wal_of (dir name : string) : option string :=
  if HasSuffix name ".wal" then _ ← ParseUint (TrimSuffix name ".wal"); Some (FileNames.Join dir name) else None.
Definition sst_of (dir name : string) : option sstFileInfo :=
  if HasSuffix name ".wal" then None
  else if HasSuffix name ".sst" then '(level, gen) ← parseSSTFilename name; Some (MkSSTInfo (FileNames.Join dir name) level gen)
  else None.

Lemma scan_entries_spec dir names wals ssts mg :
  exists mg', scan_entries dir names wals ssts mg = (wals ++ omap (wal_of dir) names, ssts ++ omap (sst_of dir) names, mg') /\
    (mg <= mg')%N /\ Forall (fun sf => sf_gen sf <= mg')%N (omap (sst_of dir) names).
Proof.
  revert wals ssts mg. induction names as [|name names IH]; intros wals ssts mg; cbn [scan_entries].
  { exists mg. rewrite !app_nil_r. split_and!; [done|lia|constructor]. }
  cbn [omap list_omap]. pose proof (eq_refl (wal_of dir name)) as Hwal. pose proof (eq_refl (sst_of dir name)) as Hsst.
  unfold wal_of in Hwal at 2. unfold sst_of in Hsst at 2. rewrite Hwal, Hsst. clear Hwal Hsst.
  destruct (HasSuffix name ".wal").
  - destruct (ParseUint _) as [g|]; cbn [mbind option_bind].
    + destruct (IH (wals ++ [FileNames.Join dir name]) ssts (N.max mg g)) as (mg' & -> & Hle & Hg). exists mg'.
      rewrite <- app_assoc. split_and!; [done|lia|done].
    + apply IH.
  - destruct (HasSuffix name ".sst"); [|apply IH].
    destruct (parseSSTFilename name) as [[l g]|]; cbn [mbind option_bind]; [|apply IH].
    destruct (IH wals (ssts ++ [MkSSTInfo (FileNames.Join dir name) l g]) (N.max mg g)) as (mg' & -> & Hle & Hg). exists mg'.
    rewrite <- app_assoc. split_and!; [done|lia|]. constructor; [cbn; lia|done].
Qed.

Lemma wal_of_Some dir name p : wal_of dir name = Some p <-> p = FileNames.Join dir name /\ wal_name name.
Proof.
  unfold wal_of, wal_name. destruct (HasSuffix name ".wal"); [|naive_solver].
  destruct (ParseUint _); cbn; [|split; [done|by intros (_ & _ & [? ?])]]. naive_solver.
Qed.

Lemma sst_of_Some dir name sf :
  sst_of dir name = Some sf <-> sf_path sf = FileNames.Join dir name /\ sst_name name (sf_level sf) (sf_gen sf).
Proof.
  unfold sst_of, sst_name. destruct (HasSuffix name ".wal"), (HasSuffix name ".sst"); try naive_solver.
  destruct (parseSSTFilename name) as [[l g]|]; cbn; [|naive_solver]. destruct sf as [p l' g']; cbn. naive_solver.
Qed.

Lemma dir_files_spec dir fs wals ssts mg :
  dir_files dir fs = (wals, ssts, mg) ->
  (forall p, p ∈ wals <-> is_Some (fs !! p) /\ wal_file dir p) /\
  (forall sf, sf ∈ ssts <-> is_Some (fs !! sf_path sf) /\ sst_file dir (sf_path sf) (sf_level sf) (sf_gen sf)) /\
  NoDup (sf_path <$> ssts) /\ Forall (fun sf => sf_gen sf <= mg)%N ssts.
Proof.
  unfold dir_files. destruct (scan_entries_spec dir (dir_names dir fs) [] [] 0) as (mg' & E & _ & Hg).
  rewrite E. cbn [app]. intros [= <- <- <-]. split_and!.
  - intros p. rewrite merge_sort_Permutation, list_elem_of_omap. unfold wal_file. split.
    + intros (name & [Hn Hf]%elem_of_dir_names & [-> Hw]%wal_of_Some). split; [done|by exists name].
    + intros (Hf & name & -> & Hn & Hw). exists name. by rewrite elem_of_dir_names, wal_of_Some.
  - intros sf. rewrite merge_sort_Permutation, list_elem_of_omap. unfold sst_file. split.
    + intros (name & [Hn Hf]%elem_of_dir_names & [Hp Hw]%sst_of_Some). rewrite Hp. split; [done|by exists name].
    + intros (Hf & name & Hp & Hn & Hw). exists name. by rewrite elem_of_dir_names, sst_of_Some, <- Hp.
  - rewrite merge_sort_Permutation. pose proof (NoDup_dir_names dir fs) as Hnd.
    assert (sf_path <$> omap (sst_of dir) (dir_names dir fs) = omap (fun n => sf_path <$> sst_of dir n) (dir_names dir fs)) as ->.
    { generalize (dir_names dir fs) as l. induction l as [|n l IH]; [done|]. cbn. destruct (sst_of dir n); cbn; by rewrite IH. }
    apply NoDup_omap; [|done]. intros a a' b Ha Hb.
    destruct (sst_of dir a) as [x|] eqn:Ea; [|done]. destruct (sst_of dir a') as [y|] eqn:Eb; [|done]. cbn in Ha, Hb.
    apply sst_of_Some in Ea as [Ea _], Eb as [Eb _]. apply (Join_inj dir). rewrite <- Ea, <- Eb. congruence.
  - by rewrite merge_sort_Permutation.
Qed.

Lemma dir_files_wals dir fs wals ssts mg :
  dir_files dir fs = (wals, ssts, mg) -> NoDup wals /\ StronglySorted string_le wals.
Proof.
  unfold dir_files. destruct (scan_entries_spec dir (dir_names dir fs) [] [] 0) as (mg' & E & _). rewrite E. cbn [app].
  intros [= <- _ _]. split; [|apply (StronglySorted_merge_sort string_le)].
  rewrite merge_sort_Permutation. apply NoDup_omap; [|apply NoDup_dir_names].
  intros a a' p [-> _]%wal_of_Some [E' _]%wal_of_Some. by apply (Join_inj dir).
Qed.

(** No generation is larger than those of the files. *)
Lemma scan_entries_gen dir names wals ssts mg B :
  (mg <= B)%N ->
  (forall name g, name ∈ names -> HasSuffix name ".wal" = true -> ParseUint (TrimSuffix name ".wal") = Some g -> (g <= B)%N) ->
  (forall name l g, name ∈ names -> sst_name name l g -> (g <= B)%N) ->
  ((scan_entries dir names wals ssts mg).2 <= B)%N.
Proof.
  revert wals ssts mg. induction names as [|name names IH]; intros wals ssts mg Hm Hw Hs; [done|]. cbn [scan_entries].
  assert (forall w s m, (m <= B)%N -> ((scan_entries dir names w s m).2 <= B)%N) as IH'.
  { intros w s m Hm'. apply IH; [done| |]; intros; [eapply Hw|eapply Hs]; try done; by right. }
  destruct (HasSuffix name ".wal") eqn:Ew.
  - destruct (ParseUint _) as [g|] eqn:Ep; apply IH'; [|done]. pose proof (Hw name g ltac:(by left) Ew Ep). lia.
  - destruct (HasSuffix name ".sst") eqn:Es; [|by apply IH']. destruct (parseSSTFilename name) as [[l g]|] eqn:Ep; [|by apply IH'].
    apply IH'. pose proof (Hs name l g ltac:(by left) ltac:(by split_and!)). lia.
Qed.

Lemma dir_files_gen dir fs wals ssts mg B :
  dir_files dir fs = (wals, ssts, mg) ->
  (forall name g, is_Some (fs !! FileNames.Join dir name) -> no_slash name = true ->
     HasSuffix name ".wal" = true -> ParseUint (TrimSuffix name ".wal") = Some g -> (g <= B)%N) ->
  (forall p l g, is_Some (fs !! p) -> sst_file dir p l g -> (g <= B)%N) -> (mg <= B)%N.
Proof.
  unfold dir_files. intros E Hw Hs.
  pose proof (scan_entries_gen dir (dir_names dir fs) [] [] 0 B ltac:(lia)) as H.
  destruct (scan_entries _ _ _ _ _) as [[a b] g]. injection E as _ _ ->. apply H.
  - intros name g [Hn Hf]%elem_of_dir_names. by apply Hw.
  - intros name l g [Hn Hf]%elem_of_dir_names Hst. apply (Hs _ l g Hf). by exists name.
Qed.

(** ** The tables *)

Section opening.
Context `{FM : Bloom.FloatMath} `{FL : Flate} `{HFL : !FlateLaws FL}.

(** A table's file as an earlier run of the store left it, whatever its
    compression setting was. *)
Definition table_file (w : world) (sf : sstFileInfo) (rs : list Record) : Prop :=
  (0 <= sf_level sf < 2 ^ 63)%Z /\ rs <> [] /\ sorted_records rs /\
  exists compress f n, fits compress rs f /\ filter_of rs = Some f /\
    w_files w !! sf_path sf = Some (MkFile (encode_table compress rs f) n).

(** While the store is being opened it has no log of its own yet; [dress] gives
    it one, and a bound on the sequence numbers of its records. *)
Definition dress (q : N) (e : Engine) : Engine :=
  set_lastSeq q (set_wal (Wal.MkWAL (bufio_New (walFileName (e_dir e) 0))) (walFileName (e_dir e) 0) e).

(** What opening tables does not change. *)
Definition same_base (e e' : Engine) : Prop :=
  e_dir e' = e_dir e /\ e_memId e' = e_memId e /\ e_mem e' = e_mem e /\ e_imm e' = e_imm e /\ e_closed e' = e_closed e /\
  e_opts e' = e_opts e /\ e_flushCh e' = e_flushCh e /\ e_activeSnapshots e' = e_activeSnapshots e.

Definition add_tables (rss : list (list Record)) (c : contents) : contents :=
  MkContents (c_mem c) (c_imm c) (c_tables c ++ rss).

Lemma add_tables_nil c : add_tables [] c = c.
Proof. destruct c. unfold add_tables. cbn. by rewrite app_nil_r. Qed.

Lemma add_tables_cons rs rss c : add_tables rss (add_table rs c) = add_tables (rs :: rss) c.
Proof. unfold add_tables, add_table. cbn. by rewrite <- app_assoc. Qed.

Lemma wp_open_tables q ssts rss c e w :
  inv c (dress q e) w -> w_faults w = [] -> Forall2 (table_file w) ssts rss ->
  Forall (fun sf => sst_path (e_dir e) (sf_level sf) (sf_gen sf) (sf_path sf) /\ (sf_gen sf <= e_genCounter e)%N) ssts ->
  NoDup ((table_path e <$> e_tables e) ++ (Some <$> (sf_path <$> ssts))) ->
  Forall (fun r => Key r <> [] /\ (Seq r <= q)%N) (concat rss) -> NoDup (version <$> view c ++ concat rss) ->
  wp (open_tables ssts) (fun r e' w' => r = inl tt /\ w_files w' = w_files w /\ w_faults w' = [] /\ same_base e e' /\
    e_genCounter e' = e_genCounter e /\ e_seq e' = e_seq e /\
    (lt_level <$> e_tables e') = (lt_level <$> e_tables e) ++ (sf_level <$> ssts) /\
    inv (add_tables rss c) (dress q e') w') e w.
Proof.
  intros Hi Hw HF. revert rss c e w Hi Hw HF.
  induction ssts as [|sf ssts IH]; intros rss c e w Hi Hw HF Hp Hnd Hks Hv; unfold open_tables; cbn [efor].
  { apply Forall2_nil_inv_l in HF as ->. wp_step. rewrite add_tables_nil. by split_and!; rewrite ?app_nil_r. }
  apply Forall2_cons_inv_l in HF as (rs & rss' & (Hl & Hne & Hs & compress & f & n & Hfit & Hf & Hfile) & HF & ->).
  apply Forall_cons in Hp as [[Hsp Hg] Hp]. cbn [concat] in Hks, Hv. apply Forall_app in Hks as [Hks1 Hks].
  do 3 wp_step. apply wp_lift.
  pose proof (Open_run (sf_path sf) compress rs f n w HFL Hne Hs Hfit Hf Hfile) as HO.
  destruct (Table.Open (sf_path sf) w) as [[t|err|] w1]; [|by destruct HO|done]. destruct HO as (-> & HO & Hfl).
  do 3 wp_step. set (t := table_of (sf_path sf) compress rs f).
  assert (inv (add_table rs c) (dress q (attach (sf_level sf) t e)) w1) as Hi1.
  { change (inv (add_table rs c) (attach (sf_level sf) t (dress q e)) w1).
    eapply (inv_attach c (dress q e) w1 (sf_level sf) (sf_gen sf) (sf_path sf) compress rs f n); try done.
    - eapply inv_world; [exact Hi|by apply same_known_eq].
    - intros Hin. apply NoDup_app in Hnd as (_ & Hd & _). apply (Hd (Some (sf_path sf))); [exact Hin|]. by left.
    - rewrite app_assoc, fmap_app in Hv. by apply NoDup_app in Hv as [Hv _].
    - by rewrite HO. }
  eapply wp_mono.
  { apply (IH rss' (add_table rs c) (attach (sf_level sf) t e) w1 Hi1 (Hfl Hw)); [|exact Hp| |exact Hks|].
    - eapply Forall2_impl; [exact HF|]. unfold table_file. by rewrite HO.
    - cbn [attach e_tables set_tables]. rewrite fmap_app, <- app_assoc.
      change (table_path (attach (sf_level sf) t e)) with
        (table_path (set_store (<[e_nextTable (dress q e) := t]> (e_store (dress q e))) (S (e_nextTable (dress q e))) (dress q e))).
      change (e_tables e) with (e_tables (dress q e)) in *.
      rewrite (table_path_insert c (dress q e) w t (e_tables (dress q e)) Hi ltac:(done)).
      cbn [fmap list_fmap]. unfold table_path at 2. cbn. rewrite lookup_insert_eq. cbn. exact Hnd.
    - by rewrite view_add_table, <- app_assoc. }
  intros r e' w' (-> & Hw' & Hfl' & Hb & Hg' & Hs' & Hlv & Hi'). split_and!; [done|by rewrite Hw'|done| |done|done| |].
  - exact Hb.
  - rewrite Hlv. cbn. by rewrite fmap_app, <- app_assoc.
  - by rewrite <- add_tables_cons.
Qed.

(** ** The logs *)

(** [recover_record] as a function to results. *)
Definition recover_res (st : MemTable * N) (rec : Wal.Record_) : res (MemTable * N) :=
  (recover_record st rec (MkWorld ∅ [])).1.

Lemma recover_record_res st rec w : recover_record st rec w = (recover_res st rec, w).
Proof.
  unfold recover_res, recover_record. destruct st as [mt mx]. unfold of_option, bind, ret, throw.
  repeat case_bool_decide; [destruct (MemTable.Put _ _ _ _)|destruct (MemTable.Delete _ _ _)|]; done.
Qed.

Lemma replay_loop_ext {A} (fn : A -> Wal.Record_ -> M A) (g : A -> Wal.Record_ -> res A) fuel rest st w :
  (forall st rec w, fn st rec w = (g st rec, w)) ->
  Wal.replay_loop fn fuel rest st w = Wal.replay_loop (Wal.pure_fn g) fuel rest st w.
Proof.
  intros Hfg. revert rest st w. induction fuel as [|fuel IH]; intros rest st w; [done|]. cbn [Wal.replay_loop].
  unfold bind at 1 4. destruct (attempt (io_ReadFull rest Wal.headerSize) w) as [[[[header rest1]|e]|e|] w1]; try done.
  destruct (_ || _); [done|]. unfold bind at 1 3.
  destruct (attempt (io_ReadFull rest1 _) w1) as [[[[body rest2]|e]|e|] w2]; try done.
  destruct (negb _); [done|]. unfold bind, wrap, Wal.pure_fn. rewrite Hfg.
  destruct (g st _) as [st'|e|]; [apply IH|done|done].
Qed.

Definition max_seq (mx : N) (recs : list Wal.Record_) : N := fold_left (fun mx rec => N.max mx (Wal.r_seq rec)) recs mx.

Lemma deliver_recover recs mt l mx w :
  wb_repr mt l -> Forall known_type recs ->
  exists mt', Wal.deliver (Wal.pure_fn recover_res) recs (mt, mx) w = (Ok (mt', max_seq mx recs), w) /\ wb_repr mt' (replayed l recs).
Proof.
  intros Hm HT. revert mt l mx Hm. induction HT as [|rec recs Hk HT IH]; intros mt l mx Hm; [by exists mt|].
  cbn [Wal.deliver replayed max_seq fold_left].
  destruct (wb_repr_apply mt l (mut_of rec) Hm) as (mt1 & E & Hm1).
  assert (recover_res (mt, mx) rec = Ok (mt1, N.max mx (Wal.r_seq rec))) as Er.
  { unfold recover_res, recover_record.
    assert ((if (mx <? Wal.r_seq rec)%N then Wal.r_seq rec else mx) = N.max mx (Wal.r_seq rec)) as ->.
    { destruct (N.ltb_spec mx (Wal.r_seq rec)); lia. }
    unfold mut_of, mutation_of in E. destruct Hk as [Hk|Hk]; rewrite Hk in E |- *.
    - change (MemTable.Put mt (Wal.r_key rec) (Wal.r_value rec) (Wal.r_seq rec) = Some mt1) in E.
      change (bool_decide (Wal.RecordPut = Wal.RecordPut)) with true. cbv iota. by rewrite E.
    - change (MemTable.Delete mt (Wal.r_key rec) (Wal.r_seq rec) = Some mt1) in E.
      change (bool_decide (Wal.RecordDelete = Wal.RecordPut)) with false.
      change (bool_decide (Wal.RecordDelete = Wal.RecordDelete)) with true. cbv iota. by rewrite E. }
  destruct (IH mt1 _ (N.max mx (Wal.r_seq rec)) Hm1) as (mt' & E' & Hm'). exists mt'. split; [|exact Hm'].
  unfold bind, wrap, Wal.pure_fn at 1. rewrite Er. exact E'.
Qed.

(** A log's file and the records [Replay] finds in it. *)
Definition log_file (w : world) (path : string) (recs : list Wal.Record_) : Prop :=
  exists f, w_files w !! path = Some f /\ Wal.parse (f_data f) = recs.

Lemma replay_all_run paths recss mt l mx w :
  w_faults w = [] -> Forall2 (log_file w) paths recss -> wb_repr mt l -> Forall known_type (concat recss) ->
  exists mt', replay_all paths (mt, mx) w = (Ok (mt', max_seq mx (concat recss)), w) /\ wb_repr mt' (replayed l (concat recss)).
Proof.
  intros Hw HF. revert mt l mx. induction HF as [|path recs paths recss (f & Hf & Hp) HF IH]; intros mt l mx Hm HT; [by exists mt|].
  cbn [concat] in *. apply Forall_app in HT as [HT1 HT2].
  destruct (deliver_recover recs mt l mx w Hm HT1) as (mt1 & E1 & Hm1).
  destruct (IH mt1 _ (max_seq mx recs) Hm1 HT2) as (mt2 & E2 & Hm2). exists mt2.
  unfold replayed, max_seq. rewrite !fold_left_app. split; [|exact Hm2]. cbn [replay_all].
  assert (Wal.Replay recover_record path (mt, mx) w = (Ok (mt1, max_seq mx recs), w)) as ER.
  { rewrite <- E1, <- Hp, <- (Wal.Replay_parse recover_res path f (mt, mx) w Hw Hf). unfold Wal.Replay, bind at 1 2.
    destruct (attempt (os_Open path) w) as [[[data|e]|e|] w1]; try done.
    by rewrite (replay_loop_ext recover_record recover_res) by apply recover_record_res. }
  unfold bind, wrap. rewrite ER. exact E2.
Qed.

Lemma remove_wal_quiet p w : w_faults w = [] -> remove_wal p w = (Ok tt, MkWorld (delete p (w_files w)) []).
Proof.
  destruct w as [fs fl]. intros Hw. simpl in Hw. subst fl. unfold remove_wal, Wal.Remove, os_Remove. io_unfold. cbn.
  destruct (fs !! p) as [f|] eqn:E; cbn; [done|]. by rewrite delete_id.
Qed.

Lemma inv_wal_files c e w w' :
  inv c e w -> (forall p, ~ wal_path p -> w_files w' !! p = w_files w !! p) -> inv c e w'.
Proof.
  intros Hi Hw. eapply inv_world; [exact Hi|]. intros p (l & g & Hp & _). apply Hw. by apply (sst_path_wal _ _ _ _ Hp).
Qed.

Lemma wp_remove_wals_dressed q text c e w paths :
  inv c (dress q e) w -> w_faults w = [] -> Forall wal_path paths ->
  wp (efor paths (fun path => ewrap text (lift (remove_wal path))))
    (fun r e' w' => r = inl tt /\ e' = e /\ w_faults w' = [] /\ inv c (dress q e) w' /\
       (forall p, p ∈ paths -> w_files w' !! p = None) /\ (forall p, p ∉ paths -> w_files w' !! p = w_files w !! p)) e w.
Proof.
  intros Hi Hw Hp. eapply wp_mono.
  { apply (wp_efor _ (fun dn e' w' => e' = e /\ w_faults w' = [] /\
      (forall p, p ∈ dn -> w_files w' !! p = None) /\ (forall p, p ∉ dn -> w_files w' !! p = w_files w !! p))).
    - split_and!; [done|done|by intros p ?%not_elem_of_nil|done].
    - intros dn x rest e' w' _ (-> & Hw' & H1 & H2). wp_step. apply wp_lift. rewrite remove_wal_quiet by done.
      split_and!; [done|done|done| |].
      + intros p [Hin| ->%list_elem_of_singleton]%elem_of_app; cbn; [|by rewrite lookup_delete_eq].
        destruct (decide (p = x)) as [->|Hne]; [by rewrite lookup_delete_eq|]. rewrite lookup_delete_ne by done. by apply H1.
      + intros p [Hn1 Hn2]%not_elem_of_app. cbn. rewrite lookup_delete_ne; [by apply H2|].
        intros <-. apply Hn2. by left. }
  intros r e' w' (-> & -> & Hw' & H1 & H2). split_and!; try done.
  eapply inv_wal_files; [exact Hi|]. intros p Hnp. apply H2. intros Hin. rewrite Forall_forall in Hp. by apply Hnp, Hp.
Qed.

(** Recovered or leftover records become a table at level 0. *)
Definition write_and_open (text1 text2 path : string) (rs : list Record) (compress : bool) : E unit :=
  ewrap text1 (lift (SSTable.Write true path rs compress));;?
  let? t := ewrap text2 (lift (Table.Open path)) in
  let? tid := alloc_table t in
  emod (fun e' => set_tables (e_tables e' ++ [MkLT 0 tid]) e').

(** [e'] is [e] as far as its tables are concerned. *)
Definition same_tables (e e' : Engine) : Prop :=
  e_dir e' = e_dir e /\ e_opts e' = e_opts e /\ e_genCounter e' = e_genCounter e /\ e_nextTable e' = e_nextTable e.

Lemma wp_write_and_open text1 text2 c e eo w rs (Q : unit + error -> Engine -> world -> Prop) :
  inv c eo w -> same_tables e eo -> w_faults w = [] -> (e_genCounter e < max_u64)%N -> rs <> [] -> sorted_records rs ->
  flushable (o_compress (e_opts e)) rs ->
  Forall (fun r => Key r <> [] /\ (Seq r <= e_seq eo)%N) rs -> NoDup (version <$> view c ++ rs) ->
  let path := sstFileName (e_dir e) 0 (e_genCounter e + 1) in
  (forall t w', inv (add_table rs c) (with_table 0 t eo) w' -> w_faults w' = [] -> t_path t = path ->
     (forall p, p <> path -> p <> tmp_of path -> w_files w' !! p = w_files w !! p) ->
     synced_at w' path -> t_refCount t = 1%Z -> Q (inl tt) (with_table 0 t e) w') ->
  wp (write_and_open text1 text2 path rs (o_compress (e_opts e))) Q (set_gen (e_genCounter e + 1) e) w.
Proof.
  intros Hi (Ed & Eo & Eg & En) Hw Hg Hne Hs (f & Hf & Hfit) Hks Hnd path HQ. unfold write_and_open. do 2 wp_step. apply wp_lift.
  pose proof (Write_run true path rs _ f w Hne Hs Hfit Hf) as HW.
  destruct (SSTable.Write true path rs (o_compress (e_opts e)) w) as [[u|err|] w1]; [|by destruct HW|done].
  destruct HW as [HW Hfl1]. do 2 wp_step. apply wp_lift.
  pose proof (Open_run path _ rs f (length (encode_table (o_compress (e_opts e)) rs f)) w1 HFL Hne Hs Hfit Hf) as HO.
  rewrite HW in HO. specialize (HO (lookup_insert_eq _ _ _)).
  destruct (Table.Open path w1) as [[t|err|] w2]; [|by destruct HO as [H _]; destruct H; auto|done].
  destruct HO as (-> & HO & Hfl2). do 3 wp_step.
  apply HQ; [|by apply Hfl2, Hfl1|done| |by eexists; rewrite HO, lookup_insert_eq|done].
  - unfold path. rewrite <- Eo, <- Ed, <- Eg. apply (inv_add_table c eo w w2 0 rs f Hi); rewrite ?Eo, ?Ed, ?Eg; try done.
    + intros p Hk. assert (p <> path /\ p <> tmp_of path) as [H1 H2] by (unfold path; rewrite <- Ed, <- Eg in *; destruct (known_fresh eo 0 p ltac:(lia) Hg Hk); done).
      by rewrite HO, lookup_insert_ne, lookup_delete_ne.
    + rewrite HO. by rewrite lookup_insert_eq.
  - intros p H1 H2. by rewrite HO, lookup_insert_ne, lookup_delete_ne.
Qed.

Definition add_some (rs : list Record) (c : contents) : contents := match rs with [] => c | _ => add_table rs c end.

Lemma max_seq_max mx recs : max_seq mx recs = N.max mx (max_seq 0 recs).
Proof.
  unfold max_seq. revert mx. induction recs as [|rec recs IH]; intros mx; cbn [fold_left]; [lia|].
  rewrite IH, (IH (N.max 0 (Wal.r_seq rec))). lia.
Qed.

Lemma recovered_keys recs q :
  Forall (fun rec => Wal.r_key rec <> [] /\ (Wal.r_seq rec <= q)%N) recs ->
  Forall (fun r => Key r <> [] /\ (Seq r <= q)%N) (recovered recs).
Proof.
  intros Hr. apply Forall_forall. intros r (rec & Hin & ->)%elem_of_recovered. rewrite Forall_forall in Hr.
  destruct (log_rec_key rec) as [-> ->]. by apply Hr.
Qed.

Lemma recovered_mem_holds mt recs : wb_repr mt (replayed [] recs) -> mem_holds mt (recovered recs).
Proof. intros H. by exists (replayed [] recs). Qed.

Lemma wp_recover coins q paths recss c e w :
  inv c (dress q e) w -> w_faults w = [] -> Forall2 (log_file w) paths recss -> Forall wal_path paths ->
  let recs := concat recss in
  Forall known_type recs -> Forall (fun rec => Wal.r_key rec <> [] /\ (Wal.r_seq rec <= q)%N) recs ->
  NoDup (version <$> view c ++ recovered recs) ->
  (recovered recs <> [] -> flushable (o_compress (e_opts e)) (recovered recs)) -> (e_genCounter e < max_u64)%N ->
  wp (recoverFromWALs coins paths) (fun r e' w' => r = inl tt /\ w_faults w' = [] /\ same_base e e' /\
    e_seq e' = N.max (e_seq e) (max_seq 0 recs) /\ (e_genCounter e <= e_genCounter e' <= e_genCounter e + 1)%N /\
    inv (add_some (recovered recs) c) (dress q e') w' /\ grown e e' /\
    (forall p, p ∈ paths -> w_files w' !! p = None)) e w.
Proof.
  intros Hi Hw HF Hp recs HT Hks Hv Hfl Hg. unfold recoverFromWALs. destruct paths as [|path paths].
  { apply Forall2_nil_inv_l in HF as ->. wp_step.
    split; [done|]. split; [done|]. split; [done|]. split; [change (max_seq 0 recs) with 0%N; lia|]. split; [lia|].
    split; [done|]. split; [by left|by intros p ?%not_elem_of_nil]. }
  destruct (replay_all_run _ _ (MemTable.New (coins 0%N)) [] 0 w Hw HF (wb_repr_new (coins 0%N)) HT) as (mt & E & Hm).
  fold recs in E, Hm. wp_step. apply wp_lift. rewrite E. do 4 wp_step.
  assert ((if (e_seq e <? max_seq 0 recs)%N then max_seq 0 recs else e_seq e) = N.max (e_seq e) (max_seq 0 recs)) as ->.
  { destruct (N.ltb_spec (e_seq e) (max_seq 0 recs)); lia. }
  set (e1 := set_lastSeq (N.max (e_seq e) (max_seq 0 recs)) e).
  assert (inv c (dress q e1) w) as Hi1 by exact Hi.
  pose proof (recovered_mem_holds _ _ Hm) as Hmem. pose proof (recovered_keys recs q Hks) as Hrk.
  assert (MemTable.Len mt = length (replayed [] recs)) as Hlen by exact (wb_repr_len mt _ Hm).
  assert (MemTable.Len mt = 0 <-> recovered recs = []) as Hz.
  { rewrite Hlen. unfold recovered. destruct (replayed [] recs); cbn; split; intros; done. }
  assert (forall c' e' w', inv c' (dress q e') w' -> w_faults w' = [] -> same_base e e' ->
    e_seq e' = N.max (e_seq e) (max_seq 0 recs) -> (e_genCounter e <= e_genCounter e' <= e_genCounter e + 1)%N ->
    c' = add_some (recovered recs) c -> grown e e' ->
    wp (efor (path :: paths) (fun path => ewrap "engine: removing recovered wal" (lift (remove_wal path))))
      (fun r e' w' => r = inl tt /\ w_faults w' = [] /\ same_base e e' /\
        e_seq e' = N.max (e_seq e) (max_seq 0 recs) /\ (e_genCounter e <= e_genCounter e' <= e_genCounter e + 1)%N /\
        inv (add_some (recovered recs) c) (dress q e') w' /\ grown e e' /\
        (forall p, p ∈ path :: paths -> w_files w' !! p = None)) e' w') as Hend.
  { intros c' e' w' Hi' Hw' Hb Hs Hg' -> Hgr.
    eapply wp_mono; [apply (wp_remove_wals_dressed q _ (add_some (recovered recs) c) e' w' (path :: paths) Hi' Hw' Hp)|].
    intros r e2 w2 (-> & -> & Hw2 & Hi2 & Hgone & _). split_and!; try done; apply Hg'. }
  destruct (Nat.ltb_spec 0 (MemTable.Len mt)) as [Hlt|Hge].
  2: { wp_steps. apply (Hend c e1 w); try done; [cbn; lia| |by left]. unfold add_some.
       by rewrite (proj1 Hz ltac:(lia)). }
  assert (recovered recs <> []) as Hne by (intros H0; apply Hz in H0; lia).
  do 3 wp_step. rewrite u64_small by (unfold max_u64 in Hg; cbn; lia). cbv zeta. wp_step.
  eapply wp_lift_option; [by apply buildRecords_holds|]. cbv beta iota.
  eapply (wp_write_and_open _ _ c e1 (dress q e1) w (recovered recs)); try done.
  - by eapply mem_holds_sorted.
  - by apply Hfl.
  - intros t w' Hi2 Hw2 Ht Hother _ _. apply (Hend (add_table (recovered recs) c)); try done; [cbn; lia| |right; by eexists].
    unfold add_some. by destruct (recovered recs).
Qed.

(** ** [Open] *)

Definition configured (opts : list Option_) : options := fold_left (fun o f => f o) opts defaultOptions.

(** The directory as an earlier run left it: tables with the records [rss] and
    logs with the records [recss]. *)
Record left_behind (dir : string) (compress : bool) (q : N) (w : world) (wals : list string) (ssts : list sstFileInfo)
    (rss : list (list Record)) (recss : list (list Wal.Record_)) : Prop := {
  lb_dir : exists mg, dir_files dir (w_files w) = (wals, ssts, mg) /\ (mg + 2 < max_u64)%N;
  lb_tables : Forall2 (table_file w) ssts rss;
  lb_logs : Forall2 (log_file w) wals recss;
  lb_types : Forall known_type (concat recss);
  lb_table_keys : Forall (fun r => Key r <> [] /\ (Seq r <= q)%N) (concat rss);
  lb_log_keys : Forall (fun rec => Wal.r_key rec <> [] /\ (Wal.r_seq rec <= q)%N) (concat recss);
  lb_versions : NoDup (version <$> concat rss ++ recovered (concat recss));
  lb_fits : recovered (concat recss) <> [] -> flushable compress (recovered (concat recss)) }.

Lemma inv_new dir opts clock q w mg :
  inv (MkContents [] [] []) (dress q (set_gen mg (new_engine dir opts clock))) w.
Proof.
  split; [exists []; split; [exact (wb_repr_new [])|done]|..]; cbn;
    try constructor; try apply NoDup_nil_2; try done; try apply not_elem_of_nil.
  - lia.
  - apply last_walFileName.
Qed.

Lemma inv_opened c q e w gen coins :
  inv c (dress q e) w -> c_mem c = [] -> e_imm e = [] -> e_flushCh e = [] -> (e_genCounter e <= gen)%N ->
  let p := walFileName (e_dir e) gen in
  inv c (set_lastSeq q (set_mem gen (MemTable.New coins) (set_wal (Wal.MkWAL (bufio_New p)) p (set_gen gen e)))) w.
Proof.
  intros Hi Hc Him Hf Hg p. apply (inv_gen _ _ _ gen) in Hi; [|exact Hg]. destruct Hi. split; try done.
  - cbn. rewrite Hc. exists []. split; [exact (wb_repr_new coins)|done].
  - by eapply tables_keep.
  - cbn. rewrite Him. apply NoDup_singleton.
  - cbn. rewrite Him. repeat constructor. lia.
  - cbn. rewrite Him. repeat constructor. apply last_walFileName.
Qed.

Lemma Open_run_wal path w :
  w_faults w = [] ->
  exists w', Wal.Open path w = (Ok (Wal.MkWAL (bufio_New path)), w') /\ w_faults w' = [] /\
    (forall p, p <> path -> w_files w' !! p = w_files w !! p).
Proof.
  intros Hw. pose proof (Open_wal_run path w) as H. destruct (Wal.Open path w) as [[wl|err|] w']; [|by destruct H|done].
  destruct H as (-> & H & Hf). exists w'. auto.
Qed.

(** What [Open] makes of the directory. *)
Definition open_post (dir : string) (opts : list Option_) (q : N) (wals : list string) (ssts : list sstFileInfo)
    (rss : list (list Record)) (recss : list (list Wal.Record_)) (e : Engine) (w' : world) : Prop :=
  let recs := concat recss in
  w_faults w' = [] /\ e_dir e = dir /\ e_opts e = configured opts /\ e_closed e = false /\ e_seq e = max_seq 0 recs /\
  e_imm e = [] /\ e_flushCh e = [] /\ e_activeSnapshots e = ∅ /\ bw_err (Wal.wal_w (e_wal e)) = false /\
  (exists rnd, e_mem e = MemTable.New rnd) /\
  (exists extra, lt_level <$> e_tables e = (sf_level <$> ssts) ++ extra /\ Forall (fun l => l = 0%Z) extra) /\
  (forall p, p ∈ wals -> p <> e_walPath e -> w_files w' !! p = None) /\
  exists c, inv c (set_lastSeq q e) w' /\ c = add_some (recovered recs) (MkContents [] [] rss).

Lemma Open_run_dir coins dir opts clock q w wals ssts rss recss :
  w_faults w = [] -> left_behind dir (o_compress (configured opts)) q w wals ssts rss recss ->
  exists e w', Engine.Open coins dir opts clock w = (Ok e, w') /\ open_post dir opts q wals ssts rss recss e w'.
Proof.
  intros Hw [(mg & Hd & Hmg) HT HL Hty Htk Hlk Hv Hfit].
  destruct (dir_files_spec _ _ _ _ _ Hd) as (Hwals & Hssts & Hnd & Hgen).
  set (body := (lift (wrap "engine: creating directory" (syscall (ret tt)));;?
     let? (walFiles, sstFiles, maxGen) := lift (scanDir dir) in
     emod (set_gen maxGen);;?
     open_tables sstFiles;;?
     recoverFromWALs coins walFiles;;?
     let? newGen := nextGen in
     let walP := walFileName dir newGen in
     let? w := ewrap "engine: opening new wal" (lift (Wal.Open walP)) in
     emod (fun e => set_mem newGen (MemTable.New (coins newGen)) (set_wal w walP e)))).
  assert (wp body (fun r e' w' => r = inl tt /\ open_post dir opts q wals ssts rss recss e' w') (new_engine dir opts clock) w) as H.
  2: { destruct (wp_run _ _ _ _ H) as (r & e & w' & E & -> & Hp). exists e, w'. split; [|exact Hp].
       unfold Engine.Open. unfold bind at 1. change (body (new_engine dir opts clock) w = (Ok (e, inl tt), w')) in E.
       fold body. by rewrite E. }
  unfold body. wp_step. apply wp_lift. destruct w as [fs fl]. cbn in Hw. subst fl. cbn [wrap syscall next_fault bind ret w_faults].
  cbn in Hd. set (w := MkWorld fs []) in *. wp_step. apply wp_lift. rewrite (scanDir_quiet dir w eq_refl). cbn [w w_files]. rewrite Hd. fold w. do 2 wp_step.
  wp_step. eapply wp_mono.
  { apply (wp_open_tables q ssts rss (MkContents [] [] []) _ w (inv_new dir opts clock q w mg)); [done|done| | |done|].
    - apply Forall_forall. intros sf Hin. split; [|by rewrite Forall_forall in Hgen; apply Hgen].
      apply sst_file_path. by apply Hssts.
    - cbn. apply (NoDup_fmap_2 Some). exact Hnd.
    - cbn. rewrite fmap_app in Hv. by apply NoDup_app in Hv as [Hv _]. }
  intros r e1 w1 (-> & Hw1 & Hf1 & Hb1 & Hg1 & Hs1 & Hlv1 & Hi1). cbv beta iota. wp_step.
  destruct Hb1 as (B1 & B2 & B3 & B4 & B5 & B6 & B7 & B8). cbn in B1, B2, B3, B4, B5, B6, B7, B8, Hg1, Hs1, Hlv1.
  eapply wp_mono.
  { apply (wp_recover coins q wals recss (add_tables rss (MkContents [] [] [])) e1 w1 Hi1 Hf1).
    - eapply Forall2_impl; [exact HL|]. unfold log_file. by rewrite Hw1.
    - apply Forall_forall. intros p Hin. by apply (wal_file_path dir), Hwals.
    - done.
    - done.
    - exact Hv.
    - rewrite B6. exact Hfit.
    - rewrite Hg1. lia. }
  intros r e2 w2 (-> & Hf2 & Hb2 & Hs2 & Hg2 & Hi2 & Hgr2 & Hgone). cbv beta iota.
  destruct Hb2 as (D1 & D2 & D3 & D4 & D5 & D6 & D7 & D8). wp_step.
  wp_step. rewrite u64_small by (unfold max_u64 in Hmg; lia). cbv zeta. do 2 wp_step. apply wp_lift.
  assert (e_dir e2 = dir) as Hdir by congruence.
  set (p := walFileName dir (e_genCounter e2 + 1)).
  destruct (Open_run_wal p w2 Hf2) as (w3 & E3 & Hf3 & Hw3). rewrite E3. wp_step.
  split; [done|]. unfold open_post. cbn. split_and!; try congruence; try done.
  - rewrite D6. exact B6.
  - rewrite Hs2, Hs1. lia.
  - by eexists.
  - destruct Hgr2 as [Et|[tid Et]]; rewrite Et.
    + exists []. rewrite Hlv1, app_nil_r. done.
    + exists [0%Z]. rewrite fmap_app, Hlv1. split; [done|by repeat constructor].
  - intros p' Hin Hne. rewrite Hw3 by done. by apply Hgone.
  - eexists. split; [|done]. eapply inv_wal_files.
    + pose proof (inv_opened (add_some (recovered (concat recss)) (add_tables rss (MkContents [] [] []))) q e2 w2
        (e_genCounter e2 + 1) (coins (e_genCounter e2 + 1)%N) Hi2) as Ho. rewrite Hdir in Ho.
      apply Ho; [by unfold add_some; destruct (recovered _)|congruence|congruence|lia].
    + intros p' Hnp. apply Hw3. intros ->. apply Hnp. apply last_walFileName.
Qed.

(** Reads of what was recovered are reads of the tables and the logs. *)
Lemma opened_reads rss recs key :
  StronglySorted N.lt (Wal.r_seq <$> recs) -> Forall (fun rec => Wal.r_seq rec <= unboundedSeq)%N recs ->
  NoDup (version <$> concat rss ++ recovered recs) ->
  newest key unboundedSeq (view (add_some (recovered recs) (MkContents [] [] rss))) =
  newest key unboundedSeq (concat rss ++ (log_rec <$> recs)).
Proof.
  intros Hs Hm Hnd.
  assert (view (add_some (recovered recs) (MkContents [] [] rss)) = concat rss ++ recovered recs) as ->.
  { unfold add_some. destruct (recovered recs) as [|r rs] eqn:E; [by rewrite app_nil_r|]. by rewrite view_add_table. }
  by rewrite !newest_app, (recovered_newest recs key unboundedSeq Hs Hm).
Qed.

Lemma Open_reads coins dir opts clock q w wals ssts rss recss :
  w_faults w = [] -> left_behind dir (o_compress (configured opts)) q w wals ssts rss recss ->
  StronglySorted N.lt (Wal.r_seq <$> concat recss) -> (q <= unboundedSeq)%N ->
  exists e w', Engine.Open coins dir opts clock w = (Ok e, w') /\ w_faults w' = [] /\
    e_closed e = false /\ e_seq e = max_seq 0 (concat recss) /\
    (forall p, p ∈ wals -> p <> e_walPath e -> w_files w' !! p = None) /\
    forall key, key <> [] -> exists w2, getAt key unboundedSeq e w' =
      (Ok (e, answer (newest key unboundedSeq (concat rss ++ (log_rec <$> concat recss)))), w2) /\ w_files w2 = w_files w'.
Proof.
  intros Hw Hlb Hs Hq. destruct (Open_run_dir coins dir opts clock q w wals ssts rss recss Hw Hlb) as (e & w' & E & Hpost).
  destruct Hpost as (Hf & _ & _ & Hc & Hseq & _ & _ & _ & _ & _ & _ & Hgone & c & Hi & ->). exists e, w'. split_and!; try done.
  intros key Hk. destruct (wp_run _ _ _ _ (wp_getAt_seq q _ e w' key unboundedSeq Hi)) as (r & e' & w2 & E2 & -> & Hw2 & _ & _ & Hr).
  destruct (Hr Hk Hc) as [-> |[_ H]]; [|done]. exists w2. split; [|done]. rewrite E2. do 3 f_equal.
  f_equal. apply opened_reads; [done| |by destruct Hlb]. eapply Forall_impl; [exact (lb_log_keys _ _ _ _ _ _ _ _ Hlb)|].
  intros rec [_ H]. lia.
Qed.

(** C20: opening a directory.  The directory holds intact tables and logs, the
    sequence numbers of the records increase strictly within each log and from
    each log to the next, no version (a key with its number) occurs twice, and what
    the logs hold fits a table ([left_behind]); no system call fails.  Then [Open] succeeds, and the new
    engine reads, for every key, the newest version among all tables and all
    records of all logs.  The logs it has recovered are gone, and the sequence
    counter is at the largest number in the logs. *)
Theorem open_recovers coins dir opts clock q w wals ssts rss recss :
  w_faults w = [] -> left_behind dir (o_compress (configured opts)) q w wals ssts rss recss ->
  StronglySorted N.lt (Wal.r_seq <$> concat recss) -> (q <= unboundedSeq)%N ->
  exists e w', Engine.Open coins dir opts clock w = (Ok e, w') /\ w_faults w' = [] /\
    e_closed e = false /\ e_seq e = max_seq 0 (concat recss) /\
    (forall p, p ∈ wals -> p <> e_walPath e -> w_files w' !! p = None) /\
    forall key, key <> [] -> exists w2, getAt key unboundedSeq e w' =
      (Ok (e, answer (newest key unboundedSeq (concat rss ++ (log_rec <$> concat recss)))), w2) /\ w_files w2 = w_files w'.
Proof. apply Open_reads. Qed.
End opening.
