(* ===== verification/Store.v ===== *)
(** * The engine as a map

    What the engine promises its clients, and that it keeps it: any sequence of
    writes, reads, snapshots, flushes and compactions, in any order the
    background workers may run in, behaves like a finite map.  [exec] runs one
    of the engine's methods or one round of a worker; [spec_step] is the map. *)

From S2P Require Import Prelude OrdMap GoIO IOLogic MemTable Versions SSTable Table Merge Metrics FileNames EngineState EngineLogic EngineInv Engine EngineRead EngineFlush EngineLogs EngineWrite EngineCompact.
From S2P Require Wal SkipList Bloom.
From stdpp Require Import base gmap sets list strings numbers fin_maps sorting.
Open Scope nat_scope.

Inductive event :=
| EvPut (key value : bytes)
| EvDelete (key : bytes)
| EvGet (key : bytes)
| EvFlush                       (** a round of the flush worker *)
| EvCompact                     (** a round of the compaction loop *)
| EvSnapshot
| EvRelease (s : Snapshot_).    (** [Snapshot.Close] *)

Inductive output :=
| ODone (r : unit + error)
| OValue (r : bytes + error)
| OSnapshot (r : Snapshot_ + error).

(** ** The specification *)

Record spec := MkSpec { sp_map : gmap bytes bytes; sp_seq : N }.

Definition lookup_answer (sp : spec) (key : bytes) : bytes + error :=
  match sp_map sp !! key with Some v => inl v | None => inr ErrNotFound end.

Definition spec_step (ev : event) (sp : spec) : output * spec :=
  match ev with
  | EvPut key value =>
      match key with
      | [] => (ODone (inr ErrEmptyKey), sp)
      | _ => (ODone (inl tt), MkSpec (<[key := value]> (sp_map sp)) (sp_seq sp + 1))
      end
  | EvDelete key =>
      match key with
      | [] => (ODone (inr ErrEmptyKey), sp)
      | _ => (ODone (inl tt), MkSpec (delete key (sp_map sp)) (sp_seq sp + 1))
      end
  | EvGet key => (OValue (match key with [] => inr ErrEmptyKey | _ => lookup_answer sp key end), sp)
  | EvFlush | EvCompact | EvRelease _ => (ODone (inl tt), sp)
  | EvSnapshot => (OSnapshot (inl (MkSnapshot (sp_seq sp) false)), sp)
  end.

Fixpoint spec_run (evs : list event) (sp : spec) : list output * spec :=
  match evs with
  | [] => ([], sp)
  | ev :: evs' => let (o, sp1) := spec_step ev sp in let (os, sp2) := spec_run evs' sp1 in (o :: os, sp2)
  end.

(** ** The engine *)

Section store.
Context `{FM : Bloom.FloatMath} `{FL : Flate} `{HFL : !FlateLaws FL}.
Context (coins : N -> list bool).

Definition exec (ev : event) : E output :=
  match ev with
  | EvPut key value => let? r := etry (Engine.Put coins key value) in eret (ODone r)
  | EvDelete key => let? r := etry (Engine.Delete coins key) in eret (ODone r)
  | EvGet key => let? r := etry (Engine.Get key) in eret (OValue r)
  | EvFlush => let? r := etry flushWorker_step in eret (ODone r)
  | EvCompact => let? r := etry compactionLoop_step in eret (ODone r)
  | EvSnapshot => let? r := etry Snapshot in eret (OSnapshot r)
  | EvRelease s => let? r := etry (Snapshot_Close s) in eret (ODone (match r with inl _ => inl tt | inr err => inr err end))
  end.

(** The calls of a run, out of their event. *)
Lemma wp_outcome {A} (m : E A) (f : A + error -> output) Q e w :
  wp (let? r := etry m in eret (f r)) Q e w ->
  wp (etry m) (fun x e' w' => exists r, x = inl r /\ Q (inl (f r)) e' w') e w.
Proof.
  unfold wp, etry, ebind, bind, eret, ret. destruct (m e w) as [[[e' r]|?|] w']; [|done|done]. intros H. by exists r.
Qed.

(** The same files, and no system call that fails. *)
Definition quiet (w : world) : world := MkWorld (w_files w) [].

(** A run without failing system calls. *)
Fixpoint run (evs : list event) (e : Engine) (w : world) : option (list output * Engine * world) :=
  match evs with
  | [] => Some ([], e, w)
  | ev :: evs' =>
      match exec ev e (quiet w) with
      | (Ok (e1, inl o), w1) =>
          match run evs' e1 w1 with Some (os, e2, w2) => Some (o :: os, e2, w2) | None => None end
      | _ => None
      end
  end.

(** ** The simulation *)

(** The engine [e] represents [sp]. *)
Record models (sp : spec) (c : contents) (e : Engine) (w : world) : Prop := {
  md_inv : inv c e w;
  md_layered : layered c e;
  md_order : in_order e;
  md_levels : levels_ok e;
  md_config : config_ok (e_opts e);
  md_open : e_closed e = false;
  md_wal : bw_err (Wal.wal_w (e_wal e)) = false;
  md_seq : e_seq e = sp_seq sp /\ (e_seq e <= max_u64)%N;
  md_map : forall key, Value <$> live (newest key unboundedSeq (view c)) = sp_map sp !! key }.

(** The limits of the implementation: 64-bit counters, and tables whose format
    can hold the MemTables to flush and the tables to merge. *)
Definition flush_fits (e : Engine) : Prop :=
  Forall (fun ie => exists rs, buildRecords (im_mt ie) = Some rs /\ flushable (o_compress (e_opts e)) rs) (e_imm e).

Definition within_limits (ev : event) (e : Engine) (w : world) : Prop :=
  match ev with
  | EvPut _ _ | EvDelete _ => (e_seq e < max_u64)%N /\ (e_genCounter e + 1 < max_u64)%N /\ flush_fits e
  | EvFlush => (e_genCounter e < max_u64)%N /\ flush_fits e
  | EvCompact => (e_genCounter e < max_u64)%N /\ forall c, inv c e w -> mergeable c e
  | _ => True
  end.

Definition work_event (x : work) : event := match x with FlushRound => EvFlush | CompactRound => EvCompact end.

(** Every round finds the engine within its limits. *)
Fixpoint work_within (ws : list work) (e : Engine) (w : world) : Prop :=
  match ws with
  | [] => True
  | x :: ws' => within_limits (work_event x) e w /\
      match work_round x e w with (Ok (e1, _), w1) => work_within ws' e1 w1 | _ => True end
  end.

Lemma flush_fits_imm c e w : inv c e w -> flush_fits e -> Forall (flushable (o_compress (e_opts e))) (c_imm c).
Proof.
  intros Hi Hf. apply Forall_forall. intros l Hl. apply list_elem_of_lookup in Hl as [i Hl].
  destruct (Forall2_lookup_r _ _ _ _ _ (inv_imm _ _ _ Hi) Hl) as (ie & Hie & Hm & _).
  unfold flush_fits in Hf. rewrite Forall_forall in Hf.
  destruct (Hf ie ltac:(by eapply list_elem_of_lookup_2)) as (rs & E & Hrs).
  rewrite (buildRecords_holds _ _ Hm) in E. by injection E as <-.
Qed.

Lemma inv_quiet c e w : inv c e w -> inv c e (quiet w).
Proof. intros Hi. by eapply inv_world; [|apply same_known_eq]. Qed.

Lemma levels_grown e e' : levels_ok e -> config_ok (e_opts e) -> e_opts e' = e_opts e -> grown e e' -> levels_ok e'.
Proof.
  intros Hl [_ Hc] Eo [Et|[tid Et]]; unfold levels_ok in *; rewrite Eo, Et; [done|].
  apply Forall_app. split; [done|]. repeat constructor. cbn. lia.
Qed.

Lemma answer_lookup sp c e w key :
  models sp c e w -> answer (newest key unboundedSeq (view c)) = lookup_answer sp key.
Proof.
  intros Hm. unfold lookup_answer. rewrite <- (md_map _ _ _ _ Hm). unfold answer. by destruct (live _).
Qed.

(** The key an event writes. *)
Definition written (ev : event) : option bytes :=
  match ev with EvPut key _ | EvDelete key => Some key | _ => None end.

(** Reads bounded by an open snapshot give the same answer, unless the event
    overwrites the version they see in the active MemTable. *)
Definition stable (ev : event) (c : contents) (e : Engine) (c' : contents) : Prop :=
  forall key m, is_Some (e_activeSnapshots e !! m) -> (m <= e_seq e)%N ->
    (written ev = Some key -> forall r, r ∈ c_mem c -> Key r = key -> (m < Seq r)%N) ->
    answer (newest key m (view c')) = answer (newest key m (view c)).

(** The version an event writes over an engine at sequence number [q]. *)
Definition new_version (ev : event) (q : N) : option Record :=
  match ev with
  | EvPut key value => Some (write_rec false key value (q + 1))
  | EvDelete key => Some (write_rec true key [] (q + 1))
  | _ => None
  end.

(** An event adds no other version. *)
Definition only_newer (ev : event) (c : contents) (e : Engine) (c' : contents) : Prop :=
  forall r, r ∈ view c' -> r ∈ view c \/ new_version ev (e_seq e) = Some r.

(** The log can hold the write. *)
Definition loggable (ev : event) : Prop :=
  match ev with
  | EvPut key value => (N.of_nat (length key) <= Wal.maxReasonableLen)%N /\ (N.of_nat (length value) <= Wal.maxReasonableLen)%N
  | EvDelete key => (N.of_nat (length key) <= Wal.maxReasonableLen)%N
  | _ => True
  end.

(** A step of the engine that answers like the map, and keeps its snapshots and
    what is on disk. *)
Definition simulates (ev : event) (sp : spec) (c : contents) (e : Engine) (w : world) (r : output + error) (e' : Engine) (w' : world) : Prop :=
  r = inl (spec_step ev sp).1 /\ (loggable ev -> durable e w -> durable e' w') /\ exists c', models (spec_step ev sp).2 c' e' w' /\ stable ev c e c' /\ only_newer ev c e c'.

Lemma unchanged ev c e : stable ev c e c /\ only_newer ev c e c.
Proof. split; [done|by left]. Qed.

Lemma only_newer_reads ev c e c' : unique_versions (view c') -> same_reads c c' -> only_newer ev c e c'.
Proof. intros Hu H r Hr. left. eapply newest_elem_of; [exact Hu|exact Hr|apply H]. Qed.

Lemma only_newer_put ev c e c' rec :
  unique_versions (view c') -> new_version ev (e_seq e) = Some rec -> put_reads c rec c' -> only_newer ev c e c'.
Proof.
  intros Hu Hs Hp r Hr. specialize (Hp (Key r) (Seq r)). rewrite (newest_self _ _ Hu Hr) in Hp. case_decide.
  - right. by injection Hp as <-.
  - left. apply eq_sym, newest_Some in Hp as [Hin _]. revert Hin. rewrite (view_split (drop_mem _ _)), (view_split c), !elem_of_app.
    cbn. intros [[_ ?]%list_elem_of_filter|?]; auto.
Qed.

Lemma stable_reads ev c e c' : same_reads c c' -> stable ev c e c'.
Proof. intros H key m _ _ _. by rewrite H. Qed.

Lemma stable_put ev c e c' rec :
  written ev = Some (Key rec) -> (e_seq e < Seq rec)%N -> put_reads c rec c' -> stable ev c e c'.
Proof.
  intros Hev Hs Hp key m _ Hm Hw. rewrite Hp, decide_False by (intros [_ ?]; lia). f_equal.
  destruct (decide (key = Key rec)) as [->|Hne]; [|by apply drop_mem_other].
  rewrite (view_split (drop_mem _ _)), (view_split c), !newest_app. f_equal. cbn.
  transitivity (@None Record); [|symmetry]; apply newest_None; intros r Hr [Hk Hle].
  - by apply list_elem_of_filter in Hr as [? _].
  - specialize (Hw Hev r Hr Hk). lia.
Qed.

Lemma sim_write (del : bool) key value sp c e w :
  models sp c e w -> w_faults w = [] -> within_limits (if del then EvDelete key else EvPut key value) e w ->
  let ev := if del then EvDelete key else EvPut key value in
  wp (exec ev) (simulates ev sp c e w) e w.
Proof.
  intros Hm Hw Hlim ev. pose proof (md_inv _ _ _ _ Hm) as Hi.
  assert ((e_seq e < max_u64)%N /\ (e_genCounter e + 1 < max_u64)%N /\ flush_fits e) as (Hs & Hg & Hfit) by by destruct del.
  pose proof (flush_fits_imm _ _ _ Hi Hfit) as Hfl.
  assert (exec ev = (let? r := etry (write_op coins del key value) in eret (ODone r))) as -> by (by destruct del).
  do 2 wp_step. eapply wp_mono; [by apply (wp_write_op coins del c e w key value)|].
  intros r e' w' (H0 & _ & H1). wp_step. unfold simulates. destruct (decide (key = [])) as [Hk|Hk].
  { destruct (H0 Hk) as (-> & -> & ->). unfold ev. rewrite Hk. destruct del; (split; [done|]); (split; [done|]); exists c; (split; [done|apply unchanged]). }
  destruct (H1 Hk (md_open _ _ _ _ Hm)) as ((K1 & K2 & K3 & K4) & Hseq & Hok & Hgr & c' & Hi' & HL & Hput & Hfs).
  destruct (Hok Hw (md_wal _ _ _ _ Hm)) as [-> Hbe].
  destruct Hput as [Hput|[[err [=]] _]].
  destruct (HL (md_layered _ _ _ _ Hm) (md_order _ _ _ _ Hm)) as [HL' [Ho|Hf]]; [|by rewrite Hw in Hf].
  assert (spec_step ev sp = (ODone (inl tt), MkSpec (if del then delete key (sp_map sp) else <[key := value]> (sp_map sp)) (sp_seq sp + 1)))
    as -> by (unfold ev; destruct del, key; done).
  split; [done|]. split.
  { intros Hlg Hd. apply Hfs; [| |apply Hm|apply Hm|done|done]; unfold ev in Hlg; destruct del; cbn in Hlg |- *; try apply Hlg.
    unfold Wal.maxReasonableLen. lia. }
  exists c'. split; [split; try done|].
  - eapply levels_grown; [apply Hm|apply Hm|done|done].
  - rewrite K3. apply Hm.
  - rewrite K2. apply Hm.
  - cbn [sp_seq]. rewrite Hseq, <- (proj1 (md_seq _ _ _ _ Hm)). split; [done|lia].
  - cbn [sp_map]. intros k. pose proof (put_map c (write_rec del key value (e_seq e + 1)) c' (sp_map sp) Hput) as Hpm.
    destruct del; cbn in Hpm; (apply Hpm; [unfold unboundedSeq; lia|apply Hm]).
  - split.
    + eapply stable_put; [| |exact Hput]; [unfold ev; by destruct del|destruct del; cbn; lia].
    + eapply only_newer_put; [by eapply inv_unique| |exact Hput]. unfold ev. by destruct del.
Qed.

Lemma models_same sp c e e' w w' :
  models sp c e w -> inv c e' w' -> e_tables e' = e_tables e -> e_flushCh e' = e_flushCh e -> e_imm e' = e_imm e ->
  e_opts e' = e_opts e -> e_closed e' = e_closed e -> e_wal e' = e_wal e -> e_seq e' = e_seq e -> models sp c e' w'.
Proof.
  intros [] Hi Ht Hf Him Ho Hc Hwl Hs. split; unfold in_order, levels_ok in *; rewrite ?Ht, ?Hf, ?Him, ?Ho, ?Hc, ?Hwl, ?Hs; try done.
  destruct md_layered0. split; rewrite ?Ht; done.
Qed.

Lemma sim_get key sp c e w :
  models sp c e w -> w_faults w = [] -> wp (exec (EvGet key)) (simulates (EvGet key) sp c e w) e w.
Proof.
  intros Hm Hw. pose proof (md_inv _ _ _ _ Hm) as Hi. cbn [exec]. unfold Engine.Get. do 4 wp_step.
  eapply wp_mono; [by eapply wp_getAt|]. intros r ? w1 (-> & Hw1 & H0 & _ & H1). wp_step.
  assert (r = match key with [] => inr ErrEmptyKey | _ => lookup_answer sp key end) as Hr.
  { destruct key as [|b key]; [by apply H0|]. destruct (H1 ltac:(done) (md_open _ _ _ _ Hm)) as [-> |[_ Hf]]; [|done].
    by eapply answer_lookup. }
  unfold recordGet, observe_since, inc.
  assert (forall e2, e_dir e2 = e_dir e -> e_memId e2 = e_memId e -> e_mem e2 = e_mem e -> e_wal e2 = e_wal e ->
    e_walPath e2 = e_walPath e -> e_imm e2 = e_imm e -> e_tables e2 = e_tables e -> e_seq e2 = e_seq e ->
    e_genCounter e2 = e_genCounter e -> e_flushCh e2 = e_flushCh e -> e_store e2 = e_store e ->
    e_nextTable e2 = e_nextTable e -> e_opts e2 = e_opts e -> e_closed e2 = e_closed e ->
    simulates (EvGet key) sp c e w (inl (OValue r)) e2 w1) as Hdone.
  { intros e2 E1 E2 E3 E4 E5 E6 E7 E8 E9 E10 E11 E12 E13 E14. split; [by rewrite Hr|].
    split; [intros _ Hd; by apply (durable_same e e2 w w1)|]. exists c. split; [|apply unchanged].
    eapply models_same; [exact Hm| |done..]. eapply inv_irrelevant; [exact Hi|done..]. }
  destruct r as [v|err]; cbn [err_opt]; wp_steps; [by apply Hdone|].
  destruct (errors_Is err ErrNotFound); wp_steps; by apply Hdone.
Qed.

Lemma same_reads_map sp c c' :
  same_reads c c' -> (forall key, Value <$> live (newest key unboundedSeq (view c)) = sp_map sp !! key) ->
  forall key, Value <$> live (newest key unboundedSeq (view c')) = sp_map sp !! key.
Proof. intros Hr Hm key. by rewrite Hr. Qed.

Lemma sim_flush sp c e w :
  models sp c e w -> w_faults w = [] -> within_limits EvFlush e w -> wp (exec EvFlush) (simulates EvFlush sp c e w) e w.
Proof.
  intros Hm Hw (Hg & Hfit). pose proof (md_inv _ _ _ _ Hm) as Hi. pose proof (flush_fits_imm _ _ _ Hi Hfit) as Hfl. cbn [exec]. do 2 wp_step.
  eapply wp_mono.
  { apply (wp_flushWorker_step [] c e w Hi); [exists (e_imm e); rewrite app_nil_r; split; [done|apply Hi]| |lia].
    intros ls [|l ls'] E Hl; [|done]. rewrite app_nil_r in E. by rewrite <- E. }
  intros r e' w' Hpost. pose proof Hpost as (-> & Hst & _ & _ & _ & Hgr & _ & c' & Hi' & Hr & _ & _ & _ & HL). wp_step.
  split; [done|]. split.
  { intros _ Hd. apply (durable_flush [] c e w (inl tt)); try done; [apply Hm|]. apply in_order_nil, Hm. }
  exists c'.
  destruct Hst as (S1 & S2 & S3 & S4 & S5 & S6 & S7 & S8 & S9).
  destruct (HL (md_layered _ _ _ _ Hm)) as [HL' Ho]; [apply in_order_nil, Hm|].
  split; [|split; [by apply stable_reads|by apply only_newer_reads; [by eapply inv_unique|]]]. split; try done.
  - apply in_order_nil. by destruct Ho as [|Hf]; [|rewrite Hw in Hf].
  - eapply levels_grown; [apply Hm|apply Hm|done|done].
  - rewrite S4. apply Hm.
  - rewrite S2. apply Hm.
  - rewrite S8. apply Hm.
  - rewrite S3. apply Hm.
  - eapply same_reads_map; [done|apply Hm].
Qed.

Lemma sim_compact sp c e w :
  models sp c e w -> w_faults w = [] -> within_limits EvCompact e w -> wp (exec EvCompact) (simulates EvCompact sp c e w) e w.
Proof.
  intros Hm Hw (Hg & Hlim). pose proof (md_inv _ _ _ _ Hm) as Hi. pose proof (Hlim c Hi) as Hmg. cbn [exec].
  unfold compactionLoop_step. do 4 wp_step. destruct (e_compactCh e).
  2: { wp_steps. split; [done|]. split; [done|]. exists c. by split; [|apply unchanged]. }
  set (e1 := set_compactCh false e). do 4 wp_step. fold e1.
  assert (models sp c e1 w) as Hm1 by (eapply models_same; [exact Hm| |done..]; eapply inv_irrelevant; [exact Hi|done..]).
  eapply wp_mono.
  { by apply (wp_runCompaction c e1 w); [apply Hm1|apply Hm1|apply Hm1|apply Hm1|exact Hmg|cbn; lia]. }
  intros r e2 w2 (Hst & Hq & Him & Hdur & Hr). destruct Hr as [[-> (c' & Hi' & Hl & HL' & Hlv & _ & _ & Hsub)]|[_ Hf]]; [|done].
  wp_steps. split; [done|]. split; [intros _ Hd; apply Hdur; [done|]; by apply (durable_same e e1 w w)|].
  exists c'. destruct Hst as (S1 & S2 & S3 & S4 & S5 & S6 & S7 & S8 & S9).
  destruct (minActive_spec (e_activeSnapshots e1)) as (Hmax & Hmin & _).
  split.
  2: { split; [|intros r Hr; left; by apply (pass_leaves_sub c e1 w _ _ (md_inv _ _ _ _ Hm1) Hsub)]. intros key m Hsn _ _. unfold answer. rewrite Hl; [done|]. by apply Hmin. }
  split; try done.
  - unfold in_order. rewrite Hq, Him. apply Hm.
  - rewrite S4. apply Hm.
  - rewrite S2. apply Hm.
  - rewrite S8. apply Hm.
  - rewrite S3. apply Hm.
  - intros key. rewrite <- (md_map _ _ _ _ Hm). cbn [spec_step snd]. rewrite Hl; [done|]. exact Hmax.
Qed.

Lemma sim_snapshot sp c e w : models sp c e w -> wp (exec EvSnapshot) (simulates EvSnapshot sp c e w) e w.
Proof.
  intros Hm. cbn [exec]. unfold Snapshot, snapshot_load, snapshot_register. do 5 wp_step. rewrite (md_open _ _ _ _ Hm). unfold inc, gauge_add. wp_steps.
  split; [cbn; by rewrite (proj1 (md_seq _ _ _ _ Hm))|]. split; [intros _ Hd; by apply (durable_same e _ w w)|]. exists c. cbn [spec_step snd]. split; [|apply unchanged].
  eapply models_same; [exact Hm| |done..]. eapply inv_irrelevant; [apply Hm|done..].
Qed.

Lemma sim_release s sp c e w : models sp c e w -> wp (exec (EvRelease s)) (simulates (EvRelease s) sp c e w) e w.
Proof.
  intros Hm. cbn [exec]. unfold Snapshot_Close, gauge_add. do 2 wp_step. destruct (s_closed s); wp_steps; (split; [done|]);
    (split; [intros _ Hd; by apply (durable_same e _ w w)|]); exists c; (split; [|apply unchanged]); [done|].
  eapply models_same; [exact Hm| |done..]. eapply inv_irrelevant; [apply Hm|done..].
Qed.

Lemma sim_step ev sp c e w :
  models sp c e w -> w_faults w = [] -> within_limits ev e w -> wp (exec ev) (simulates ev sp c e w) e w.
Proof.
  intros Hm Hw Hl. destruct ev as [key value|key|key| | | |s].
  - by apply (sim_write false key value sp c).
  - by apply (sim_write true key [] sp c).
  - by apply (sim_get key sp c).
  - by apply (sim_flush sp c).
  - by apply (sim_compact sp c).
  - by apply (sim_snapshot sp c).
  - by apply (sim_release s sp c).
Qed.

(** What an engine holds is determined. *)
Lemma reads_unique {A} (m : M A) a b : reads m a -> reads m b -> a = b.
Proof.
  intros Ha Hb. specialize (Ha ∅ (MkWorld ∅ []) eq_refl). specialize (Hb ∅ (MkWorld ∅ []) eq_refl).
  destruct (m (MkWorld ∅ [])) as [[x|err|] w]; [|done|done]. by destruct Ha as [[-> _] _], Hb as [[-> _] _].
Qed.

Lemma holds_unique t rs rs' : holds t rs -> holds t rs' -> rs = rs'.
Proof.
  intros [_ H _ _ _ _] [_ H' _ _ _ _]. revert rs' H'. induction H as [|ie r ies rs [_ Hr] H IH]; intros rs' H'.
  - by apply Forall2_nil_inv_l in H'.
  - apply Forall2_cons_inv_l in H' as (r' & rs2 & [_ Hr'] & H' & ->). f_equal; [by eapply reads_unique|by apply IH].
Qed.

Lemma mem_holds_unique_records mt rs rs' : mem_holds mt rs -> mem_holds mt rs' -> rs = rs'.
Proof.
  intros H H'. pose proof (buildRecords_holds _ _ H) as E. rewrite (buildRecords_holds _ _ H') in E. by injection E.
Qed.

Lemma Forall2_unique {A B} (R : A -> B -> Prop) l k k' :
  (forall x y y', R x y -> R x y' -> y = y') -> Forall2 R l k -> Forall2 R l k' -> k = k'.
Proof.
  intros HR H. revert k'. induction H as [|x y l k Hx H IH]; intros k' H'; [by apply Forall2_nil_inv_l in H'|].
  apply Forall2_cons_inv_l in H' as (y' & k2 & Hx' & H' & ->). f_equal; [by eapply HR|by apply IH].
Qed.

Lemma contents_unique c c' e w w' : inv c e w -> inv c' e w' -> c = c'.
Proof.
  intros H H'. destruct c as [m1 i1 t1], c' as [m2 i2 t2]. f_equal.
  - exact (mem_holds_unique_records _ _ _ (inv_mem _ _ _ H) (inv_mem _ _ _ H')).
  - eapply Forall2_unique; [|exact (inv_imm _ _ _ H)|exact (inv_imm _ _ _ H')].
    intros ie l l' [Hl _] [Hl' _]. by eapply mem_holds_unique_records.
  - pose proof (inv_tables _ _ _ H) as HT. pose proof (inv_tables _ _ _ H') as HT'. cbn in HT, HT'. clear -HT HT'.
    revert t2 HT'. induction HT as [|lt rs lts t1 Hok HT IH]; intros t2 HT'; [by apply Forall2_nil_inv_l in HT'|].
    apply Forall2_cons_inv_l in HT' as (rs' & t3 & Hok' & HT' & ->). f_equal; [|by apply IH].
    destruct (tok_table _ _ _ _ Hok) as (t & g & Et & Hh & _), (tok_table _ _ _ _ Hok') as (t' & g' & Et' & Hh' & _).
    rewrite Et in Et'. injection Et' as <-. by eapply holds_unique.
Qed.

(** Every event of a run finds the engine within the limits. *)
Fixpoint run_within (evs : list event) (e : Engine) (w : world) : Prop :=
  match evs with
  | [] => True
  | ev :: evs' => within_limits ev e (quiet w) /\
      match exec ev e (quiet w) with (Ok (e1, inl _), w1) => run_within evs' e1 w1 | _ => True end
  end.

Lemma sim_run evs sp c e w :
  models sp c e w -> run_within evs e w ->
  exists e' w' c', run evs e w = Some ((spec_run evs sp).1, e', w') /\ models (spec_run evs sp).2 c' e' w' /\
    (Forall loggable evs -> durable e w -> durable e' w').
Proof.
  revert sp c e w. induction evs as [|ev evs IH]; intros sp c e w Hm Hl; [by exists e, w, c|].
  destruct Hl as [Hl Hn]. cbn [run spec_run].
  assert (models sp c e (quiet w)) as Hmq by (eapply models_same; [exact Hm|apply inv_quiet, Hm|done..]).
  destruct (wp_run _ _ _ _ (sim_step ev sp c e (quiet w) Hmq eq_refl Hl)) as (r & e1 & w1 & E & -> & Hd1 & c1 & Hm1 & _).
  rewrite E in Hn |- *. destruct (spec_step ev sp) as [o sp1]. cbn [fst snd] in *.
  destruct (IH sp1 c1 e1 w1 Hm1 Hn) as (e2 & w2 & c2 & E2 & Hm2 & Hd2). rewrite E2.
  destruct (spec_run evs sp1) as [os sp2]. exists e2, w2, c2. split_and!; [done|done|].
  intros [Hlg Hlgs]%Forall_cons Hd. apply Hd2; [done|]. apply Hd1; [done|]. by apply (durable_same e e w (quiet w)).
Qed.

(** ** Properties *)

(** C3: the store is a map.  From any state that represents a map, every run of
    puts, deletes, gets, snapshots and rounds of the flush and compaction
    workers, in any order, in which no system call fails and the limits are not
    exceeded, goes through without a panic, answers every call as the map does
    and ends in a state that represents the map after the writes. *)
Theorem store_refines_map evs sp c e w :
  models sp c e w -> run_within evs e w ->
  exists e' w', run evs e w = Some ((spec_run evs sp).1, e', w') /\
    exists c', models (spec_run evs sp).2 c' e' w'.
Proof.
  intros Hm Hl. destruct (sim_run evs sp c e w Hm Hl) as (e' & w' & c' & E & Hm' & _). eauto.
Qed.

(** Along the run the snapshot at [m] stays open, and no write of [key] finds in
    the active MemTable the version that the snapshot sees. *)
Fixpoint run_keeps (m : N) (key : bytes) (evs : list event) (e : Engine) (w : world) : Prop :=
  match evs with
  | [] => True
  | ev :: evs' =>
      (written ev = Some key -> forall en, MemTable.Get (e_mem e) key = Some (en, true) -> (m < MemTable.e_seq en)%N) /\
      match exec ev e (quiet w) with
      | (Ok (e1, inl _), w1) => is_Some (e_activeSnapshots e1 !! m) /\ run_keeps m key evs' e1 w1
      | _ => True
      end
  end.

Lemma run_stable evs sp c e w key m :
  models sp c e w -> run_within evs e w -> is_Some (e_activeSnapshots e !! m) -> (m <= e_seq e)%N -> run_keeps m key evs e w ->
  exists os e' w' c', run evs e w = Some (os, e', w') /\ models (spec_run evs sp).2 c' e' w' /\
    answer (newest key m (view c')) = answer (newest key m (view c)).
Proof.
  revert sp c e w. induction evs as [|ev evs IH]; intros sp c e w Hm Hl Hsn Hle Hk; [by exists [], e, w, c|].
  destruct Hl as [Hl Hn]. destruct Hk as [Hw Hk]. cbn [run spec_run].
  assert (models sp c e (quiet w)) as Hmq by (eapply models_same; [exact Hm|apply inv_quiet, Hm|done..]).
  destruct (wp_run _ _ _ _ (sim_step ev sp c e (quiet w) Hmq eq_refl Hl)) as (r & e1 & w1 & E & -> & _ & c1 & Hm1 & Hs1 & _).
  rewrite E in Hn, Hk |- *. destruct Hk as [Hsn1 Hk].
  assert (sp_seq sp <= sp_seq (spec_step ev sp).2)%N as Hseq.
  { destruct ev as [[|b k] v|[|b k]|k| | | |]; cbn; lia. }
  destruct (spec_step ev sp) as [o sp1]. cbn [fst snd] in *.
  destruct (IH sp1 c1 e1 w1 Hm1 Hn Hsn1) as (os & e2 & w2 & c2 & E2 & Hm2 & Ha); [|done|].
  { rewrite (proj1 (md_seq _ _ _ _ Hm1)). rewrite (proj1 (md_seq _ _ _ _ Hm)) in Hle. lia. }
  rewrite E2. destruct (spec_run evs sp1) as [os2 sp2]. exists (o :: os), e2, w2, c2. split_and!; [done|done|].
  rewrite Ha. apply Hs1; [done|done|]. intros Hev r Hr Hkr.
  destruct (mem_holds_get _ _ key (inv_mem _ _ _ (md_inv _ _ _ _ Hm))) as (en & ok & Eg & Hok).
  destruct ok; [|by destruct (Hok r Hr)]. specialize (Hw Hev en Eg).
  by rewrite (mem_holds_unique _ _ r _ (inv_mem _ _ _ (md_inv _ _ _ _ Hm)) Hr Hok).
Qed.

Lemma wp_Snapshot_Get c e w s key :
  inv c e w ->
  wp (Snapshot_Get s key) (fun r e' w' => w_files w' = w_files w /\ (key = [] -> r = inr ErrEmptyKey) /\
    (key <> [] -> e_closed e = false -> read_ok key (s_seq s) c w r)) e w.
Proof.
  intros Hi. unfold Snapshot_Get. do 2 wp_step. eapply wp_mono; [by apply (wp_getAt c)|].
  intros r ? w1 (-> & Hw1 & H0 & _ & H1). wp_step. unfold recordGet, observe_since, inc.
  destruct r as [v|err]; cbn [err_opt]; wp_steps; [done|]. destruct (errors_Is err ErrNotFound); wp_steps; done.
Qed.

(** A bound that excludes nothing. *)
Lemma newest_bound key m m' l : Forall (fun r => Seq r <= m)%N l -> (m <= m')%N -> newest key m l = newest key m' l.
Proof.
  intros Hl Hm. induction Hl as [|r l Hr Hl IH]; [done|]. cbn [newest]. rewrite IH.
  destruct (decide (sees key m r)) as [[? ?]|Hn], (decide (sees key m' r)) as [[? ?]|Hn']; try done;
    [destruct Hn'|destruct Hn]; (split; [done|lia]).
Qed.

(** C10: snapshots.  A snapshot taken when the store represents a map gives, for
    every key, the answer of that map after any run of writes, snapshots, flushes and
    compactions without failing system calls, as long as it is not closed and
    the key is not overwritten while the version it sees is still in the active
    MemTable. *)
Theorem snapshot_isolation evs sp c e w key e1 s w1 :
  models sp c e w -> key <> [] ->
  Snapshot e (quiet w) = (Ok (e1, inl s), w1) -> run_within evs e1 w1 -> run_keeps (s_seq s) key evs e1 w1 ->
  exists os e2 w2 r e3 w3, run evs e1 w1 = Some (os, e2, w2) /\
    Snapshot_Get s key e2 (quiet w2) = (Ok (e3, r), w3) /\ r = lookup_answer sp key.
Proof.
  intros Hm Hk E Hl Hkp.
  assert (w1 = quiet w /\ models sp c e1 w1 /\ s_seq s = e_seq e1 /\ is_Some (e_activeSnapshots e1 !! s_seq s))
    as (-> & Hm1 & Hs & Hsn).
  { assert (wp Snapshot (fun r e' w' => exists s, r = inl s /\ w' = quiet w /\ models sp c e' w' /\ s_seq s = e_seq e' /\
      is_Some (e_activeSnapshots e' !! s_seq s)) e (quiet w)) as H.
    { unfold Snapshot, snapshot_load, snapshot_register. do 3 wp_step. rewrite (md_open _ _ _ _ Hm). unfold inc, gauge_add. wp_steps.
      eexists. split_and!; [done|done| |done|cbn; rewrite lookup_insert_eq; by eexists].
      eapply models_same; [exact Hm| |done..]. eapply inv_irrelevant; [apply Hm|done..]. }
    unfold wp in H. rewrite E in H. destruct H as (s' & [= ->] & ?). done. }
  destruct (run_stable evs sp c e1 _ key (s_seq s) Hm1 Hl Hsn ltac:(lia) Hkp) as (os & e2 & w2 & c2 & E2 & Hm2 & Ha).
  destruct (wp_run _ _ _ _ (wp_Snapshot_Get c2 e2 (quiet w2) s key (inv_quiet _ _ _ (md_inv _ _ _ _ Hm2)))) as (r & e3 & w3 & E3 & _ & _ & Hr).
  exists os, e2, w2, r, e3, w3. split_and!; [done|done|].
  destruct (Hr Hk (md_open _ _ _ _ Hm2)) as [-> |[_ Hf]]; [|done].
  rewrite Ha, <- (answer_lookup sp c e w key Hm). f_equal. apply newest_bound.
  - rewrite Hs. eapply Forall_impl; [apply (inv_keys _ _ _ (md_inv _ _ _ _ Hm1))|]. by intros r' [_ ?].
  - rewrite Hs. apply (md_seq _ _ _ _ Hm1).
Qed.
End store.
