(* ===== verification/EngineRestart.v ===== *)
(** * Restarting

    What is on disk while the store runs is enough to rebuild it: after any sequence
    of whole methods and worker rounds, a crash and [Open] give an engine that
    answers like the map.  Crashes inside a method are not modelled here; Wal.v and
    SSTable.v treat those inside an append and inside the writing of a table. *)

From S2P Require Import Prelude OrdMap GoIO IOLogic MemTable Versions SSTable Table Merge Metrics FileNames EngineState EngineLogic EngineInv Engine EngineRead EngineFlush EngineLogs EngineWrite EngineCompact EngineOpen Store.
From S2P Require Wal SkipList Bloom.
From Stdlib Require Import Ascii.
From stdpp Require Import base gmap sets list strings numbers fin_maps sorting.
Open Scope nat_scope.

(** ** Crashes *)

(** The process is gone, or the machine lost power: the files are there, and
    those that were entirely on disk hold what they held.  As in [crash] (GoIO.v),
    creations, renames and removals are taken to be on disk when the call returns;
    the code syncs files and never a directory, so on a file system that keeps
    directory entries back a whole new log or table could be gone. *)
Definition restarts (w w' : world) : Prop :=
  w_faults w' = [] /\ (forall p, is_Some (w_files w' !! p) <-> is_Some (w_files w !! p)) /\
  forall p f, w_files w !! p = Some f -> f_synced f = length (f_data f) -> exists n, w_files w' !! p = Some (MkFile (f_data f) n).

(** ** Logs *)

(** The records in the logs of [ls], and what recovery makes of them. *)
Definition log_records (w : world) (p : string) : list Wal.Record_ :=
  match w_files w !! p with Some f => Wal.parse (f_data f) | None => [] end.

Definition unflushed (ls : list immEntry) (w : world) : list Record :=
  recovered (concat ((fun ie => log_records w (im_walPath ie)) <$> ls)).

Lemma recovered_app_elem l1 l2 r : r ∈ recovered (l1 ++ l2) -> r ∈ recovered l1 \/ r ∈ recovered l2.
Proof.
  unfold recovered. induction l2 as [|rec l2 IH] using rev_ind; [rewrite app_nil_r; by left|].
  rewrite app_assoc, !replayed_snoc. intros (kv & -> & Hin)%list_elem_of_fmap.
  apply elem_of_om_insert in Hin; [|apply replayed_sorted; constructor]. destruct Hin as [->|[Hin Hne]].
  - right. apply list_elem_of_fmap_2, elem_of_om_insert; [apply replayed_sorted; constructor|by left].
  - destruct IH as [IH|IH]; [by apply list_elem_of_fmap_2|by left|right].
    apply list_elem_of_fmap in IH as (kv' & E & Hin'). rewrite E. apply list_elem_of_fmap_2.
    apply elem_of_om_insert; [apply replayed_sorted; constructor|]. right. split; [done|].
    destruct kv, kv'. injection E as -> _ _ _. done.
Qed.

Lemma recovered_concat_elem recss r : r ∈ recovered (concat recss) -> r ∈ concat (recovered <$> recss).
Proof.
  induction recss as [|recs recss IH]; [done|]. cbn. intros [H|H]%recovered_app_elem; apply elem_of_app; auto.
Qed.

Lemma recovered_versions recs : NoDup (version <$> recovered recs).
Proof.
  apply NoDup_fmap_2_strong; [intros r s Hr Hs [= Hk _]; by apply (recovered_unique recs)|].
  unfold recovered. apply NoDup_fmap_2; [intros [k e] [k' e']; cbn; intros [= -> H1 H2 H3]; destruct e, e'; cbn in *; congruence|].
  assert (sorted_keys (replayed [] recs)) as Hs by (apply replayed_sorted; constructor).
  apply (NoDup_fmap_1 fst). induction Hs as [|k l Hl IH Hk]; [constructor|]. constructor; [|done].
  intros Hin. rewrite Forall_forall in Hk. by apply (irreflexivity bytes_lt k), Hk.
Qed.

(** Logs written one after the other read as the MemTables they stand for. *)
Lemma logs_newest recss key m :
  StronglySorted N.lt (Wal.r_seq <$> concat recss) -> Forall (fun rec => Wal.r_seq rec <= m)%N (concat recss) ->
  newest key m (log_rec <$> concat recss) = newest key m (concat (recovered <$> recss)).
Proof.
  induction recss as [|recs recss IH]; [done|]. cbn. rewrite !fmap_app, !newest_app. intros Hs [H1 H2]%Forall_app.
  rewrite IH by (by apply StronglySorted_app_1_r in Hs || done).
  by rewrite (recovered_newest recs) by (by apply StronglySorted_app_1_l in Hs || done).
Qed.

Section restart.
Context `{FM : Bloom.FloatMath} `{FL : Flate} `{HFL : !FlateLaws FL}.

Lemma parse_logged recs : Forall (fun rec => Wal.valid rec /\ known_type rec /\ Wal.r_key rec <> []) recs -> Wal.parse (Wal.encode_all recs) = recs.
Proof.
  intros Hv. rewrite <- (app_nil_r (Wal.encode_all recs)), Wal.parse_encode_all; [by rewrite app_nil_r|].
  eapply Forall_impl; [exact Hv|]. by intros rec [? _].
Qed.

Lemma restart_log dir w w' ie recs : log_ok dir w ie recs -> restarts w w' -> log_file w' (im_walPath ie) recs.
Proof.
  intros [_ (f & Hf & Hd & Hs) Hv _] (_ & _ & Hk). destruct (Hk _ _ Hf Hs) as [n Hf']. eexists. split; [exact Hf'|].
  rewrite Hd. by apply parse_logged.
Qed.

Lemma log_records_ok dir w ie recs : log_ok dir w ie recs -> log_records w (im_walPath ie) = recs.
Proof. intros [_ (f & Hf & Hd & _) Hv _]. unfold log_records. rewrite Hf, Hd. by apply parse_logged. Qed.

Lemma unflushed_logged ls e w recss : logged ls e w recss -> unflushed ls w = recovered (concat recss).
Proof.
  intros (HL & _). unfold unflushed. do 2 f_equal. induction HL as [|ie recs ls recss Hok HL IH]; [done|]. cbn.
  by rewrite IH, (log_records_ok _ _ _ _ Hok).
Qed.

(** ** What [scanDir] finds *)

Section found.
Context (ls : list immEntry) (c : contents) (e : Engine) (w w' : world) (wals : list string) (ssts : list sstFileInfo) (mg : N).
Context (Hi : inv c e w) (Hst : stored ls e w) (Hids : Forall (fun id => id <= e_genCounter e)%N (im_id <$> ls)).
Context (Hg : (e_genCounter e < max_u64)%N) (Hr : restarts w w').
Context (Hdir : dir_files (e_dir e) (w_files w') = (wals, ssts, mg)).

Lemma log_id ie : ie ∈ ls -> im_walPath ie = walFileName (e_dir e) (im_id ie) /\ (im_id ie <= e_genCounter e)%N.
Proof.
  intros Hin. split; [by destruct (stored_log _ _ _ _ Hst Hin) as [recs []]|].
  rewrite Forall_fmap, Forall_forall in Hids. by apply Hids.
Qed.

Lemma found_wals : wals = im_walPath <$> ls.
Proof.
  destruct (dir_files_spec _ _ _ _ _ Hdir) as (Hw & _). destruct (dir_files_wals _ _ _ _ _ Hdir) as [Hnd Hs].
  assert (forall ie, ie ∈ ls -> (im_id ie < 2 ^ 64)%N) as Hsm by (intros ie [_ H]%log_id; unfold max_u64 in Hg; lia).
  assert (StronglySorted string_le (im_walPath <$> ls) /\ NoDup (im_walPath <$> ls)) as [Hs2 Hnd2].
  { pose proof (du_ids _ _ _ Hst) as Hid. pose proof log_id as Hlog. clear -Hid Hsm Hlog. induction ls as [|ie ls' IH]; [by split; constructor|].
    apply StronglySorted_inv in Hid as [Hid Hlt].
    destruct IH as [IH1 IH2]; [intros x Hx; apply Hsm; by right|done|intros x Hx; apply Hlog; by right|].
    change (Forall (N.lt (im_id ie)) (im_id <$> ls')) in Hlt. rewrite Forall_fmap, Forall_forall in Hlt. split; cbn; constructor; try done.
    - apply Forall_fmap, Forall_forall. intros x Hx. specialize (Hlt x Hx). cbn in *.
      rewrite (proj1 (Hlog ie ltac:(by left))), (proj1 (Hlog x ltac:(by right))). apply walFileName_order; [lia|apply Hsm; by right].
    - intros (x & E & Hx)%list_elem_of_fmap. specialize (Hlt x Hx). cbn in Hlt.
      rewrite (proj1 (Hlog ie ltac:(by left))), (proj1 (Hlog x ltac:(by right))) in E.
      apply walFileName_inj in E; [lia|apply Hsm; by left|apply Hsm; by right]. }
  apply (StronglySorted_unique string_le); [done|done|]. apply NoDup_Permutation; [done|done|]. intros p. rewrite Hw.
  destruct Hr as (_ & Hex & _). rewrite Hex. split; [intros [H1 H2]; by apply (du_wals _ _ _ Hst)|].
  intros (ie & -> & Hin)%list_elem_of_fmap. destruct (stored_log _ _ _ _ Hst Hin) as [recs [_ (f & Hf & _) _ _]].
  split; [by eexists|]. rewrite (proj1 (log_id ie Hin)). by apply wal_file_new, Hsm.
Qed.

Lemma found_gen : (mg <= e_genCounter e)%N.
Proof.
  destruct Hr as (_ & Hex & _). apply (dir_files_gen _ _ _ _ _ _ Hdir).
  - intros name g Hn%Hex Hns Hw Hp. pose proof (du_wals _ _ _ Hst _ Hn ltac:(exists name; by split_and!; [| |split; [|eexists]])) as (ie & E & Hin)%list_elem_of_fmap.
    destruct (log_id ie Hin) as [E2 Hle]. rewrite E2 in E. unfold walFileName in E. apply Join_inj in E as ->.
    rewrite (proj2 (walBase_name (im_id ie) ltac:(unfold max_u64 in Hg; lia))) in Hp. by injection Hp as <-.
  - intros p l g Hp%Hex Hf. destruct (du_ssts _ _ _ Hst p l g Hp Hf) as (lt & H1 & _ & H3).
    destruct (listed_known _ _ _ _ _ Hi H1 H3) as (l' & g' & Hs & Hle).
    by rewrite (sst_path_gen _ _ _ _ _ _ (sst_file_path _ _ _ _ Hf) Hs).
Qed.

Lemma found_ssts : exists rss, Forall2 (table_file w') ssts rss /\ rss ≡ₚ c_tables c.
Proof.
  destruct (dir_files_spec _ _ _ _ _ Hdir) as (_ & Hs & Hnd & _). destruct Hr as (_ & Hex & Hk).
  assert (Some ∘ sf_path <$> ssts ≡ₚ (fun p => table_path e p.1) <$> tables_of c e) as Hp.
  { change ((fun p => table_path e p.1) <$> tables_of c e) with (table_path e ∘ fst <$> tables_of c e).
    rewrite (list_fmap_compose fst (table_path e)), (tables_of_1 c e w Hi). apply NoDup_Permutation.
    - rewrite list_fmap_compose. by apply (NoDup_fmap_2 Some).
    - apply Hi.
    - intros p. rewrite !list_elem_of_fmap. split.
      + intros (sf & -> & Hin). apply Hs in Hin as [H1%Hex H2]. destruct (du_ssts _ _ _ Hst _ _ _ H1 H2) as (lt & H3 & _ & H5). by exists lt.
      + intros (lt & -> & Hin). destruct (du_tables _ _ _ Hst lt Hin) as (t & g & Et & _ & Hf & f & Hff & _).
        unfold table_path. rewrite Et. exists (MkSSTInfo (t_path t) (lt_level lt) g). split; [done|]. apply Hs. cbn.
        split; [apply Hex; by eexists|done]. }
  destruct (Permutation_map_inv _ _ Hp) as (ps & E & Hps). exists ps.*2. split.
  2: { rewrite <- Hps, (tables_of_2 c e w Hi). done. }
  apply Forall2_same_length_lookup_2; [apply (f_equal length) in E; by rewrite length_map, !length_fmap in *|].
  intros i sf rs Hsf Hrs. rewrite list_lookup_fmap in Hrs. destruct (ps !! i) as [[lt rs']|] eqn:Eps; [|done]. injection Hrs as <-. cbn.
  assert (Some (sf_path sf) = table_path e lt) as Epath.
  { pose proof (f_equal (lookup i) E) as E2. rewrite list_lookup_fmap, Hsf in E2.
    change (Some (Some (sf_path sf)) = ((fun p => table_path e p.1) <$> ps) !! i) in E2. rewrite list_lookup_fmap, Eps in E2. by injection E2. }
  assert ((lt, rs') ∈ tables_of c e) as Hin by (rewrite Hps; by eapply list_elem_of_lookup_2).
  destruct (tables_of_ok _ _ _ _ Hi Hin) as [_ [Hl Hne _ (t & g & Et & _ & (Hsr & compress & f & n & Hf & _ & Hfit & Hff) & _ & _ & Hsp & _)]].
  cbn in *. unfold table_path in Epath. rewrite Et in Epath. injection Epath as Epath. apply list_elem_of_lookup_2, Hs in Hsf as [_ Hsf].
  unfold table_file. rewrite Epath in Hsf |- *. rewrite (sst_path_level _ _ _ _ _ _ (sst_file_path _ _ _ _ Hsf) Hsp).
  destruct (tables_of_ok _ _ _ _ Hi Hin) as [Hin2 _]. destruct (du_tables _ _ _ Hst lt Hin2) as (t' & g' & Et' & _ & _ & f' & Hf' & Hsy).
  rewrite Et in Et'. injection Et' as <-. destruct (Hk _ _ Hf' Hsy) as [n' Hf2]. rewrite Hf in Hf'. injection Hf' as <-.
  split_and!; [apply Hl|apply Hl|done|done|]. exists compress, f, n'. split_and!; [done|done|exact Hf2].
Qed.
End found.

(** ** A new store *)

(** No file of a store in the directory. *)
Definition vacant (dir : string) (w : world) : Prop :=
  forall p, is_Some (w_files w !! p) -> ~ wal_file dir p /\ forall l g, ~ sst_file dir p l g.

Lemma vacant_files dir w : vacant dir w -> dir_files dir (w_files w) = ([], [], 0%N).
Proof.
  intros Hv. destruct (dir_files dir (w_files w)) as [[wals ssts] mg] eqn:E.
  destruct (dir_files_spec _ _ _ _ _ E) as (Hw & Hs & _).
  destruct wals as [|p wals]; [|destruct (proj1 (Hw p) ltac:(by left)) as [H1 H2]; by destruct (Hv p H1)].
  destruct ssts as [|sf ssts]; [|destruct (proj1 (Hs sf) ltac:(by left)) as [H1 H2]; destruct (Hv _ H1) as [_ H3]; by destruct (H3 _ _ H2)].
  assert (mg <= 0)%N; [|do 2 f_equal; lia]. apply (dir_files_gen _ _ _ _ _ _ E).
  - intros name g H1 Hn H2 H3. destruct (Hv _ H1) as [H4 _]. destruct H4. exists name. split_and!; [done|done|]. split; [done|by eexists].
  - intros p l g H1 H2. destruct (Hv p H1) as [_ H3]. by destruct (H3 l g).
Qed.

(** The engine [Open] builds there. *)
Definition new_store (coins : N -> list bool) (dir : string) (opts : list Option_) (clock : list Z) : Engine :=
  set_mem 1 (MemTable.New (coins 1%N)) (set_wal (Wal.MkWAL (bufio_New (walFileName dir 1))) (walFileName dir 1)
    (set_gen 1 (new_engine dir opts clock))).

Definition nothing : contents := MkContents [] [] [].

Lemma Open_vacant coins dir opts clock w :
  w_faults w = [] -> vacant dir w ->
  Engine.Open coins dir opts clock w =
    (Ok (new_store coins dir opts clock), MkWorld (<[walFileName dir 1 := MkFile [] 0]> (w_files w)) []).
Proof.
  intros Hw Hv. pose proof (vacant_files dir w Hv) as Hd. destruct w as [fs fl]. cbn in Hw, Hd. subst fl.
  assert (fs !! walFileName dir 1 = None) as Hn.
  { destruct (fs !! walFileName dir 1) eqn:E; [|done]. destruct (Hv (walFileName dir 1)) as [H _]; [by eexists|].
    destruct H. by apply wal_file_new. }
  pose proof (scanDir_quiet dir (MkWorld fs []) eq_refl) as Hs. cbn in Hs. rewrite Hd in Hs.
  unfold Engine.Open, bind at 1, ebind, ewrap, lift, attempt, bind, ret, emod. io_unfold. cbn. rewrite Hs. cbn.
  change (u64 (0 + 1)) with 1%N. by rewrite Hn.
Qed.

Lemma new_store_models coins dir opts clock w :
  config_ok (configured opts) -> models (MkSpec ∅ 0) nothing (new_store coins dir opts clock) w.
Proof.
  intros Hc. split.
  - split; [exists []; split; [exact (wb_repr_new _)|done]|..]; cbn;
      repeat first [done|apply last_walFileName|apply not_elem_of_nil|constructor].
  - split; cbn; [constructor| | |]; intros; try done; by repeat constructor || (decompose_Forall_hyps; set_solver).
  - done.
  - by apply Forall_nil_2.
  - exact Hc.
  - done.
  - done.
  - done.
  - intros key. cbn. by rewrite lookup_empty.
Qed.

Lemma new_store_durable coins dir opts clock w :
  vacant dir w -> durable (new_store coins dir opts clock) (MkWorld (<[walFileName dir 1 := MkFile [] 0]> (w_files w)) []).
Proof.
  intros Hv. split; [done|]. split; cbn.
  - exists [[]]. split_and!; [|constructor|constructor]. constructor; [|constructor]. split; cbn; [done| |constructor|exact (wb_repr_new _)].
    exists (MkFile [] 0). by rewrite lookup_insert_eq.
  - repeat constructor.
  - intros p Hp Hf. destruct (decide (p = walFileName dir 1)) as [->|Hn]; [by left|].
    rewrite lookup_insert_ne in Hp by done. by destruct (Hv p Hp).
  - intros p l g Hp Hf. destruct (decide (p = walFileName dir 1)) as [->|Hn].
    + by destruct (sst_path_wal _ _ _ _ (sst_file_path _ _ _ _ Hf) (last_walFileName _ _)).
    + rewrite lookup_insert_ne in Hp by done. destruct (Hv p Hp) as [_ H]. by destruct (H l g).
  - by intros lt ?%not_elem_of_nil.
Qed.

(** A new store.  [Open] on a directory without files of a store succeeds
    when no system call fails: the engine represents the empty map, its layers,
    levels and queue are in order, and what it has on disk, an empty log, makes
    it up. *)
Theorem open_fresh coins dir opts clock w :
  w_faults w = [] -> vacant dir w -> config_ok (configured opts) ->
  exists e w', Engine.Open coins dir opts clock w = (Ok e, w') /\ w_faults w' = [] /\
    models (MkSpec ∅ 0) nothing e w' /\ durable e w'.
Proof.
  intros Hw Hv Hc. eexists _, _. split; [by apply Open_vacant|]. split; [done|]. split; [by apply new_store_models|by apply new_store_durable].
Qed.

(** ** What [Open] needs *)

(** The data of a store whose directory holds the tables of [c] and the logs of
    [ls], MemTables with the records [mss]. *)
Lemma stored_left_behind ls mss c e w w' compress :
  inv c e w -> stored ls e w -> Forall (fun id => id <= e_genCounter e)%N (im_id <$> ls) -> restarts w w' ->
  Forall2 (fun ie ms => mem_holds (im_mt ie) ms) ls mss -> view c ≡ₚ concat (c_tables c) ++ concat mss ->
  (e_genCounter e + 2 < max_u64)%N -> (e_seq e <= unboundedSeq)%N ->
  (unflushed ls w <> [] -> flushable compress (unflushed ls w)) ->
  exists ssts rss recss, left_behind (e_dir e) compress (e_seq e) w' (im_walPath <$> ls) ssts rss recss /\
    StronglySorted N.lt (Wal.r_seq <$> concat recss) /\ rss ≡ₚ c_tables c /\ recovered <$> recss = mss /\
    forall key, newest key unboundedSeq (concat rss ++ (log_rec <$> concat recss)) = newest key unboundedSeq (view c).
Proof.
  intros Hi Hst Hids Hr Hms Hv Hg Hq Hfit. destruct (du_logs _ _ _ Hst) as (recss & HL). pose proof HL as (HL1 & Hs & Hle).
  destruct (dir_files (e_dir e) (w_files w')) as [[wals ssts] mg] eqn:Hdir.
  pose proof (found_wals _ _ _ _ _ _ _ Hst Hids ltac:(lia) Hr Hdir) as ->.
  pose proof (found_gen _ _ _ _ _ _ _ _ Hi Hst Hids ltac:(lia) Hr Hdir) as Hmg.
  destruct (found_ssts _ _ _ _ _ _ _ _ Hi Hst Hr Hdir) as (rss & HT & Hp). exists ssts, rss, recss.
  assert (recovered <$> recss = mss) as Emss.
  { clear -HL1 Hms. revert mss Hms. induction HL1 as [|ie recs ls recss [_ _ _ Hm] HL IH]; intros mss Hms; [by apply Forall2_nil_inv_l in Hms as ->|].
    apply Forall2_cons_inv_l in Hms as (ms & mss' & Hm' & Hms & ->). cbn. f_equal; [|by apply IH].
    eapply mem_holds_unique_records; [|exact Hm']. by exists (replayed [] recs). }
  assert (concat rss ++ concat mss ≡ₚ view c) as Hp2 by (by rewrite Hv, Hp).
  assert (Forall (fun rec => Wal.valid rec /\ known_type rec /\ Wal.r_key rec <> []) (concat recss)) as Hval.
  { clear -HL1. induction HL1 as [|ie recs ls recss [_ _ Hv _] HL IH]; [constructor|]. cbn. by apply Forall_app. }
  pose proof (inv_keys _ _ _ Hi) as Hks. rewrite <- Hp2 in Hks. apply Forall_app in Hks as [Hkt _].
  pose proof (inv_versions _ _ _ Hi) as Hver. rewrite <- Hp2 in Hver.
  split_and!; [split|exact Hs|done|done|].
  - exists mg. split; [done|lia].
  - exact HT.
  - clear -HL1 Hr. induction HL1 as [|ie recs ls recss Hok HL IH]; cbn; constructor; [by eapply restart_log|done].
  - eapply Forall_impl; [exact Hval|]. by intros rec (_ & ? & _).
  - exact Hkt.
  - apply Forall_forall. intros rec Hin. rewrite Forall_forall in Hval, Hle. specialize (Hval rec Hin). specialize (Hle rec Hin). tauto.
  - rewrite fmap_app in Hver |- *. apply NoDup_app in Hver as (H1 & H2 & _). apply NoDup_app.
    split_and!; [done| |apply recovered_versions]. intros v Hv1 (r & -> & Hr2%recovered_concat_elem)%list_elem_of_fmap.
    rewrite Emss in Hr2. apply (H2 _ Hv1). by apply list_elem_of_fmap_2.
  - rewrite <- (unflushed_logged ls e w recss HL). exact Hfit.
  - intros key. rewrite newest_app, logs_newest, Emss, <- newest_app; [|done|].
    + apply newest_perm; [by eapply inv_unique|done].
    + eapply Forall_impl; [exact Hle|]. intros rec Hrec. cbn in Hrec. lia.
Qed.

(** The MemTables of the engine. *)
Lemma logs_hold c e w : inv c e w -> Forall2 (fun ie ms => mem_holds (im_mt ie) ms) (logs e) (c_imm c ++ [c_mem c]).
Proof.
  intros Hi. apply Forall2_app; [|constructor; [apply Hi|constructor]].
  eapply Forall2_impl; [apply (inv_imm _ _ _ Hi)|]. by intros ie ms [? _].
Qed.

Lemma view_logs c : view c ≡ₚ concat (c_tables c) ++ concat (c_imm c ++ [c_mem c]).
Proof.
  unfold view. rewrite <- (Permutation_rev (c_imm c)), concat_app. cbn. rewrite app_nil_r. solve_Permutation.
Qed.

(** The reads of the reopened engine. *)
Definition reads_as (c : contents) (e : Engine) (w : world) : Prop :=
  forall key, key <> [] -> exists w', getAt key unboundedSeq e w = (Ok (e, answer (newest key unboundedSeq (view c))), w') /\ w_files w' = w_files w.

Lemma reopened coins dir opts clock q w wals ssts rss recss c :
  w_faults w = [] -> left_behind dir (o_compress (configured opts)) q w wals ssts rss recss ->
  StronglySorted N.lt (Wal.r_seq <$> concat recss) -> (q <= unboundedSeq)%N ->
  (forall key, newest key unboundedSeq (concat rss ++ (log_rec <$> concat recss)) = newest key unboundedSeq (view c)) ->
  exists e w', Engine.Open coins dir opts clock w = (Ok e, w') /\ w_faults w' = [] /\ e_closed e = false /\ reads_as c e w'.
Proof.
  intros Hw Hlb Hs Hq Hn. destruct (Open_reads coins dir opts clock q w wals ssts rss recss Hw Hlb Hs Hq) as (e & w' & E & Hf & Hc & _ & _ & Hr).
  exists e, w'. split_and!; try done. intros key Hk. destruct (Hr key Hk) as (w2 & E2 & Hw2). exists w2. by rewrite <- Hn.
Qed.

(** A store that has what it holds on disk can be opened again at any time. *)
Lemma recovers sp c e1 w1 : models sp c e1 w1 -> durable e1 w1 ->
  forall coins' opts clock w2, restarts w1 w2 -> (e_genCounter e1 + 2 < max_u64)%N ->
    (unflushed (logs e1) w1 <> [] -> flushable (o_compress (configured opts)) (unflushed (logs e1) w1)) ->
    exists e2 w3, Engine.Open coins' (e_dir e1) opts clock w2 = (Ok e2, w3) /\ forall key, key <> [] ->
      exists w4, getAt key unboundedSeq e2 w3 = (Ok (e2, lookup_answer sp key), w4).
Proof.
  intros Hm1 [_ Hst] coins' opts clock w2 Hr Hg Hfit. pose proof (md_inv _ _ _ _ Hm1) as Hi1.
  destruct (stored_left_behind (logs e1) _ c e1 w1 w2 (o_compress (configured opts)) Hi1 Hst (logs_ids _ _ _ Hi1) Hr
    (logs_hold _ _ _ Hi1) (view_logs c) Hg (proj2 (md_seq _ _ _ _ Hm1)) Hfit) as (ssts & rss & recss & Hlb & Hs & _ & _ & Hn).
  destruct (reopened coins' (e_dir e1) opts clock _ w2 _ _ _ _ c (proj1 Hr) Hlb Hs (proj2 (md_seq _ _ _ _ Hm1)) Hn) as (e2 & w3 & E2 & _ & _ & Hrd).
  exists e2, w3. split; [done|]. intros key Hk. destruct (Hrd key Hk) as (w4 & E4 & _). exists w4.
  by rewrite E4, <- (answer_lookup sp c e1 w1 key Hm1).
Qed.

(** C1: crash recovery.  Take any state that represents a map and has it on
    disk, and any run of writes, reads, snapshots, flushes and compactions in
    which no system call fails, and stop it at its end: [Open] on the files that
    are there succeeds, and the new engine answers every read as the map does
    after all the writes of the run, none of them lost. *)
Theorem crash_recovery coins evs sp c e w :
  models sp c e w -> durable e w -> run_within coins evs e w -> Forall loggable evs ->
  exists e1 w1, run coins evs e w = Some ((spec_run evs sp).1, e1, w1) /\
    forall coins' opts clock w2, restarts w1 w2 -> (e_genCounter e1 + 2 < max_u64)%N ->
      (unflushed (logs e1) w1 <> [] -> flushable (o_compress (configured opts)) (unflushed (logs e1) w1)) ->
      exists e2 w3, Engine.Open coins' (e_dir e1) opts clock w2 = (Ok e2, w3) /\ forall key, key <> [] ->
        exists w4, getAt key unboundedSeq e2 w3 = (Ok (e2, lookup_answer (spec_run evs sp).2 key), w4).
Proof.
  intros Hm Hd Hl Hlg. destruct (sim_run coins evs sp c e w Hm Hl) as (e1 & w1 & c1 & E & Hm1 & Hd1).
  exists e1, w1. split; [done|]. by apply (recovers _ c1); [|apply Hd1].
Qed.
End restart.
