(* ===== verification/Scan.v ===== *)
(** * Range scans (src/engine/engine.go)

    [Scan] opens one sorted source per MemTable and table and merges them
    through a heap; a [ScanIterator] resolves every key to its most recent
    visible version and skips deleted keys.  What a range iterator reads of its
    table never changes, so it carries the table; the references the scan takes
    are on the engine's table objects. *)

From S2P Require Import Prelude OrdMap Heap GoIO IOLogic MemTable Versions SSTable Table Merge Metrics FileNames EngineState Engine.
From S2P Require Wal Bloom.
From stdpp Require Import base gmap sets list strings numbers fin_maps sorting.
Open Scope nat_scope.

(** [memSliceSource] and [sstableRangeSource]. *)
Inductive scanSource :=
| MemSlice (entries : list (bytes * Entry)) (idx : nat) (maxSeq : N)
| SSTRange (ri : RangeIterator).

Record scanHeapItem := MkScanItem { si_key : bytes; si_rec : Record; si_src : scanSource }.

(** [scanHeap.Less]. *)
Definition scan_less (a b : scanHeapItem) : bool :=
  match bytes_compare (si_key a) (si_key b) with
  | Lt => true
  | Gt => false
  | Eq => (Seq (si_rec b) <? Seq (si_rec a))%N
  end.

Record ScanIterator := MkScan { sc_h : list scanHeapItem; sc_tables : list nat; sc_closed : bool }.

Section scan.
Context `{FM : Bloom.FloatMath} `{FL : Flate}.

(** The loop of [memSliceSource.next], on the entries from [idx] on. *)
Fixpoint mem_next (rest : list (bytes * Entry)) (idx : nat) (maxSeq : N) : option (bytes * Record) * nat :=
  match rest with
  | [] => (None, idx)
  | kv :: rest' =>
      if (MemTable.e_seq kv.2 <=? maxSeq)%N then (Some (kv.1, mem_record kv.2), S idx)
      else mem_next rest' (S idx) maxSeq
  end.

Definition src_next (src : scanSource) : M (option (bytes * Record) * scanSource) :=
  match src with
  | MemSlice entries idx maxSeq =>
      let (r, idx') := mem_next (drop idx entries) idx maxSeq in ret (r, MemSlice entries idx' maxSeq)
  | SSTRange ri =>
      let! (r, ri') := RangeIterator_Next ri in
      ret ((fun rec => (Key rec, rec)) <$> r, SSTRange ri')
  end.

(** [if k, r, ok, err := src.next(); ...]: the next record of a source goes on
    the heap. *)
Definition pushSource (h : list scanHeapItem) (src : scanSource) : M (list scanHeapItem * option error) :=
  let! r := attempt (src_next src) in
  match r with
  | inr err => ret (h, Some err)
  | inl (None, _) => ret (h, None)
  | inl (Some (k, rec), src') => ret (Heap.Push scan_less h (MkScanItem k rec src'), None)
  end.

(** The inner loop of [Next]: the other versions of [key]. *)
Fixpoint scan_dups (fuel : nat) (key : bytes) (best : Record) (h : list scanHeapItem)
    : M (list scanHeapItem * (Record + error)) :=
  match fuel with
  | O => panic
  | S fuel' =>
      match h with
      | [] => ret ([], inl best)
      | top :: _ =>
          if bytes_eqb (si_key top) key then
            let! (dup, h1) := of_option (Heap.Pop scan_less h) in
            let best' := if (Seq best <? Seq (si_rec dup))%N then si_rec dup else best in
            let! (h2, err) := pushSource h1 (si_src dup) in
            match err with
            | Some err => ret (h2, inr err)
            | None => scan_dups fuel' key best' h2
            end
          else ret (h, inl best)
      end
  end.

(** The outer loop. *)
Fixpoint scan_next (fuel : nat) (h : list scanHeapItem) : M (list scanHeapItem * (option (bytes * bytes) + error)) :=
  match fuel with
  | O => panic
  | S fuel' =>
      match h with
      | [] => ret ([], inl None)
      | _ :: _ =>
          let! (top, h1) := of_option (Heap.Pop scan_less h) in
          let! (h2, err) := pushSource h1 (si_src top) in
          match err with
          | Some err => ret (h2, inr err)
          | None =>
              let! (h3, best) := scan_dups fuel (si_key top) (si_rec top) h2 in
              match best with
              | inr err => ret (h3, inr err)
              | inl best =>
                  if bool_decide (Typ best = TypeTombstone) then scan_next fuel' h3
                  else ret (h3, inl (Some (si_key top, Value best)))
              end
          end
      end
  end.

(** Fuel: more than the records the sources can still return. *)
Definition src_left (src : scanSource) : nat :=
  match src with
  | MemSlice entries idx _ => length entries - idx
  | SSTRange ri => length (t_index (ri_t ri)) - ri_idx ri
  end.

Definition scan_fuel (h : list scanHeapItem) : nat := S (foldr (fun x n => S (src_left (si_src x)) + n) 0 h).

Definition ScanIterator_Next (it : ScanIterator) : M (ScanIterator * (option (bytes * bytes) + error)) :=
  let! (h, r) := scan_next (scan_fuel (sc_h it)) (sc_h it) in
  ret (MkScan h (sc_tables it) (sc_closed it), r).

Definition ScanIterator_Close (it : ScanIterator) : E ScanIterator :=
  if sc_closed it then eret it
  else
    releaseAll (sc_tables it);;?
    eret (MkScan (sc_h it) (sc_tables it) true).

(** ** [scanAt] *)

Definition opened (r : list scanHeapItem * option error) : E (list scanHeapItem) :=
  match r with
  | (h, None) => eret h
  | (_, Some err) => ethrow err
  end.

Definition push_mem (start end_ : option bytes) (maxSeq : N) (h : list scanHeapItem) (mt : MemTable) : E (list scanHeapItem) :=
  let? entries := lift (of_option (MemTable.Range mt start end_)) in
  let? r := lift (pushSource h (MemSlice entries 0 maxSeq)) in
  opened r.

Fixpoint push_imm (start end_ : option bytes) (maxSeq : N) (h : list scanHeapItem) (mts : list MemTable)
    : E (list scanHeapItem) :=
  match mts with
  | [] => eret h
  | mt :: mts' =>
      let? h' := ewrap "engine: scanning immutable memtable" (push_mem start end_ maxSeq h mt) in
      push_imm start end_ maxSeq h' mts'
  end.

Definition push_table (start end_ : option bytes) (maxSeq : N) (h : list scanHeapItem) (t : Table) : E (list scanHeapItem) :=
  let? r := lift (pushSource h (SSTRange (NewRangeIterator t start end_ maxSeq))) in
  opened r.

Fixpoint push_tables (start end_ : option bytes) (maxSeq : N) (h : list scanHeapItem) (tids : list nat)
    : E (list scanHeapItem) :=
  match tids with
  | [] => eret h
  | tid :: tids' =>
      let? t := load_table tid in
      let? h' := ewrap "engine: scanning sstable" (push_table start end_ maxSeq h t) in
      push_tables start end_ maxSeq h' tids'
  end.

Definition scanAt_body (e : Engine) (start end_ : option bytes) (maxSeq : N) (tids : list nat) : E (list scanHeapItem) :=
  let? h := ewrap "engine: scanning memtable" (push_mem start end_ maxSeq [] (e_mem e)) in
  let? h := push_imm start end_ maxSeq h (im_mt <$> e_imm e) in
  push_tables start end_ maxSeq h tids.

Definition scanAt (start end_ : option bytes) (maxSeq : N) : E ScanIterator :=
  let? e := eget in
  if e_closed e then ethrow ErrClosed
  else
    let tids := allTablesLocked e in
    acquire_all tids;;?
    let? r := etry (scanAt_body e start end_ maxSeq tids) in
    match r with
    | inr err => releaseAll tids;;? ethrow err
    | inl h => eret (MkScan h tids false)
    end.

Definition Scan (start end_ : option bytes) : E ScanIterator :=
  inc scanTotal;;? scanAt start end_ unboundedSeq.

Definition Snapshot_Scan (s : Snapshot_) (start end_ : option bytes) : E ScanIterator :=
  inc scanTotal;;? scanAt start end_ (s_seq s).

(** Reading an iterator to its end, as its users do. *)
Fixpoint collect (fuel : nat) (it : ScanIterator) : M (ScanIterator * (list (bytes * bytes) + error)) :=
  match fuel with
  | O => panic
  | S fuel' =>
      let! (it', r) := ScanIterator_Next it in
      match r with
      | inr err => ret (it', inr err)
      | inl None => ret (it', inl [])
      | inl (Some kv) =>
          let! (it'', rs) := collect fuel' it' in
          ret (it'', match rs with inl kvs => inl (kv :: kvs) | inr err => inr err end)
      end
  end.
End scan.
