(* ===== verification/ScanRead.v ===== *)
(** * Scans against the contents

    A scan of an engine returns, in key order, exactly the keys in range that a
    point read at the same sequence number finds, each with the value that read
    gives. *)

From S2P Require Import Prelude OrdMap Heap GoIO IOLogic MemTable Versions SSTable Table Merge Metrics FileNames EngineState EngineLogic EngineInv Engine EngineRead Scan.
From S2P Require Wal SkipList.
From stdpp Require Import base gmap sets list strings numbers fin_maps sorting.
Open Scope nat_scope.

(** ** Results or faults *)

(** [m] changes no file and ends with an [a] such that [P a], or after a failed
    system call with one such that [F a]. *)
Definition gives {A} (m : M A) (P F : A -> Prop) : Prop := forall w,
  match m w with
  | (Ok a, w') => w_files w' = w_files w /\
      (P a /\ (w_faults w = [] -> w_faults w' = []) \/ F a /\ w_faults w <> [])
  | _ => False
  end.

Lemma gives_ret {A} (a : A) (P F : A -> Prop) : P a -> gives (ret a) P F.
Proof. intros HP w. by split; [|left]. Qed.

Lemma gives_bind {A B} (m : M A) (k : A -> M B) P F P' F' :
  gives m P F -> (forall a, P a -> gives (k a) P' F') -> (forall a, F a -> exists b, k a = ret b /\ F' b) ->
  gives (bind m k) P' F'.
Proof.
  intros Hm Hk HF w. specialize (Hm w). unfold bind. destruct (m w) as [[a|e|] w1]; [|done|done].
  destruct Hm as [Hw [[HP Hf]|[HFa Hf]]].
  - specialize (Hk a HP w1). destruct (k a w1) as [[b|e|] w2]; [|done|done].
    destruct Hk as [Hw2 [[? ?]|[? ?]]]; (split; [by rewrite Hw2|]); [left|right]; auto.
  - destruct (HF a HFa) as (b & -> & Hb). cbn. split; [done|by right].
Qed.

Lemma gives_mono {A} (m : M A) (P P' F F' : A -> Prop) :
  gives m P F -> (forall a, P a -> P' a) -> (forall a, F a -> F' a) -> gives m P' F'.
Proof.
  intros Hm HP HF w. specialize (Hm w). destruct (m w) as [[a|e|] w1]; [|done|done].
  destruct Hm as [Hw [[? ?]|[? ?]]]; (split; [done|]); [left|right]; auto.
Qed.

Lemma gives_attempt {A} (m : M A) (a : A) :
  reads m a -> (forall P, touches P m) -> gives (attempt m) (fun r => r = inl a) (fun r => exists err, r = inr err).
Proof.
  intros Hr Ht w. specialize (Hr (w_files w) w eq_refl). unfold attempt.
  pose proof (fun r w' => touches_none m w r w' (Ht _)) as HF.
  destruct (m w) as [[b|e|] w1]; cbn; [|split; [by apply (HF _ _ eq_refl)|right; eauto]|done].
  destruct Hr as [[-> Hw] Hf]. split; [done|]. left. auto.
Qed.

(** ** The heap of sources *)

(** The version a source returned with its key. *)
Definition keyed_as (k : bytes) (r : Record) : Record := MkRec k (Value r) (Typ r) (Seq r).
Definition item_rec (x : scanHeapItem) : Record := keyed_as (si_key x) (si_rec x).

Definition failed {A} (r : A + error) : Prop := exists err, r = inr err.

Section scans.
Context `{FM : Bloom.FloatMath} `{FL : Flate}.

(** The source returns exactly [l] from now on. *)
Fixpoint src_yields (src : scanSource) (l : list Record) : Prop :=
  match l with
  | [] => exists src', gives (attempt (src_next src)) (fun r => r = inl (None, src')) failed
  | r :: l' => exists rec src',
      gives (attempt (src_next src)) (fun x => x = inl (Some (Key r, rec), src')) failed /\
      keyed_as (Key r) rec = r /\ src_left src' < src_left src /\ src_yields src' l'
  end.

Definition by_key (l : list Record) : Prop := StronglySorted bytes_lt (Key <$> l).

Definition item_ok (x : scanHeapItem) (l : list Record) : Prop := src_yields (si_src x) l /\ by_key (item_rec x :: l).

Definition hinv (h : list scanHeapItem) (ls : list (list Record)) : Prop := is_heap scan_less h /\ Forall2 item_ok h ls.

(** What is still to come, in no order. *)
Definition coming (h : list scanHeapItem) (ls : list (list Record)) : list Record := (item_rec <$> h) ++ concat ls.

Lemma src_left_ge src l : src_yields src l -> length l <= src_left src.
Proof.
  revert src. induction l as [|r l IH]; intros src H; cbn [length]; [lia|].
  destruct H as (rec & src' & _ & _ & Hlt & H). specialize (IH src' H). lia.
Qed.

Lemma scan_fuel_ok h ls : hinv h ls -> length (coming h ls) < scan_fuel h.
Proof.
  intros [_ HF]. unfold coming, scan_fuel. rewrite length_app, length_fmap.
  enough (length h + length (concat ls) <= foldr (fun x n => S (src_left (si_src x)) + n) 0 h) by lia.
  induction HF as [|x l h ls [Hx _] HF IH]; [done|]. cbn [length foldr concat]. rewrite length_app.
  apply src_left_ge in Hx. lia.
Qed.

(** The heap's order is that of the merge. *)
Lemma scan_less_merge a b : scan_less a b = merge_less (MkItem (item_rec a) 0) (MkItem (item_rec b) 0).
Proof. done. Qed.

Lemma scan_less_asym a b : scan_less a b = true -> scan_less b a = false.
Proof. rewrite !scan_less_merge. apply merge_less_asym. Qed.

Lemma scan_le_trans a b c : Heap.le scan_less a b -> Heap.le scan_less b c -> Heap.le scan_less a c.
Proof. unfold Heap.le. rewrite !scan_less_merge. apply (merge_le_trans (MkItem _ 0) (MkItem _ 0) (MkItem _ 0)). Qed.

Lemma scan_le_key a b : Heap.le scan_less a b -> si_key a <=b si_key b.
Proof. exact (merge_le_key (MkItem (item_rec a) 0) (MkItem (item_rec b) 0)). Qed.

Lemma Forall2_perm_l {A B} (R : A -> B -> Prop) h1 h2 ls :
  h1 ≡ₚ h2 -> Forall2 R h1 ls -> exists ls', ls ≡ₚ ls' /\ Forall2 R h2 ls'.
Proof.
  intros Hp. revert ls. induction Hp as [|x h1 h2 Hp IH|x y h|h1 h2 h3 Hp1 IH1 Hp2 IH2]; intros ls H.
  - exists ls. done.
  - apply Forall2_cons_inv_l in H as (l & ls1 & Hx & H & ->). destruct (IH ls1 H) as (ls2 & E & H2).
    exists (l :: ls2). split; [by rewrite E|by constructor].
  - apply Forall2_cons_inv_l in H as (l1 & ls1 & Hx & H & ->). apply Forall2_cons_inv_l in H as (l2 & ls2 & Hy & H & ->).
    exists (l2 :: l1 :: ls2). split; [apply Permutation_swap|by repeat constructor].
  - destruct (IH1 ls H) as (ls1 & E1 & H1). destruct (IH2 ls1 H1) as (ls2 & E2 & H2).
    exists ls2. split; [by rewrite E1|done].
Qed.

Lemma gives_push h ls src l :
  hinv h ls -> src_yields src l -> by_key l ->
  gives (pushSource h src)
    (fun x => x.2 = None /\ exists ls', hinv x.1 ls' /\ coming x.1 ls' ≡ₚ l ++ coming h ls) (fun x => exists err, x.2 = Some err).
Proof.
  intros [Hh HF] Hs Hl. unfold pushSource. destruct l as [|r l].
  - destruct Hs as (src' & Hs). eapply gives_bind; [exact Hs| |intros ? [err ->]; exists (h, Some err); split; [done|by exists err]].
    intros ? ->. apply gives_ret. split; [done|]. by exists ls.
  - destruct Hs as (rec & src' & Hs & Ek & _ & Hs'). eapply gives_bind; [exact Hs| |intros ? [err ->]; exists (h, Some err); split; [done|by exists err]].
    intros ? ->. apply gives_ret. split; [done|]. cbn [fst].
    set (x := MkScanItem (Key r) rec src'). pose proof (Heap.Push_perm scan_less h x) as Hp.
    assert (Forall2 item_ok (x :: h) (l :: ls)) as HF2.
    { constructor; [|done]. split; [done|]. unfold x, item_rec. cbn. by rewrite Ek. }
    destruct (Forall2_perm_l _ _ _ _ (symmetry Hp) HF2) as (ls' & El & HF').
    exists ls'. split; [split; [|exact HF']|].
    + by apply (Heap.Push_heap scan_less scan_le_trans scan_less_asym).
    + unfold coming. rewrite Hp, <- El. unfold x at 1, item_rec at 1. cbn. rewrite Ek. solve_Permutation.
Qed.

Lemma pop_spec h ls x0 h0 :
  hinv h ls -> h = x0 :: h0 ->
  exists h1 ls1 l0, Heap.Pop scan_less h = Some (x0, h1) /\ hinv h1 ls1 /\ item_ok x0 l0 /\
    coming h ls ≡ₚ item_rec x0 :: l0 ++ coming h1 ls1 /\
    Forall (fun r => si_key x0 <=b Key r) (coming h ls).
Proof.
  intros [Hh HF] Eh.
  destruct (Heap.Pop_spec scan_less scan_le_trans scan_less_asym h x0 h0 Hh Eh) as (h1 & Hpop & Hp & Hh1 & Hle).
  destruct (Forall2_perm_l _ _ _ _ Hp HF) as (ls2 & El & HF2).
  apply Forall2_cons_inv_l in HF2 as (l0 & ls1 & Hx & HF1 & ->).
  assert (coming h ls ≡ₚ item_rec x0 :: l0 ++ coming h1 ls1) as Hc.
  { unfold coming. rewrite Hp, El. cbn. solve_Permutation. }
  exists h1, ls1, l0. split_and!; [done|by split|done|done|]. rewrite Hc.
  assert (forall x l, item_ok x l -> Forall (fun r => si_key x <=b Key r) (item_rec x :: l)) as Hge.
  { intros x l [_ Hs]. unfold by_key in Hs. cbn in Hs. apply StronglySorted_inv in Hs as [_ Hs]. constructor; [apply bytes_le_refl|].
    change (Forall (bytes_lt (si_key x)) (Key <$> l)) in Hs. rewrite Forall_fmap in Hs. eapply Forall_impl; [exact Hs|]. intros r Hr. cbn in Hr. border. }
  change (item_rec x0 :: l0 ++ coming h1 ls1) with ((item_rec x0 :: l0) ++ coming h1 ls1).
  apply Forall_app. split; [by apply Hge|]. unfold coming. clear -HF1 Hle Hge.
  assert (forall x l, x ∈ h1 -> item_ok x l -> Forall (fun r => si_key x0 <=b Key r) (item_rec x :: l)) as H1.
  { intros x l Hin Hx. rewrite Forall_forall in Hle. specialize (scan_le_key _ _ (Hle x Hin)) as Hk.
    eapply Forall_impl; [by apply Hge|]. intros r Hr. cbn in Hr. border. }
  clear Hle Hge. induction HF1 as [|x l h1 ls1 Hx HF IH]; [constructor|].
  specialize (IH ltac:(intros; apply H1; [by right|done])). apply Forall_app in IH as [I1 I2].
  specialize (H1 x l ltac:(by left) Hx). apply Forall_cons in H1 as [? ?].
  apply Forall_app. split; [by constructor|]. cbn. by apply Forall_app.
Qed.

(** The root is taken and its source refilled. *)
Lemma gives_step h ls x0 h0 :
  hinv h ls -> h = x0 :: h0 ->
  exists h1, Heap.Pop scan_less h = Some (x0, h1) /\
    Forall (fun r => si_key x0 <=b Key r) (coming h ls) /\
    gives (pushSource h1 (si_src x0))
      (fun x => x.2 = None /\ exists ls', hinv x.1 ls' /\ coming h ls ≡ₚ item_rec x0 :: coming x.1 ls')
      (fun x => exists err, x.2 = Some err).
Proof.
  intros Hi Eh. destruct (pop_spec h ls x0 h0 Hi Eh) as (h1 & ls1 & l0 & Hpop & Hi1 & [Hy Hs] & Hc & Hge).
  exists h1. split_and!; [done|done|]. unfold by_key in Hs. cbn in Hs. apply StronglySorted_inv in Hs as [Hs _].
  eapply gives_mono; [by apply gives_push| |done]. intros [h2 err] [E (ls' & Hi2 & Hc2)]. split; [done|].
  exists ls'. split; [done|]. by rewrite Hc, Hc2.
Qed.

Lemma coming_nil ls : hinv [] ls -> coming [] ls = [].
Proof. intros [_ HF]. by apply Forall2_nil_inv_l in HF as ->. Qed.

(** [b] is a most recent one of [l]. *)
Definition best_of (b : Record) (l : list Record) : Prop := b ∈ l /\ Forall (fun s => Seq s <= Seq b)%N l.

Lemma gives_dups fuel k best seen h ls :
  hinv h ls -> length (coming h ls) < fuel -> Forall (fun r => k <=b Key r) (coming h ls) ->
  best_of (keyed_as k best) seen -> keyed k seen ->
  gives (scan_dups fuel k best h)
    (fun x => exists b g ls', x.2 = inl b /\ hinv x.1 ls' /\ coming h ls ≡ₚ g ++ coming x.1 ls' /\
       keyed k (seen ++ g) /\ best_of (keyed_as k b) (seen ++ g) /\ Forall (fun r => k <b Key r) (coming x.1 ls'))
    (fun x => failed x.2).
Proof.
  revert best seen h ls. induction fuel as [|fuel IH]; intros best seen h ls Hi Hf Hge Hb Hk; [lia|].
  cbn [scan_dups]. destruct h as [|x0 h0] eqn:Eh.
  { apply gives_ret. exists best, [], ls. cbn [fst snd app]. rewrite app_nil_r, (coming_nil ls Hi). by split_and!. }
  rewrite <- Eh in *. destruct (bytes_eqb (si_key x0) k) eqn:E.
  - apply bytes_eqb_eq in E. destruct (gives_step h ls x0 h0 Hi Eh) as (h1 & Hpop & _ & Hg).
    rewrite Hpop. cbn [of_option]. apply (gives_bind _ _ (fun a => a = (x0, h1)) (fun _ => False)); [by apply gives_ret| |done].
    intros ? ->. cbv beta iota. eapply gives_bind; [exact Hg| |].
    + intros [h2 err] [Eerr (ls2 & Hi2 & Hc)]. cbn [fst snd] in Eerr, Hi2, Hc. subst err. cbv beta iota.
      rewrite Hc in Hge, Hf. apply Forall_cons in Hge as [_ Hge]. cbn [length] in Hf.
      set (best' := if _ : bool then _ else _).
      assert (best_of (keyed_as k best') (seen ++ [item_rec x0])) as Hb'.
      { destruct Hb as [Hin Hle]. unfold best'. split.
        - apply elem_of_app. destruct (_ <? _)%N; [right|by left]. apply list_elem_of_singleton. unfold item_rec. by rewrite E.
        - apply Forall_app. cbn in Hle |- *. destruct (N.ltb_spec (Seq best) (Seq (si_rec x0))) as [Hlt|Hnlt].
          + split; [|by repeat constructor]. eapply Forall_impl; [exact Hle|]. intros s Hs. cbn in Hs |- *. lia.
          + split; [done|]. constructor; [done|constructor]. }
      assert (keyed k (seen ++ [item_rec x0])) as Hk' by (apply Forall_app; split; [done|by repeat constructor]).
      eapply gives_mono; [apply (IH best' (seen ++ [item_rec x0]) h2 ls2); [done|lia|done..]| |done].
      intros [h3 r] (b & g & ls3 & Er & Hi3 & Hc3 & Hk3 & Hb3 & Hlt). exists b, (item_rec x0 :: g), ls3. cbn [fst snd] in *.
      rewrite <- app_assoc in Hk3, Hb3. split_and!; try done. by rewrite Hc, Hc3.
    + intros [h2 err] [e Ee]. cbn in Ee. subst err. exists (h2, inr e). split; [done|by exists e].
  - apply bytes_eqb_ne in E. apply gives_ret. exists best, [], ls. cbn [fst snd app]. rewrite app_nil_r.
    destruct (pop_spec h ls x0 h0 Hi Eh) as (h1 & ls1 & l0 & _ & _ & _ & Hc & Hmin).
    split_and!; try done. rewrite Forall_forall in Hmin, Hge |- *. intros r Hr. specialize (Hmin r Hr).
    assert (k <=b si_key x0) as Hkx.
    { apply (Hge (item_rec x0)). rewrite Hc. by left. }
    apply bytes_le_lteq in Hkx as [Hkx|Hkx]; [border|by rewrite Hkx in E].
Qed.

(** What a reader bounded by [m] gets, as a relation on keys and values. *)
Definition finds (m : N) (l : list Record) (k v : bytes) : Prop := answer (newest k m l) = inl v.

(** The records a round of [Next] has used up, and its result. *)
Definition next_post (m : N) (gone : list Record) (o : option (bytes * bytes)) : Prop :=
  match o with
  | Some (k, v) => (forall k' v', finds m gone k' v' <-> k' = k /\ v' = v) /\ Forall (fun r => Key r <=b k) gone
  | None => forall k v, ~ finds m gone k v
  end.

Lemma finds_group m k g b k' v :
  keyed k g -> unique_versions g -> Forall (fun r => Seq r <= m)%N g -> best_of b g -> Key b = k ->
  finds m g k' v <-> k' = k /\ Typ b <> TypeTombstone /\ v = Value b.
Proof.
  intros Hk Hu Hm [Hin Hle] Hb. unfold finds. destruct (decide (k' = k)) as [->|Hne].
  - assert (newest k m g = Some b) as ->.
    { rewrite Forall_forall in Hm, Hle. apply newest_unique; [done|done|by split; [|apply Hm]|]. intros s Hs _. by apply Hle. }
    unfold answer, live. cbn. case_bool_decide; naive_solver.
  - rewrite newest_outside; [naive_solver|]. eapply Forall_impl; [exact Hk|]. intros r Hr. cbn in Hr. congruence.
Qed.

Lemma gives_next m fuel h ls :
  hinv h ls -> length (coming h ls) < fuel -> unique_versions (coming h ls) ->
  Forall (fun r => Seq r <= m)%N (coming h ls) ->
  gives (scan_next fuel h)
    (fun x => exists o gone ls', x.2 = inl o /\ hinv x.1 ls' /\ coming h ls ≡ₚ gone ++ coming x.1 ls' /\
       (forall r s, r ∈ gone -> s ∈ coming x.1 ls' -> Key r <b Key s) /\ next_post m gone o /\ (o = None -> x.1 = []) /\
       (o <> None -> gone <> []))
    (fun x => failed x.2).
Proof.
  revert h ls. induction fuel as [|fuel IH]; intros h ls Hi Hf Hu Hm; [lia|].
  cbn [scan_next]. destruct h as [|x0 h0] eqn:Eh.
  { apply gives_ret. exists None, [], ls. cbn. split_and!; try done. intros r s Hr. by apply not_elem_of_nil in Hr. }
  rewrite <- Eh in *. destruct (gives_step h ls x0 h0 Hi Eh) as (h1 & Hpop & Hmin & Hg).
  rewrite Hpop. cbn [of_option].
  apply (gives_bind _ _ (fun a => a = (x0, h1)) (fun _ => False)); [by apply gives_ret| |done].
  intros ? ->. cbv beta iota. eapply gives_bind; [exact Hg| |].
  2: { intros [h2 err] [e Ee]. cbn in Ee. subst err. exists (h2, inr e). split; [done|by exists e]. }
  intros [h2 err] [Eerr (ls2 & Hi2 & Hc)]. cbn [fst snd] in Eerr, Hi2, Hc. subst err. cbv beta iota.
  pose proof Hmin as Hge. rewrite Hc in Hge. apply Forall_cons in Hge as [_ Hge].
  assert (length (coming h2 ls2) < fuel) as Hf2 by (rewrite Hc in Hf; cbn in Hf; lia).
  eapply gives_bind.
  { apply (gives_dups (S fuel) (si_key x0) (si_rec x0) [item_rec x0] h2 ls2 Hi2 ltac:(lia) Hge).
    - split; [by left|]. by repeat constructor.
    - by repeat constructor. }
  2: { intros [h3 r] [e Ee]. cbn in Ee. subst r. exists (h3, inr e). split; [done|by exists e]. }
  intros [h3 r] (b & g & ls3 & Er & Hi3 & Hc3 & Hk3 & Hb3 & Hlt). cbn [fst snd] in *. subst r. cbv beta iota.
  set (G := [item_rec x0] ++ g) in *.
  assert (coming h ls ≡ₚ G ++ coming h3 ls3) as HC by (rewrite Hc, Hc3; done).
  assert (unique_versions G /\ unique_versions (coming h3 ls3)) as [HuG Hu3].
  { split; intros a a' Ha Ha'; apply Hu; rewrite HC, elem_of_app; auto. }
  rewrite HC in Hm. apply Forall_app in Hm as [HmG Hm3].
  pose proof (fun k' v => finds_group m (si_key x0) G (keyed_as (si_key x0) b) k' v Hk3 HuG HmG Hb3 eq_refl) as Hfind.
  cbn [Typ Value keyed_as] in Hfind. rewrite Forall_forall in Hlt.
  assert (forall r s, r ∈ G -> s ∈ coming h3 ls3 -> Key r <b Key s) as Hsep.
  { intros r s Hr Hs. unfold keyed in Hk3. rewrite Forall_forall in Hk3. rewrite (Hk3 r Hr). by apply Hlt. }
  case_bool_decide as Htomb.
  - eapply gives_mono; [apply (IH h3 ls3 Hi3); [|done|done]| |done].
    { rewrite Hc3, length_app in Hf2. lia. }
    intros [h4 r] (o & gone & ls4 & Er & Hi4 & Hc4 & Hsep4 & Hpost & Hend & Hne). cbn [fst snd] in *.
    assert (forall k v, finds m (G ++ gone) k v <-> finds m gone k v) as Hf4.
    { intros k v. unfold finds. rewrite newest_app. destruct (decide (k = si_key x0)) as [->|Hn].
      - rewrite (newest_outside _ m gone).
        + rewrite newer_None_r. specialize (Hfind (si_key x0) v). unfold finds in Hfind. naive_solver.
        + apply Forall_forall. intros s Hs E. assert (si_key x0 <b Key s); [|rewrite E in *; border].
          apply Hlt. rewrite Hc4, elem_of_app. by left.
      - rewrite (newest_outside k m G); [done|]. eapply Forall_impl; [exact Hk3|]. intros s Hs. cbn in Hs. congruence. }
    exists o, (G ++ gone), ls4. cbn [fst snd]. split_and!; [done|done|by rewrite HC, Hc4, app_assoc| | |done|done].
    + intros r' s [Hr|Hr]%elem_of_app Hs; [|by apply Hsep4]. apply Hsep; [done|]. rewrite Hc4, elem_of_app. by right.
    + destruct o as [[k v]|]; cbn [next_post] in Hpost |- *; [|intros k v; by rewrite Hf4].
      destruct Hpost as [Hp1 Hp2]. split; [intros; by rewrite Hf4|]. apply Forall_app. split; [|done].
      specialize (Hne ltac:(done)). destruct gone as [|s gone]; [done|]. apply Forall_cons in Hp2 as [Hs _].
      apply Forall_forall. intros r' Hr. assert (Key r' <b Key s); [|border].
      apply Hsep; [done|]. rewrite Hc4. by left.
  - apply gives_ret. exists (Some (si_key x0, Value b)), G, ls3. cbn [fst snd]. split_and!; try done.
    split; [intros k' v'; specialize (Hfind k' v'); naive_solver|]. eapply Forall_impl; [exact Hk3|]. intros r Hr. cbn in Hr. rewrite Hr.
    apply bytes_le_refl.
Qed.

(** ** A whole iteration *)

Lemma finds_in m l k v : finds m l k v -> exists r, r ∈ l /\ Key r = k.
Proof.
  unfold finds, answer. intros H. destruct (newest k m l) as [r|] eqn:E; [|done].
  apply newest_Some in E as (Hin & [Hk _] & _). by exists r.
Qed.

Lemma unique_app l1 l2 : unique_versions (l1 ++ l2) -> unique_versions l1 /\ unique_versions l2.
Proof. intros H. split; intros a b Ha Hb; apply H; rewrite elem_of_app; auto. Qed.

Lemma unique_perm l1 l2 : l1 ≡ₚ l2 -> unique_versions l2 -> unique_versions l1.
Proof. intros E H a b Ha Hb. rewrite E in Ha, Hb. by apply H. Qed.

(** The pairs of keys and values a reader bounded by [m] finds, in key order. *)
Definition listing (m : N) (l : list Record) (kvs : list (bytes * bytes)) : Prop :=
  StronglySorted bytes_lt kvs.*1 /\ forall k v, (k, v) ∈ kvs <-> finds m l k v.

(** A listing is determined. *)
Lemma listing_unique m l kvs kvs' : listing m l kvs -> listing m l kvs' -> kvs = kvs'.
Proof. intros [S1 M1] [S2 M2]. apply sorted_keys_ext; [done|done|]. intros k v. by rewrite M1, M2. Qed.

Lemma listing_cons m gone rest k v kvs :
  next_post m gone (Some (k, v)) -> (forall r s, r ∈ gone -> s ∈ rest -> Key r <b Key s) -> listing m rest kvs ->
  listing m (gone ++ rest) ((k, v) :: kvs).
Proof.
  intros [Hp Hle] Hsep [Hs Hl].
  assert (finds m gone k v) as Hkv by by apply Hp.
  destruct (finds_in _ _ _ _ Hkv) as (r & Hr & Hk).
  assert (forall s, s ∈ rest -> k <b Key s) as Hrest by (intros s Hin; rewrite <- Hk; by apply Hsep).
  split.
  - constructor; [done|]. apply Forall_forall. intros k' ([k2 v2] & -> & Hin)%list_elem_of_fmap.
    apply Hl, finds_in in Hin as (s & Hin & <-). by apply Hrest.
  - intros k' v'. rewrite elem_of_cons, Hl. unfold finds in *. rewrite newest_app.
    destruct (newest k' m rest) as [s|] eqn:E.
    + apply newest_Some in E as (Hin & [Es _] & _). specialize (Hrest s Hin).
      rewrite (newest_outside k' m gone); [split; [intros [[= -> ->]|]; [rewrite Es in Hrest; border|done]|by right]|].
      rewrite Forall_forall in Hle. apply Forall_forall. intros r' Hr' E. specialize (Hle r' Hr'). rewrite E, <- Es in Hle. border.
    + rewrite newer_None_r, Hp. split; [intros [[= -> ->]|H]; [done|done]|intros [-> ->]; by left].
Qed.

Lemma gives_collect m fuel it ls :
  hinv (sc_h it) ls -> length (coming (sc_h it) ls) < fuel -> unique_versions (coming (sc_h it) ls) ->
  Forall (fun r => Seq r <= m)%N (coming (sc_h it) ls) ->
  gives (collect fuel it)
    (fun x => sc_tables x.1 = sc_tables it /\ sc_closed x.1 = sc_closed it /\ exists kvs, x.2 = inl kvs /\ listing m (coming (sc_h it) ls) kvs)
    (fun x => sc_tables x.1 = sc_tables it /\ sc_closed x.1 = sc_closed it /\ failed x.2).
Proof.
  revert it ls. induction fuel as [|fuel IH]; intros it ls Hi Hf Hu Hm; [lia|]. cbn [collect]. unfold ScanIterator_Next at 1.
  apply (gives_bind _ _ (fun x => sc_tables x.1 = sc_tables it /\ sc_closed x.1 = sc_closed it /\
      exists o gone ls', x.2 = inl o /\ hinv (sc_h x.1) ls' /\ coming (sc_h it) ls ≡ₚ gone ++ coming (sc_h x.1) ls' /\
       (forall r s, r ∈ gone -> s ∈ coming (sc_h x.1) ls' -> Key r <b Key s) /\ next_post m gone o /\ (o = None -> sc_h x.1 = []) /\
       (o <> None -> gone <> []))
    (fun x => sc_tables x.1 = sc_tables it /\ sc_closed x.1 = sc_closed it /\ failed x.2)).
  - eapply gives_bind.
    + apply (gives_next m _ _ ls); [done|by apply scan_fuel_ok|done|done].
    + intros [h' r] H. apply gives_ret. split_and!; [done|done|exact H].
    + intros [h' r] H. eexists. split; [done|]. by split_and!.
  - intros [it' r] (Et & Ec & o & gone & ls' & Er & Hi' & Hc & Hsep & Hpost & Hend & Hne). cbn [fst snd] in *. subst r. cbv beta iota.
    apply (unique_perm _ _ (symmetry Hc)) in Hu as Hu'. apply unique_app in Hu' as [_ Hu'].
    rewrite Hc in Hm. apply Forall_app in Hm as [_ Hm].
    assert (forall k, newest k m (coming (sc_h it) ls) = newest k m (gone ++ coming (sc_h it') ls')) as Hperm.
    { intros k. apply newest_perm; [by apply (unique_perm _ _ (symmetry Hc))|done]. }
    assert (forall kvs, listing m (gone ++ coming (sc_h it') ls') kvs -> listing m (coming (sc_h it) ls) kvs) as Hlist.
    { intros kvs [H1 H2]. split; [done|]. intros k v. rewrite H2. unfold finds. by rewrite Hperm. }
    destruct o as [[k v]|].
    + eapply gives_bind.
      { apply (IH it' ls'); [done| |done|done]. rewrite Hc, length_app in Hf. specialize (Hne ltac:(done)).
        destruct gone; [done|]. cbn [length] in Hf. lia. }
      * intros [it2 r] (Et2 & Ec2 & kvs & Er & Hl). cbn [fst snd] in *. subst r. apply gives_ret.
        split_and!; [by rewrite <- Et|by rewrite <- Ec|]. eexists. split; [done|]. apply Hlist. by apply listing_cons.
      * intros [it2 r] (Et2 & Ec2 & err & Er). cbn [fst snd] in *. subst r. eexists. split; [done|].
        split_and!; [by rewrite <- Et|by rewrite <- Ec|by eexists].
    + apply gives_ret. split_and!; [done|done|]. exists []. split; [done|]. apply Hlist. rewrite (Hend eq_refl) in *.
      rewrite (coming_nil ls' Hi'), app_nil_r. split; [constructor|]. intros k v. split; [by intros ?%not_elem_of_nil|].
      intros H. by apply Hpost in H.
  - intros [it' r] (Et & Ec & err & Er). cbn [fst snd] in *. subst r. eexists. split; [done|]. split_and!; [done|done|by eexists].
Qed.

(** The iterator [it] has the pairs [kvs] left for a reader bounded by [m]. *)
Definition lists (m : N) (it : ScanIterator) (kvs : list (bytes * bytes)) : Prop := exists ls,
  hinv (sc_h it) ls /\ unique_versions (coming (sc_h it) ls) /\ Forall (fun r => Seq r <= m)%N (coming (sc_h it) ls) /\
  listing m (coming (sc_h it) ls) kvs.

Lemma listing_exists m it ls :
  hinv (sc_h it) ls -> unique_versions (coming (sc_h it) ls) -> Forall (fun r => Seq r <= m)%N (coming (sc_h it) ls) ->
  exists kvs, listing m (coming (sc_h it) ls) kvs.
Proof.
  intros Hh Hu Hm. pose proof (gives_collect m _ it ls Hh (Nat.lt_succ_diag_r _) Hu Hm (MkWorld ∅ [])) as HC.
  destruct (collect _ _ _) as [[[it' out]|?|] w']; [|done|done].
  destruct HC as [_ [[(_ & _ & kvs & _ & Hl) _]|[_ ?]]]; [by exists kvs|done].
Qed.

Definition same_scan (it it' : ScanIterator) : Prop := sc_tables it' = sc_tables it /\ sc_closed it' = sc_closed it.

(** One call of [Next]. *)
Lemma gives_Next m it kvs :
  lists m it kvs ->
  gives (ScanIterator_Next it) (fun x => same_scan it x.1 /\ x.2 = inl (head kvs) /\ lists m x.1 (tail kvs))
    (fun x => same_scan it x.1 /\ failed x.2).
Proof.
  intros (ls & Hi & Hu & Hm & Hl). unfold ScanIterator_Next.
  eapply gives_bind; [apply (gives_next m _ _ ls); [done|by apply scan_fuel_ok|done|done]| |].
  - intros [h' r] (o & gone & ls' & Er & Hi' & Hc & Hsep & Hpost & Hend & Hne). cbn [fst snd] in *. subst r.
    apply gives_ret. split; [done|]. cbn [fst snd].
    apply (unique_perm _ _ (symmetry Hc)) in Hu as Hu'. apply unique_app in Hu' as [_ Hu'].
    rewrite Hc in Hm. apply Forall_app in Hm as [_ Hm].
    destruct (listing_exists m (MkScan h' [] false) ls' Hi' Hu' Hm) as [kvs' Hl']. cbn [sc_h] in Hl'.
    assert (forall k v, finds m (coming (sc_h it) ls) k v <-> finds m (gone ++ coming h' ls') k v) as Hf.
    { intros k v. unfold finds. by rewrite (newest_perm k m _ _ (unique_perm _ _ (symmetry Hc) Hu) Hc). }
    assert (listing m (gone ++ coming h' ls') kvs) as Hl2 by (split; [apply Hl|]; intros k v; rewrite <- Hf; apply Hl).
    destruct o as [[k v]|].
    + assert (kvs = (k, v) :: kvs') as -> by (eapply listing_unique; [exact Hl2|by apply listing_cons]).
      split; [done|]. by exists ls'.
    + rewrite (Hend eq_refl) in *. rewrite (coming_nil ls' Hi'), app_nil_r in Hl2.
      assert (kvs = []) as ->.
      { destruct kvs as [|[k v] kvs]; [done|]. destruct (Hpost k v). apply Hl2. by left. }
      split; [done|]. exists ls'. cbn [fst sc_h]. split_and!; try done. rewrite (coming_nil ls' Hi'). split; [constructor|].
      intros k v. split; [by intros ?%not_elem_of_nil|]. unfold finds. by cbn.
  - intros [h' r] H. eexists. split; [done|]. by split.
Qed.

(** The fuel of the loop is enough. *)
Lemma lists_fuel m it kvs : lists m it kvs -> length kvs < scan_fuel (sc_h it).
Proof.
  intros (ls & Hi & _ & _ & Hs & Hin). apply Nat.le_lt_trans with (length (coming (sc_h it) ls)); [|by apply scan_fuel_ok].
  rewrite <- (length_fmap fst), <- (length_fmap Key). apply submseteq_length, NoDup_submseteq.
  - eapply StronglySorted_NoDup; [|exact Hs]. exact bytes_lt_irrefl.
  - intros k ([k' v] & -> & H)%list_elem_of_fmap. apply Hin, finds_in in H as (r & Hr & E).
    cbn. rewrite <- E. by apply list_elem_of_fmap_2.
Qed.

(** ** The sources *)

(** The versions of a MemTable or a table that a scan bounded by [m] may meet. *)
Definition slice (start end_ : option bytes) (m : N) (l : list Record) : list Record :=
  filter (fun r => in_range start end_ (Key r) /\ (Seq r <= m)%N) l.

Lemma mem_next_spec rest idx m :
  match filter (fun r => Seq r <= m)%N (rec_of <$> rest) with
  | [] => (mem_next rest idx m).1 = None
  | r :: l => exists kv n, mem_next rest idx m = (Some (kv.1, mem_record kv.2), idx + S n) /\ rec_of kv = r /\
      l = filter (fun r => Seq r <= m)%N (rec_of <$> drop (S n) rest) /\ S n <= length rest
  end.
Proof.
  revert idx. induction rest as [|kv rest IH]; intros idx; [done|]. cbn [mem_next fmap list_fmap]. rewrite filter_cons.
  destruct (N.leb_spec (MemTable.e_seq kv.2) m) as [Hle|Hgt].
  - rewrite decide_True by done. exists kv, 0. cbn [drop]. split_and!; [by rewrite Nat.add_1_r|done|done|cbn; lia].
  - rewrite decide_False by (cbn; lia). specialize (IH (S idx)). destruct (filter _ _) as [|r l]; [done|].
    destruct IH as (kv' & n & E & Er & El & Hn). exists kv', (S n). split_and!; [rewrite E; f_equal; lia|done|exact El|cbn; lia].
Qed.

Lemma attempt_ret {A} (a : A) : attempt (ret a) = ret (inl a).
Proof. done. Qed.

Lemma mem_yields entries idx m :
  src_yields (MemSlice entries idx m) (filter (fun r => Seq r <= m)%N (rec_of <$> drop idx entries)).
Proof.
  remember (length entries - idx) as n eqn:En. revert idx En. induction n as [n IH] using lt_wf_ind. intros idx En.
  pose proof (mem_next_spec (drop idx entries) idx m) as Hs.
  destruct (filter _ _) as [|r l]; cbn [src_yields src_next].
  - destruct (mem_next (drop idx entries) idx m) as [o idx']. cbn in Hs. subst o. eexists. rewrite attempt_ret. by apply gives_ret.
  - destruct Hs as (kv & k & E & <- & -> & Hk). rewrite length_drop in Hk. exists (mem_record kv.2), (MemSlice entries (idx + S k) m).
    rewrite E, attempt_ret. split_and!; [by apply gives_ret|done|cbn; lia|].
    rewrite drop_drop. apply (IH (length entries - (idx + S k))); lia.
Qed.

Lemma touches_RangeIterator_Next P it : touches P (RangeIterator_Next it).
Proof.
  unfold RangeIterator_Next. generalize (S (length (t_index (ri_t it)))) as fuel. intros fuel. revert it.
  induction fuel as [|fuel IH]; intros it; cbn [next_loop]; [frame|].
  assert (forall t key m es found idx, touches P (scan_group t key m es found idx)) as Hg.
  { intros t key m es. induction es as [|ie es IHe]; intros found idx; cbn [scan_group]; [frame|].
    unfold readRecordAt, decompressValue. frame. }
  frame.
Qed.

(** A range iterator that returned a record has moved on. *)
Lemma scan_group_idx t key m es found idx :
  returns (scan_group t key m es found idx) (fun x => idx <= x.2 /\
    match es with ie :: _ => bytes_eqb (ie_key ie) key = true -> idx < x.2 | [] => True end).
Proof.
  revert found idx. induction es as [|ie es IH]; intros found idx; cbn [scan_group]; [by apply returns_ret|].
  destruct (bytes_eqb (ie_key ie) key) eqn:E; [|by apply returns_ret].
  eapply (returns_bind _ _ (fun _ => True)); [by intros ????|]. intros f _.
  intros w x w' Ex. apply (IH f (S idx)) in Ex as [H _]. split; [lia|]. intros; lia.
Qed.

Lemma next_loop_idx fuel it :
  returns (next_loop fuel it) (fun x => ri_t x.2 = ri_t it /\
    (x.1 <> None -> ri_idx it < ri_idx x.2 /\ ri_idx it < length (t_index (ri_t it)))).
Proof.
  revert it. induction fuel as [|fuel IH]; intros it; cbn [next_loop]; [done|].
  destruct (drop (ri_idx it) (t_index (ri_t it))) as [|ie es] eqn:Ed; [by apply returns_ret|].
  assert (ri_idx it < length (t_index (ri_t it))) as Hlt.
  { apply (f_equal length) in Ed. rewrite length_drop in Ed. cbn in Ed. lia. }
  destruct (past_end _ _); [by apply returns_ret|].
  eapply returns_bind; [apply scan_group_idx|]. intros [found idx] [_ H]. specialize (H (proj2 (bytes_eqb_eq _ _) eq_refl)). cbn in H.
  destruct found as [r|]; [by apply returns_ret|]. intros w x w' Ex. apply IH in Ex as [H1 H2]. cbn in H1, H2.
  split; [done|]. intros Hx. destruct (H2 Hx). lia.
Qed.

Lemma reads_returns {A} (m : M A) a (Q : A -> Prop) : reads m a -> returns m Q -> Q a.
Proof.
  intros Hr HQ. specialize (Hr ∅ (MkWorld ∅ []) eq_refl). specialize (HQ (MkWorld ∅ [])).
  destruct (m (MkWorld ∅ [])) as [[b|e|] w'] eqn:E; [|done|done]. destruct Hr as [[-> _] _]. by eapply HQ.
Qed.

Lemma sst_yields t rs ri : holds t rs -> ri_t ri = t -> src_yields (SSTRange ri) (pending rs ri).
Proof.
  intros Ht. remember (length (t_index (ri_t ri)) - ri_idx ri) as n eqn:En. revert ri En.
  induction n as [n IH] using lt_wf_ind. intros ri En Et.
  destruct (reads_RangeIterator_Next t rs Ht ri Et) as (ri' & Hn & Et' & Hp).
  pose proof (reads_returns _ _ _ Hn (next_loop_idx _ ri)) as [_ Hidx]. cbn [fst snd] in Hidx.
  assert (gives (attempt (src_next (SSTRange ri)))
    (fun x => x = inl ((fun rec => (Key rec, rec)) <$> head (pending rs ri), SSTRange ri')) failed) as Hg.
  { apply gives_attempt.
    - cbn [src_next]. eapply reads_bind; [exact Hn|]. apply reads_ret.
    - intros P. cbn [src_next]. pose proof (touches_RangeIterator_Next P ri). frame. }
  destruct (pending rs ri) as [|r l] eqn:Ep; cbn [head fmap option_fmap option_map tail src_yields] in *; [by eexists|].
  destruct (Hidx ltac:(done)) as [H1 H2]. exists r, (SSTRange ri').
  split_and!; [exact Hg|by destruct r|cbn; rewrite Et', Et in *; lia|]. rewrite <- Hp.
  apply (IH (length (t_index (ri_t ri')) - ri_idx ri')); [rewrite Et', Et in *; lia|done|done].
Qed.

(** ** Reads of the slices *)

(** [l'] answers like [l] on the keys in range, and has nothing else. *)
Definition restricts (start end_ : option bytes) (m : N) (l l' : list Record) : Prop :=
  l' ⊆ l /\ Forall (fun r => Seq r <= m)%N l' /\
  forall k, newest k m l' = if decide (in_range start end_ k) then newest k m l else None.

Lemma restricts_app start end_ m l1 l2 l1' l2' :
  restricts start end_ m l1 l1' -> restricts start end_ m l2 l2' -> restricts start end_ m (l1 ++ l2) (l1' ++ l2').
Proof.
  intros (S1 & M1 & H1) (S2 & M2 & H2). split_and!.
  - intros r. rewrite !elem_of_app. naive_solver.
  - by apply Forall_app.
  - intros k. rewrite !newest_app, H1, H2. by destruct (decide _).
Qed.

Lemma restricts_concat start end_ m ls ls' : Forall2 (restricts start end_ m) ls ls' -> restricts start end_ m (concat ls) (concat ls').
Proof.
  induction 1 as [|l l' ls ls' Hl H IH]; [|by apply restricts_app]. split_and!; [done|done|]. intros k. by destruct (decide _).
Qed.

Lemma restricts_slice start end_ m l : restricts start end_ m l (slice start end_ m l).
Proof.
  split_and!.
  - intros r. unfold slice. rewrite list_elem_of_filter. tauto.
  - apply Forall_forall. intros r. unfold slice. rewrite list_elem_of_filter. tauto.
  - intros k. destruct (decide (in_range start end_ k)) as [Hr|Hr].
    + apply newest_filter. intros r [<- Hs]. done.
    + apply newest_None. intros r Hin [Hk _]. apply list_elem_of_filter in Hin as [[Hr' _] _]. by rewrite Hk in Hr'.
Qed.

Lemma restricts_visible start end_ m l : sorted_records l -> restricts start end_ m l (visible start end_ m l).
Proof.
  intros Hs. assert (forall r, r ∈ visible start end_ m l -> r ∈ l /\ (Seq r <= m)%N) as Hin.
  { intros r [_ (H1 & [_ H2] & _)%newest_Some]%elem_of_visible; done. }
  assert (visible start end_ m l ⊆ l) as Hsub by (intros r Hr; by apply Hin).
  split_and!; [done|apply Forall_forall; intros r Hr; by apply Hin|]. intros k.
  assert (unique_versions (visible start end_ m l)) as Hu by (intros a b Ha Hb; apply (sorted_unique l Hs); by apply Hin).
  destruct (decide (in_range start end_ k)) as [Hr|Hr].
  - destruct (newest k m l) as [r|] eqn:E.
    + pose proof E as (Hrl & [Hk Hm] & Hmax)%newest_Some. apply newest_unique; [done| |done|].
      * apply elem_of_visible; [done|]. by rewrite Hk.
      * intros s Hsv Hss. apply Hmax; [by apply Hin|done].
    + apply newest_None. intros r Hrv Hss. by apply (proj1 (newest_None k m l) E r); [apply Hin|].
  - apply newest_None. intros r [Hr' _]%elem_of_visible [Hk _]; [|done]. by rewrite Hk in Hr'.
Qed.

Lemma slice_by_key start end_ m mt rs : mem_holds mt rs -> by_key (slice start end_ m rs).
Proof.
  intros Hm%mem_holds_keys. unfold by_key, slice. induction rs as [|r rs IH]; [constructor|].
  cbn [fmap list_fmap] in Hm. apply StronglySorted_inv in Hm as [Hm Hr]. rewrite filter_cons.
  case_decide; [|by apply IH]. cbn. constructor; [by apply IH|]. apply Forall_fmap, Forall_filter.
  by rewrite Forall_fmap in Hr.
Qed.

Lemma restricts_perm start end_ m l l1 l2 :
  unique_versions l -> l1 ≡ₚ l2 -> restricts start end_ m l l1 -> restricts start end_ m l l2.
Proof.
  intros Hu Hp (H1 & H2 & H3). split_and!; [intros r; rewrite <- Hp; apply H1|by rewrite <- Hp|].
  intros k. rewrite <- H3. apply newest_perm; [|by symmetry]. intros a b Ha Hb. by apply Hu; apply H1.
Qed.

(** What the sources of a scan return between them. *)
Definition slices (start end_ : option bytes) (m : N) (mrs : list Record) (irs trs : list (list Record)) : list Record :=
  slice start end_ m mrs ++ concat (slice start end_ m <$> irs) ++ concat (visible start end_ m <$> trs).

Lemma restricts_view start end_ m c :
  unique_versions (view c) -> Forall sorted_records (c_tables c) ->
  restricts start end_ m (view c) (slices start end_ m (c_mem c) (c_imm c) (c_tables c)).
Proof.
  intros Hu Hs.
  assert (view c ≡ₚ c_mem c ++ concat (c_imm c) ++ concat (c_tables c)) as Hv by (unfold view; by rewrite <- Permutation_rev).
  assert (restricts start end_ m (c_mem c ++ concat (c_imm c) ++ concat (c_tables c)) (slices start end_ m (c_mem c) (c_imm c) (c_tables c))) as (H1 & H2 & H3).
  { apply restricts_app; [apply restricts_slice|]. apply restricts_app; apply restricts_concat; apply Forall2_fmap_r, Forall_Forall2_diag.
    - apply Forall_forall. intros l _. apply restricts_slice.
    - eapply Forall_impl; [exact Hs|]. intros l. apply restricts_visible. }
  split_and!; [intros r; rewrite Hv; apply H1|done|]. intros k.
  by rewrite H3, (newest_perm k m (view c) _ (unique_perm _ _ (symmetry Hv) Hu) Hv).
Qed.

(** ** [scanAt] *)

(** A heap with the records [l] added to those that were coming, or a failure. *)
Definition pushed (pre l : list Record) (e : Engine) (w : world)
    (r : list scanHeapItem + error) (e' : Engine) (w' : world) : Prop :=
  e' = e /\ w_files w' = w_files w /\
  (failed r /\ w_faults w <> [] \/
   (w_faults w = [] -> w_faults w' = []) /\ exists h ls, r = inl h /\ hinv h ls /\ coming h ls ≡ₚ l ++ pre).

Lemma wp_push h ls src l e w :
  hinv h ls -> src_yields src l -> by_key l ->
  wp (let? r := lift (pushSource h src) in opened r) (pushed (coming h ls) l e w) e w.
Proof.
  intros Hi Hs Hl. pose proof (gives_push h ls src l Hi Hs Hl w) as Hg. wp_step. apply wp_lift.
  destruct (pushSource h src w) as [[[h' err]|?|] w1]; [|done|done]. destruct Hg as [Hw [[[E Hc] Hf]|[[e2 E] Hf]]]; cbn in E; subst err.
  - cbn [opened]. wp_step. split_and!; [done|done|right]. split; [done|]. destruct Hc as (ls' & H1 & H2). by exists h', ls'.
  - cbn [opened]. wp_step. split_and!; [done|done|left]. split; [by eexists|done].
Qed.

Lemma wp_pushed_ewrap text (m : E (list scanHeapItem)) pre l e w :
  wp m (pushed pre l e w) e w -> wp (ewrap text m) (pushed pre l e w) e w.
Proof.
  intros H. wp_step. eapply wp_mono; [exact H|]. intros r e' w' (-> & Hw & [[[err ->] Hf]|[Hf (h & ls & -> & Hc)]]).
  - split_and!; [done|done|left]. split; [by eexists|done].
  - split_and!; [done|done|right]. split; [done|by exists h, ls].
Qed.

Lemma wp_pushed_bind (m : E (list scanHeapItem)) k pre l1 l2 e w :
  wp m (pushed pre l1 e w) e w ->
  (forall h ls w', hinv h ls -> coming h ls ≡ₚ l1 ++ pre -> wp (k h) (pushed (coming h ls) l2 e w') e w') ->
  wp (ebind m k) (pushed pre (l1 ++ l2) e w) e w.
Proof.
  intros Hm Hk. wp_step. eapply wp_mono; [exact Hm|]. intros r e' w' (-> & Hw & [[[err ->] Hf]|[Hf (h & ls & -> & Hi & Hc)]]); cbv beta iota.
  - split_and!; [done|done|left]. split; [by eexists|done].
  - eapply wp_mono; [by apply Hk|]. intros r e2 w2 (-> & Hw2 & H). split_and!; [done|by rewrite Hw2|].
    destruct H as [[? ?]|[Hf2 (h2 & ls2 & -> & Hi2 & Hc2)]]; [left; auto|right].
    split; [auto|]. exists h2, ls2. split_and!; [done|done|]. rewrite Hc2, Hc, app_assoc. by rewrite (Permutation_app_comm l2 l1).
Qed.

Context (start end_ : option bytes) (m : N).

Lemma wp_push_mem h ls mt rs e w :
  hinv h ls -> mem_holds mt rs -> wp (push_mem start end_ m h mt) (pushed (coming h ls) (slice start end_ m rs) e w) e w.
Proof.
  intros Hi Hm. pose proof (slice_by_key start end_ m mt rs Hm) as Hk. destruct Hm as (l & Hl & ->). unfold push_mem. wp_step.
  eapply wp_lift_option; [exact (wb_repr_range mt l start end_ Hl)|]. cbv beta iota.
  assert (slice start end_ m (rec_of <$> l) = filter (fun r => Seq r <= m)%N (rec_of <$> drop 0 (om_range start end_ l))) as E.
  { unfold slice, om_range. rewrite drop_0. clear. induction l as [|kv l IH]; [done|]. cbn [fmap list_fmap]. rewrite !filter_cons.
    change (Key (rec_of kv)) with kv.1. destruct (decide (in_range start end_ kv.1)) as [Hr|Hr].
    - cbn [fmap list_fmap]. rewrite filter_cons. destruct (decide (Seq (rec_of kv) <= m)%N) as [Hs|Hs].
      + rewrite decide_True by done. f_equal. exact IH.
      + rewrite decide_False by tauto. exact IH.
    - rewrite decide_False by tauto. exact IH. }
  rewrite E. apply wp_push; [done|apply mem_yields|]. by rewrite <- E.
Qed.

Lemma wp_push_imm h ls mts rss e w :
  hinv h ls -> Forall2 mem_holds mts rss ->
  wp (push_imm start end_ m h mts) (pushed (coming h ls) (concat (slice start end_ m <$> rss)) e w) e w.
Proof.
  intros Hi HF. revert h ls w Hi. induction HF as [|mt rs mts rss Hm HF IH]; intros h ls w Hi; cbn [push_imm].
  - wp_step. split_and!; [done|done|right]. split; [done|by exists h, ls].
  - cbn [fmap list_fmap concat]. apply wp_pushed_bind; [by apply wp_pushed_ewrap, wp_push_mem|]. intros; by apply IH.
Qed.

Lemma wp_push_tables h ls tids rss e w :
  hinv h ls -> Forall2 (readable e) tids rss ->
  wp (push_tables start end_ m h tids) (pushed (coming h ls) (concat (visible start end_ m <$> rss)) e w) e w.
Proof.
  intros Hi HF. revert h ls w Hi. induction HF as [|tid rs tids rss (t & Et & Hh & _) HF IH]; intros h ls w Hi; cbn [push_tables].
  - wp_step. split_and!; [done|done|right]. split; [done|by exists h, ls].
  - cbn [fmap list_fmap concat]. wp_step. eapply wp_load_table; [exact Et|].
    apply wp_pushed_bind; [|intros; by apply IH]. apply wp_pushed_ewrap, wp_push; [done| |].
    + rewrite <- (pending_New t rs Hh). by apply (sst_yields t rs).
    + apply visible_sorted, Hh.
Qed.

Lemma wp_scanAt_body c e w s tids :
  inv c e w -> pinned (e_store e) tids s ->
  wp (scanAt_body e start end_ m (allTablesLocked e))
    (fun r e' w' => e' = with_store s e /\ w_files w' = w_files w /\
       (failed r /\ w_faults w <> [] \/
        (w_faults w = [] -> w_faults w' = []) /\ exists h ls, r = inl h /\ hinv h ls /\ restricts start end_ m (view c) (coming h ls)))
    (with_store s e) w.
Proof.
  intros Hi Hs. unfold scanAt_body.
  assert (hinv [] []) as H0 by (split; [apply Heap.is_heap_nil|constructor]).
  eapply (wp_mono _ (pushed (coming [] []) (slices start end_ m (c_mem c) (c_imm c) (c_tables c)) (with_store s e) w)).
  - apply wp_pushed_bind; [apply wp_pushed_ewrap, wp_push_mem; [done|apply Hi]|]. intros h1 ls1 w1 Hh1 _.
    apply wp_pushed_bind.
    + apply wp_push_imm; [done|]. apply Forall2_fmap_l. eapply Forall2_impl; [apply (inv_imm _ _ _ Hi)|]. by intros ie rs [].
    + intros h2 ls2 w2 Hh2 _. apply wp_push_tables; [done|]. by eapply inv_readable.
  - intros r e' w' (-> & Hw & [?|[Hq (h & ls & -> & Hh & Hc)]]); (split_and!; [done|done|]); [by left|right].
    split; [done|]. exists h, ls. split_and!; [done|done|]. cbn in Hc. rewrite app_nil_r in Hc.
    eapply restricts_perm; [by eapply inv_unique|symmetry; exact Hc|]. apply restricts_view; [by eapply inv_unique|].
    apply Forall_lookup. intros i rs E. destruct (Forall2_lookup_r _ _ _ _ _ (inv_tables _ _ _ Hi) E) as (lt & _ & Hok).
    destruct (tok_table _ _ _ _ Hok) as (t & g & _ & Hh' & _). apply Hh'.
Qed.
End scans.

Section theorem.
Context `{FM : Bloom.FloatMath} `{FL : Flate}.

(** The outcome of reading the iterator [it] to its end and closing it. *)
Definition listed (it : ScanIterator) (e1 e : Engine) (kvs : list (bytes * bytes)) : Prop :=
  exists n, forall fuel w, n < fuel ->
  exists it' out w', collect fuel it w = (Ok (it', out), w') /\ w_files w' = w_files w /\
    (out = inl kvs \/ failed out /\ w_faults w <> []) /\
    ScanIterator_Close it' e1 w' = (Ok (e, inl (MkScan (sc_h it') (sc_tables it') true)), w').

(** What [scanAt] returns: an iterator with every table's reference, or the
    error of a system call. *)
Lemma wp_scanAt c e w start end_ m :
  inv c e w -> e_closed e = false ->
  wp (scanAt start end_ m) (fun r e1 w1 => w_files w1 = w_files w /\
    match r with
    | inr err => e1 = e /\ w_faults w <> []
    | inl it => (w_faults w = [] -> w_faults w1 = []) /\
        sc_tables it = allTablesLocked e /\ sc_closed it = false /\ e1 = with_store (e_store e1) e /\
        pinned (e_store e) (allTablesLocked e) (e_store e1) /\
        exists kvs, lists m it kvs /\ StronglySorted bytes_lt kvs.*1 /\
          forall k v, (k, v) ∈ kvs <-> in_range start end_ k /\ answer (newest k m (view c)) = inl v
    end) e w.
Proof.
  intros Hi Hc. pose proof (inv_open_tables _ _ _ Hi) as Hop.
  unfold scanAt. do 2 wp_step. rewrite Hc. wp_step.
  eapply wp_mono; [by apply wp_acquire_all|]. intros ? ? ? (-> & s & -> & -> & Hs).
  do 2 wp_step. eapply wp_mono; [by eapply wp_scanAt_body|].
  intros r ? w1 (-> & Hw1 & [[[err ->] Hf]|(Hq & h & ls & -> & Hh & Hsub & Hle & Hr)]).
  { wp_step. eapply wp_mono; [by apply wp_releaseAll|]. intros ? ? ? (-> & -> & ->). wp_step. done. }
  wp_step. split_and!; [done..|].
  assert (unique_versions (coming h ls)) as Hu by (intros a b Ha Hb; apply (inv_unique _ _ _ Hi); by apply Hsub).
  set (it := MkScan h (allTablesLocked e) false).
  destruct (listing_exists m it ls Hh Hu Hle) as [kvs Hl]. exists kvs. split_and!; [by exists ls|apply Hl|].
  intros k v. destruct Hl as [_ Hl]. rewrite Hl. unfold finds. cbn [sc_h it]. rewrite Hr.
  destruct (decide (in_range start end_ k)); [tauto|]. split; [done|]. by intros [? _].
Qed.

(** The pairs a scan lists when the reads are those of a finite map. *)
Lemma scan_of_map (start end_ : option bytes) (m : N) (c : EngineInv.contents) (sp : gmap bytes bytes) (kvs : list (bytes * bytes)) :
  StronglySorted bytes_lt kvs.*1 ->
  (forall k v, (k, v) ∈ kvs <-> in_range start end_ k /\ answer (newest k m (view c)) = inl v) ->
  (forall k, answer (newest k m (view c)) = match sp !! k with Some v => inl v | None => inr ErrNotFound end) ->
  kvs = om_range start end_ (om_of_map sp).
Proof.
  intros Hs Hin Hsp. apply sorted_keys_ext; [exact Hs|apply om_range_sorted, om_of_map_sorted|]. intros k v.
  rewrite Hin, elem_of_om_range, elem_of_om_of_map, Hsp. destruct (sp !! k); naive_solver.
Qed.

(** Closing the iterator gives back its references. *)
Lemma Close_scan it e s w :
  Forall (open_table (e_store e)) (allTablesLocked e) ->
  sc_tables it = allTablesLocked e -> sc_closed it = false -> pinned (e_store e) (allTablesLocked e) s ->
  ScanIterator_Close it (with_store s e) w = (Ok (e, inl (MkScan (sc_h it) (sc_tables it) true)), w).
Proof.
  intros Hop Et Ec Hp. unfold ScanIterator_Close. rewrite Ec, Et.
  destruct (wp_run _ _ _ _ (wp_releaseAll e w _ _ Hop Hp)) as (? & ? & ? & E3 & -> & -> & ->).
  unfold ebind, bind. by rewrite E3.
Qed.

(** C19: scans.  [scanAt] on an open engine gives an iterator unless a system
    call fails.  Read to its end, at any later time, the iterator returns in
    ascending key order, once each, exactly the keys in range for which a point
    read at the same sequence number finds a value, with that value; [Next]
    never panics and always ends.  Closing the iterator, or failing, gives back
    every table reference: the engine is what it was. *)
Theorem scan_matches_reads c e w start end_ m :
  inv c e w -> e_closed e = false ->
  exists r e1 w1, scanAt start end_ m e w = (Ok (e1, r), w1) /\ w_files w1 = w_files w /\
    match r with
    | inr err => e1 = e /\ w_faults w <> []
    | inl it => sc_tables it = allTablesLocked e /\ e1 = with_store (e_store e1) e /\
        pinned (e_store e) (allTablesLocked e) (e_store e1) /\
        exists kvs, listed it e1 e kvs /\ StronglySorted bytes_lt kvs.*1 /\
          forall k v, (k, v) ∈ kvs <-> in_range start end_ k /\ answer (newest k m (view c)) = inl v
    end.
Proof.
  intros Hi Hc. destruct (wp_run _ _ _ _ (wp_scanAt c e w start end_ m Hi Hc)) as (r & e1 & w1 & E & Hw & H).
  exists r, e1, w1. split_and!; [done|done|].
  destruct r as [it|err]; [|done]. destruct H as (_ & Ht & Hcl & E1 & Hpin & kvs & Hl & Hs & Hin).
  split_and!; [done|done|done|]. exists kvs. split_and!; [|done|done].
  destruct Hl as (ls & Hh & Hu & Hle & Hl).
  exists (length (coming (sc_h it) ls)). intros fuel w2 Hf. pose proof (gives_collect m fuel it ls Hh Hf Hu Hle w2) as HC.
  destruct (collect fuel it w2) as [[[it' out]|?|] w3]; [|done|done]. exists it', out, w3. destruct HC as [Hw3 HC].
  assert (sc_tables it' = sc_tables it /\ sc_closed it' = sc_closed it /\ (out = inl kvs \/ failed out /\ w_faults w2 <> []))
    as (Et & Ecl & Ho).
  { destruct HC as [[(? & ? & kvs' & E2 & Hl') _]|[(? & ? & ?) ?]]; (split_and!; [done|done|]); [left|by right].
    cbn [snd] in E2. subst out. f_equal. by eapply listing_unique. }
  split_and!; [done|done|done|]. rewrite E1, Close_scan; [done|by eapply inv_open_tables|congruence|congruence|done].
Qed.
End theorem.
