(* ===== verification/EngineFrame.v ===== *)
(** * What the engine's methods leave alone

    [calm m]: in every state, [m] leaves the directory and the open snapshots as they
    are, and where no system call is to fail none is left to fail after it.  Every method is
    calm except taking and closing a snapshot. *)

From S2P Require Import Prelude GoIO IOLogic MemTable Versions SSTable Table Merge Metrics FileNames EngineState EngineLogic Engine EngineFlush EngineRead Scan ScanRead.
From S2P Require Wal Bloom.
From stdpp Require Import base gmap sets list strings numbers fin_maps sorting.
Open Scope nat_scope.

Definition fixed (e : Engine) : string * gmap N Z := (e_dir e, e_activeSnapshots e).

Definition calm {A} (m : E A) : Prop := forall e w e' r w', m e w = (Ok (e', r), w') ->
  fixed e' = fixed e /\ (w_faults w = [] -> w_faults w' = []).

Lemma wp_calm {A} (m : E A) Q e w :
  calm m -> wp m Q e w -> wp m (fun r e' w' => Q r e' w' /\ fixed e' = fixed e /\ (w_faults w = [] -> w_faults w' = [])) e w.
Proof. intros Hc H. apply wp_run in H as (r & e' & w' & E & H). apply (wp_of_run _ _ _ _ _ _ _ E). split; [done|]. by apply Hc in E. Qed.

(** ** Rules *)

Section rules.
Context {A B : Type}.

Lemma calm_eret (a : A) : calm (eret a).
Proof. by intros e w e' r w' [= <- _ <-]. Qed.

Lemma calm_ethrow err : calm (ethrow err : E A).
Proof. by intros e w e' r w' [= <- _ <-]. Qed.

Lemma calm_ebind (m : E A) (k : A -> E B) : calm m -> (forall a, calm (k a)) -> calm (ebind m k).
Proof.
  intros Hm Hk e w e' r w'. unfold ebind, bind. destruct (m e w) as [[[e1 [a|err]]|?|] w1] eqn:E; [|intros [= <- _ <-]; by apply Hm in E|done..].
  intros H. apply Hm in E as [E1 F1]. apply Hk in H as [E2 F2]. split; [congruence|auto].
Qed.

Lemma calm_etry (m : E A) : calm m -> calm (etry m).
Proof.
  intros Hm e w e' r w'. unfold etry, bind. destruct (m e w) as [[[e1 r1]|?|] w1] eqn:E; [|done..].
  intros [= <- _ <-]. by apply Hm in E.
Qed.

Lemma calm_ewrap text (m : E A) : calm m -> calm (ewrap text m).
Proof.
  intros Hm e w e' r w'. unfold ewrap, bind. destruct (m e w) as [[[e1 r1]|?|] w1] eqn:E; [|done..].
  intros [= <- _ <-]. by apply Hm in E.
Qed.

Lemma calm_of_sum (r : A + error) : calm (of_sum r).
Proof. destruct r; [apply calm_eret|apply calm_ethrow]. Qed.

Lemma calm_lift (m : M A) : touches (fun _ => True) m -> calm (lift m).
Proof.
  intros Hm e w e' r w'. unfold lift, bind, attempt. destruct (m w) as [[a|err|] w1] eqn:E; intros [= <- _ <-];
    (split; [done|]); by apply (Hm _ _ _ E).
Qed.
End rules.

Lemma calm_eget : calm eget.
Proof. by intros e w e' r w' [= <- _ <-]. Qed.

Lemma calm_emod f : (forall e, fixed (f e) = fixed e) -> calm (emod f).
Proof. intros Hf e w e' r w' [= <- _ <-]. by split. Qed.

Lemma calm_nextGen : calm nextGen.
Proof. by intros e w e' r w' [= <- _ <-]. Qed.

Lemma calm_alloc_table t : calm (alloc_table t).
Proof. by intros e w e' r w' [= <- _ <-]. Qed.

Lemma calm_load_table tid : calm (load_table tid).
Proof. intros e w e' r w'. unfold load_table. destruct (e_store e !! tid); [|done]. by intros [= <- _ <-]. Qed.

Lemma calm_efor {X} (f : X -> E unit) l : (forall x, calm (f x)) -> calm (efor l f).
Proof. intros Hf. induction l as [|x l IH]; cbn [efor]; [apply calm_eret|]. by apply calm_ebind. Qed.

Lemma calm_clock h : calm (observe_since h).
Proof. by apply calm_emod. Qed.

Create HintDb calm.
#[export] Hint Resolve calm_eret calm_ethrow calm_eget calm_nextGen calm_alloc_table calm_load_table calm_of_sum calm_clock : calm.

(** [quietly] proves [calm] goals by following the structure of the code. *)
Ltac quietly :=
  repeat first
    [ progress intros
    | solve [eauto 2 with calm]
    | match goal with
      | |- calm (ebind _ _) => apply calm_ebind
      | |- calm (etry _) => apply calm_etry
      | |- calm (ewrap _ _) => apply calm_ewrap
      | |- calm (lift _) => apply calm_lift; try solve [frame]
      | |- calm (emod _) => apply calm_emod; done
      | |- calm (efor _ _) => apply calm_efor
      | |- calm (match ?x with _ => _ end) => destruct x
      end ].

(** ** Calls outside the engine *)

Section calls.
Context `{FM : Bloom.FloatMath} `{FL : Flate}.

#[local] Abbreviation anywhere := (fun _ : string => True).

Lemma touches_mono {A} (P Q : string -> Prop) (m : M A) : (forall p, P p -> Q p) -> touches P m -> touches Q m.
Proof. intros HPQ Hm w r w' E. destruct (Hm w r w' E) as [H1 H2]. split; [|done]. intros q Hq. apply H1. auto. Qed.

Lemma anywhere_Write nilEmpty path rs compress : touches anywhere (SSTable.Write nilEmpty path rs compress).
Proof. eapply touches_mono; [|apply touches_Write]. done. Qed.

Lemma anywhere_Append wl rec : touches anywhere (Wal.Append wl rec).
Proof. unfold Wal.Append. frame. Qed.

Lemma anywhere_Close wl : touches anywhere (Wal.Close wl).
Proof. unfold Wal.Close. frame. Qed.

Lemma anywhere_Wal_Open path : touches anywhere (Wal.Open path).
Proof. unfold Wal.Open. frame. Qed.

Lemma anywhere_Wal_Remove path : touches anywhere (Wal.Remove path).
Proof. unfold Wal.Remove. frame. Qed.

Lemma anywhere_Release t : touches anywhere (Release t).
Proof. unfold Release. frame. Qed.

Lemma anywhere_Merge fuel ts out mk bottom compress : touches anywhere (Merge.Merge fuel ts out mk bottom compress).
Proof.
  unfold Merge.Merge. destruct ts as [|t ts]; [frame|].
  apply touches_bind; [apply touches_open_iters|]. intros iters.
  apply touches_bind; [apply touches_attempt|intros r; apply touches_bind; [apply touches_close_all|intros; frame]].
  unfold Merge_body. apply touches_bind; [apply touches_fill|]. intros [h its].
  apply touches_bind; [apply touches_merge_loop|]. intros [|r rs]; [frame|apply anywhere_Write].
Qed.

Lemma anywhere_pushSource h src : touches anywhere (pushSource h src).
Proof.
  unfold pushSource. apply touches_bind; [apply touches_attempt|frame].
  destruct src as [entries idx m|ri]; cbn [src_next]; [frame|]. apply touches_bind; [apply touches_RangeIterator_Next|frame].
Qed.
#[local] Hint Resolve anywhere_pushSource : io.

Lemma anywhere_scan_dups fuel key best h : touches anywhere (scan_dups fuel key best h).
Proof. revert best h. induction fuel as [|fuel IH]; intros best h; cbn [scan_dups]; frame. Qed.
#[local] Hint Resolve anywhere_scan_dups : io.

Lemma anywhere_scan_next fuel h : touches anywhere (scan_next fuel h).
Proof. revert h. induction fuel as [|fuel IH]; intros h; cbn [scan_next]; frame. Qed.

Lemma anywhere_Next it : touches anywhere (ScanIterator_Next it).
Proof. unfold ScanIterator_Next. apply touches_bind; [apply anywhere_scan_next|frame]. Qed.
End calls.

#[export] Hint Resolve anywhere_Write anywhere_Append anywhere_Close anywhere_Wal_Open anywhere_Wal_Remove anywhere_Release
  anywhere_Merge anywhere_pushSource anywhere_Next touches_Open touches_Get : io.

(** ** Methods *)

Section methods.
Context `{FM : Bloom.FloatMath} `{FL : Flate}.
Context (coins : N -> list bool).

Lemma calm_inc c : calm (inc c).
Proof. by apply calm_emod. Qed.
#[local] Hint Resolve calm_inc : calm.

Lemma calm_acquire_all tids : calm (acquire_all tids).
Proof. unfold acquire_all, store_table. quietly. Qed.

Lemma calm_table_call f tid : (forall t, touches (fun _ => True) (f t)) -> calm (table_call f tid).
Proof. intros Hf. unfold table_call, store_table. quietly. Qed.

Lemma calm_releaseAll tids : calm (releaseAll tids).
Proof. unfold releaseAll. apply calm_efor. intros tid. apply calm_ebind; [apply calm_table_call, anywhere_Release|quietly]. Qed.
#[local] Hint Resolve calm_acquire_all calm_releaseAll : calm.

Lemma calm_consider_imm key m best mts : calm (consider_imm key m best mts).
Proof. revert best. induction mts as [|mt mts IH]; intros best; cbn [consider_imm]; unfold consider_mem; quietly. Qed.

Lemma calm_consider_tables key m best tids : calm (consider_tables key m best tids).
Proof. revert best. induction tids as [|tid tids IH]; intros best; cbn [consider_tables]; quietly. Qed.
#[local] Hint Resolve calm_consider_imm calm_consider_tables : calm.

Lemma calm_getAt key m : calm (getAt key m).
Proof. unfold getAt, getAt_body, consider_mem. quietly. Qed.
#[local] Hint Resolve calm_getAt : calm.

Lemma calm_recordGet err : calm (recordGet err).
Proof. unfold recordGet. quietly. Qed.
#[local] Hint Resolve calm_recordGet : calm.

Lemma calm_Get key : calm (Engine.Get key).
Proof. unfold Engine.Get. quietly. Qed.

Lemma calm_Snapshot_Get s key : calm (Snapshot_Get s key).
Proof. unfold Snapshot_Get. quietly. Qed.

Lemma calm_maybeTrigger : calm maybeTriggerCompaction.
Proof. unfold maybeTriggerCompaction. quietly. Qed.
#[local] Hint Resolve calm_maybeTrigger : calm.

Lemma calm_flushWorker_step : calm flushWorker_step.
Proof. unfold flushWorker_step, doFlush, doFlush_body, flush_write, flush_commit. quietly. Qed.
#[local] Hint Resolve calm_flushWorker_step : calm.

Lemma calm_rotate : calm (Engine.rotate coins).
Proof. unfold Engine.rotate, rotate_swap, send_job. quietly. Qed.
#[local] Hint Resolve calm_rotate : calm.

Lemma calm_write key value typ : calm (Engine.write coins key value typ).
Proof. unfold Engine.write, write_locked, write_begin, write_log, write_apply. quietly. Qed.
#[local] Hint Resolve calm_write : calm.

Lemma calm_Put key value : calm (Engine.Put coins key value).
Proof. unfold Engine.Put. quietly. Qed.

Lemma calm_Delete key : calm (Engine.Delete coins key).
Proof. unfold Engine.Delete. quietly. Qed.

Lemma calm_runCompaction : calm runCompaction.
Proof.
  unfold runCompaction, compact_merge, compact_commit. quietly.
  all: apply calm_table_call; intros; unfold Retire; apply anywhere_Release.
Qed.
#[local] Hint Resolve calm_runCompaction : calm.

Lemma calm_compactionLoop_step : calm compactionLoop_step.
Proof. unfold compactionLoop_step. quietly. Qed.

Lemma calm_push_mem start end_ m h mt : calm (push_mem start end_ m h mt).
Proof. unfold push_mem, opened. quietly. Qed.
#[local] Hint Resolve calm_push_mem : calm.

Lemma calm_push_imm start end_ m h mts : calm (push_imm start end_ m h mts).
Proof. revert h. induction mts as [|mt mts IH]; intros h; cbn [push_imm]; quietly. Qed.

Lemma calm_push_tables start end_ m h tids : calm (push_tables start end_ m h tids).
Proof. revert h. induction tids as [|tid tids IH]; intros h; cbn [push_tables]; unfold push_table, opened; quietly. Qed.
#[local] Hint Resolve calm_push_imm calm_push_tables : calm.

Lemma calm_scanAt start end_ m : calm (scanAt start end_ m).
Proof. unfold scanAt, scanAt_body. quietly. Qed.
#[local] Hint Resolve calm_scanAt : calm.

Lemma calm_Scan start end_ : calm (Scan start end_).
Proof. unfold Scan. quietly. Qed.

Lemma calm_Snapshot_Scan s start end_ : calm (Snapshot_Scan s start end_).
Proof. unfold Snapshot_Scan. quietly. Qed.

Lemma calm_ScanIterator_Close it : calm (ScanIterator_Close it).
Proof. unfold ScanIterator_Close. quietly. Qed.

Lemma calm_set_levels lvl counts : calm (set_levels lvl counts).
Proof. revert lvl. induction counts as [|n counts IH]; intros lvl; cbn [set_levels]; quietly. Qed.
#[local] Hint Resolve calm_set_levels : calm.

Lemma calm_Stats : calm Engine.Stats.
Proof. unfold Engine.Stats, gauge_set. quietly. Qed.
End methods.

#[export] Hint Resolve calm_inc calm_Get calm_Snapshot_Get calm_flushWorker_step calm_compactionLoop_step calm_Put calm_Delete
  calm_Scan calm_Snapshot_Scan calm_ScanIterator_Close calm_Stats : calm.

(** ** Metrics and time *)

(** The engine with other metrics and another clock. *)
Definition remetered (e e' : Engine) : Prop := exists m k, e' = set_clock k (set_metrics m e).

Lemma remetered_set e m k e0 : e = set_clock k (set_metrics m e0) -> remetered e0 e.
Proof. intros ->. by exists m, k. Qed.

Lemma wp_set_levels lvl counts e w :
  wp (set_levels lvl counts) (fun r e' w' => r = inl tt /\ w' = w /\ exists m, e' = set_metrics m e) e w.
Proof.
  revert lvl e. induction counts as [|n counts IH]; intros lvl e; cbn [set_levels].
  - wp_step. split_and!; [done|done|]. exists (e_m e). by destruct e.
  - do 2 wp_step. eapply wp_mono; [apply IH|]. intros r e' w' (-> & -> & m & ->). split_and!; [done|done|]. by exists m.
Qed.

Lemma wp_Stats e w : wp Engine.Stats (fun r e' w' => w' = w /\ (exists s, r = inl s) /\ exists m, e' = set_metrics m e) e w.
Proof.
  unfold Engine.Stats, gauge_set. do 8 wp_step. wp_step. eapply wp_mono; [apply wp_set_levels|].
  intros r e' w' (-> & -> & m & ->). wp_step. split_and!; [done|by eexists|]. by exists m.
Qed.
