(* ===== verification/EngineClose.v ===== *)
(** * Closing

    [Close] waits for the flush worker to empty its queue, flushes the active
    MemTable, removes the last log and releases the tables: without failing
    system calls everything that was written is in tables then, and the next
    [Open] reads it back. *)

From S2P Require Import Prelude OrdMap GoIO IOLogic MemTable Versions SSTable Table Merge Metrics FileNames EngineState EngineLogic EngineInv Engine EngineRead EngineFlush EngineLogs EngineWrite EngineCompact EngineOpen Store EngineRestart EngineFrame.
From S2P Require Wal SkipList Bloom.
From Stdlib Require Import Ascii.
From stdpp Require Import base gmap sets list strings numbers fin_maps sorting.
Open Scope nat_scope.

Section close.
Context `{FM : Bloom.FloatMath} `{FL : Flate} `{HFL : !FlateLaws FL}.

(** ** The drain *)

(** The state [Close] starts from and keeps while the queue is emptied. *)
Record closing (c : contents) (e : Engine) (w : world) : Prop := {
  cl_inv : inv c e w;
  cl_layered : layered c e;
  cl_order : in_order e;
  cl_quiet : w_faults w = [];
  cl_durable : durable e w;
  cl_fits : Forall (flushable (o_compress (e_opts e))) (c_imm c);
  cl_levels : levels_ok e;
  cl_config : config_ok (e_opts e) }.

(** Every key keeps its value, in the version it has, and no version is new. *)
Definition keeps_live (c c' : contents) : Prop :=
  (forall key, live (newest key unboundedSeq (view c')) = live (newest key unboundedSeq (view c))) /\ view c' ⊆ view c.

Lemma keeps_live_refl c : keeps_live c c.
Proof. done. Qed.

Lemma keeps_live_trans c1 c2 c3 : keeps_live c1 c2 -> keeps_live c2 c3 -> keeps_live c1 c3.
Proof. intros [H1 S1] [H2 S2]. split; [intros key; by rewrite H2|by etrans]. Qed.

Lemma keeps_live_reads c c' : unique_versions (view c') -> same_reads c c' -> keeps_live c c'.
Proof. intros Hu H. split; [intros key; by rewrite H|]. intros r Hr. eapply newest_elem_of; [exact Hu|exact Hr|apply H]. Qed.

Lemma keeps_live_answer c c' key : keeps_live c c' -> answer (newest key unboundedSeq (view c')) = answer (newest key unboundedSeq (view c)).
Proof. intros [H _]. unfold answer. by rewrite H. Qed.

Lemma steady_trans e1 e2 e3 : steady e1 e2 -> steady e2 e3 -> steady e1 e3.
Proof. unfold steady. intuition congruence. Qed.

Lemma closing_step c e w :
  closing c e w -> (e_genCounter e < max_u64)%N ->
  wp flushWorker_step (fun r e' w' => r = inl tt /\ steady e e' /\ e_flushCh e' = tail (e_flushCh e) /\
    (e_genCounter e' <= e_genCounter e + 1)%N /\ exists c', closing c' e' w' /\ keeps_live c c' /\ c_mem c' = c_mem c) e w.
Proof.
  intros [Hi HL Ho Hw Hd Hfl Hlv Hcf] Hg. eapply wp_mono.
  { apply (wp_flushWorker_step [] c e w Hi); [exists (e_imm e); rewrite app_nil_r; split; [done|apply Hi]| |done].
    intros ls [|l ls'] E Hl; [|done]. rewrite app_nil_r in E. by rewrite <- E. }
  intros r e' w' Hpost. pose proof (durable_flush [] c e w r e' w' Hi Hg Hpost HL (proj2 (in_order_nil e) Ho) Hw Hd) as Hd'.
  destruct Hpost as (-> & Hst & Hq & _ & Hfa & Hgr & Hmv & c' & Hi' & Hr & Hsub & Hm & _ & HL').
  destruct (HL' HL (proj2 (in_order_nil e) Ho)) as [HLy [Ho'|Hf]]; [|by rewrite Hw in Hf].
  split_and!; [done|done|done| |].
  - specialize (Hmv Hw). destruct (e_flushCh e); [destruct Hmv as [-> _]; lia|]. rewrite (mv_gen _ _ _ _ _ _ _ _ Hmv). lia.
  - exists c'. split_and!; [|by apply keeps_live_reads; [eapply inv_unique|]|done].
    pose proof Hst as (_ & _ & _ & Eo & _). split; try done; rewrite ?Eo; try done.
    + by apply in_order_nil.
    + by apply Hfa.
    + by eapply Forall_sublist.
    + by eapply levels_grown.
Qed.

(** A round of the compaction loop. *)
Lemma closing_compact c e w :
  closing c e w -> within_limits EvCompact e w ->
  wp compactionLoop_step (fun r e' w' => r = inl tt /\ steady e e' /\ exists c', closing c' e' w' /\ keeps_live c c' /\ c_mem c' = c_mem c) e w.
Proof.
  intros [Hi HL Ho Hw Hd Hfl Hlv Hcf] [Hg Hmg]. specialize (Hmg c Hi). unfold compactionLoop_step. do 2 wp_step. destruct (e_compactCh e).
  2: { wp_step. split_and!; [done|done|]. by exists c. }
  set (e1 := set_compactCh false e). do 4 wp_step. fold e1.
  assert (inv c e1 w) as Hi1 by (by eapply inv_irrelevant). assert (layered c e1) as HL1 by (destruct HL; by split).
  eapply wp_mono; [apply wp_calm; [apply calm_runCompaction|by apply (wp_runCompaction c e1 w)]|].
  intros r e2 w2 ((Hst & Hq & Him & Hdur & Hr) & _ & Hw2). destruct Hr as [[-> (c' & Hi' & Hl & HL' & Hlv' & Hm & Hci & Hsub)]|[_ Hf]]; [|done].
  wp_steps. split_and!; [done|done|]. pose proof Hst as (_ & _ & _ & Eo & _). exists c'. split_and!; [split| |done]; rewrite ?Eo, ?Hci; try done.
  - unfold in_order. rewrite Hq, Him. exact Ho.
  - by apply Hw2.
  - apply Hdur; [done|]. by apply (durable_same e e1 w w).
  - split; [|by eapply (pass_leaves_sub c e1 w)]. intros key. apply Hl. by destruct (minActive_spec (e_activeSnapshots e1)).
Qed.

(** The work the goroutines do before they stop. *)
Lemma closing_work ws c e w :
  closing c e w -> work_within ws e w ->
  wp (run_work ws) (fun r e' w' => r = inl tt /\ steady e e' /\ exists c', closing c' e' w' /\ keeps_live c c' /\ c_mem c' = c_mem c) e w.
Proof.
  unfold run_work. revert c e w. induction ws as [|x ws IH]; intros c e w Hc Hl; cbn [efor]; [wp_step; split_and!; [done|done|by exists c]|].
  destruct Hl as [Hl Hn].
  assert (wp (work_round x) (fun r e' w' => r = inl tt /\ steady e e' /\ exists c', closing c' e' w' /\ keeps_live c c' /\ c_mem c' = c_mem c) e w) as H.
  { unfold work_round. do 2 wp_step. destruct x; (eapply wp_mono; [by first [apply (closing_step c); [done|apply Hl]|apply (closing_compact c)]|]).
    - intros r e' w' (-> & Hst & _ & _ & H). by wp_step.
    - intros r e' w' (-> & Hst & H). by wp_step. }
  destruct (wp_run _ _ _ _ H) as (r & e1 & w1 & E & -> & Hst & c1 & Hc1 & Hk & Hm). rewrite E in Hn. wp_step.
  apply (wp_of_run _ _ _ _ _ _ _ E). cbv beta iota. eapply wp_mono; [by apply (IH c1)|].
  intros r e2 w2 (-> & Hst2 & c2 & Hc2 & Hk2 & Hm2). split_and!; [done|by eapply steady_trans|]. exists c2.
  split_and!; [done|by eapply keeps_live_trans|congruence].
Qed.

Lemma wp_drain n c e w :
  closing c e w -> length (e_flushCh e) = n -> (e_genCounter e + N.of_nat n < max_u64)%N ->
  wp (flushWorker_drain n) (fun r e' w' => r = inl tt /\ steady e e' /\ e_flushCh e' = [] /\
    (e_genCounter e' <= e_genCounter e + N.of_nat n)%N /\ exists c', closing c' e' w' /\ keeps_live c c' /\ c_mem c' = c_mem c) e w.
Proof.
  revert c e w. induction n as [|n IH]; intros c e w Hc Hn Hg; cbn [flushWorker_drain].
  { wp_step. split_and!; [done|done|by apply nil_length_inv|lia|]. by exists c. }
  wp_step. eapply wp_mono; [apply (closing_step c e w Hc); lia|]. intros r e1 w1 (-> & Hst & Hq & Hg1 & c1 & Hc1 & Hr & Hm).
  eapply wp_mono; [apply (IH c1 e1 w1 Hc1); [|lia]|].
  { rewrite Hq. destruct (e_flushCh e); cbn in *; lia. }
  intros r e2 w2 (-> & Hst2 & Hq2 & Hg2 & c2 & Hc2 & Hr2 & Hm2). split_and!; [done|by eapply steady_trans|done|lia|].
  exists c2. split_and!; [done|by eapply keeps_live_trans|congruence].
Qed.

(** ** The last log *)

Lemma stored_drop_log ie ls e w w' :
  stored (ie :: ls) e w -> (e_genCounter e < max_u64)%N -> Forall (fun id => id <= e_genCounter e)%N (im_id <$> ie :: ls) ->
  w_files w' = delete (im_walPath ie) (w_files w) -> stored ls e w'.
Proof.
  intros Hst Hg Hids Hw.
  assert (forall p, p <> im_walPath ie -> w_files w' !! p = w_files w !! p) as Hne by (intros p Hn; by rewrite Hw, lookup_delete_ne).
  assert (forall p, is_Some (w_files w' !! p) -> p <> im_walPath ie /\ is_Some (w_files w !! p)) as Hback.
  { intros p Hp. assert (p <> im_walPath ie) as Hn by (intros ->; rewrite Hw, lookup_delete_eq in Hp; by destruct Hp).
    split; [done|]. by rewrite <- Hne. }
  destruct (stored_log _ _ _ ie Hst) as [recs0 Hok0]; [by left|]. pose proof (log_ok_wal _ _ _ _ Hok0) as Hwal. split.
  - destruct (du_logs _ _ _ Hst) as (recss & HL & Hs & Hq). apply Forall2_cons_inv_l in HL as (recs & rest & _ & HL & ->).
    exists rest. cbn in Hs, Hq. rewrite fmap_app in Hs.
    split_and!; [|by apply StronglySorted_app_1_r in Hs|by apply Forall_app in Hq as [_ Hq]].
    apply Forall2_same_length_lookup_2; [by eapply Forall2_length|]. intros i x rs H1 H2.
    eapply log_ok_keep; [by eapply Forall2_lookup_lr|]. apply Hne, not_eq_sym.
    apply (logs_paths e w [ie] ls ie x Hst Hg Hids); [by left|by eapply list_elem_of_lookup_2].
  - pose proof (du_ids _ _ _ Hst) as Hid. by apply StronglySorted_inv in Hid as [Hid _].
  - intros p [Hn Hp]%Hback Hf. pose proof (du_wals _ _ _ Hst p Hp Hf) as Hin. by apply elem_of_cons in Hin as [->|Hin].
  - intros p l g [_ Hp]%Hback Hf. by apply (du_ssts _ _ _ Hst p l g).
  - intros lt Hlt. destruct (du_tables _ _ _ Hst lt Hlt) as (t & g & Et & Hr & Hf & f & Hs). exists t, g.
    split_and!; [done..|]. exists f. rewrite Hne; [done|]. intros E. rewrite E in Hf.
    by eapply (sst_path_wal _ _ _ _ (sst_file_path _ _ _ _ Hf)).
Qed.

(** ** Giving the tables up *)

Lemma Release_quiet t w :
  w_faults w = [] -> t_removeOnZero t = false ->
  Release t w = (Ok (set_life t (t_refCount t - 1) false (if (0 <? t_refCount t - 1)%Z then t_released t else true), None), w).
Proof.
  destruct w as [fs fl]. cbn. intros -> Hrm. unfold Release. cbv zeta. rewrite Hrm. destruct (0 <? t_refCount t - 1)%Z; done.
Qed.

Lemma wp_release_tables tids e w :
  w_faults w = [] -> (forall tid, tid ∈ tids -> exists t, e_store e !! tid = Some t /\ t_removeOnZero t = false) ->
  wp (release_tables tids None) (fun r e' w' => r = inl None /\ w' = w /\ exists s, e' = with_store s e) e w.
Proof.
  revert e. induction tids as [|tid tids IH]; intros e Hw Hs; cbn [release_tables].
  { wp_step. split_and!; [done|done|]. exists (e_store e). by rewrite with_store_id. }
  destruct (Hs tid ltac:(by left)) as (t & Et & Hrm). wp_step. unfold table_call. wp_step.
  eapply wp_load_table; [exact Et|]. wp_step. apply wp_lift. rewrite (Release_quiet t w Hw Hrm). unfold store_table. wp_steps.
  eapply wp_mono; [apply IH; [done|]|].
  - intros i Hi. cbn. destruct (decide (i = tid)) as [->|Hn]; [rewrite lookup_insert_eq; by eexists|].
    rewrite lookup_insert_ne by done. apply Hs. by right.
  - intros r e' w' (-> & -> & s & ->). split_and!; [done|done|]. exists s. by destruct e.
Qed.
(** ** The flush of the active MemTable *)

Lemma mem_holds_len mt rs : mem_holds mt rs -> MemTable.Len mt = length rs.
Proof. intros (l & Hl & ->). rewrite length_fmap. exact (wb_repr_len mt l Hl). Qed.

(** An engine [eo] with the tables [tabs] of [e], and nothing else. *)
Definition tables_only (tabs : list (list Record)) (eo e : Engine) (w : world) : Prop :=
  inv (MkContents [] [] tabs) eo w /\ e_dir eo = e_dir e /\ e_tables eo = e_tables e /\ e_store eo = e_store e /\
  e_seq eo = e_seq e /\ e_genCounter eo = e_genCounter e.

Lemma inv_without_mem c e w : inv c e w -> inv (MkContents [] (c_imm c) (c_tables c)) (set_mem (e_memId e) (MemTable.New []) e) w.
Proof.
  intros Hi. assert (view (MkContents [] (c_imm c) (c_tables c)) `sublist_of` view c) as Hv by (unfold view; cbn; by apply sublist_inserts_l).
  destruct Hi. split; try done; cbn.
  - exists []. split; [exact (wb_repr_new [])|done].
  - by eapply tables_keep.
  - eapply sublist_NoDup; [done|]. by apply fmap_sublist.
  - by eapply Forall_sublist.
Qed.

Lemma wp_final_flush c e w :
  inv c e w -> c_imm c = [] -> w_faults w = [] -> stored (logs e) e w -> (e_genCounter e < max_u64)%N ->
  (c_mem c <> [] -> flushable (o_compress (e_opts e)) (c_mem c)) ->
  wp (final_flush e) (fun r e' w' => r = inl tt /\ w_faults w' = [] /\ kept e e' /\ e_imm e' = e_imm e /\ e_flushCh e' = e_flushCh e /\
    e_wal e' = e_wal e /\ e_walPath e' = e_walPath e /\ e_seq e' = e_seq e /\ (e_genCounter e <= e_genCounter e' <= e_genCounter e + 1)%N /\
    exists tabs eo, tables_only tabs eo e' w' /\ stored (logs e) eo w' /\ concat tabs ≡ₚ view c) e w.
Proof.
  intros Hi Hc Hw Hst Hg Hfl. pose proof (inv_mem _ _ _ Hi) as Hm. pose proof (mem_holds_len _ _ Hm) as Hlen.
  pose proof (inv_without_mem c e w Hi) as Hi0. rewrite Hc in Hi0. unfold final_flush. destruct (Nat.ltb_spec 0 (MemTable.Len (e_mem e))) as [Hlt|Hge].
  2: { wp_step. assert (c_mem c = []) as Hm0 by (apply nil_length_inv; lia). split_and!; try done; try lia.
       exists (c_tables c), (set_mem (e_memId e) (MemTable.New []) e). split; [by split_and!|]. split; [by apply (stored_same _ e _ w w)|].
       unfold view. by rewrite Hm0, Hc. }
  assert (c_mem c <> []) as Hne by (intros E; rewrite E in Hlen; cbn in Hlen; lia).
  do 2 wp_step. rewrite u64_small by (unfold max_u64 in Hg; lia). cbv zeta. wp_step.
  eapply wp_lift_option; [by apply buildRecords_holds|]. cbv beta iota.
  pose proof (inv_versions _ _ _ Hi) as Hver. pose proof (inv_keys _ _ _ Hi) as Hks. unfold view in Hver, Hks. rewrite Hc in Hver, Hks. cbn in Hver, Hks.
  apply Forall_app in Hks as [Hks _].
  eapply (wp_write_and_open _ _ (MkContents [] [] (c_tables c)) e (set_mem (e_memId e) (MemTable.New []) e) w (c_mem c)); try done.
  - by eapply mem_holds_sorted.
  - by apply Hfl.
  - unfold view. cbn. by rewrite Permutation_app_comm.
  - intros t w' Hi' Hw' Ht Hother Hsy Href. split_and!; try done; try (cbn; lia).
    exists (c_tables c ++ [c_mem c]), (with_table 0 t (set_mem (e_memId e) (MemTable.New []) e)).
    split; [by split_and!|]. split.
    + assert (moved 0 true [] [] e w (with_table 0 t e) w') as Hmv.
      { apply moved_attach; [done|by exists t| |done|done|by intros p ?%not_elem_of_nil|].
        - intros lt Hlt' E. pose proof (inv_fresh_tid c e w (lt_table lt) Hi (list_elem_of_fmap_2 _ _ _ Hlt')). lia.
        - intros p H1 H2 _. by apply Hother. }
      apply (stored_same _ (with_table 0 t e) _ w' w'); try done.
      apply (stored_moved c e _ w w' 0 true [] [] [] (logs e)); try done; [by apply logs_ids with c w|].
      intros p. split; [by intros ?%not_elem_of_nil|]. intros [H|(lt & H & _)]; by apply not_elem_of_nil in H.
    + rewrite concat_app. cbn. rewrite app_nil_r. unfold view. rewrite Hc. cbn. apply Permutation_app_comm.
Qed.

(** ** [Close] *)

Lemma wp_Close_body c e w :
  inv c e w -> c_imm c = [] -> e_imm e = [] -> w_faults w = [] -> durable e w -> (e_genCounter e + 1 < max_u64)%N ->
  (c_mem c <> [] -> flushable (o_compress (e_opts e)) (c_mem c)) ->
  wp Close_body (fun r e' w' => r = inl tt /\ w_faults w' = [] /\ e_closed e' = e_closed e /\ e_imm e' = [] /\ e_flushCh e' = e_flushCh e /\
    exists tabs eo, inv (MkContents [] [] tabs) eo w' /\ e_dir eo = e_dir e /\ e_seq eo = e_seq e /\
      (e_genCounter eo <= e_genCounter e + 1)%N /\ stored [] eo w' /\ concat tabs ≡ₚ view c) e w.
Proof.
  intros Hi Hc Him Hw [Hcl Hst] Hg Hfl. unfold Close_body. do 2 wp_step. wp_step.
  eapply wp_mono; [apply (wp_final_flush c e w); try done; lia|].
  intros r e1 w1 (-> & Hw1 & (K1 & K2 & K3 & K4) & Hi1 & Hq1 & Hwl & Hwp & Hs1 & Hg1 & tabs & eo & (Hio & O1 & O2 & O3 & O4 & O5) & Hso & Hp).
  wp_step. apply wp_lift. rewrite (Close_wal_quiet (e_wal e) w1 Hcl Hw1). do 2 wp_step. wp_step. wp_step. apply wp_lift.
  rewrite remove_wal_quiet by done. set (w2 := MkWorld _ _). do 3 wp_step.
  assert (logs e = [MkImm (e_memId e) (e_mem e) (e_walPath e)]) as El by (unfold logs; by rewrite Him).
  pose proof (logs_ids _ _ _ Hi) as Hids. rewrite El in Hso, Hids.
  assert (wal_path (e_walPath e)) as Hwal by (destruct (stored_log _ _ _ _ Hso ltac:(by left)) as [recs Hok]; exact (log_ok_wal _ _ _ _ Hok)).
  assert (inv (MkContents [] [] tabs) eo w2) as Hio2.
  { eapply inv_wal_files; [exact Hio|]. intros p Hnp. apply lookup_delete_ne. by intros <-. }
  eapply wp_mono.
  { apply wp_release_tables; [done|]. intros tid Hin. cbn in Hin |- *. unfold allTablesLocked in Hin. rewrite <- O2 in Hin. rewrite <- O3.
    apply list_elem_of_fmap in Hin as (lt & -> & Hin). apply list_elem_of_lookup in Hin as [i Hlt].
    destruct (Forall2_lookup_l _ _ _ _ _ (inv_tables _ _ _ Hio) Hlt) as (rs & _ & Hok).
    destruct (tok_table _ _ _ _ Hok) as (t & g & Et & _ & _ & _ & _ & _ & _ & Hrm). by exists t. }
  intros r e3 w3 (-> & -> & s & ->). wp_step. split_and!; [done|done|exact K2|by rewrite <- Him|exact Hq1|].
  exists tabs, eo. split_and!; [exact Hio2|congruence|congruence|rewrite O5; lia| |done].
  apply (stored_drop_log (MkImm (e_memId e) (e_mem e) (e_walPath e)) [] eo w1 w2 Hso).
  - rewrite O5. cbn in *. unfold max_u64 in *. lia.
  - rewrite O5. eapply Forall_impl; [exact Hids|]. intros id Hid. cbn in *. lia.
  - done.
Qed.
(** The limits for closing: counters, and MemTables the table format can hold. *)
Definition can_drain (e : Engine) : Prop :=
  (e_genCounter e + N.of_nat (length (e_flushCh e)) + 3 < max_u64)%N /\ flush_fits e /\
  exists rs, buildRecords (e_mem e) = Some rs /\ (rs <> [] -> flushable (o_compress (e_opts e)) rs).

(** ... and for the rounds [ws] the goroutines make before they stop. *)
Definition can_close (ws : list work) (e : Engine) (w : world) : Prop :=
  flush_fits e /\ work_within ws (set_closed true e) w /\
  match run_work ws (set_closed true e) w with (Ok (e1, _), _) => can_drain e1 | _ => True end.

(** What is live of [c] is in tables, in an engine [eo] that has nothing else. *)
Definition settled (c : contents) (dir : string) (w : world) : Prop :=
  exists tabs eo, inv (MkContents [] [] tabs) eo w /\ e_dir eo = dir /\ (e_seq eo <= unboundedSeq)%N /\
    (e_genCounter eo + 2 < max_u64)%N /\ stored [] eo w /\
    (forall key, live (newest key unboundedSeq (concat tabs)) = live (newest key unboundedSeq (view c))) /\
    concat tabs ⊆ view c.

Lemma Close_settles ws sp c e w :
  models sp c e w -> durable e w -> w_faults w = [] -> can_close ws e w ->
  exists e' w', Engine.Close ws e w = (Ok (e', inl tt), w') /\ w_faults w' = [] /\ e_closed e' = true /\
    e_imm e' = [] /\ e_flushCh e' = [] /\ settled c (e_dir e) w'.
Proof.
  intros Hm Hd Hw (Hff & Hws & Hcd). pose proof (md_inv _ _ _ _ Hm) as Hi.
  pose proof (flush_fits_imm _ _ _ Hi Hff) as Hfi. set (e0 := set_closed true e) in *.
  assert (closing c e0 w) as Hc.
  { split; [by eapply inv_irrelevant| | |done|by apply (durable_same e e0 w w)|done|exact (md_levels _ _ _ _ Hm)|exact (md_config _ _ _ _ Hm)].
    - destruct (md_layered _ _ _ _ Hm). by split.
    - exact (md_order _ _ _ _ Hm). }
  enough (wp (Engine.Close ws) (fun r e' w' => r = inl tt /\ w_faults w' = [] /\ e_closed e' = true /\
    e_imm e' = [] /\ e_flushCh e' = [] /\ settled c (e_dir e) w') e w) as H.
  { destruct (wp_run _ _ _ _ H) as (r & e' & w' & E & -> & H'). by exists e', w'. }
  unfold Engine.Close. do 2 wp_step. rewrite (md_open _ _ _ _ Hm). do 3 wp_step. unfold wait_workers. wp_step. fold e0.
  destruct (wp_run _ _ _ _ (closing_work ws c e0 w Hc Hws)) as (r & e1 & w1 & E & -> & Hst1 & c1 & Hc1 & Hk1 & Hcm1).
  rewrite E in Hcd. destruct Hcd as (Hg & _ & rs & Ers & Hfm). apply (wp_of_run _ _ _ _ _ _ _ E). cbv beta iota. do 2 wp_step.
  rewrite (buildRecords_holds _ _ (inv_mem _ _ _ (cl_inv _ _ _ Hc1))) in Ers. injection Ers as <-.
  eapply wp_mono; [apply (wp_drain _ c1 e1 w1 Hc1 eq_refl); lia|].
  intros r e2 w2 (-> & Hst & Hq & Hg2 & c2 & [Hi2 _ Ho2 Hw2 Hd2 _ _ _] & Hr & Hcm).
  pose proof (steady_trans _ _ _ Hst1 Hst) as (S1 & S2 & S3 & _). destruct Hst as (_ & _ & _ & S4 & _).
  assert (e_imm e2 = []) as Him by (unfold in_order in Ho2; rewrite Hq in Ho2; by destruct (e_imm e2)).
  assert (c_imm c2 = []) as Hci by (pose proof (inv_imm _ _ _ Hi2) as HI; rewrite Him in HI; by apply Forall2_nil_inv_l in HI).
  eapply wp_mono.
  { apply (wp_Close_body c2 e2 w2); try done; [lia|]. rewrite Hcm, S4. exact Hfm. }
  intros r e3 w3 (-> & Hw3 & Hcl & Him3 & Hq3 & tabs & eo & Hio & O1 & O2 & O3 & Hso & Hp).
  split_and!; [done|done|by rewrite Hcl, S2|done|by rewrite Hq3|]. exists tabs, eo.
  pose proof (keeps_live_trans _ _ _ Hk1 Hr) as [Hv Hsub].
  split_and!; [done|by rewrite O1|rewrite O2, S3; apply Hm|lia|done| |].
  - intros key. rewrite <- Hv. f_equal. apply newest_perm; [by eapply inv_unique|done].
  - intros rec. rewrite Hp. apply Hsub.
Qed.

(** What [Open] finds of it. *)
Lemma settled_left_behind c dir w compress :
  settled c dir w -> w_faults w = [] ->
  exists q ssts rss, left_behind dir compress q w [] ssts rss [] /\ (q <= unboundedSeq)%N /\
    (forall key, live (newest key unboundedSeq (concat rss)) = live (newest key unboundedSeq (view c))) /\ concat rss ⊆ view c.
Proof.
  intros (tabs & eo & Hio & <- & Hq & Hg & Hso & Hn & Hsub) Hw.
  assert (restarts w w) as Hr by (split_and!; [done|done|intros p f Hf _; exists (f_synced f); by destruct f]).
  destruct (stored_left_behind [] [] _ eo w w compress Hio Hso (Forall_nil_2 _) Hr (Forall2_nil_2 _ _ _) ltac:(by unfold view; rewrite app_nil_r) Hg Hq)
    as (ssts & rss & recss & Hlb & _ & Hp & Hrec & Hn2); [done|].
  apply fmap_nil_inv in Hrec as ->. exists (e_seq eo), ssts, rss. split_and!; [done|done| |].
  - intros key. rewrite <- Hn. specialize (Hn2 key). cbn in Hn2. rewrite app_nil_r in Hn2. by rewrite Hn2.
  - intros r. rewrite Hp. apply Hsub.
Qed.

Lemma live_lookup sp c e w key rec :
  models sp c e w -> live rec = live (newest key unboundedSeq (view c)) -> answer rec = lookup_answer sp key.
Proof. intros Hm H. rewrite <- (answer_lookup sp c e w key Hm). unfold answer. by rewrite H. Qed.

(** C21: closing.  When no system call fails, whatever rounds the background
    goroutines still make, [Close] empties the flush queue, returns nil and leaves a
    directory without logs, in whose tables alone every key has the value of the
    map that the store represented. *)
Theorem close_flushes ws sp c e w :
  models sp c e w -> durable e w -> w_faults w = [] -> can_close ws e w ->
  exists e' w', Engine.Close ws e w = (Ok (e', inl tt), w') /\ e_closed e' = true /\ e_imm e' = [] /\ e_flushCh e' = [] /\
    exists ssts rss mg, dir_files (e_dir e) (w_files w') = ([], ssts, mg) /\ Forall2 (table_file w') ssts rss /\
      forall key, answer (newest key unboundedSeq (concat rss)) = lookup_answer sp key.
Proof.
  intros Hm Hd Hw Hc. destruct (Close_settles ws sp c e w Hm Hd Hw Hc) as (e' & w' & E & Hw' & H1 & H2 & H3 & Hs).
  exists e', w'. split_and!; try done.
  destruct (settled_left_behind c (e_dir e) w' true Hs Hw') as (q & ssts & rss & [(mg & Hdir & _) HT _ _ _ _ _ _] & _ & Hn & _).
  exists ssts, rss, mg. split_and!; [done|done|]. intros key. by apply (live_lookup sp c e w).
Qed.

(** C13: closing and opening again.  When no system call fails, whatever rounds the
    background goroutines still make, [Open] on the directory that [Close] left,
    with whatever options, gives an engine that answers every read like the map
    the first one represented. *)
Theorem close_open_roundtrip coins opts clock ws sp c e w :
  models sp c e w -> durable e w -> w_faults w = [] -> can_close ws e w ->
  exists e1 w1, Engine.Close ws e w = (Ok (e1, inl tt), w1) /\
    exists e2 w2, Engine.Open coins (e_dir e) opts clock w1 = (Ok e2, w2) /\ forall key, key <> [] ->
      exists w3, getAt key unboundedSeq e2 w2 = (Ok (e2, lookup_answer sp key), w3).
Proof.
  intros Hm Hd Hw Hc. destruct (Close_settles ws sp c e w Hm Hd Hw Hc) as (e' & w' & E & Hw' & _ & _ & _ & Hs).
  exists e', w'. split; [done|].
  destruct (settled_left_behind c (e_dir e) w' (o_compress (configured opts)) Hs Hw') as (q & ssts & rss & Hlb & Hq & Hn & _).
  destruct (Open_reads coins (e_dir e) opts clock q w' [] ssts rss [] Hw' Hlb ltac:(constructor) Hq) as (e2 & w2 & E2 & _ & _ & _ & _ & Hr).
  exists e2, w2. split; [done|]. intros key Hk. destruct (Hr key Hk) as (w3 & E3 & _). exists w3.
  rewrite E3. cbn. rewrite app_nil_r. by rewrite (live_lookup sp c e w key _ Hm (Hn key)).
Qed.
End close.
