(* ===== verification/EngineHazards.v ===== *)
(** * What goes wrong

    Where the engine loses or resurrects data.  The sequence number starts again at
    every open of a store that was closed, and a failed compaction drops a table it
    was not asked to compact away: these are theorems about any store.  A flush that
    fails lets a compaction drop the tombstone of a key that is still in memory: a
    history shows it. *)

From S2P Require Import Prelude OrdMap GoIO IOLogic MemTable Versions SSTable Table Merge Metrics FileNames EngineState EngineLogic EngineInv Engine EngineRead EngineFlush EngineLogs EngineWrite EngineCompact EngineOpen Store EngineFrame EngineClose.
From S2P Require Wal SkipList Bloom.
From stdpp Require Import base gmap sets list strings numbers fin_maps sorting.
Open Scope nat_scope.

(** ** Opening again *)

Section reopen.
Context `{FM : Bloom.FloatMath} `{FL : Flate} `{HFL : !FlateLaws FL}.

(** The outcome of a run of [wp_write_apply], for a version that is not above the
    others. *)
Lemma wp_write_apply_low sq c e w key value typ seq :
  let u := mutation_of typ key value seq in
  inv c (set_lastSeq sq e) w -> key <> [] -> (seq <= sq)%N -> c_mem c = [] -> version (mut_rec u) ∉ version <$> view c ->
  MemTable.Size (e_mem e) = 0%Z -> (mut_cost u < o_flushThreshold (e_opts e))%Z -> (o_flushThreshold (e_opts e) < 2 ^ 63)%Z ->
  wp (write_apply key value typ seq) (fun r e' w' => r = inl false /\ w' = w /\ e_closed e' = e_closed e /\
    exists rs, inv (MkContents rs (c_imm c) (c_tables c)) (set_lastSeq sq e') w' /\ forall s, s ∈ rs <-> s = mut_rec u) e w.
Proof.
  intros u Hi Hk Hs Hm Hv Hsz Hfit Hmax. unfold write_apply. do 3 wp_step. change (version (mut_rec u) ∉ version <$> c_mem c ++ below c) in Hv.
  assert ((if bool_decide (typ = Wal.RecordPut) then MemTable.Put (e_mem e) key value seq
           else MemTable.Delete (e_mem e) key seq) = apply_mutation (e_mem e) u) as E0.
  { unfold u, mutation_of. by case_bool_decide. }
  assert (mut_key u = key /\ mut_seq u = seq) as [Uk Us] by (unfold u, mutation_of; by case_bool_decide).
  destruct (mem_holds_apply (e_mem e) (c_mem c) u (inv_mem _ _ _ Hi)) as (mt & rs & E & Hmt & Hrs).
  destruct (inv_mem _ _ _ Hi) as (l & Hl & _). destruct (apply_mutation_refines (e_mem e) l u Hl) as (mt2 & E2 & _ & Hsize).
  rewrite E in E2. injection E2 as <-.
  eapply wp_lift_option; [rewrite E0; exact E|]. cbv beta iota. do 3 wp_step. split.
  { f_equal. apply Z.leb_gt. unfold MemTable.Size in *. rewrite Hsize, Hsz, Z.add_0_l, i64_small; [done|]. split; [|lia].
    unfold u, mutation_of. case_bool_decide; cbn; unfold entryOverhead; lia. }
  split_and!; [done|done|]. exists rs. split; [|intros s; rewrite Hrs, Hm, elem_of_nil; tauto].
  apply (inv_put_version c (set_lastSeq sq e) w u mt rs Hi); try done; [by rewrite Uk|by rewrite Us|].
  intros Hin. apply Hv. rewrite fmap_app. apply elem_of_app. by right.
Qed.

(** A write over an empty active MemTable that does not fill it, numbered below [sq]. *)
Lemma wp_write_low sq (del : bool) coins c e w key value :
  let rec := write_rec del key value (e_seq e + 1) in
  inv c (set_lastSeq sq e) w -> key <> [] -> (e_seq e + 1 <= sq)%N -> (sq <= unboundedSeq)%N -> e_closed e = false ->
  c_mem c = [] -> version rec ∉ version <$> view c ->
  w_faults w = [] -> bw_err (Wal.wal_w (e_wal e)) = false ->
  MemTable.Size (e_mem e) = 0%Z ->
  (mut_cost (MPut key value 0) < o_flushThreshold (e_opts e) < 2 ^ 63)%Z ->
  wp (write_op coins del key value) (fun r e' w' => r = inl tt /\ e_closed e' = false /\
    exists rs, inv (MkContents rs (c_imm c) (c_tables c)) (set_lastSeq sq e') w' /\ forall s, s ∈ rs <-> s = rec) e w.
Proof.
  intros rec Hi Hk Hs Hsq Hc Hm Hv Hw Hb Hsz [Hfit Hmax].
  assert (forall typ v total, (typ = Wal.RecordPut /\ v = value /\ del = false \/ typ = Wal.RecordDelete /\ v = [] /\ del = true) ->
    wp (let? r := etry (Engine.write coins key v typ) in observe_since writeLatency;;? inc total;;? of_sum r)
      (fun r e' w' => r = inl tt /\ e_closed e' = false /\
        exists rs, inv (MkContents rs (c_imm c) (c_tables c)) (set_lastSeq sq e') w' /\ forall s, s ∈ rs <-> s = rec) e w) as H.
  2: { unfold write_op, Engine.Put, Engine.Delete. destruct del, key as [|b key]; try done; apply H; auto. }
  intros typ v total Htyp. set (u := mutation_of typ key v (e_seq e + 1)).
  assert (mut_rec u = rec /\ (mut_cost u <= mut_cost (MPut key value 0))%Z) as [Eu Hu].
  { unfold u, rec, mutation_of. destruct Htyp as [(-> & -> & ->)|(-> & -> & ->)];
      [rewrite bool_decide_true by done|rewrite bool_decide_false by done]; (split; [done|cbn; lia]). }
  do 2 wp_step. unfold Engine.write, write_locked, write_begin. do 4 wp_step. rewrite Hc.
  rewrite u64_small by (unfold unboundedSeq, max_u64 in Hsq; lia). wp_steps. set (e0 := set_lastSeq (e_seq e + 1) e).
  eapply wp_mono; [apply (wp_write_log_seq sq (Wal.MkRecord typ key v (e_seq e + 1)) c e0 w Hi)|].
  intros r e1 w1 (_ & wl & Hp & -> & Hi1 & [[[_ ?]|[_ Hb']]|(-> & _)]); [done|cbn in Hb'; by rewrite Hb in Hb'|].
  eapply wp_mono.
  { apply (wp_write_apply_low sq c _ w1 key v typ (e_seq e + 1) Hi1 Hk); [done|done|fold u; by rewrite Eu|done|fold u; cbn; lia|done]. }
  fold u. rewrite Eu. intros r e2 w2 (-> & -> & Hc2 & rs & Hi2 & Hrs). cbv beta iota. unfold observe_since, inc. wp_steps.
  split_and!; [done|exact (eq_trans Hc2 Hc)|]. exists rs. split; [|done]. by eapply inv_irrelevant.
Qed.

Lemma calm_write_op coins (del : bool) key value e w e' r w' :
  write_op coins del key value e w = (Ok (e', r), w') -> w_faults w = [] -> w_faults w' = [].
Proof. intros E. unfold write_op in E. destruct del; [apply calm_Delete in E|apply calm_Put in E]; apply E. Qed.

Lemma wp_Get_seq sq c e w key r :
  inv c (set_lastSeq sq e) w -> key <> [] -> e_closed e = false -> w_faults w = [] ->
  answer (newest key unboundedSeq (view c)) = r -> wp (Engine.Get key) (fun r' _ _ => r' = r) e w.
Proof.
  intros Hi Hk Hc Hw Ha. unfold Engine.Get. do 2 wp_step. eapply wp_mono; [by apply (wp_getAt_seq sq c)|].
  intros r1 ? w1 (-> & _ & _ & _ & H1). wp_step. destruct (H1 Hk Hc) as [-> |[_ ?]]; [|done]. rewrite Ha.
  unfold recordGet, observe_since, inc. destruct r as [v|err]; cbn [err_opt]; wp_steps; [done|]. by destruct (errors_Is err ErrNotFound); wp_steps.
Qed.

(** A version below the newest one changes no read. *)
Lemma newest_over rs l key rec r :
  live (newest key unboundedSeq l) = Some r -> (forall s, s ∈ rs <-> s = rec) -> (Seq rec < Seq r)%N ->
  answer (newest key unboundedSeq (rs ++ l)) = inl (Value r).
Proof.
  intros Hl Hrs Hlt. rewrite newest_app. unfold live in Hl. destruct (newest key unboundedSeq l) as [r'|] eqn:E; [|done].
  cbn in Hl. case_bool_decide as Ht; [done|]. injection Hl as ->.
  assert (newer (newest key unboundedSeq rs) (Some r) = Some r) as ->.
  { destruct (newest key unboundedSeq rs) as [s|] eqn:Es; [|done]. apply newest_Some in Es as [->%Hrs _]. cbn.
    by rewrite (proj2 (N.ltb_lt _ _)). }
  unfold answer, live. cbn. by rewrite bool_decide_false.
Qed.

(** C37: reopening.  Closing a store and opening it again starts numbering writes
    from 1, below the versions in its tables.  Let a key have a value in a version
    numbered above 1 and none numbered 1.  When no system call fails, and whatever
    rounds the background goroutines still make, [Close] returns nil, [Open] gives
    an engine, a [Put] or [Delete] of that key, one that does not fill a MemTable,
    returns nil, and [Get] then still returns the value from before the store was
    closed: the write is not seen. *)
Theorem reopen_hides_writes coins opts clock ws (del : bool) sp c e w key value r :
  models sp c e w -> durable e w -> w_faults w = [] -> can_close ws e w ->
  key <> [] -> live (newest key unboundedSeq (view c)) = Some r -> (1 < Seq r)%N -> (key, 1%N) ∉ version <$> view c ->
  (mut_cost (MPut key value 0) < o_flushThreshold (configured opts) < 2 ^ 63)%Z ->
  sp_map sp !! key = Some (Value r) /\
  exists e1 w1 e2 w2 e3 w3 e4 w4,
    Engine.Close ws e w = (Ok (e1, inl tt), w1) /\
    Engine.Open coins (e_dir e) opts clock w1 = (Ok e2, w2) /\
    (if del then Engine.Delete coins key else Engine.Put coins key value) e2 w2 = (Ok (e3, inl tt), w3) /\
    Engine.Get key e3 w3 = (Ok (e4, inl (Value r)), w4).
Proof.
  intros Hm Hd Hw Hc Hk Hr H1 Hv Hfit. split; [by rewrite <- (md_map _ _ _ _ Hm), Hr|].
  destruct (Close_settles ws sp c e w Hm Hd Hw Hc) as (e1 & w1 & E1 & Hw1 & _ & _ & _ & Hs).
  destruct (settled_left_behind c (e_dir e) w1 (o_compress (configured opts)) Hs Hw1) as (q & ssts & rss & Hlb & Hq & Hn & Hsub).
  destruct (Open_run_dir coins (e_dir e) opts clock q w1 [] ssts rss [] Hw1 Hlb)
    as (e2 & w2 & E2 & Hw2 & _ & Ho2 & Hc2 & Hs2 & _ & _ & _ & Hb2 & [rnd Hmem] & _ & _ & c2 & Hi2 & ->).
  cbn in Hi2, Hs2. set (c2 := MkContents [] [] rss) in *.
  assert (r ∈ concat rss) as Hin.
  { specialize (Hn key). rewrite Hr in Hn. unfold live in Hn. destruct (newest key unboundedSeq (concat rss)) as [r'|] eqn:E; [|done].
    apply newest_Some in E as [? _]. cbn in Hn. case_bool_decide; [done|]. by injection Hn as <-. }
  assert (1 < q)%N as Hq1.
  { pose proof (lb_table_keys _ _ _ _ _ _ _ _ Hlb) as Hks. rewrite Forall_forall in Hks. destruct (Hks r Hin). lia. }
  assert (Seq (write_rec del key value (e_seq e2 + 1)) = 1%N /\ Key (write_rec del key value (e_seq e2 + 1)) = key) as [Sr Kr]
    by (rewrite Hs2; by destruct del).
  assert (wp (write_op coins del key value) (fun r' e' w' => r' = inl tt /\ e_closed e' = false /\
    exists rs, inv (MkContents rs [] rss) (set_lastSeq q e') w' /\ forall s, s ∈ rs <-> s = write_rec del key value (e_seq e2 + 1)) e2 w2) as HW.
  { apply (wp_write_low q del coins c2 e2 w2); try done.
    - rewrite Hs2. lia.
    - intros (s & Es & Hin2)%list_elem_of_fmap. apply Hv, list_elem_of_fmap. exists s. split; [|by apply Hsub].
      unfold version in Es |- *. by rewrite <- Es, Sr, Kr.
    - by rewrite Hmem.
    - by rewrite Ho2. }
  destruct (wp_run _ _ _ _ HW) as (r3 & e3 & w3 & E3 & -> & Hc3 & rs & Hi3 & Hrs).
  assert (w_faults w3 = []) as Hw3 by (eapply (calm_write_op coins del key value); eassumption).
  assert (answer (newest key unboundedSeq (rs ++ concat rss)) = inl (Value r)) as Ha.
  { eapply newest_over; [by rewrite Hn|exact Hrs|by rewrite Sr]. }
  destruct (wp_run _ _ _ _ (wp_Get_seq q _ e3 w3 key (inl (Value r)) Hi3 Hk Hc3 Hw3 Ha))
    as (r4 & e4 & w4 & E4 & ->).
  exists e1, w1, e2, w2, e3, w3, e4, w4. done.
Qed.
End reopen.

#[local] Existing Instance RunA.
#[local] Existing Instance Bloom.TenBits.

Definition flips : N -> list bool := fun _ => [].
Definition kx : bytes := [Byte.x6b].
Definition v1 : bytes := [Byte.x31].
Definition v2 : bytes := [Byte.x32].
Definition v3 : bytes := [Byte.x33].

(** Two writes of a key, a clean close, and a third write after opening again. *)
Definition reopen_history : M (list (unit + error) * (bytes + error)) :=
  let! e := Open flips "db" [] [] in
  let! (e, r1) := Engine.Put flips kx v1 e in
  let! (e, r2) := Engine.Put flips kx v2 e in
  let! (e, r3) := Close [] e in
  let! e := Open flips "db" [] [] in
  let! (e, r4) := Engine.Put flips kx v3 e in
  let! (_, r5) := Engine.Get kx e in
  ret ([r1; r2; r3; r4], r5).

Definition outcome {A} (o : res A * world) : option A := match o with (Ok a, _) => Some a | _ => None end.

(** Every call returns nil, and the write after the reopening is invisible. *)
Example reopening_runs :
  outcome (reopen_history (MkWorld ∅ [])) = Some ([inl tt; inl tt; inl tt; inl tt], inl v2).
Proof. vm_compute. reflexivity. Qed.

(** Every write rotates; a table at level 0 is enough to compact. *)
Definition eager : list Option_ := [WithFlushThreshold 1; WithL0CompactionTrigger 1].

(** The same state, with the system calls to come failing as [fl] says. *)
Definition with_faults {A} (fl : list (option nat)) (m : M A) : M A := fun w => m (MkWorld (w_files w) fl).

(** A write whose flush fails at its first system call, a delete that is
    flushed, and a round of compaction; the key is read before and after it. *)
Definition resurrect_history : M ((bytes + error) * (bytes + error)) :=
  let! e := Open flips "db" eager [] in
  let! (e, _) := Engine.Put flips kx v1 e in
  let! (e, _) := with_faults [Some 0] (flushWorker_step e) in
  let! (e, _) := with_faults [] (Engine.Delete flips kx e) in
  let! (e, _) := flushWorker_step e in
  let! (e, before) := Engine.Get kx e in
  let! (e, _) := compactionLoop_step e in
  let! (_, after) := Engine.Get kx e in
  ret (before, after).

(** A failed flush.  Its MemTable stays readable but leaves the queue, so a
    later one is flushed before it; a compaction to the last level then drops
    the tombstone of a key the MemTable still holds, and the deleted key is
    back. *)
Example failed_flush_resurrects :
  outcome (resurrect_history (MkWorld ∅ [])) = Some (inr ErrNotFound, inl v1).
Proof. vm_compute. reflexivity. Qed.

(** ** A failed compaction *)

Section compaction.
Context `{FM : Bloom.FloatMath} `{FL : Flate}.

Lemma filter_none {A} (P : A -> Prop) `{!forall x, Decision (P x)} (l : list A) : Forall (fun x => ~ P x) l -> filter P l = [].
Proof. apply filter_Forall_nil. Qed.

(** C38: a failed compaction.  When the merge fails, the list of tables is left
    overwritten: an input listed before the other tables is gone from it, and
    the table behind takes its place a second time. *)
Theorem failed_compaction_drops_table plan path err e w lt rest :
  errors_Is err ErrEmptyMerge = false -> e_tables e = lt :: rest -> rest <> [] ->
  NoDup (lt_table <$> e_tables e) -> lt_table lt ∈ p_inputs plan -> Forall (fun x => lt_table x ∉ p_inputs plan) rest ->
  exists e', compact_commit plan path (inr err) e w = (Ok (e', inr (ErrWrap "engine: compaction merge failed" err)), w) /\
    (lt_table lt ∉ allTablesLocked e') /\ length (e_tables e') = length (e_tables e) /\
    e_store e' = e_store e /\ e_imm e' = e_imm e /\ e_mem e' = e_mem e.
Proof.
  intros He Et Hne Hnd Hin Hrest.
  assert (filter (fun x => lt_table x ∉ p_inputs plan) (e_tables e) = rest) as Hf.
  { rewrite Et, filter_cons_False by (intros H; by apply H). by apply filter_Forall_id. }
  assert (overwrite rest (lt :: rest) = rest ++ option_list (last rest)) as Ho.
  { unfold overwrite. f_equal. destruct rest as [|x l _] using rev_ind; [done|].
    rewrite last_snoc, length_app. cbn [length]. rewrite Nat.add_1_r.
    change (drop (length l) (l ++ [x]) = [x]). by rewrite drop_app_length. }
  assert (wp (compact_commit plan path (inr err)) (fun r e' w' => r = inr (ErrWrap "engine: compaction merge failed" err) /\
    e' = set_tables (rest ++ option_list (last rest)) e /\ w' = w) e w) as H.
  { unfold compact_commit. do 2 wp_step. rewrite Hf. cbv zeta. do 3 wp_step. rewrite He. wp_step. rewrite Et, Ho. done. }
  apply wp_run in H as (r & e' & w' & E & -> & -> & ->). eexists. split; [exact E|].
  rewrite Et in Hnd. cbn in Hnd. apply NoDup_cons in Hnd as [Hnot _]. split_and!; try done.
  - unfold allTablesLocked. cbn. rewrite fmap_app, elem_of_app. intros [?|H]; [done|]. apply Hnot.
    destruct (last rest) as [x|] eqn:El; [|by apply not_elem_of_nil in H]. apply list_elem_of_singleton in H as ->.
    apply list_elem_of_fmap_2. by apply last_Some_elem_of.
  - cbn. rewrite Et, length_app. destruct (last rest) as [x|] eqn:El; [cbn; lia|]. by apply last_None in El.
Qed.
End compaction.
