(* ===== verification/Interleave.v ===== *)
(** * The engine's critical sections, interleaved (src/engine/engine.go)

    The methods of Engine.v run whole.  Here they are cut where the code takes or
    gives up a lock, or waits for another goroutine, and the pieces of several
    clients, of the flush worker and of the compaction worker come in any order.

    - A write ([write], [rotate]) takes its sequence number, appends to the log and
      changes the MemTable under the shared lock; when the MemTable is full it takes
      the exclusive lock to swap it, and hands the old one to the flush worker when
      the queue has room.
    - A snapshot loads the sequence number and registers itself.
    - The flush worker takes a job, writes its table, and commits it under the
      exclusive lock.
    - The compaction worker chooses its inputs, merges them, and commits the result
      under the exclusive lock.

    Reads are one step here, and many in Readers.v. *)

From S2P Require Import Prelude GoIO MemTable Versions Table Metrics FileNames EngineState Engine.
From S2P Require Wal Bloom SSTable.
From stdpp Require Import base gmap sets list strings numbers fin_maps sorting.
Open Scope nat_scope.

(** What a client is in the middle of. *)
Inductive client :=
| Sequenced (key value : bytes) (typ : Wal.RecordType) (seq : N)   (** holds the shared lock *)
| Logged (key value : bytes) (typ : Wal.RecordType) (seq : N)      (** holds the shared lock *)
| Filled (typ : Wal.RecordType)
| Handing (typ : Wal.RecordType) (job : flushJob)
| Loaded (seq : N).

Inductive flusher := NoFlush | Taken (job : flushJob) | Flushed (job : flushJob) (t : option Table).

Inductive compactor := NoPass | Planned (plan : compactionPlan) (bottommost : bool)
| Merged (plan : compactionPlan) (outPath : string) (mergeErr : unit + error).

Record machine := MkMachine { m_clients : gmap nat client; m_flusher : flusher; m_compactor : compactor }.

Definition idle : machine := MkMachine ∅ NoFlush NoPass.

Definition set_client (cid : nat) (x : option client) (m : machine) : machine :=
  MkMachine (match x with Some x => <[cid := x]> (m_clients m) | None => delete cid (m_clients m) end) (m_flusher m) (m_compactor m).
Definition set_flusher (f : flusher) (m : machine) : machine := MkMachine (m_clients m) f (m_compactor m).
Definition set_compactor (p : compactor) (m : machine) : machine := MkMachine (m_clients m) (m_flusher m) p.

(** Nobody holds the shared lock. *)
Definition holds_lock (x : client) : bool := match x with Sequenced _ _ _ _ | Logged _ _ _ _ => true | _ => false end.
Definition unlocked (m : machine) : bool := forallb (fun kx => negb (holds_lock kx.2)) (map_to_list (m_clients m)).

(** The step a goroutine takes next. *)
Inductive label :=
| Begin (cid : nat) (key value : bytes) (typ : Wal.RecordType)
| Log (cid : nat)
| Apply (cid : nat)
| Rotate (cid : nat)
| HandOver (cid : nat)
| Read (cid : nat) (key : bytes)
| Load (cid : nat)
| Register (cid : nat)
| ReadAt (cid : nat) (s : Snapshot_) (key : bytes)
| TakeJob
| WriteTable
| CommitTable
| Plan
| MergePlan
| CommitPlan.

(** What can be observed of a step: the change of the MemTable, and the results
    of calls. *)
Inductive note :=
| Effect (key : bytes) (value : option bytes)
| Refused (cid : nat) (err : error)
| Done (cid : nat) (r : unit + error)
| Got (cid : nat) (key : bytes) (r : bytes + error)
| GotAt (cid : nat) (s : Snapshot_) (key : bytes) (r : bytes + error)
| Snapped (cid : nat) (r : Snapshot_ + error).

Section interleave.
Context `{FM : Bloom.FloatMath} `{FL : SSTable.Flate}.
Context (coins : N -> list bool).

(** The end of [Put] and [Delete]. *)
Definition finish_write (cid : nat) (typ : Wal.RecordType) (r : unit + error) (m : machine) : E (machine * list note) :=
  observe_since writeLatency;;?
  inc (if bool_decide (typ = Wal.RecordPut) then putTotal else deleteTotal);;?
  eret (set_client cid None m, [Done cid r]).

(** A step; [None] when the goroutine cannot take it now. *)
Definition step (l : label) (m : machine) : E (option (machine * list note)) :=
  let stay : E (option (machine * list note)) := eret None in
  let go (x : E (machine * list note)) : E (option (machine * list note)) := let? r := x in eret (Some r) in
  match l with
  | Begin cid key value typ =>
      match m_clients m !! cid, key with
      | None, [] => go (eret (m, [Refused cid ErrEmptyKey]))
      | None, _ =>
          go (let? r := etry write_begin in
              match r with
              | inr err => finish_write cid typ (inr err) m
              | inl seq => eret (set_client cid (Some (Sequenced key value typ seq)) m, [])
              end)
      | Some _, _ => stay
      end
  | Log cid =>
      match m_clients m !! cid with
      | Some (Sequenced key value typ seq) =>
          go (let? r := etry (write_log (Wal.MkRecord typ key value seq)) in
              match r with
              | inr err => finish_write cid typ (inr err) m
              | inl _ => eret (set_client cid (Some (Logged key value typ seq)) m, [])
              end)
      | _ => stay
      end
  | Apply cid =>
      match m_clients m !! cid with
      | Some (Logged key value typ seq) =>
          go (let? full := write_apply key value typ seq in
              let effect := Effect key (if bool_decide (typ = Wal.RecordPut) then Some value else None) in
              if full : bool then eret (set_client cid (Some (Filled typ)) m, [effect])
              else let? (m', ns) := finish_write cid typ (inl tt) m in eret (m', effect :: ns))
      | _ => stay
      end
  | Rotate cid =>
      match m_clients m !! cid, unlocked m with
      | Some (Filled typ), true =>
          go (let? r := etry (ewrap "engine: rotating memtable" (rotate_swap coins)) in
              match r with
              | inr err => finish_write cid typ (inr err) m
              | inl None => finish_write cid typ (inl tt) m
              | inl (Some job) => eret (set_client cid (Some (Handing typ job)) m, [])
              end)
      | _, _ => stay
      end
  | HandOver cid =>
      match m_clients m !! cid with
      | Some (Handing typ job) =>
          let? e := eget in
          if length (e_flushCh e) <? flushQueueDepth then
            go (emod (fun e' => set_flushCh (e_flushCh e' ++ [job]) e');;? finish_write cid typ (inl tt) m)
          else stay
      | _ => stay
      end
  | Read cid key =>
      match m_clients m !! cid with
      | None => go (let? r := etry (Engine.Get key) in eret (m, [Got cid key r]))
      | Some _ => stay
      end
  | Load cid =>
      match m_clients m !! cid with
      | None =>
          go (let? r := etry snapshot_load in
              match r with
              | inr err => eret (m, [Snapped cid (inr err)])
              | inl seq => eret (set_client cid (Some (Loaded seq)) m, [])
              end)
      | Some _ => stay
      end
  | Register cid =>
      match m_clients m !! cid with
      | Some (Loaded seq) => go (let? s := snapshot_register seq in eret (set_client cid None m, [Snapped cid (inl s)]))
      | _ => stay
      end
  | ReadAt cid s key =>
      match m_clients m !! cid with
      | None => go (let? r := etry (Snapshot_Get s key) in eret (m, [GotAt cid s key r]))
      | Some _ => stay
      end
  | TakeJob =>
      let? e := eget in
      match m_flusher m, e_flushCh e with
      | NoFlush, job :: rest => go (emod (set_flushCh rest);;? eret (set_flusher (Taken job) m, []))
      | _, _ => stay
      end
  | WriteTable =>
      match m_flusher m with
      | Taken job => go (let? t := flush_write job in eret (set_flusher (Flushed job t) m, []))
      | _ => stay
      end
  | CommitTable =>
      match m_flusher m, unlocked m with
      | Flushed job t, true =>
          go ((match t with Some t => flush_commit job t | None => eret tt end);;?
              inc flushTotal;;?
              (match t with Some _ => eret tt | None => inc flushFailedTotal end);;?
              observe_since flushLatency;;?
              eret (set_flusher NoFlush m, []))
      | _, _ => stay
      end
  | Plan =>
      let? e := eget in
      match m_compactor m, e_compactCh e with
      | NoPass, true =>
          go (emod (set_compactCh false);;?
              eret (match pickCompactionLocked e with
                    | None => m
                    | Some plan => set_compactor (Planned plan (isBottommost e (p_targetLevel plan))) m
                    end, []))
      | _, _ => stay
      end
  | MergePlan =>
      match m_compactor m with
      | Planned plan bottommost =>
          go (let? (outPath, mergeErr) := compact_merge plan bottommost in eret (set_compactor (Merged plan outPath mergeErr) m, []))
      | _ => stay
      end
  | CommitPlan =>
      match m_compactor m, unlocked m with
      | Merged plan outPath mergeErr, true =>
          go (let? r := etry (compact_commit plan outPath mergeErr) in
              inc compactionTotal;;?
              (match r with inr _ => inc compactionFailedTotal | inl _ => eret tt end);;?
              observe_since compactionLatency;;?
              eret (set_compactor NoPass m, []))
      | _, _ => stay
      end
  end.

(** A schedule; a goroutine that cannot move when its turn comes is passed over. *)
Fixpoint runs (ls : list label) (m : machine) : E (machine * list note) :=
  match ls with
  | [] => eret (m, [])
  | l :: ls' =>
      let? r := step l m in
      match r with
      | None => runs ls' m
      | Some (m1, ns) => let? (m2, ns') := runs ls' m1 in eret (m2, ns ++ ns')
      end
  end.

(** The steps of one client's write, of a flush and of a compaction. *)
Definition whole_write (cid : nat) (key value : bytes) (typ : Wal.RecordType) : list label :=
  [Begin cid key value typ; Log cid; Apply cid; Rotate cid; HandOver cid].
Definition whole_flush : list label := [TakeJob; WriteTable; CommitTable].
Definition whole_pass : list label := [Plan; MergePlan; CommitPlan].
End interleave.
