(* ===== verification/Bench.v ===== *)
(** * The benchmark (src/main.go)

    [runBenchmark] starts goroutines that call [Put] and [Get] at the same time and
    counts what they return.  Each worker is a client of the machine of
    Interleave.v: it starts its next call when the one before has ended.  What a
    worker's generator draws is given; the time measured is not modelled. *)

From S2P Require Import Prelude GoIO MemTable Versions Table Metrics FileNames MetricsText EngineState Engine Interleave.
From S2P Require Wal Bloom SSTable.
From stdpp Require Import base gmap sets list strings numbers fin_maps sorting.
Open Scope nat_scope.

(** What the generator of a worker draws for one call: [rnd.Intn(1000)],
    [rnd.Intn(10)] and the bytes of [rnd.Read]. *)
Record draw := MkDraw { d_key : N; d_op : N; d_val : bytes }.

Definition bench_key (w : nat) (d : draw) : bytes :=
  bytes_of ("bench-worker-" +:+ Itoa (Z.of_nat w) +:+ "-key-" +:+ Itoa (Z.of_N (d_key d))).

Definition bench_call (w : nat) (d : draw) : label :=
  if (d_op d <? 7)%N then Begin w (bench_key w d) (d_val d) Wal.RecordPut else Read w (bench_key w d).

(** The goroutines: the calls in progress, and what each worker has left to do. *)
Record bench := MkBench {
  b_machine : machine; b_todo : list (list draw);
  b_puts : Z; b_gets : Z; b_errors : Z }.

(** The counters, after a call has returned. *)
Definition tally (b : bench) (n : note) : bench :=
  let put := MkBench (b_machine b) (b_todo b) (i64 (b_puts b + 1)) (b_gets b) (b_errors b) in
  let get := MkBench (b_machine b) (b_todo b) (b_puts b) (i64 (b_gets b + 1)) (b_errors b) in
  let failed := MkBench (b_machine b) (b_todo b) (b_puts b) (b_gets b) (i64 (b_errors b + 1)) in
  match n with
  | Done _ (inl _) => put
  | Done _ (inr _) | Refused _ _ => failed
  | Got _ _ (inl _) => get
  | Got _ _ (inr err) => if decide (err = ErrNotFound) then get else failed
  | _ => b
  end.

(** Who goes on: a worker, or one of the engine's own goroutines. *)
Inductive turn := Worker (w : nat) | Background (l : label).

Definition is_background (l : label) : bool :=
  match l with TakeJob | WriteTable | CommitTable | Plan | MergePlan | CommitPlan => true | _ => false end.

(** The step it takes, and what is left to do then. *)
Definition next_step (t : turn) (b : bench) : option (label * list (list draw)) :=
  match t with
  | Background l => if is_background l then Some (l, b_todo b) else None
  | Worker w =>
      match m_clients (b_machine b) !! w with
      | Some (Sequenced _ _ _ _) => Some (Log w, b_todo b)
      | Some (Logged _ _ _ _) => Some (Apply w, b_todo b)
      | Some (Filled _) => Some (Rotate w, b_todo b)
      | Some (Handing _ _) => Some (HandOver w, b_todo b)
      | Some (Loaded _) => None
      | None =>
          match b_todo b !! w with
          | Some (d :: ds) => Some (bench_call w d, <[w := ds]> (b_todo b))
          | _ => None
          end
      end
  end.

(** [wg.Wait] returns. *)
Definition finished (b : bench) : Prop := m_clients (b_machine b) = ∅ /\ Forall (fun ds => ds = []) (b_todo b).

Section bench.
Context `{FM : Bloom.FloatMath} `{FL : SSTable.Flate}.
Context (coins : N -> list bool).

Definition bench_step (t : turn) (b : bench) : E bench :=
  match next_step t b with
  | None => eret b
  | Some (l, todo) =>
      let? r := step coins l (b_machine b) in
      match r with
      | None => eret b
      | Some (m, ns) => eret (fold_left tally ns (MkBench m todo (b_puts b) (b_gets b) (b_errors b)))
      end
  end.

Fixpoint bench_run (ts : list turn) (b : bench) : E bench :=
  match ts with
  | [] => eret b
  | t :: ts' => let? b' := bench_step t b in bench_run ts' b'
  end.

(** The workers' goroutines from their start. *)
Definition runBenchmark (draws : list (list draw)) (ts : list turn) : E bench := bench_run ts (MkBench idle draws 0 0 0).
End bench.
