(* ===== verification/Linear.v ===== *)
(** * What interleaved calls may observe

    The specification of the machine of Interleave.v: a schedule's observations are
    those of a single map, to which every write is applied at one moment between its
    beginning and its end, and whose reads see the writes applied so far; and every
    write that ends has returned nil.  The limits of a schedule, and the one
    condition on its order: MemTables are handed to the flush worker in the order of
    their rotations. *)

From S2P Require Import Prelude GoIO MemTable Versions SSTable Table Merge Metrics FileNames EngineState EngineInv Engine EngineFlush EngineCompact Store Interleave.
From S2P Require Wal Bloom.
From stdpp Require Import base gmap sets list strings numbers fin_maps sorting.
Open Scope nat_scope.

(** ** The map *)

Definition effect (n : note) (mp : gmap bytes bytes) : gmap bytes bytes :=
  match n with
  | Effect key (Some value) => <[key := value]> mp
  | Effect key None => delete key mp
  | _ => mp
  end.

Definition effects (ns : list note) (mp : gmap bytes bytes) : gmap bytes bytes := fold_left (fun mp n => effect n mp) ns mp.

(** What the change of the MemTable by a write looks like. *)
Definition apply_effect (key value : bytes) (typ : Wal.RecordType) : note :=
  Effect key (if bool_decide (typ = Wal.RecordPut) then Some value else None).

Definition map_answer (mp : gmap bytes bytes) (key : bytes) : bytes + error :=
  match key with
  | [] => inr ErrEmptyKey
  | _ => match mp !! key with Some v => inl v | None => inr ErrNotFound end
  end.

(** What an observation must be when the map is [mp]; reads of snapshots are left
    open (see EngineRaces.v). *)
Definition legal_note (mp : gmap bytes bytes) (n : note) : Prop :=
  match n with
  | Refused _ err => err = ErrEmptyKey
  | Done _ r => r = inl tt
  | Got _ key r => r = map_answer mp key
  | Snapped _ r => exists s, r = inl s
  | Effect _ _ | GotAt _ _ _ _ => True
  end.

Fixpoint legal (ns : list note) (mp : gmap bytes bytes) : Prop :=
  match ns with
  | [] => True
  | n :: ns' => legal_note mp n /\ legal ns' (effect n mp)
  end.

Lemma effects_app ns ns' mp : effects (ns ++ ns') mp = effects ns' (effects ns mp).
Proof. apply fold_left_app. Qed.

Lemma legal_app ns ns' mp : legal (ns ++ ns') mp <-> legal ns mp /\ legal ns' (effects ns mp).
Proof.
  revert mp. induction ns as [|n ns IH]; intros mp; cbn [legal app]; [cbn; tauto|]. rewrite IH. cbn. tauto.
Qed.

(** ** The limits *)

(** The job the flush worker is at. *)
Definition in_hand (f : flusher) : list flushJob := match f with NoFlush => [] | Taken job | Flushed job _ => [job] end.

(** [job] is that of the oldest immutable MemTable not handed over yet. *)
Definition in_turn (job : flushJob) (m : machine) (e : Engine) : Prop :=
  in_hand (m_flusher m) ++ e_flushCh e ++ [job] `prefix_of` job_of <$> e_imm e.

Section limits.
Context `{FM : Bloom.FloatMath} `{FL : SSTable.Flate}.
Context (coins : N -> list bool).

(** The table that a pass will write can be written. *)
Definition merge_fits (plan : compactionPlan) (bottommost : bool) (e : Engine) (w : world) : Prop :=
  forall c ps, inv c e w -> ps ⊆ tables_of c e -> p_inputs plan = tids ps ->
    let out := merge_spec (minActiveSnapshotSeq e) bottommost ps.*2 in
    out <> [] -> flushable (o_compress (e_opts e)) out.

Definition step_within (l : label) (m : machine) (e : Engine) (w : world) : Prop :=
  match l with
  | Begin _ _ _ _ => (e_seq e < max_u64)%N
  | Rotate _ => (e_genCounter e + 1 < max_u64)%N
  | HandOver cid => forall typ job, m_clients m !! cid = Some (Handing typ job) -> in_turn job m e
  | WriteTable => (e_genCounter e < max_u64)%N /\ flush_fits e
  | MergePlan => (e_genCounter e < max_u64)%N /\
      forall plan bottommost, m_compactor m = Planned plan bottommost -> merge_fits plan bottommost e w
  | _ => True
  end.

(** Every step of a schedule finds the engine within the limits. *)
Fixpoint runs_within (ls : list label) (m : machine) (e : Engine) (w : world) : Prop :=
  match ls with
  | [] => True
  | l :: ls' => step_within l m e w /\
      match step coins l m e w with
      | (Ok (e1, inl None), w1) => runs_within ls' m e1 w1
      | (Ok (e1, inl (Some (m1, _))), w1) => runs_within ls' m1 e1 w1
      | _ => True
      end
  end.
End limits.
