(* ===== verification/InterleaveInv.v ===== *)
(** * The invariant of interleaved steps

    [coherent mp c m e w]: the engine [e] holds the records [c] and represents the
    map [mp], and every goroutine of the machine [m] is where the code can be: a
    writer's version fits on top of what is stored, the jobs of the flush worker are
    the oldest immutable MemTables in the order of their rotations, and what the
    workers wrote without the lock can still be put in place.  Every step keeps it,
    with observations the map allows. *)

From S2P Require Import Prelude OrdMap GoIO IOLogic MemTable Versions SSTable Table Merge Metrics FileNames EngineState EngineLogic EngineInv Engine EngineRead EngineFlush EngineLogs EngineWrite EngineCompact Store Scan EngineFrame Interleave Linear.
From S2P Require Wal SkipList Bloom.
From stdpp Require Import base gmap sets list strings numbers fin_maps sorting.
Open Scope nat_scope.

Section coherent.
Context `{FM : Bloom.FloatMath} `{FL : Flate} `{HFL : !FlateLaws FL}.
Context (coins : N -> list bool).

(** ** The store *)

Record sound (mp : gmap bytes bytes) (c : contents) (e : Engine) (w : world) : Prop := {
  so_inv : inv c e w;
  so_layered : layered c e;
  so_levels : levels_ok e;
  so_config : config_ok (e_opts e);
  so_threshold : (0 < o_flushThreshold (e_opts e))%Z;
  so_open : e_closed e = false;
  so_wal : bw_err (Wal.wal_w (e_wal e)) = false;
  so_seq : (e_seq e <= max_u64)%N;
  so_size : c_mem c = [] -> MemTable.Size (e_mem e) = 0%Z;
  so_map : forall key, Value <$> live (newest key unboundedSeq (view c)) = mp !! key }.

Lemma sound_same mp c e e' w w' :
  sound mp c e w -> inv c e' w' -> e_tables e' = e_tables e -> e_opts e' = e_opts e -> e_closed e' = e_closed e ->
  bw_err (Wal.wal_w (e_wal e')) = false -> e_mem e' = e_mem e -> (e_seq e' <= max_u64)%N -> sound mp c e' w'.
Proof.
  intros [] Hi Ht Ho Hc Hw Hm Hs. split; unfold levels_ok in *; rewrite ?Ht, ?Ho, ?Hc, ?Hm; try done.
  destruct so_layered0. split; rewrite ?Ht; done.
Qed.

Lemma sound_answer mp c e w key :
  sound mp c e w -> key <> [] -> answer (newest key unboundedSeq (view c)) = map_answer mp key.
Proof.
  intros Hs Hk. unfold map_answer. rewrite <- (so_map _ _ _ _ Hs). unfold answer. destruct key; [done|]. by destruct (live _).
Qed.

(** ** The goroutines *)

(** The write a client is in the middle of. *)
Definition writing (x : client) : option (bytes * N) :=
  match x with Sequenced key _ _ seq | Logged key _ _ seq => Some (key, seq) | _ => None end.

Definition fresh_seq (c : contents) (s : N) : Prop := fresh_for c (MkRec [] [] TypeValue s).

(** The table of the oldest immutable MemTable is on disk. *)
Definition flusher_ok (f : flusher) (c : contents) (e : Engine) (w : world) : Prop :=
  match f with
  | Flushed _ t => exists path rs flt, head (c_imm c) = Some rs /\ t = Some (table_of path (o_compress (e_opts e)) rs flt) /\
      claimed 0 path rs flt e w
  | _ => True
  end.

Definition plan_ok (l : Z) (ps : list (leveledTable * list Record)) (plan : compactionPlan) (bottom : bool)
    (c : contents) (e : Engine) : Prop :=
  (0 <= l)%Z /\ (l + 1 < o_maxLevels (e_opts e))%Z /\ p_targetLevel plan = (l + 1)%Z /\ p_inputs plan = tids ps /\
  selection l ps c e /\ (bottom = true -> at_bottom l ps c e).

Definition compactor_ok (p : compactor) (c : contents) (e : Engine) (w : world) : Prop :=
  match p with
  | NoPass => True
  | Planned plan bottom => exists l ps, plan_ok l ps plan bottom c e /\ ps <> []
  | Merged plan path mr => exists l ps mk bottom, plan_ok l ps plan bottom c e /\ (mk <= unboundedSeq)%N /\
      merged l mk bottom ps path mr e w /\ ~ merge_failed mr
  end.

Record placed (m : machine) (c : contents) (e : Engine) (w : world) : Prop := {
  pl_writers : forall cid x key s, m_clients m !! cid = Some x -> writing x = Some (key, s) ->
    key <> [] /\ (s <= e_seq e)%N /\ fresh_seq c s;
  pl_distinct : forall i j x y k k' s, m_clients m !! i = Some x -> m_clients m !! j = Some y ->
    writing x = Some (k, s) -> writing y = Some (k', s) -> i = j;
  pl_queue : in_hand (m_flusher m) ++ e_flushCh e `prefix_of` job_of <$> e_imm e;
  pl_flusher : flusher_ok (m_flusher m) c e w;
  pl_compactor : compactor_ok (m_compactor m) c e w }.

Definition coherent (mp : gmap bytes bytes) (c : contents) (m : machine) (e : Engine) (w : world) : Prop :=
  sound mp c e w /\ placed m c e w.

(** *** What the workers rely on *)

(** Nothing a background worker looks at has changed. *)
Record undisturbed (e : Engine) (w : world) (e' : Engine) (w' : world) : Prop := {
  un_dir : e_dir e' = e_dir e;
  un_opts : e_opts e' = e_opts e;
  un_gen : (e_genCounter e <= e_genCounter e')%N;
  un_tables : e_tables e' = e_tables e;
  un_store : e_store e' = e_store e;
  un_files : same_known e w w' }.

Lemma claimed_undisturbed lvl path rs f e w e' w' :
  claimed lvl path rs f e w -> undisturbed e w e' w' -> claimed lvl path rs f e' w'.
Proof.
  intros Hc []. eapply claimed_keep; [exact Hc|done..| |].
  - rewrite un_tables0. erewrite list_fmap_ext; [apply Hc|]. intros i lt _. unfold table_path. by rewrite un_store0.
  - apply un_files0. by eapply claimed_known.
Qed.

Lemma flusher_undisturbed f c e w c' e' w' :
  flusher_ok f c e w -> undisturbed e w e' w' -> (forall rs, head (c_imm c) = Some rs -> head (c_imm c') = Some rs) ->
  flusher_ok f c' e' w'.
Proof.
  intros Hf Hu Hh. destruct f as [|job|job t]; [done..|]. destruct Hf as (path & rs & flt & H1 & H2 & H3).
  exists path, rs, flt. rewrite (un_opts _ _ _ _ Hu). split_and!; [by apply Hh|done|by eapply claimed_undisturbed].
Qed.

Lemma selection_same l ps c e c' e' : selection l ps c e -> tables_of c' e' = tables_of c e -> selection l ps c' e'.
Proof. intros [] E. split; unfold others in *; rewrite ?E; done. Qed.

Lemma plan_same l ps plan bottom c e c' e' :
  plan_ok l ps plan bottom c e -> tables_of c' e' = tables_of c e -> e_opts e' = e_opts e -> plan_ok l ps plan bottom c' e'.
Proof.
  intros (H1 & H2 & H3 & H4 & H5 & H6) E Eo. unfold plan_ok. rewrite Eo. split_and!; [done..|by eapply selection_same|].
  intros Hb. unfold at_bottom, others. rewrite E. by apply H6.
Qed.

Lemma merged_undisturbed l mk bottom ps path mr e w e' w' :
  merged l mk bottom ps path mr e w -> undisturbed e w e' w' -> merged l mk bottom ps path mr e' w'.
Proof.
  intros Hm Hu. destruct mr as [[]|err]; [|exact Hm]. destruct Hm as (H1 & H2 & f & H3).
  split_and!; [done|done|]. exists f. by eapply claimed_undisturbed.
Qed.

Lemma compactor_undisturbed p c e w c' e' w' :
  compactor_ok p c e w -> undisturbed e w e' w' -> c_tables c' = c_tables c -> compactor_ok p c' e' w'.
Proof.
  intros Hp Hu Ec. assert (tables_of c' e' = tables_of c e) as Et by (unfold tables_of; by rewrite Ec, (un_tables _ _ _ _ Hu)).
  destruct p as [|plan bottom|plan path mr]; [done| |].
  - destruct Hp as (l & ps & H1 & H2). exists l, ps. split; [|done]. by eapply plan_same; [done..|apply Hu].
  - destruct Hp as (l & ps & mk & bottom & H1 & H2 & H3 & H4). exists l, ps, mk, bottom.
    split_and!; [by eapply plan_same; [done..|apply Hu]|done|by eapply merged_undisturbed|done].
Qed.

(** *** Moves *)

(** Without the lock held by a writer, nobody is writing. *)
Lemma unlocked_spec m cid x : unlocked m = true -> m_clients m !! cid = Some x -> writing x = None.
Proof.
  unfold unlocked. rewrite forallb_forall. intros Hu Hx.
  specialize (Hu (cid, x) (proj1 (list_elem_of_In _ _) (proj2 (elem_of_map_to_list _ _ _) Hx))). by destruct x.
Qed.

(** The engine moves, the machine stays. *)
Lemma placed_moves m c e w c' e' w' :
  placed m c e w -> undisturbed e w e' w' -> (e_seq e <= e_seq e')%N ->
  (forall cid x k s, m_clients m !! cid = Some x -> writing x = Some (k, s) -> fresh_seq c s -> fresh_seq c' s) ->
  in_hand (m_flusher m) ++ e_flushCh e' `prefix_of` job_of <$> e_imm e' ->
  (forall rs, head (c_imm c) = Some rs -> head (c_imm c') = Some rs) -> c_tables c' = c_tables c -> placed m c' e' w'.
Proof.
  intros [] Hu Hs Hf Hq Hh Ht. split.
  - intros cid x k s Hx Hwr. destruct (pl_writers0 cid x k s Hx Hwr) as (H1 & H2 & H3). split_and!; [done|lia|by eapply Hf].
  - done.
  - done.
  - by eapply flusher_undisturbed.
  - by eapply compactor_undisturbed.
Qed.

Lemma placed_same m c e w e' w' :
  placed m c e w -> undisturbed e w e' w' -> (e_seq e <= e_seq e')%N -> e_flushCh e' = e_flushCh e -> e_imm e' = e_imm e ->
  placed m c e' w'.
Proof. intros Hp Hu Hs Hf Hi. eapply placed_moves; [done..| |done|done]. rewrite Hf, Hi. apply Hp. Qed.

(** One client moves. *)
Definition client_moves (cid : nat) (x : option client) (m m' : machine) : Prop :=
  m_clients m' !! cid = x /\ (forall i, i <> cid -> m_clients m' !! i = m_clients m !! i) /\
  m_flusher m' = m_flusher m /\ m_compactor m' = m_compactor m.

Lemma set_client_moves cid x m : client_moves cid x m (set_client cid x m).
Proof.
  destruct x as [x|]; (split_and!; [|intros i Hi|done|done]); cbn;
    rewrite ?lookup_insert_eq, ?lookup_delete_eq, ?lookup_insert_ne, ?lookup_delete_ne; done.
Qed.

Lemma placed_client cid x m m' c e w :
  placed m c e w -> client_moves cid x m m' ->
  (forall y k s, x = Some y -> writing y = Some (k, s) -> k <> [] /\ (s <= e_seq e)%N /\ fresh_seq c s /\
     forall i z k', i <> cid -> m_clients m !! i = Some z -> writing z <> Some (k', s)) ->
  placed m' c e w.
Proof.
  intros [] (Hx & Ho & Hf & Hp) Hnew. split; [| |by rewrite Hf|by rewrite Hf|by rewrite Hp].
  - intros i y k s Hy Hw. destruct (decide (i = cid)) as [->|Hne].
    + rewrite Hx in Hy. destruct (Hnew y k s Hy Hw) as (? & ? & ? & _). done.
    + rewrite Ho in Hy by done. by eapply pl_writers0.
  - intros i j y z k k' s Hy Hz Hwy Hwz. destruct (decide (i = cid)) as [->|Hi], (decide (j = cid)) as [->|Hj]; [done| | |].
    + rewrite Hx in Hy. rewrite Ho in Hz by done. destruct (Hnew y k s Hy Hwy) as (_ & _ & _ & H). by destruct (H j z k' Hj Hz).
    + rewrite Hx in Hz. rewrite Ho in Hy by done. destruct (Hnew z k' s Hz Hwz) as (_ & _ & _ & H). by destruct (H i y k Hi Hy).
    + rewrite Ho in Hy, Hz by done. by eapply pl_distinct0.
Qed.

(** To where it writes nothing. *)
Lemma placed_idle cid x m m' c e w :
  placed m c e w -> client_moves cid x m m' -> (forall y, x = Some y -> writing y = None) -> placed m' c e w.
Proof. intros Hp Hm Hx. eapply placed_client; [done..|]. intros y k s Hy Hw. by rewrite (Hx y Hy) in Hw. Qed.
End coherent.
