(* ===== verification/Readers.v ===== *)
(** * Reads that overlap other calls (src/engine/engine.go)

    [getAt] and [scanAt] hold the shared lock only while they take the pointers of
    the MemTables and acquire the SSTables.  Everything else, the lookups, the
    opening of the sources, the calls of [Next], the releases and the metrics, runs
    without the lock, while writers change the very MemTable they look in,
    MemTables rotate and are flushed, and compactions retire their tables.  The
    machine of Interleave.v is extended with such reads and scans, one lookup, one
    source or one call of [Next] a step.

    A pointer to a MemTable is its number: [o_mems] holds what is in every MemTable
    that has been active.  An immutable one no longer changes and is kept itself. *)

From S2P Require Import Prelude OrdMap GoIO MemTable Versions Table Metrics FileNames EngineState Engine Scan Interleave Linear.
From S2P Require Wal Bloom SSTable.
From stdpp Require Import base gmap sets list strings numbers fin_maps sorting.
Open Scope nat_scope.

(** ** The machine *)

(** Where a [getAt] is: still looking, with the MemTables and tables to look in, or
    about to release the tables it has acquired.  Where a scan is: opening its
    sources, in its caller's hands, or releasing its tables, after [Close] or
    because it has failed. *)
Inductive reader :=
| Looking (key : bytes) (held : list nat) (mem : option N) (imm : list MemTable) (tables : list nat) (best : option Record)
| Leaving (key : bytes) (held : list nat) (result : bytes + error)
| Opening (start end_ : option bytes) (held : list nat) (mem : option N) (imm : list MemTable) (tables : list nat) (h : list scanHeapItem)
| Scanning (it : ScanIterator)
| Closing (held : list nat) (failed : option error).

Record overlap := MkOverlap { o_machine : machine; o_readers : gmap nat reader; o_mems : gmap N MemTable }.

Inductive olabel :=
| Base (l : label)
| Enter (rid : nat) (key : bytes)
| EnterScan (rid : nat) (start end_ : option bytes)
| Go (rid : nat)
| ScanNext (rid : nat)
| ScanClose (rid : nat).

Inductive onote :=
| Note (n : note)
| Entered (rid : nat)
| Answered (rid : nat) (key : bytes) (r : bytes + error)
| Opened (rid : nat) (start end_ : option bytes)
| ScanFailed (rid : nat) (err : error)
| Nexted (rid : nat) (r : option (bytes * bytes) + error)
| Closed (rid : nat).

(** The active MemTable, where its readers find it. *)
Definition remember (e : Engine) (mems : gmap N MemTable) : gmap N MemTable := <[e_memId e := e_mem e]> mems.

(** The engine at rest. *)
Definition at_rest (e : Engine) : overlap := MkOverlap idle ∅ (remember e ∅).

Definition set_reader (rid : nat) (x : option reader) (o : overlap) : overlap :=
  MkOverlap (o_machine o) (match x with Some x => <[rid := x]> (o_readers o) | None => delete rid (o_readers o) end) (o_mems o).

Section readers.
Context `{FM : Bloom.FloatMath} `{FL : SSTable.Flate}.
Context (coins : N -> list bool).

(** From the call to the end of the locked part. *)
Definition enter (rid : nat) (key : bytes) (o : overlap) : E (overlap * list onote) :=
  let refuse err := recordGet (Some err);;? eret (o, [Entered rid; Answered rid key (inr err)]) in
  match key with
  | [] => refuse ErrEmptyKey
  | _ =>
      let? e := eget in
      if e_closed e then refuse ErrClosed
      else
        let tids := allTablesLocked e in
        acquire_all tids;;?
        eret (set_reader rid (Some (Looking key tids (Some (e_memId e)) (rev (im_mt <$> e_imm e)) tids None)) o, [Entered rid])
  end.

Definition enter_scan (rid : nat) (start end_ : option bytes) (o : overlap) : E (overlap * list onote) :=
  inc scanTotal;;?
  let? e := eget in
  if e_closed e then eret (o, [Entered rid; ScanFailed rid ErrClosed])
  else
    let tids := allTablesLocked e in
    acquire_all tids;;?
    eret (set_reader rid (Some (Opening start end_ tids (Some (e_memId e)) (im_mt <$> e_imm e) tids [])) o, [Entered rid]).

(** The next lookup, source or release, or the end. *)
Definition proceed (rid : nat) (x : reader) (o : overlap) : E (overlap * list onote) :=
  let goto y := eret (set_reader rid (Some y) o, []) in
  match x with
  | Looking key held (Some id) imm tables best =>
      let? mt := lift (of_option (o_mems o !! id)) in
      let? best' := consider_mem key unboundedSeq best mt in
      goto (Looking key held None imm tables best')
  | Looking key held None (mt :: imm) tables best =>
      let? best' := consider_mem key unboundedSeq best mt in
      goto (Looking key held None imm tables best')
  | Looking key held None [] (tid :: tables) best =>
      let? r := etry (consider_tables key unboundedSeq best [tid]) in
      match r with
      | inr err => goto (Leaving key held (inr err))
      | inl best' => goto (Looking key held None [] tables best')
      end
  | Looking key held None [] [] best =>
      goto (Leaving key held (match best with
                              | None => inr ErrNotFound
                              | Some b => if bool_decide (Typ b = TypeTombstone) then inr ErrNotFound else inl (Versions.Value b)
                              end))
  | Leaving key (tid :: held) r =>
      table_call Release tid;;?
      goto (Leaving key held r)
  | Leaving key [] r =>
      recordGet (err_opt r);;?
      eret (set_reader rid None o, [Answered rid key r])
  | Opening start end_ held mem imm tables h =>
      let pushed mem' imm' tables' (x : E (list scanHeapItem)) :=
        let? r := etry x in
        match r with
        | inr err => goto (Closing held (Some err))
        | inl h' => goto (Opening start end_ held mem' imm' tables' h')
        end in
      match mem, imm, tables with
      | Some id, _, _ =>
          let? mt := lift (of_option (o_mems o !! id)) in
          pushed None imm tables (ewrap "engine: scanning memtable" (push_mem start end_ unboundedSeq h mt))
      | None, mt :: imm', _ => pushed None imm' tables (push_imm start end_ unboundedSeq h [mt])
      | None, [], tid :: tables' => pushed None [] tables' (push_tables start end_ unboundedSeq h [tid])
      | None, [], [] => eret (set_reader rid (Some (Scanning (MkScan h held false))) o, [Opened rid start end_])
      end
  | Scanning _ => eret (o, [])
  | Closing (tid :: held) f =>
      table_call Release tid;;?
      goto (Closing held f)
  | Closing [] f => eret (set_reader rid None o, [match f with Some err => ScanFailed rid err | None => Closed rid end])
  end.

(** A call of [Next] or [Close] on a scan's iterator, which its caller does not use
    after [Close]. *)
Definition scan_call (rid : nat) (close : bool) (it : ScanIterator) (o : overlap) : E (overlap * list onote) :=
  if close then eret (set_reader rid (Some (Closing (if sc_closed it then [] else sc_tables it) None)) o, [])
  else let? (it', r) := lift (ScanIterator_Next it) in eret (set_reader rid (Some (Scanning it')) o, [Nexted rid r]).

Definition ostep (l : olabel) (o : overlap) : E (option (overlap * list onote)) :=
  let go (x : E (overlap * list onote)) : E (option (overlap * list onote)) := let? r := x in eret (Some r) in
  match l with
  | Base l =>
      let? r := step coins l (o_machine o) in
      let? e := eget in
      eret (match r with
            | None => None
            | Some (m, ns) => Some (MkOverlap m (o_readers o) (remember e (o_mems o)), Note <$> ns)
            end)
  | Enter rid key => match o_readers o !! rid with None => go (enter rid key o) | Some _ => eret None end
  | EnterScan rid start end_ => match o_readers o !! rid with None => go (enter_scan rid start end_ o) | Some _ => eret None end
  | Go rid => match o_readers o !! rid with Some x => go (proceed rid x o) | None => eret None end
  | ScanNext rid => match o_readers o !! rid with Some (Scanning it) => go (scan_call rid false it o) | _ => eret None end
  | ScanClose rid => match o_readers o !! rid with Some (Scanning it) => go (scan_call rid true it o) | _ => eret None end
  end.

Fixpoint oruns (ls : list olabel) (o : overlap) : E (overlap * list onote) :=
  match ls with
  | [] => eret (o, [])
  | l :: ls' =>
      let? r := ostep l o in
      match r with
      | None => oruns ls' o
      | Some (o1, ns) => let? (o2, ns') := oruns ls' o1 in eret (o2, ns ++ ns')
      end
  end.

(** ** What overlapping calls may observe *)

(** Of a call in progress: the maps there have been since it began; of an open
    scan: the pairs it may still return. *)
Inductive window := Maps (ms : list (gmap bytes bytes)) | Listings (ls : list (list (bytes * bytes))).

(** The map, and the windows. *)
Definition windows : Type := gmap bytes bytes * gmap nat window.

(** What a scan of the map returns. *)
Definition map_slice (start end_ : option bytes) (mp : gmap bytes bytes) : list (bytes * bytes) := om_range start end_ (om_of_map mp).

Definition maps_of (rid : nat) (W : windows) : list (gmap bytes bytes) := match W.2 !! rid with Some (Maps ms) => ms | _ => [] end.
Definition listings_of (rid : nat) (W : windows) : list (list (bytes * bytes)) := match W.2 !! rid with Some (Listings ls) => ls | _ => [] end.

Definition olegal_note (W : windows) (n : onote) : Prop :=
  match n with
  | Note n => legal_note W.1 n
  | Entered _ | Opened _ _ _ | Closed _ => True
  | Answered rid key r => exists mp, mp ∈ maps_of rid W /\ r = map_answer mp key
  | ScanFailed _ _ => False
  | Nexted rid r => exists kvs, kvs ∈ listings_of rid W /\ r = inl (head kvs)
  end.

Definition grow (mp : gmap bytes bytes) (x : window) : window := match x with Maps ms => Maps (mp :: ms) | Listings ls => Listings ls end.

Definition owindows (n : onote) (W : windows) : windows :=
  match n with
  | Note n => let mp := effect n W.1 in (mp, grow mp <$> W.2)
  | Entered rid => (W.1, <[rid := Maps [W.1]]> W.2)
  | Opened rid start end_ => (W.1, <[rid := Listings (map_slice start end_ <$> maps_of rid W)]> W.2)
  | Nexted rid (inl o) => (W.1, <[rid := Listings (tail <$> filter (fun kvs => head kvs = o) (listings_of rid W))]> W.2)
  | Answered rid _ _ | ScanFailed rid _ | Nexted rid (inr _) | Closed rid => (W.1, delete rid W.2)
  end.

Fixpoint olegal (ns : list onote) (W : windows) : Prop :=
  match ns with
  | [] => True
  | n :: ns' => olegal_note W n /\ olegal ns' (owindows n W)
  end.

Definition all_windows (ns : list onote) (W : windows) : windows := fold_left (fun W n => owindows n W) ns W.

Lemma olegal_app ns ns' W : olegal (ns ++ ns') W <-> olegal ns W /\ olegal ns' (all_windows ns W).
Proof.
  revert W. induction ns as [|n ns IH]; intros W; cbn [olegal app]; [cbn; tauto|]. rewrite IH. cbn. tauto.
Qed.

Lemma all_windows_app ns ns' W : all_windows (ns ++ ns') W = all_windows ns' (all_windows ns W).
Proof. apply fold_left_app. Qed.

(** The limits: those of the machine's own steps. *)
Fixpoint oruns_within (ls : list olabel) (o : overlap) (e : Engine) (w : world) : Prop :=
  match ls with
  | [] => True
  | l :: ls' => match l with Base l => step_within l (o_machine o) e w | _ => True end /\
      match ostep l o e w with
      | (Ok (e1, inl None), w1) => oruns_within ls' o e1 w1
      | (Ok (e1, inl (Some (o1, _))), w1) => oruns_within ls' o1 e1 w1
      | _ => True
      end
  end.
End readers.
