(* ===== verification/InterleaveFrame.v ===== *)
(** * What the steps of the machine return, and what they leave alone

    [gives x P]: whenever [x] returns, its value satisfies [P].  [keeps f x]: [x]
    leaves the part [f] of the engine as it was.  For every kind of step of
    Interleave.v: what becomes of the goroutine that takes it ([step_counts]), and
    which steps touch neither MemTables nor table objects ([keeps_step]). *)

From S2P Require Import Prelude GoIO IOLogic MemTable Versions SSTable Table Merge Metrics FileNames EngineState EngineLogic Engine EngineFlush EngineRead EngineFrame Interleave Linear InterleaveInv.
From S2P Require Wal Bloom.
From stdpp Require Import base gmap sets list strings numbers fin_maps sorting.
Open Scope nat_scope.

(** ** What steps return *)

Definition gives {A} (x : E A) (P : A -> Prop) : Prop := forall e w e' a w', x e w = (Ok (e', inl a), w') -> P a.

Lemma gives_eret {A} (a : A) (P : A -> Prop) : P a -> gives (eret a) P.
Proof. by intros H e w e' b w' [= <- <- <-]. Qed.

Lemma gives_ebind {A B} (x : E A) (k : A -> E B) (R : A -> Prop) (P : B -> Prop) :
  gives x R -> (forall a, R a -> gives (k a) P) -> gives (ebind x k) P.
Proof.
  intros Hx Hk e w e' b w'. unfold ebind, bind. destruct (x e w) as [[[e1 [a|err]]|err|] w1] eqn:E; try done.
  apply (Hk a (Hx _ _ _ _ _ E)).
Qed.

Lemma gives_any {A} (x : E A) : gives x (fun _ => True).
Proof. by intros e w e' a w' _. Qed.

Lemma gives_then {A B} (x : E A) (k : A -> E B) (P : B -> Prop) : (forall a, gives (k a) P) -> gives (ebind x k) P.
Proof. intros Hk. eapply gives_ebind; [apply gives_any|auto]. Qed.

Section run.
Context `{FM : Bloom.FloatMath} `{FL : Flate}.
Context (coins : N -> list bool).

(** A step of a client in a call, which observes [pre]: it goes on, with the write
    it was in the middle of if it still is in one, or it ends. *)
Definition goes_on (cid : nat) (pre : list note) (m m' : machine) (ns : list note) : Prop :=
  (exists x, m' = set_client cid (Some x) m /\ ns = pre /\
     (forall w, writing x = Some w -> exists y, m_clients m !! cid = Some y /\ writing y = Some w)) \/
  (exists r, m' = set_client cid None m /\ ns = pre ++ [Done cid r]).

Definition counts (l : label) (m : machine) (r : option (machine * list note)) : Prop :=
  match r with
  | None => True
  | Some (m', ns) =>
      match l with
      | Begin cid key value typ => m_clients m !! cid = None /\
          ((exists seq, m' = set_client cid (Some (Sequenced key value typ seq)) m /\ ns = []) \/ (exists r, m' = set_client cid None m /\ ns = [Done cid r]) \/
           key = [] /\ m' = m /\ exists err, ns = [Refused cid err])
      | Log cid | Rotate cid | HandOver cid => is_Some (m_clients m !! cid) /\ goes_on cid [] m m' ns
      | Apply cid => exists key value typ seq, m_clients m !! cid = Some (Logged key value typ seq) /\
          goes_on cid [apply_effect key value typ] m m' ns /\ (forall y, m_clients m' !! cid = Some y -> writing y = None)
      | Read cid key => m' = m /\ exists r, ns = [Got cid key r]
      | ReadAt cid s key => m' = m /\ exists r, ns = [GotAt cid s key r]
      | Load cid => (exists seq, m' = set_client cid (Some (Loaded seq)) m /\ ns = []) \/ m' = m /\ exists r, ns = [Snapped cid r]
      | Register cid => m' = set_client cid None m /\ exists r, ns = [Snapped cid r]
      | TakeJob => ns = [] /\ exists job, m' = set_flusher (Taken job) m
      | WriteTable => ns = [] /\ exists job t, m' = set_flusher (Flushed job t) m
      | CommitTable => ns = [] /\ m' = set_flusher NoFlush m
      | Plan => ns = [] /\ (m' = m \/ exists plan bottommost, m' = set_compactor (Planned plan bottommost) m)
      | MergePlan => ns = [] /\ exists plan path mr, m' = set_compactor (Merged plan path mr) m
      | CommitPlan => ns = [] /\ m' = set_compactor NoPass m
      end
  end.

(** The workers leave the clients alone. *)
Lemma counts_background l m m' ns :
  counts l m (Some (m', ns)) ->
  match l with TakeJob | WriteTable | CommitTable | Plan | MergePlan | CommitPlan => m_clients m' = m_clients m /\ ns = [] | _ => True end.
Proof. destruct l; try done; cbn; naive_solver. Qed.

Lemma goes_on_more cid m x :
  (forall w, writing x = Some w -> exists y, m_clients m !! cid = Some y /\ writing y = Some w) ->
  goes_on cid [] m (set_client cid (Some x) m) [].
Proof. intros H. left. by exists x. Qed.

Lemma goes_on_done cid m r : goes_on cid [] m (set_client cid None m) [Done cid r].
Proof. right. by exists r. Qed.

Lemma gives_finish cid typ r m (P : machine * list note -> Prop) :
  P (set_client cid None m, [Done cid r]) -> gives (finish_write cid typ r m) P.
Proof. intros H. unfold finish_write. do 2 (apply gives_then; intros). by apply gives_eret. Qed.

Lemma gives_go (x : E (machine * list note)) P : gives x (fun y => P (Some y)) -> gives (let? r := x in eret (Some r)) P.
Proof. intros Hx. eapply gives_ebind; [exact Hx|]. intros a Ha. by apply gives_eret. Qed.

Lemma counts_write l m :
  match l with Begin _ _ _ _ | Log _ | Apply _ | Rotate _ | HandOver _ => gives (step coins l m) (counts l m) | _ => True end.
Proof.
  destruct l as [cid key value typ|cid|cid|cid|cid| | | | | | | | | |]; try done; cbn [step counts].
  - destruct (m_clients m !! cid) eqn:Ex; [by apply gives_eret|]. destruct key as [|b key]; apply gives_go.
    { apply gives_eret. split; [done|]. right; right. split_and!; [done|done|by eexists]. }
    apply gives_then. intros [s|err]; [apply gives_eret|apply gives_finish]; (split; [done|]); [left|right; left]; by eexists.
  - destruct (m_clients m !! cid) as [[key value typ seq| | | |]|] eqn:Ex; try by apply gives_eret. apply gives_go.
    apply gives_then. intros [s|err]; [apply gives_eret|apply gives_finish]; (split; [by rewrite Ex|]); [|apply goes_on_done].
    apply goes_on_more. intros w [= <-]. by eexists.
  - destruct (m_clients m !! cid) as [[|key value typ seq| | |]|] eqn:Ex; try by apply gives_eret. apply gives_go.
    apply gives_then. intros [].
    + apply gives_eret. exists key, value, typ, seq. split_and!; [done| |].
      * left. by eexists.
      * cbn. rewrite lookup_insert_eq. by intros y [= <-].
    + eapply (gives_ebind _ _ (fun r => r = (set_client cid None m, [Done cid (inl tt)]))); [by apply gives_finish|].
      intros ? ->. apply gives_eret. exists key, value, typ, seq. split_and!; [done| |].
      * right. by eexists.
      * cbn. by rewrite lookup_delete_eq.
  - destruct (m_clients m !! cid) as [[| |typ| |]|] eqn:Ex; try by apply gives_eret. destruct (unlocked m); [|by apply gives_eret]. apply gives_go.
    apply gives_then. intros [[job|]|err]; [apply gives_eret|apply gives_finish..]; (split; [by rewrite Ex|]);
      [by apply goes_on_more|apply goes_on_done..].
  - destruct (m_clients m !! cid) as [[| | |typ job|]|] eqn:Ex; try by apply gives_eret. apply gives_then. intros e.
    destruct (_ <? _); [|by apply gives_eret]. apply gives_go. apply gives_then. intros _. apply gives_finish.
    split; [by rewrite Ex|]. apply goes_on_done.
Qed.

Lemma step_counts l m : gives (step coins l m) (counts l m).
Proof.
  pose proof (counts_write l m) as Hw.
  destruct l as [cid key value typ|cid|cid|cid|cid|cid key|cid|cid|cid s key| | | | | |]; try done; clear Hw; cbn [step counts].
  - destruct (m_clients m !! cid); [by apply gives_eret|]. apply gives_go. apply gives_then. intros r. apply gives_eret. split; [done|]. by exists r.
  - destruct (m_clients m !! cid); [by apply gives_eret|]. apply gives_go. apply gives_then.
    intros [seq|err]; apply gives_eret; [left; by exists seq|right; split; [done|by eexists]].
  - destruct (m_clients m !! cid) as [[| | | |seq]|]; try by apply gives_eret. apply gives_go.
    apply gives_then. intros s. apply gives_eret. split; [done|by eexists].
  - destruct (m_clients m !! cid); [by apply gives_eret|]. apply gives_go. apply gives_then. intros r. apply gives_eret. split; [done|]. by exists r.
  - apply gives_then. intros e. destruct (m_flusher m); try by apply gives_eret. destruct (e_flushCh e) as [|job]; [by apply gives_eret|].
    apply gives_go. apply gives_then. intros _. apply gives_eret. split; [done|]. by exists job.
  - destruct (m_flusher m) as [|job|]; try by apply gives_eret. apply gives_go. apply gives_then. intros t. apply gives_eret.
    split; [done|]. by exists job, t.
  - destruct (m_flusher m); try by apply gives_eret. destruct (unlocked m); [|by apply gives_eret]. apply gives_go.
    do 4 (apply gives_then; intros _). by apply gives_eret.
  - apply gives_then. intros e. destruct (m_compactor m); try by apply gives_eret. destruct (e_compactCh e); [|by apply gives_eret].
    apply gives_go. apply gives_then. intros _. apply gives_eret. split; [done|].
    destruct (pickCompactionLocked e) as [plan|]; [right; by eexists _, _|by left].
  - destruct (m_compactor m) as [|plan bottom|]; try by apply gives_eret. apply gives_go. apply gives_then. intros [p r]. apply gives_eret.
    split; [done|]. by exists plan, p, r.
  - destruct (m_compactor m); try by apply gives_eret. destruct (unlocked m); [|by apply gives_eret]. apply gives_go.
    do 4 (apply gives_then; intros). by apply gives_eret.
Qed.

(** A goroutine that cannot move changes nothing. *)
Definition stays (x : E (option (machine * list note))) : Prop :=
  forall e w e' w', x e w = (Ok (e', inl None), w') -> e' = e /\ w' = w.

Lemma stays_eret r : stays (eret r).
Proof. by intros e w e' w' [= <- _ <-]. Qed.

Lemma stays_go x : stays (let? r := x in eret (Some r)).
Proof. intros e w e' w'. unfold ebind, bind. by destruct (x e w) as [[[? [?|?]]|?|] ?]. Qed.

Lemma stays_eget k : (forall e, stays (k e)) -> stays (ebind eget k).
Proof. intros Hk e w e' w' H. by apply (Hk e). Qed.

Lemma step_stays l m : stays (step coins l m).
Proof.
  destruct l; cbn [step];
    repeat lazymatch goal with
    | |- stays (eret None) => apply stays_eret
    | |- stays (ebind eget _) => apply stays_eget; intros
    | |- stays (ebind _ _) => apply stays_go
    | |- stays (match ?x with _ => _ end) => destruct x
    end.
Qed.
End run.

(** ** What steps leave alone *)

Definition keeps {V A} (f : Engine -> V) (m : E A) : Prop := forall e w e' r w', m e w = (Ok (e', r), w') -> f e' = f e.

Section keeps.
Context {V A B : Type} (f : Engine -> V).

Lemma keeps_eret (a : A) : keeps f (eret a).
Proof. by intros e w e' r w' [= <- _ _]. Qed.

Lemma keeps_ethrow err : keeps f (ethrow err : E A).
Proof. by intros e w e' r w' [= <- _ _]. Qed.

Lemma keeps_ebind (m : E A) (k : A -> E B) : keeps f m -> (forall a, keeps f (k a)) -> keeps f (ebind m k).
Proof.
  intros Hm Hk e w e' r w'. unfold ebind, bind. destruct (m e w) as [[[e1 [a|err]]|?|] w1] eqn:E; [|intros [= <- _ _]; by apply Hm in E|done..].
  intros H. apply Hm in E. apply Hk in H. congruence.
Qed.

Lemma keeps_etry (m : E A) : keeps f m -> keeps f (etry m).
Proof.
  intros Hm e w e' r w'. unfold etry, bind. destruct (m e w) as [[[e1 r1]|?|] w1] eqn:E; [|done..].
  intros [= <- _ _]. by apply Hm in E.
Qed.

Lemma keeps_ewrap text (m : E A) : keeps f m -> keeps f (ewrap text m).
Proof.
  intros Hm e w e' r w'. unfold ewrap, bind. destruct (m e w) as [[[e1 r1]|?|] w1] eqn:E; [|done..].
  intros [= <- _ _]. by apply Hm in E.
Qed.

Lemma keeps_lift (m : M A) : keeps f (lift m).
Proof. intros e w e' r w'. unfold lift, bind, attempt. by destruct (m w) as [[a|err|] w1]; intros [= <- _ _]. Qed.

Lemma keeps_eget : keeps f eget.
Proof. by intros e w e' r w' [= <- _ _]. Qed.

Lemma keeps_emod g : (forall e, f (g e) = f e) -> keeps f (emod g).
Proof. intros Hg e w e' r w' [= <- _ _]. apply Hg. Qed.

Lemma keeps_nextGen : (forall e g, f (set_gen g e) = f e) -> keeps f nextGen.
Proof. intros Hg e w e' r w' [= <- _ _]. apply Hg. Qed.
End keeps.

Create HintDb keeps.
#[export] Hint Resolve keeps_eret keeps_ethrow keeps_eget keeps_lift : keeps.

(** [kept] proves [keeps] goals by following the structure of the code. *)
Ltac kept_by :=
  repeat first
    [ progress intros
    | solve [eauto 2 with keeps]
    | match goal with
      | |- keeps _ (ebind _ _) => apply keeps_ebind
      | |- keeps _ (etry _) => apply keeps_etry
      | |- keeps _ (ewrap _ _) => apply keeps_ewrap
      | |- keeps _ (emod _) => apply keeps_emod; done
      | |- keeps _ nextGen => apply keeps_nextGen; done
      | |- keeps _ (match ?x with _ => _ end) => destruct x
      end ].

(** The active MemTable, the table objects and their list. *)
Definition objects (e : Engine) : string * N * MemTable * gmap nat Table * nat * list leveledTable :=
  (e_dir e, e_memId e, e_mem e, e_store e, e_nextTable e, e_tables e).

Section objects.
Context `{FM : Bloom.FloatMath} `{FL : Flate}.
Context (coins : N -> list bool).

Lemma keeps_step l m :
  match l with
  | Begin _ _ _ _ | WriteTable | MergePlan => keeps objects (step coins l m)
  | Log _ | HandOver _ | Load _ | Register _ | TakeJob | Plan => keeps (fun e => (objects e, e_seq e, e_genCounter e)) (step coins l m)
  | _ => True
  end.
Proof.
  destruct l; try done; unfold step, finish_write, write_begin, write_log, snapshot_load, snapshot_register, flush_write, compact_merge,
    observe_since, inc, gauge_add; cbv zeta; kept_by.
Qed.
End objects.
