(* ===== verification/Agree.v ===== *)
(** * Methods that run alike

    [agree P x y]: the methods [x] and [y] of the engine do the same in every state
    with [P]: results, errors, panics, the engine and the files.  The laws of the
    monad [E] up to it, and [unfailing x]: [x] returns no error of its own. *)

From S2P Require Import Prelude GoIO IOLogic MemTable Versions SSTable Table Merge Metrics FileNames EngineState EngineLogic Engine InterleaveFrame.
From S2P Require Wal Bloom.
From stdpp Require Import base gmap sets list strings numbers fin_maps sorting.
Open Scope nat_scope.

(** [x] and [y] run alike in the states where [P] holds. *)
Definition agree (P : Engine -> Prop) {A} (x y : E A) : Prop := forall e w, P e -> x e w = y e w.

#[export] Instance agree_equivalence P A : Equivalence (@agree P A).
Proof.
  split; [by intros x e w|by intros x y H e w He; rewrite H|]. intros x y z H1 H2 e w He. by rewrite H1, H2.
Qed.

#[export] Instance etry_agree P A : Proper (agree P ==> agree P) (@etry A).
Proof. intros x y H e w He. unfold etry, bind. by rewrite H. Qed.

#[export] Instance ewrap_agree P A text : Proper (agree P ==> agree P) (@ewrap A text).
Proof. intros x y H e w He. unfold ewrap, bind. by rewrite H. Qed.

#[export] Instance ebind_agree P A B : Proper (agree P ==> eq ==> agree P) (@ebind A B).
Proof. intros x y H k ? <- e w He. unfold ebind, bind. by rewrite H. Qed.

Section agree.
Context (P : Engine -> Prop).

(** [x] stays where [P] holds. *)
Definition stable {A} (x : E A) : Prop := forall e w e' r w', P e -> x e w = (Ok (e', r), w') -> P e'.

Lemma stable_keeps {V A} (f : Engine -> V) (x : E A) : (forall e e', f e' = f e -> P e -> P e') -> keeps f x -> stable x.
Proof. intros Hf Hx e w e' r w' He E. eapply Hf; [by eapply Hx|done]. Qed.

Lemma agree_bind {A B} (x : E A) (k k' : A -> E B) : stable x -> (forall a, agree P (k a) (k' a)) -> agree P (ebind x k) (ebind x k').
Proof.
  intros Hx Hk e w He. unfold ebind, bind. destruct (x e w) as [[[e1 [a|err]]|err|] w1] eqn:E; [|done..]. apply Hk. by eapply Hx.
Qed.

Lemma agree_assoc {A B C} (x : E A) (f : A -> E B) (g : B -> E C) :
  agree P (ebind (ebind x f) g) (ebind x (fun a => ebind (f a) g)).
Proof. intros e w _. unfold ebind, bind. by destruct (x e w) as [[[e1 [a|err]]|err|] w1]. Qed.

Lemma agree_ret {A B} (a : A) (k : A -> E B) : agree P (ebind (eret a) k) (k a).
Proof. by intros e w _. Qed.

Lemma agree_id {A} (x : E A) : agree P (ebind x eret) x.
Proof. intros e w _. unfold ebind, bind. by destruct (x e w) as [[[e1 [a|err]]|err|] w1]. Qed.

Lemma agree_etry_bind {A B} (x : E A) (k : A -> E B) :
  agree P (etry (ebind x k)) (let? r := etry x in match r with inl a => etry (k a) | inr err => eret (inr err) end).
Proof. intros e w _. unfold etry, ebind, bind. by destruct (x e w) as [[[e1 [a|err]]|err|] w1]. Qed.
End agree.

(** In every state. *)
Definition anywhere (e : Engine) : Prop := True.

#[export] Instance ebind_anywhere A B : Proper (agree anywhere ==> pointwise_relation A (agree anywhere) ==> agree anywhere) (@ebind A B).
Proof.
  intros x y Hx k k' Hk e w He. rewrite (ebind_agree anywhere _ _ x y Hx k k eq_refl e w He). by apply (agree_bind anywhere y k k').
Qed.

(** ** Calls without an error *)

(** [x] returns no error of its own. *)
Definition unfailing {A} (x : E A) : Prop := forall e w e1 err w1, x e w <> (Ok (e1, inr err), w1).

Lemma unfailing_eret {A} (a : A) : unfailing (eret a).
Proof. by intros e w e1 err w1. Qed.

Lemma unfailing_emod f : unfailing (emod f).
Proof. by intros e w e1 err w1. Qed.

Lemma unfailing_etry {A} (x : E A) : unfailing (etry x).
Proof. intros e w e1 err w1. unfold etry, bind, ret. by destruct (x e w) as [[[e2 r]|?|] w2]. Qed.

Lemma unfailing_load_table tid : unfailing (load_table tid).
Proof. intros e w e1 err w1. unfold load_table. by destruct (e_store e !! tid). Qed.

Lemma unfailing_option {A} (x : option A) : unfailing (lift (of_option x)).
Proof. intros e w e1 err w1. by destruct x. Qed.

Lemma unfailing_bind {A B} (x : E A) (k : A -> E B) : unfailing x -> (forall a, unfailing (k a)) -> unfailing (ebind x k).
Proof.
  intros Hx Hk e w e1 err w1. unfold ebind, bind. specialize (Hx e w). destruct (x e w) as [[[e2 [a|err']]|?|] w2]; [apply Hk|by edestruct Hx|done..].
Qed.

Lemma unfailing_efor {A} (f : A -> E unit) l : (forall a, unfailing (f a)) -> unfailing (efor l f).
Proof. intros Hf. induction l as [|a l IH]; [apply unfailing_eret|]. apply unfailing_bind; [apply Hf|by intros []]. Qed.

Lemma etry_unfailing {A B} P (x : E A) (k : A -> E B) : unfailing x -> agree P (etry (ebind x k)) (let? a := x in etry (k a)).
Proof.
  intros Hx e w _. specialize (Hx e w). unfold etry, ebind, bind, ret. destruct (x e w) as [[[e1 [a|err]]|err|] w1]; [done|by edestruct Hx|done..].
Qed.

Lemma etry_of_sum {A} P (r : A + error) : agree P (etry (of_sum r)) (eret r).
Proof. intros e w _. by destruct r. Qed.

Lemma unfailing_acquire_all tids : unfailing (acquire_all tids).
Proof. apply unfailing_efor. intros tid. apply unfailing_bind; [apply unfailing_load_table|intros t; apply unfailing_emod]. Qed.

Lemma unfailing_Release t : unfailing (lift (Release t)).
Proof.
  intros e w e1 err w1. unfold lift, Release. destruct (0 <? t_refCount t - 1)%Z; [done|]. unfold bind, attempt, ret.
  destruct (file_Close w) as [[?|?|] w2]; cbn; [destruct (t_removeOnZero t)..|done]; cbn; try done;
    destruct (os_Remove (t_path t) w2) as [[?|?|] w3]; cbn; try done; by destruct (_ && _).
Qed.

Lemma unfailing_release tid : unfailing (table_call Release tid).
Proof.
  apply unfailing_bind; [apply unfailing_load_table|]. intros t. apply unfailing_bind; [apply unfailing_Release|]. intros [t' err].
  apply unfailing_bind; [apply unfailing_emod|]. intros []. apply unfailing_eret.
Qed.

Lemma unfailing_releaseAll tids : unfailing (releaseAll tids).
Proof. apply unfailing_efor. intros tid. apply unfailing_bind; [apply unfailing_release|intros; apply unfailing_eret]. Qed.

Lemma unfailing_recordGet err : unfailing (recordGet err).
Proof.
  unfold recordGet, observe_since, inc. do 2 (apply unfailing_bind; [apply unfailing_emod|intros []]).
  destruct err as [err|]; [|apply unfailing_emod]. destruct (errors_Is err ErrNotFound); [apply unfailing_emod|apply unfailing_eret].
Qed.
