(* ===== verification/InterleaveWhole.v ===== *)
(** * Writes, flushes and compactions that nobody interrupts

    The machine of Interleave.v cuts the methods of the engine into critical
    sections.  Taken one after the other they are the methods of Engine.v again:
    [write_alone], [flush_alone], [pass_alone]. *)

From S2P Require Import Prelude GoIO IOLogic MemTable Versions SSTable Table Merge Metrics FileNames EngineState EngineLogic Engine Interleave Linear InterleaveInv InterleaveFrame Agree.
From S2P Require Wal Bloom.
From stdpp Require Import base gmap sets list strings numbers fin_maps sorting.
Open Scope nat_scope.

(** ** A write *)

Section write.
Context `{FM : Bloom.FloatMath} `{FL : Flate}.
Context (coins : N -> list bool).

(** What the calls return. *)
Definition results (ns : list note) : list (unit + error) := omap (fun n => match n with Done _ r => Some r | _ => None end) ns.
Definition returns (x : E (machine * list note)) : E (machine * list (unit + error)) := let? (m, ns) := x in eret (m, results ns).

Definition has_room (e : Engine) : Prop := length (e_flushCh e) < flushQueueDepth.

Lemma stable_room {A} (x : E A) : keeps e_flushCh x -> stable has_room x.
Proof. apply stable_keeps. unfold has_room. by intros e e' ->. Qed.

Lemma returns_go P ls l m (x : E (machine * list note)) :
  step coins l m = (let? r := x in eret (Some r)) ->
  agree P (returns (runs coins (l :: ls) m)) (let? (m1, ns) := x in let? (m2, rs) := returns (runs coins ls m1) in eret (m2, results ns ++ rs)).
Proof.
  intros E e w _. cbn [runs]. rewrite E. unfold returns, ebind, bind, eret, ret.
  destruct (x e w) as [[[e1 [[m1 ns]|err]]|err|] w1]; [|done..].
  destruct (runs coins ls m1 e1 w1) as [[[e2 [[m2 ns']|err]]|err|] w2]; [|done..]. unfold results. by rewrite omap_app.
Qed.

(** When nothing has been returned yet. *)
Lemma returns_more P x : agree P (let? (m2, rs) := returns x in eret (m2, rs)) (returns x).
Proof. intros e w _. unfold returns, ebind, bind, eret, ret. by destruct (x e w) as [[[e1 [[m1 ns]|err]]|err|] w1]. Qed.

Lemma runs_stay ls l m : step coins l m = eret None -> runs coins (l :: ls) m = runs coins ls m.
Proof. intros E. cbn [runs]. by rewrite E. Qed.

Context (cid : nat) (key value : bytes) (typ : Wal.RecordType) (m : machine).
Context (Hcid : m_clients m !! cid = None) (Hfree : unlocked m = true).

Definition amid (x : client) : machine := set_client cid (Some x) m.

Lemma amid_lookup x : m_clients (amid x) !! cid = Some x.
Proof. apply lookup_insert_eq. Qed.

Lemma amid_amid x y : set_client cid (Some y) (amid x) = amid y.
Proof. unfold amid, set_client. cbn. by rewrite insert_insert_eq. Qed.

Lemma amid_gone x : set_client cid None (amid x) = m.
Proof. unfold amid, set_client. cbn. rewrite delete_insert_id by done. by destruct m. Qed.

Lemma amid_unlocked x : holds_lock x = false -> unlocked (amid x) = true.
Proof.
  intros Hx. unfold unlocked in *. rewrite forallb_forall in Hfree |- *. intros [i y] Hin%list_elem_of_In%elem_of_map_to_list.
  cbn in Hin. apply lookup_insert_Some in Hin as [[_ <-]|[Hne Hin]]; [cbn; by rewrite Hx|].
  apply (Hfree (i, y)), list_elem_of_In, elem_of_map_to_list, Hin.
Qed.

(** The rest of the call's steps once it has ended. *)
Lemma runs_ended ls :
  ls ⊆ [Log cid; Apply cid; Rotate cid; HandOver cid] -> runs coins ls m = eret (m, []).
Proof.
  induction ls as [|l ls IH]; [done|]. intros Hls. pose proof (Hls l ltac:(by left)) as Hl.
  rewrite runs_stay; [apply IH; intros y Hy; apply Hls; by right|].
  repeat (apply elem_of_cons in Hl as [->|Hl]; [cbn [step]; by rewrite Hcid|]). by apply not_elem_of_nil in Hl.
Qed.

(** The end of the call. *)
Definition ending (r : unit + error) : E (machine * list (unit + error)) :=
  observe_since writeLatency;;? inc (if bool_decide (typ = Wal.RecordPut) then putTotal else deleteTotal);;? eret (m, [r]).

Lemma returns_finish P ls m' r :
  set_client cid None m' = m -> ls ⊆ [Log cid; Apply cid; Rotate cid; HandOver cid] ->
  agree P (let? (m1, ns) := finish_write cid typ r m' in let? (m2, rs) := returns (runs coins ls m1) in eret (m2, results ns ++ rs)) (ending r).
Proof.
  intros Em Hls e w _. unfold finish_write. rewrite Em. unfold ending, ebind, bind, observe_since, inc, emod, eret, ret. cbn.
  by rewrite (runs_ended ls Hls).
Qed.

(** Stage by stage, from the last. *)
Lemma after_handing job :
  agree has_room (returns (runs coins [HandOver cid] (amid (Handing typ job)))) (let? r := etry (send_job job) in ending r).
Proof.
  intros e w He. unfold has_room in He. cbn [runs step]. rewrite amid_lookup. unfold returns, finish_write, send_job, ending, ebind, bind, etry, eget, ret.
  rewrite (proj2 (Nat.ltb_lt _ _) He). unfold observe_since, inc, emod, eret, ret. by rewrite amid_gone.
Qed.

Lemma after_filling :
  agree has_room (returns (runs coins [Rotate cid; HandOver cid] (amid (Filled typ))))
    (let? r := etry (ewrap "engine: rotating memtable" (Engine.rotate coins)) in ending r).
Proof.
  rewrite returns_go by (cbn [step]; by rewrite amid_lookup, amid_unlocked). rewrite agree_assoc.
  transitivity (let? r := etry (ewrap "engine: rotating memtable" (rotate_swap coins)) in
                match r with
                | inl None => ending (inl tt)
                | inl (Some job) => let? r := etry (send_job job) in ending r
                | inr err => ending (inr err)
                end).
  - apply agree_bind.
    { apply stable_room. unfold rotate_swap. kept_by. }
    intros [[job|]|err]; [|apply returns_finish; [apply amid_gone|by do 3 right]..].
    rewrite amid_amid, agree_ret, <- after_handing. apply returns_more.
  - intros e w He. unfold Engine.rotate, etry, ewrap, ebind, bind.
    destruct (rotate_swap coins e w) as [[[e1 [[job|]|err]]|err|] w1] eqn:E; [|done..].
    assert (has_room e1) as He1%Nat.ltb_lt by (eapply (stable_room (rotate_swap coins)); [unfold rotate_swap; kept_by|exact He|exact E]).
    unfold send_job, ebind, bind, eget, emod, eret, ret. by rewrite He1.
Qed.

Lemma after_logging seq :
  agree has_room (returns (runs coins [Apply cid; Rotate cid; HandOver cid] (amid (Logged key value typ seq))))
    (let? full := write_apply key value typ seq in
     if full : bool then (let? r := etry (ewrap "engine: rotating memtable" (Engine.rotate coins)) in ending r) else ending (inl tt)).
Proof.
  rewrite returns_go by (cbn [step]; by rewrite amid_lookup). rewrite agree_assoc. apply agree_bind.
  { apply stable_room. unfold write_apply. kept_by. }
  intros [|].
  - rewrite amid_amid, agree_ret, <- after_filling. apply returns_more.
  - rewrite agree_assoc. etransitivity; [|apply (returns_finish has_room [Rotate cid; HandOver cid] (amid (Logged key value typ seq))); [apply amid_gone|by do 2 right]].
    intros e w _. unfold ebind, bind, eret, ret. by destruct (finish_write _ _ _ _ e w) as [[[e1 [[m1 ns]|err]]|err|] w1].
Qed.

Lemma write_apply_returns seq e w e1 err w1 : write_apply key value typ seq e w <> (Ok (e1, inr err), w1).
Proof.
  unfold write_apply, ebind, bind, eget, emod, eret, lift, attempt, ret. by destruct (if bool_decide _ then _ else _).
Qed.

Lemma after_beginning seq :
  agree has_room (returns (runs coins [Log cid; Apply cid; Rotate cid; HandOver cid] (amid (Sequenced key value typ seq))))
    (let? r := etry (write_log (Wal.MkRecord typ key value seq);;? write_apply key value typ seq) in
     match r with
     | inl true => let? r := etry (ewrap "engine: rotating memtable" (Engine.rotate coins)) in ending r
     | inl false => ending (inl tt)
     | inr err => ending (inr err)
     end).
Proof.
  rewrite returns_go by (cbn [step]; by rewrite amid_lookup). rewrite agree_assoc, agree_etry_bind, agree_assoc. apply agree_bind.
  { apply stable_room. unfold write_log. kept_by. }
  intros [[]|err].
  - rewrite amid_amid, agree_ret, returns_more, after_logging. intros e w _. unfold etry, ebind, bind.
    pose proof (write_apply_returns seq e w). by destruct (write_apply key value typ seq e w) as [[[e1 [[]|err]]|err|] w1]; [..|by edestruct H| |].
  - apply returns_finish; [apply amid_gone|by right].
Qed.

(** The method. *)
Definition method : E unit := if bool_decide (typ = Wal.RecordPut) then Engine.Put coins key value else Engine.Delete coins key.

Lemma write_alone :
  key <> [] -> typ = Wal.RecordPut \/ typ = Wal.RecordDelete /\ value = [] ->
  agree has_room (returns (runs coins (whole_write cid key value typ) m)) (let? r := etry method in eret (m, [r])).
Proof.
  intros Hk Hv.
  transitivity (let? r := etry (Engine.write coins key value typ) in ending r).
  - assert (step coins (Begin cid key value typ) m =
            (let? r := (let? r := etry write_begin in
                        match r with
                        | inr err => finish_write cid typ (inr err) m
                        | inl seq => eret (amid (Sequenced key value typ seq), [])
                        end) in eret (Some r))) as Estep by (cbn [step]; rewrite Hcid; by destruct key).
    unfold whole_write. rewrite (returns_go _ _ _ _ _ Estep), agree_assoc.
    transitivity (let? r := etry write_begin in
                  match r with
                  | inr err => ending (inr err)
                  | inl seq => returns (runs coins [Log cid; Apply cid; Rotate cid; HandOver cid] (amid (Sequenced key value typ seq)))
                  end).
    + apply agree_bind; [apply stable_room; unfold write_begin; kept_by|]. intros [seq|err].
      * rewrite agree_ret. apply returns_more.
      * apply returns_finish; [|done]. unfold set_client. rewrite delete_id by done. by destruct m.
    + transitivity (let? r := etry write_begin in
                  match r with
                  | inr err => ending (inr err)
                  | inl seq => let? r := etry (write_log (Wal.MkRecord typ key value seq);;? write_apply key value typ seq) in
     match r with
     | inl true => let? r := etry (ewrap "engine: rotating memtable" (Engine.rotate coins)) in ending r
     | inl false => ending (inl tt)
     | inr err => ending (inr err)
     end
                  end).
      { apply agree_bind; [apply stable_room; unfold write_begin; kept_by|]. intros [seq|err]; [apply after_beginning|done]. }
      intros e w _. unfold Engine.write, write_locked, etry, ewrap, ebind, bind, ret.
      destruct (write_begin e w) as [[[e1 [seq|err]]|err|] w1]; [|done..]. cbv beta iota.
      destruct (write_log _ e1 w1) as [[[e2 [[]|err]]|err|] w2]; [|done..]. cbv beta iota.
      destruct (write_apply _ _ _ _ e2 w2) as [[[e3 [[|]|err]]|err|] w3]; [|done..]. cbv beta iota.
      by destruct (Engine.rotate coins e3 w3) as [[[e4 [[]|err]]|err|] w4].
  - intros e w _. unfold method, ending, Engine.Put, Engine.Delete. destruct key as [|b key0]; [done|]. destruct Hv as [->|[-> ->]];
      [rewrite bool_decide_eq_true_2 by done|rewrite bool_decide_eq_false_2 by done];
      unfold etry, ebind, bind, observe_since, inc, emod, of_sum, eret, ethrow, ret; cbv beta;
      by destruct (Engine.write _ _ _ _ e w) as [[[e1 [[]|err]]|err|] w1].
Qed.
End write.

(** ** The workers *)

Section workers.
Context `{FM : Bloom.FloatMath} `{FL : Flate}.
Context (coins : N -> list bool).

Lemma runs_go ls l m (x : E (machine * list note)) :
  step coins l m = (let? r := x in eret (Some r)) ->
  agree anywhere (runs coins (l :: ls) m) (let? (m1, ns) := x in let? (m2, ns') := runs coins ls m1 in eret (m2, ns ++ ns')).
Proof.
  intros E e w _. cbn [runs]. rewrite E. unfold ebind, bind, eret, ret. by destruct (x e w) as [[[e1 [[m1 ns]|err]]|err|] w1].
Qed.

Lemma runs_more ls m : agree anywhere (let? (m2, ns') := runs coins ls m in eret (m2, [] ++ ns')) (runs coins ls m).
Proof. intros e w _. unfold ebind, bind, eret, ret. by destruct (runs coins ls m e w) as [[[e1 [[m1 ns]|err]]|err|] w1]. Qed.

Lemma runs_step ls l m m1 ns e w e1 w1 :
  step coins l m e w = (Ok (e1, inl (Some (m1, ns))), w1) ->
  runs coins (l :: ls) m e w = (let? (m2, ns') := runs coins ls m1 in eret (m2, ns ++ ns')) e1 w1.
Proof. intros E. cbn [runs]. unfold ebind at 1, bind at 1. by rewrite E. Qed.

Lemma flush_committed m job t :
  unlocked m = true ->
  agree anywhere (runs coins [CommitTable] (set_flusher (Flushed job t) m))
    ((match t with Some t => flush_commit job t | None => eret tt end);;?
     inc flushTotal;;?
     (match t with Some _ => eret tt | None => inc flushFailedTotal end);;?
     observe_since flushLatency;;?
     eret (set_flusher NoFlush m, [])).
Proof.
  intros Hu e w _. cbn [runs step]. change (unlocked (set_flusher _ m)) with (unlocked m). cbn [m_flusher set_flusher]. rewrite Hu.
  unfold inc, observe_since, ebind, bind, emod, eret, ret. destruct t as [t|]; [|done].
  by destruct (flush_commit job t e w) as [[[e1 [[]|err]]|err|] w1].
Qed.

Lemma flush_written m job :
  unlocked m = true ->
  agree anywhere (runs coins [WriteTable; CommitTable] (set_flusher (Taken job) m)) (doFlush job;;? eret (set_flusher NoFlush m, [])).
Proof.
  intros Hu. rewrite runs_go by done. rewrite agree_assoc. unfold doFlush, doFlush_body. rewrite !agree_assoc.
  apply agree_bind; [done|]. intros t. rewrite agree_ret, runs_more, flush_committed by done.
  destruct t as [t|].
  - rewrite !agree_assoc. apply agree_bind; [done|]. by intros [] e w _.
  - by intros e w _.
Qed.

Lemma flush_alone m :
  m_flusher m = NoFlush -> unlocked m = true -> agree anywhere (runs coins whole_flush m) (flushWorker_step;;? eret (m, [])).
Proof.
  intros Hf Hu e w He. unfold whole_flush, flushWorker_step. destruct (e_flushCh e) as [|job rest] eqn:Eq.
  - unfold ebind, bind, eget, ret. rewrite Eq. cbn [runs step]. rewrite Hf. unfold ebind, bind, eget, eret, ret. by rewrite Eq.
  - assert (set_flusher NoFlush m = m) as Em by (rewrite <- Hf; by destruct m).
    assert ((flushWorker_step;;? eret (m, [] : list note)) e w = (doFlush job;;? eret (m, [])) (set_flushCh rest e) w) as Eworker.
    { unfold flushWorker_step, ebind, bind, eget, ret. cbv beta iota. by rewrite Eq. }
    fold flushWorker_step. rewrite Eworker. transitivity ((doFlush job;;? eret (set_flusher NoFlush m, [] : list note)) (set_flushCh rest e) w); [|by rewrite Em].
    rewrite <- (flush_written m job Hu (set_flushCh rest e) w I). etransitivity; [|exact (runs_more _ _ _ _ I)]. apply runs_step.
    cbn [step]. unfold ebind, bind, eget, emod, eret, ret. by rewrite Hf, Eq.
Qed.

(** *** A compaction *)

Lemma pass_committed m plan path mr :
  unlocked m = true ->
  agree anywhere (runs coins [CommitPlan] (set_compactor (Merged plan path mr) m))
    (let? r := etry (compact_commit plan path mr) in
     inc compactionTotal;;?
     (match r with inr _ => inc compactionFailedTotal | inl _ => eret tt end);;?
     observe_since compactionLatency;;?
     eret (set_compactor NoPass m, [])).
Proof.
  intros Hu e w _. cbn [runs step]. change (unlocked (set_compactor _ m)) with (unlocked m). cbn [m_compactor set_compactor]. rewrite Hu.
  unfold inc, observe_since, ebind, bind, emod, eret, ret. by destruct (etry (compact_commit plan path mr) e w) as [[[e1 [[[]|err]|err]]|err|] w1].
Qed.

Lemma pass_merged m plan bottommost :
  unlocked m = true ->
  agree anywhere (runs coins [MergePlan; CommitPlan] (set_compactor (Planned plan bottommost) m))
    (let? (path, mr) := compact_merge plan bottommost in
     let? r := etry (compact_commit plan path mr) in
     inc compactionTotal;;?
     (match r with inr _ => inc compactionFailedTotal | inl _ => eret tt end);;?
     observe_since compactionLatency;;?
     eret (set_compactor NoPass m, [])).
Proof.
  intros Hu. rewrite runs_go by done. rewrite agree_assoc. apply agree_bind; [done|]. intros [path mr].
  by rewrite agree_ret, runs_more, pass_committed.
Qed.

Lemma compact_merge_returns plan bottommost e w e1 err w1 : compact_merge plan bottommost e w <> (Ok (e1, inr err), w1).
Proof.
  unfold compact_merge, etry, lift, nextGen, eget, ebind, bind, attempt, ret, eret, ret. by destruct (Merge.Merge _ _ _ _ _ _ w) as [[?|?|] ?].
Qed.

Lemma pick_idle b e : pickCompactionLocked (set_compactCh b e) = pickCompactionLocked e.
Proof.
  assert (forall k lvl, pick_level (set_compactCh b e) k lvl = pick_level e k lvl) as E.
  { intros k. induction k as [|k IH]; intros lvl; [done|]. cbn [pick_level]. by rewrite IH. }
  unfold pickCompactionLocked. by rewrite E.
Qed.

Lemma pass_alone m :
  m_compactor m = NoPass -> unlocked m = true -> agree anywhere (runs coins whole_pass m) (compactionLoop_step;;? eret (m, [])).
Proof.
  intros Hm Hu e w He. assert (set_compactor NoPass m = m) as Em by (rewrite <- Hm; by destruct m).
  unfold whole_pass. destruct (e_compactCh e) eqn:Ec.
  2: { unfold compactionLoop_step, ebind, bind, eget, ret. rewrite Ec. cbn [runs step]. rewrite Hm. unfold ebind, bind, eget, eret, ret. by rewrite Ec. }
  transitivity ((match pickCompactionLocked e with
                 | None => eret (m, [])
                 | Some plan => runs coins [MergePlan; CommitPlan] (set_compactor (Planned plan (isBottommost e (p_targetLevel plan))) m)
                 end) (set_compactCh false e) w).
  - destruct (pickCompactionLocked e) as [plan|] eqn:Ep.
    + etransitivity; [|exact (runs_more _ _ _ _ I)]. apply runs_step. cbn [step]. unfold ebind, bind, eget, emod, eret, ret. by rewrite Hm, Ec, Ep.
    + erewrite runs_step; [|cbn [step]; unfold ebind, bind, eget, emod, eret, ret; by rewrite Hm, Ec, Ep].
      rewrite (runs_more _ _ _ _ I). cbn [runs step]. by rewrite Hm.
  - unfold compactionLoop_step, runCompaction, ebind, bind, etry, eget, emod, eret, ret. cbv beta iota. rewrite Ec.
    rewrite pick_idle. destruct (pickCompactionLocked e) as [plan|]; [|done].
    rewrite (pass_merged m plan _ Hu _ _ I). change (isBottommost (set_compactCh false e) (p_targetLevel plan)) with (isBottommost e (p_targetLevel plan)).
    pose proof (compact_merge_returns plan (isBottommost e (p_targetLevel plan)) (set_compactCh false e) w) as Hret.
    unfold inc, observe_since, etry, ebind, bind, emod, eret, ret. cbv beta iota.
    destruct (compact_merge _ _ _ _) as [[[e1 [[path mr]|err]]|err|] w1]; [|by edestruct Hret|done..]. cbv beta iota.
    destruct (compact_commit plan path mr e1 w1) as [[[e2 [[]|err]]|err|] w2]; rewrite ?Em; done.
Qed.
End workers.
