(* ===== verification/InterleaveSteps.v ===== *)
(** * Every step is coherent

    One lemma per kind of step of Interleave.v: from a state in order, within the
    limits and without failing system calls, it observes what the map allows and
    leaves the state in order.  Together: any schedule does. *)

From S2P Require Import Prelude OrdMap GoIO IOLogic MemTable Versions SSTable Table Merge Metrics FileNames EngineState EngineLogic EngineInv Engine EngineRead EngineFlush EngineLogs EngineWrite EngineCompact Store Scan EngineFrame Interleave Linear InterleaveInv.
From S2P Require Wal SkipList Bloom.
From stdpp Require Import base gmap sets list strings numbers fin_maps sorting.
Open Scope nat_scope.

Section steps.
Context `{FM : Bloom.FloatMath} `{FL : Flate} `{HFL : !FlateLaws FL}.
Context (coins : N -> list bool).

(** ** What a step leaves *)

Definition goes (mp : gmap bytes bytes) (r : machine * list note + error) (e' : Engine) (w' : world) : Prop :=
  exists m' ns c', r = inl (m', ns) /\ legal ns mp /\ coherent (effects ns mp) c' m' e' w'.

Definition steps_to (mp : gmap bytes bytes) (m : machine) (r : option (machine * list note) + error) (e' : Engine) (w' : world) : Prop :=
  match r with
  | inl None => exists c', coherent mp c' m e' w'
  | inl (Some x) => goes mp (inl x) e' w'
  | inr _ => False
  end.

Lemma wp_go mp m (x : E (machine * list note)) e w :
  wp x (goes mp) e w -> wp (let? r := x in eret (Some r)) (steps_to mp m) e w.
Proof.
  intros H. wp_step. eapply wp_mono; [exact H|]. intros r e' w' Hg. pose proof Hg as (m' & ns & c' & -> & _).
  wp_step. exact Hg.
Qed.

Lemma wp_stay mp c m e w : coherent mp c m e w -> wp (eret None) (steps_to mp m) e w.
Proof. intros H. wp_step. by exists c. Qed.

(** ** Metrics *)

Lemma undisturbed_refl e w : undisturbed e w e w.
Proof. by split. Qed.

Lemma coherent_remetered mp c m e e' w w' :
  coherent mp c m e w -> remetered e e' -> w_files w' = w_files w -> coherent mp c m e' w'.
Proof.
  intros [Hs Hp] (mt & k & ->) Hw. split.
  - eapply sound_same; [exact Hs|eapply inv_irrelevant; [apply Hs|done..]|done|done|done|apply Hs|done|apply Hs].
  - eapply placed_same; [exact Hp| |cbn; lia|done|done]. split; try done. by apply same_known_eq.
Qed.

Lemma remetered_refl e : remetered e e.
Proof. exists (e_m e), (e_clock e). by destruct e. Qed.

Lemma wp_finish_write cid typ r m e w :
  wp (finish_write cid typ r m) (fun x e' w' => x = inl (set_client cid None m, [Done cid r]) /\ remetered e e' /\ w' = w) e w.
Proof.
  unfold finish_write, observe_since, inc. wp_steps. split_and!; [done| |done]. by eexists _, _.
Qed.

(** The end of a write that succeeded. *)
Lemma wp_finish_ok mp c cid typ m e w :
  coherent mp c (set_client cid None m) e w -> wp (finish_write cid typ (inl tt) m) (goes mp) e w.
Proof.
  intros Hc. eapply wp_mono; [apply wp_finish_write|]. intros r e' w' (-> & Hr & ->).
  eexists _, _, c. split_and!; [done|done|]. by eapply coherent_remetered.
Qed.

(** ** Writers *)

Lemma step_begin cid key value typ mp c m e w :
  coherent mp c m e w -> step_within (Begin cid key value typ) m e w ->
  wp (step coins (Begin cid key value typ) m) (steps_to mp m) e w.
Proof.
  intros Hco Hlim. cbn in Hlim. pose proof Hco as [Hs Hp]. cbn [step].
  destruct (m_clients m !! cid) as [x|] eqn:Ex; [by eapply wp_stay|].
  destruct key as [|b key]; apply wp_go.
  { wp_step. eexists _, _, c. by split_and!. }
  set (k := b :: key). do 2 wp_step. unfold write_begin. do 2 wp_step. rewrite (so_open _ _ _ _ Hs).
  rewrite u64_small by (unfold max_u64 in Hlim; lia). do 4 wp_step. set (e' := set_lastSeq (e_seq e + 1) e).
  eexists _, _, c. split_and!; [done|done|]. split.
  - eapply sound_same; [exact Hs|by apply inv_seq; [apply Hs|lia]|done|done|done|apply Hs|done|cbn; lia].
  - eapply (placed_client cid (Some _) m); [|apply set_client_moves|].
    + eapply placed_same; [exact Hp| |cbn; lia|done|done]. by split.
    + intros y k' s [= <-] [= <- <-]. split_and!; [done|cbn; lia| |].
      * apply (next_fresh c e w); [apply Hs|cbn; lia].
      * intros i z k' _ Hz Hw. destruct (pl_writers _ _ _ _ Hp i z k' _ Hz Hw) as (_ & ? & _). lia.
Qed.

Lemma step_log cid mp c m e w :
  coherent mp c m e w -> w_faults w = [] -> wp (step coins (Log cid) m) (steps_to mp m) e w.
Proof.
  intros Hco Hw. pose proof Hco as [Hs Hp]. cbn [step].
  destruct (m_clients m !! cid) as [[key value typ seq| | | |]|] eqn:Ex; try by eapply wp_stay.
  apply wp_go. do 2 wp_step. eapply wp_mono; [apply (wp_write_log _ c e w), Hs|].
  intros r e' w' (Hlogs & wl & Hpath & -> & Hi & [Hbad|(-> & Hbe & _)]).
  { destruct Hbad as [[_ ?]|[_ Hb]]; [done|]. by rewrite (so_wal _ _ _ _ Hs) in Hb. }
  wp_step. eexists _, _, c. split_and!; [done|done|]. split.
  - eapply sound_same; [exact Hs|exact Hi|done|done|done|exact Hbe|done|apply Hs].
  - eapply (placed_client cid (Some _) m); [|apply set_client_moves|].
    + eapply placed_same; [exact Hp| |cbn; lia|done|done]. split; try done. by apply (only_logs_known e w w').
    + intros y k' s [= <-] [= <- <-]. destruct (pl_writers _ _ _ _ Hp cid _ key seq Ex eq_refl) as (H1 & H2 & H3).
      split_and!; [done|done|done|]. intros i z k' Hi' Hz Hwz. apply Hi'. by eapply (pl_distinct _ _ _ _ Hp).
Qed.

(** The map that a version makes. *)
Lemma effect_of_mutation (key value : bytes) (typ : Wal.RecordType) (seq : N) (mp : gmap bytes bytes) :
  let r := mut_rec (mutation_of typ key value seq) in
  (if bool_decide (Typ r = TypeTombstone) then delete (Key r) mp else <[Key r := Versions.Value r]> mp) =
  effect (apply_effect key value typ) mp.
Proof. unfold apply_effect, mutation_of. cbv zeta. by destruct (bool_decide (typ = Wal.RecordPut)). Qed.

Lemma sound_applied mp c e w key value typ seq mt rs :
  let rec := mut_rec (mutation_of typ key value seq) in
  let c' := MkContents rs (c_imm c) (c_tables c) in let e' := set_mem (e_memId e) mt e in
  sound mp c e w -> (seq <= e_seq e)%N -> fresh_seq c seq -> rs <> [] -> inv c' e' w -> put_reads c rec c' ->
  (forall s, s ∈ rs <-> s = rec \/ s ∈ c_mem c /\ Key s <> Key rec) ->
  sound (effect (apply_effect key value typ) mp) c' e' w.
Proof.
  intros rec c' e' Hs Hle Hf Hne Hi Hput Hrs. assert (Seq rec = seq) as Sr by apply mut_rec_seq. split; try apply Hs; try done.
  - apply (layered_put c e' rec rs e); [apply Hs| |done|done]. unfold fresh_seq, fresh_for in *. by rewrite Sr.
  - intros k. rewrite <- (effect_of_mutation key value typ seq). apply (put_map c rec c' mp Hput); [|apply Hs].
    pose proof (so_seq _ _ _ _ Hs). rewrite Sr. unfold unboundedSeq. lia.
Qed.

Lemma step_apply cid mp c m e w :
  coherent mp c m e w -> wp (step coins (Apply cid) m) (steps_to mp m) e w.
Proof.
  intros Hco. pose proof Hco as [Hs Hp]. cbn [step].
  destruct (m_clients m !! cid) as [[|key value typ seq| | |]|] eqn:Ex; try by eapply wp_stay.
  destruct (pl_writers _ _ _ _ Hp cid _ key seq Ex eq_refl) as (Hk & Hle & Hf).
  assert (fresh_for c (mut_rec (mutation_of typ key value seq))) as Hf'.
  { unfold fresh_seq, fresh_for in *. by rewrite mut_rec_seq. }
  apply wp_go. wp_step. eapply wp_mono; [by apply (wp_write_apply c e w key value typ seq (so_inv _ _ _ _ Hs))|].
  intros r e' w' (-> & [full ->] & mt & rs & -> & _ & Hne & Hi & Hput & Hrs). cbv zeta.
  pose proof (sound_applied mp c e w key value typ seq mt rs Hs Hle Hf Hne Hi Hput Hrs) as Hs'.
  set (c' := MkContents rs (c_imm c) (c_tables c)) in *. set (e' := set_mem (e_memId e) mt e) in *.
  assert (placed (set_client cid None m) c' e' w) as Hp'.
  { eapply (placed_moves _ c e w).
    - eapply (placed_idle cid None m); [exact Hp|apply set_client_moves|done].
    - by split.
    - cbn. lia.
    - intros i x k s Hx Hw [Hb Hm]. split; [exact Hb|]. cbn in Hx. apply lookup_delete_Some in Hx as [Hi' Hx].
      apply Forall_forall. intros r [->|[Hr _]]%Hrs; [|rewrite Forall_forall in Hm; by apply Hm]. rewrite mut_rec_seq. cbn.
      intros ->. apply Hi'. by eapply (pl_distinct _ _ _ _ Hp).
    - exact (pl_queue _ _ _ _ Hp).
    - done.
    - done. }
  destruct full.
  - wp_step. eexists _, _, c'. split_and!; [done|done|]. split; [done|].
    eapply (placed_idle cid (Some (Filled typ)) (set_client cid None m)); [exact Hp'| |by intros y [= <-]].
    split_and!; [apply lookup_insert_eq| |done|done]. intros i Hi'. cbn. by rewrite lookup_insert_ne, lookup_delete_ne.
  - wp_step. eapply wp_mono; [apply wp_finish_write|]. intros r e2 w2 (-> & Hr & ->). wp_step.
    eexists _, _, c'. split_and!; [done|done|]. eapply coherent_remetered; [by split|done|done].
Qed.

(** ** Rotation *)

Lemma unlocked_moves m (c : contents) (c' : contents) :
  unlocked m = true -> forall cid x k s, m_clients m !! cid = Some x -> writing x = Some (k, s) -> fresh_seq c s -> fresh_seq c' s.
Proof. intros Hu cid x k s Hx Hw. by rewrite (unlocked_spec m cid x Hu Hx) in Hw. Qed.

Lemma mem_size_new rnd : MemTable.Size (MemTable.New rnd) = 0%Z.
Proof. done. Qed.

(** Without a failing system call a rotation happens, unless another came first. *)
Lemma rotate_happens mp c e w :
  sound mp c e w -> w_faults w = [] -> (e_genCounter e + 1 < max_u64)%N ->
  wp (rotate_swap coins) (fun r e' w' =>
    r = inl None /\ e' = e /\ w' = w \/
    r = inl (Some (job_of (retiring e))) /\ only_logs w w' /\ c_mem c <> [] /\
      e' = swapped (MemTable.New (coins (e_genCounter e + 1)%N)) (walFileName (e_dir e) (e_genCounter e + 1)) e /\
      inv (rotated c) e' w') e w.
Proof.
  intros Hs Hw Hg. destruct (decide (c_mem c = [])) as [Hn|Hn].
  - unfold rotate_swap. do 2 wp_step. rewrite (so_size _ _ _ _ Hs Hn).
    destruct (Z.ltb_spec 0 (o_flushThreshold (e_opts e))) as [|Hle]; [wp_step; by left|].
    pose proof (so_threshold _ _ _ _ Hs). lia.
  - eapply wp_mono; [by apply (wp_rotate_swap coins c e w (so_inv _ _ _ _ Hs))|].
    intros r e' w' [Ho [(-> & -> & ->)|[[[_ Hf] _]|(-> & -> & Hi & _)]]]; [by left|done|right]. done.
Qed.

Lemma step_rotate cid mp c m e w :
  coherent mp c m e w -> w_faults w = [] -> step_within (Rotate cid) m e w -> wp (step coins (Rotate cid) m) (steps_to mp m) e w.
Proof.
  intros Hco Hw Hg. cbn in Hg. pose proof Hco as [Hs Hp]. cbn [step].
  destruct (m_clients m !! cid) as [[| |typ| |]|] eqn:Ex; try by eapply wp_stay.
  destruct (unlocked m) eqn:Eu; [|by eapply wp_stay].
  apply wp_go. do 3 wp_step.
  assert (forall x, writing x = None -> coherent mp c (set_client cid (Some x) m) e w /\ coherent mp c (set_client cid None m) e w) as Hclient.
  { intros x Hx. split; (split; [done|]); eapply placed_idle; try exact Hp; try apply set_client_moves; by intros ? [= <-]. }
  eapply wp_mono; [by apply (rotate_happens mp c e w)|]. intros r e' w' [(-> & -> & ->)|(-> & Ho & Hn & -> & Hi)].
  - eapply wp_finish_ok. by apply (Hclient (Filled typ)).
  - wp_step. eexists _, _, (rotated c). split_and!; [done|done|]. split.
    + split; try apply Hs; try done.
      * eapply layered_rotated; [apply Hs|done].
      * intros key. rewrite view_rotated. apply Hs.
    + destruct (Hclient (Handing typ (job_of (retiring e))) eq_refl) as [[_ Hp1] _].
      eapply (placed_moves _ c e w); [exact Hp1| |cbn; lia| | | |done].
      * split; try done; [cbn; lia|]. by apply (only_logs_known e w w').
      * intros i x k s Hx Hwx. cbn in Hx. destruct (decide (i = cid)) as [->|Hi'].
        -- rewrite lookup_insert_eq in Hx. by injection Hx as <-.
        -- rewrite lookup_insert_ne in Hx by done. by rewrite (unlocked_spec m i x Eu Hx) in Hwx.
      * cbn. rewrite fmap_app. destruct (pl_queue _ _ _ _ Hp1) as [k Hk]. cbn in Hk. rewrite Hk, <- app_assoc. by apply prefix_app_r.
      * intros rs Hh. cbn. by destruct (c_imm c).
Qed.

Lemma sublist_of_prefix {A} (l1 l2 l3 : list A) : l1 ++ l2 `prefix_of` l3 -> l2 `sublist_of` l3.
Proof. intros [k ->]. rewrite <- app_assoc. by apply sublist_inserts_l, sublist_inserts_r. Qed.

Lemma step_handover cid mp c m e w :
  coherent mp c m e w -> step_within (HandOver cid) m e w -> wp (step coins (HandOver cid) m) (steps_to mp m) e w.
Proof.
  intros Hco Hlim. cbn in Hlim. pose proof Hco as [Hs Hp]. cbn [step].
  destruct (m_clients m !! cid) as [[| | |typ job|]|] eqn:Ex; try by eapply wp_stay.
  specialize (Hlim typ job eq_refl). unfold in_turn in Hlim. do 2 wp_step. destruct (_ <? _); [|by eapply wp_stay].
  apply wp_go. do 2 wp_step. eapply wp_finish_ok. split.
  - eapply sound_same; [exact Hs| |done|done|done|apply Hs|done|apply Hs]. destruct (so_inv _ _ _ _ Hs).
    split; try done; [by eapply tables_keep|]. cbn. by eapply sublist_of_prefix.
  - eapply (placed_moves _ c e w); [eapply (placed_idle cid None m); [exact Hp|apply set_client_moves|done]| |cbn; lia| |exact Hlim|done|done].
    + by split.
    + done.
Qed.

(** ** Readers *)

Lemma wp_recordGet err (Q : unit + error -> Engine -> world -> Prop) e w :
  (forall e', remetered e e' -> Q (inl tt) e' w) -> wp (recordGet err) Q e w.
Proof.
  intros H. unfold recordGet, observe_since, inc. destruct err as [err|]; wp_steps; [|by apply H; eapply remetered_set].
  destruct (errors_Is err ErrNotFound); wp_steps; by apply H; eapply remetered_set.
Qed.

(** A read that does not see past [m]. *)
Lemma wp_read c e w key m (k : E bytes) :
  inv c e w -> w_faults w = [] -> k = (let? r := etry (getAt key m) in recordGet (err_opt r);;? of_sum r) ->
  wp k (fun r e' w' => remetered e e' /\ w_files w' = w_files w /\ (key = [] -> r = inr ErrEmptyKey) /\
    (key <> [] -> e_closed e = false -> r = answer (newest key m (view c)))) e w.
Proof.
  intros Hi Hw ->. do 2 wp_step. eapply wp_mono; [by apply (wp_getAt c)|].
  intros r ? w1 (-> & Hw1 & H0 & _ & H1). wp_step. apply wp_recordGet. intros e' He'. wp_step.
  split_and!; [done|done|done|]. intros Hk Hc. by destruct (H1 Hk Hc) as [|[_ ?]].
Qed.

Lemma step_read cid key mp c m e w :
  coherent mp c m e w -> w_faults w = [] -> wp (step coins (Read cid key) m) (steps_to mp m) e w.
Proof.
  intros Hco Hw. pose proof Hco as [Hs Hp]. cbn [step]. destruct (m_clients m !! cid); [by eapply wp_stay|].
  apply wp_go. do 2 wp_step. eapply wp_mono; [by apply (wp_read c e w key unboundedSeq _ (so_inv _ _ _ _ Hs) Hw)|].
  intros r e' w' (Hr & Hw' & H0 & H1). wp_step. eexists _, _, c. split_and!; [done| |by eapply coherent_remetered].
  cbn. split; [|done]. destruct key as [|b key]; [by apply H0|]. rewrite (H1 ltac:(done) (so_open _ _ _ _ Hs)).
  by eapply sound_answer.
Qed.

Lemma step_read_at cid s key mp c m e w :
  coherent mp c m e w -> w_faults w = [] -> wp (step coins (ReadAt cid s key) m) (steps_to mp m) e w.
Proof.
  intros Hco Hw. pose proof Hco as [Hs Hp]. cbn [step]. destruct (m_clients m !! cid); [by eapply wp_stay|].
  apply wp_go. do 2 wp_step. eapply wp_mono; [by apply (wp_read c e w key (s_seq s) _ (so_inv _ _ _ _ Hs) Hw)|].
  intros r e' w' (Hr & Hw' & _). wp_step. eexists _, _, c. split_and!; [done|done|by eapply coherent_remetered].
Qed.

Lemma step_load cid mp c m e w : coherent mp c m e w -> wp (step coins (Load cid) m) (steps_to mp m) e w.
Proof.
  intros Hco. pose proof Hco as [Hs Hp]. cbn [step]. destruct (m_clients m !! cid); [by eapply wp_stay|].
  apply wp_go. unfold snapshot_load. do 4 wp_step. rewrite (so_open _ _ _ _ Hs). do 2 wp_step.
  eexists _, _, c. split_and!; [done|done|]. split; [done|].
  eapply (placed_idle cid (Some _) m); [exact Hp|apply set_client_moves|]. by intros y [= <-].
Qed.

Lemma step_register cid mp c m e w : coherent mp c m e w -> wp (step coins (Register cid) m) (steps_to mp m) e w.
Proof.
  intros Hco. pose proof Hco as [Hs Hp]. cbn [step].
  destruct (m_clients m !! cid) as [[| | | |seq]|]; try by eapply wp_stay.
  apply wp_go. unfold snapshot_register, inc, gauge_add. wp_steps. eexists _, _, c. split_and!; [done|by split; [eexists|]|]. split.
  - eapply sound_same; [exact Hs|eapply inv_irrelevant; [apply Hs|done..]|done|done|done|apply Hs|done|apply Hs].
  - eapply (placed_idle cid None m); [|apply set_client_moves|done].
    eapply placed_same; [exact Hp|by split|cbn; lia|done|done].
Qed.

(** ** The flush worker *)

Lemma step_take mp c m e w : coherent mp c m e w -> wp (step coins TakeJob m) (steps_to mp m) e w.
Proof.
  intros Hco. pose proof Hco as [Hs Hp]. cbn [step]. do 2 wp_step.
  destruct (m_flusher m) eqn:Ef; try by eapply wp_stay. destruct (e_flushCh e) as [|job rest] eqn:Eq; [by eapply wp_stay|].
  pose proof (pl_queue _ _ _ _ Hp) as Hq. rewrite Ef, Eq in Hq. cbn in Hq.
  apply wp_go. do 3 wp_step. eexists _, _, c. split_and!; [done|done|]. split.
  - eapply sound_same; [exact Hs| |done|done|done|apply Hs|done|apply Hs]. pose proof (inv_jobs _ _ _ (so_inv _ _ _ _ Hs)) as Hj.
    rewrite Eq in Hj. destruct (so_inv _ _ _ _ Hs). split; try done; [by eapply tables_keep|]. cbn. etrans; [by apply sublist_cons|exact Hj].
  - split; [apply Hp|apply Hp|exact Hq|done|]. eapply compactor_undisturbed; [apply Hp|by split|done].
Qed.

(** The oldest immutable MemTable is the worker's. *)
Lemma in_hand_oldest m c e w job :
  inv c e w -> placed m c e w -> in_hand (m_flusher m) = [job] ->
  exists ie imm2 rs ls2, e_imm e = ie :: imm2 /\ job = job_of ie /\ e_flushCh e `prefix_of` job_of <$> imm2 /\
    c_imm c = rs :: ls2 /\ mem_holds (im_mt ie) rs /\ rs <> [].
Proof.
  intros Hi Hp Hf. pose proof (pl_queue _ _ _ _ Hp) as Hq. rewrite Hf in Hq. destruct (e_imm e) as [|ie imm2] eqn:Ei.
  { by apply prefix_nil_inv in Hq. }
  cbn in Hq. pose proof (prefix_cons_inv_1 _ _ _ _ Hq) as ->. apply prefix_cons_inv_2 in Hq.
  pose proof (inv_imm _ _ _ Hi) as HI. rewrite Ei in HI. apply Forall2_cons_inv_l in HI as (rs & ls2 & [Hm Hne] & _ & Ec).
  by exists ie, imm2, rs, ls2.
Qed.

Lemma next_undisturbed c e w lvl w' :
  inv c e w -> (0 <= lvl < 2 ^ 63)%Z -> (e_genCounter e < max_u64)%N ->
  (forall q, q <> next_path lvl e -> q <> tmp_of (next_path lvl e) -> w_files w' !! q = w_files w !! q) ->
  undisturbed e w (set_gen (e_genCounter e + 1) e) w'.
Proof.
  intros Hi Hl Hg Hw. split; try done; [cbn; lia|]. intros p Hk. by apply Hw; apply (known_fresh e lvl).
Qed.

Lemma sound_next mp c e w w' :
  sound mp c e w -> undisturbed e w (set_gen (e_genCounter e + 1) e) w' -> sound mp c (set_gen (e_genCounter e + 1) e) w'.
Proof.
  intros Hs Hu. eapply sound_same; [exact Hs| |done|done|done|apply Hs|done|apply Hs].
  apply inv_gen; [|lia]. eapply inv_world; [apply Hs|]. apply (un_files _ _ _ _ Hu).
Qed.

Lemma step_write_table mp c m e w :
  coherent mp c m e w -> w_faults w = [] -> step_within WriteTable m e w -> wp (step coins WriteTable m) (steps_to mp m) e w.
Proof.
  intros Hco Hw (Hg & Hfit). pose proof Hco as [Hs Hp]. pose proof (so_inv _ _ _ _ Hs) as Hi. cbn [step].
  destruct (m_flusher m) as [|job|] eqn:Ef; try by eapply wp_stay.
  destruct (in_hand_oldest m c e w job Hi Hp ltac:(by rewrite Ef)) as (ie & imm2 & rs & ls2 & Ei & -> & Hq & Ec & Hm & Hne).
  pose proof (flush_fits_imm c e w Hi Hfit) as Hfl. rewrite Ec in Hfl. apply Forall_cons in Hfl as [(f & Hf & Hfits) _].
  apply wp_go. wp_step. eapply wp_mono; [by apply (wp_flush_write (job_of ie) rs f)|].
  intros r ? w' (-> & _ & Hframe & [[_ ?]|[-> Hfile]]); [done|]. wp_step.
  pose proof (next_undisturbed c e w 0 w' Hi ltac:(lia) Hg Hframe) as Hu.
  eexists _, _, c. split_and!; [done|done|]. split; [by eapply sound_next|].
  assert (placed m c (set_gen (e_genCounter e + 1) e) w') as Hp' by (eapply placed_same; [exact Hp|done|cbn; lia|done|done]).
  split; [apply Hp'|apply Hp'| | |apply Hp'].
  - pose proof (pl_queue _ _ _ _ Hp') as Hq'. by rewrite Ef in Hq'.
  - exists (next_path 0 e), rs, f. rewrite Ec. split_and!; [done|done|]. by eapply claimed_next.
Qed.

Lemma tables_flushed c e imm2 rs ls2 t b w :
  inv c e w ->
  tables_of (flushed c [] ls2 rs) (set_compactCh b (set_imm imm2 (attach 0 t e))) =
  tables_of c e ++ [(MkLT 0 (e_nextTable e), rs)].
Proof. intros Hi. unfold tables_of. cbn. rewrite zip_with_app; [done|]. by eapply inv_length. Qed.

(** A table flushed since the inputs were chosen is newer than they are. *)
Lemma plan_flushed l ps plan bottom c e c' e' lt rs :
  plan_ok l ps plan bottom c e -> tables_of c' e' = tables_of c e ++ [(lt, rs)] -> e_opts e' = e_opts e ->
  lt_level lt = 0%Z -> (lt_table lt ∉ tids ps) -> (forall p, p ∈ tables_of c e -> older p.2 rs) -> plan_ok l ps plan bottom c' e'.
Proof.
  intros (H1 & H2 & H3 & H4 & [] & H6) Et Eo Hl Hn Hold.
  assert (forall q, q ∈ others ps c' e' <-> q ∈ others ps c e \/ q = (lt, rs)) as Hoth.
  { intros q. rewrite !elem_of_others, Et, elem_of_app, list_elem_of_singleton. naive_solver. }
  unfold plan_ok. rewrite Eo. split_and!; [done..| |].
  - split; [|done|done|].
    + intros p Hp. rewrite Et. apply elem_of_app. left. by apply sel_sub.
    + intros p q Hp [Hq| ->]%Hoth Hlq; [by apply sel_newer|]. by apply Hold, sel_sub.
  - intros Hb q [Hq| ->]%Hoth; [by apply H6|]. cbn. lia.
Qed.

Lemma layered_tables_imm c e w p rs :
  inv c e w -> layered c e -> p ∈ tables_of c e -> rs ∈ c_imm c -> older p.2 rs.
Proof.
  intros Hi HL Hp Hrs. pose proof (lay_tables _ _ HL _ (tables_of_content _ _ _ Hp)) as Ht.
  rewrite Forall_forall in Ht. apply Ht. by right.
Qed.

(** What the flush worker commits does not get in the way of a pass. *)
Lemma compactor_flushed p c e w ie imm2 rs ls2 path flt b w' :
  inv c e w -> layered c e -> compactor_ok p c e w -> c_imm c = rs :: ls2 -> claimed 0 path rs flt e w -> wal_path (im_walPath ie) ->
  (forall q, q <> im_walPath ie -> w_files w' !! q = w_files w !! q) ->
  compactor_ok p (flushed c [] ls2 rs)
    (set_compactCh b (set_imm imm2 (attach 0 (table_of path (o_compress (e_opts e)) rs flt) e))) w'.
Proof.
  intros Hi HL Hp Ec Hcl Hwp Hw. set (t := table_of path (o_compress (e_opts e)) rs flt).
  pose proof (tables_flushed c e imm2 rs ls2 t b w Hi) as Et.
  set (c' := flushed c [] ls2 rs) in *. set (e' := set_compactCh b (set_imm imm2 (attach 0 t e))) in *.
  assert (forall l ps plan bottom, plan_ok l ps plan bottom c e -> plan_ok l ps plan bottom c' e') as Hplan.
  { intros l ps plan bottom Hpl. eapply plan_flushed; [exact Hpl|exact Et|done|done| |].
    - destruct Hpl as (_ & _ & _ & _ & Hsel & _). cbn. intros Hin.
      destruct (elem_of_selected l ps c e w _ Hi Hsel Hin) as (lt & _ & E & Hlt). lia.
    - intros q Hq. eapply layered_tables_imm; [done|done|done|]. rewrite Ec. by left. }
  assert (forall lvl path' out f, (1 <= lvl)%Z -> claimed lvl path' out f e w -> claimed lvl path' out f e' w') as Hclaim.
  { intros lvl path' out f Hlvl Hc. eapply claimed_keep; [exact Hc|done|done|cbn; lia| |].
    - intros (lt & Ep & [Hlt|Hlt]%elem_of_app)%list_elem_of_fmap.
      + apply (cl_new _ _ _ _ _ _ Hc). rewrite Ep. unfold e'. unfold table_path. cbn.
        rewrite lookup_insert_ne; [by apply (list_elem_of_fmap_2 (table_path e))|].
        pose proof (inv_fresh_tid c e w (lt_table lt) Hi (list_elem_of_fmap_2 _ _ _ Hlt)). lia.
      + apply list_elem_of_singleton in Hlt as ->. unfold table_path in Ep. cbn in Ep. rewrite lookup_insert_eq in Ep.
        injection Ep as ->. destruct (cl_path _ _ _ _ _ _ Hc) as (g & Hg & _), (cl_path _ _ _ _ _ _ Hcl) as (g' & Hg' & _).
        pose proof (sst_path_level _ _ _ _ _ _ Hg Hg'). lia.
    - apply Hw. intros ->. destruct (cl_path _ _ _ _ _ _ Hc) as (g & Hg & _). by apply (sst_path_wal _ _ _ _ Hg). }
  destruct p as [|plan bottom|plan path' mr]; [done| |].
  - destruct Hp as (l & ps & H1 & H2). exists l, ps. split; [by apply Hplan|done].
  - destruct Hp as (l & ps & mk & bottom & H1 & H2 & H3 & H4). exists l, ps, mk, bottom. split_and!; [by apply Hplan|done| |done].
    destruct mr as [[]|err]; [|exact H3]. destruct H3 as (H31 & H32 & f & H33). split_and!; [done|done|]. exists f.
    apply Hclaim; [|done]. destruct H1 as (? & _). lia.
Qed.

Lemma step_commit_table mp c m e w :
  coherent mp c m e w -> wp (step coins CommitTable m) (steps_to mp m) e w.
Proof.
  intros Hco. pose proof Hco as [Hs Hp]. pose proof (so_inv _ _ _ _ Hs) as Hi. cbn [step].
  destruct (m_flusher m) as [| |job t] eqn:Ef; try by eapply wp_stay.
  destruct (unlocked m) eqn:Eu; [|by eapply wp_stay].
  destruct (in_hand_oldest m c e w job Hi Hp ltac:(by rewrite Ef)) as (ie & imm2 & rs & ls2 & Ei & -> & Hq & Ec & Hm & Hne).
  pose proof (pl_flusher _ _ _ _ Hp) as Hf. rewrite Ef in Hf. destruct Hf as (path & rs' & flt & Hrs & -> & Hcl).
  rewrite Ec in Hrs. injection Hrs as <-.
  apply wp_go. wp_step. eapply wp_mono.
  { apply (wp_flush_commit c e w [] ie imm2 [] rs ls2 path flt Hi Ei Ec eq_refl); [|exact Hcl].
    by apply (sublist_of_prefix []). }
  intros r ? w' (-> & (b & ->) & Hi' & Hfiles & _). cbn [app] in Hi' |- *.
  set (e' := set_compactCh b (set_imm imm2 (attach 0 (table_of path (o_compress (e_opts e)) rs flt) e))) in *.
  assert (wal_path (im_walPath ie)) as Hwal.
  { pose proof (inv_wals _ _ _ Hi) as Hw. rewrite Ei in Hw. by apply Forall_cons in Hw as [_ [? _]%Forall_cons]. }
  assert (coherent mp (flushed c [] ls2 rs) (set_flusher NoFlush m) e' w') as Hco'.
  { split; split; try apply Hs; try done.
    - eapply (layered_flushed c e e' ls2 rs (e_nextTable e)); [apply Hs|done|by eapply inv_length| |done].
      apply Forall_forall. intros lt Hlt. apply list_elem_of_lookup in Hlt as [i Hlt].
      destruct (Forall2_lookup_l _ _ _ _ _ (inv_tables _ _ _ Hi) Hlt) as (rs0 & _ & Hok). pose proof (tok_level _ _ _ _ Hok). lia.
    - unfold levels_ok. cbn. apply Forall_app. split; [apply Hs|]. repeat constructor. cbn. destruct (so_config _ _ _ _ Hs). lia.
    - intros key. rewrite <- (so_map _ _ _ _ Hs). erewrite view_perm_reads; [done|exact Hi|by apply view_flushed].
    - intros cid x k s Hx Hw. by rewrite (unlocked_spec m cid x Eu Hx) in Hw.
    - intros i j x y k k' s Hx Hy Hw. by rewrite (unlocked_spec m i x Eu Hx) in Hw.
    - eapply (compactor_flushed _ c e w ie); [done|apply Hs|apply Hp|done..]. }
  unfold inc, observe_since. wp_steps.
  eexists _, _, _. split_and!; [done|done|]. eapply coherent_remetered; [exact Hco'| |done]. by eexists _, _.
Qed.

(** ** The compaction worker *)

Lemma step_plan mp c m e w : coherent mp c m e w -> wp (step coins Plan m) (steps_to mp m) e w.
Proof.
  intros Hco. pose proof Hco as [Hs Hp]. pose proof (so_inv _ _ _ _ Hs) as Hi. cbn [step]. do 2 wp_step.
  destruct (m_compactor m) eqn:Em; try by eapply wp_stay. destruct (e_compactCh e); [|by eapply wp_stay].
  apply wp_go. do 3 wp_step. set (e' := set_compactCh false e).
  assert (sound mp c e' w) as Hs'.
  { eapply sound_same; [exact Hs|eapply inv_irrelevant; [exact Hi|done..]|done|done|done|apply Hs|done|apply Hs]. }
  assert (placed m c e' w) as Hp' by (eapply placed_same; [exact Hp|by split|cbn; lia|done|done]).
  destruct (pickCompactionLocked e) as [plan|] eqn:Ep; eexists _, _, c; (split_and!; [done|done|]); (split; [exact Hs'|]); [|exact Hp'].
  split; [apply Hp'|apply Hp'|apply Hp'|apply Hp'|].
  destruct (so_config _ _ _ _ Hs) as [Hc1 Hc2]. destruct (pick_spec e plan Ep Hc1 ltac:(lia)) as (l & Hl0 & Hlm & Ht & Hin & Hne).
  rewrite (input_tids l c e w Hi) in Hin. exists l, (inputs_of l c e). split.
  - split_and!; [done|done|done|done| |].
    + eapply selection_same; [by eapply selection_inputs; [|apply Hs]|done].
    + rewrite Ht. intros Hb. by apply (bottom_inputs l c e w Hi (so_levels _ _ _ _ Hs)).
  - intros E. apply Hne. pose proof (input_tids l c e w Hi) as E2. rewrite E in E2. by apply app_nil in E2 as [-> _].
Qed.

Lemma step_merge mp c m e w :
  coherent mp c m e w -> w_faults w = [] -> step_within MergePlan m e w -> wp (step coins MergePlan m) (steps_to mp m) e w.
Proof.
  intros Hco Hw (Hg & Hfit). pose proof Hco as [Hs Hp]. pose proof (so_inv _ _ _ _ Hs) as Hi. cbn [step].
  destruct (m_compactor m) as [|plan bottom|] eqn:Em; try by eapply wp_stay. specialize (Hfit plan bottom eq_refl).
  pose proof (pl_compactor _ _ _ _ Hp) as Hc. rewrite Em in Hc. destruct Hc as (l & ps & (H1 & H2 & H3 & H4 & H5 & H6) & Hne).
  destruct (so_config _ _ _ _ Hs) as [Hc1 Hc2].
  apply wp_go. wp_step. eapply wp_mono.
  { apply (wp_compact_merge l ps c e w plan bottom Hi H5 (Hfit c ps Hi (sel_sub _ _ _ _ H5) H4)); try done. lia. }
  intros r ? w' (-> & Hframe & mr & -> & Hmr & _ & Hfl). destruct (Hfl Hw) as [_ Hok]. wp_step.
  pose proof (next_undisturbed c e w (l + 1) w' Hi ltac:(lia) Hg Hframe) as Hu.
  eexists _, _, c. split_and!; [done|done|]. split; [by eapply sound_next|].
  assert (placed m c (set_gen (e_genCounter e + 1) e) w') as Hp' by (eapply placed_same; [exact Hp|done|cbn; lia|done|done]).
  split; [apply Hp'|apply Hp'|apply Hp'|apply Hp'|].
  exists l, ps, (minActiveSnapshotSeq e), bottom. split_and!; [|exact (proj1 (minActive_spec (e_activeSnapshots e)))|exact Hmr|exact Hok].
  by apply (plan_same l ps plan bottom c e).
Qed.

(** What a pass commits does not get in the way of the flush worker. *)
Lemma flusher_committed f l ps t c e w c' e' w' :
  inv c e w -> (0 <= l)%Z -> selection l ps c e -> flusher_ok f c e w -> c_imm c' = c_imm c -> steady e e' ->
  committed l ps t c e w e' w' -> (forall t0, t = Some t0 -> exists g, sst_path (e_dir e) (l + 1) g (t_path t0)) ->
  flusher_ok f c' e' w'.
Proof.
  intros Hi Hl Hsel Hf Hc Hst Hcom Ht. destruct f as [|job|job ft]; [done..|]. destruct Hf as (path & rs & flt & H1 & H2 & H3).
  destruct Hst as (E1 & _ & _ & E4 & _). exists path, rs, flt. rewrite Hc, E4. split_and!; [done|done|].
  eapply claimed_keep; [exact H3|done|done| | |].
  - destruct Hcom as (b & s & w2 & -> & _). by destruct t.
  - intros Hin. destruct (committed_paths l ps t c e w e' w' path Hi Hcom Hin) as [H|(t0 & E & ->)].
    + by apply (cl_new _ _ _ _ _ _ H3).
    + destruct (Ht t0 E) as (g & Hg), (cl_path _ _ _ _ _ _ H3) as (g' & Hg' & _).
      pose proof (sst_path_level _ _ _ _ _ _ Hg Hg'). lia.
  - eapply committed_files; [done|done|exact Hcom|]. apply (cl_new _ _ _ _ _ _ H3).
Qed.

Lemma step_commit_plan mp c m e w :
  coherent mp c m e w -> w_faults w = [] -> wp (step coins CommitPlan m) (steps_to mp m) e w.
Proof.
  intros Hco Hw. pose proof Hco as [Hs Hp]. pose proof (so_inv _ _ _ _ Hs) as Hi. cbn [step].
  destruct (m_compactor m) as [| |plan path mr] eqn:Em; try by eapply wp_stay.
  destruct (unlocked m) eqn:Eu; [|by eapply wp_stay].
  pose proof (pl_compactor _ _ _ _ Hp) as Hc. rewrite Em in Hc.
  destruct Hc as (l & ps & mk & bottom & (H1 & H2 & H3 & H4 & H5 & H6) & Hmk & Hmr & Hok).
  destruct (so_config _ _ _ _ Hs) as [Hc1 Hc2].
  apply wp_go. do 2 wp_step. eapply wp_mono.
  { apply (wp_compact_commit l ps c e w plan path mk bottom mr Hi (so_layered _ _ _ _ Hs) (so_levels _ _ _ _ Hs) H5 H6 H1 H2 ltac:(lia) H3 H4 Hmr). }
  intros r e' w' (Hst & Hq & Him & [(-> & (c' & Hi' & Hl & HL & Hlv & Hcm & Hci & _) & t & Ht & _ & Hcom)|[_ [?|?]]]); [|done|done].
  assert (coherent mp c' (set_compactor NoPass m) e' w') as Hco'.
  { pose proof Hst as (E1 & E2 & E3 & E4 & E5 & E6 & E7 & E8 & E9). split; split; rewrite ?E2, ?E3, ?E4, ?E7, ?E8; try apply Hs; try done.
    - rewrite Hcm. apply Hs.
    - intros key. rewrite Hl by done. apply Hs.
    - intros cid x k s Hx Hwr. by rewrite (unlocked_spec m cid x Eu Hx) in Hwr.
    - intros i j x y k k' s Hx Hy Hwr. by rewrite (unlocked_spec m i x Eu Hx) in Hwr.
    - rewrite Hq, Him. apply Hp.
    - eapply flusher_committed; [exact Hi|exact H1|exact H5|apply Hp|done|done|exact Hcom|].
      intros t0 ->. destruct Ht as [|(-> & t1 & [= <-] & -> & _)]; [done|]. destruct Hmr as (_ & _ & f & Hcl).
      destruct (cl_path _ _ _ _ _ _ Hcl) as (g & Hg & _). by exists g. }
  unfold inc, observe_since. wp_steps.
  eexists _, _, _. split_and!; [done|done|]. eapply coherent_remetered; [exact Hco'| |done]. by eexists _, _.
Qed.

(** ** Schedules *)

Lemma coherent_step l mp c m e w :
  coherent mp c m e w -> w_faults w = [] -> step_within l m e w -> wp (step coins l m) (steps_to mp m) e w.
Proof.
  intros Hco Hw Hl. destruct l.
  - by eapply step_begin.
  - by eapply step_log.
  - by eapply step_apply.
  - by eapply step_rotate.
  - by eapply step_handover.
  - by eapply step_read.
  - by eapply step_load.
  - by eapply step_register.
  - by eapply step_read_at.
  - by eapply step_take.
  - by eapply step_write_table.
  - by eapply step_commit_table.
  - by eapply step_plan.
  - by eapply step_merge.
  - by eapply step_commit_plan.
Qed.

(** No system call is left to fail after a step. *)
Lemma calm_step l m : match l with Register _ => True | _ => calm (step coins l m) end.
Proof.
  destruct l; try done.
  all: unfold step, finish_write, write_begin, write_log, write_apply, rotate_swap, snapshot_load, flush_write, flush_commit,
         compact_merge, compact_commit; cbv zeta; quietly.
  all: first [apply calm_maybeTrigger|apply calm_table_call; intros; unfold Retire; apply anywhere_Release].
Qed.

Lemma step_quiet l m e w e' r w' : step coins l m e w = (Ok (e', r), w') -> w_faults w = [] -> w_faults w' = [].
Proof.
  intros E Hw. pose proof (calm_step l m) as Hc. destruct l; try by apply (Hc _ _ _ _ _ E).
  unfold step in E. destruct (m_clients m !! cid) as [[]|]; injection E as _ _ <-; done.
Qed.

Lemma coherent_runs ls mp c m e w :
  coherent mp c m e w -> w_faults w = [] -> runs_within coins ls m e w ->
  exists e' w' m' ns c', runs coins ls m e w = (Ok (e', inl (m', ns)), w') /\ legal ns mp /\
    coherent (effects ns mp) c' m' e' w' /\ w_faults w' = [].
Proof.
  revert mp c m e w. induction ls as [|l ls IH]; intros mp c m e w Hco Hw; [by intros _; exists e, w, m, [], c|].
  intros [Hl Hls]. destruct (wp_run _ _ _ _ (coherent_step l mp c m e w Hco Hw Hl)) as (r & e1 & w1 & E & Hst).
  pose proof (step_quiet _ _ _ _ _ _ _ E Hw) as Hw1. rewrite E in Hls. cbn [runs]. unfold ebind, bind. rewrite E.
  destruct r as [[[m1 ns]|]|err]; [| |done].
  - destruct Hst as (? & ? & c1 & [= <- <-] & Hleg & Hco1).
    destruct (IH _ _ _ _ _ Hco1 Hw1 Hls) as (e2 & w2 & m2 & ns2 & c2 & -> & Hleg2 & Hco2 & Hw2).
    exists e2, w2, m2, (ns ++ ns2), c2. rewrite legal_app, effects_app. by split_and!.
  - destruct Hst as [c1 Hco1]. destruct (IH _ _ _ _ _ Hco1 Hw1 Hls) as (e2 & w2 & m2 & ns2 & c2 & -> & H). by exists e2, w2, m2, ns2, c2.
Qed.

(** A store at rest. *)
Lemma models_coherent sp c e w :
  models sp c e w -> (0 < o_flushThreshold (e_opts e))%Z -> (c_mem c = [] -> MemTable.Size (e_mem e) = 0%Z) ->
  coherent (sp_map sp) c idle e w.
Proof.
  intros Hmd Ht Hm. split; split; try apply Hmd; try done.
  cbn. by rewrite (md_order _ _ _ _ Hmd).
Qed.

(** C4: interleaved calls.  From a store in order, take any schedule of the
    critical sections of any number of writers, readers and snapshots and of the
    flush and compaction workers, in which no system call fails, the limits are not
    exceeded and MemTables are handed to the flush worker in the order of their
    rotations.  It goes through without a panic, and what its calls observe is
    legal for one map: every read gives what the writes applied so far left, a write
    is applied at one moment between its beginning and its end, every write that
    ends returns nil, and background work in any of its stages changes nothing. *)
Theorem interleaving_linearizable ls mp c m e w :
  coherent mp c m e w -> w_faults w = [] -> runs_within coins ls m e w ->
  exists e' w' m' ns, runs coins ls m e w = (Ok (e', inl (m', ns)), w') /\ legal ns mp /\
    exists c', coherent (effects ns mp) c' m' e' w'.
Proof.
  intros Hco Hw Hls. destruct (coherent_runs ls mp c m e w Hco Hw Hls) as (e' & w' & m' & ns & c' & H1 & H2 & H3 & _).
  eauto 10.
Qed.
End steps.
