(* ===== verification/ReadersInv.v ===== *)
(** * The invariant of overlapping reads

    [overlapping W c o e w]: the machine under the readers is in order
    ([coherent]); the reference count of every table is the number of those who
    use it, the table list and the readers, and a table is closed exactly when
    there are none ([balanced]); no two tables, written or being written, share a
    file ([apart]); and every read or scan in progress will answer from one of the
    maps there have been since it began ([reader_ok]). *)

From S2P Require Import Prelude OrdMap GoIO IOLogic MemTable Versions SSTable Table Merge Metrics FileNames EngineState EngineLogic EngineInv Engine EngineRead EngineFlush EngineLogs EngineWrite EngineCompact Store Scan ScanRead EngineFrame Interleave Linear InterleaveInv Readers.
From S2P Require Wal SkipList Bloom.
From stdpp Require Import base gmap sets list strings numbers fin_maps sorting.
Open Scope nat_scope.

(** ** References *)

Definition held_of (x : reader) : list nat :=
  match x with
  | Looking _ held _ _ _ _ | Leaving _ held _ | Opening _ _ held _ _ _ _ | Closing held _ => held
  | Scanning it => sc_tables it
  end.

(** The tables that readers hold, once for every reference. *)
Definition holders (rs : gmap nat reader) : list nat := concat (held_of <$> (map_to_list rs).*2).

Lemma holders_delete rid x rs : rs !! rid = Some x -> holders rs ≡ₚ held_of x ++ holders (delete rid rs).
Proof. intros H. unfold holders. by rewrite <- (map_to_list_delete rs rid x H). Qed.

Lemma holders_insert rid y rs : holders (<[rid := y]> rs) ≡ₚ held_of y ++ holders (delete rid rs).
Proof.
  unfold holders. rewrite <- insert_delete_eq. by rewrite (map_to_list_insert (delete rid rs) rid y) by apply lookup_delete_eq.
Qed.

Lemma holders_elem rid x rs tid : rs !! rid = Some x -> tid ∈ held_of x -> tid ∈ holders rs.
Proof. intros H Hin. rewrite (holders_delete rid x rs H), elem_of_app. by left. Qed.

#[export] Instance count_perm tid : Proper ((≡ₚ) ==> eq) (count tid).
Proof. intros l1 l2 H. unfold count. by rewrite H. Qed.

Lemma count_elem tid l : tid ∈ l <-> 0 < count tid l.
Proof.
  induction l as [|i l IH]; [by split; [intros ?%not_elem_of_nil|cbn; lia]|].
  change (i :: l) with ([i] ++ l). rewrite count_app, count_one, elem_of_app, list_elem_of_singleton, IH.
  destruct (decide (i = tid)); [subst; split; [lia|by left]|]. split; [by intros [->|?]; [|lia]|right; lia].
Qed.

Lemma count_nodup tid l : NoDup l -> count tid l = if decide (tid ∈ l) then 1 else 0.
Proof.
  induction 1 as [|i l Hi Hl IH]; [done|]. change (i :: l) with ([i] ++ l). rewrite count_app, count_one, IH.
  destruct (decide (i = tid)) as [->|Hne].
  - rewrite (decide_False (P := tid ∈ l)) by done. by rewrite decide_True by (by left).
  - destruct (decide (tid ∈ l)); [rewrite decide_True by (by right)|rewrite decide_False]; [done|done|].
    by intros [->|?]%elem_of_cons.
Qed.

Definition listed (e : Engine) (tid : nat) : nat := count tid (allTablesLocked e).
#[global] Arguments listed : simpl never.

Record balanced (H : list nat) (e : Engine) : Prop := {
  bl_count : forall tid t, e_store e !! tid = Some t ->
    t_refCount t = Z.of_nat (listed e tid + count tid H) /\
    t_released t = bool_decide (listed e tid + count tid H = 0) /\
    t_removeOnZero t = bool_decide (listed e tid = 0);
  bl_held : forall tid, tid ∈ H -> is_Some (e_store e !! tid) }.

Lemma balanced_perm H1 H2 e : H1 ≡ₚ H2 -> balanced H1 e -> balanced H2 e.
Proof.
  intros E [Hc Hh]. split; [|intros tid; rewrite <- E; apply Hh].
  intros tid t Et. rewrite <- (count_perm tid _ _ E). by apply Hc.
Qed.

(** The tables a reader may use are open. *)
Lemma balanced_open H e tid : balanced H e -> tid ∈ H -> open_table (e_store e) tid.
Proof.
  intros Hb Hin. destruct (bl_held _ _ Hb tid Hin) as [t Et]. exists t. destruct (bl_count _ _ Hb tid t Et) as (Hc & Hr & _).
  apply count_elem in Hin. split_and!; [done| |lia]. rewrite Hr. apply bool_decide_eq_false. lia.
Qed.

(** ** Table objects *)

(** The same table, at another moment of its life. *)
Definition same_data (t t' : Table) : Prop := exists n rm rel, t' = set_life t n rm rel.

Definition lives (s s' : gmap nat Table) : Prop := forall tid, option_Forall2 same_data (s !! tid) (s' !! tid).

Lemma same_data_refl t : same_data t t.
Proof. exists (t_refCount t), (t_removeOnZero t), (t_released t). by destruct t. Qed.

Lemma lives_refl s : lives s s.
Proof. intros tid. destruct (s !! tid); constructor. apply same_data_refl. Qed.

Lemma lives_path s s' tid : lives s s' -> t_path <$> s' !! tid = t_path <$> s !! tid.
Proof. intros H. destruct (H tid) as [t t' (n & rm & rel & ->)|]; done. Qed.

Lemma lives_insert s tid t t' : s !! tid = Some t -> same_data t t' -> lives s (<[tid := t']> s).
Proof.
  intros E H i. destruct (decide (tid = i)) as [<-|]; [rewrite E, lookup_insert_eq; by constructor|].
  rewrite lookup_insert_ne by done. apply lives_refl.
Qed.

Lemma lives_pinned s l s' : pinned s l s' -> lives s s'.
Proof. intros H tid. rewrite (H tid). destruct (s !! tid); constructor. by eexists _, _, _. Qed.

Section inv.
Context `{FM : Bloom.FloatMath} `{FL : Flate} `{HFL : !FlateLaws FL}.

Lemma holds_same t t' rs : same_data t t' -> holds t rs -> holds t' rs.
Proof. by intros (n & rm & rel & ->) []. Qed.

Lemma readable_lives e e' tid rs :
  readable e tid rs -> option_Forall2 same_data (e_store e !! tid) (e_store e' !! tid) -> readable e' tid rs.
Proof.
  intros (t & Et & Hh & Hk) H. rewrite Et in H. inversion H as [? t' Hs E1 E2|]. subst. exists t'.
  split_and!; [done|by eapply holds_same|done].
Qed.

(** What is stored does not depend on who holds the tables. *)
Lemma inv_lives c e w s w' :
  inv c e w -> lives (e_store e) s ->
  (forall tid t, tid ∈ allTablesLocked e -> s !! tid = Some t -> t_released t = false /\ (1 <= t_refCount t)%Z /\ t_removeOnZero t = false) ->
  (forall p, Some p ∈ table_path e <$> e_tables e -> w_files w' !! p = w_files w !! p) -> inv c (with_store s e) w'.
Proof.
  intros [] Hs Hopen Hw. split; try done.
  - apply Forall2_same_length_lookup. split; [by eapply Forall2_length|]. intros i lt rs Hlt Hrs.
    destruct (Forall2_lookup_lr _ _ _ _ _ _ inv_tables Hlt Hrs) as [Hl Hne Hk (t & g & Et & Hh & Hd & Hrel & Href & Hp & Hg & Hrm)].
    apply list_elem_of_lookup_2 in Hlt. split; [done..|]. pose proof (Hs (lt_table lt)) as Ht. rewrite Et in Ht.
    inversion Ht as [? t' Hsd E1 E2|]. subst. symmetry in E2.
    destruct (Hopen (lt_table lt) t' (list_elem_of_fmap_2 _ _ _ Hlt) E2) as (H1 & H2 & H3).
    exists t', g. pose proof Hsd as (n & rm & rel & Et').
    assert (t_path t' = t_path t /\ t_dataBlockSz t' = t_dataBlockSz t) as [Ep Ed] by by rewrite Et'.
    rewrite Ep. split_and!; [done|by eapply holds_same| |done|done|exact Hp|done|done].
    destruct Hd as (Hso & compress & f & k & Hf & Hd). split; [done|]. exists compress, f, k. rewrite Ep, Ed. split; [|done].
    rewrite Hw; [done|]. apply list_elem_of_fmap. exists lt. split; [|done]. unfold table_path. by rewrite Et.
  - cbn. rewrite (list_fmap_ext _ (table_path e)); [done|]. intros i lt _. by apply lives_path.
  - intros tid Hle. cbn in *. pose proof (Hs tid) as H. rewrite inv_store in H by done. by inversion H.
Qed.

(** ** The paths of tables *)

(** The tables that the workers have written and not put in place yet. *)
Definition pending (m : machine) : list string :=
  (match m_flusher m with Flushed _ (Some t) => [t_path t] | _ => [] end) ++
  (match m_compactor m with Merged _ path (inl _) => [path] | _ => [] end).

Record apart (m : machine) (e : Engine) : Prop := {
  ap_known : forall tid t, e_store e !! tid = Some t -> known e (t_path t) /\ t_path t ∉ pending m;
  ap_distinct : forall i j t u, e_store e !! i = Some t -> e_store e !! j = Some u -> t_path t = t_path u -> i = j }.

Lemma apart_lives m e s : apart m e -> lives (e_store e) s -> apart m (with_store s e).
Proof.
  intros [Hk Hd] Hs.
  assert (forall tid t', s !! tid = Some t' -> exists t, e_store e !! tid = Some t /\ t_path t' = t_path t) as Hb.
  { intros tid t' E. pose proof (lives_path _ _ tid Hs) as Hp. rewrite E in Hp. destruct (e_store e !! tid) as [t|]; [|done].
    injection Hp as Hp. by exists t. }
  split.
  - intros tid t' (t & Et & ->)%Hb. by apply (Hk tid t).
  - intros i j t' u' (t & Et & ->)%Hb (u & Eu & ->)%Hb. by apply Hd.
Qed.

(** Nothing the machine relies on depends on who holds the tables. *)
Lemma coherent_lives mp c m e w s w' :
  coherent mp c m e w -> inv c (with_store s e) w' -> lives (e_store e) s ->
  (forall p, p ∈ pending m -> w_files w' !! p = w_files w !! p) -> coherent mp c m (with_store s e) w'.
Proof.
  intros [Hs Hp] Hi Hl Hw. split.
  { eapply sound_same; [exact Hs|exact Hi|done|done|done|apply Hs|done|apply Hs]. }
  assert (forall lvl path rs f, path ∈ pending m -> claimed lvl path rs f e w -> claimed lvl path rs f (with_store s e) w') as Hc.
  { intros lvl path rs f Hin Hc. eapply claimed_keep; [exact Hc|done|done|done| |by apply Hw].
    cbn. erewrite list_fmap_ext; [apply Hc|]. intros i lt _. by apply lives_path. }
  split; [apply Hp|apply Hp|apply Hp| |].
  - pose proof (pl_flusher _ _ _ _ Hp) as Hf. destruct (m_flusher m) as [|job|job t] eqn:E; [done..|].
    destruct Hf as (path & rs & flt & H1 & -> & H3). exists path, rs, flt. split_and!; [done|done|].
    apply Hc; [|done]. unfold pending. rewrite E. by left.
  - pose proof (pl_compactor _ _ _ _ Hp) as Hf. destruct (m_compactor m) as [|plan bottom|plan path mr] eqn:E; [done| |].
    + destruct Hf as (l & ps & H1 & H2). exists l, ps. split; [|done]. by apply (plan_same l ps plan bottom c e).
    + destruct Hf as (l & ps & mk & bottom & H1 & H2 & H3 & H4). exists l, ps, mk, bottom.
      split_and!; [by apply (plan_same l ps plan bottom c e)|done| |done].
      destruct mr as [u|err]; [|exact H3]. destruct H3 as (H31 & H32 & f & H33). split_and!; [done|done|]. exists f.
      apply Hc; [|done]. unfold pending. rewrite E. apply elem_of_app. right. by left.
Qed.
End inv.

(** ** Acquiring and releasing *)

Lemma Release_run t w :
  w_faults w = [] ->
  exists err w', Release t w = (Ok (set_life t (t_refCount t - 1) (t_removeOnZero t) (t_released t || (t_refCount t - 1 <=? 0)%Z), err), w') /\
    w_faults w' = [] /\ (forall q, (t_removeOnZero t = true -> (t_refCount t <= 1)%Z -> q <> t_path t) -> w_files w' !! q = w_files w !! q).
Proof.
  intros Hw. unfold Release. destruct (Z.ltb_spec 0 (t_refCount t - 1)).
  { rewrite (proj2 (Z.leb_gt _ _)), orb_false_r by lia. by eexists _, _. }
  rewrite (proj2 (Z.leb_le _ _)), orb_true_r by lia. destruct w as [fs fl]. cbn in Hw. subst fl. io_unfold. simpl.
  destruct (t_removeOnZero t); [|by eexists _, _]. destruct t as [path ? ? ? ? ? ? ? ? refs ? ?]. simpl in *.
  destruct (fs !! path) eqn:E; simpl; eexists _, _; (split; [reflexivity|]); (split; [done|]); [|done].
  intros q Hq. simpl. rewrite lookup_delete_ne; [done|]. intros <-. by apply Hq; [|lia|].
Qed.

Section references.
Context `{FM : Bloom.FloatMath} `{FL : Flate} `{HFL : !FlateLaws FL}.

Lemma listed_once c e w tid : inv c e w -> listed e tid = if decide (tid ∈ allTablesLocked e) then 1 else 0.
Proof. intros Hi. apply count_nodup, Hi. Qed.

(** The tables of the list stay open, whoever else holds them. *)
Lemma balanced_listed H e s tid t :
  balanced H (with_store s e) -> tid ∈ allTablesLocked e -> s !! tid = Some t ->
  t_released t = false /\ (1 <= t_refCount t)%Z /\ t_removeOnZero t = false.
Proof.
  intros Hb Hin%count_elem Et. destruct (bl_count _ _ Hb tid t Et) as (Hc & Hr & Hm).
  change (listed (with_store s e) tid) with (count tid (allTablesLocked e)) in *.
  rewrite Hr, Hm. split_and!; [apply bool_decide_eq_false; lia|lia|apply bool_decide_eq_false; lia].
Qed.

Lemma wp_acquire mp c m H e w :
  coherent mp c m e w -> balanced H e -> apart m e ->
  wp (acquire_all (allTablesLocked e)) (fun r e' w' => r = inl tt /\ w' = w /\ exists s, e' = with_store s e /\ lives (e_store e) s /\
    coherent mp c m e' w /\ balanced (allTablesLocked e ++ H) e' /\ apart m e') e w.
Proof.
  intros Hco Hb Hap. pose proof (so_inv _ _ _ _ (proj1 Hco)) as Hi.
  eapply wp_mono; [by eapply wp_acquire_all, inv_open_tables|]. intros r e' w' (-> & s & -> & -> & Hs).
  split_and!; [done|done|]. exists s. pose proof (lives_pinned _ _ _ Hs) as Hl.
  assert (balanced (allTablesLocked e ++ H) (with_store s e)) as Hb'.
  { split.
    - intros tid t' Et'. cbn in Et'. rewrite (Hs tid) in Et'. destruct (e_store e !! tid) as [t|] eqn:Et; [|done].
      injection Et' as <-. destruct (bl_count _ _ Hb tid t Et) as (Hc & Hr & Hm). cbn. rewrite count_app.
      change (listed (with_store s e) tid) with (listed e tid). unfold listed in *. rewrite Hc, Hr, Hm. split_and!; [lia| |done].
      apply bool_decide_ext. lia.
    - intros tid Hin. cbn. rewrite (Hs tid), fmap_is_Some. apply elem_of_app in Hin as [Hin|Hin]; [|by apply (bl_held _ _ Hb)].
      pose proof (inv_open_tables c e w Hi) as Ho. rewrite Forall_forall in Ho. destruct (Ho tid Hin) as (t & Et & _). by eexists. }
  split_and!; [done|done| |done|by apply apart_lives].
  apply (coherent_lives mp c m e w s w Hco); [|done|done]. apply (inv_lives c e w s w Hi Hl); [|done].
  intros tid t. by eapply balanced_listed.
Qed.

Lemma wp_release mp c m H tid e w :
  coherent mp c m e w -> w_faults w = [] -> balanced (tid :: H) e -> apart m e ->
  wp (table_call Release tid) (fun r e' w' => (exists err, r = inl err) /\ w_faults w' = [] /\ exists s, e' = with_store s e /\
    lives (e_store e) s /\ coherent mp c m e' w' /\ balanced H e' /\ apart m e') e w.
Proof.
  intros Hco Hw Hb Hap. pose proof (so_inv _ _ _ _ (proj1 Hco)) as Hi.
  destruct (bl_held _ _ Hb tid ltac:(by left)) as [t Et]. destruct (bl_count _ _ Hb tid t Et) as (Hc & Hr & Hm).
  assert (forall i, count i (tid :: H) = (if decide (tid = i) then 1 else 0) + count i H) as Ecount.
  { intros i. change (tid :: H) with ([tid] ++ H). by rewrite count_app, count_one. }
  rewrite Ecount, decide_True in Hc, Hr by done. rewrite bool_decide_eq_false_2 in Hr by lia.
  unfold table_call. wp_step. eapply wp_load_table; [done|]. wp_step. apply wp_lift.
  destruct (Release_run t w Hw) as (err & w' & -> & Hw' & Hf). unfold store_table. wp_steps.
  split; [by eexists|]. split; [done|]. set (t' := set_life t _ _ _).
  assert (same_data t t') as Hsd by by eexists _, _, _. set (s := <[tid := t']> (e_store e)). exists s.
  assert (lives (e_store e) s) as Hl by by eapply lives_insert.
  assert (balanced H (with_store s e)) as Hb'.
  { split.
    - intros i u Eu. cbn in Eu. change (listed (with_store s e) i) with (listed e i). unfold s in Eu.
      destruct (decide (tid = i)) as [<-|Hne].
      + rewrite lookup_insert_eq in Eu. injection Eu as <-. cbn. rewrite Hr, Hm, Hc. split_and!; [lia| |done]. cbn [orb].
        destruct (Z.leb_spec (Z.of_nat (listed e tid + (1 + count tid H)) - 1) 0); symmetry; [apply bool_decide_eq_true|apply bool_decide_eq_false]; lia.
      + rewrite lookup_insert_ne in Eu by done. destruct (bl_count _ _ Hb i u Eu) as (H1 & H2 & H3).
        rewrite Ecount, decide_False in H1, H2 by done. done.
    - intros i Hi'. cbn. destruct (bl_held _ _ Hb i ltac:(by right)) as [u Eu]. pose proof (Hl i) as HF. rewrite Eu in HF. inversion HF. by eexists. }
  assert (forall q, (forall i u, e_store e !! i = Some u -> listed e i = 0 -> q <> t_path u) -> w_files w' !! q = w_files w !! q) as Hkeep.
  { intros q Hq. apply Hf. intros Hrm _. apply (Hq tid t Et). rewrite Hm in Hrm. by apply bool_decide_eq_true in Hrm. }
  split_and!; [done|done| |done|by apply apart_lives].
  apply (coherent_lives mp c m e w s w' Hco); [|done|].
  - apply (inv_lives c e w s w' Hi Hl); [intros i u; by eapply balanced_listed|].
    intros p (lt & Ep & Hlt)%list_elem_of_fmap. apply Hkeep. intros i u Eu Hz ->. unfold table_path in Ep.
    destruct (e_store e !! lt_table lt) as [v|] eqn:Ev; [|done]. injection Ep as Ep.
    rewrite (ap_distinct _ _ Hap _ _ _ _ Eu Ev Ep) in Hz.
    pose proof (proj1 (count_elem _ (allTablesLocked e)) (list_elem_of_fmap_2 _ _ _ Hlt)).
    unfold listed in Hz. lia.
  - intros p Hp. apply Hkeep. intros i u Eu _ ->. by apply (ap_known _ _ Hap i u Eu).
Qed.
End references.

(** ** Reads in progress *)

Section reads.
Context `{FM : Bloom.FloatMath} `{FL : Flate} `{HFL : !FlateLaws FL}.

(** The records [c] determine the map, and the versions of the writers in progress
    go on top of them. *)
Record synced (mp : gmap bytes bytes) (c : contents) (m : machine) (e : Engine) : Prop := {
  sy_unique : unique_versions (view c);
  sy_seq : Forall (fun r => (Seq r <= e_seq e)%N) (view c);
  sy_bound : (e_seq e <= unboundedSeq)%N;
  sy_fresh : forall cid x k s, m_clients m !! cid = Some x -> writing x = Some (k, s) -> fresh_seq c s;
  sy_map : forall key, Value <$> live (newest key unboundedSeq (view c)) = mp !! key }.

Lemma coherent_synced mp c m e w : coherent mp c m e w -> synced mp c m e.
Proof.
  intros [Hs Hp]. split.
  - by eapply inv_unique, Hs.
  - eapply Forall_impl; [apply (inv_keys _ _ _ (so_inv _ _ _ _ Hs))|]. by intros r [_ ?].
  - apply (so_seq _ _ _ _ Hs).
  - intros cid x k s Hx Hw. by apply (pl_writers _ _ _ _ Hp cid x k s).
  - apply (so_map _ _ _ _ Hs).
Qed.

(** Frozen, they show one map for good. *)
Definition shows (mp : gmap bytes bytes) (c : contents) : Prop :=
  unique_versions (view c) /\ forall key, Value <$> live (newest key unboundedSeq (view c)) = mp !! key.

Lemma synced_shows mp c m e : synced mp c m e -> shows mp c.
Proof. by intros []. Qed.

Lemma shows_answer mp c key : shows mp c -> key <> [] -> answer (newest key unboundedSeq (view c)) = map_answer mp key.
Proof.
  intros [_ Hs] Hk. unfold map_answer. rewrite <- Hs. unfold answer. destruct key; [done|]. by destruct (live _).
Qed.

(** A call that has not looked in the active MemTable it found, [id], has [imm] and
    [trs] with it; if the MemTable is active no more, they show a map of the window. *)
Definition awaits (mp : gmap bytes bytes) (ms : list (gmap bytes bytes)) (o : overlap) (e : Engine) (id : N) (imm trs : list (list Record)) : Prop :=
  exists mt rs, o_mems o !! id = Some mt /\ mem_holds mt rs /\
    let c := MkContents rs imm trs in
    (id = e_memId e /\ synced mp c (o_machine o) e \/
     id <> e_memId e /\ (id <= e_genCounter e)%N /\ exists mp', mp' ∈ ms /\ shows mp' c).

Lemma awaits_shows mp ms o e id imm trs :
  awaits mp ms o e id imm trs -> mp ∈ ms ->
  exists mt rs mp', o_mems o !! id = Some mt /\ mem_holds mt rs /\ mp' ∈ ms /\ shows mp' (MkContents rs imm trs).
Proof.
  intros (mt & rs & H1 & H2 & [[_ H]|(_ & _ & mp' & H3 & H4)]) Hin; exists mt, rs; [exists mp|by exists mp'].
  split_and!; [done..|]. by eapply synced_shows.
Qed.

(** A read that finds [r] answers as one of the maps [ms] does. *)
Definition answers (r : option Record) (key : bytes) (ms : list (gmap bytes bytes)) : Prop :=
  exists mp, mp ∈ ms /\ answer r = map_answer mp key.

Lemma answers_strip a b key ms : strip <$> a = strip <$> b -> answers a key ms -> answers b key ms.
Proof. intros E (mp & H1 & H2). exists mp. split; [done|]. by rewrite <- (answer_strip a b E). Qed.

(** The heap [h] and what is still to come from sources that are not open, [rest],
    show a map of the window in the range of the scan. *)
Definition opens (ms : list (gmap bytes bytes)) (start end_ : option bytes) (h : list scanHeapItem) (rest : list Record) : Prop :=
  exists mp c ls, mp ∈ ms /\ shows mp c /\ hinv h ls /\ restricts start end_ unboundedSeq (view c) (coming h ls ++ rest).

Lemma opens_nil mp ms start end_ c :
  mp ∈ ms -> shows mp c -> Forall sorted_records (c_tables c) ->
  opens ms start end_ [] (slices start end_ unboundedSeq (c_mem c) (c_imm c) (c_tables c)).
Proof.
  intros Hin Hs Hso. exists mp, c, []. do 2 (split; [done|]). split; [split; [apply Heap.is_heap_nil|constructor]|]. by apply restricts_view; [apply Hs|].
Qed.

(** A source is opened. *)
Lemma wp_opens ms start end_ h l rest (x : E (list scanHeapItem)) e w :
  opens ms start end_ h (l ++ rest) -> w_faults w = [] -> (forall ls, hinv h ls -> wp x (pushed (coming h ls) l e w) e w) ->
  wp x (fun r e' w' => e' = e /\ w_files w' = w_files w /\ w_faults w' = [] /\ exists h', r = inl h' /\ opens ms start end_ h' rest) e w.
Proof.
  intros (mp & c & ls & H1 & H2 & H3 & H4) Hw Hx. eapply wp_mono; [by apply Hx|].
  intros r e' w' (-> & Hw' & [[_ ?]|[Hf (h' & ls' & -> & Hh & Hc)]]); [done|]. split_and!; [done|done|auto|]. exists h'. split; [done|].
  exists mp, c, ls'. do 3 (split; [done|]). eapply restricts_perm; [apply H2| |exact H4].
  by rewrite Hc, (Permutation_app_comm l (coming h ls)), <- app_assoc.
Qed.

(** When all are, the scan is a listing of the map. *)
Lemma opens_lists ms start end_ h held :
  opens ms start end_ h [] -> exists kvs, kvs ∈ map_slice start end_ <$> ms /\ lists unboundedSeq (MkScan h held false) kvs.
Proof.
  intros (mp & c & ls & H1 & [Hu Hs] & H3 & H4). rewrite app_nil_r in H4. destruct H4 as (H4 & H5 & H6).
  assert (unique_versions (coming h ls)) as Hu' by (intros a b Ha Hb; by apply Hu; apply H4).
  destruct (listing_exists unboundedSeq (MkScan h held false) ls H3 Hu' H5) as [kvs Hl]. exists kvs. split; [|by exists ls].
  apply list_elem_of_fmap. exists mp. split; [|done]. eapply (scan_of_map _ _ unboundedSeq c); [apply Hl| |].
  - intros k v. rewrite (proj2 Hl). unfold finds. cbn [sc_h]. rewrite H6. destruct (decide (in_range start end_ k)); [tauto|]. split; [done|]. by intros [? _].
  - intros k. rewrite <- Hs. unfold answer. by destruct (live _).
Qed.

(** What is open can be read to its end. *)
Definition sources (e : Engine) (held : list nat) (imm : list MemTable) (tables : list nat) (irs trs : list (list Record)) : Prop :=
  tables `suffix_of` held /\ Forall2 mem_holds imm irs /\ Forall2 (readable e) tables trs.

(** Where a call whose window is [win] can be. *)
Definition reader_ok (mp : gmap bytes bytes) (win : window) (o : overlap) (e : Engine) (x : reader) : Prop :=
  match x, win with
  | Leaving key _ r, Maps ms => exists mp', mp' ∈ ms /\ r = map_answer mp' key
  | Looking key held mem imm tables best, Maps ms =>
      key <> [] /\ mp ∈ ms /\ exists irs trs, sources e held imm tables irs trs /\
        match mem with
        | Some id => best = None /\ awaits mp ms o e id (rev irs) trs
        | None => answers (newer best (newest key unboundedSeq (concat irs ++ concat trs))) key ms
        end
  | Opening start end_ held mem imm tables h, Maps ms =>
      mp ∈ ms /\ exists irs trs, sources e held imm tables irs trs /\
        match mem with
        | Some id => h = [] /\ awaits mp ms o e id irs trs
        | None => opens ms start end_ h (concat (slice start end_ unboundedSeq <$> irs) ++ concat (visible start end_ unboundedSeq <$> trs))
        end
  | Scanning it, Listings ls => sc_closed it = false /\ exists kvs, kvs ∈ ls /\ lists unboundedSeq it kvs
  | Closing _ f, _ => f = None
  | _, _ => False
  end.

Record overlapping (W : windows) (c : contents) (o : overlap) (e : Engine) (w : world) : Prop := {
  ov_base : coherent W.1 c (o_machine o) e w;
  ov_balanced : balanced (holders (o_readers o)) e;
  ov_apart : apart (o_machine o) e;
  ov_mem : o_mems o !! e_memId e = Some (e_mem e);
  ov_readers : forall rid x, o_readers o !! rid = Some x ->
    exists win, W.2 !! rid = Some win /\ reader_ok W.1 win o e x }.

Lemma sources_lives e e' held imm tables irs trs :
  sources e held imm tables irs trs ->
  (forall tid t, e_store e !! tid = Some t -> exists t', e_store e' !! tid = Some t' /\ same_data t t') ->
  sources e' held imm tables irs trs.
Proof.
  intros (H1 & H2 & H3) Hl. split_and!; [done|done|]. eapply Forall2_impl; [exact H3|]. intros tid rs (t & Et & Hh & Hk).
  destruct (Hl tid t Et) as (t' & Et' & Hsd). exists t'. split_and!; [done|by eapply holds_same|done].
Qed.

Lemma lives_stored s s' tid t : lives s s' -> s !! tid = Some t -> exists t', s' !! tid = Some t' /\ same_data t t'.
Proof. intros Hl E. pose proof (Hl tid) as H. rewrite E in H. inversion H as [? t' Hsd|]. by exists t'. Qed.

(** A step that moves neither the machine below nor the MemTables. *)
Lemma reader_lives mp win o o' e e' x :
  reader_ok mp win o e x -> o_machine o' = o_machine o -> o_mems o' = o_mems o -> lives (e_store e) (e_store e') ->
  e_memId e' = e_memId e -> e_seq e' = e_seq e -> e_genCounter e' = e_genCounter e -> reader_ok mp win o' e' x.
Proof.
  intros Hx Em Emm Hl Ei Es Eg.
  assert (forall ms id irs trs, awaits mp ms o e id irs trs -> awaits mp ms o' e' id irs trs) as Haw.
  { intros ms id irs trs (mt & rs & H1 & H2 & H3). exists mt, rs. rewrite Emm, Em, Ei, Eg. split_and!; [done|done|].
    destruct H3 as [[? []]|?]; [left|by right]. split; [done|]. by split; rewrite ?Es. }
  assert (forall held imm tables irs trs, sources e held imm tables irs trs -> sources e' held imm tables irs trs) as Hso.
  { intros held imm tables irs trs H. eapply sources_lives; [exact H|]. intros tid t. by apply lives_stored. }
  destruct x as [key held mem imm tables best| |start end_ held mem imm tables h| |], win as [ms|ls]; try done.
  - destruct Hx as (H1 & H2 & irs & trs & H3 & H4). split_and!; [done|done|]. exists irs, trs. split; [by apply Hso|].
    destruct mem as [id|]; [|done]. destruct H4 as [H4 H5]. split; [done|by apply Haw].
  - destruct Hx as (H1 & irs & trs & H3 & H4). split; [done|]. exists irs, trs. split; [by apply Hso|].
    destruct mem as [id|]; [|done]. destruct H4 as [H4 H5]. split; [done|by apply Haw].
Qed.
End reads.
