(* ===== verification/ReadersBase.v ===== *)
(** * What the machine's steps do to what readers use

    Readers hold MemTables and tables that the steps of Interleave.v go on to
    change.  For every such step: what it does to the active MemTable
    ([mem_moves]), and that it leaves the tables readable, their reference counts
    exact and their files apart ([beneath]). *)

From S2P Require Import Prelude OrdMap GoIO IOLogic MemTable Versions SSTable Table Merge Metrics FileNames EngineState EngineLogic EngineInv Engine EngineRead EngineFlush EngineLogs EngineWrite EngineCompact Store EngineFrame Interleave Linear InterleaveInv InterleaveFrame InterleaveSteps Readers ReadersInv.
From S2P Require Wal SkipList Bloom.
From stdpp Require Import base gmap sets list strings numbers fin_maps sorting.
Open Scope nat_scope.

Lemma wp_at {A} (x : E A) (Q : A + error -> Engine -> world -> Prop) e w r e' w' : wp x Q e w -> x e w = (Ok (e', r), w') -> Q r e' w'.
Proof. unfold wp. by intros H E; rewrite E in H. Qed.

Section base.
Context `{FM : Bloom.FloatMath} `{FL : Flate} `{HFL : !FlateLaws FL}.
Context (coins : N -> list bool).

(** ** Relations *)

Record beneath (m : machine) (e : Engine) (m' : machine) (e' : Engine) : Prop := {
  bn_seq : (e_seq e <= e_seq e')%N;
  bn_gen : (e_genCounter e <= e_genCounter e')%N;
  bn_lives : forall tid t, e_store e !! tid = Some t -> exists t', e_store e' !! tid = Some t' /\ same_data t t';
  bn_balanced : forall H, balanced H e -> balanced H e';
  bn_apart : apart m e -> apart m' e' }.

(** The writers in progress are those of before, less some, but for one that has
    taken a new sequence number. *)
Definition writers_from (m : machine) (e : Engine) (m' : machine) : Prop :=
  forall cid x k s, m_clients m' !! cid = Some x -> writing x = Some (k, s) ->
    (exists y, m_clients m !! cid = Some y /\ writing y = Some (k, s)) \/ (e_seq e < s)%N.

Inductive mem_moves (c : contents) (m : machine) (e : Engine) (ns : list note) (m' : machine) (e' : Engine) : Prop :=
| Still : e_memId e' = e_memId e -> e_mem e' = e_mem e -> (forall mp, effects ns mp = mp) -> writers_from m e m' ->
    mem_moves c m e ns m' e'
| Applied cid key value typ seq rs : m_clients m !! cid = Some (Logged key value typ seq) ->
    (forall y, m_clients m' !! cid = Some y -> writing y = None) ->
    (forall i, i <> cid -> m_clients m' !! i = m_clients m !! i) -> e_memId e' = e_memId e -> e_seq e' = e_seq e ->
    (forall mp, effects ns mp = effect (apply_effect key value typ) mp) -> mem_holds (e_mem e') rs ->
    (let rec := mut_rec (mutation_of typ key value seq) in forall s, s ∈ rs <-> s = rec \/ s ∈ c_mem c /\ Key s <> Key rec) ->
    mem_moves c m e ns m' e'
| Rotated : e_memId e' = (e_genCounter e + 1)%N -> (e_genCounter e' = e_genCounter e + 1)%N -> (forall mp, effects ns mp = mp) -> writers_from m e m' ->
    mem_moves c m e ns m' e'.

(** ** Steps that leave the objects alone *)

Lemma apart_keep m m' e e' :
  apart m e -> e_store e' = e_store e -> e_dir e' = e_dir e -> (e_genCounter e <= e_genCounter e')%N ->
  (forall p, p ∈ pending m' -> p ∈ pending m \/ ~ known e p) -> apart m' e'.
Proof.
  intros [Hk Hd] Es Ed Hg Hp. split; rewrite Es; [|done]. intros tid t Et. destruct (Hk tid t Et) as [(l & g & Hs & Hle) Hn]. split.
  - exists l, g. rewrite Ed. split; [done|lia].
  - intros [H|H]%Hp; [done|]. apply H. by exists l, g.
Qed.

Lemma beneath_objects m m' e e' :
  objects e' = objects e -> (e_seq e <= e_seq e')%N -> (e_genCounter e <= e_genCounter e')%N ->
  (forall p, p ∈ pending m' -> p ∈ pending m \/ ~ known e p) -> beneath m e m' e'.
Proof.
  intros [= Ed Ei Em Es En Et] Hs Hg Hp. split; [done|done| | |].
  - intros tid t H. rewrite Es. exists t. split; [done|apply same_data_refl].
  - intros H [Hc Hh]. split; unfold listed, allTablesLocked in *; rewrite Es, ?Et; done.
  - intros Hap. by eapply apart_keep.
Qed.

Lemma goes_on_writers cid pre m e m' ns : goes_on cid pre m m' ns -> writers_from m e m' /\ pending m' = pending m.
Proof.
  intros [(x & -> & _ & Hw)|(r & -> & _)]; (split; [|done]); intros i y k s Hy Hwr; left; cbn in Hy.
  - destruct (decide (cid = i)) as [<-|Hne]; [rewrite lookup_insert_eq in Hy; injection Hy as <-; by apply Hw|].
    rewrite lookup_insert_ne in Hy by done. by exists y.
  - apply lookup_delete_Some in Hy as [_ Hy]. by exists y.
Qed.

Lemma same_clients_writers m e m' : m_clients m' = m_clients m -> writers_from m e m'.
Proof. intros E cid x k s Hx Hw. left. rewrite E in Hx. by exists x. Qed.

Lemma effects_goes_on cid m m' ns : goes_on cid [] m m' ns -> forall mp, effects ns mp = mp.
Proof. by intros [(x & _ & -> & _)|(r & _ & ->)]. Qed.

(** The clients' steps that touch only logs, queues, snapshots and metrics. *)
Lemma beneath_client l c m e w m' ns e' w' :
  match l with Log _ | HandOver _ | Load _ | Register _ | TakeJob | Plan => True | _ => False end ->
  step coins l m e w = (Ok (e', inl (Some (m', ns))), w') -> beneath m e m' e' /\ mem_moves c m e ns m' e'.
Proof.
  intros Hl E. pose proof (step_counts coins l m _ _ _ _ _ E) as Hc.
  assert ((objects e', e_seq e', e_genCounter e') = (objects e, e_seq e, e_genCounter e)) as [= Ed Ei Em Es En Et Eq Eg].
  { pose proof (keeps_step coins l m) as Hk. destruct l; try done; by apply Hk in E. }
  enough (writers_from m e m' /\ (forall p, p ∈ pending m' -> p ∈ pending m) /\ forall mp, effects ns mp = mp) as (Hw & Hp & He).
  { split; [|by apply Still]. apply beneath_objects; [unfold objects; congruence|lia|lia|]. intros p Hin. left. auto. }
  destruct l as [| cid| | |cid| |cid|cid| | | | | | |]; try done; cbn in Hc.
  - destruct Hc as [_ Hc]. destruct (goes_on_writers cid [] m e m' ns Hc) as [Hw ->]. split_and!; [done|done|by eapply effects_goes_on].
  - destruct Hc as [_ Hc]. destruct (goes_on_writers cid [] m e m' ns Hc) as [Hw ->]. split_and!; [done|done|by eapply effects_goes_on].
  - destruct Hc as [(seq & -> & ->)|(-> & r & ->)]; [|by split_and!; [apply same_clients_writers|..]]. split_and!; [|done|done].
    intros i y k s Hy Hwr. left. cbn in Hy. destruct (decide (cid = i)) as [<-|Hne];
      [rewrite lookup_insert_eq in Hy; by injection Hy as <-|rewrite lookup_insert_ne in Hy by done; by exists y].
  - destruct Hc as (-> & r & ->). split_and!; [|done|done]. intros i y k s Hy Hwr. left. cbn in Hy. apply lookup_delete_Some in Hy as [_ Hy]. by exists y.
  - destruct Hc as (-> & job & ->). split_and!; [by apply same_clients_writers| |done]. intros p Hp. unfold pending in *. cbn in Hp. set_solver.
  - destruct Hc as (-> & [->|(plan & bottom & ->)]); (split_and!; [by apply same_clients_writers| |done]); [done|].
    intros p Hp. unfold pending in *. cbn in Hp. rewrite app_nil_r in Hp. set_solver.
Qed.

Lemma beneath_remetered c m e e' ns :
  remetered e e' -> (forall mp, effects ns mp = mp) -> beneath m e m e' /\ mem_moves c m e ns m e'.
Proof.
  intros (mt & k & ->) He. split; [apply beneath_objects; [done|done|done|by left]|]. apply Still; [done|done|done|by apply same_clients_writers].
Qed.
(** ** The other steps *)

(** What the result of a step says of the step. *)
Definition below_ok (c : contents) (m : machine) (e : Engine) (r : option (machine * list note) + error) (e' : Engine) (_ : world) : Prop :=
  forall m' ns, r = inl (Some (m', ns)) -> beneath m e m' e' /\ mem_moves c m e ns m' e'.

Lemma wp_below_stay c m e e0 w : wp (eret None) (below_ok c m e) e0 w.
Proof. by intros m' ns [=]. Qed.

Lemma wp_below_go c m e (x : E (machine * list note)) e0 w :
  wp x (fun r e' _ => forall m' ns, r = inl (m', ns) -> beneath m e m' e' /\ mem_moves c m e ns m' e') e0 w ->
  wp (let? r := x in eret (Some r)) (below_ok c m e) e0 w.
Proof.
  intros H. wp_step. eapply wp_mono; [exact H|]. intros [[m1 ns1]|err] e' w' Hr; [|done]. wp_step. intros m' ns [= <- <-]. by apply Hr.
Qed.

Lemma beneath_meters m e m' e1 e' : beneath m e m' e1 -> remetered e1 e' -> beneath m e m' e'.
Proof.
  intros [] (mt & k & ->). split; try done; [intros H Hb; destruct (bn_balanced0 H Hb)|intros Hap; destruct (bn_apart0 Hap)]; by split.
Qed.

Lemma below_begin cid key value typ mp c m e w :
  coherent mp c m e w -> step_within (Begin cid key value typ) m e w -> wp (step coins (Begin cid key value typ) m) (below_ok c m e) e w.
Proof.
  intros [Hs Hp] Hlim. cbn in Hlim. cbn [step]. destruct (m_clients m !! cid) as [x|] eqn:Ex; [by apply wp_below_stay|].
  destruct key as [|b key]; apply wp_below_go.
  { wp_step. intros ? ? [= <- <-]. by apply beneath_remetered; [apply remetered_refl|]. }
  do 2 wp_step. unfold write_begin. do 2 wp_step. rewrite (so_open _ _ _ _ Hs).
  rewrite u64_small by (unfold max_u64 in Hlim; lia). do 4 wp_step. intros ? ? [= <- <-].
  split; [apply beneath_objects; [done|cbn; lia|done|by left]|]. apply Still; [done|done|done|].
  intros i y k s Hy Hw. cbn in Hy. destruct (decide (cid = i)) as [<-|Hne].
  - rewrite lookup_insert_eq in Hy. injection Hy as <-. injection Hw as <- <-. right. lia.
  - rewrite lookup_insert_ne in Hy by done. left. by exists y.
Qed.

Lemma below_read l mp c m e w :
  match l with Read _ _ | ReadAt _ _ _ => True | _ => False end ->
  coherent mp c m e w -> w_faults w = [] -> wp (step coins l m) (below_ok c m e) e w.
Proof.
  intros Hl [Hs Hp] Hw. pose proof (so_inv _ _ _ _ Hs) as Hi.
  destruct l as [| | | | |cid key| | |cid s key| | | | | |]; try done; cbn [step]; (destruct (m_clients m !! cid); [by apply wp_below_stay|]);
    apply wp_below_go; do 2 wp_step;
    [eapply wp_mono; [by apply (wp_read c e w key unboundedSeq _ Hi Hw)|]|eapply wp_mono; [by apply (wp_read c e w key (s_seq s) _ Hi Hw)|]];
    intros r e' w' (Hr & _); wp_step; intros ? ? [= <- <-]; by apply beneath_remetered.
Qed.

Lemma below_apply cid mp c m e w :
  coherent mp c m e w -> wp (step coins (Apply cid) m) (below_ok c m e) e w.
Proof.
  intros [Hs Hp]. cbn [step]. destruct (m_clients m !! cid) as [[|key value typ seq| | |]|] eqn:Ex; try by apply wp_below_stay.
  destruct (pl_writers _ _ _ _ Hp cid _ key seq Ex eq_refl) as (Hk & Hle & Hf).
  assert (fresh_for c (mut_rec (mutation_of typ key value seq))) as Hf'.
  { unfold fresh_seq, fresh_for in *. by rewrite mut_rec_seq. }
  apply wp_below_go. wp_step. eapply wp_mono; [by apply (wp_write_apply c e w key value typ seq (so_inv _ _ _ _ Hs))|].
  intros r e' w' (-> & [full ->] & mt & rs & -> & _ & Hne & Hi & Hput & Hrs). cbv zeta.
  assert (forall x e', (forall y, x = Some y -> writing y = None) -> remetered (set_mem (e_memId e) mt e) e' -> forall ns,
    (forall mp, effects ns mp = effect (apply_effect key value typ) mp) ->
    beneath m e (set_client cid x m) e' /\ mem_moves c m e ns (set_client cid x m) e') as Hok.
  { intros x e' Hx He' ns Hns. split.
    - eapply beneath_meters; [|exact He']. split; try done.
      + intros tid t Et. exists t. split; [done|apply same_data_refl].
      + intros H []. by split.
      + intros []. by split; destruct x.
    - destruct (set_client_moves cid x m) as (H1 & H2 & _). destruct He' as (mt' & k & ->).
      eapply (Applied _ _ _ _ _ _ cid key value typ seq rs); try done; [intros y; rewrite H1; by apply Hx|apply Hi]. }
  destruct full.
  - wp_step. intros ? ? [= <- <-]. apply Hok; [by intros y [= <-]|apply remetered_refl|done].
  - wp_step. eapply wp_mono; [apply wp_finish_write|]. intros r e2 w2 (-> & Hr & ->). wp_step. intros ? ? [= <- <-]. by apply Hok.
Qed.

Lemma below_rotate cid mp c m e w :
  coherent mp c m e w -> w_faults w = [] -> step_within (Rotate cid) m e w -> wp (step coins (Rotate cid) m) (below_ok c m e) e w.
Proof.
  intros [Hs Hp] Hw Hg. cbn in Hg. cbn [step]. destruct (m_clients m !! cid) as [[| |typ| |]|] eqn:Ex; try by apply wp_below_stay.
  destruct (unlocked m) eqn:Eu; [|by apply wp_below_stay]. apply wp_below_go. do 3 wp_step.
  assert (forall x, (forall y, x = Some y -> writing y = None) -> writers_from m e (set_client cid x m)) as Hwr.
  { intros x Hx i y k s Hy Hwy. destruct (set_client_moves cid x m) as (H1 & H2 & _). left. exists y.
    destruct (decide (i = cid)) as [->|Hne]; [rewrite H1 in Hy; by rewrite (Hx y Hy) in Hwy|by rewrite <- H2]. }
  eapply wp_mono; [by apply (rotate_happens coins mp c e w)|]. intros r e' w' [(-> & -> & ->)|(-> & Ho & Hn & -> & Hi)].
  - eapply wp_mono; [apply wp_finish_write|]. intros r e2 w2 (-> & (mt & k & ->) & ->) ? ? [= <- <-]. split.
    + by apply beneath_objects; [..|left].
    + apply Still; [done|done|done|]. by apply (Hwr None).
  - wp_step. intros ? ? [= <- <-]. split.
    + split; [done|cbn; lia| | |].
      * intros tid t Et. exists t. split; [done|apply same_data_refl].
      * intros H []. by split.
      * intros Hap. eapply apart_keep; [exact Hap|done|done|cbn; lia|by left].
    + apply Rotated; [done|done|done|]. apply (Hwr (Some _)). by intros y [= <-].
Qed.

Lemma next_not_known e lvl : (0 <= lvl < 2 ^ 63)%Z -> (e_genCounter e < max_u64)%N -> ~ known e (next_path lvl e).
Proof. intros Hl Hg H. by destruct (known_fresh e lvl _ Hl Hg H). Qed.

(** A worker has written a table under the next name. *)
Lemma beneath_written c m m' e lvl :
  (0 <= lvl < 2 ^ 63)%Z -> (e_genCounter e < max_u64)%N -> m_clients m' = m_clients m ->
  (forall p, p ∈ pending m' -> p ∈ pending m \/ p = next_path lvl e) ->
  beneath m e m' (set_gen (e_genCounter e + 1) e) /\ mem_moves c m e [] m' (set_gen (e_genCounter e + 1) e).
Proof.
  intros Hl Hg Hm Hp. split.
  - apply beneath_objects; [done|done|cbn; lia|]. intros p [H| ->]%Hp; [by left|right]. by apply next_not_known.
  - apply Still; [done|done|done|by apply same_clients_writers].
Qed.

Lemma below_write_table mp c m e w :
  coherent mp c m e w -> w_faults w = [] -> step_within WriteTable m e w -> wp (step coins WriteTable m) (below_ok c m e) e w.
Proof.
  intros [Hs Hp] Hw (Hg & Hfit). pose proof (so_inv _ _ _ _ Hs) as Hi. cbn [step].
  destruct (m_flusher m) as [|job|] eqn:Ef; try by apply wp_below_stay.
  destruct (in_hand_oldest m c e w job Hi Hp ltac:(by rewrite Ef)) as (ie & imm2 & rs & ls2 & Ei & -> & Hq & Ec & Hm & Hne).
  pose proof (flush_fits_imm c e w Hi Hfit) as Hfl. rewrite Ec in Hfl. apply Forall_cons in Hfl as [(f & Hf & Hfits) _].
  apply wp_below_go. wp_step. eapply wp_mono; [by apply (wp_flush_write (job_of ie) rs f)|].
  intros r ? w' (-> & _ & Hframe & [[_ ?]|[-> Hfile]]); [done|]. wp_step. intros ? ? [= <- <-].
  apply (beneath_written c m _ e 0); [lia|done|done|]. intros p Hin. unfold pending in *. cbn in Hin. set_solver.
Qed.

Lemma below_merge mp c m e w :
  coherent mp c m e w -> w_faults w = [] -> step_within MergePlan m e w -> wp (step coins MergePlan m) (below_ok c m e) e w.
Proof.
  intros [Hs Hp] Hw (Hg & Hfit). pose proof (so_inv _ _ _ _ Hs) as Hi. cbn [step].
  destruct (m_compactor m) as [|plan bottom|] eqn:Em; try by apply wp_below_stay. specialize (Hfit plan bottom eq_refl).
  pose proof (pl_compactor _ _ _ _ Hp) as Hc. rewrite Em in Hc. destruct Hc as (l & ps & (H1 & H2 & H3 & H4 & H5 & H6) & Hne).
  destruct (so_config _ _ _ _ Hs) as [Hc1 Hc2]. apply wp_below_go. wp_step. eapply wp_mono.
  { apply (wp_compact_merge l ps c e w plan bottom Hi H5 (Hfit c ps Hi (sel_sub _ _ _ _ H5) H4)); try done. lia. }
  intros r ? w' (-> & Hframe & mr & -> & _). wp_step. intros ? ? [= <- <-].
  apply (beneath_written c m _ e (l + 1)); [lia|done|done|]. intros p Hin. unfold pending in *. cbn in Hin. destruct mr; set_solver.
Qed.

(** ** Commits *)

(** The list has lost [gone], whose objects have lost a reference, and got [t]. *)
Record relisted (gone : list nat) (t : option Table) (e e' : Engine) : Prop := {
  rl_store : forall tid, e_store e' !! tid =
    if decide (tid ∈ gone) then dropped <$> e_store e !! tid
    else if decide (tid = e_nextTable e /\ is_Some t) then t else e_store e !! tid;
  rl_listed : forall tid, tid ∈ allTablesLocked e' <-> tid ∈ allTablesLocked e /\ tid ∉ gone \/ is_Some t /\ tid = e_nextTable e;
  rl_gone : gone ⊆ allTablesLocked e;
  rl_new : forall t0, t = Some t0 -> t_refCount t0 = 1%Z /\ t_released t0 = false /\ t_removeOnZero t0 = false;
  rl_dir : e_dir e' = e_dir e;
  rl_gen : e_genCounter e' = e_genCounter e }.

Section relist.
Context (gone : list nat) (t : option Table) (c c' : contents) (e e' : Engine) (w w' : world).
Context (Hi : inv c e w) (Hi' : inv c' e' w') (Hr : relisted gone t e e').

Lemma listed_old tid : tid ∈ allTablesLocked e -> tid < e_nextTable e.
Proof. by apply (inv_fresh_tid c e w). Qed.

Lemma stored_old tid u : e_store e !! tid = Some u -> tid < e_nextTable e.
Proof.
  intros E. destruct (decide (tid < e_nextTable e)); [done|]. by rewrite (inv_store _ _ _ Hi) in E by lia.
Qed.

Lemma relisted_old tid u :
  e_store e !! tid = Some u -> e_store e' !! tid = Some (if decide (tid ∈ gone) then dropped u else u).
Proof.
  intros E. pose proof (stored_old tid u E). rewrite (rl_store _ _ _ _ Hr). destruct (decide (tid ∈ gone)); [by rewrite E|].
  rewrite decide_False by (intros [? _]; lia). done.
Qed.

Lemma relisted_inv tid v :
  e_store e' !! tid = Some v ->
  (exists u, e_store e !! tid = Some u /\ v = if decide (tid ∈ gone) then dropped u else u) \/ tid = e_nextTable e /\ t = Some v.
Proof.
  intros E. rewrite (rl_store _ _ _ _ Hr) in E. destruct (decide (tid ∈ gone)).
  - destruct (e_store e !! tid) as [u|]; [|done]. injection E as <-. left. by exists u.
  - destruct (decide _) as [[-> Ht]|]; [right; by split|]. left. by exists v.
Qed.

Lemma relisted_count tid :
  listed e' tid = if decide (tid ∈ allTablesLocked e /\ tid ∉ gone \/ is_Some t /\ tid = e_nextTable e) then 1 else 0.
Proof.
  rewrite (listed_once c' e' w' tid Hi'). apply decide_ext, (rl_listed _ _ _ _ Hr).
Qed.

Lemma balanced_relisted H : balanced H e -> balanced H e'.
Proof.
  intros [Hc Hh]. split.
  - intros tid v Ev. destruct (relisted_inv tid v Ev) as [(u & Eu & ->)|[-> Et]].
    + pose proof (stored_old tid u Eu) as Hold. destruct (Hc tid u Eu) as (H1 & H2 & H3).
      rewrite (listed_once c e w tid Hi) in H1, H2, H3. rewrite relisted_count. destruct (decide (tid ∈ gone)) as [Hg|Hg].
      * pose proof (rl_gone _ _ _ _ Hr tid Hg) as Hl. rewrite decide_True in H1, H2, H3 by done.
        rewrite decide_False by (intros [[_ ?]|[_ ?]]; [done|lia]). unfold dropped. cbn. rewrite H1. split_and!; [lia| |done].
        destruct (Z.ltb_spec 0 (Z.of_nat (1 + count tid H) - 1)).
        -- rewrite H2. apply bool_decide_ext. lia.
        -- symmetry. apply bool_decide_eq_true. lia.
      * rewrite H1, H2, H3. destruct (decide (tid ∈ allTablesLocked e)) as [Hl|Hl].
        -- by rewrite decide_True by (left; by split).
        -- by rewrite decide_False by (intros [[? _]|[_ ?]]; [done|lia]).
    + rewrite relisted_count, decide_True by (right; by rewrite Et). destruct (rl_new _ _ _ _ Hr v Et) as (-> & -> & ->).
      assert (count (e_nextTable e) H = 0) as ->; [|done].
      destruct (count (e_nextTable e) H) eqn:E; [done|]. assert (e_nextTable e ∈ H) as Hin by (apply count_elem; lia).
      destruct (Hh _ Hin) as [u Eu]. pose proof (stored_old _ _ Eu). lia.
  - intros tid Hin. destruct (Hh tid Hin) as [u Eu]. rewrite (relisted_old tid u Eu). by eexists.
Qed.

Lemma lives_relisted tid u : e_store e !! tid = Some u -> exists u', e_store e' !! tid = Some u' /\ same_data u u'.
Proof.
  intros E. eexists. split; [by apply relisted_old|]. destruct (decide _); [by eexists _, _, _|apply same_data_refl].
Qed.

Lemma apart_relisted m m' :
  apart m e -> (forall p, p ∈ pending m' -> p ∈ pending m) ->
  (forall t0, t = Some t0 -> known e (t_path t0) /\ t_path t0 ∈ pending m /\ t_path t0 ∉ pending m') -> apart m' e'.
Proof.
  intros [Hk Hd] Hp Ht.
  assert (forall p, known e p -> known e' p) as Hkn.
  { intros p (l & g & H1 & H2). exists l, g. by rewrite (rl_dir _ _ _ _ Hr), (rl_gen _ _ _ _ Hr). }
  assert (forall tid u, t_path (if decide (tid ∈ gone) then dropped u else u) = t_path u) as Hpath by (intros; by destruct (decide _)).
  split.
  - intros tid v [(u & Eu & ->)|[-> Et]]%relisted_inv.
    + rewrite Hpath. destruct (Hk tid u Eu) as [H1 H2]. split; [by apply Hkn|auto].
    + destruct (Ht v Et) as (H1 & _ & H3). split; [by apply Hkn|done].
  - intros i j v1 v2 [(u1 & E1 & ->)|[-> Et1]]%relisted_inv [(u2 & E2 & ->)|[-> Et2]]%relisted_inv; rewrite ?Hpath; intros E.
    + by eapply Hd.
    + destruct (Ht v2 Et2) as (_ & H2 & _), (Hk i u1 E1) as [_ H1]. by rewrite E in H1.
    + destruct (Ht v1 Et1) as (_ & H2 & _), (Hk j u2 E2) as [_ H1]. by rewrite <- E in H1.
    + done.
Qed.
End relist.

Lemma beneath_relisted gone t c c' m m' e e' w w' :
  inv c e w -> inv c' e' w' -> relisted gone t e e' -> (e_seq e <= e_seq e')%N -> (forall p, p ∈ pending m' -> p ∈ pending m) ->
  (forall t0, t = Some t0 -> known e (t_path t0) /\ t_path t0 ∈ pending m /\ t_path t0 ∉ pending m') -> beneath m e m' e'.
Proof.
  intros Hi Hi' Hr Hs Hp Ht. split; [done|by rewrite (rl_gen _ _ _ _ Hr)| | |].
  - by eapply lives_relisted.
  - intros H. by eapply balanced_relisted.
  - intros Hap. by eapply apart_relisted.
Qed.

(** The tables being written are at different levels. *)
Lemma claims_differ l1 l2 p1 p2 rs1 rs2 f1 f2 e w :
  claimed l1 p1 rs1 f1 e w -> claimed l2 p2 rs2 f2 e w -> l1 <> l2 -> p1 <> p2.
Proof.
  intros H1 H2 Hne ->. destruct (cl_path _ _ _ _ _ _ H1) as (g1 & Hg1 & _), (cl_path _ _ _ _ _ _ H2) as (g2 & Hg2 & _).
  by pose proof (sst_path_level _ _ _ _ _ _ Hg1 Hg2).
Qed.

Lemma below_commit_table mp c m e w :
  coherent mp c m e w -> wp (step coins CommitTable m) (below_ok c m e) e w.
Proof.
  intros [Hs Hp]. pose proof (so_inv _ _ _ _ Hs) as Hi. cbn [step].
  destruct (m_flusher m) as [| |job t] eqn:Ef; try by apply wp_below_stay. destruct (unlocked m) eqn:Eu; [|by apply wp_below_stay].
  destruct (in_hand_oldest m c e w job Hi Hp ltac:(by rewrite Ef)) as (ie & imm2 & rs & ls2 & Ei & -> & Hq & Ec & Hm & Hne).
  pose proof (pl_flusher _ _ _ _ Hp) as Hf. rewrite Ef in Hf. destruct Hf as (path & rs' & flt & Hrs & -> & Hcl).
  rewrite Ec in Hrs. injection Hrs as <-. apply wp_below_go. wp_step. eapply wp_mono.
  { apply (wp_flush_commit c e w [] ie imm2 [] rs ls2 path flt Hi Ei Ec eq_refl); [|exact Hcl]. by apply (sublist_of_prefix []). }
  intros r ? w' (-> & (b & ->) & Hi' & _). unfold inc, observe_since. wp_steps. intros ? ? [= <- <-].
  set (t := table_of path (o_compress (e_opts e)) rs flt) in *. set (e1 := set_compactCh b _) in *.
  assert (relisted [] (Some t) e e1) as Hr.
  { split; try done.
    - intros tid. rewrite decide_False by apply not_elem_of_nil. cbn. destruct (decide _) as [[-> _]|Hn]; [by rewrite lookup_insert_eq|].
      rewrite lookup_insert_ne; [done|]. intros <-. apply Hn. by split.
    - intros tid. unfold allTablesLocked. cbn. rewrite fmap_app, elem_of_app. cbn. rewrite list_elem_of_singleton.
      pose proof (not_elem_of_nil tid). naive_solver.
    - by intros ? ?%not_elem_of_nil.
    - by intros t0 [= <-]. }
  split; [|by apply Still; [..|by apply same_clients_writers]].
  apply (beneath_meters m e _ e1); [|by eexists _, _]. apply (beneath_relisted [] (Some t) c _ m _ e e1 w w' Hi Hi' Hr); [done| |].
  - intros p Hin. unfold pending in *. cbn in Hin. set_solver.
  - intros t0 [= <-]. split_and!; [by eapply claimed_known|unfold pending; rewrite Ef; by left|]. unfold pending. cbn.
    pose proof (pl_compactor _ _ _ _ Hp) as Hcp. destruct (m_compactor m) as [| |plan path' [u|]]; try apply not_elem_of_nil.
    destruct Hcp as (l & ps & mk & bottom & (Hl & _) & _ & (_ & _ & f & Hcl') & _). intros H%list_elem_of_singleton.
    eapply claims_differ; [exact Hcl|exact Hcl'|lia|exact H].
Qed.

Lemma below_commit_plan mp c m e w :
  coherent mp c m e w -> w_faults w = [] -> wp (step coins CommitPlan m) (below_ok c m e) e w.
Proof.
  intros [Hs Hp] Hw. pose proof (so_inv _ _ _ _ Hs) as Hi. cbn [step].
  destruct (m_compactor m) as [| |plan path mr] eqn:Em; try by apply wp_below_stay. destruct (unlocked m) eqn:Eu; [|by apply wp_below_stay].
  pose proof (pl_compactor _ _ _ _ Hp) as Hc. rewrite Em in Hc.
  destruct Hc as (l & ps & mk & bottom & (H1 & H2 & H3 & H4 & H5 & H6) & Hmk & Hmr & Hok).
  destruct (so_config _ _ _ _ Hs) as [Hc1 Hc2]. apply wp_below_go. do 2 wp_step. eapply wp_mono.
  { apply (wp_compact_commit l ps c e w plan path mk bottom mr Hi (so_layered _ _ _ _ Hs) (so_levels _ _ _ _ Hs) H5 H6 H1 H2 ltac:(lia) H3 H4 Hmr). }
  intros r e1 w' (Hst & _ & _ & [(-> & (c' & Hi' & _) & t & Ht & _ & Hcom)|[_ [?|?]]]); [|done|done].
  unfold inc, observe_since. wp_steps. intros ? ? [= <- <-]. destruct Hst as (E1 & _ & E3 & _ & _ & E6 & E7 & _).
  split; [|by apply Still; [..|by apply same_clients_writers]]. apply (beneath_meters m e _ e1); [|by eexists _, _].
  assert (forall tid, tid ∈ tids ps -> tid < e_nextTable e /\ tid ∈ allTablesLocked e) as Hold.
  { intros tid (lt & H & -> & Hlt)%(elem_of_selected l ps c e w tid Hi H5). split; [done|]. by apply list_elem_of_fmap_2. }
  assert (relisted (tids ps) t e e1) as Hr.
  { destruct Hcom as (b & s & w2 & -> & _ & _ & Hret & _). split.
    - intros tid. cbn. rewrite Hret. destruct (decide (tid ∈ tids ps)) as [Hin|Hin].
      + destruct (Hold tid Hin) as [Hlt _]. by rewrite replaced_store.
      + destruct (decide _) as [[-> [t0 ->]]|Hn]; [cbn; by rewrite lookup_insert_eq|]. destruct t as [t0|]; [|done]. cbn.
        rewrite lookup_insert_ne; [done|]. intros <-. apply Hn. by split.
    - intros tid. change (allTablesLocked (set_compactCh b (with_store s (replaced l ps t c e)))) with (lt_table <$> e_tables (replaced l ps t c e)).
      rewrite list_elem_of_fmap. setoid_rewrite elem_of_replaced. split.
      + intros (lt & -> & [H|[H ->]]); [left|by right].
        destruct (elem_of_other_tids ps c e w lt Hi H) as (H7 & H8 & _). split; [by apply list_elem_of_fmap_2|done].
      + intros [[(lt & -> & H)%list_elem_of_fmap Hn]|[H ->]]; [|by exists (MkLT (l + 1) (e_nextTable e)); auto].
        exists lt. split; [done|]. left. destruct (tables_of_lookup c e w lt Hi H) as [rs Hp']. apply list_elem_of_fmap.
        exists (lt, rs). split; [done|]. apply elem_of_others. split; [done|]. intros Hin. apply Hn, list_elem_of_fmap. by exists (lt, rs).
    - intros tid Hin. by apply Hold.
    - intros t0 ->. by destruct Ht as [|(-> & t1 & [= <-] & _ & Hlife)].
    - done.
    - cbn. by destruct t. }
  apply (beneath_relisted (tids ps) t c c' m _ e e1 w w' Hi Hi' Hr); [by rewrite E3| |].
  - intros p Hin. unfold pending in *. cbn in Hin. rewrite app_nil_r in Hin. set_solver.
  - intros t0 ->. destruct Ht as [|(-> & t1 & [= <-] & E & _)]; [done|]. destruct Hmr as (_ & _ & f & Hcl). rewrite E.
    split_and!; [by eapply claimed_known|unfold pending; rewrite Em; apply elem_of_app; right; by left|]. unfold pending. cbn. rewrite app_nil_r.
    pose proof (pl_flusher _ _ _ _ Hp) as Hfl. destruct (m_flusher m) as [| |job [tf|]]; try apply not_elem_of_nil.
    destruct Hfl as (pathf & rs & flt & _ & [= ->] & Hclf). cbn. intros H%list_elem_of_singleton.
    eapply (claims_differ 0 (l + 1)); [exact Hclf|exact Hcl|lia|done].
Qed.

(** ** Every step *)

Lemma step_below l mp c m e w :
  coherent mp c m e w -> w_faults w = [] -> step_within l m e w -> wp (step coins l m) (below_ok c m e) e w.
Proof.
  intros Hco Hw Hl.
  assert (match l with Log _ | HandOver _ | Load _ | Register _ | TakeJob | Plan => True | _ => False end -> wp (step coins l m) (below_ok c m e) e w) as Hq.
  { intros Hk. destruct (wp_run _ _ _ _ (coherent_step coins l mp c m e w Hco Hw Hl)) as (r & e' & w' & E & _).
    eapply wp_of_run; [exact E|]. intros m' ns ->. by eapply beneath_client. }
  destruct l; try by apply Hq.
  - by eapply below_begin.
  - by eapply below_apply.
  - by eapply below_rotate.
  - by eapply below_read.
  - by eapply below_read.
  - by eapply below_write_table.
  - by eapply below_commit_table.
  - by eapply below_merge.
  - by eapply below_commit_plan.
Qed.
End base.
