(* ===== verification/ReadersSteps.v ===== *)
(** * Overlapping reads, step by step

    Every step of a read or a scan and every step of the machine under it keeps the
    invariant of ReadersInv.v, with observations that its windows allow. *)

From S2P Require Import Prelude OrdMap GoIO IOLogic MemTable Versions SSTable Table Merge Metrics FileNames EngineState EngineLogic EngineInv Engine EngineRead EngineFlush EngineLogs EngineWrite EngineCompact Store Scan ScanRead EngineFrame Interleave Linear InterleaveInv InterleaveFrame InterleaveSteps Readers ReadersInv ReadersBase.
From S2P Require Wal SkipList Bloom.
From stdpp Require Import base gmap sets list strings numbers fin_maps sorting.
Open Scope nat_scope.

Section steps.
Context `{FM : Bloom.FloatMath} `{FL : Flate} `{HFL : !FlateLaws FL}.
Context (coins : N -> list bool).

(** ** Steps of a read or a scan *)

Definition moves (W : windows) (c : contents) (r : overlap * list onote + error) (e' : Engine) (w' : world) : Prop :=
  exists o' ns, r = inl (o', ns) /\ w_faults w' = [] /\ olegal ns W /\ overlapping (all_windows ns W) c o' e' w'.

Lemma overlapping_remetered W c o e e' w w' :
  overlapping W c o e w -> remetered e e' -> w_files w' = w_files w -> overlapping W c o e' w'.
Proof.
  intros [Hb [Hc Hh] [Hk Hd] Hm Hr] He Hw. split; [by eapply coherent_remetered|..]; destruct He as (mt & k & ->); try done.
  intros rid x Hx. destruct (Hr rid x Hx) as (win & H1 & H2). exists win. split; [done|].
  eapply reader_lives; [exact H2|done|done|apply lives_refl|done..].
Qed.

(** The window of one call may change. *)
Definition windows_but (rid : nat) (W W' : windows) : Prop := W'.1 = W.1 /\ forall i, i <> rid -> W'.2 !! i = W.2 !! i.

(** A call goes on to [y]. *)
Lemma overlapping_to W W' c o e w rid y win s w' :
  overlapping W c o e w -> windows_but rid W W' -> W'.2 !! rid = Some win ->
  lives (e_store e) s -> coherent W.1 c (o_machine o) (with_store s e) w' -> apart (o_machine o) (with_store s e) ->
  balanced (held_of y ++ holders (delete rid (o_readers o))) (with_store s e) ->
  reader_ok W.1 win (set_reader rid (Some y) o) (with_store s e) y ->
  overlapping W' c (set_reader rid (Some y) o) (with_store s e) w'.
Proof.
  intros [Hb Hbal Hap Hm Hr] [E1 E2] Hwin Hl Hco Hap' Hbal' Hy. split; rewrite ?E1; [done| |done|done|].
  - eapply balanced_perm; [symmetry; apply holders_insert|done].
  - intros i z Hz. cbn in Hz. destruct (decide (rid = i)) as [<-|Hne].
    + rewrite lookup_insert_eq in Hz. injection Hz as <-. by exists win.
    + rewrite lookup_insert_ne in Hz by done. destruct (Hr i z Hz) as (win' & E & Hok). exists win'.
      rewrite E2 by done. split; [done|]. by eapply reader_lives.
Qed.

(** A call ends, and holds no table. *)
Lemma overlapping_out W W' c o e w rid x :
  overlapping W c o e w -> windows_but rid W W' -> o_readers o !! rid = Some x -> held_of x = [] ->
  overlapping W' c (set_reader rid None o) e w.
Proof.
  intros [Hb Hbal Hap Hm Hr] [E1 E2] Hx Hh. split; rewrite ?E1; [done| |done|done|].
  - eapply balanced_perm; [|exact Hbal]. cbn. by rewrite (holders_delete rid x _ Hx), Hh.
  - intros i z Hz. cbn in Hz. apply lookup_delete_Some in Hz as [Hne Hz]. destruct (Hr i z Hz) as (win & E & Hok).
    exists win. by rewrite E2.
Qed.

Lemma windows_but_refl rid W : windows_but rid W W.
Proof. by split. Qed.

Lemma windows_but_insert rid W win : windows_but rid W (W.1, <[rid := win]> W.2).
Proof. split; [done|]. intros i Hi. cbn. by rewrite lookup_insert_ne. Qed.

Lemma windows_but_delete rid W : windows_but rid W (W.1, delete rid W.2).
Proof. split; [done|]. intros i Hi. cbn. by rewrite lookup_delete_ne. Qed.

Section call.
Context (W : windows) (c : contents) (o : overlap) (e : Engine) (w : world) (rid : nat) (x : reader) (win : window).
Context (Ho : overlapping W c o e w) (Hw : w_faults w = []) (Hx : o_readers o !! rid = Some x) (Hwin : W.2 !! rid = Some win).

(** When no table object changes. *)
Lemma moves_to y win' ns w' :
  held_of x = held_of y -> w_files w' = w_files w -> w_faults w' = [] ->
  olegal ns W -> windows_but rid W (all_windows ns W) -> (all_windows ns W).2 !! rid = Some win' ->
  reader_ok W.1 win' (set_reader rid (Some y) o) e y ->
  wp (eret (set_reader rid (Some y) o, ns)) (moves W c) e w'.
Proof.
  intros Hh Hf Hw' Hns Hbut Hwin' Hy. wp_step. eexists _, _. split_and!; [done|done|done|].
  rewrite <- (with_store_id e) in Hy |- *. eapply overlapping_to; try done.
  - apply lives_refl.
  - rewrite with_store_id. eapply coherent_remetered; [apply Ho|apply remetered_refl|done].
  - rewrite with_store_id. apply Ho.
  - rewrite with_store_id, <- Hh. eapply balanced_perm; [by apply (holders_delete rid x)|]. apply Ho.
Qed.

Lemma moves_goto y w' :
  held_of x = held_of y -> w_files w' = w_files w -> w_faults w' = [] -> reader_ok W.1 win (set_reader rid (Some y) o) e y ->
  wp (eret (set_reader rid (Some y) o, [])) (moves W c) e w'.
Proof. intros Hh Hf Hw' Hy. eapply moves_to; try done. Qed.

(** A table is released. *)
Lemma release_ok y tid :
  held_of x = tid :: held_of y -> (forall e', reader_ok W.1 win (set_reader rid (Some y) o) e' y) ->
  wp (table_call Release tid;;? eret (set_reader rid (Some y) o, [])) (moves W c) e w.
Proof.
  intros Hh Hy. wp_step. eapply wp_mono.
  { apply (wp_release W.1 c (o_machine o) (held_of y ++ holders (delete rid (o_readers o))) tid e w); [apply Ho|done| |apply Ho].
    eapply balanced_perm; [|apply Ho]. by rewrite (holders_delete rid x _ Hx), Hh. }
  intros ? e' w' ([err ->] & Hw' & s & -> & Hl & Hco & Hbal' & Hap'). wp_step. eexists _, []. split_and!; [done|done|done|].
  by eapply overlapping_to.
Qed.
End call.

Lemma newer_answers best best' r rest key ms :
  strip <$> best' = newer (strip <$> best) (strip <$> r) -> answers (newer best (newer r rest)) key ms -> answers (newer best' rest) key ms.
Proof. intros E. apply answers_strip. by rewrite newer_assoc, !strip_newer, E. Qed.

(** One table. *)
Lemma wp_look_table key tid rs best e w :
  readable e tid rs ->
  wp (consider_tables key unboundedSeq best [tid]) (fun r e' w' => e' = e /\ w_files w' = w_files w /\
    ((exists b, r = inl b /\ strip <$> b = newer (strip <$> best) (strip <$> newest key unboundedSeq rs)) \/ (exists err, r = inr err) /\ w_faults w <> [])) e w.
Proof.
  intros Hr. apply (wp_consider_tables key unboundedSeq [tid] [rs]); [by repeat constructor| |].
  - intros b w' Hw' Hb. cbn [concat] in Hb. rewrite app_nil_r in Hb. split_and!; [done|done|]. left. by exists b.
  - intros err w' Hw' Hf. split_and!; [done|done|]. right. by split; [eexists|].
Qed.

Lemma pinned_refl s : pinned s [] s.
Proof. intros tid. unfold count. cbn. destruct (s !! tid); cbn; [by rewrite pin_0|done]. Qed.

Lemma readable_sorted e tids rss : Forall2 (readable e) tids rss -> Forall sorted_records rss.
Proof. intros H. apply Forall_lookup. intros i rs E. destruct (Forall2_lookup_r _ _ _ _ _ H E) as (tid & _ & t & _ & Hh & _). apply Hh. Qed.

(** *** Reads *)

Lemma look_ok W c o e w rid key held mem imm tables best :
  overlapping W c o e w -> w_faults w = [] -> o_readers o !! rid = Some (Looking key held mem imm tables best) ->
  wp (proceed rid (Looking key held mem imm tables best) o) (moves W c) e w.
Proof.
  intros Ho Hw Hx. destruct (ov_readers _ _ _ _ _ Ho rid _ Hx) as (win & Hwin & Hok). destruct win as [ms|]; [|done].
  destruct Hok as (Hk & Hin & irs & trs & (Hsuf & H3 & H4) & H5). destruct mem as [id|]; cbn [proceed].
  - destruct H5 as [-> Haw]. destruct (awaits_shows _ _ _ _ _ _ _ Haw Hin) as (mt & rs & mp' & Hmt & Hmem & Hmp' & Hsh).
    wp_step. eapply wp_lift_option; [exact Hmt|]. cbv beta iota. wp_step. eapply wp_consider_mem; [exact Hmem|].
    intros b Hb. eapply moves_goto; try done. split_and!; [done|done|]. exists irs, trs. split; [done|].
    eapply newer_answers; [exact Hb|]. cbn [newer]. rewrite <- newest_app. pose proof (shows_answer _ _ key Hsh Hk) as Ha.
    unfold view in Ha. cbn in Ha. rewrite rev_involutive in Ha. by exists mp'.
  - destruct imm as [|mt imm].
    + apply Forall2_nil_inv_l in H3 as ->. cbn [app concat] in H5. destruct tables as [|tid tables].
      * apply Forall2_nil_inv_l in H4 as ->. cbn in H5. rewrite newer_None_r in H5. eapply moves_goto; try done.
        destruct H5 as (mp & Hmp & Ha). exists mp. split; [done|]. rewrite <- Ha. unfold answer, live. destruct best; [|done]. cbn.
        by case_bool_decide.
      * apply Forall2_cons_inv_l in H4 as (rs & trs' & Hrd & H4 & ->). do 2 wp_step.
        eapply wp_mono; [apply (wp_calm _ _ e w (calm_consider_tables key unboundedSeq best [tid]) (wp_look_table key tid rs best e w Hrd))|].
        intros r e' w' ((-> & Hw' & [(b & -> & Hb')|[_ ?]]) & _ & Hf); [|done]. specialize (Hf Hw). eapply moves_goto; try done.
        split_and!; [done|done|]. exists [], trs'. split; [split_and!; [by eapply suffix_cons_l|done|done]|].
        eapply newer_answers; [exact Hb'|]. cbn [concat app]. by rewrite <- newest_app.
    + apply Forall2_cons_inv_l in H3 as (rs & irs' & Hmem & H3 & ->). wp_step. eapply wp_consider_mem; [exact Hmem|].
      intros b Hb'. eapply moves_goto; try done. split_and!; [done|done|]. exists irs', trs. split; [done|].
      eapply newer_answers; [exact Hb'|]. rewrite <- newest_app. cbn [concat] in H5. by rewrite <- app_assoc in H5.
Qed.

Lemma leave_ok W c o e w rid key held r :
  overlapping W c o e w -> w_faults w = [] -> o_readers o !! rid = Some (Leaving key held r) ->
  wp (proceed rid (Leaving key held r) o) (moves W c) e w.
Proof.
  intros Ho Hw Hx. destruct (ov_readers _ _ _ _ _ Ho rid _ Hx) as (win & Hwin & Hok). destruct win as [ms|]; [|done].
  destruct held as [|tid held]; cbn [proceed]; [|by eapply (release_ok W c o e w rid _ _ Ho Hw Hx Hwin (Leaving key held r))].
  wp_step. apply wp_recordGet. intros e' He'. wp_step. eexists _, [_]. split_and!; [done|done| |].
  - cbn. unfold maps_of. rewrite Hwin. by split.
  - eapply overlapping_remetered; [|exact He'|done]. by eapply overlapping_out; [|apply windows_but_delete| |].
Qed.

(** *** Scans *)

Lemma open_ok W c o e w rid start end_ held mem imm tables h :
  overlapping W c o e w -> w_faults w = [] -> o_readers o !! rid = Some (Opening start end_ held mem imm tables h) ->
  wp (proceed rid (Opening start end_ held mem imm tables h) o) (moves W c) e w.
Proof.
  intros Ho Hw Hx. destruct (ov_readers _ _ _ _ _ Ho rid _ Hx) as (win & Hwin & Hok). destruct win as [ms|]; [|done].
  destruct Hok as (Hin & irs & trs & (Hsuf & H3 & H4) & H5).
  assert (forall l rest mem' imm' tables' irs' trs' (y : E (list scanHeapItem)),
    opens ms start end_ h (l ++ rest) -> (forall ls, hinv h ls -> wp y (pushed (coming h ls) l e w) e w) ->
    sources e held imm' tables' irs' trs' -> rest = concat (slice start end_ unboundedSeq <$> irs') ++ concat (visible start end_ unboundedSeq <$> trs') ->
    mem' = None ->
    wp (let? r := etry y in
        match r with
        | inr err => eret (set_reader rid (Some (Closing held (Some err))) o, [])
        | inl h' => eret (set_reader rid (Some (Opening start end_ held mem' imm' tables' h')) o, [])
        end) (moves W c) e w) as Hpush.
  { intros l rest mem' imm' tables' irs' trs' y Hop Hy Hso -> ->. do 2 wp_step.
    eapply wp_mono; [by eapply wp_opens|]. intros r e' w' (-> & Hf & Hw' & h' & -> & Hop').
    eapply moves_goto; try done. split; [done|]. by exists irs', trs'. }
  destruct mem as [id|]; cbn [proceed].
  - destruct H5 as [-> Haw]. destruct (awaits_shows _ _ _ _ _ _ _ Haw Hin) as (mt & rs & mp' & Hmt & Hmem & Hmp' & Hsh).
    wp_step. eapply wp_lift_option; [exact Hmt|]. cbv beta iota. eapply Hpush; [|intros ls Hls; by apply wp_pushed_ewrap, wp_push_mem|by split_and!|done|done].
    exact (opens_nil mp' ms start end_ (MkContents rs irs trs) Hmp' Hsh (readable_sorted _ _ _ H4)).
  - destruct imm as [|mt imm].
    + apply Forall2_nil_inv_l in H3 as ->. cbn [app concat fmap list_fmap] in H5. destruct tables as [|tid tables].
      * apply Forall2_nil_inv_l in H4 as ->. destruct (opens_lists _ _ _ _ held H5) as (kvs & Hkvs & Hl).
        eapply moves_to; try done.
        -- apply windows_but_insert.
        -- apply lookup_insert_eq.
        -- split; [done|]. exists kvs. unfold maps_of. by rewrite Hwin.
      * apply Forall2_cons_inv_l in H4 as (rs & trs' & Hrd & H4 & ->).
        apply (Hpush (visible start end_ unboundedSeq rs) (concat (visible start end_ unboundedSeq <$> trs')) None [] tables [] trs'); [exact H5| | |done|done].
        { intros ls Hls. rewrite <- (app_nil_r (visible _ _ _ rs)). apply (wp_push_tables start end_ unboundedSeq h ls [tid] [rs]); [done|by repeat constructor]. }
        split_and!; [by eapply suffix_cons_l|done|done].
    + apply Forall2_cons_inv_l in H3 as (rs & irs' & Hmem & H3 & ->).
      eapply (Hpush (slice start end_ unboundedSeq rs) _ None imm tables irs' trs); [| |by split_and!|done|done].
      * cbn [fmap list_fmap concat] in H5. by rewrite app_assoc.
      * intros ls Hls. rewrite <- (app_nil_r (slice _ _ _ rs)). apply (wp_push_imm start end_ unboundedSeq h ls [mt] [rs]); [done|by repeat constructor].
Qed.

Lemma close_ok W c o e w rid held f :
  overlapping W c o e w -> w_faults w = [] -> o_readers o !! rid = Some (Closing held f) ->
  wp (proceed rid (Closing held f) o) (moves W c) e w.
Proof.
  intros Ho Hw Hx. destruct (ov_readers _ _ _ _ _ Ho rid _ Hx) as (win & Hwin & Hok).
  assert (f = None) as -> by (by destruct win).
  destruct held as [|tid held]; cbn [proceed].
  - wp_step. eexists _, [_]. split_and!; [done|done|done|]. by eapply overlapping_out; [|apply windows_but_delete| |].
  - eapply (release_ok W c o e w rid _ _ Ho Hw Hx Hwin (Closing held None)); [done|]. intros e'. by destruct win.
Qed.

Lemma scan_call_ok W c o e w rid close it :
  overlapping W c o e w -> w_faults w = [] -> o_readers o !! rid = Some (Scanning it) -> wp (scan_call rid close it o) (moves W c) e w.
Proof.
  intros Ho Hw Hx. destruct (ov_readers _ _ _ _ _ Ho rid _ Hx) as (win & Hwin & Hok). destruct win as [|ls]; [done|].
  destruct Hok as (Hop & kvs & Hkvs & Hl). unfold scan_call. destruct close.
  - rewrite Hop. by eapply moves_goto.
  - wp_step. apply wp_lift. pose proof (gives_Next unboundedSeq it kvs Hl w) as Hg.
    destruct (ScanIterator_Next it w) as [[[it' r]|?|] w1]; [|done|done]. destruct Hg as [Hf [[([Et Ec] & Er & Hl') Hq]|[_ ?]]]; [|done].
    cbn in Er. subst r. eapply moves_to; try done.
    + by apply Hq.
    + split; [|done]. exists kvs. split; [|done]. unfold listings_of. by rewrite Hwin.
    + apply windows_but_insert.
    + apply lookup_insert_eq.
    + split; [exact (eq_trans Ec Hop)|]. exists (tail kvs). split; [|done]. unfold listings_of. rewrite Hwin.
      apply list_elem_of_fmap. exists kvs. split; [done|]. by apply list_elem_of_filter.
Qed.

Lemma proceed_ok W c o e w rid x :
  overlapping W c o e w -> w_faults w = [] -> o_readers o !! rid = Some x -> wp (proceed rid x o) (moves W c) e w.
Proof.
  intros Ho Hw Hx. destruct x; [by apply look_ok|by apply leave_ok|by apply open_ok| |by apply close_ok].
  cbn [proceed]. wp_step. by exists o, [].
Qed.

(** *** Beginnings *)

Lemma overlapping_windows W W' c o e w rid :
  overlapping W c o e w -> windows_but rid W W' -> o_readers o !! rid = None -> overlapping W' c o e w.
Proof.
  intros [Hb Hbal Hap Hm Hr] [E1 E2] Hx. split; rewrite ?E1; try done. intros i z Hz. destruct (Hr i z Hz) as (win & E & Hok).
  exists win. rewrite E2; [done|]. intros ->. by rewrite Hx in Hz.
Qed.

(** The pointers a call takes under the lock. *)
Lemma sources_now c e w s :
  inv c (with_store s e) w -> sources (with_store s e) (allTablesLocked e) (im_mt <$> e_imm e) (allTablesLocked e) (c_imm c) (c_tables c).
Proof.
  intros Hi. split_and!; [done| |exact (inv_readable c (with_store s e) w [] s Hi (pinned_refl s))].
  apply Forall2_fmap_l. eapply Forall2_impl; [apply (inv_imm _ _ _ Hi)|]. by intros ie rs [].
Qed.

Lemma awaits_now W c o e w s rid x :
  overlapping W c o e w -> awaits W.1 [W.1] (set_reader rid x o) (with_store s e) (e_memId e) (c_imm c) (c_tables c).
Proof.
  intros Ho. pose proof (ov_base _ _ _ _ _ Ho) as Hb. exists (e_mem e), (c_mem c). split_and!; [apply Ho|apply (so_inv _ _ _ _ (proj1 Hb))|].
  left. split; [done|]. destruct (coherent_synced _ _ _ _ _ Hb). by split.
Qed.

Lemma begin_ok W c o e w rid y :
  overlapping W c o e w -> w_faults w = [] -> o_readers o !! rid = None -> held_of y = allTablesLocked e ->
  (forall s, inv c (with_store s e) w -> reader_ok W.1 (Maps [W.1]) (set_reader rid (Some y) o) (with_store s e) y) ->
  wp (acquire_all (allTablesLocked e);;? eret (set_reader rid (Some y) o, [Entered rid])) (moves W c) e w.
Proof.
  intros Ho Hw Hx Hh Hy. wp_step. eapply wp_mono; [eapply wp_acquire; apply Ho|]. intros ? e' w' (-> & -> & s & -> & Hl & Hco & Hbal & Hap).
  wp_step. eexists _, [_]. split_and!; [done|done|done|]. eapply overlapping_to; [exact Ho|apply windows_but_insert|apply lookup_insert_eq|done..| |].
  - by rewrite Hh, delete_id.
  - apply Hy, (so_inv _ _ _ _ (proj1 Hco)).
Qed.

Lemma enter_ok W c o e w rid key :
  overlapping W c o e w -> w_faults w = [] -> o_readers o !! rid = None -> wp (enter rid key o) (moves W c) e w.
Proof.
  intros Ho Hw Hx. destruct key as [|b key]; cbn [enter].
  - wp_step. apply wp_recordGet. intros e' He'. wp_step. eexists _, [_; _]. split_and!; [done|done| |].
    + split; [done|]. split; [|done]. exists W.1. split; [|done]. unfold maps_of. cbn. rewrite lookup_insert_eq. by left.
    + eapply overlapping_remetered; [|exact He'|done]. eapply overlapping_windows; [exact Ho| |exact Hx]. cbn.
      split; [done|]. intros i Hi. cbn. by rewrite lookup_delete_ne, lookup_insert_ne.
  - do 2 wp_step. rewrite (so_open _ _ _ _ (proj1 (ov_base _ _ _ _ _ Ho))). cbv iota. apply begin_ok; [done..|]. intros s Hi.
    split_and!; [done|by left|]. exists (rev (c_imm c)), (c_tables c). destruct (sources_now c e w s Hi) as (H1 & H2 & H3).
    split; [split_and!; [done|by apply Forall2_rev|done]|]. split; [done|]. rewrite rev_involutive. by eapply awaits_now.
Qed.

Lemma enter_scan_ok W c o e w rid start end_ :
  overlapping W c o e w -> w_faults w = [] -> o_readers o !! rid = None -> wp (enter_scan rid start end_ o) (moves W c) e w.
Proof.
  intros Ho0 Hw Hx. unfold enter_scan, inc. do 4 wp_step. set (e1 := set_metrics _ e).
  assert (overlapping W c o e1 w) as Ho.
  { eapply overlapping_remetered; [exact Ho0| |done]. by eexists _, _. }
  rewrite (so_open _ _ _ _ (proj1 (ov_base _ _ _ _ _ Ho))). cbv iota. apply begin_ok; [done..|]. intros s Hi.
  split; [by left|]. exists (c_imm c), (c_tables c). split; [by eapply sources_now|]. split; [done|]. by eapply awaits_now.
Qed.

(** ** Steps of the machine below *)

Definition maps_in (win win' : window) (mp mp' : gmap bytes bytes) : Prop :=
  match win, win' with
  | Maps ms, Maps ms' => ms ⊆ ms' /\ (mp ∈ ms -> mp' ∈ ms')
  | Listings ls, Listings ls' => ls' = ls
  | _, _ => False
  end.

Lemma all_windows_notes ns W :
  (all_windows (Note <$> ns) W).1 = effects ns W.1 /\
  forall rid win, W.2 !! rid = Some win -> exists win', (all_windows (Note <$> ns) W).2 !! rid = Some win' /\ maps_in win win' W.1 (effects ns W.1).
Proof.
  revert W. induction ns as [|n ns IH]; intros W; [by split; [|intros rid [] E; eexists; split]|]. cbn.
  destruct (IH (effect n W.1, grow (effect n W.1) <$> W.2)) as [H1 H2]. split; [exact H1|]. intros rid win E.
  destruct (H2 rid (grow (effect n W.1) win)) as (win' & E' & Hm); [cbn; by rewrite lookup_fmap, E|]. exists win'. split; [exact E'|].
  destruct win as [ms|ls], win' as [ms'|ls']; [|done..]. cbn in Hm. destruct Hm as [Hsub Hin].
  split; [intros x Hx; apply Hsub; by right|]. intros _. apply Hin. by left.
Qed.

Lemma olegal_notes ns W : legal ns W.1 -> olegal (Note <$> ns) W.
Proof. revert W. induction ns as [|n ns IH]; intros W; [done|]. intros [H1 H2]. split; [done|]. by apply IH. Qed.

(** After a write, the versions are still without doubles and as fresh. *)
Lemma synced_applied mp c m e m' e' cid key value typ seq rs :
  synced mp c m e -> m_clients m !! cid = Some (Logged key value typ seq) -> (seq <= e_seq e)%N -> e_seq e' = e_seq e ->
  (forall i x y k k' s, m_clients m' !! i = Some x -> writing x = Some (k, s) -> m_clients m !! cid = Some y -> writing y = Some (k', s) -> False) ->
  (forall i x k s, m_clients m' !! i = Some x -> writing x = Some (k, s) -> m_clients m !! i = Some x) ->
  (let rec := mut_rec (mutation_of typ key value seq) in forall s, s ∈ rs <-> s = rec \/ s ∈ c_mem c /\ Key s <> Key rec) ->
  synced (effect (apply_effect key value typ) mp) (MkContents rs (c_imm c) (c_tables c)) m' e'.
Proof.
  intros [Hu Hq Hb Hf Hmap] Hcid Hle Es Hother Hold Hrs. cbv zeta in Hrs. set (rec := mut_rec (mutation_of typ key value seq)) in *.
  assert (Seq rec = seq) as Sr by apply mut_rec_seq.
  assert (fresh_for c rec) as Hfresh.
  { pose proof (Hf cid _ key seq Hcid eq_refl) as H. unfold fresh_seq, fresh_for in *. by rewrite Sr. }
  pose proof (put_reads_mem c rec rs Hu Hfresh Hrs) as Hput. set (c' := MkContents rs (c_imm c) (c_tables c)) in *.
  assert (forall s, s ∈ view c' -> s = rec \/ s ∈ view c) as Hv.
  { intros s. rewrite (view_split c'), (view_split c), !elem_of_app. cbn. rewrite Hrs. naive_solver. }
  split.
  - by apply (unique_put c rec rs).
  - rewrite Es, Forall_forall in *. intros s [->|H]%Hv; [by rewrite Sr|by apply Hq].
  - by rewrite Es.
  - intros i x k s Hx Hw. destruct (Hf i x k s (Hold i x k s Hx Hw) Hw) as [H1 H2]. split; [exact H1|].
    apply Forall_forall. intros r [->|[Hr _]]%Hrs; [|rewrite Forall_forall in H2; by apply H2]. rewrite Sr. cbn. intros <-. by eapply Hother.
  - intros k. rewrite <- (effect_of_mutation key value typ seq). apply (put_map c rec c' mp Hput); [|done]. rewrite Sr. by etrans.
Qed.

Lemma synced_still mp c m e m' e' :
  synced mp c m e -> (e_seq e <= e_seq e')%N -> (e_seq e' <= unboundedSeq)%N -> writers_from m e m' -> synced mp c m' e'.
Proof.
  intros [Hu Hq Hb Hf Hmap] Hs Hb' Hw. split; [done| |done| |done].
  - eapply Forall_impl; [exact Hq|]. cbn. lia.
  - intros cid x k s Hx Hwr. destruct (Hw cid x k s Hx Hwr) as [(y & Hy & Hwy)|Hlt]; [by eapply Hf|].
    apply fresh_above. eapply Forall_impl; [exact Hq|]. cbn. lia.
Qed.

(** A MemTable still to be looked in. *)
Lemma awaits_below W c c' o e w m' e' w' ns ms ms' id imm trs :
  overlapping W c o e w -> coherent (effects ns W.1) c' m' e' w' -> beneath (o_machine o) e m' e' ->
  mem_moves c (o_machine o) e ns m' e' -> W.1 ∈ ms -> ms ⊆ ms' -> awaits W.1 ms o e id imm trs ->
  awaits (effects ns W.1) ms' (MkOverlap m' (o_readers o) (remember e' (o_mems o))) e' id imm trs.
Proof.
  intros [Hb _ _ Hm _] Hco' Hbn Hmv Hin Hsub (mt & rs & Hmt & Hmem & H5). pose proof Hb as [Hs Hp]. pose proof (so_inv _ _ _ _ Hs) as Hi.
  unfold awaits. cbn [o_mems o_machine].
  pose proof (bn_gen _ _ _ _ Hbn) as Hgen. pose proof (inv_ids_gen _ _ _ Hi) as Hids. apply Forall_cons in Hids as [Hid _].
  destruct (decide (id = e_memId e')) as [->|Hne].
  - (* still active *)
    assert (e_memId e' = e_memId e) as Eid.
    { destruct Hmv as [?|? ? ? ? ? ? ? ? ? ?|E _ _ _]; [done|done|]. exfalso. rewrite E in H5. destruct H5 as [[? _]|(_ & ? & _)]; lia. }
    destruct H5 as [[_ Hsy]|(Hn & _)]; [|done]. rewrite Eid, Hm in Hmt. injection Hmt as <-.
    destruct Hmv as [_ Em He Hwr|cid k v typ seq rs' Hcid Hdone Hoth _ Es He Hmem' Hrs|E _ _ _].
    + exists (e_mem e'), rs. unfold remember. rewrite lookup_insert_eq, Em. split_and!; [done|done|]. left. split; [done|]. rewrite He.
      apply (synced_still _ _ (o_machine o) e); [done|apply Hbn|apply (so_seq _ _ _ _ (proj1 Hco'))|done].
    + exists (e_mem e'), rs'. unfold remember. rewrite lookup_insert_eq. split_and!; [done|done|]. left. split; [done|]. rewrite He.
      rewrite (mem_holds_unique_records _ _ _ Hmem (inv_mem _ _ _ Hi)) in Hsy.
      apply (synced_applied W.1 (MkContents (c_mem c) imm trs) (o_machine o) e m' e' cid k v typ seq rs'); try done.
      * by apply (pl_writers _ _ _ _ Hp cid _ k seq Hcid).
      * intros i y z k1 k2 s Hy Hwy Hz Hwz. destruct (decide (i = cid)) as [->|Hne]; [by rewrite (Hdone y Hy) in Hwy|].
        rewrite Hoth in Hy by done. by apply Hne, (pl_distinct _ _ _ _ Hp i cid y z k1 k2 s).
      * intros i y k1 s Hy Hwy. destruct (decide (i = cid)) as [->|Hne]; [by rewrite (Hdone y Hy) in Hwy|]. by rewrite <- Hoth.
    + exfalso. rewrite E in Eid. lia.
  - (* no longer active *)
    exists mt, rs. unfold remember. rewrite lookup_insert_ne by done. split_and!; [done|done|]. right. split; [done|].
    destruct H5 as [[-> Hsy]|(_ & Hle & mp' & Hmp' & Ha)]; (split; [lia|]).
    + exists W.1. split; [by apply Hsub|]. by eapply synced_shows.
    + exists mp'. split; [by apply Hsub|done].
Qed.

(** A step of the machine leaves every read and every scan where it can answer. *)
Lemma reader_below W c c' o e w m' e' w' ns win win' x :
  overlapping W c o e w -> coherent (effects ns W.1) c' m' e' w' -> beneath (o_machine o) e m' e' ->
  mem_moves c (o_machine o) e ns m' e' -> reader_ok W.1 win o e x -> maps_in win win' W.1 (effects ns W.1) ->
  reader_ok (effects ns W.1) win' (MkOverlap m' (o_readers o) (remember e' (o_mems o))) e' x.
Proof.
  intros Ho Hco' Hbn Hmv Hx Hm.
  assert (forall held imm tables irs trs, sources e held imm tables irs trs -> sources e' held imm tables irs trs) as Hso.
  { intros held imm tables irs trs H. eapply sources_lives; [exact H|apply Hbn]. }
  destruct win as [ms|ls], win' as [ms'|ls']; try done.
  2: { cbn in Hm. subst ls'. by destruct x. }
  destruct Hm as [Hsub Hin'].
  destruct x as [key held mem imm tables best|key held r|start end_ held mem imm tables h| |]; try done.
  - destruct Hx as (H1 & Hin & irs & trs & H3 & H4). split_and!; [done|auto|]. exists irs, trs. split; [by apply Hso|].
    destruct mem as [id|]; [|destruct H4 as (mp' & ? & ?); exists mp'; by split; [apply Hsub|]].
    destruct H4 as [H4 H5]. split; [done|]. by eapply awaits_below.
  - destruct Hx as (mp' & H1 & H2). exists mp'. split; [by apply Hsub|done].
  - destruct Hx as (Hin & irs & trs & H3 & H4). split; [auto|]. exists irs, trs. split; [by apply Hso|].
    destruct mem as [id|]; [|destruct H4 as (mp' & c0 & ls & ? & H5); exists mp', c0, ls; by split; [apply Hsub|]].
    destruct H4 as [H4 H5]. split; [done|]. by eapply awaits_below.
Qed.

Definition osteps_to (W : windows) (c : contents) (o : overlap) (r : option (overlap * list onote) + error) (e' : Engine) (w' : world) : Prop :=
  w_faults w' = [] /\ match r with
  | inl None => overlapping W c o e' w'
  | inl (Some (o', ns)) => olegal ns W /\ exists c', overlapping (all_windows ns W) c' o' e' w'
  | inr _ => False
  end.

Lemma base_ok W c o e w l :
  overlapping W c o e w -> w_faults w = [] -> step_within l (o_machine o) e w -> wp (ostep coins (Base l) o) (osteps_to W c o) e w.
Proof.
  intros Ho Hw Hl. pose proof (ov_base _ _ _ _ _ Ho) as Hb. cbn [ostep]. wp_step.
  destruct (wp_run _ _ _ _ (coherent_step coins l W.1 c (o_machine o) e w Hb Hw Hl)) as (r & e' & w' & E & Hst).
  pose proof (step_quiet coins _ _ _ _ _ _ _ E Hw) as Hw'. eapply wp_of_run; [exact E|]. destruct r as [[[m' ns]|]|err]; [| |done].
  - destruct Hst as (? & ? & c' & [= <- <-] & Hleg & Hco). do 2 wp_step. split; [done|].
    split; [by apply olegal_notes|]. exists c'. destruct (all_windows_notes ns W) as [E1 E2].
    destruct (wp_at _ _ _ _ _ _ _ (step_below coins l W.1 c (o_machine o) e w Hb Hw Hl) E m' ns eq_refl) as [Hbn Hmv].
    split; cbn [o_machine o_readers o_mems]; rewrite ?E1.
    + exact Hco.
    + apply (bn_balanced _ _ _ _ Hbn), Ho.
    + apply (bn_apart _ _ _ _ Hbn), Ho.
    + apply lookup_insert_eq.
    + intros rid x Hx. destruct (ov_readers _ _ _ _ _ Ho rid x Hx) as (win & Hwin & Hok).
      destruct (E2 rid win Hwin) as (win' & Hwin' & Hm). exists win'. split; [done|]. by eapply reader_below.
  - destruct (step_stays _ _ _ _ _ _ _ E) as [-> ->]. do 2 wp_step. by split.
Qed.

Lemma ostep_ok W c o e w l :
  overlapping W c o e w -> w_faults w = [] -> match l with Base l => step_within l (o_machine o) e w | _ => True end ->
  wp (ostep coins l o) (osteps_to W c o) e w.
Proof.
  intros Ho Hw Hl.
  assert (forall x, wp x (moves W c) e w -> wp (let? r := x in eret (Some r)) (osteps_to W c o) e w) as Hgo.
  { intros x Hx. wp_step. eapply wp_mono; [exact Hx|]. intros r e' w' (o' & ns & -> & Hw' & H1 & H2). wp_step. split_and!; [done|done|]. by exists c. }
  assert (overlapping W c o e w -> wp (eret None) (osteps_to W c o) e w) as Hstay by (intros _; wp_step; by split).
  destruct l as [l|rid key|rid start end_|rid|rid|rid]; [by apply base_ok|..]; cbn [ostep]; destruct (o_readers o !! rid) as [x|] eqn:Ex; try by apply Hstay.
  - apply Hgo. by apply enter_ok.
  - apply Hgo. by apply enter_scan_ok.
  - apply Hgo. by apply proceed_ok.
  - destruct x; try by apply Hstay. apply Hgo. by apply scan_call_ok.
  - destruct x; try by apply Hstay. apply Hgo. by apply scan_call_ok.
Qed.

Lemma overlapping_runs ls W c o e w :
  overlapping W c o e w -> w_faults w = [] -> oruns_within coins ls o e w ->
  exists e' w' o' ns c', oruns coins ls o e w = (Ok (e', inl (o', ns)), w') /\ olegal ns W /\
    overlapping (all_windows ns W) c' o' e' w' /\ w_faults w' = [].
Proof.
  revert W c o e w. induction ls as [|l ls IH]; intros W c o e w Ho Hw; [by intros _; exists e, w, o, [], c|].
  intros [Hl Hls]. destruct (wp_run _ _ _ _ (ostep_ok W c o e w l Ho Hw Hl)) as (r & e1 & w1 & E & Hw1 & Hst).
  rewrite E in Hls. cbn [oruns]. unfold ebind, bind. rewrite E. destruct r as [[[o1 ns]|]|err]; [| |done].
  - destruct Hst as (Hleg & c1 & Ho1). destruct (IH _ _ _ _ _ Ho1 Hw1 Hls) as (e2 & w2 & o2 & ns2 & c2 & -> & Hleg2 & Ho2 & Hw2).
    exists e2, w2, o2, (ns ++ ns2), c2. rewrite olegal_app, all_windows_app. by split_and!.
  - destruct (IH _ _ _ _ _ Hst Hw1 Hls) as (e2 & w2 & o2 & ns2 & c2 & -> & H). by exists e2, w2, o2, ns2, c2.
Qed.

(** A store at rest, whose tables nobody holds. *)
Lemma rest_overlapping mp c e w :
  coherent mp c idle e w -> balanced [] e -> apart idle e -> overlapping (mp, ∅) c (at_rest e) e w.
Proof. intros Hc Hb Ha. split; [done|exact Hb|exact Ha|apply lookup_insert_eq|done]. Qed.

(** C5: reads and scans without the lock.  From a store in order, whose reference
    counts are exact, take any schedule of the critical sections of writers,
    snapshots and the flush and compaction workers and of what any number of reads
    and scans do without a lock: single lookups, the opening of single sources, calls
    of [Next] and [Close], and single releases (no failing system call, within the
    limits, MemTables handed over in order).  It goes through without a panic.  Every
    read answers as the map did at some moment between its beginning and its end.
    Every scan returns one after the other, in key order, exactly the pairs in range
    of one map there was while it was being opened, whenever [Next] is called.  No
    table that a call still has to look in has been closed, even if a compaction has
    replaced it in the meantime.  Reference counts stay exact, so a table is closed
    once it is neither listed nor held. *)
Theorem overlapping_reads_linearizable ls mp c e w :
  coherent mp c idle e w -> balanced [] e -> apart idle e -> w_faults w = [] -> oruns_within coins ls (at_rest e) e w ->
  exists e' w' o' ns, oruns coins ls (at_rest e) e w = (Ok (e', inl (o', ns)), w') /\ olegal ns (mp, ∅) /\
    (forall rid x tid, o_readers o' !! rid = Some x -> tid ∈ held_of x -> open_table (e_store e') tid) /\
    balanced (holders (o_readers o')) e'.
Proof.
  intros Hco Hb Ha Hw Hls.
  destruct (overlapping_runs ls (mp, ∅) c (at_rest e) e w (rest_overlapping mp c e w Hco Hb Ha) Hw Hls) as (e' & w' & o' & ns & c' & H1 & H2 & H3 & _).
  exists e', w', o', ns. split_and!; [done|done| |apply H3].
  intros rid x tid Hx Hin. eapply balanced_open; [apply H3|by eapply holders_elem].
Qed.
End steps.
