(* ===== verification/ReadersWhole.v ===== *)
(** * Calls that nobody interrupts

    The steps of one read or one scan in Readers.v, with nobody in between, are the
    methods of Engine.v and Scan.v again: the same results, the same engine and the
    same files, whatever fails.  [uninterrupted_calls] says so of all the calls that
    the machines cut into pieces. *)

From S2P Require Import Prelude GoIO IOLogic MemTable Versions SSTable Table Merge Metrics FileNames EngineState EngineLogic Engine Scan Interleave Linear InterleaveInv InterleaveFrame Readers Agree InterleaveWhole.
From S2P Require Wal Bloom.
From stdpp Require Import base gmap sets list strings numbers fin_maps sorting.
Open Scope nat_scope.

#[local] Abbreviation ret_bind := (agree_ret anywhere).
#[local] Abbreviation bind_bind := (agree_assoc anywhere).

Section reads.
Context `{FM : Bloom.FloatMath} `{FL : Flate}.
Context (coins : N -> list bool) (rid : nat) (o : overlap) (Hrid : o_readers o !! rid = None).

Definition reading (x : reader) : overlap := set_reader rid (Some x) o.

Lemma reading_lookup x : o_readers (reading x) !! rid = Some x.
Proof. apply lookup_insert_eq. Qed.

Lemma reading_again x y : set_reader rid (Some y) (reading x) = reading y.
Proof. unfold reading, set_reader. cbn. by rewrite insert_insert_eq. Qed.

Lemma reading_gone x : set_reader rid None (reading x) = o.
Proof. unfold reading, set_reader. cbn. rewrite delete_insert_id by done. by destruct o. Qed.

Definition goes (n : nat) (o' : overlap) : E (overlap * list onote) := oruns coins (repeat (Go rid) n) o'.

Lemma goes_done n : goes n o = eret (o, []).
Proof. unfold goes. induction n as [|n IH]; [done|]. cbn [repeat oruns ostep]. by rewrite Hrid. Qed.

Lemma goes_S n x :
  agree anywhere (goes (S n) (reading x))
    (let? (o1, ns) := proceed rid x (reading x) in let? (o2, ns') := goes n o1 in eret (o2, ns ++ ns')).
Proof.
  intros e w _. unfold goes. cbn [repeat oruns ostep]. rewrite reading_lookup. unfold ebind, bind, eret, ret.
  by destruct (proceed rid x (reading x) e w) as [[[e1 [[o1 ns]|err]]|err|] w1].
Qed.

Lemma goes_more n o' : agree anywhere (let? (o2, ns') := goes n o' in eret (o2, [] ++ ns')) (goes n o').
Proof. intros e w _. unfold ebind, bind, eret, ret. by destruct (goes n o' e w) as [[[e1 [[m1 ns]|err]]|err|] w1]. Qed.

(** A step that goes on. *)
Lemma goes_to {A} n x (z : E A) (y : A -> reader) :
  agree anywhere (proceed rid x (reading x)) (let? a := z in eret (set_reader rid (Some (y a)) (reading x), [])) ->
  agree anywhere (goes (S n) (reading x)) (let? a := z in goes n (reading (y a))).
Proof.
  intros E. rewrite goes_S, E, bind_bind. apply agree_bind; [done|]. intros a. by rewrite ret_bind, reading_again, goes_more.
Qed.

(** *** Reads *)

Definition answered (key : bytes) (held : list nat) (r : bytes + error) : E (overlap * list onote) :=
  releaseAll held;;? recordGet (err_opt r);;? eret (o, [Answered rid key r]).

Lemma goes_leaving key held r n : length held < n -> agree anywhere (goes n (reading (Leaving key held r))) (answered key held r).
Proof.
  revert n. induction held as [|tid held IH]; intros [|n] Hn; cbn in Hn; [lia| |lia|].
  - unfold answered. cbn [releaseAll efor]. rewrite goes_S. cbn [proceed]. rewrite reading_gone, bind_bind.
    setoid_rewrite ret_bind. apply agree_bind; [done|]. intros []. by rewrite goes_done.
  - rewrite (goes_to n _ (table_call Release tid) (fun _ => Leaving key held r)) by done. unfold answered, releaseAll. cbn [efor].
    rewrite !bind_bind. apply agree_bind; [done|]. intros err. rewrite !ret_bind. apply IH. lia.
Qed.

Definition verdict (best : option Record) : bytes + error :=
  match best with
  | None => inr ErrNotFound
  | Some b => if bool_decide (Typ b = TypeTombstone) then inr ErrNotFound else inl (Versions.Value b)
  end.

(** The loop over the tables, a table at a time. *)
Lemma consider_next key tid tables best :
  agree anywhere (consider_tables key unboundedSeq best (tid :: tables))
    (let? best' := consider_tables key unboundedSeq best [tid] in consider_tables key unboundedSeq best' tables).
Proof.
  intros e w _. cbn [consider_tables]. unfold ebind, bind, eret, ret. destruct (load_table tid e w) as [[[e1 [t|?]]|?|] w1]; [|done..].
  by destruct (ewrap _ _ e1 w1) as [[[e2 [r|?]]|?|] w2].
Qed.

Lemma goes_tables key held tables best n :
  length tables + length held + 1 < n ->
  agree anywhere (goes n (reading (Looking key held None [] tables best)))
    (let? r := etry (consider_tables key unboundedSeq best tables) in
     answered key held (match r with inl best' => verdict best' | inr err => inr err end)).
Proof.
  revert best n. induction tables as [|tid tables IH]; intros best [|n] Hn; cbn [length] in Hn; [lia| |lia|].
  - rewrite (goes_to n _ (eret tt) (fun _ => Leaving key held (verdict best))) by done. cbn [consider_tables].
    rewrite (ret_bind tt), goes_leaving by lia. by intros e w _.
  - rewrite consider_next, (agree_etry_bind anywhere), bind_bind.
    rewrite (goes_to n _ (etry (consider_tables key unboundedSeq best [tid]))
              (fun r => match r with inr err => Leaving key held (inr err) | inl best' => Looking key held None [] tables best' end)).
    2: { apply agree_bind; [done|]. by intros [best'|err]. }
    apply agree_bind; [done|]. intros [best'|err]; [apply IH; lia|]. rewrite goes_leaving by lia. by intros e w _.
Qed.

Lemma unfailing_consider_mem key best mt : unfailing (consider_mem key unboundedSeq best mt).
Proof. apply unfailing_bind; [apply unfailing_option|]. intros [entry []]; apply unfailing_eret. Qed.

Lemma goes_imm key held imm tables best n :
  length imm + length tables + length held + 1 < n ->
  agree anywhere (goes n (reading (Looking key held None imm tables best)))
    (let? best' := consider_imm key unboundedSeq best imm in
     let? r := etry (consider_tables key unboundedSeq best' tables) in
     answered key held (match r with inl best' => verdict best' | inr err => inr err end)).
Proof.
  revert best n. induction imm as [|mt imm IH]; intros best [|n] Hn; cbn [length] in Hn; [lia| |lia|].
  - cbn [consider_imm]. rewrite (ret_bind best). apply goes_tables. lia.
  - cbn [consider_imm]. rewrite bind_bind.
    rewrite (goes_to n _ (consider_mem key unboundedSeq best mt) (fun best' => Looking key held None imm tables best')) by done.
    apply agree_bind; [done|]. intros best'. apply IH. lia.
Qed.

Lemma unfailing_consider_imm key best mts : unfailing (consider_imm key unboundedSeq best mts).
Proof.
  revert best. induction mts as [|mt mts IH]; intros best; [apply unfailing_eret|]. apply unfailing_bind; [apply unfailing_consider_mem|intros; apply IH].
Qed.

Lemma goes_read e key held n :
  o_mems o !! e_memId e = Some (e_mem e) -> length (e_imm e) + 2 * length held + 2 < n ->
  agree anywhere (goes n (reading (Looking key held (Some (e_memId e)) (rev (im_mt <$> e_imm e)) held None)))
    (let? r := etry (getAt_body e key unboundedSeq held) in answered key held r).
Proof.
  intros Hmem Hn. destruct n as [|n]; [lia|]. unfold getAt_body.
  rewrite (goes_to n _ (consider_mem key unboundedSeq None (e_mem e)) (fun best => Looking key held None (rev (im_mt <$> e_imm e)) held best)).
  2: { intros e1 w1 _. cbn [proceed reading set_reader o_mems]. by rewrite Hmem. }
  rewrite (etry_unfailing anywhere) by apply unfailing_consider_mem. rewrite bind_bind. apply agree_bind; [done|]. intros best.
  rewrite goes_imm by (rewrite length_rev, length_fmap; lia).
  rewrite (etry_unfailing anywhere) by apply unfailing_consider_imm. rewrite bind_bind. apply agree_bind; [done|]. intros best'.
  rewrite (agree_etry_bind anywhere), bind_bind. apply agree_bind; [done|]. intros [b|err]; [|by intros e1 w1 _].
  unfold verdict. destruct b as [b|]; [|by intros e1 w1 _]. case_bool_decide; by intros e1 w1 _.
Qed.

Lemma oruns_enter key n :
  agree anywhere (oruns coins (Enter rid key :: repeat (Go rid) n) o)
    (let? (o1, ns) := enter rid key o in let? (o2, ns') := goes n o1 in eret (o2, ns ++ ns')).
Proof.
  intros e w _. cbn [oruns ostep]. rewrite Hrid. unfold ebind, bind, eret, ret. by destruct (enter rid key o e w) as [[[e1 [[o1 ns]|err]]|err|] w1].
Qed.

Lemma get_recorded {A} key (k : bytes + error -> A) :
  agree anywhere (let? r := etry (Engine.Get key) in eret (k r)) (let? r := etry (getAt key unboundedSeq) in recordGet (err_opt r);;? eret (k r)).
Proof.
  unfold Engine.Get. rewrite (etry_unfailing anywhere), bind_bind by apply unfailing_etry. apply agree_bind; [done|]. intros r.
  rewrite (etry_unfailing anywhere), bind_bind by apply unfailing_recordGet. apply agree_bind; [done|]. intros []. by rewrite etry_of_sum, (ret_bind r).
Qed.

(** The whole of a read. *)
Lemma read_alone key n e w :
  o_mems o !! e_memId e = Some (e_mem e) -> length (e_imm e) + 2 * length (e_tables e) + 3 <= n ->
  oruns coins (Enter rid key :: repeat (Go rid) n) o e w =
  (let? r := etry (Engine.Get key) in eret (o, [Entered rid; Answered rid key r])) e w.
Proof.
  intros Hmem Hn. rewrite (oruns_enter key n e w I), (get_recorded key (fun r => (o, [Entered rid; Answered rid key r])) e w I).
  assert (forall err, agree anywhere
    (let? (o1, ns) := (recordGet (Some err);;? eret (o, [Entered rid; Answered rid key (inr err)])) in let? (o2, ns') := goes n o1 in eret (o2, ns ++ ns'))
    (let? r := etry (ethrow err) in recordGet (err_opt r);;? eret (o, [Entered rid; Answered rid key r]))) as Href.
  { intros err. rewrite bind_bind. apply (agree_bind _ (recordGet (Some err))); [done|]. intros []. cbv beta. by rewrite (ret_bind (o, _)), goes_done. }
  destruct key as [|b key]; [exact (Href ErrEmptyKey e w I)|]. set (k := b :: key) in *. set (tids := allTablesLocked e).
  set (x := Looking k tids (Some (e_memId e)) (rev (im_mt <$> e_imm e)) tids None).
  transitivity ((let? (o1, ns) := (if e_closed e then recordGet (Some ErrClosed);;? eret (o, [Entered rid; Answered rid k (inr ErrClosed)])
                                   else acquire_all tids;;? eret (reading x, [Entered rid])) in
                 let? (o2, ns') := goes n o1 in eret (o2, ns ++ ns')) e w); [done|].
  transitivity ((let? r := etry (if e_closed e then ethrow ErrClosed
                                 else acquire_all tids;;? let? r := etry (getAt_body e k unboundedSeq tids) in releaseAll tids;;? of_sum r) in
                 recordGet (err_opt r);;? eret (o, [Entered rid; Answered rid k r])) e w); [|done].
  destruct (e_closed e); [exact (Href ErrClosed e w I)|].
  assert (length tids = length (e_tables e)) as Hlen by apply length_fmap.
  eassert (agree anywhere _ _) as H; [|exact (H e w I)].
  rewrite (etry_unfailing anywhere), !bind_bind by apply unfailing_acquire_all. apply agree_bind; [done|]. intros [].
  rewrite (ret_bind (reading x, _)). unfold x. rewrite (goes_read e k tids n Hmem), bind_bind by lia.
  rewrite (etry_unfailing anywhere), bind_bind by apply unfailing_etry. apply agree_bind; [done|]. intros r. unfold answered.
  rewrite (etry_unfailing anywhere), !(bind_bind (releaseAll tids)) by apply unfailing_releaseAll. apply agree_bind; [done|]. intros [].
  rewrite etry_of_sum, (ret_bind r), bind_bind. apply agree_bind; [done|]. intros []. by intros e1 w1 _.
Qed.

(** *** Scans *)

Lemma goes_closing held f n :
  length held < n ->
  agree anywhere (goes n (reading (Closing held f)))
    (releaseAll held;;? eret (o, [match f with Some err => ScanFailed rid err | None => Closed rid end])).
Proof.
  revert n. induction held as [|tid held IH]; intros [|n] Hn; cbn in Hn; [lia| |lia|].
  - rewrite goes_S. cbn [proceed releaseAll efor]. rewrite reading_gone, (ret_bind (o, _)), goes_done. by intros e w _.
  - rewrite (goes_to n _ (table_call Release tid) (fun _ => Closing held f)) by done. unfold releaseAll. cbn [efor].
    rewrite !bind_bind. apply agree_bind; [done|]. intros err. rewrite !ret_bind. apply IH. lia.
Qed.

Lemma goes_scanning it n : agree anywhere (goes n (reading (Scanning it))) (eret (reading (Scanning it), [])).
Proof.
  induction n as [|n IH]; [done|]. rewrite goes_S. cbn [proceed]. by rewrite (ret_bind (reading _, _)), goes_more.
Qed.

(** The end of the opening. *)
Definition opening (start end_ : option bytes) (held : list nat) (r : list scanHeapItem + error) : E (overlap * list onote) :=
  match r with
  | inr err => releaseAll held;;? eret (o, [ScanFailed rid err])
  | inl h => eret (reading (Scanning (MkScan h held false)), [Opened rid start end_])
  end.

Section opening.
Context (start end_ : option bytes) (held : list nat).

(** One more source. *)
Lemma goes_push n mem imm tables h mem' imm' tables' (y : E (list scanHeapItem)) (rest : list scanHeapItem -> E (list scanHeapItem)) :
  length held < n ->
  agree anywhere (proceed rid (Opening start end_ held mem imm tables h) (reading (Opening start end_ held mem imm tables h)))
    (let? r := etry y in
     eret (set_reader rid (Some (match r with inr err => Closing held (Some err) | inl h' => Opening start end_ held mem' imm' tables' h' end))
             (reading (Opening start end_ held mem imm tables h)), [])) ->
  (forall h', agree anywhere (goes n (reading (Opening start end_ held mem' imm' tables' h'))) (let? r := etry (rest h') in opening start end_ held r)) ->
  agree anywhere (goes (S n) (reading (Opening start end_ held mem imm tables h)))
    (let? r := etry (let? h' := y in rest h') in opening start end_ held r).
Proof.
  intros Hn Hp Hrest. rewrite (goes_to n _ (etry y)) by exact Hp. rewrite (agree_etry_bind anywhere), bind_bind.
  apply agree_bind; [done|]. intros [h'|err]; [apply Hrest|]. rewrite goes_closing by done. by rewrite (ret_bind (inr err)).
Qed.

Lemma push_tables_next tid tables h :
  agree anywhere (push_tables start end_ unboundedSeq h (tid :: tables))
    (let? h' := push_tables start end_ unboundedSeq h [tid] in push_tables start end_ unboundedSeq h' tables).
Proof.
  intros e w _. cbn [push_tables]. unfold ebind, bind, eret, ret. destruct (load_table tid e w) as [[[e1 [t|?]]|?|] w1]; [|done..].
  by destruct (ewrap _ _ e1 w1) as [[[e2 [r|?]]|?|] w2].
Qed.

Lemma goes_push_tables tables h n :
  length tables + length held + 1 < n ->
  agree anywhere (goes n (reading (Opening start end_ held None [] tables h)))
    (let? r := etry (push_tables start end_ unboundedSeq h tables) in opening start end_ held r).
Proof.
  revert h n. induction tables as [|tid tables IH]; intros h [|n] Hn; cbn [length] in Hn; [lia| |lia|].
  - rewrite goes_S. cbn [proceed push_tables]. rewrite reading_again, (ret_bind (reading _, _)), goes_scanning. by intros e w _.
  - rewrite push_tables_next. apply (goes_push n None [] (tid :: tables) h None [] tables); [lia| |intros h'; apply IH; lia].
    apply agree_bind; [done|]. by intros [h'|err].
Qed.

Lemma push_imm_next mt mts h :
  agree anywhere (push_imm start end_ unboundedSeq h (mt :: mts))
    (let? h' := push_imm start end_ unboundedSeq h [mt] in push_imm start end_ unboundedSeq h' mts).
Proof.
  intros e w _. cbn [push_imm]. unfold ebind, bind, eret, ret. by destruct (ewrap _ _ e w) as [[[e2 [r|?]]|?|] w2].
Qed.

Lemma goes_push_imm imm tables h n :
  length imm + length tables + length held + 1 < n ->
  agree anywhere (goes n (reading (Opening start end_ held None imm tables h)))
    (let? r := etry (let? h' := push_imm start end_ unboundedSeq h imm in push_tables start end_ unboundedSeq h' tables) in opening start end_ held r).
Proof.
  revert h n. induction imm as [|mt imm IH]; intros h [|n] Hn; cbn [length] in Hn; [lia| |lia|].
  - cbn [push_imm]. rewrite (ret_bind h). apply goes_push_tables. lia.
  - rewrite push_imm_next, bind_bind. apply (goes_push n None (mt :: imm) tables h None imm tables); [lia| |intros h'; apply IH; lia].
    apply agree_bind; [done|]. by intros [h'|err].
Qed.

Lemma goes_open e n :
  o_mems o !! e_memId e = Some (e_mem e) -> length (e_imm e) + 2 * length held + 2 < n ->
  agree anywhere (goes n (reading (Opening start end_ held (Some (e_memId e)) (im_mt <$> e_imm e) held [])))
    (let? r := etry (scanAt_body e start end_ unboundedSeq held) in opening start end_ held r).
Proof.
  intros Hmem Hn. destruct n as [|n]; [lia|]. unfold scanAt_body.
  apply (goes_push n (Some (e_memId e)) _ _ _ None (im_mt <$> e_imm e) held); [lia| |intros h'; apply goes_push_imm; rewrite length_fmap; lia].
  intros e1 w1 _. cbn [proceed reading set_reader o_mems]. rewrite Hmem.
  refine (agree_bind anywhere (etry (ewrap "engine: scanning memtable" (push_mem start end_ unboundedSeq [] (e_mem e)))) _ _ _ _ e1 w1 I); [done|].
  by intros [h'|err].
Qed.
End opening.

(** The whole of the opening of a scan. *)
Lemma oruns_enter_scan start end_ n :
  agree anywhere (oruns coins (EnterScan rid start end_ :: repeat (Go rid) n) o)
    (let? (o1, ns) := enter_scan rid start end_ o in let? (o2, ns') := goes n o1 in eret (o2, ns ++ ns')).
Proof.
  intros e w _. cbn [oruns ostep]. rewrite Hrid. unfold ebind, bind, eret, ret. by destruct (enter_scan rid start end_ o e w) as [[[e1 [[o1 ns]|err]]|err|] w1].
Qed.

Lemma open_alone start end_ n e w :
  o_mems o !! e_memId e = Some (e_mem e) -> length (e_imm e) + 2 * length (e_tables e) + 3 <= n ->
  oruns coins (EnterScan rid start end_ :: repeat (Go rid) n) o e w =
  (let? r := etry (Scan start end_) in
   match r with
   | inr err => eret (o, [Entered rid; ScanFailed rid err])
   | inl it => eret (reading (Scanning it), [Entered rid; Opened rid start end_])
   end) e w.
Proof.
  intros Hmem Hn. rewrite (oruns_enter_scan start end_ n e w I).
  set (e1 := set_metrics (upd_counter scanTotal Counter_Inc (e_m e)) e). set (tids := allTablesLocked e).
  set (x := Opening start end_ tids (Some (e_memId e1)) (im_mt <$> e_imm e1) tids []).
  transitivity ((let? (o1, ns) := (if e_closed e then eret (o, [Entered rid; ScanFailed rid ErrClosed])
                                   else acquire_all tids;;? eret (reading x, [Entered rid])) in
                 let? (o2, ns') := goes n o1 in eret (o2, ns ++ ns')) e1 w); [done|].
  transitivity ((let? r := etry (if e_closed e then ethrow ErrClosed
                                 else acquire_all tids;;?
                                      let? r := etry (scanAt_body e1 start end_ unboundedSeq tids) in
                                      match r with inr err => releaseAll tids;;? ethrow err | inl h => eret (MkScan h tids false) end) in
                 match r with
                 | inr err => eret (o, [Entered rid; ScanFailed rid err])
                 | inl it => eret (reading (Scanning it), [Entered rid; Opened rid start end_])
                 end) e1 w); [|done].
  destruct (e_closed e).
  { unfold ebind, bind, etry, eret, ethrow, ret. by rewrite goes_done. }
  assert (length tids = length (e_tables e)) as Hlen by apply length_fmap.
  eassert (agree anywhere _ _) as H; [|exact (H e1 w I)].
  rewrite (etry_unfailing anywhere), !(bind_bind (acquire_all tids)) by apply unfailing_acquire_all. apply agree_bind; [done|]. intros [].
  rewrite (ret_bind (reading x, _)). unfold x. rewrite (goes_open start end_ tids e1 n Hmem), bind_bind by (change (e_imm e1) with (e_imm e); lia).
  rewrite (etry_unfailing anywhere), bind_bind by apply unfailing_etry. apply agree_bind; [done|]. intros [h|err]; [by intros e2 w2 _|].
  cbn [opening]. rewrite (etry_unfailing anywhere), !(bind_bind (releaseAll tids)) by apply unfailing_releaseAll. apply agree_bind; [done|]. intros [].
  by intros e2 w2 _.
Qed.

(** [Close] and the releases. *)
Lemma close_alone it n :
  length (sc_tables it) < n ->
  agree anywhere (oruns coins (ScanClose rid :: repeat (Go rid) n) (reading (Scanning it)))
    (ScanIterator_Close it;;? eret (o, [Closed rid])).
Proof.
  intros Hn. transitivity (goes n (reading (Closing (if sc_closed it then [] else sc_tables it) None))).
  { intros e w _. cbn [oruns ostep scan_call]. rewrite reading_lookup. unfold ebind, bind, eret, ret. rewrite reading_again. unfold goes.
    by destruct (oruns coins (repeat (Go rid) n) _ e w) as [[[e1 [[o1 ns]|err]]|err|] w1]. }
  unfold ScanIterator_Close. destruct (sc_closed it).
  - rewrite goes_closing by (cbn; lia). by intros e w _.
  - rewrite goes_closing, bind_bind by done. apply agree_bind; [done|]. intros []. by intros e w _.
Qed.
End reads.

(** The pieces are the methods: what the machines of Interleave.v and Readers.v
    must satisfy to be the program cut into steps.  In a state of the machine without the client
    [cid], whose locks are free, whose workers rest and whose flush queue has room,
    the steps of a put, a delete, a flush, a compaction, a read, the opening of a scan
    or its closing, taken one after the other, give what the method gives: the same
    result, and the same engine and files afterwards, whatever system calls fail; if
    the one panics, so does the other. *)
Theorem uninterrupted_calls `{FM : Bloom.FloatMath} `{FL : Flate} coins cid rid m o n key value start end_ it e w :
  m_clients m !! cid = None -> unlocked m = true -> m_flusher m = NoFlush -> m_compactor m = NoPass -> has_room e -> key <> [] ->
  o_readers o !! rid = None -> o_mems o !! e_memId e = Some (e_mem e) -> length (e_imm e) + 2 * length (e_tables e) + 3 <= n -> length (sc_tables it) < n ->
  returns (runs coins (whole_write cid key value Wal.RecordPut) m) e w = (let? r := etry (Engine.Put coins key value) in eret (m, [r])) e w /\
  returns (runs coins (whole_write cid key [] Wal.RecordDelete) m) e w = (let? r := etry (Engine.Delete coins key) in eret (m, [r])) e w /\
  runs coins whole_flush m e w = (flushWorker_step;;? eret (m, [])) e w /\
  runs coins whole_pass m e w = (compactionLoop_step;;? eret (m, [])) e w /\
  oruns coins (Enter rid key :: repeat (Go rid) n) o e w =
    (let? r := etry (Engine.Get key) in eret (o, [Entered rid; Answered rid key r])) e w /\
  oruns coins (EnterScan rid start end_ :: repeat (Go rid) n) o e w =
    (let? r := etry (Scan start end_) in
     match r with
     | inr err => eret (o, [Entered rid; ScanFailed rid err])
     | inl it => eret (set_reader rid (Some (Scanning it)) o, [Entered rid; Opened rid start end_])
     end) e w /\
  oruns coins (ScanClose rid :: repeat (Go rid) n) (set_reader rid (Some (Scanning it)) o) e w =
    (ScanIterator_Close it;;? eret (o, [Closed rid])) e w.
Proof.
  intros Hcid Hfree Hf Hm Hroom Hk Hrid Hmem Hn Hit. split_and!.
  - apply (write_alone coins cid key value Wal.RecordPut m); auto.
  - apply (write_alone coins cid key [] Wal.RecordDelete m); auto.
  - by apply flush_alone.
  - by apply pass_alone.
  - by apply read_alone.
  - by apply open_alone.
  - by apply close_alone.
Qed.
