(* ===== verification/BenchRun.v ===== *)
(** * The benchmark's counts

    Whatever the schedule of its workers and of the engine's goroutines, the
    benchmark reports no error, and once its workers are done as many puts and gets
    as they drew: an application of the theorem on interleaved calls. *)

From S2P Require Import Prelude OrdMap GoIO IOLogic MemTable Versions SSTable Table Merge Metrics FileNames EngineState EngineLogic EngineInv Engine EngineFlush EngineWrite EngineCompact Store EngineFrame Interleave Linear InterleaveInv InterleaveFrame InterleaveSteps Bench.
From S2P Require Wal SkipList Bloom.
From stdpp Require Import base gmap sets list strings numbers fin_maps sorting.
Open Scope nat_scope.

Section run.
Context `{FM : Bloom.FloatMath} `{FL : Flate} `{HFL : !FlateLaws FL}.
Context (coins : N -> list bool).

(** ** A worker's step *)

Definition is_effect (n : note) : Prop := match n with Effect _ _ => True | _ => False end.

(** A worker in a call goes on, or its call ends. *)
Definition carries_on (cid : nat) (m m' : machine) (ns : list note) : Prop :=
  exists pre, Forall is_effect pre /\
    ((exists x, m' = set_client cid (Some x) m /\ ns = pre) \/ (exists r, m' = set_client cid None m /\ ns = pre ++ [Done cid r])).

Lemma goes_on_carries cid pre m m' ns : Forall is_effect pre -> goes_on cid pre m m' ns -> carries_on cid m m' ns.
Proof. intros Hpre [(x & -> & -> & _)|(r & -> & ->)]; exists pre; (split; [done|]); [left|right]; by eexists. Qed.

Lemma counts_carries cid l m m' ns :
  counts l m (Some (m', ns)) ->
  match l with Begin w (_ :: _) _ _ | Log w | Apply w | Rotate w | HandOver w => w = cid | _ => False end -> carries_on cid m m' ns.
Proof.
  intros Hc Hl. destruct l as [w [|b key] value typ|w|w|w|w| | | | | | | | | |]; try done; subst w; cbn in Hc.
  - destruct Hc as [_ [(seq & -> & ->)|[(r & -> & ->)|[? _]]]]; [| |done]; exists []; (split; [done|]); [left|right]; by eexists.
  - destruct Hc as [_ Hc]. by eapply goes_on_carries.
  - destruct Hc as (key & value & typ & seq & _ & Hc & _). eapply goes_on_carries; [|exact Hc]. by repeat constructor.
  - destruct Hc as [_ Hc]. by eapply goes_on_carries.
  - destruct Hc as [_ Hc]. by eapply goes_on_carries.
Qed.

(** ** Counting *)

Definition is_put (d : draw) : bool := (d_op d <? 7)%N.
Definition is_get (d : draw) : bool := negb (is_put d).

(** The calls of a kind that the workers are to make. *)
Definition calls (p : draw -> bool) (todo : list (list draw)) : nat := sum_list_with (fun ds => length (List.filter p ds)) todo.
#[local] Arguments calls : simpl never.

Lemma calls_cons p ds todo : calls p (ds :: todo) = length (List.filter p ds) + calls p todo.
Proof. done. Qed.

(** The next call of a worker, and the others. *)
Lemma calls_pop p todo w d ds :
  todo !! w = Some (d :: ds) -> calls p todo = calls p (<[w := ds]> todo) + (if p d then 1 else 0).
Proof.
  revert w. induction todo as [|x todo IH]; intros [|w] E; try done.
  - injection E as ->. change (<[0:=ds]> ((d :: ds) :: todo)) with (ds :: todo). rewrite !calls_cons. cbn [List.filter].
    destruct (p d); cbn [length]; lia.
  - change (<[S w:=ds]> (x :: todo)) with (x :: <[w:=ds]> todo). rewrite !calls_cons, (IH w E). lia.
Qed.

Lemma calls_done p todo : Forall (fun ds => ds = []) todo -> calls p todo = 0.
Proof. by induction 1 as [|ds todo -> _ IH]; rewrite ?calls_cons. Qed.

(** No call is lost or counted twice, and none has failed. *)
Record counted (puts gets : nat) (b : bench) : Prop := {
  ct_errors : b_errors b = 0%Z;
  ct_puts : b_puts b = (Z.of_nat puts - Z.of_nat (calls is_put (b_todo b) + size (m_clients (b_machine b))))%Z;
  ct_gets : b_gets b = (Z.of_nat gets - Z.of_nat (calls is_get (b_todo b)))%Z;
  ct_room : calls is_put (b_todo b) + size (m_clients (b_machine b)) <= puts /\ calls is_get (b_todo b) <= gets }.

Lemma tally_effects b pre ns : Forall is_effect pre -> fold_left tally (pre ++ ns) b = fold_left tally ns b.
Proof. induction 1 as [|n pre Hn _ IH]; [done|]. by destruct n. Qed.

Lemma legal_done pre cid (r : unit + error) mp : legal (pre ++ [Done cid r]) mp -> r = inl tt.
Proof. rewrite legal_app. by intros (_ & H & _). Qed.

Lemma set_client_absent cid m : m_clients m !! cid = None -> set_client cid None m = m.
Proof. destruct m. unfold set_client. cbn -[delete]. intros E. by rewrite (delete_id _ _ E). Qed.

Lemma bench_key_nonempty w d : bench_key w d <> [].
Proof. done. Qed.

(** A call goes on: nothing changes, or one put is counted. *)
Lemma counted_carries cid m m' ns mp todo puts gets p g x :
  carries_on cid m m' ns -> legal ns mp -> m_clients m !! cid = Some x -> (Z.of_nat (puts + gets) < 2 ^ 63)%Z ->
  counted puts gets (MkBench m todo p g 0) -> counted puts gets (fold_left tally ns (MkBench m' todo p g 0)).
Proof.
  intros (pre & Hpre & [(y & -> & ->)|(r & -> & ->)]) Hleg Hx Hlt Hc.
  - rewrite <- (app_nil_r pre), tally_effects by done. destruct Hc as [? Hp ? ?].
    split; cbn in *; try done; rewrite map_size_insert_Some by (by eexists); done.
  - rewrite tally_effects, (legal_done _ _ _ _ Hleg) by done. destruct Hc as [? Hp Hg [H1 H2]]. cbn in *.
    assert (size (m_clients m) <> 0) as Hne by (intros E%map_size_empty_inv; by rewrite E, lookup_empty in Hx).
    assert (size (delete cid (m_clients m)) = pred (size (m_clients m))) as Es by (apply map_size_delete_Some; by eexists).
    split; cbn; rewrite ?Es; try done; [rewrite i64_small by lia; lia|lia].
Qed.

Lemma counted_step mp puts gets t b l todo m' ns :
  next_step t b = Some (l, todo) -> counts l (b_machine b) (Some (m', ns)) -> legal ns mp ->
  (Z.of_nat (puts + gets) < 2 ^ 63)%Z -> counted puts gets b ->
  counted puts gets (fold_left tally ns (MkBench m' todo (b_puts b) (b_gets b) (b_errors b))).
Proof.
  destruct b as [m td p g err]. intros Hn Hc Hleg Hlt Hct. pose proof (ct_errors _ _ _ Hct) as He. cbn in He. subst err.
  cbn [b_puts b_gets b_errors b_machine] in *. destruct t as [w|l']; cbn in Hn.
  - destruct (m_clients m !! w) as [x|] eqn:Ex.
    { assert (carries_on w m m' ns /\ todo = td) as [Hgo ->].
      { destruct x; simplify_eq; split; try done; by eapply counts_carries. }
      by eapply counted_carries. }
    destruct (td !! w) as [[|d ds]|] eqn:Et; try done. injection Hn as <- <-.
    pose proof (calls_pop is_put _ _ _ _ Et) as Hp. pose proof (calls_pop is_get _ _ _ _ Et) as Hg.
    destruct Hct as [_ H1 H2 [H3 H4]]. cbn in H1, H2, H3, H4. unfold bench_call in Hc.
    change (is_put d) with (d_op d <? 7)%N in Hp. change (is_get d) with (negb (d_op d <? 7)%N) in Hg.
    destruct (d_op d <? 7)%N; cbn [negb] in Hp, Hg.
    + assert (carries_on w m m' ns) as (pre & Hpre & [(y & -> & ->)|(r & -> & ->)]).
      { eapply counts_carries; [exact Hc|]. by destruct (bench_key w d) eqn:Ek; [destruct (bench_key_nonempty w d)|]. }
      * rewrite <- (app_nil_r pre), tally_effects by done.
        split; cbn; rewrite ?(map_size_insert_None _ _ _ Ex); try done; lia.
      * rewrite tally_effects, (legal_done _ _ _ _ Hleg) by done. rewrite (set_client_absent _ _ Ex).
        split; cbn; try done; [rewrite i64_small by lia; lia|lia|lia].
    + destruct Hc as (-> & r & ->). destruct Hleg as [Hr _]. cbn in Hr.
      assert (fold_left tally [Got w (bench_key w d) r] (MkBench m (<[w:=ds]> td) p g 0) =
              MkBench m (<[w:=ds]> td) p (i64 (g + 1)) 0) as ->.
      { cbn. unfold map_answer in Hr. destruct (bench_key w d) eqn:Ek; [by destruct (bench_key_nonempty w d)|].
        destruct (mp !! _); subst r; [done|]. by rewrite decide_True. }
      split; cbn; try done; [lia|rewrite i64_small by lia; lia|lia].
  - destruct (is_background l') eqn:El; [|done]. injection Hn as <- <-.
    assert (m_clients m' = m_clients m /\ ns = []) as [Em ->] by (apply counts_background in Hc; by destruct l').
    destruct Hct as [_ H1 H2 H3]. split; cbn in *; rewrite ?Em; done.
Qed.

(** ** Runs *)

(** Every turn finds the engine within the limits. *)
Fixpoint bench_within (ts : list turn) (b : bench) (e : Engine) (w : world) : Prop :=
  match ts with
  | [] => True
  | t :: ts' =>
      (forall l todo, next_step t b = Some (l, todo) -> step_within l (b_machine b) e w) /\
      match bench_step coins t b e w with (Ok (e1, inl b1), w1) => bench_within ts' b1 e1 w1 | _ => True end
  end.

Lemma tally_machine ns b : b_machine (fold_left tally ns b) = b_machine b.
Proof.
  revert b. induction ns as [|n ns IH]; intros b; [done|]. cbn [fold_left]. rewrite IH.
  destruct n as [| |? []|? ? []| |]; try done. cbn. by case_match.
Qed.

Lemma bench_turn t b mp c e w puts gets :
  coherent mp c (b_machine b) e w -> w_faults w = [] -> counted puts gets b -> (Z.of_nat (puts + gets) < 2 ^ 63)%Z ->
  (forall l todo, next_step t b = Some (l, todo) -> step_within l (b_machine b) e w) ->
  exists e' w' b' mp' c', bench_step coins t b e w = (Ok (e', inl b'), w') /\ w_faults w' = [] /\
    coherent mp' c' (b_machine b') e' w' /\ counted puts gets b'.
Proof.
  intros Hco Hw Hct Hlt Hlim. unfold bench_step. destruct (next_step t b) as [[l todo]|] eqn:En; [|by exists e, w, b, mp, c].
  destruct (wp_run _ _ _ _ (coherent_step coins l mp c (b_machine b) e w Hco Hw (Hlim l todo eq_refl))) as (r & e1 & w1 & E & Hst).
  pose proof (step_quiet _ _ _ _ _ _ _ _ E Hw) as Hw1. unfold ebind, bind. rewrite E.
  destruct r as [[[m' ns]|]|err]; [| |done].
  - destruct Hst as (? & ? & c1 & [= <- <-] & Hleg & Hco1). pose proof (step_counts coins l (b_machine b) _ _ _ _ _ E) as Hc.
    eexists e1, w1, _, (effects ns mp), c1. split; [done|]. split; [done|]. split; [by rewrite tally_machine|].
    by eapply counted_step.
  - destruct Hst as [c1 Hco1]. by exists e1, w1, b, mp, c1.
Qed.

Lemma bench_runs ts b mp c e w puts gets :
  coherent mp c (b_machine b) e w -> w_faults w = [] -> counted puts gets b -> (Z.of_nat (puts + gets) < 2 ^ 63)%Z ->
  bench_within ts b e w ->
  exists e' w' b', bench_run coins ts b e w = (Ok (e', inl b'), w') /\ counted puts gets b'.
Proof.
  revert b mp c e w. induction ts as [|t ts IH]; intros b mp c e w Hco Hw Hct Hlt; [by intros _; exists e, w, b|].
  intros [Hl Hls]. destruct (bench_turn t b mp c e w puts gets Hco Hw Hct Hlt Hl) as (e1 & w1 & b1 & mp1 & c1 & E & Hw1 & Hco1 & Hct1).
  rewrite E in Hls. cbn [bench_run]. unfold ebind, bind. rewrite E. by eapply IH.
Qed.

(** C12: the benchmark.  On a store in order, for any number of workers, whatever
    their generators draw and in whatever order the critical sections of their calls
    and of the flush and compaction workers come, as long as no system call fails,
    the limits are not exceeded and MemTables are handed over in the order of their
    rotations, the benchmark counts no error; and when all workers are done it has
    counted exactly the puts and the gets that were drawn. *)
Theorem benchmark_counts draws ts mp c e w :
  coherent mp c idle e w -> w_faults w = [] -> (Z.of_nat (calls is_put draws + calls is_get draws) < 2 ^ 63)%Z ->
  bench_within ts (MkBench idle draws 0 0 0) e w ->
  exists e' w' b, runBenchmark coins draws ts e w = (Ok (e', inl b), w') /\ b_errors b = 0%Z /\
    (finished b -> b_puts b = Z.of_nat (calls is_put draws) /\ b_gets b = Z.of_nat (calls is_get draws)).
Proof.
  intros Hco Hw Hlt Hls.
  destruct (bench_runs ts (MkBench idle draws 0 0 0) mp c e w (calls is_put draws) (calls is_get draws) Hco Hw) as (e' & w' & b & E & []); try done.
  { split; cbn; rewrite ?map_size_empty; try done; lia. }
  exists e', w', b. split_and!; [done|done|]. intros [Hm Hd].
  rewrite Hm, map_size_empty, (calls_done is_put _ Hd) in ct_puts0. rewrite (calls_done is_get _ Hd) in ct_gets0. lia.
Qed.
End run.
