(* ===== verification/EngineRaces.v ===== *)
(** * Races

    Schedules of Interleave.v in which the engine breaks a promise: a snapshot that
    is not registered yet loses its versions to a compaction, or sees a write that
    was not completed when it was taken; two MemTables handed over in the wrong
    order let a compaction bring a deleted key back; and two writes of a key that
    reach the log and the MemTable in different orders change places in a crash. *)

From S2P Require Import Prelude OrdMap GoIO IOLogic MemTable Versions SSTable Table Merge Metrics FileNames EngineState Engine EngineHazards Interleave.
From S2P Require Wal SkipList Bloom.
From stdpp Require Import base gmap sets list strings numbers fin_maps sorting.
Open Scope nat_scope.

#[local] Existing Instance RunA.
#[local] Existing Instance Bloom.TenBits.

Definition put_step (cid : nat) (value : bytes) : list label := whole_write cid kx value Wal.RecordPut.
Definition delete_step (cid : nat) : list label := whole_write cid kx [] Wal.RecordDelete.

(** What a schedule does on a new store. *)
Definition on_new_store (opts : list Option_) (ls : list label) : M (list note * Engine) :=
  let! e := Open flips "db" opts [] in
  let! (e', r) := runs flips ls idle e in
  ret (match r with inl (_, ns) => ns | inr _ => [] end, e').

(** The results of reads and of snapshots, and the calls that failed. *)
Definition results (ns : list note) : list note :=
  List.filter (fun n => match n with Effect _ _ | Done _ (inl _) => false | _ => true end) ns.

Definition seen (opts : list Option_) (ls : list label) : option (list note) :=
  results <$> (fst <$> outcome (on_new_store opts ls (MkWorld ∅ []))).

(** A snapshot that is loaded after the first write and registered after a second
    write, its flush and a compaction. *)
Definition late_registration : list label :=
  put_step 1 v1 ++ whole_flush ++ [Read 1 kx; Load 2] ++ put_step 1 v2 ++ whole_flush ++ whole_pass ++
  [Register 2; ReadAt 2 (MkSnapshot 1 false) kx].

(** A snapshot that registers late.  [Snapshot] loads the sequence number
    under one lock and registers it under another; a compaction that runs in
    between sees no snapshot and drops the version the snapshot needs: the key
    that was there when the snapshot was taken is not found in it, although both
    versions of it were in tables. *)
Theorem late_snapshot_loses_versions :
  seen eager late_registration =
    Some [Got 1 kx (inl v1); Snapped 2 (inl (MkSnapshot 1 false)); GotAt 2 (MkSnapshot 1 false) kx (inr ErrNotFound)].
Proof. vm_compute. reflexivity. Qed.

(** A snapshot that is taken while a write has its sequence number and no more. *)
Definition write_in_flight : list label :=
  [Begin 1 kx v1 Wal.RecordPut; Load 2; Register 2; ReadAt 2 (MkSnapshot 1 false) kx; Log 1; Apply 1;
   ReadAt 2 (MkSnapshot 1 false) kx].

(** A snapshot that is not repeatable.  A snapshot taken while a write is on its
    way covers the write's sequence number: the first read of the key in the
    snapshot does not find it, the second one does. *)
Theorem snapshot_not_repeatable :
  seen [] write_in_flight =
    Some [Snapped 2 (inl (MkSnapshot 1 false)); GotAt 2 (MkSnapshot 1 false) kx (inr ErrNotFound);
      GotAt 2 (MkSnapshot 1 false) kx (inl v1)].
Proof. vm_compute. reflexivity. Qed.

(** Two rotations; the second MemTable, with a delete, is handed over first, and
    flushed and compacted before the first one. *)
Definition swapped_handover : list label :=
  [Begin 1 kx v1 Wal.RecordPut; Log 1; Apply 1; Rotate 1] ++ delete_step 2 ++ [Read 2 kx] ++ whole_flush ++ whole_pass ++ [Read 2 kx].

(** Hand-over out of order.  [rotate] hands its MemTable to the flush worker
    after giving up the lock, so a later MemTable can come first: its tombstone
    is flushed and dropped by a compaction while the older value is still in
    memory, and a deleted key is back, with no call and no system call failing. *)
Theorem swapped_handover_resurrects :
  seen eager swapped_handover = Some [Got 2 kx (inr ErrNotFound); Got 2 kx (inl v1)].
Proof. vm_compute. reflexivity. Qed.

(** Two writes of a key that reach the log in one order and the MemTable in the
    other. *)
Definition crossing_writes : list label :=
  [Begin 1 kx v1 Wal.RecordPut; Begin 2 kx v2 Wal.RecordPut; Log 1; Log 2; Apply 2; Apply 1; Read 3 kx].

(** A read, a crash, and a read. *)
Definition crash_history : M (option (list note) * (bytes + error)) :=
  let! (ns, _) := on_new_store [] crossing_writes in
  let! e := Open flips "db" [] [] in
  let! (_, r) := Engine.Get kx e in
  ret (Some (results ns), r).

(** Writes that cross.  Both calls have returned nil and a read gives the value of
    the first one; after a crash, with nothing written in between, the log gives
    the value of the second one. *)
Theorem crossing_writes_change_places :
  outcome (crash_history (MkWorld ∅ [])) = Some (Some [Got 3 kx (inl v1)], inl v2).
Proof. vm_compute. reflexivity. Qed.
