(* ===== verification/EngineExamples.v ===== *)
(** * A concrete engine

    An engine with a table at level 1, a newer one at level 0, an immutable
    MemTable whose flush is queued, an active MemTable and an open snapshot,
    and the files behind it.  It satisfies the invariants, and the theorems on
    reads, writes, flushes and compactions are applied to it; so are those on
    opening, crashes and closing, on a new store. *)

From S2P Require Import Prelude OrdMap GoIO IOLogic MemTable Versions SSTable Table Merge Metrics FileNames EngineState Engine EngineLogic EngineInv EngineRead EngineFlush EngineLogs EngineWrite EngineCompact EngineOpen Store EngineRestart EngineClose Scan ScanRead EngineHazards.
From S2P Require Wal SkipList Bloom.
From stdpp Require Import base gmap sets list strings numbers fin_maps sorting.
Open Scope nat_scope.

#[local] Existing Instance RunA.
#[local] Existing Instance Bloom.TenBits.
Import SSTable.Examples Table.Examples Merge.Examples.

Definition c_ : bytes := [Byte.x63].
Definition opts1 : options := MkOptions 1000 1 1000000 10 7 true.
Definition wal1 : string := walFileName "db" 1.

(** A store just opened on an empty directory, but for its counters. *)
Definition eng0 : Engine :=
  MkEngine "db" 1 (MemTable.New []) (Wal.MkWAL (bufio_New wal1)) wal1 [] [] false 7 1 opts1 {[ 5%N := 1%Z ]}
    newEngineMetrics false [] ∅ 0 [].

Lemma inv0 w : inv (MkContents [] [] []) eng0 w.
Proof.
  split; [exists []; split; [exact (wb_repr_new [])|done]|..]; cbn;
    repeat first [done|apply last_walFileName|apply not_elem_of_nil|constructor].
Qed.

(** Two tables: [recs] at level 1, the newer [recs2] at level 0. *)
Definition filt2c : Bloom.Filter := default (Bloom.MkFilter [] 0 0) (filter_of recs2).
Definition tabL1 : Table := table_of (sstFileName "db" 1 2) true recs filt.
Definition tabL0 : Table := table_of (sstFileName "db" 0 3) true recs2 filt2c.
Definition eng1 : Engine := with_table 0 tabL0 (with_table 1 tabL1 eng0).
Definition img (t : Table) : file := MkFile (t_file t) (length (t_file t)).
Definition disk1 : world := MkWorld (<[ sstFileName "db" 0 3 := img tabL0 ]> {[ sstFileName "db" 1 2 := img tabL1 ]}) [].

Lemma recs2_fit : fits true recs2 filt2c.
Proof. unfold fits, recs2. rewrite !Forall_cons, Forall_nil. unfold representable. split_and!; vm_compute; done. Qed.

Lemma inv1 : inv (MkContents [] [] [recs; recs2]) eng1 disk1.
Proof.
  assert (inv (add_table recs (MkContents [] [] [])) (with_table 1 tabL1 eng0) disk1) as H1.
  { apply (inv_add_table _ eng0 disk1 disk1 1 recs filt (inv0 disk1));
      [done|done|discriminate|exact recs_sorted|exact recs_fit|vm_compute; done| | |by apply same_known_eq|vm_compute; done].
    - unfold recs. rewrite !Forall_cons, Forall_nil. split_and!; vm_compute; done.
    - apply (bool_decide_unpack _). vm_compute. done. }
  apply (inv_add_table _ _ disk1 disk1 0 recs2 filt2c H1);
    [done|done|discriminate|unfold recs2; sorted_recs|exact recs2_fit|vm_compute; done| | |by apply same_known_eq|vm_compute; done].
  - unfold recs2. rewrite !Forall_cons, Forall_nil. split_and!; vm_compute; done.
  - apply (bool_decide_unpack _). vm_compute. done.
Qed.

Lemma layered1 : layered (MkContents [] [] [recs; recs2]) eng1.
Proof.
  split; cbn.
  - constructor.
  - intros i j l1 l2 _ H. by rewrite lookup_nil in H.
  - intros l _. repeat constructor. by intros r s _ ?%not_elem_of_nil.
  - intros [|[|i]] [|[|j]] a b l1 l2; cbn; try by (intros; simplify_eq/=; lia).
    + intros [= <-] [= <-] [= <-] [= <-] _ r s Hr Hs. unfold recs, recs2 in *.
      repeat setoid_rewrite elem_of_cons in Hr. repeat setoid_rewrite elem_of_cons in Hs.
      destruct Hr as [->|[->|[->|?%not_elem_of_nil]]], Hs as [->|[->|?%not_elem_of_nil]]; cbn; intros; simplify_eq; done || lia.
Qed.

(** [c] is written and its MemTable rotated out and queued, then [a] is written. *)
Definition mt_c : MemTable := default (MemTable.New []) (MemTable.Put (MemTable.New []) c_ b_ 8).
Definition mt_a : MemTable := default (MemTable.New []) (MemTable.Put (MemTable.New []) a_ c_ 9).
Definition rc : Record := MkRec c_ b_ TypeValue 8.
Definition ra : Record := MkRec a_ c_ TypeValue 9.
Definition wal4 : string := walFileName "db" 4.
Definition eng2 : Engine := set_mem 1 mt_c (set_lastSeq 8 eng1).
Definition imm_c : immEntry := MkImm 1 mt_c wal1.
Definition eng3 : Engine := set_flushCh [job_of imm_c] (swapped (MemTable.New []) wal4 eng2).
Definition eng4 : Engine := set_mem 4 mt_a (set_lastSeq 9 eng3).
Definition held : contents := MkContents [ra] [[rc]] [recs; recs2].

(** Writing a key into an empty MemTable. *)
Lemma inv_put_empty e w c key value mt :
  inv c e w -> c_mem c = [] -> key <> [] ->
  MemTable.Put (e_mem e) key value (e_seq e + 1) = Some mt ->
  inv (MkContents [MkRec key value TypeValue (e_seq e + 1)] (c_imm c) (c_tables c))
    (set_mem (e_memId e) mt (set_lastSeq (e_seq e + 1) e)) w.
Proof.
  intros Hi Hc Hk E. set (u := MPut key value (e_seq e + 1)).
  destruct (mem_holds_apply (e_mem e) (c_mem c) u (inv_mem _ _ _ Hi)) as (mt' & rs' & E' & Hm & Hrs).
  cbn in E'. rewrite E in E'. injection E' as <-. rewrite Hc in Hrs.
  assert (rs' = [mut_rec u]) as ->.
  { pose proof (nodup_version_mem _ _ Hm) as Hnd. apply NoDup_fmap_1 in Hnd.
    apply Permutation_singleton_r. apply NoDup_Permutation; [done|apply NoDup_singleton|]. intros s.
    rewrite Hrs, list_elem_of_singleton. split; [by intros [|[[]%not_elem_of_nil _]]|by left]. }
  apply (inv_put c (set_lastSeq (e_seq e + 1) e) w u); [by apply inv_seq; [|lia]|done|cbn; lia| |done|].
  - apply (next_fresh c e w); [done|cbn; lia].
  - intros s. rewrite Hc. apply Hrs.
Qed.

Lemma inv_queue c e w q : inv c e w -> q `sublist_of` (job_of <$> e_imm e) -> inv c (set_flushCh q e) w.
Proof. intros [] Hq. split; try done. by eapply tables_keep. Qed.

Lemma inv3 : inv (MkContents [] [[rc]] [recs; recs2]) eng3 disk1.
Proof.
  assert (inv (MkContents [rc] [] [recs; recs2]) eng2 disk1) as H2.
  { by apply (inv_put_empty eng1 disk1 (MkContents [] [] [recs; recs2]) c_ b_ mt_c inv1). }
  apply (inv_queue _ (swapped (MemTable.New []) wal4 eng2)); [|done].
  exact (inv_swapped _ _ _ [] H2 ltac:(done) ltac:(vm_compute; done)).
Qed.

Lemma inv4 : inv held eng4 disk1.
Proof. by apply (inv_put_empty eng3 disk1 (MkContents [] [[rc]] [recs; recs2]) a_ c_ mt_a inv3). Qed.

Lemma layered4 : layered held eng4.
Proof.
  assert (forall l, Forall (fun r => Seq r < 8)%N l -> Forall (older l) [[ra]; [rc]]) as Ho.
  { intros l Hl. rewrite Forall_forall in Hl. repeat constructor; intros r s Hr ->%list_elem_of_singleton _;
      specialize (Hl r Hr); cbn in *; lia. }
  split; cbn.
  - repeat constructor. intros r s ->%list_elem_of_singleton ->%list_elem_of_singleton. done.
  - intros [|i] [|j] l1 l2; cbn; try lia; by intros _ ?%lookup_nil_Some || (intros; simplify_eq).
  - intros l Hl. apply Ho. repeat setoid_rewrite elem_of_cons in Hl.
    destruct Hl as [->|[->|?%not_elem_of_nil]]; [| |done]; unfold recs, recs2; by repeat constructor.
  - exact (lay_levels _ _ layered1).
Qed.

Lemma flushable_rc : flushable true [rc].
Proof.
  exists (default (Bloom.MkFilter [] 0 0) (filter_of [rc])). split; [vm_compute; done|].
  unfold fits, rc. rewrite Forall_singleton. unfold representable. split_and!; vm_compute; done.
Qed.

Lemma getAt_newest_witness :
  (exists r w', getAt a_ 7 eng4 disk1 = (Ok (eng4, r), w') /\ w_files w' = w_files disk1 /\
    (a_ = [] -> r = inr ErrEmptyKey) /\
    (a_ <> [] -> e_closed eng4 = true -> r = inr ErrClosed) /\
    (a_ <> [] -> e_closed eng4 = false -> read_ok a_ 7 held disk1 r)).
Proof. exact (getAt_newest held eng4 disk1 a_ 7 inv4). Defined.

(** The tombstone at 7 hides the older value from a reader at 7, not from one at 6. *)
Definition result {S A} (o : res (S * A) * world) : option A :=
  match o with (Ok (_, r), _) => Some r | _ => None end.

Example getAt_runs :
  result (getAt a_ 7 eng4 disk1) = Some (inr ErrNotFound) /\ result (getAt a_ 4 eng4 disk1) = Some (inl b_) /\
  result (getAt a_ unboundedSeq eng4 disk1) = Some (inl c_).
Proof. split_and!; vm_compute; reflexivity. Qed.

Lemma flush_preserves_reads_witness :
  exists e' w', flushWorker_step eng4 disk1 = (Ok (e', inl tt), w') /\ e_flushCh e' = tail (e_flushCh eng4) /\
    exists c', inv c' e' w' /\ same_reads held c' /\
      (w_faults disk1 = [] -> length (c_tables c') = length (c_tables held) + length (take 1 (e_flushCh eng4))) /\
      (layered held eng4 -> in_order eng4 -> layered c' e' /\ (in_order e' \/ w_faults disk1 <> [])).
Proof.
  apply (flush_preserves_reads held eng4 disk1 inv4).
  - apply Forall_singleton. exact flushable_rc.
  - vm_compute. reflexivity.
Defined.

Lemma write_reads_witness :
  let op := Engine.Put (fun _ => []) b_ c_ in
  let rec := MkRec b_ c_ TypeValue (e_seq eng4 + 1) in
  exists r e' w', op eng4 disk1 = (Ok (e', r), w') /\
    (b_ = [] -> r = inr ErrEmptyKey /\ e' = eng4 /\ w' = disk1) /\
    (b_ <> [] -> e_closed eng4 = true -> r = inr ErrClosed /\ inv held e' w') /\
    (b_ <> [] -> e_closed eng4 = false -> write_post held eng4 disk1 rec r e' w').
Proof.
  apply (write_reads (fun _ => []) false held eng4 disk1 b_ c_ inv4).
  - vm_compute. reflexivity.
  - vm_compute. reflexivity.
  - apply Forall_singleton. exact flushable_rc.
Defined.

#[local] Instance fits_dec compress rs f : Decision (fits compress rs f).
Proof. unfold fits, representable, Bloom.size_ok. apply _. Defined.

Lemma flushable_decide rs :
  match filter_of rs with Some f => bool_decide (fits true rs f) | None => false end = true -> flushable true rs.
Proof. destruct (filter_of rs) as [f|] eqn:Hf; [|done]. intros Hb. exists f. split; [done|]. by apply bool_decide_eq_true in Hb. Qed.

Lemma mergeable4 : mergeable held eng4.
Proof.
  intros l bottom out.
  assert (out = merge_spec 5 bottom (inputs_of l held eng4).*2) as -> by done.
  assert (inputs_of l held eng4 = filter (fun p => lt_level p.1 = l) [(MkLT 1 0, recs); (MkLT 0 1, recs2)] ++
                                  filter (fun p => lt_level p.1 = (l + 1)%Z) [(MkLT 1 0, recs); (MkLT 0 1, recs2)]) as -> by done.
  cbn [o_compress e_opts eng4 eng3 eng2 eng1 eng0 opts1].
  destruct (decide (l = 0)%Z) as [->|H0]; [|destruct (decide (l = 1)%Z) as [->|H1]; [|destruct (decide (l = -1)%Z) as [->|H2]]].
  4: { rewrite !filter_cons_False, !filter_nil by (cbn; lia). done. }
  all: intros _; destruct bottom; apply flushable_decide; vm_compute; reflexivity.
Qed.


Lemma compaction_reclaims_witness :
  exists e' w' c', runCompaction eng4 disk1 = (Ok (e', inl tt), w') /\ inv c' e' w' /\
    match pickCompactionLocked eng4 with
    | None => c' = held /\ e_tables e' = e_tables eng4
    | Some plan =>
        relisted_tables plan (e_tables eng4) (e_tables e') /\
        forall r, r ∈ view c' <->
          r ∈ view held /\ r ∉ plan_records plan held eng4 \/
          retained (minActiveSnapshotSeq eng4) (plan_bottom plan eng4) (plan_records plan held eng4) r
    end.
Proof.
  apply (compaction_reclaims held eng4 disk1 inv4 layered4).
  - by repeat constructor.
  - done.
  - exact mergeable4.
  - vm_compute. reflexivity.
  - reflexivity.
Defined.

(** It merges both tables. *)
Example compaction_plan : pickCompactionLocked eng4 = Some (MkPlan [1; 0] 1).
Proof. vm_compute. reflexivity. Qed.

(** The pass merges both tables into one at level 1; the snapshot at 5 keeps the
    version of [a] it sees. *)
Example compaction_runs :
  match runCompaction eng4 disk1 with
  | (Ok (e', inl _), w') =>
      (lt_level <$> e_tables e', result (getAt a_ 5 e' w'), result (getAt a_ 7 e' w'))
  | _ => ([], None, None)
  end = ([1%Z], Some (inl (replicate 20 Byte.x61)), Some (inr ErrNotFound)).
Proof. vm_compute. reflexivity. Qed.

Lemma scan_matches_reads_witness :
  exists r e1 w1, scanAt (Some a_) None 7 eng4 disk1 = (Ok (e1, r), w1) /\ w_files w1 = w_files disk1 /\
    match r with
    | inr err => e1 = eng4 /\ w_faults disk1 <> []
    | inl it => sc_tables it = allTablesLocked eng4 /\ e1 = with_store (e_store e1) eng4 /\
        pinned (e_store eng4) (allTablesLocked eng4) (e_store e1) /\
        exists kvs, listed it e1 eng4 kvs /\ StronglySorted bytes_lt kvs.*1 /\
          forall k v, (k, v) ∈ kvs <-> in_range (Some a_) None k /\ answer (newest k 7 (view held)) = inl v
    end.
Proof. apply (scan_matches_reads held eng4 disk1 (Some a_) None 7 inv4). reflexivity. Defined.

(** A scan of everything: [a] from the MemTable, [b] from a table, [c] from the
    immutable MemTable. *)
Example scan_runs :
  match Scan None None eng4 disk1 with
  | (Ok (e', inl it), w') => result (collect 5 it w')
  | _ => None
  end = Some (inl [(a_, c_); (b_, a_); (c_, b_)]).
Proof. vm_compute. reflexivity. Qed.

(** ** A failed compaction *)

(** A table at level 0 listed before one at level 2, as a flush leaves them that
    ends while level 1 is being compacted. *)
Definition tabF : Table := table_of (sstFileName "db" 0 2) true recs filt.
Definition tabG : Table := table_of (sstFileName "db" 2 3) true [rc] (default (Bloom.MkFilter [] 0 0) (filter_of [rc])).
Definition eng5 : Engine := with_table 2 tabG (with_table 0 tabF eng0).
Definition disk5 : world := MkWorld (<[ sstFileName "db" 2 3 := img tabG ]> {[ sstFileName "db" 0 2 := img tabF ]}) [].

Lemma failed_compaction_drops_table_witness :
  exists e', compact_commit (MkPlan [0] 1) "db/x" (inr ErrIO) eng5 disk5 =
      (Ok (e', inr (ErrWrap "engine: compaction merge failed" ErrIO)), disk5) /\
    (0 ∉ allTablesLocked e') /\ length (e_tables e') = length (e_tables eng5) /\
    e_store e' = e_store eng5 /\ e_imm e' = e_imm eng5 /\ e_mem e' = e_mem eng5.
Proof.
  apply (failed_compaction_drops_table (MkPlan [0] 1) "db/x" ErrIO eng5 disk5 (MkLT 0 0) [MkLT 2 1]).
  - reflexivity.
  - reflexivity.
  - discriminate.
  - apply (bool_decide_unpack _). vm_compute. exact I.
  - apply (bool_decide_unpack _). vm_compute. exact I.
  - apply (bool_decide_unpack _). vm_compute. exact I.
Defined.

(** With it goes the data: the value of [a] is not found after a pass whose merge
    could not create its file. *)
Example failed_compaction_loses_data :
  (result (Engine.Get a_ eng5 disk5),
   match with_faults [Some 0] (runCompaction eng5) disk5 with
   | (Ok (e', inr _), w') => result (Engine.Get a_ e' w')
   | _ => None
   end) = (Some (inl (replicate 20 Byte.x61)), Some (inr ErrNotFound)).
Proof. vm_compute. reflexivity. Qed.

(** ** A run *)

(** The engine with its compaction signalled, and the map it represents. *)
Definition eng6 : Engine := set_compactCh true eng4.
Definition sp4 : spec := MkSpec {[ a_ := c_; b_ := a_; c_ := b_ ]} 9.
Definition flips0 : N -> list bool := fun _ => [].

Lemma models_signal sp c e w b : models sp c e w -> models sp c (set_compactCh b e) w.
Proof. intros Hm. eapply models_same; [exact Hm| |done..]. eapply inv_irrelevant; [apply Hm|done..]. Qed.

Lemma mergeable_signal c e b : mergeable c e -> mergeable c (set_compactCh b e).
Proof. done. Qed.

Lemma models4 : models sp4 held eng6 disk1.
Proof.
  apply models_signal. split; [exact inv4|exact layered4|reflexivity|by repeat constructor|done|reflexivity|reflexivity|done|].
  intros key. destruct (decide (key = a_)) as [->|Ha]; [vm_compute; done|].
  destruct (decide (key = b_)) as [->|Hb]; [vm_compute; done|].
  destruct (decide (key = c_)) as [->|Hc]; [vm_compute; done|].
  rewrite newest_outside.
  - cbn [sp_map sp4]. by rewrite !lookup_insert_ne, lookup_singleton_ne.
  - unfold view, held, recs, recs2, ra, rc. cbn. repeat constructor; cbn; congruence.
Qed.

(** The limits of the events other than compactions, decided. *)
Definition fits_b (e : Engine) : bool := forallb (fun ie => match buildRecords (im_mt ie) with
  | Some rs => match filter_of rs with Some f => bool_decide (fits true rs f) | None => false end
  | None => false end) (e_imm e).

Definition limits_b (ev : event) (e : Engine) : bool :=
  bool_decide (o_compress (e_opts e) = true) &&
  match ev with
  | EvPut _ _ | EvDelete _ => (e_seq e <? max_u64)%N && (e_genCounter e + 1 <? max_u64)%N && fits_b e
  | EvFlush => (e_genCounter e <? max_u64)%N && fits_b e
  | EvCompact => false
  | _ => true
  end.

Lemma fits_b_spec e : o_compress (e_opts e) = true -> fits_b e = true -> flush_fits e.
Proof.
  intros Ec H. unfold flush_fits. rewrite Ec. apply Forall_forall. intros ie Hin. unfold fits_b in H.
  rewrite forallb_forall in H. specialize (H ie (proj1 (list_elem_of_In _ _) Hin)). cbn in H.
  destruct (buildRecords (im_mt ie)) as [rs|]; [|done]. exists rs. split; [done|]. apply flushable_decide.
  exact H.
Qed.

Lemma limits_b_spec ev e w : limits_b ev e = true -> within_limits ev e w.
Proof.
  unfold limits_b, within_limits. intros [Ec%bool_decide_eq_true H]%andb_true_iff.
  destruct ev; try done; rewrite !andb_true_iff, ?N.ltb_lt in H; decompose [and] H; split_and!; try done; by apply fits_b_spec.
Qed.

Fixpoint run_within_b (evs : list event) (e : Engine) (w : world) : bool :=
  match evs with
  | [] => true
  | ev :: evs' => limits_b ev e &&
      match exec flips0 ev e (quiet w) with (Ok (e1, inl _), w1) => run_within_b evs' e1 w1 | _ => true end
  end.

Lemma run_within_b_spec evs e w : run_within_b evs e w = true -> run_within flips0 evs e w.
Proof.
  revert e w. induction evs as [|ev evs IH]; intros e w; [done|]. cbn [run_within_b run_within].
  intros [H1 H2]%andb_true_iff. split; [by apply limits_b_spec|].
  destruct (exec flips0 ev e (quiet w)) as [[[e1 [o|err]]|err|] w1]; try done. by apply IH.
Qed.

(** A compaction, then writes, a snapshot, a flush and reads. *)
Definition evs1 : list event := [EvPut a_ b_; EvDelete b_; EvFlush; EvGet a_; EvGet b_; EvGet c_; EvFlush; EvSnapshot].

Lemma run_within1 : run_within flips0 (EvCompact :: evs1) eng6 disk1.
Proof.
  split.
  - split; [done|]. intros c Hc.
    rewrite (contents_unique c held eng6 _ (quiet disk1) Hc (inv_quiet _ _ _ (md_inv _ _ _ _ models4))).
    apply mergeable_signal, mergeable4.
  - assert (match exec flips0 EvCompact eng6 (quiet disk1) with
            | (Ok (e1, inl _), w1) => run_within_b evs1 e1 w1 | _ => true end = true) as H by (vm_compute; reflexivity).
    destruct (exec flips0 EvCompact eng6 (quiet disk1)) as [[[e1 [o|err]]|err|] w1]; try done. by apply run_within_b_spec.
Qed.

Lemma store_refines_map_witness :
  exists e' w', run flips0 (EvCompact :: evs1) eng6 disk1 = Some ((spec_run (EvCompact :: evs1) sp4).1, e', w') /\
    exists c', models (spec_run (EvCompact :: evs1) sp4).2 c' e' w'.
Proof. exact (store_refines_map flips0 (EvCompact :: evs1) sp4 held eng6 disk1 models4 run_within1). Defined.

Example spec_runs :
  (spec_run (EvCompact :: evs1) sp4).1 = [ODone (inl tt); ODone (inl tt); ODone (inl tt); ODone (inl tt);
    OValue (inl b_); OValue (inr ErrNotFound); OValue (inl b_); ODone (inl tt); OSnapshot (inl (MkSnapshot 11 false))].
Proof. vm_compute. reflexivity. Qed.

(** A snapshot keeps [b] while it is deleted and its tombstone flushed and
    compacted. *)
Definition evs2 : list event := [EvDelete b_; EvPut c_ a_; EvFlush; EvGet b_].
Definition snap_eng : Engine := (match Snapshot eng6 (quiet disk1) with (Ok (e, _), _) => e | _ => eng6 end).
Definition snap9 : Snapshot_ := MkSnapshot 9 false.

Fixpoint run_keeps_b (m : N) (key : bytes) (evs : list event) (e : Engine) (w : world) : bool :=
  match evs with
  | [] => true
  | ev :: evs' =>
      (negb (bool_decide (written ev = Some key)) ||
       match MemTable.Get (e_mem e) key with Some (en, true) => (m <? MemTable.e_seq en)%N | _ => true end) &&
      match exec flips0 ev e (quiet w) with
      | (Ok (e1, inl _), w1) => bool_decide (is_Some (e_activeSnapshots e1 !! m)) && run_keeps_b m key evs' e1 w1
      | _ => true
      end
  end.

Lemma run_keeps_b_spec m key evs e w : run_keeps_b m key evs e w = true -> run_keeps flips0 m key evs e w.
Proof.
  revert e w. induction evs as [|ev evs IH]; intros e w; [done|]. cbn [run_keeps_b run_keeps].
  intros [H1 H2]%andb_true_iff. split.
  - intros Hev en Eg. rewrite Eg in H1. rewrite bool_decide_true in H1 by done. by apply N.ltb_lt in H1.
  - destruct (exec flips0 ev e (quiet w)) as [[[e1 [o|err]]|err|] w1]; try done.
    apply andb_true_iff in H2 as [H2%bool_decide_eq_true H3]. split; [done|by apply IH].
Qed.

Lemma snapshot_isolation_witness :
  exists os e2 w2 r e3 w3, run flips0 evs2 snap_eng (quiet disk1) = Some (os, e2, w2) /\
    Snapshot_Get snap9 b_ e2 (quiet w2) = (Ok (e3, r), w3) /\ r = lookup_answer sp4 b_.
Proof.
  apply (snapshot_isolation flips0 evs2 sp4 held eng6 disk1 b_ snap_eng snap9 (quiet disk1) models4).
  - discriminate.
  - reflexivity.
  - apply run_within_b_spec. vm_compute. reflexivity.
  - apply run_keeps_b_spec. vm_compute. reflexivity.
Defined.

(** ** Opening *)

(** A store that was not closed: two tables and a log, whose last record was
    written in part. *)
Definition log1 : list Wal.Record_ :=
  [Wal.MkRecord Wal.RecordPut a_ c_ 8; Wal.MkRecord Wal.RecordDelete b_ [] 9; Wal.MkRecord Wal.RecordPut a_ b_ 10].
Definition log_data : bytes := Wal.encode_all log1 ++ take 9 (Wal.encode (Wal.MkRecord Wal.RecordPut c_ c_ 11)).
Definition disk7 : world := MkWorld (<[ wal4 := MkFile log_data (length log_data) ]> (w_files disk1)) [].
Definition opts_compress : list Option_ := [WithCompression true].
Definition found1 : list sstFileInfo := [MkSSTInfo (sstFileName "db" 1 2) 1 2; MkSSTInfo (sstFileName "db" 0 3) 0 3].

Lemma left_behind7 :
  left_behind "db" (o_compress (configured opts_compress)) 10 disk7 [wal4] found1 [recs; recs2] [log1].
Proof.
  split.
  - exists 4%N. split; [vm_compute; reflexivity|done].
  - constructor; [|constructor; [|constructor]].
    + split; [done|]. split; [discriminate|]. split; [exact recs_sorted|]. exists true, filt, (length (t_file tabL1)).
      split; [exact recs_fit|]. split; [vm_compute; done|vm_compute; reflexivity].
    + split; [done|]. split; [discriminate|]. split; [unfold recs2; sorted_recs|]. exists true, filt2c, (length (t_file tabL0)).
      split; [exact recs2_fit|]. split; [vm_compute; done|vm_compute; reflexivity].
  - constructor; [|constructor]. exists (MkFile log_data (length log_data)). split; vm_compute; reflexivity.
  - unfold known_type, log1. cbn [concat app]. rewrite !Forall_cons, Forall_nil. split_and!; auto.
  - unfold recs, recs2. cbn [concat app]. rewrite !Forall_cons, Forall_nil. split_and!; vm_compute; done.
  - unfold log1. cbn [concat app]. rewrite !Forall_cons, Forall_nil. split_and!; vm_compute; done.
  - apply (bool_decide_unpack _). vm_compute. done.
  - intros _. apply flushable_decide. vm_compute. reflexivity.
Qed.

Lemma open_recovers_witness :
  exists e w', Engine.Open flips0 "db" opts_compress [] disk7 = (Ok e, w') /\ w_faults w' = [] /\
    e_closed e = false /\ e_seq e = max_seq 0 (concat [log1]) /\
    (forall p, p ∈ [wal4] -> p <> e_walPath e -> w_files w' !! p = None) /\
    forall key, key <> [] -> exists w2, getAt key unboundedSeq e w' =
      (Ok (e, answer (newest key unboundedSeq (concat [recs; recs2] ++ (log_rec <$> concat [log1])))), w2) /\ w_files w2 = w_files w'.
Proof.
  apply (open_recovers flips0 "db" opts_compress [] 10 disk7 [wal4] found1 [recs; recs2] [log1]).
  - reflexivity.
  - exact left_behind7.
  - repeat constructor.
  - done.
Defined.

Example open_runs :
  match Engine.Open flips0 "db" opts_compress [] disk7 with
  | (Ok e, w') => (lt_level <$> e_tables e, e_seq e, w_files w' !! wal4,
      result (getAt a_ unboundedSeq e w'), result (getAt b_ unboundedSeq e w'))
  | _ => ([], 0%N, None, None, None)
  end = ([1%Z; 0%Z; 0%Z], 10%N, None, Some (inl b_), Some (inr ErrNotFound)).
Proof. vm_compute. reflexivity. Qed.

(** ** From a new store to the next one *)

Definition optsF : list Option_ := [WithCompression true; WithFlushThreshold 40].
Definition empty_disk : world := MkWorld ∅ [].

Lemma vacant0 : vacant "db" empty_disk.
Proof. intros p [f Hf]. by vm_compute in Hf. Qed.

Lemma configuredF : config_ok (configured optsF).
Proof. by split_and!. Qed.

Lemma open_fresh_witness :
  exists e w', Engine.Open flips0 "db" optsF [] empty_disk = (Ok e, w') /\ w_faults w' = [] /\
    models (MkSpec ∅ 0) nothing e w' /\ durable e w'.
Proof. exact (open_fresh flips0 "db" optsF [] empty_disk eq_refl vacant0 configuredF). Defined.

(** A run that rotates the MemTable, flushes and leaves writes in the logs. *)
Definition engF0 : Engine := new_store flips0 "db" optsF [].
Definition diskF0 : world := MkWorld (<[walFileName "db" 1 := MkFile [] 0]> (w_files empty_disk)) [].
Definition evsF : list event :=
  [EvPut a_ b_; EvPut b_ c_; EvDelete a_; EvPut c_ a_; EvFlush; EvSnapshot; EvDelete b_; EvPut b_ a_; EvPut a_ c_].

Lemma run_withinF : run_within flips0 evsF engF0 diskF0.
Proof. apply run_within_b_spec. vm_compute. reflexivity. Qed.

Lemma loggableF : Forall loggable evsF.
Proof. unfold evsF. rewrite !Forall_cons, Forall_nil. split_and!; vm_compute; done. Qed.

Lemma crash_recovery_witness :
  exists e1 w1, run flips0 evsF engF0 diskF0 = Some ((spec_run evsF (MkSpec ∅ 0)).1, e1, w1) /\
    forall coins' opts clock w2, restarts w1 w2 -> (e_genCounter e1 + 2 < max_u64)%N ->
      (unflushed (logs e1) w1 <> [] -> flushable (o_compress (configured opts)) (unflushed (logs e1) w1)) ->
      exists e2 w3, Engine.Open coins' (e_dir e1) opts clock w2 = (Ok e2, w3) /\ forall key, key <> [] ->
        exists w4, getAt key unboundedSeq e2 w3 = (Ok (e2, lookup_answer (spec_run evsF (MkSpec ∅ 0)).2 key), w4).
Proof.
  exact (crash_recovery flips0 evsF (MkSpec ∅ 0) nothing engF0 diskF0
           (new_store_models flips0 "db" optsF [] diskF0 configuredF)
           (new_store_durable flips0 "db" optsF [] empty_disk vacant0) run_withinF loggableF).
Defined.

(** Its end, as it is. *)
Definition endF : Engine * world := match run flips0 evsF engF0 diskF0 with Some (_, e, w) => (e, w) | None => (engF0, diskF0) end.

Lemma endF_models : exists c, models (spec_run evsF (MkSpec ∅ 0)).2 c endF.1 (quiet endF.2) /\ durable endF.1 (quiet endF.2).
Proof.
  destruct (sim_run flips0 evsF (MkSpec ∅ 0) nothing engF0 diskF0 (new_store_models flips0 "db" optsF [] diskF0 configuredF) run_withinF)
    as (e & w & c & E & Hm & Hd).
  assert (endF = (e, w)) as -> by (unfold endF; by rewrite E).
  specialize (Hd loggableF (new_store_durable flips0 "db" optsF [] empty_disk vacant0)). exists c. split.
  - eapply models_same; [exact Hm|apply inv_quiet, Hm|done..].
  - by apply (durable_same e e w (quiet w)).
Qed.

(** The limits at that point, and for what is in its logs, decided. *)
Definition flushable_b (rs : list Record) : bool :=
  match filter_of rs with Some f => bool_decide (fits true rs f) | None => false end.

Definition can_drain_b (e : Engine) : bool :=
  (e_genCounter e + N.of_nat (length (e_flushCh e)) + 3 <? max_u64)%N && o_compress (e_opts e) && fits_b e &&
  match buildRecords (e_mem e) with Some [] => true | Some rs => flushable_b rs | None => false end.

Lemma can_drain_b_spec e : can_drain_b e = true -> can_drain e.
Proof.
  unfold can_drain_b. intros [[[Hg%N.ltb_lt Hc]%andb_true_iff Hf]%andb_true_iff Hm]%andb_true_iff. split; [done|].
  split; [by apply fits_b_spec|]. destruct (buildRecords (e_mem e)) as [rs|]; [|done]. exists rs. split; [done|]. intros Hne.
  rewrite Hc. destruct rs as [|r rs]; [done|]. by apply flushable_decide.
Qed.

Fixpoint work_within_b (ws : list work) (e : Engine) (w : world) : bool :=
  match ws with
  | [] => true
  | x :: ws' => limits_b (work_event x) e &&
      match work_round x e w with (Ok (e1, _), w1) => work_within_b ws' e1 w1 | _ => true end
  end.

Lemma work_within_b_spec ws e w : work_within_b ws e w = true -> work_within ws e w.
Proof.
  revert e w. induction ws as [|x ws IH]; intros e w; [done|]. cbn [work_within_b work_within].
  intros [H1 H2]%andb_true_iff. split; [by apply limits_b_spec|].
  destruct (work_round x e w) as [[[e1 o]|err|] w1]; try done. by apply IH.
Qed.

Definition can_close_b (ws : list work) (e : Engine) (w : world) : bool :=
  o_compress (e_opts e) && fits_b e && work_within_b ws (set_closed true e) w &&
  match run_work ws (set_closed true e) w with (Ok (e1, _), _) => can_drain_b e1 | _ => true end.

Lemma can_close_b_spec ws e w : can_close_b ws e w = true -> can_close ws e w.
Proof.
  unfold can_close_b. intros [[[Hc Hf]%andb_true_iff Hw]%andb_true_iff Hd]%andb_true_iff.
  split_and!; [by apply fits_b_spec|by apply work_within_b_spec|].
  destruct (run_work ws (set_closed true e) w) as [[[e1 o]|err|] w1]; try done. by apply can_drain_b_spec.
Qed.

(** The flush worker takes another job before it sees that the engine stops. *)
Definition last_work : list work := [FlushRound].

Lemma can_closeF : can_close last_work endF.1 (quiet endF.2).
Proof. apply can_close_b_spec. vm_compute. reflexivity. Qed.

Lemma close_flushes_witness :
  exists e' w', Engine.Close last_work endF.1 (quiet endF.2) = (Ok (e', inl tt), w') /\ e_closed e' = true /\ e_imm e' = [] /\ e_flushCh e' = [] /\
    exists ssts rss mg, dir_files (e_dir endF.1) (w_files w') = ([], ssts, mg) /\ Forall2 (table_file w') ssts rss /\
      forall key, answer (newest key unboundedSeq (concat rss)) = lookup_answer (spec_run evsF (MkSpec ∅ 0)).2 key.
Proof.
  destruct endF_models as (c & Hm & Hd).
  exact (close_flushes last_work (spec_run evsF (MkSpec ∅ 0)).2 c endF.1 (quiet endF.2) Hm Hd eq_refl can_closeF).
Defined.

Lemma close_open_roundtrip_witness :
  exists e1 w1, Engine.Close last_work endF.1 (quiet endF.2) = (Ok (e1, inl tt), w1) /\
    exists e2 w2, Engine.Open flips0 (e_dir endF.1) optsF [] w1 = (Ok e2, w2) /\ forall key, key <> [] ->
      exists w3, getAt key unboundedSeq e2 w2 = (Ok (e2, lookup_answer (spec_run evsF (MkSpec ∅ 0)).2 key), w3).
Proof.
  destruct endF_models as (c & Hm & Hd).
  exact (close_open_roundtrip flips0 optsF [] last_work (spec_run evsF (MkSpec ∅ 0)).2 c endF.1 (quiet endF.2) Hm Hd eq_refl can_closeF).
Defined.

(** The values of [a], [b] and [c] in an engine opened on given files. *)
Definition reread (w : world) : option (bytes + error) * option (bytes + error) * option (bytes + error) :=
  match Engine.Open flips0 "db" optsF [] w with
  | (Ok e, w') => (result (Engine.Get a_ e w'), result (Engine.Get b_ e w'), result (Engine.Get c_ e w'))
  | _ => (None, None, None)
  end.

(** After a crash and after [Close]. *)
Example crash_runs : reread (quiet endF.2) = (Some (inl c_), Some (inl a_), Some (inl a_)).
Proof. vm_compute. reflexivity. Qed.

Example close_runs :
  match Engine.Close last_work endF.1 (quiet endF.2) with (Ok (_, inl _), w) => reread w | _ => (None, None, None) end =
  (Some (inl c_), Some (inl a_), Some (inl a_)).
Proof. vm_compute. reflexivity. Qed.

(** ** Opening again *)

(** Two writes of a key, still in the MemTable when the store is closed. *)
Definition optsR : list Option_ := [WithCompression true].
Definition engR0 : Engine := new_store flips0 "db" optsR [].
Definition evsR : list event := [EvPut a_ b_; EvPut a_ c_].
Definition spR : spec := (spec_run evsR (MkSpec ∅ 0)).2.
Definition endR : Engine * world := match run flips0 evsR engR0 diskF0 with Some (_, e, w) => (e, w) | None => (engR0, diskF0) end.
Definition heldR : contents := MkContents [MkRec a_ c_ TypeValue 2] [] [].

Lemma configuredR : config_ok (configured optsR).
Proof. by split_and!. Qed.

Lemma run_withinR : run_within flips0 evsR engR0 diskF0.
Proof. apply run_within_b_spec. vm_compute. reflexivity. Qed.

Lemma loggableR : Forall loggable evsR.
Proof. unfold evsR. rewrite !Forall_cons, Forall_nil. split_and!; vm_compute; done. Qed.

(** What an engine with nothing but a MemTable holds. *)
Lemma only_mem c e w rs :
  inv c e w -> buildRecords (e_mem e) = Some rs -> length (e_imm e) = 0 -> length (e_tables e) = 0 -> c = MkContents rs [] [].
Proof.
  intros Hi Hb Him Ht. pose proof (Forall2_length _ _ _ (inv_imm _ _ _ Hi)) as H1. pose proof (inv_length c e w Hi) as H2.
  rewrite (buildRecords_holds _ _ (inv_mem _ _ _ Hi)) in Hb. injection Hb as <-. destruct c as [m i t]. cbn in *.
  f_equal; apply nil_length_inv; congruence.
Qed.

Lemma endR_models : models spR heldR endR.1 (quiet endR.2) /\ durable endR.1 (quiet endR.2).
Proof.
  destruct (sim_run flips0 evsR (MkSpec ∅ 0) nothing engR0 diskF0 (new_store_models flips0 "db" optsR [] diskF0 configuredR) run_withinR)
    as (e & w & c & E & Hm & Hd).
  assert (endR = (e, w)) as -> by (unfold endR; by rewrite E).
  specialize (Hd loggableR (new_store_durable flips0 "db" optsR [] empty_disk vacant0)).
  assert (match run flips0 evsR engR0 diskF0 with
          | Some (_, e, _) => (buildRecords (e_mem e), length (e_imm e), length (e_tables e)) | None => (None, 0, 0) end =
          (Some (c_mem heldR), 0, 0)) as H by (vm_compute; reflexivity).
  rewrite E in H. injection H as H1 H2 H3. pose proof (only_mem c e w _ (md_inv _ _ _ _ Hm) H1 H2 H3) as ->. split.
  - eapply models_same; [exact Hm|apply inv_quiet, Hm|done..].
  - by apply (durable_same e e w (quiet w)).
Qed.

Lemma can_closeR : can_close [] endR.1 (quiet endR.2).
Proof. apply can_close_b_spec. vm_compute. reflexivity. Qed.

Lemma reopen_hides_writes_witness :
  sp_map spR !! a_ = Some c_ /\
  exists e1 w1 e2 w2 e3 w3 e4 w4,
    Engine.Close [] endR.1 (quiet endR.2) = (Ok (e1, inl tt), w1) /\
    Engine.Open flips0 (e_dir endR.1) optsR [] w1 = (Ok e2, w2) /\
    Engine.Put flips0 a_ b_ e2 w2 = (Ok (e3, inl tt), w3) /\
    Engine.Get a_ e3 w3 = (Ok (e4, inl c_), w4).
Proof.
  destruct endR_models as [Hm Hd].
  apply (reopen_hides_writes flips0 optsR [] [] false spR heldR endR.1 (quiet endR.2) a_ b_ (MkRec a_ c_ TypeValue 2) Hm Hd).
  - reflexivity.
  - exact can_closeR.
  - discriminate.
  - vm_compute. reflexivity.
  - vm_compute. reflexivity.
  - apply (bool_decide_unpack _). vm_compute. exact I.
  - vm_compute. split; reflexivity.
Defined.
