(* ===== verification/InterleaveExamples.v ===== *)
(** * Interleaved calls on a concrete store

    The theorem of InterleaveSteps.v applied to the store of EngineExamples.v: two
    writers that cross, a rotation, two flushes and a compaction, all cut at their
    critical sections and interleaved. *)

From S2P Require Import Prelude OrdMap GoIO IOLogic MemTable Versions SSTable Table Merge Metrics FileNames EngineState Engine EngineLogic EngineInv EngineFlush EngineLogs EngineWrite EngineCompact Store EngineExamples Interleave Linear InterleaveInv InterleaveSteps.
From S2P Require Wal SkipList Bloom.
From stdpp Require Import base gmap sets list strings numbers fin_maps sorting.
Open Scope nat_scope.

#[local] Existing Instance RunA.
#[local] Existing Instance Bloom.TenBits.
Import SSTable.Examples Table.Examples Merge.Examples.

(** ** Deciding the limits *)

Definition within_b (l : label) (m : machine) (e : Engine) : bool :=
  match l with
  | Begin _ _ _ _ => (e_seq e <? max_u64)%N
  | Rotate _ => (e_genCounter e + 1 <? max_u64)%N
  | HandOver cid =>
      match m_clients m !! cid with
      | Some (Handing _ job) => bool_decide (in_hand (m_flusher m) ++ e_flushCh e ++ [job] `prefix_of` job_of <$> e_imm e)
      | _ => true
      end
  | WriteTable => bool_decide (o_compress (e_opts e) = true) && (e_genCounter e <? max_u64)%N && fits_b e
  | MergePlan => false
  | _ => true
  end.

Lemma within_b_spec l m e w : within_b l m e = true -> step_within l m e w.
Proof.
  destruct l; cbn; try done; rewrite ?N.ltb_lt; [done|done| |].
  - intros H typ job E. rewrite E in H. by apply bool_decide_eq_true in H.
  - rewrite !andb_true_iff, bool_decide_eq_true, N.ltb_lt. intros [[Hc Hg] Hf]. split; [done|]. by apply fits_b_spec.
Qed.

Fixpoint runs_within_b (ls : list label) (m : machine) (e : Engine) (w : world) : bool :=
  match ls with
  | [] => true
  | l :: ls' => within_b l m e &&
      match step flips0 l m e w with
      | (Ok (e1, inl None), w1) => runs_within_b ls' m e1 w1
      | (Ok (e1, inl (Some (m1, _))), w1) => runs_within_b ls' m1 e1 w1
      | _ => true
      end
  end.

Lemma runs_within_b_spec ls m e w : runs_within_b ls m e w = true -> runs_within flips0 ls m e w.
Proof.
  revert m e w. induction ls as [|l ls IH]; intros m e w; [done|]. cbn [runs_within_b runs_within].
  intros [H1 H2]%andb_true_iff. split; [by apply within_b_spec|].
  destruct (step flips0 l m e w) as [[[e1 [[[m1 ns]|]|err]]|err|] w1]; try done; by apply IH.
Qed.

Lemma runs_within_cons l ls m e w m1 ns e1 w1 :
  step_within l m e w -> step flips0 l m e w = (Ok (e1, inl (Some (m1, ns))), w1) -> runs_within flips0 ls m1 e1 w1 ->
  runs_within flips0 (l :: ls) m e w.
Proof. intros Hl E Hls. cbn [runs_within]. split; [done|]. by rewrite E. Qed.

Lemma runs_within_rest l ls m e w :
  step_within l m e w ->
  match step flips0 l m e w with (Ok (e1, inl (Some (m1, _))), w1) => runs_within_b ls m1 e1 w1 | _ => false end = true ->
  runs_within flips0 (l :: ls) m e w.
Proof.
  intros Hl H. cbn [runs_within]. split; [done|].
  destruct (step flips0 l m e w) as [[[e1 [[[m1 ns]|]|err]]|err|] w1]; try done. by apply runs_within_b_spec.
Qed.

(** The inputs of a plan are determined by their numbers. *)
Lemma selected_unique c e w (ps qs : list (leveledTable * list Record)) :
  inv c e w -> ps ⊆ tables_of c e -> qs ⊆ tables_of c e -> tids ps = tids qs -> ps = qs.
Proof.
  intros Hi. revert qs. induction ps as [|p ps IH]; intros [|q qs] Hp Hq E; try done.
  injection E as E1 E2. f_equal.
  - apply (tables_of_inj c e w); [done|apply Hp; by left|apply Hq; by left|done].
  - apply IH; [intros x Hx; apply Hp; by right|intros x Hx; apply Hq; by right|done].
Qed.

Lemma merge_fits_known c e w plan bottom ps :
  inv c e w -> ps ⊆ tables_of c e -> p_inputs plan = tids ps ->
  (let out := merge_spec (minActiveSnapshotSeq e) bottom ps.*2 in out <> [] -> flushable (o_compress (e_opts e)) out) ->
  merge_fits plan bottom e w.
Proof.
  intros Hi Hps Hin Hfit c' qs Hc Hqs Hin'. rewrite (contents_unique c' c _ _ _ Hc Hi) in Hqs.
  rewrite (selected_unique c e w qs ps Hi Hqs Hps) by congruence. exact Hfit.
Qed.

(** ** The schedule *)

Lemma coherent6 : coherent (sp_map sp4) held idle eng6 disk1.
Proof. by apply models_coherent; [exact models4| |]. Qed.

(** A value that fills the MemTable. *)
Definition big : bytes := replicate 1000 Byte.x7a.

Definition mingled : list label :=
  [Begin 2 c_ big Wal.RecordPut; Log 2; Apply 2; Read 3 c_; Log 1; Apply 1; Read 3 a_; TakeJob; WriteTable; Rotate 2;
   Begin 3 b_ [] Wal.RecordDelete; CommitPlan; Log 3; Apply 3; Rotate 1; CommitPlan; CommitTable; HandOver 2; TakeJob;
   WriteTable; Read 4 b_; CommitTable; Read 4 a_; Read 4 b_; Read 4 c_; Load 4; Register 4].

(** The pass is chosen, a write begins, the pass merges. *)
Definition plan6 : compactionPlan := MkPlan [1; 0] 1.
Definition began : machine := set_client 1 (Some (Sequenced a_ b_ Wal.RecordPut 10)) (set_compactor (Planned plan6 true) idle).
Definition eng7 : Engine := set_lastSeq 10 (set_compactCh false eng6).

Lemma plan_step : step flips0 Plan idle eng6 disk1 =
  (Ok (set_compactCh false eng6, inl (Some (set_compactor (Planned plan6 true) idle, []))), disk1).
Proof. vm_compute. reflexivity. Qed.

Lemma begin_step : step flips0 (Begin 1 a_ b_ Wal.RecordPut) (set_compactor (Planned plan6 true) idle) (set_compactCh false eng6) disk1 =
  (Ok (eng7, inl (Some (began, []))), disk1).
Proof. vm_compute. reflexivity. Qed.

Lemma inv_began c e w s : inv c e w -> (e_seq e <= s)%N -> inv c (set_lastSeq s (set_compactCh false e)) w.
Proof. intros Hi Hs. apply (inv_seq c (set_compactCh false e)); [by eapply inv_irrelevant|done]. Qed.

Lemma inv7 : inv held eng7 disk1.
Proof. apply (inv_began held eng6 disk1 10 (md_inv _ _ _ _ models4)). vm_compute. discriminate. Qed.

Lemma tables7 : tables_of held eng7 = [(MkLT 1 0, recs); (MkLT 0 1, recs2)].
Proof. vm_compute. reflexivity. Qed.

Lemma bound7 : minActiveSnapshotSeq eng7 = 5%N /\ o_compress (e_opts eng7) = true.
Proof. vm_compute. done. Qed.

Lemma merge_fits7 : merge_fits plan6 true eng7 disk1.
Proof.
  apply (merge_fits_known held eng7 disk1 plan6 true [(MkLT 0 1, recs2); (MkLT 1 0, recs)] inv7); [|vm_compute; done|].
  - rewrite tables7. set_solver.
  - destruct bound7 as [-> ->]. cbv zeta. intros _. apply flushable_decide. vm_compute. reflexivity.
Qed.

Lemma merge_within7 : step_within MergePlan began eng7 disk1.
Proof. split; [vm_compute; done|]. intros plan bottom [= <- <-]. exact merge_fits7. Qed.

Lemma plan_within6 : step_within Plan idle eng6 disk1.
Proof. exact I. Qed.

Lemma begin_within6 : step_within (Begin 1 a_ b_ Wal.RecordPut) (set_compactor (Planned plan6 true) idle) (set_compactCh false eng6) disk1.
Proof. apply within_b_spec. vm_compute. reflexivity. Qed.

Lemma rest_within7 :
  match step flips0 MergePlan began eng7 disk1 with
  | (Ok (e1, inl (Some (m1, _))), w1) => runs_within_b mingled m1 e1 w1
  | _ => false
  end = true.
Proof. vm_compute. reflexivity. Qed.

Lemma runs_within6 : runs_within flips0 (Plan :: Begin 1 a_ b_ Wal.RecordPut :: MergePlan :: mingled) idle eng6 disk1.
Proof.
  apply (runs_within_cons _ _ _ _ _ _ _ _ _ plan_within6 plan_step), (runs_within_cons _ _ _ _ _ _ _ _ _ begin_within6 begin_step).
  exact (runs_within_rest MergePlan mingled began eng7 disk1 merge_within7 rest_within7).
Qed.

Lemma interleaving_linearizable_witness :
  exists e' w' m' ns, runs flips0 (Plan :: Begin 1 a_ b_ Wal.RecordPut :: MergePlan :: mingled) idle eng6 disk1 =
      (Ok (e', inl (m', ns)), w') /\ legal ns (sp_map sp4) /\ exists c', coherent (effects ns (sp_map sp4)) c' m' e' w'.
Proof. exact (interleaving_linearizable flips0 _ (sp_map sp4) held idle eng6 disk1 coherent6 eq_refl runs_within6). Defined.

(** What that schedule shows: both writers have ended, the table of the big value
    is in place, and the deleted key is gone. *)
Example mingled_observed :
  match runs flips0 (Plan :: Begin 1 a_ b_ Wal.RecordPut :: MergePlan :: mingled) idle eng6 disk1 with
  | (Ok (e', inl (_, ns)), _) => (ns, lt_level <$> e_tables e', length (e_imm e'))
  | _ => ([], [], 0)
  end = ([Effect c_ (Some big); Got 3 c_ (inl big); Effect a_ (Some b_); Got 3 a_ (inl b_); Effect b_ None; Done 3 (inl tt);
          Done 1 (inl tt); Done 2 (inl tt); Got 4 b_ (inr ErrNotFound); Got 4 a_ (inl b_);
          Got 4 b_ (inr ErrNotFound); Got 4 c_ (inl big); Snapped 4 (inl (MkSnapshot 12 false))], [1; 0; 0]%Z, 0).
Proof. vm_compute. reflexivity. Qed.
