(* ===== verification/BenchExamples.v ===== *)
(** * The benchmark on a concrete store

    The theorem of BenchRun.v applied to the store of EngineExamples.v: two workers
    whose calls cross, a rotation and a flush. *)

From S2P Require Import Prelude OrdMap GoIO IOLogic MemTable Versions SSTable Table Merge Metrics FileNames EngineState Engine EngineLogic EngineInv EngineFlush EngineLogs EngineWrite EngineCompact Store EngineExamples Interleave Linear InterleaveInv InterleaveSteps InterleaveExamples Bench BenchRun.
From S2P Require Wal SkipList Bloom.
From stdpp Require Import base gmap sets list strings numbers fin_maps sorting.
Open Scope nat_scope.

#[local] Existing Instance RunA.
#[local] Existing Instance Bloom.TenBits.
Import SSTable.Examples Table.Examples Merge.Examples.

Definition turn_within_b (t : turn) (b : bench) (e : Engine) : bool :=
  match next_step t b with Some (l, _) => within_b l (b_machine b) e | None => true end.

Fixpoint bench_within_b (ts : list turn) (b : bench) (e : Engine) (w : world) : bool :=
  match ts with
  | [] => true
  | t :: ts' => turn_within_b t b e &&
      match bench_step flips0 t b e w with (Ok (e1, inl b1), w1) => bench_within_b ts' b1 e1 w1 | _ => true end
  end.

Lemma bench_within_b_spec ts b e w : bench_within_b ts b e w = true -> bench_within flips0 ts b e w.
Proof.
  revert b e w. induction ts as [|t ts IH]; intros b e w; [done|]. cbn [bench_within_b bench_within].
  intros [H1 H2]%andb_true_iff. split.
  - intros l todo E. unfold turn_within_b in H1. rewrite E in H1. by apply within_b_spec.
  - destruct (bench_step flips0 t b e w) as [[[e1 [b1|err]]|err|] w1]; try done. by apply IH.
Qed.

(** ** The workers *)

Definition draws2 : list (list draw) := [[MkDraw 1 3 big; MkDraw 1 9 []]; [MkDraw 1 7 []; MkDraw 999 0 a_]].

(** A worker's put fills the MemTable while the other reads; the flush worker
    takes the MemTable between two calls. *)
Definition turns2 : list turn :=
  [Worker 0; Worker 1; Worker 0; Worker 1; Worker 0; Worker 1; Worker 1; Worker 0; Background TakeJob; Background WriteTable;
   Background CommitTable; Worker 0; Background TakeJob; Background WriteTable; Worker 0; Background CommitTable;
   Worker 1; Worker 0; Worker 1; Worker 0].

Definition bench2 : bench := MkBench idle draws2 0 0 0.

Lemma bench_within2 : bench_within flips0 turns2 bench2 eng6 disk1.
Proof. apply bench_within_b_spec. vm_compute. reflexivity. Qed.

(** The workers are done, and what they counted. *)
Example bench_observed :
  match runBenchmark flips0 draws2 turns2 eng6 disk1 with
  | (Ok (_, inl b), _) => Some (b_puts b, b_gets b, b_errors b, b_todo b, bool_decide (m_clients (b_machine b) = ∅))
  | _ => None
  end = Some (2%Z, 2%Z, 0%Z, [[]; []], true).
Proof. vm_compute. reflexivity. Qed.

Lemma benchmark_counts_witness :
  exists e' w' b, runBenchmark flips0 draws2 turns2 eng6 disk1 = (Ok (e', inl b), w') /\ b_errors b = 0%Z /\
    (finished b -> b_puts b = 2%Z /\ b_gets b = 2%Z).
Proof. exact (benchmark_counts flips0 draws2 turns2 (sp_map sp4) held eng6 disk1 coherent6 eq_refl eq_refl bench_within2). Defined.
