(* ===== verification/ReadersExamples.v ===== *)
(** * Overlapping reads on a concrete store

    The theorems on reads without the lock, applied to the store of
    EngineExamples.v: two reads and a scan that begin before a compaction replaces
    the tables they hold, and look in them afterwards, while writers go on. *)

From S2P Require Import Prelude OrdMap GoIO IOLogic MemTable Versions SSTable Table Merge Metrics FileNames EngineState Engine EngineLogic EngineInv EngineRead EngineFlush EngineLogs EngineWrite EngineCompact Store Scan EngineExamples Interleave Linear InterleaveInv InterleaveSteps InterleaveExamples Readers ReadersInv ReadersSteps InterleaveWhole ReadersWhole.
From S2P Require Wal SkipList Bloom.
From stdpp Require Import base gmap sets list strings numbers fin_maps sorting.
Open Scope nat_scope.

#[local] Existing Instance RunA.
#[local] Existing Instance Bloom.TenBits.
Import SSTable.Examples Table.Examples Merge.Examples.

(** ** Deciding the hypotheses *)

Definition balanced_b (e : Engine) : bool :=
  forallb (fun p => bool_decide (t_refCount p.2 = Z.of_nat (listed e p.1) /\ t_released p.2 = bool_decide (listed e p.1 = 0) /\
                                 t_removeOnZero p.2 = bool_decide (listed e p.1 = 0)))
    (map_to_list (e_store e)).

Lemma balanced_b_spec e : balanced_b e = true -> balanced [] e.
Proof.
  unfold balanced_b. rewrite forallb_forall. intros H. split; [|by intros tid ?%not_elem_of_nil].
  intros tid t Et. specialize (H (tid, t) (proj1 (list_elem_of_In _ _) (proj2 (elem_of_map_to_list _ _ _) Et))).
  apply bool_decide_eq_true in H. by rewrite Nat.add_0_r.
Qed.

(** A store whose tables are all listed has them apart. *)
Lemma apart_listed c e w :
  inv c e w -> (forall tid, is_Some (e_store e !! tid) -> tid ∈ allTablesLocked e) -> apart idle e.
Proof.
  intros Hi Hall.
  assert (forall tid t, e_store e !! tid = Some t -> exists i lt, e_tables e !! i = Some lt /\ lt_table lt = tid) as Hl.
  { intros tid t Et. pose proof (Hall tid ltac:(by eexists)) as Hin. unfold allTablesLocked in Hin. apply list_elem_of_fmap in Hin as (lt & -> & Hlt).
    apply list_elem_of_lookup in Hlt as [i Hlt]. by exists i, lt. }
  split.
  - intros tid t Et. split; [|apply not_elem_of_nil]. destruct (Hl tid t Et) as (i & lt & Hlt & <-).
    destruct (Forall2_lookup_l _ _ _ _ _ (inv_tables _ _ _ Hi) Hlt) as (rs & _ & Hok). eapply table_ok_known; [exact Hok|].
    unfold table_path. by rewrite Et.
  - intros i j t u Ei Ej E. destruct (Hl i t Ei) as (a & la & Ha & <-), (Hl j u Ej) as (b & lb & Hb & <-).
    assert (a = b) as ->; [|congruence]. eapply (NoDup_lookup (table_path e <$> e_tables e)); [apply Hi| |].
    + rewrite list_lookup_fmap, Ha. cbn. unfold table_path. by rewrite Ei.
    + rewrite list_lookup_fmap, Hb. cbn. unfold table_path. by rewrite Ej, E.
Qed.

Definition unlisted (e : Engine) : list nat := List.filter (fun tid => negb (bool_decide (tid ∈ allTablesLocked e))) (map_to_list (e_store e)).*1.

Lemma unlisted_spec e : unlisted e = [] -> forall tid, is_Some (e_store e !! tid) -> tid ∈ allTablesLocked e.
Proof.
  intros H tid [t Et]. destruct (decide (tid ∈ allTablesLocked e)) as [|Hn]; [done|]. exfalso.
  apply (in_nil (a := tid)). fold (@In nat). rewrite <- H. apply filter_In. split; [|by rewrite bool_decide_eq_false_2].
  apply list_elem_of_In, list_elem_of_fmap. exists (tid, t). split; [done|]. by apply elem_of_map_to_list.
Qed.

Lemma balanced6 : balanced [] eng6.
Proof. apply balanced_b_spec. vm_compute. reflexivity. Qed.

Lemma apart6 : apart idle eng6.
Proof. apply (apart_listed held eng6 disk1 (md_inv _ _ _ _ models4)), unlisted_spec. vm_compute. reflexivity. Qed.

Lemma overlapping6 : overlapping (sp_map sp4, ∅) held (at_rest eng6) eng6 disk1.
Proof. exact (rest_overlapping (sp_map sp4) held eng6 disk1 coherent6 balanced6 apart6). Qed.

(** ** Schedules *)

Fixpoint oruns_within_b (ls : list olabel) (o : overlap) (e : Engine) (w : world) : bool :=
  match ls with
  | [] => true
  | l :: ls' => match l with Base l => within_b l (o_machine o) e | _ => true end &&
      match ostep flips0 l o e w with
      | (Ok (e1, inl None), w1) => oruns_within_b ls' o e1 w1
      | (Ok (e1, inl (Some (o1, _))), w1) => oruns_within_b ls' o1 e1 w1
      | _ => true
      end
  end.

Lemma oruns_within_b_spec ls o e w : oruns_within_b ls o e w = true -> oruns_within flips0 ls o e w.
Proof.
  revert o e w. induction ls as [|l ls IH]; intros o e w; [done|]. cbn [oruns_within_b oruns_within].
  intros [H1 H2]%andb_true_iff. split; [destruct l; [by apply within_b_spec|done..]|].
  destruct (ostep flips0 l o e w) as [[[e1 [[[m1 ns]|]|err]]|err|] w1]; try done; by apply IH.
Qed.

Lemma ostep_base l o e w m1 ns e1 w1 :
  step flips0 l (o_machine o) e w = (Ok (e1, inl (Some (m1, ns))), w1) ->
  ostep flips0 (Base l) o e w = (Ok (e1, inl (Some (MkOverlap m1 (o_readers o) (remember e1 (o_mems o)), Note <$> ns))), w1).
Proof. intros E. cbn [ostep]. unfold ebind, bind. by rewrite E. Qed.

Lemma oruns_within_base l ls o e w m1 ns e1 w1 :
  step_within l (o_machine o) e w -> step flips0 l (o_machine o) e w = (Ok (e1, inl (Some (m1, ns))), w1) ->
  oruns_within flips0 ls (MkOverlap m1 (o_readers o) (remember e1 (o_mems o))) e1 w1 -> oruns_within flips0 (Base l :: ls) o e w.
Proof. intros Hl E Hls. cbn [oruns_within]. split; [done|]. by rewrite (ostep_base _ _ _ _ _ _ _ _ E). Qed.

Lemma oruns_within_rest l ls o e w :
  match l with Base l => step_within l (o_machine o) e w | _ => True end ->
  match ostep flips0 l o e w with (Ok (e1, inl (Some (o1, _))), w1) => oruns_within_b ls o1 e1 w1 | _ => false end = true ->
  oruns_within flips0 (l :: ls) o e w.
Proof.
  intros Hl H. cbn [oruns_within]. split; [done|].
  destruct (ostep flips0 l o e w) as [[[e1 [[[m1 ns]|]|err]]|err|] w1]; try done. by apply oruns_within_b_spec.
Qed.

(** Two reads and a scan begin, a put and a delete go on and the pass is committed.
    One read looks in the MemTable before the writers have changed it, the scan
    between them, the other read after them, all three in tables that are no longer
    listed. *)
Definition overlapped : list olabel :=
  [Enter 8 a_; Enter 9 c_; EnterScan 7 None None; Go 8; Base (Log 1); Base (Apply 1); Go 7; Base (Begin 2 c_ [] Wal.RecordDelete); Base (Log 2); Base (Apply 2);
   Base CommitPlan; Go 9; Go 9; Go 8; Go 9; Go 7; Go 8; Go 9; Go 8; Go 7; Go 8; Go 9; Go 8; Go 7; Go 9; Go 8; Go 9; Go 8; Go 9; Go 8; Go 9; Go 8; Go 9;
   Go 7; Go 7; ScanNext 7; ScanNext 7; ScanNext 7; ScanClose 7; Go 7; Go 7; Go 7].

Definition over0 : overlap := at_rest eng6.
Definition over1 : overlap := MkOverlap (set_compactor (Planned plan6 true) idle) ∅ (remember (set_compactCh false eng6) (o_mems over0)).
Definition over2 : overlap := MkOverlap began ∅ (remember eng7 (o_mems over1)).

Lemma orest7 :
  match ostep flips0 (Base MergePlan) over2 eng7 disk1 with
  | (Ok (e1, inl (Some (o1, _))), w1) => oruns_within_b overlapped o1 e1 w1
  | _ => false
  end = true.
Proof. vm_compute. reflexivity. Qed.

Lemma oruns_within6 : oruns_within flips0 (Base Plan :: Base (Begin 1 a_ b_ Wal.RecordPut) :: Base MergePlan :: overlapped) over0 eng6 disk1.
Proof.
  apply (oruns_within_base Plan _ over0 _ _ _ _ _ _ plan_within6 plan_step),
    (oruns_within_base (Begin 1 a_ b_ Wal.RecordPut) _ over1 _ _ _ _ _ _ begin_within6 begin_step).
  exact (oruns_within_rest (Base MergePlan) overlapped over2 eng7 disk1 merge_within7 orest7).
Qed.

(** The first read answers from before the put of [a_], the second from after the
    delete of [c_], and the scan is one of the map between them; the compaction's
    table is listed, its inputs have been closed when the last of the calls let go
    of them. *)
Example overlapped_observed :
  match oruns flips0 (Base Plan :: Base (Begin 1 a_ b_ Wal.RecordPut) :: Base MergePlan :: overlapped) over0 eng6 disk1 with
  | (Ok (e', inl (o', ns)), _) => (ns, lt_level <$> e_tables e', holders (o_readers o'), (fun t => (t_refCount t, t_released t)) <$> (map_to_list (e_store e')).*2)
  | _ => ([], [], [], [])
  end = ([Entered 8; Entered 9; Entered 7; Note (Effect a_ (Some b_)); Note (Done 1 (inl tt)); Note (Effect c_ None); Note (Done 2 (inl tt));
          Answered 8 a_ (inl c_); Answered 9 c_ (inr ErrNotFound); Opened 7 None None;
          Nexted 7 (inl (Some (a_, b_))); Nexted 7 (inl (Some (b_, a_))); Nexted 7 (inl (Some (c_, b_))); Closed 7],
         [1%Z], [], [(1%Z, false); (0%Z, true); (0%Z, true)]).
Proof. vm_compute. reflexivity. Qed.

Lemma overlapping_reads_linearizable_witness :
  exists e' w' o' ns, oruns flips0 (Base Plan :: Base (Begin 1 a_ b_ Wal.RecordPut) :: Base MergePlan :: overlapped) (at_rest eng6) eng6 disk1 =
      (Ok (e', inl (o', ns)), w') /\ olegal ns (sp_map sp4, ∅) /\
    (forall rid x tid, o_readers o' !! rid = Some x -> tid ∈ held_of x -> open_table (e_store e') tid) /\
    balanced (holders (o_readers o')) e'.
Proof.
  exact (overlapping_reads_linearizable flips0 _ (sp_map sp4) held eng6 disk1 coherent6 balanced6 apart6 eq_refl oruns_within6).
Defined.

(** The same store, one call at a time. *)
Lemma uninterrupted_calls_witness :
  let n := 20 in let o := at_rest eng6 in let it := MkScan [] [0] false in
  returns (runs flips0 (whole_write 1 a_ b_ Wal.RecordPut) idle) eng6 disk1 = (let? r := etry (Engine.Put flips0 a_ b_) in eret (idle, [r])) eng6 disk1 /\
  returns (runs flips0 (whole_write 1 a_ [] Wal.RecordDelete) idle) eng6 disk1 = (let? r := etry (Engine.Delete flips0 a_) in eret (idle, [r])) eng6 disk1 /\
  runs flips0 whole_flush idle eng6 disk1 = (flushWorker_step;;? eret (idle, [])) eng6 disk1 /\
  runs flips0 whole_pass idle eng6 disk1 = (compactionLoop_step;;? eret (idle, [])) eng6 disk1 /\
  oruns flips0 (Enter 8 a_ :: repeat (Go 8) n) o eng6 disk1 =
    (let? r := etry (Engine.Get a_) in eret (o, [Entered 8; Answered 8 a_ r])) eng6 disk1 /\
  oruns flips0 (EnterScan 8 None None :: repeat (Go 8) n) o eng6 disk1 =
    (let? r := etry (Scan None None) in
     match r with
     | inr err => eret (o, [Entered 8; ScanFailed 8 err])
     | inl it => eret (set_reader 8 (Some (Scanning it)) o, [Entered 8; Opened 8 None None])
     end) eng6 disk1 /\
  oruns flips0 (ScanClose 8 :: repeat (Go 8) n) (set_reader 8 (Some (Scanning it)) o) eng6 disk1 =
    (ScanIterator_Close it;;? eret (o, [Closed 8])) eng6 disk1.
Proof.
  assert (has_room eng6 /\ length (e_imm eng6) + 2 * length (e_tables eng6) + 3 <= 20) as [Hroom Hn].
  { unfold has_room. split; apply Nat.leb_le; vm_compute; reflexivity. }
  exact (uninterrupted_calls flips0 1 8 idle (at_rest eng6) 20 a_ b_ None None (MkScan [] [0] false) eng6 disk1
    (lookup_empty 1) eq_refl eq_refl eq_refl Hroom ltac:(discriminate) (lookup_empty 8) (lookup_insert_eq _ _ _) Hn ltac:(cbn; lia)).
Defined.
