(* ===== verification/Server.v ===== *)
(** * The HTTP server (src/server/server.go)

    The REST interface over an engine: the routing table, one handler per route
    with its status codes, headers and body, and the wrapper that writes the
    access log.  Requests are served one at a time, each against the engine that
    the previous steps left.

    Of net/http this follows what the handlers rely on: [ServeMux] matching a
    method and path segments, a [ResponseWriter] that ignores a second
    [WriteHeader] and takes 200 at the first [Write], [http.Error], and reading a
    request body through a limit.  A response body is kept as the pieces written
    to it, the JSON values before their encoding; writing to the client always
    succeeds. *)

From S2P Require Import Prelude GoIO MemTable Metrics FileNames EngineState Engine Scan.
From S2P Require Bloom SSTable.
From stdpp Require Import base gmap sets list strings numbers fin_maps sorting.
Open Scope nat_scope.

(** ** Requests and responses *)

(** A request as the mux sees it: the segments of the cleaned path, unescaped,
    and the query's values by name.  The body gives its bytes, then the error or
    the end. *)
Record Request := MkReq {
  rq_Method : string;
  rq_segs : list string;
  rq_query : list (string * string);
  rq_Body : bytes * option error;
  rq_pathValues : list (string * string) }.

Definition assoc (name : string) (l : list (string * string)) : string :=
  match List.find (fun nv => String.eqb nv.1 name) l with Some nv => nv.2 | None => "" end.

Definition PathValue (r : Request) (name : string) : string := assoc name (rq_pathValues r).
Definition query_Get (r : Request) (name : string) : string := assoc name (rq_query r).

(** [r.URL.Path]. *)
Definition URL_Path (r : Request) : string := String.concat "" ((fun s => String.append "/" s) <$> rq_segs r).

(** [io.ReadAll(io.LimitReader(body, limit))]. *)
Definition ReadAll_limit (body : bytes * option error) (limit : N) : bytes + error :=
  if (N.of_nat (length body.1) <? limit)%N
  then match body.2 with Some err => inr err | None => inl body.1 end
  else inl (take (N.to_nat limit) body.1).

(** [scanEntry]: a key and its value. *)
Definition scanEntry : Type := bytes * bytes.

(** What is written to a body: bytes, text, text followed by an error's, or a
    JSON value. *)
Inductive chunk :=
| Raw (b : bytes)
| Text (s : string)
| ErrorText (prefix : string) (err : error)
| JSONEntries (l : list scanEntry)
| JSONStats (s : Stats_).

Record ResponseWriter := MkRW { rw_status : option Z; rw_header : gmap string string; rw_body : list chunk }.

Definition empty_response : ResponseWriter := MkRW None ∅ [].

(** The status the client sees. *)
Definition sent_status (w : ResponseWriter) : Z := default 200%Z (rw_status w).

Record statusRecorder := MkRecorder { sr_w : ResponseWriter; sr_status : Z }.

(** [statusRecorder.WriteHeader], with the one it wraps. *)
Definition rw_WriteHeader (w : ResponseWriter) (code : Z) : ResponseWriter :=
  match rw_status w with Some _ => w | None => MkRW (Some code) (rw_header w) (rw_body w) end.

Definition WriteHeader (w : statusRecorder) (code : Z) : statusRecorder :=
  MkRecorder (rw_WriteHeader (sr_w w) code) code.

(** [Write] is the embedded writer's. *)
Definition rw_Write (w : ResponseWriter) (c : chunk) : ResponseWriter :=
  MkRW (Some (sent_status w)) (rw_header w) (rw_body w ++ [c]).

Definition Write (w : statusRecorder) (c : chunk) : statusRecorder := MkRecorder (rw_Write (sr_w w) c) (sr_status w).

Definition rw_Set (w : ResponseWriter) (name value : string) : ResponseWriter :=
  MkRW (rw_status w) (<[name := value]> (rw_header w)) (rw_body w).

Definition Header_Set (w : statusRecorder) (name value : string) : statusRecorder :=
  MkRecorder (rw_Set (sr_w w) name value) (sr_status w).

(** [http.Error]. *)
Definition http_Error (w : statusRecorder) (text : chunk) (code : Z) : statusRecorder :=
  let w := MkRecorder (MkRW (rw_status (sr_w w)) (delete "Content-Length" (rw_header (sr_w w))) (rw_body (sr_w w))) (sr_status w) in
  let w := Header_Set w "Content-Type" "text/plain; charset=utf-8" in
  let w := Header_Set w "X-Content-Type-Options" "nosniff" in
  let w := WriteHeader w code in
  Write (Write w text) (Text (String (Ascii.ascii_of_nat 10) "")).

Definition StatusOK : Z := 200.
Definition StatusNoContent : Z := 204.
Definition StatusBadRequest : Z := 400.
Definition StatusNotFound : Z := 404.
Definition StatusMethodNotAllowed : Z := 405.
Definition StatusRequestEntityTooLarge : Z := 413.
Definition StatusInternalServerError : Z := 500.
Definition StatusServiceUnavailable : Z := 503.

Definition maxRequestBody : N := 64 * 2 ^ 20.

Section server.
Context `{FM : Bloom.FloatMath} `{FL : SSTable.Flate}.
Context (coins : N -> list bool).

(** ** Handlers *)

Definition handler : Type := Request -> statusRecorder -> E statusRecorder.

Definition writeEngineError (w : statusRecorder) (err : error) : statusRecorder :=
  if errors_Is err ErrNotFound then http_Error w (ErrorText "" err) StatusNotFound
  else if errors_Is err ErrEmptyKey then http_Error w (ErrorText "" err) StatusBadRequest
  else if errors_Is err ErrClosed then http_Error w (ErrorText "" err) StatusServiceUnavailable
  else http_Error w (Text "internal error") StatusInternalServerError.

Definition handlePut : handler := fun r w =>
  let key := PathValue r "key" in
  match ReadAll_limit (rq_Body r) (maxRequestBody + 1) with
  | inr err => eret (http_Error w (ErrorText "reading request body: " err) StatusBadRequest)
  | inl value =>
      if (maxRequestBody <? N.of_nat (length value))%N
      then eret (http_Error w (Text "request body too large") StatusRequestEntityTooLarge)
      else
        let? res := etry (Engine.Put coins (bytes_of key) value) in
        match res with
        | inr err => eret (writeEngineError w err)
        | inl _ => eret (WriteHeader w StatusNoContent)
        end
  end.

Definition handleGet : handler := fun r w =>
  let key := PathValue r "key" in
  let? res := etry (Engine.Get (bytes_of key)) in
  match res with
  | inr err => eret (writeEngineError w err)
  | inl value => eret (Write (Header_Set w "Content-Type" "application/octet-stream") (Raw value))
  end.

Definition handleDelete : handler := fun r w =>
  let key := PathValue r "key" in
  let? res := etry (Engine.Delete coins (bytes_of key)) in
  match res with
  | inr err => eret (writeEngineError w err)
  | inl _ => eret (WriteHeader w StatusNoContent)
  end.

(** A bound of a scan: the empty string is no bound. *)
Definition query_bound (r : Request) (name : string) : option bytes :=
  match query_Get r name with EmptyString => None | v => Some (bytes_of v) end.

(** The parameter [limit]; [None] is an invalid one. *)
Definition query_limit (r : Request) : option Z :=
  match query_Get r "limit" with
  | EmptyString => Some 0%Z
  | v => match Atoi v with
         | Some n => if (n <? 0)%Z then None else Some n
         | None => None
         end
  end.

(** The loop over the iterator; running out of fuel is a panic. *)
Fixpoint scan_entries (fuel : nat) (limit : Z) (results : list scanEntry) (it : ScanIterator)
    : M (ScanIterator * (list scanEntry + error)) :=
  match fuel with
  | O => panic
  | S fuel' =>
      if (limit =? 0)%Z || (Z.of_nat (length results) <? limit)%Z then
        let! (it', next) := ScanIterator_Next it in
        match next with
        | inr err => ret (it', inr err)
        | inl None => ret (it', inl results)
        | inl (Some kv) => scan_entries fuel' limit (results ++ [kv]) it'
        end
      else ret (it, inl results)
  end.

Definition handleScan : handler := fun r w =>
  match query_limit r with
  | None => eret (http_Error w (Text "invalid limit") StatusBadRequest)
  | Some limit =>
      let? res := etry (Scan (query_bound r "start") (query_bound r "end")) in
      match res with
      | inr err => eret (writeEngineError w err)
      | inl it =>
          let? (it', results) := lift (scan_entries (scan_fuel (sc_h it)) limit [] it) in
          let w' := match results with
                    | inr err => http_Error w (ErrorText "scan error: " err) StatusInternalServerError
                    | inl entries => Write (Header_Set w "Content-Type" "application/json") (JSONEntries entries)
                    end in
          let? _ := ScanIterator_Close it' in
          eret w'
      end
  end.

Definition handleStats : handler := fun r w =>
  let w := Header_Set w "Content-Type" "application/json" in
  let? stats := Engine.Stats in
  eret (Write w (JSONStats stats)).

Definition handleHealthz : handler := fun r w =>
  eret (Write (WriteHeader w StatusOK) (Raw (bytes_of "ok"))).

(** ** The access log *)

(** A line: method, path and status. *)
Record access := MkAccess { a_method : string; a_path : string; a_status : Z }.

(** [http.HandlerFunc], as registered with the multiplexer: the response it leaves
    behind and what it logged. *)
Definition HandlerFunc : Type := Request -> ResponseWriter -> E (ResponseWriter * option access).

Definition withLogging (h : handler) : HandlerFunc := fun r w =>
  let rec := MkRecorder w StatusOK in
  let? rec := h r rec in
  eret (sr_w rec, Some (MkAccess (rq_Method r) (URL_Path r) (sr_status rec))).

(** ** Routing *)

(** A segment of a pattern: literal, or a wildcard [{name}]. *)
Inductive segment := Lit (s : string) | Wild (name : string).

Definition routes : list (string * list segment * HandlerFunc) := [
  ("PUT", [Lit "kv"; Wild "key"], withLogging handlePut);
  ("GET", [Lit "kv"; Wild "key"], withLogging handleGet);
  ("DELETE", [Lit "kv"; Wild "key"], withLogging handleDelete);
  ("GET", [Lit "scan"], withLogging handleScan);
  ("GET", [Lit "stats"], withLogging handleStats);
  ("GET", [Lit "healthz"], withLogging handleHealthz) ]%string.

(** The values of the wildcards when the path matches; a wildcard takes one
    segment that is not empty. *)
Fixpoint match_path (pat : list segment) (segs : list string) : option (list (string * string)) :=
  match pat, segs with
  | [], [] => Some []
  | Lit s :: pat', seg :: segs' => if String.eqb s seg then match_path pat' segs' else None
  | Wild name :: pat', seg :: segs' =>
      match seg with
      | EmptyString => None
      | _ => values ← match_path pat' segs'; Some ((name, seg) :: values)
      end
  | _, _ => None
  end.

(** A GET pattern also takes HEAD. *)
Definition match_method (pat method : string) : bool :=
  String.eqb pat method || (String.eqb pat "GET" && String.eqb method "HEAD").

(** The handler of a request with its path values, or whether another method
    would have matched the path. *)
Fixpoint find_route (rs : list (string * list segment * HandlerFunc)) (r : Request) : (HandlerFunc * Request) + bool :=
  match rs with
  | [] => inr false
  | (method, pat, h) :: rs' =>
      match match_path pat (rq_segs r) with
      | None => find_route rs' r
      | Some values =>
          if match_method method (rq_Method r)
          then inl (h, MkReq (rq_Method r) (rq_segs r) (rq_query r) (rq_Body r) values)
          else match find_route rs' r with inr _ => inr true | found => found end
      end
  end.

(** [mux.ServeHTTP]: the response and, if one was logged, its line.  The [Allow] header of a 405 is left out. *)
Definition ServeHTTP (r : Request) : E (ResponseWriter * option access) :=
  match find_route routes r with
  | inl (h, r') => h r' empty_response
  | inr true => eret (sr_w (http_Error (MkRecorder empty_response StatusOK) (Text "Method Not Allowed") StatusMethodNotAllowed), None)
  | inr false => eret (sr_w (http_Error (MkRecorder empty_response StatusOK) (Text "404 page not found") StatusNotFound), None)
  end.
End server.
