(* ===== verification/ServerStore.v ===== *)
(** * The server as a map

    What the endpoints promise a client, [rest], and that the handlers over the
    engine keep it: requests served in any order with the background work of the
    engine answer like a finite map.  The status codes of requests that are
    turned away, of a closed store, and of the access log. *)

From S2P Require Import Prelude OrdMap GoIO IOLogic MemTable Versions SSTable Table Merge Metrics FileNames EngineState EngineLogic EngineInv Engine EngineRead EngineFlush EngineLogs EngineWrite EngineCompact EngineOpen Store EngineRestart Scan ScanRead EngineFrame Server.
From S2P Require Wal SkipList Bloom.
From stdpp Require Import base gmap sets list strings numbers fin_maps sorting.
Open Scope nat_scope.

(** ** The endpoints *)

Inductive endpoint :=
| AtPut (key : string) | AtGet (key : string) | AtDelete (key : string)
| AtScan | AtStats | AtHealthz | WrongMethod | NoSuchPath.

Definition is_get (m : string) : bool := String.eqb "GET" m || String.eqb m "HEAD".

(** The endpoint a request names. *)
Definition endpoint_of (r : Request) : endpoint :=
  let only_get (at_ : endpoint) := if is_get (rq_Method r) then at_ else WrongMethod in
  match rq_segs r with
  | [a] =>
      if String.eqb "scan" a then only_get AtScan
      else if String.eqb "stats" a then only_get AtStats
      else if String.eqb "healthz" a then only_get AtHealthz else NoSuchPath
  | [a; key] =>
      if String.eqb "kv" a && negb (String.eqb key "") then
        if String.eqb "PUT" (rq_Method r) then AtPut key
        else if is_get (rq_Method r) then AtGet key
        else if String.eqb "DELETE" (rq_Method r) then AtDelete key else WrongMethod
      else NoSuchPath
  | _ => NoSuchPath
  end.

(** ** The replies *)

Definition plain_headers : gmap string string :=
  <["X-Content-Type-Options" := "nosniff"]> (<["Content-Type" := "text/plain; charset=utf-8"]> ∅)%string.

Definition error_reply (code : Z) (text : chunk) : ResponseWriter :=
  MkRW (Some code) plain_headers [text; Text (String (Ascii.ascii_of_nat 10) "")].
Definition no_content : ResponseWriter := MkRW (Some StatusNoContent) ∅ [].
Definition ok_reply (ctype : string) (c : chunk) : ResponseWriter :=
  MkRW (Some StatusOK) (<["Content-Type" := ctype]> ∅)%string [c].

(** The entries of a scan, in key order. *)
Definition scan_reply (r : Request) (limit : Z) (m : gmap bytes bytes) : list scanEntry :=
  let l := om_range (query_bound r "start") (query_bound r "end") (om_of_map m) in
  if (limit =? 0)%Z then l else take (Z.to_nat limit) l.

(** The numbers of the statistics are not the map's. *)
Inductive reply := Exactly (w : ResponseWriter) | SomeStats.

Definition replies (p : reply) (w : ResponseWriter) : Prop :=
  match p with
  | Exactly w' => w = w'
  | SomeStats => exists s, w = ok_reply "application/json" (JSONStats s)
  end.

(** The reply to a request and the map after it. *)
Definition rest (r : Request) (sp : spec) : reply * spec :=
  match endpoint_of r with
  | AtPut key =>
      if (maxRequestBody <? N.of_nat (length (rq_Body r).1))%N
      then (Exactly (error_reply 413 (Text "request body too large")), sp)
      else match (rq_Body r).2 with
           | Some err => (Exactly (error_reply 400 (ErrorText "reading request body: " err)), sp)
           | None => (Exactly no_content, MkSpec (<[bytes_of key := (rq_Body r).1]> (sp_map sp)) (sp_seq sp + 1))
           end
  | AtGet key =>
      (match sp_map sp !! bytes_of key with
       | Some v => Exactly (ok_reply "application/octet-stream" (Raw v))
       | None => Exactly (error_reply 404 (ErrorText "" ErrNotFound))
       end, sp)
  | AtDelete key => (Exactly no_content, MkSpec (delete (bytes_of key) (sp_map sp)) (sp_seq sp + 1))
  | AtScan =>
      (Exactly (match query_limit r with
                | None => error_reply 400 (Text "invalid limit")
                | Some limit => ok_reply "application/json" (JSONEntries (scan_reply r limit (sp_map sp)))
                end), sp)
  | AtStats => (SomeStats, sp)
  | AtHealthz => (Exactly (MkRW (Some StatusOK) ∅ [Raw (bytes_of "ok")]), sp)
  | WrongMethod => (Exactly (error_reply 405 (Text "Method Not Allowed")), sp)
  | NoSuchPath => (Exactly (error_reply 404 (Text "404 page not found")), sp)
  end.

Section server.
Context `{FM : Bloom.FloatMath} `{FL : Flate} `{HFL : !FlateLaws FL}.
Context (coins : N -> list bool).

(** ** Routing *)

Definition with_values (values : list (string * string)) (r : Request) : Request :=
  MkReq (rq_Method r) (rq_segs r) (rq_query r) (rq_Body r) values.

#[local] Ltac eqb_closed :=
  repeat match goal with
  | |- context [String.eqb ?a ?b] =>
      let v := eval cbv in (String.eqb a b) in
      lazymatch v with true => idtac | false => idtac end; change (String.eqb a b) with v; cbv beta iota
  end.

(** The routing table sends a request to the handler of its endpoint. *)
Lemma find_route_endpoint r :
  find_route (routes coins) r =
  match endpoint_of r with
  | AtPut key => inl (withLogging (handlePut coins), with_values [("key", key)]%string r)
  | AtGet key => inl (withLogging handleGet, with_values [("key", key)]%string r)
  | AtDelete key => inl (withLogging (handleDelete coins), with_values [("key", key)]%string r)
  | AtScan => inl (withLogging handleScan, with_values [] r)
  | AtStats => inl (withLogging handleStats, with_values [] r)
  | AtHealthz => inl (withLogging handleHealthz, with_values [] r)
  | WrongMethod => inr true
  | NoSuchPath => inr false
  end.
Proof.
  unfold endpoint_of, is_get, with_values, routes. cbn [find_route]. destruct r as [method segs query body values].
  cbn [rq_Method rq_segs rq_query rq_Body].
  destruct segs as [|a [|b [|c l]]]; cbn [match_path]; [done| | |].
  3: by destruct (String.eqb "kv" a), (String.eqb "scan" a), (String.eqb "stats" a), (String.eqb "healthz" a), b.
  - destruct (String.eqb_spec "scan" a) as [<-|H1]; [|destruct (String.eqb_spec "stats" a) as [<-|H2];
      [|destruct (String.eqb_spec "healthz" a) as [<-|H3]]];
      eqb_closed; unfold match_method; eqb_closed; cbn [andb orb];
      try (by destruct (String.eqb "GET" method), (String.eqb method "HEAD")).
    by destruct (String.eqb "kv" a).
  - destruct (String.eqb_spec "kv" a) as [<-|H1]; eqb_closed.
    2: by destruct (String.eqb "scan" a), (String.eqb "stats" a), (String.eqb "healthz" a).
    destruct b as [|x b]; [done|].
    unfold match_method. eqb_closed. cbn [negb andb].
    destruct (String.eqb "PUT" method) eqn:E1; [done|]. destruct (String.eqb "GET" method) eqn:E2; [done|].
    destruct (String.eqb method "HEAD") eqn:E3; [done|]. cbn [orb andb]. by destruct (String.eqb "DELETE" method).
Qed.

(** A key from a path is not empty. *)
Lemma endpoint_key r key :
  endpoint_of r = AtPut key \/ endpoint_of r = AtGet key \/ endpoint_of r = AtDelete key -> bytes_of key <> [].
Proof.
  unfold endpoint_of. destruct (rq_segs r) as [|a [|b [|c l]]]; try (repeat case_match; naive_solver).
  destruct (String.eqb_spec b "") as [->|Hb]; [rewrite andb_false_r; naive_solver|].
  assert (bytes_of b <> []) by by destruct b. repeat case_match; naive_solver.
Qed.

Lemma query_limit_nonneg r limit : query_limit r = Some limit -> (0 <= limit)%Z.
Proof. unfold query_limit. intros El. repeat case_match; try done; injection El as <-; [done|]. by apply Z.ltb_ge. Qed.

(** ** Calls into the engine *)

(** The entries of a scan up to a limit. *)
Lemma gives_scan_entries fuel limit res it kvs m :
  lists m it kvs -> length kvs < fuel -> (0 <= limit)%Z ->
  gives (scan_entries fuel limit res it)
    (fun x => same_scan it x.1 /\ x.2 = inl (res ++ if (limit =? 0)%Z then kvs else take (Z.to_nat limit - length res) kvs))
    (fun x => same_scan it x.1 /\ failed x.2).
Proof.
  intros Hl Hf Hn. revert res it kvs Hl Hf. induction fuel as [|fuel IH]; intros res it kvs Hl Hf; [lia|]. cbn [scan_entries].
  destruct ((limit =? 0)%Z || (Z.of_nat (length res) <? limit)%Z) eqn:Eg.
  2: { apply orb_false_iff in Eg as [-> Hlt]. apply Z.ltb_ge in Hlt. apply gives_ret. split; [done|]. cbn [snd].
       replace (Z.to_nat limit - length res) with 0 by lia. by rewrite take_0, app_nil_r. }
  eapply gives_bind; [by apply gives_Next| |].
  - intros [it' o] ([Et Ec] & Eo & Hl'). cbn [fst snd] in *. subst o. destruct kvs as [|kv kvs]; cbn [head].
    + apply gives_ret. split; [done|]. cbn [snd]. by destruct (limit =? 0)%Z; rewrite ?take_nil, app_nil_r.
    + eapply gives_mono; [apply (IH (res ++ [kv]) it' kvs Hl'); cbn in Hf; lia| |].
      * intros x [[E1 E2] ->]. split; [split; congruence|]. f_equal. rewrite <- app_assoc. f_equal. cbn [app].
        destruct (Z.eqb_spec limit 0) as [->|Hz]; [done|]. cbn [orb] in Eg. apply Z.ltb_lt in Eg.
        rewrite length_app. cbn [length]. replace (Z.to_nat limit - length res) with (S (Z.to_nat limit - (length res + 1))) by lia.
        done.
      * intros x [[E1 E2] ?]. split; [split; congruence|done].
  - intros [it' o] [Hs [err Ee]]. cbn [fst snd] in *. subst o. exists (it', inr err). split; [done|]. split; [done|by eexists].
Qed.

(** ** The simulation *)

(** What a write asks of the engine, and what its log asks of the key. *)
Definition req_within (r : Request) (e : Engine) (w : world) : Prop :=
  match endpoint_of r with AtPut key | AtDelete key => within_limits (EvDelete (bytes_of key)) e w | _ => True end.

Definition req_loggable (r : Request) : Prop :=
  match endpoint_of r with
  | AtPut key | AtDelete key => (N.of_nat (length (bytes_of key)) <= Wal.maxReasonableLen)%N
  | _ => True
  end.

(** A request answered as [rest] says, by a store that represents the map. *)
Definition serves (r : Request) (sp : spec) (e : Engine) (w : world) (rw : ResponseWriter) (e' : Engine) (w' : world) : Prop :=
  replies (rest r sp).1 rw /\ (req_loggable r -> durable e w -> durable e' w') /\ exists c', models (rest r sp).2 c' e' w'.

Definition handles (r : Request) (sp : spec) (e : Engine) (w : world) (res : statusRecorder + error) (e' : Engine) (w' : world) : Prop :=
  exists sr, res = inl sr /\ serves r sp e w (sr_w sr) e' w'.

#[local] Abbreviation fresh_recorder := (MkRecorder empty_response StatusOK).

(** A reply that leaves the store alone. *)
Lemma serves_same r sp c e w rw :
  models sp c e w -> replies (rest r sp).1 rw -> (rest r sp).2 = sp -> serves r sp e w rw e w.
Proof. intros Hm Hr Hs. split_and!; [done|done|]. exists c. by rewrite Hs. Qed.

Lemma serves_metrics r sp c e w w' rw m :
  models sp c e w -> w_files w' = w_files w -> replies (rest r sp).1 rw -> (rest r sp).2 = sp ->
  serves r sp e w rw (set_metrics m e) w'.
Proof.
  intros Hm Hw Hr Hs. split_and!; [done|intros _ Hd; by apply (durable_same e _ w w')|]. exists c. rewrite Hs.
  eapply models_same; [exact Hm| |done..]. eapply inv_irrelevant; [apply Hm|done..].
Qed.

Lemma handles_put r key sp c e w :
  endpoint_of r = AtPut key -> models sp c e w -> w_faults w = [] -> req_within r e w ->
  wp (handlePut coins (with_values [("key", key)]%string r) fresh_recorder) (handles r sp e w) e w.
Proof.
  intros Hr Hm Hw Hl. pose proof (endpoint_key r key (or_introl Hr)) as Hk. unfold req_within in Hl. rewrite Hr in Hl.
  unfold handlePut. cbn [rq_Body with_values]. change (PathValue _ _) with key. unfold ReadAll_limit.
  destruct (rq_Body r) as [data berr] eqn:Eb. cbn [fst snd].
  assert (rest r sp = rest r sp) as Hrest by done. unfold rest in Hrest at 2. rewrite Hr, Eb in Hrest. cbn [fst snd] in Hrest.
  destruct (N.ltb_spec maxRequestBody (N.of_nat (length data))) as [Hbig|Hsmall].
  - rewrite (proj2 (N.ltb_ge _ _)) by lia. rewrite length_take, (proj2 (N.ltb_lt _ _)) by lia. wp_step.
    eexists. split; [done|]. eapply serves_same; [done| |]; by rewrite Hrest.
  - rewrite (proj2 (N.ltb_lt (N.of_nat _) _)) by lia. destruct berr as [err|].
    + wp_step. eexists. split; [done|]. eapply serves_same; [done| |]; by rewrite Hrest.
    + rewrite (proj2 (N.ltb_ge _ _)) by lia. wp_step. eapply wp_mono.
      { apply wp_outcome. exact (sim_step coins (EvPut (bytes_of key) data) sp c e w Hm Hw Hl). }
      intros ? e' w' (x & -> & Ho & Hd & c' & Hm' & _).
      assert (spec_step (EvPut (bytes_of key) data) sp = (ODone (inl tt), MkSpec (<[bytes_of key := data]> (sp_map sp)) (sp_seq sp + 1)))
        as Es by (cbn; by destruct (bytes_of key)).
      rewrite Es in Ho, Hm'. injection Ho as ->. cbv beta iota. wp_step. eexists. split; [done|].
      split_and!; [by rewrite Hrest| |exists c'; by rewrite Hrest].
      intros Hlg Hdu. apply Hd; [|done]. unfold req_loggable in Hlg. rewrite Hr in Hlg. split; [done|].
      unfold Wal.maxReasonableLen. unfold maxRequestBody in Hsmall. lia.
Qed.

Lemma handles_delete r key sp c e w :
  endpoint_of r = AtDelete key -> models sp c e w -> w_faults w = [] -> req_within r e w ->
  wp (handleDelete coins (with_values [("key", key)]%string r) fresh_recorder) (handles r sp e w) e w.
Proof.
  intros Hr Hm Hw Hl. pose proof (endpoint_key r key ltac:(auto)) as Hk. unfold req_within in Hl. rewrite Hr in Hl.
  unfold handleDelete. change (PathValue _ _) with key. wp_step. eapply wp_mono.
  { apply wp_outcome. exact (sim_step coins (EvDelete (bytes_of key)) sp c e w Hm Hw Hl). }
  intros ? e' w' (x & -> & Ho & Hd & c' & Hm' & _).
  assert (spec_step (EvDelete (bytes_of key)) sp = (ODone (inl tt), (rest r sp).2)) as Es
    by (unfold rest; rewrite Hr; cbn; by destruct (bytes_of key)).
  rewrite Es in Ho, Hm'. injection Ho as ->. cbv beta iota. wp_step. eexists. split; [done|].
  split_and!; [by unfold rest; rewrite Hr| |by exists c']. unfold req_loggable. rewrite Hr. apply Hd.
Qed.

Lemma handles_get r key sp c e w :
  endpoint_of r = AtGet key -> models sp c e w -> w_faults w = [] ->
  wp (handleGet (with_values [("key", key)]%string r) fresh_recorder) (handles r sp e w) e w.
Proof.
  intros Hr Hm Hw. pose proof (endpoint_key r key ltac:(auto)) as Hk.
  unfold handleGet. change (PathValue _ _) with key. wp_step. eapply wp_mono.
  { apply wp_outcome. exact (sim_step coins (EvGet (bytes_of key)) sp c e w Hm Hw I). }
  intros ? e' w' (x & -> & Ho & Hd & c' & Hm' & _).
  assert (x = lookup_answer sp (bytes_of key)) as -> by (cbn in Ho; injection Ho as ->; by destruct (bytes_of key)).
  assert (serves r sp e w (default (error_reply 404 (ErrorText "" ErrNotFound))
    ((fun v => ok_reply "application/octet-stream" (Raw v)) <$> sp_map sp !! bytes_of key)) e' w') as Hs.
  { unfold serves, rest. rewrite Hr. cbn [fst snd]. split_and!; [by destruct (sp_map sp !! _)|intros _; by apply Hd|by exists c']. }
  unfold lookup_answer. destruct (sp_map sp !! bytes_of key) as [v|]; wp_step; (eexists; split; [done|exact Hs]).
Qed.

Lemma handles_scan r sp c e w :
  endpoint_of r = AtScan -> models sp c e w -> w_faults w = [] ->
  wp (handleScan (with_values [] r) fresh_recorder) (handles r sp e w) e w.
Proof.
  intros Hr Hm Hw. pose proof (md_inv _ _ _ _ Hm) as Hi. unfold handleScan. change (query_limit (with_values [] r)) with (query_limit r).
  assert (rest r sp = rest r sp) as Hrest by done. unfold rest in Hrest at 2. rewrite Hr in Hrest.
  destruct (query_limit r) as [limit|] eqn:El.
  2: { wp_step. eexists. split; [done|]. eapply serves_same; [done| |]; by rewrite Hrest. }
  pose proof (query_limit_nonneg r limit El) as Hlim.
  unfold Scan, inc. do 4 wp_step. set (e1 := set_metrics _ e).
  change (query_bound (with_values [] r)) with (query_bound r).
  assert (inv c e1 w) as Hi1 by (eapply inv_irrelevant; [exact Hi|done..]).
  eapply wp_mono; [apply (wp_scanAt c e1 w _ _ unboundedSeq Hi1); apply (md_open _ _ _ _ Hm)|].
  intros res e2 w2 [Hw2 H]. destruct res as [it|err]; [|by destruct H].
  destruct H as (Hq2 & Ht & Hcl & E2 & Hpin & kvs & Hl & Hs & Hin).
  assert (kvs = om_range (query_bound r "start") (query_bound r "end") (om_of_map (sp_map sp))) as Hkvs.
  { eapply scan_of_map; [exact Hs|exact Hin|]. intros k. exact (answer_lookup sp c e w k Hm). }
  wp_step. apply wp_lift. pose proof (gives_scan_entries (scan_fuel (sc_h it)) limit [] it kvs _ Hl (lists_fuel _ _ _ Hl) Hlim w2) as HG.
  destruct (scan_entries _ _ _ _ w2) as [[[it' out]|?|] w3]; [|done|done]. destruct HG as [Hw3 HG]. cbn [fst snd] in HG.
  destruct HG as [[[[Et Ecl] ->] Hq3]|[_ Hbad]]; [|by rewrite Hq2 in Hbad]. cbv beta iota zeta. wp_step.
  apply (wp_of_run _ _ _ _ _ _ _ (eq_trans (f_equal (fun x => ScanIterator_Close it' x w3) E2)
    (Close_scan it' e1 (e_store e2) w3 (inv_open_tables _ _ _ Hi1) (eq_trans Et Ht) (eq_trans Ecl Hcl) Hpin))).
  cbv beta iota. wp_step. eexists. split; [done|]. eapply serves_metrics; [done|congruence| |by rewrite Hrest].
  rewrite Hrest. cbn [fst replies]. unfold scan_reply. rewrite <- Hkvs. cbn [length app]. by rewrite Nat.sub_0_r.
Qed.

Lemma handles_stats r sp c e w :
  endpoint_of r = AtStats -> models sp c e w -> wp (handleStats (with_values [] r) fresh_recorder) (handles r sp e w) e w.
Proof.
  intros Hr Hm. unfold handleStats. wp_step. eapply wp_mono; [apply wp_Stats|]. intros ? e' w' (-> & [s ->] & m & ->). wp_step.
  eexists. split; [done|]. eapply serves_metrics; [done|done| |]; unfold rest; rewrite Hr; [by exists s|done].
Qed.

(** One request. *)
Lemma serve_request r sp c e w :
  models sp c e w -> w_faults w = [] -> req_within r e w ->
  wp (ServeHTTP coins r) (fun res e' w' => exists rw line, res = inl (rw, line) /\ serves r sp e w rw e' w') e w.
Proof.
  intros Hm Hw Hl. unfold ServeHTTP. rewrite find_route_endpoint.
  assert (forall h r', wp (h r' fresh_recorder) (handles r sp e w) e w ->
    wp (withLogging h r' empty_response)
      (fun res e' w' => exists rw line, res = inl (rw, line) /\ serves r sp e w rw e' w') e w) as Hlog.
  { intros h r' H. unfold withLogging. wp_step. eapply wp_mono; [exact H|]. intros ? e' w' (sr & -> & Hs).
    wp_step. by do 2 eexists. }
  destruct (endpoint_of r) as [key|key|key| | | | |] eqn:Er.
  - apply Hlog. by apply (handles_put r key sp c).
  - apply Hlog. by apply (handles_get r key sp c).
  - apply Hlog. by apply (handles_delete r key sp c).
  - apply Hlog. by apply (handles_scan r sp c).
  - apply Hlog. by apply (handles_stats r sp c).
  - apply Hlog. unfold handleHealthz. wp_step. eexists. split; [done|]. eapply serves_same; [done| |]; unfold rest; by rewrite Er.
  - wp_step. do 2 eexists. split; [done|]. eapply serves_same; [done| |]; unfold rest; by rewrite Er.
  - wp_step. do 2 eexists. split; [done|]. eapply serves_same; [done| |]; unfold rest; by rewrite Er.
Qed.

(** ** Runs *)

(** A request, or a step of the engine that no request asked for. *)
Inductive action := Serve (r : Request) | Background (ev : event).

(** The responses of a run without failing system calls. *)
Fixpoint serve_run (acts : list action) (e : Engine) (w : world) : option (list ResponseWriter * Engine * world) :=
  match acts with
  | [] => Some ([], e, w)
  | Serve r :: acts' =>
      match ServeHTTP coins r e (quiet w) with
      | (Ok (e1, inl (rw, _)), w1) =>
          match serve_run acts' e1 w1 with Some (rws, e2, w2) => Some (rw :: rws, e2, w2) | None => None end
      | _ => None
      end
  | Background ev :: acts' =>
      match exec coins ev e (quiet w) with
      | (Ok (e1, inl _), w1) => serve_run acts' e1 w1
      | _ => None
      end
  end.

Fixpoint rest_run (acts : list action) (sp : spec) : list reply * spec :=
  match acts with
  | [] => ([], sp)
  | Serve r :: acts' => let (p, sp1) := rest r sp in let (ps, sp2) := rest_run acts' sp1 in (p :: ps, sp2)
  | Background ev :: acts' => rest_run acts' (spec_step ev sp).2
  end.

(** Every action finds the engine within its limits. *)
Fixpoint serve_within (acts : list action) (e : Engine) (w : world) : Prop :=
  match acts with
  | [] => True
  | Serve r :: acts' => req_within r e (quiet w) /\
      match ServeHTTP coins r e (quiet w) with (Ok (e1, inl _), w1) => serve_within acts' e1 w1 | _ => True end
  | Background ev :: acts' => within_limits ev e (quiet w) /\
      match exec coins ev e (quiet w) with (Ok (e1, inl _), w1) => serve_within acts' e1 w1 | _ => True end
  end.

Definition act_loggable (a : action) : Prop :=
  match a with Serve r => req_loggable r | Background ev => loggable ev end.

Lemma serve_sim acts sp c e w :
  models sp c e w -> serve_within acts e w ->
  exists rws e' w' c', serve_run acts e w = Some (rws, e', w') /\ Forall2 replies (rest_run acts sp).1 rws /\
    models (rest_run acts sp).2 c' e' w' /\ (Forall act_loggable acts -> durable e w -> durable e' w').
Proof.
  revert sp c e w. induction acts as [|[r|ev] acts IH]; intros sp c e w Hm Hl.
  { exists [], e, w, c. by split_and!. }
  all: assert (models sp c e (quiet w)) as Hmq by (eapply models_same; [exact Hm|apply inv_quiet, Hm|done..]).
  all: destruct Hl as [Hl Hn]; cbn [serve_run rest_run].
  - destruct (wp_run _ _ _ _ (serve_request r sp c e (quiet w) Hmq eq_refl Hl)) as (res & e1 & w1 & E & rw & line & -> & Hp & Hd & c1 & Hm1).
    rewrite E in Hn |- *. destruct (rest r sp) as [p sp1]. cbn [fst snd] in *.
    destruct (IH sp1 c1 e1 w1 Hm1 Hn) as (rws & e2 & w2 & c2 & E2 & Hps & Hm2 & Hd2). rewrite E2.
    destruct (rest_run acts sp1) as [ps sp2]. exists (rw :: rws), e2, w2, c2. split_and!; [done|by constructor|done|].
    intros [Hlg Hlgs]%Forall_cons Hdu. apply Hd2; [done|]. apply Hd; [done|]. by apply (durable_same e e w (quiet w)).
  - destruct (wp_run _ _ _ _ (sim_step coins ev sp c e (quiet w) Hmq eq_refl Hl)) as (res & e1 & w1 & E & -> & Hd & c1 & Hm1 & _).
    rewrite E in Hn |- *. destruct (IH _ c1 e1 w1 Hm1 Hn) as (rws & e2 & w2 & c2 & E2 & Hps & Hm2 & Hd2).
    exists rws, e2, w2, c2. split_and!; [done|done|done|].
    intros [Hlg Hlgs]%Forall_cons Hdu. apply Hd2; [done|]. apply Hd; [done|]. by apply (durable_same e e w (quiet w)).
Qed.

(** C6: the service is a map.  From a store that represents a map, any sequence
    of requests, mixed with rounds of the background workers and snapshots, in
    which no system call fails is answered as [rest] says: a PUT within the size
    limit and a DELETE with 204, a GET with the value or 404, a scan with the
    entries in range in key order up to the limit, the rest with the 4xx of its
    mistake; the store then represents the map after the writes. *)
Theorem server_refines_map acts sp c e w :
  models sp c e w -> serve_within acts e w ->
  exists rws e' w', serve_run acts e w = Some (rws, e', w') /\ Forall2 replies (rest_run acts sp).1 rws /\
    exists c', models (rest_run acts sp).2 c' e' w'.
Proof.
  intros Hm Hl. destruct (serve_sim acts sp c e w Hm Hl) as (rws & e' & w' & c' & E & Hp & Hm' & _). exists rws, e', w'. eauto.
Qed.

(** C2: acknowledged requests survive a crash.  Requests are served one at a time,
    with flushes and compactions between them, and no system call fails; the
    service stops after any number of them, within the limits of the logs and tables.  Opening what a crash leaves of its
    files then gives a store that holds the map after every write it answered with
    204.  (Requests served side by side are not covered: two writes of one key may
    change places then, [crossing_writes_change_places] in EngineRaces.v.) *)
Theorem server_crash_recovery acts sp c e w :
  models sp c e w -> durable e w -> serve_within acts e w -> Forall act_loggable acts ->
  exists rws e1 w1, serve_run acts e w = Some (rws, e1, w1) /\ Forall2 replies (rest_run acts sp).1 rws /\
    forall coins' opts clock w2, restarts w1 w2 -> (e_genCounter e1 + 2 < max_u64)%N ->
      (unflushed (logs e1) w1 <> [] -> flushable (o_compress (configured opts)) (unflushed (logs e1) w1)) ->
      exists e2 w3, Engine.Open coins' (e_dir e1) opts clock w2 = (Ok e2, w3) /\ forall key, key <> [] ->
        exists w4, getAt key unboundedSeq e2 w3 = (Ok (e2, lookup_answer (rest_run acts sp).2 key), w4).
Proof.
  intros Hm Hd Hl Hlg. destruct (serve_sim acts sp c e w Hm Hl) as (rws & e1 & w1 & c1 & E & Hp & Hm1 & Hd1).
  exists rws, e1, w1. split_and!; [done|done|]. by apply (recovers _ c1); [|apply Hd1].
Qed.
End server.

(** ** Requests turned away *)

Section refusals.
Context `{FM : Bloom.FloatMath} `{FL : Flate}.
Context (coins : N -> list bool).

(** The requests that do not reach the engine. *)
Definition refusal (r : Request) : option ResponseWriter :=
  match endpoint_of r with
  | NoSuchPath => Some (error_reply 404 (Text "404 page not found"))
  | WrongMethod => Some (error_reply 405 (Text "Method Not Allowed"))
  | AtPut _ =>
      if (maxRequestBody <? N.of_nat (length (rq_Body r).1))%N then Some (error_reply 413 (Text "request body too large"))
      else (fun err => error_reply 400 (ErrorText "reading request body: " err)) <$> (rq_Body r).2
  | AtScan => match query_limit r with None => Some (error_reply 400 (Text "invalid limit")) | Some _ => None end
  | _ => None
  end.

(** The endpoints that use the store's data. *)
Definition uses_data (r : Request) : bool :=
  match endpoint_of r with AtPut _ | AtGet _ | AtDelete _ | AtScan => true | _ => false end.

Lemma ReadAll_limit_spec body :
  ReadAll_limit body (maxRequestBody + 1) =
    if (maxRequestBody <? N.of_nat (length body.1))%N then inl (take (N.to_nat (maxRequestBody + 1)) body.1)
    else match body.2 with Some err => inr err | None => inl body.1 end.
Proof.
  unfold ReadAll_limit. destruct (N.ltb_spec maxRequestBody (N.of_nat (length body.1))).
  - by rewrite (proj2 (N.ltb_ge _ _)) by lia.
  - by rewrite (proj2 (N.ltb_lt _ _)) by lia.
Qed.

(** C22: requests turned away.  Whatever the state of the store and the system
    calls to come, a request without an endpoint, with a wrong method, with a
    body that is too large or cannot be read, or with an invalid limit gets
    exactly its 404, 405, 413 or 400, and the store is not touched. *)
Theorem refused_untouched r rw e w :
  refusal r = Some rw -> exists line, ServeHTTP coins r e w = (Ok (e, inl (rw, line)), w).
Proof.
  intros Hr. unfold ServeHTTP. rewrite find_route_endpoint. unfold refusal in Hr.
  destruct (endpoint_of r) as [key|key|key| | | | |]; try done.
  - unfold withLogging, handlePut. cbn [rq_Body with_values]. rewrite ReadAll_limit_spec.
    destruct (N.ltb_spec maxRequestBody (N.of_nat (length (rq_Body r).1))) as [Hbig|Hs].
    + rewrite length_take, (proj2 (N.ltb_lt _ _)) by lia. injection Hr as <-. by eexists.
    + destruct (rq_Body r).2 as [err|]; [|done]. injection Hr as <-. by eexists.
  - unfold withLogging, handleScan. change (query_limit (with_values [] r)) with (query_limit r).
    destruct (query_limit r); [done|]. injection Hr as <-. by eexists.
  - injection Hr as <-. by eexists.
  - injection Hr as <-. by eexists.
Qed.

(** C23: a closed store.  Every request that needs the data of a store that was
    closed gets a 503 with the engine's error; only metrics change. *)
Theorem closed_unavailable r e w :
  e_closed e = true -> refusal r = None -> uses_data r = true ->
  exists e' line, ServeHTTP coins r e w = (Ok (e', inl (error_reply 503 (ErrorText "" ErrClosed), line)), w) /\ remetered e e'.
Proof.
  intros Hc Hr Hu. unfold ServeHTTP. rewrite find_route_endpoint. unfold refusal in Hr. unfold uses_data in Hu.
  pose proof (endpoint_key r) as Hk.
  assert (forall h r', wp (h r' (MkRecorder empty_response StatusOK)) (fun res e' w' =>
      w' = w /\ remetered e e' /\ exists st, res = inl (MkRecorder (error_reply 503 (ErrorText "" ErrClosed)) st)) e w ->
    exists e' line, withLogging h r' empty_response e w =
      (Ok (e', inl (error_reply 503 (ErrorText "" ErrClosed), line)), w) /\ remetered e e') as Hlog.
  { intros h r' H. apply wp_run in H as (? & e' & ? & E & -> & He & st & ->). exists e'. eexists. split; [|done].
    unfold withLogging, ebind, bind. rewrite E. done. }
  destruct (endpoint_of r) as [key|key|key| | | | |] eqn:Er; try done; apply Hlog.
  - specialize (Hk key ltac:(auto)). unfold handlePut. cbn [rq_Body with_values]. rewrite ReadAll_limit_spec.
    change (PathValue _ _) with key. destruct (N.ltb_spec maxRequestBody (N.of_nat (length (rq_Body r).1))) as [Hbig|Hs]; [done|].
    destruct (rq_Body r).2; [done|]. rewrite (proj2 (N.ltb_ge _ _)) by lia. do 2 wp_step. destruct (bytes_of key); [done|].
    unfold Engine.Put, write, write_locked, write_begin, observe_since, inc. do 6 wp_step. rewrite Hc. wp_steps. split_and!; [done|by eapply remetered_set|by eexists].
  - specialize (Hk key ltac:(auto)). unfold handleGet. change (PathValue _ _) with key. do 2 wp_step. destruct (bytes_of key); [done|].
    unfold Engine.Get, getAt, recordGet, observe_since, inc. do 4 wp_step. rewrite Hc. wp_steps. cbn [err_opt].
    wp_steps. split_and!; [done|by eapply remetered_set|by eexists].
  - specialize (Hk key ltac:(auto)). unfold handleDelete. change (PathValue _ _) with key. do 2 wp_step. destruct (bytes_of key); [done|].
    unfold Engine.Delete, write, write_locked, write_begin, observe_since, inc. do 6 wp_step. rewrite Hc. wp_steps. split_and!; [done|by eapply remetered_set|by eexists].
  - unfold handleScan. change (query_limit (with_values [] r)) with (query_limit r). destruct (query_limit r); [|done].
    unfold Scan, scanAt, inc. do 6 wp_step. cbn [e_closed set_metrics]. rewrite Hc. wp_steps.
    split_and!; [done| |by eexists]. by apply (remetered_set _ (upd_counter scanTotal Counter_Inc (e_m e)) (e_clock e)).
Qed.

(** ** The access log *)

(** Every result of [m] satisfies [P], whatever the engine and the world. *)
Definition ends {A} (m : E A) (P : A -> Prop) : Prop := forall e w e' a w', m e w = (Ok (e', inl a), w') -> P a.

Lemma ends_ret {A} (a : A) (P : A -> Prop) : P a -> ends (eret a) P.
Proof. by intros HP e w e' a' w' [= _ <- _]. Qed.

Lemma ends_bind {A B} (m : E A) (k : A -> E B) (P : B -> Prop) : (forall a, ends (k a) P) -> ends (ebind m k) P.
Proof.
  intros H e w e' b w'. unfold ebind, bind. destruct (m e w) as [[[e1 [a|err]]|?|] w1]; [apply H|done..].
Qed.

Definition logged_right (sr : statusRecorder) : Prop := sr_status sr = sent_status (sr_w sr).

Lemma logged_engine_error w err : rw_status (sr_w w) = None -> logged_right (writeEngineError w err).
Proof. intros H. unfold writeEngineError, logged_right, sent_status, rw_WriteHeader. repeat case_match; cbn; by rewrite H. Qed.

Lemma logs_right h r' P :
  ends (h r' (MkRecorder empty_response StatusOK)) logged_right ->
  P = MkAccess (rq_Method r') (URL_Path r') ->
  ends (withLogging h r' empty_response) (fun '(rw, line) => line = Some (P (sent_status rw))).
Proof.
  intros Hh -> e w e' [rw line] w'. unfold withLogging, ebind, bind.
  destruct (h r' _ e w) as [[[e1 [sr|err]]|?|] w1] eqn:E; [|done..]. intros [= _ <- <- _].
  by rewrite <- (Hh _ _ _ _ _ E).
Qed.

(** What is logged of a request that got the response [rw]. *)
Definition log_line (r : Request) (rw : ResponseWriter) : option access :=
  match endpoint_of r with
  | NoSuchPath | WrongMethod => None
  | _ => Some (MkAccess (rq_Method r) (URL_Path r) (sent_status rw))
  end.

(** C24: the access log.  Every request that has an endpoint is logged, once it is
    answered, with its method, its path and the status the client got, whatever
    the outcome; the multiplexer's own 404 and 405 are not logged. *)
Theorem access_log_status r e w e' rw line w' :
  ServeHTTP coins r e w = (Ok (e', inl (rw, line)), w') -> line = log_line r rw.
Proof.
  unfold ServeHTTP, log_line. rewrite find_route_endpoint.
  destruct (endpoint_of r) as [key|key|key| | | | |]; [| | | | | |by intros [= _ _ <- _]..];
    intros H; refine (logs_right _ _ _ _ eq_refl _ _ _ _ _ H).
  - unfold handlePut. destruct (ReadAll_limit _ _); [|by apply ends_ret]. destruct (_ <? _)%N; [by apply ends_ret|].
    apply ends_bind. intros [?|err]; apply ends_ret; [done|by apply logged_engine_error].
  - unfold handleGet. apply ends_bind. intros [?|err]; apply ends_ret; [done|by apply logged_engine_error].
  - unfold handleDelete. apply ends_bind. intros [?|err]; apply ends_ret; [done|by apply logged_engine_error].
  - unfold handleScan. destruct (query_limit _); [|by apply ends_ret].
    apply ends_bind. intros [it|err]; [|apply ends_ret; by apply logged_engine_error].
    apply ends_bind. intros [it' res]. apply ends_bind. intros _. apply ends_ret. by destruct res.
  - unfold handleStats. apply ends_bind. intros s. by apply ends_ret.
  - by apply ends_ret.
Qed.
End refusals.
