(* ===== verification/ServerTotal.v ===== *)
(** * Every request is answered

    Whatever system calls fail, a handler over an engine in good order returns a
    response with one of the documented statuses and leaves the engine in good
    order: no panic, no loop without end, and 500 only for a failed system call. *)

From S2P Require Import Prelude OrdMap GoIO IOLogic MemTable Versions SSTable Table Merge Metrics FileNames EngineState EngineLogic EngineInv Engine EngineRead EngineFlush EngineLogs EngineWrite EngineCompact EngineOpen Store EngineRestart Scan ScanRead EngineFrame Server ServerStore.
From S2P Require Wal SkipList Bloom.
From stdpp Require Import base gmap sets list strings numbers fin_maps sorting.
Open Scope nat_scope.

(** The statuses of the API, and those the engine's errors get. *)
Definition statuses : list Z := [200; 204; 400; 404; 405; 413; 500; 503]%Z.
Definition error_statuses : list Z := [400; 404; 500; 503]%Z.

(** What may make a request fail: a system call, now or an earlier one of the
    log's. *)
Definition may_fail (e : Engine) (w : world) : Prop := w_faults w <> [] \/ bw_err (Wal.wal_w (e_wal e)) = true.

Section server.
Context `{FM : Bloom.FloatMath} `{FL : Flate} `{HFL : !FlateLaws FL}.
Context (coins : N -> list bool).

Definition fine (e : Engine) (w : world) (rw : ResponseWriter) (e' : Engine) (w' : world) : Prop :=
  (exists c', inv c' e' w') /\ sent_status rw ∈ statuses /\ (sent_status rw = 500%Z -> may_fail e w).

Definition answers (e : Engine) (w : world) (res : statusRecorder + error) (e' : Engine) (w' : world) : Prop :=
  exists sr, res = inl sr /\ fine e w (sr_w sr) e' w'.

#[local] Abbreviation fresh_recorder := (MkRecorder empty_response StatusOK).

(** A response whose status is known. *)
Lemma fine_status e w rw e' w' c' code :
  inv c' e' w' -> sent_status rw = code -> code ∈ statuses -> code <> 500%Z -> fine e w rw e' w'.
Proof. intros Hi <- Hs Hn. split_and!; [by exists c'|done|done]. Qed.

Lemma engine_error_status w err :
  rw_status (sr_w w) = None -> sent_status (sr_w (writeEngineError w err)) =
    if errors_Is err ErrNotFound then 404%Z else if errors_Is err ErrEmptyKey then 400%Z
    else if errors_Is err ErrClosed then 503%Z else 500%Z.
Proof. intros H. unfold writeEngineError, sent_status. repeat case_match; cbn; unfold rw_WriteHeader; cbn; by rewrite H. Qed.

(** A response to an error of the engine. *)
Lemma fine_error e w err e' w' c' :
  inv c' e' w' -> (may_fail e w \/ err ∈ [ErrNotFound; ErrEmptyKey; ErrClosed]) ->
  fine e w (sr_w (writeEngineError fresh_recorder err)) e' w'.
Proof.
  intros Hi He. unfold fine. rewrite engine_error_status by done. split_and!; [by exists c'| |].
  - repeat case_match; by apply (bool_decide_unpack _).
  - destruct He as [He|He]; [done|]. rewrite !elem_of_cons, elem_of_nil in He. by destruct He as [-> |[-> |[-> |[]]]].
Qed.

Lemma answers_ret sr e0 w0 e w : fine e0 w0 (sr_w sr) e w -> wp (eret sr) (answers e0 w0) e w.
Proof. intros H. wp_step. by exists sr. Qed.

#[local] Ltac fine_with code :=
  apply answers_ret; eapply (fine_status _ _ _ _ _ _ code); [eassumption|reflexivity|by apply (bool_decide_unpack _)|done].

(** A write, and the response to its outcome. *)
Lemma answers_write (del : bool) key value c e w :
  inv c e w -> within_limits (EvDelete key) e w ->
  wp (let? res := etry (write_op coins del key value) in
      match res with
      | inr err => eret (writeEngineError fresh_recorder err)
      | inl _ => eret (WriteHeader fresh_recorder StatusNoContent)
      end) (answers e w) e w.
Proof.
  intros Hi (Hs & Hg & Hfit). pose proof (flush_fits_imm _ _ _ Hi Hfit) as Hfl. do 2 wp_step.
  eapply wp_mono; [by apply (wp_write_op coins del c)|]. intros r e' w' (H0 & H1 & H2).
  assert (exists c', inv c' e' w' /\ (may_fail e w \/ r = inl tt \/ r = inr ErrEmptyKey \/ r = inr ErrClosed)) as (c' & Hi' & Hr).
  { destruct (decide (key = [])) as [Hk|Hk]; [destruct (H0 Hk) as (-> & -> & ->); exists c; auto|].
    destruct (e_closed e) eqn:Ec; [destruct (H1 Hk eq_refl) as [-> ?]; exists c; auto|].
    destruct (H2 Hk eq_refl) as (_ & _ & Hok & _ & c' & Hi' & _). exists c'. split; [done|].
    unfold may_fail. destruct (w_faults w) as [|f fs] eqn:Ef; [|by left; left].
    destruct (bw_err (Wal.wal_w (e_wal e))); [by left; right|]. right; left. by apply Hok. }
  destruct r as [u|err]; [fine_with 204%Z|]. apply answers_ret.
  eapply fine_error; [done|]. rewrite !elem_of_cons. naive_solver.
Qed.

Lemma answers_put r c e w :
  inv c e w -> within_limits (EvDelete (bytes_of (PathValue r "key"))) e w -> wp (handlePut coins r fresh_recorder) (answers e w) e w.
Proof.
  intros Hi Hl. unfold handlePut. destruct (ReadAll_limit _ _) as [value|err]; [|fine_with 400%Z].
  destruct (_ <? _)%N; [fine_with 413%Z|]. by apply (answers_write false _ value c).
Qed.

Lemma answers_get r c e w : inv c e w -> wp (handleGet r fresh_recorder) (answers e w) e w.
Proof.
  intros Hi. unfold handleGet, Engine.Get. do 4 wp_step. eapply wp_mono; [by eapply wp_getAt|].
  intros res ? w1 (-> & Hw1 & H0 & H1 & H2). wp_step. unfold recordGet, observe_since, inc.
  set (key := bytes_of (PathValue r "key")) in *.
  assert (forall err, res = inr err -> may_fail e w \/ err ∈ [ErrNotFound; ErrEmptyKey; ErrClosed]) as Hres.
  { intros err ->. rewrite !elem_of_cons. destruct (decide (key = [])) as [Hk|Hk]; [specialize (H0 Hk); naive_solver|].
    destruct (e_closed e) eqn:Ec; [specialize (H1 Hk eq_refl); naive_solver|].
    destruct (H2 Hk eq_refl) as [E|[_ ?]]; [|by left; left]. unfold answer in E. repeat case_match; naive_solver. }
  destruct res as [v|err]; cbn [err_opt]; wp_steps.
  - eexists. split; [done|]. eapply (fine_status _ _ _ _ _ _ 200); [|reflexivity|by apply (bool_decide_unpack _)|done].
    by eapply inv_irrelevant.
  - destruct (errors_Is err ErrNotFound) eqn:En; wp_steps; (eexists; split; [done|]); (eapply fine_error; [by eapply inv_irrelevant|by apply Hres]).
Qed.

Lemma answers_scan r c e w : inv c e w -> wp (handleScan r fresh_recorder) (answers e w) e w.
Proof.
  intros Hi. unfold handleScan. destruct (query_limit r) as [limit|] eqn:El; [|fine_with 400%Z].
  pose proof (query_limit_nonneg r limit El) as Hlim. unfold Scan, inc. do 4 wp_step. set (e1 := set_metrics _ e).
  assert (inv c e1 w) as Hi1 by (eapply inv_irrelevant; [exact Hi|done..]).
  destruct (e_closed e) eqn:Ec.
  { unfold scanAt. do 2 wp_step. cbn [e1 e_closed set_metrics]. rewrite Ec. wp_step. apply answers_ret. eapply fine_error; [done|].
    right. rewrite !elem_of_cons. auto. }
  eapply wp_mono; [by apply (wp_scanAt c e1 w (query_bound r "start") (query_bound r "end") unboundedSeq Hi1)|].
  intros res e2 w2 [Hw2 H]. destruct res as [it|err].
  2: { destruct H as [-> Hf]. apply answers_ret. eapply fine_error; [by eapply inv_world; [|apply same_known_eq]|]. by left; left. }
  destruct H as (Hq2 & Ht & Hcl & E2 & Hpin & kvs & Hl & _).
  wp_step. apply wp_lift. pose proof (gives_scan_entries (scan_fuel (sc_h it)) limit [] it kvs _ Hl (lists_fuel _ _ _ Hl) Hlim w2) as HG.
  destruct (scan_entries _ _ _ _ w2) as [[[it' out]|?|] w3]; [|done|done]. destruct HG as [Hw3 HG]. cbn [fst snd] in HG.
  assert (same_scan it it' /\ (failed out -> w_faults w <> [])) as [[Et Ecl] Hout].
  { destruct HG as [[[Hs ->] _]|[[Hs _] Hf]]; (split; [done|]); [by intros [? [=]]|]. intros _ Hw. by apply Hf, Hq2. }
  cbv beta iota zeta. wp_step.
  apply (wp_of_run _ _ _ _ _ _ _ (eq_trans (f_equal (fun x => ScanIterator_Close it' x w3) E2)
    (Close_scan it' e1 (e_store e2) w3 (inv_open_tables _ _ _ Hi1) (eq_trans Et Ht) (eq_trans Ecl Hcl) Hpin))).
  cbv beta iota. assert (inv c e1 w3) as Hi3 by (eapply inv_world; [exact Hi1|apply same_known_eq; congruence]).
  destruct out as [entries|err]; [fine_with 200%Z|]. apply answers_ret. split_and!; [by exists c|by apply (bool_decide_unpack _)|].
  intros _. left. apply Hout. by eexists.
Qed.

Lemma answers_stats r c e w : inv c e w -> wp (handleStats r fresh_recorder) (answers e w) e w.
Proof.
  intros Hi. unfold handleStats. wp_step. eapply wp_mono; [apply wp_Stats|]. intros ? e' w' (-> & [s ->] & m & ->).
  assert (inv c (set_metrics m e) w) as Hi' by (by eapply inv_irrelevant). fine_with 200%Z.
Qed.

(** C9: every request is answered.  Whatever system calls fail, a request to an
    engine in good order gets a response, with a status of the API, and leaves an
    engine in good order: no handler panics or loops.  A 500 is sent only
    when system calls may fail (the list of faults is not empty) or one failed before
    on the log. *)
Theorem server_always_answers r c e w :
  inv c e w -> req_within r e w ->
  exists e' rw line w', ServeHTTP coins r e w = (Ok (e', inl (rw, line)), w') /\
    (exists c', inv c' e' w') /\ sent_status rw ∈ statuses /\ (sent_status rw = 500%Z -> may_fail e w).
Proof.
  intros Hi Hl. unfold ServeHTTP. rewrite find_route_endpoint. unfold req_within in Hl.
  assert (forall h r', wp (h r' fresh_recorder) (answers e w) e w ->
    exists e' rw line w', withLogging h r' empty_response e w = (Ok (e', inl (rw, line)), w') /\
      fine e w rw e' w') as Hlog.
  { intros h r' H. apply wp_run in H as (? & e' & w' & E & sr & -> & Hf). exists e', (sr_w sr). eexists. exists w'. split; [|done].
    unfold withLogging, ebind, bind. rewrite E. done. }
  assert (forall rw, sent_status rw ∈ statuses -> sent_status rw <> 500%Z ->
    exists e' rw' line w', (eret (rw, @None access) : E _) e w = (Ok (e', inl (rw', line)), w') /\ fine e w rw' e' w') as Hret.
  { intros rw H1 H2. exists e, rw, None, w. split; [done|]. split_and!; [by exists c|done|done]. }
  destruct (endpoint_of r) as [key|key|key| | | | |] eqn:Er.
  - apply Hlog. by apply (answers_put _ c).
  - apply Hlog. by apply (answers_get _ c).
  - apply Hlog. by apply (answers_write true _ [] c).
  - apply Hlog. by apply (answers_scan _ c).
  - apply Hlog. by apply (answers_stats _ c).
  - apply Hlog. unfold handleHealthz. fine_with 200%Z.
  - by apply Hret; [apply (bool_decide_unpack _)|].
  - by apply Hret; [apply (bool_decide_unpack _)|].
Qed.
End server.
