(* ===== verification/Repl.v ===== *)
(** * The command line (src/main.go)

    The interactive loop over an engine: a line is split into a command and its
    arguments, the command runs, and what it prints is a list of output lines.
    At most one snapshot is open at a time; reads go to it while it is.

    Input is ASCII: the other Unicode spaces of [TrimSpace] and [Fields], and the
    other letters of [ToUpper], are not modelled.  Output is kept as the values
    printed, before their formatting. *)

From S2P Require Import Prelude GoIO MemTable Metrics FileNames EngineState Engine Scan.
From S2P Require Bloom SSTable.
From stdpp Require Import base gmap sets list strings numbers fin_maps sorting.
Open Scope nat_scope.

(** ** Strings *)

Definition is_space (c : Ascii.ascii) : bool :=
  let n := Ascii.N_of_ascii c in (n =? 32)%N || ((9 <=? n)%N && (n <=? 13)%N).

Definition quotes : string := String dquote (String dquote EmptyString).

Fixpoint trim_left (f : Ascii.ascii -> bool) (s : string) : string :=
  match s with
  | EmptyString => EmptyString
  | String c s' => if f c then trim_left f s' else s
  end.

Definition trim (f : Ascii.ascii -> bool) (s : string) : string := String.rev (trim_left f (String.rev (trim_left f s))).

Definition TrimSpace (s : string) : string := trim is_space s.

(** The piece before the first space and the rest. *)
Fixpoint cut (s : string) : string * option string :=
  match s with
  | EmptyString => (EmptyString, None)
  | String c s' =>
      if Ascii.eqb c (Ascii.ascii_of_nat 32) then (EmptyString, Some s')
      else let (a, r) := cut s' in (String c a, r)
  end.

(** [strings.SplitN(s, " ", 3)]. *)
Definition SplitN3 (s : string) : list string :=
  match cut s with
  | (a, None) => [a]
  | (a, Some r) => match cut r with (b, None) => [a; b] | (b, Some c) => [a; b; c] end
  end.

(** [strings.Fields]; [cur] is the field being read, in reverse. *)
Fixpoint fields (s cur : string) : list string :=
  let last := match cur with EmptyString => [] | _ => [String.rev cur] end in
  match s with
  | EmptyString => last
  | String c s' => if is_space c then last ++ fields s' EmptyString else fields s' (String c cur)
  end.

Definition Fields (s : string) : list string := fields s EmptyString.

Definition upper (c : Ascii.ascii) : Ascii.ascii :=
  let n := Ascii.N_of_ascii c in if (97 <=? n)%N && (n <=? 122)%N then Ascii.ascii_of_N (n - 32) else c.

Fixpoint ToUpper (s : string) : string :=
  match s with EmptyString => EmptyString | String c s' => String (upper c) (ToUpper s') end.

(** ** Output *)

Inductive line :=
| Prompt (in_snapshot : bool)
| Say (text : string)
| ErrorLine (prefix : string) (err : error)
| InvalidLimit                                 (** with the error of [Atoi] *)
| QuotedLine (v : bytes)
| EntryLine (key value : bytes)
| CountLine (n : nat)
| StatsLine (s : Stats_)
| Unknown (cmd : string)
| Ready (dir : string)
| OpenFailed (dir : string) (err : error)
| CloseFailed (err : error).

(** ** Commands *)

Section repl.
Context `{FM : Bloom.FloatMath} `{FL : SSTable.Flate}.
Context (coins : N -> list bool).

(** The loop of [runScan]; running out of fuel is a panic.  The result is what was
    printed, and whether the end was reached. *)
Fixpoint scan_print (fuel : nat) (limit : Z) (count : nat) (it : ScanIterator) : M (ScanIterator * list line) :=
  match fuel with
  | O => panic
  | S fuel' =>
      if (limit =? 0)%Z || (Z.of_nat count <? limit)%Z then
        let! (it', next) := ScanIterator_Next it in
        match next with
        | inr err => ret (it', [ErrorLine "scan error:" err])
        | inl None => ret (it', [CountLine count])
        | inl (Some (key, value)) =>
            let! (it'', out) := scan_print fuel' limit (S count) it' in ret (it'', EntryLine key value :: out)
        end
      else ret (it, [CountLine count])
  end.

Definition runScan (snap : option Snapshot_) (start end_ : option bytes) (limit : Z) : E (list line) :=
  let? res := etry (match snap with Some s => Snapshot_Scan s start end_ | None => Scan start end_ end) in
  match res with
  | inr err => eret [ErrorLine "error:" err]
  | inl it =>
      let? (it', out) := lift (scan_print (scan_fuel (sc_h it)) limit 0 it) in
      let? _ := ScanIterator_Close it' in
      eret out
  end.

(** A bound of SCAN: a pair of quotes is no bound, other quotes around it are
    dropped. *)
Definition scan_bound (arg : option string) : option bytes :=
  match arg with
  | None => None
  | Some a =>
      if String.eqb a quotes then None
      else Some (bytes_of (trim (Ascii.eqb dquote) a))
  end.

(** The arguments of SCAN. *)
Definition scan_args (fs : list string) : list string :=
  match fs with
  | _ :: a :: b :: _ => Fields (String.append a (String.append " " b))
  | _ :: a :: _ => Fields a
  | _ => []
  end.

Definition cmd_put (fs : list string) : E (list line) :=
  match fs with
  | _ :: key :: value :: _ =>
      let? r := etry (Engine.Put coins (bytes_of key) (bytes_of value)) in
      eret [match r with inr err => ErrorLine "error:" err | inl _ => Say "OK" end]
  | _ => eret [Say "usage: PUT <key> <value>"]
  end.

Definition cmd_get (snap : option Snapshot_) (fs : list string) : E (list line) :=
  match fs with
  | _ :: key :: _ =>
      let? r := etry (match snap with Some s => Snapshot_Get s (bytes_of key) | None => Engine.Get (bytes_of key) end) in
      eret [match r with inr err => ErrorLine "error:" err | inl v => QuotedLine v end]
  | _ => eret [Say "usage: GET <key>"]
  end.

Definition cmd_delete (fs : list string) : E (list line) :=
  match fs with
  | _ :: key :: _ =>
      let? r := etry (Engine.Delete coins (bytes_of key)) in
      eret [match r with inr err => ErrorLine "error:" err | inl _ => Say "OK" end]
  | _ => eret [Say "usage: DELETE <key>"]
  end.

Definition cmd_scan (snap : option Snapshot_) (fs : list string) : E (list line) :=
  let args := scan_args fs in
  let start := scan_bound (args !! 0) in
  let end_ := scan_bound (args !! 1) in
  match args !! 2 with
  | None => runScan snap start end_ 0
  | Some a =>
      match Atoi a with
      | None => eret [InvalidLimit]
      | Some n => runScan snap start end_ n
      end
  end.

Definition cmd_snapshot (snap : option Snapshot_) : E (option Snapshot_ * list line) :=
  match snap with
  | Some _ => eret (snap, [Say "already inside a snapshot; use SNAPSHOT-END first"])
  | None =>
      let? r := etry Snapshot in
      match r with
      | inr err => eret (None, [ErrorLine "error:" err])
      | inl s => eret (Some s, [Say "snapshot open: GET and SCAN now read as of this point in time"])
      end
  end.

Definition cmd_snapshot_end (snap : option Snapshot_) : E (option Snapshot_ * list line) :=
  match snap with
  | None => eret (None, [Say "no snapshot is open"])
  | Some s => let? _ := Snapshot_Close s in eret (None, [Say "snapshot closed"])
  end.

Definition keep_snap (snap : option Snapshot_) (m : E (list line)) : E (option Snapshot_ * list line * bool) :=
  let? out := m in eret (snap, out, true).

Definition move_snap (m : E (option Snapshot_ * list line)) : E (option Snapshot_ * list line * bool) :=
  let? (snap, out) := m in eret (snap, out, true).

(** One line of input: the snapshot after it, what is printed, and whether the
    loop goes on. *)
Definition run_line (snap : option Snapshot_) (text : string) : E (option Snapshot_ * list line * bool) :=
  match TrimSpace text with
  | EmptyString => eret (snap, [], true)
  | trimmed =>
      let fs := SplitN3 trimmed in
      let first := default EmptyString (head fs) in
      let cmd := ToUpper first in
      let cmd_is s := String.eqb cmd s in
      if cmd_is "PUT" then keep_snap snap (cmd_put fs)
      else if cmd_is "GET" then keep_snap snap (cmd_get snap fs)
      else if cmd_is "DELETE" || cmd_is "DEL" then keep_snap snap (cmd_delete fs)
      else if cmd_is "SCAN" then keep_snap snap (cmd_scan snap fs)
      else if cmd_is "SNAPSHOT" then move_snap (cmd_snapshot snap)
      else if cmd_is "SNAPSHOT-END" then move_snap (cmd_snapshot_end snap)
      else if cmd_is "STATS" then keep_snap snap (let? s := Engine.Stats in eret [StatsLine s])
      else if cmd_is "EXIT" || cmd_is "QUIT" then eret (snap, [], false)
      else eret (snap, [Unknown first], true)
  end.

(** [bufio.Scanner] gives up on a line that does not fit its buffer. *)
Definition MaxScanTokenSize : N := 64 * 2 ^ 10.
Definition scannable (text : string) : bool := (N.of_nat (String.length text) <? MaxScanTokenSize)%N.

(** The loop over the lines of input, each with the work that the background
    goroutines do before it is read:
    the snapshot at its end and the output.  The end of the input prints an empty
    line. *)
Fixpoint repl_loop (lines : list (list work * string)) (snap : option Snapshot_) : E (option Snapshot_ * list line) :=
  let prompt := Prompt (bool_decide (is_Some snap)) in
  match lines with
  | [] => eret (snap, [prompt; Say ""])
  | (ws, text) :: lines' =>
      run_work ws;;?
      if scannable text then
        let? (snap', out, go_on) := run_line snap text in
        if go_on : bool then
          let? (snap'', out') := repl_loop lines' snap' in eret (snap'', prompt :: out ++ out')
        else eret (snap', prompt :: out)
      else eret (snap, [prompt; Say ""])
  end.

(** The banner. *)
Definition banner (dir : string) : list line := [
  Ready dir;
  Say "commands: PUT <key> <value> | GET <key> | DELETE <key> | SCAN <start> <end> [limit] | SNAPSHOT | STATS | EXIT";
  Say (String.concat quotes ["SCAN uses empty string "; " for an unbounded start/end, e.g.: SCAN "; " "; ""]%string) ].

(** The deferred close of an open snapshot runs when the loop has ended. *)
Definition close_snap (snap : option Snapshot_) : E unit :=
  match snap with Some s => let? _ := Snapshot_Close s in eret tt | None => eret tt end.

Definition runREPL (dir : string) (lines : list (list work * string)) : E (list line) :=
  let? (snap, out) := repl_loop lines None in
  close_snap snap;;?
  eret (banner dir ++ out).

(** ** The program *)

(** The flags that configure the engine, with their defaults. *)
Record flags := MkFlags {
  fl_flushThreshold : Z; fl_l0Trigger : Z; fl_baseLevelSize : Z; fl_levelMultiplier : Z; fl_compress : bool }.

Definition default_flags : flags := MkFlags (4 * 1024 * 1024) 4 (2 * 1024 * 1024) 10 false.

Definition engine_options (f : flags) : list Option_ :=
  [ WithFlushThreshold (fl_flushThreshold f); WithL0CompactionTrigger (fl_l0Trigger f);
    WithBaseLevelSizeBytes (fl_baseLevelSize f); WithLevelSizeMultiplier (fl_levelMultiplier f);
    WithCompression (fl_compress f) ].

(** [main] without [-bench] and [-serve]: open, the loop, and the deferred close,
    with the work [ws] that the background goroutines do before they stop. *)
Definition main_repl (dir : string) (f : flags) (clock : list Z) (lines : list (list work * string)) (ws : list work) : M (list line) :=
  let! r := attempt (Engine.Open coins dir (engine_options f) clock) in
  match r with
  | inr err => ret [OpenFailed dir err]
  | inl e =>
      let! (e1, out) := runREPL dir lines e in
      let! (_, c) := Engine.Close ws e1 in
      ret (match out with inl out => out | inr _ => [] end ++ match c with inl _ => [] | inr err => [CloseFailed err] end)
  end.
End repl.
