(* ===== verification/ReplStore.v ===== *)
(** * The command line as a map

    What a session of the interactive loop prints, [say], given only a finite map
    and what the open snapshot saw, and that the loop over the engine prints it;
    that every snapshot a session opens is closed; and that a session's writes are
    there in the next one. *)

From S2P Require Import Prelude OrdMap GoIO IOLogic MemTable Versions SSTable Table Merge Metrics FileNames EngineState EngineLogic EngineInv Engine EngineRead EngineFlush EngineLogs EngineWrite EngineCompact EngineOpen Store EngineRestart EngineClose Scan ScanRead EngineFrame Repl.
From S2P Require Wal SkipList Bloom.
From stdpp Require Import base gmap sets list strings numbers fin_maps sorting.
Open Scope nat_scope.

(** ** The session *)

(** Of an open snapshot: the map it was taken of, the keys and values that had been
    written until then, and the keys written since. *)
Record seen := MkSeen { sn_map : gmap bytes bytes; sn_past : gset (bytes * bytes); sn_dirty : gset bytes }.

(** The map, every key with every value it was given, and the open snapshot. *)
Record session := MkSession { ss_sp : spec; ss_past : gset (bytes * bytes); ss_snap : option seen }.

Definition outcome_line (r : unit + error) : list line := [match r with inr err => ErrorLine "error:" err | inl _ => Say "OK" end].
Definition value_line (r : bytes + error) : list line := [match r with inr err => ErrorLine "error:" err | inl v => QuotedLine v end].

(** A read of a map. *)
Definition map_get (m : gmap bytes bytes) (key : bytes) : bytes + error :=
  match key with
  | [] => inr ErrEmptyKey
  | _ => match m !! key with Some v => inl v | None => inr ErrNotFound end
  end.

(** The entries SCAN prints and their number. *)
Definition entry_lines (l : list (bytes * bytes)) : list line := ((fun kv => EntryLine kv.1 kv.2) <$> l) ++ [CountLine (length l)].
Definition limited {A} (limit : Z) (l : list A) : list A := if (limit =? 0)%Z then l else take (Z.to_nat limit) l.
Definition map_scan (m : gmap bytes bytes) (start end_ : option bytes) (limit : Z) : list line :=
  entry_lines (limited limit (om_range start end_ (om_of_map m))).

(** What is printed: these lines; some statistics; or, for the reads of a snapshot
    that meet keys written since, whose version at the snapshot the active MemTable
    may have dropped, lines that only say what was so before: a value the key was
    given before the snapshot was taken, or none.  A listing is exact for the keys
    that were not written since. *)
Inductive shown :=
| Exact (l : list line)
| AnyStats
| PastValue (sn : seen) (key : bytes)
| PastEntries (sn : seen) (start end_ : option bytes) (limit : Z).

Definition shows (sh : shown) (out : list line) : Prop :=
  match sh with
  | Exact l => out = l
  | AnyStats => exists s, out = [StatsLine s]
  | PastValue sn key =>
      out = value_line (inr ErrNotFound) \/ exists v, (key, v) ∈ sn_past sn /\ out = value_line (inl v)
  | PastEntries sn start end_ limit => exists kvs,
      out = entry_lines (limited limit kvs) /\ StronglySorted bytes_lt kvs.*1 /\
      (forall k v, (k, v) ∈ kvs -> in_range start end_ k /\ (k ∈ sn_dirty sn -> (k, v) ∈ sn_past sn)) /\
      forall k v, k ∉ sn_dirty sn -> (k, v) ∈ kvs <-> in_range start end_ k /\ sn_map sn !! k = Some v
  end.

(** The keys an event adds to those written, and the values. *)
Definition dirtied (ev : event) (dirty : gset bytes) : gset bytes :=
  match written ev with Some key => {[key]} ∪ dirty | None => dirty end.

Definition given (ev : event) (past : gset (bytes * bytes)) : gset (bytes * bytes) :=
  match ev with EvPut key value => {[(key, value)]} ∪ past | _ => past end.

Definition after (ev : event) (ss : session) : session :=
  MkSession (spec_step ev (ss_sp ss)).2 (given ev (ss_past ss))
    ((fun sn => MkSeen (sn_map sn) (sn_past sn) (dirtied ev (sn_dirty sn))) <$> ss_snap ss).

(** A write. *)
Definition say_write (ev : event) (ss : session) : shown * session :=
  (Exact (match (spec_step ev (ss_sp ss)).1 with ODone r => outcome_line r | _ => [] end), after ev ss).

Definition say_get (key : bytes) (ss : session) : shown :=
  match ss_snap ss with
  | None => Exact (value_line (map_get (sp_map (ss_sp ss)) key))
  | Some sn =>
      if decide (key <> [] /\ key ∈ sn_dirty sn) then PastValue sn key
      else Exact (value_line (map_get (sn_map sn) key))
  end.

Definition say_scan (args : list string) (ss : session) : shown :=
  match (match args !! 2 with None => Some 0%Z | Some a => Atoi a end) with
  | None => Exact [InvalidLimit]
  | Some limit =>
      let start := scan_bound (args !! 0) in
      let end_ := scan_bound (args !! 1) in
      match ss_snap ss with
      | None => Exact (map_scan (sp_map (ss_sp ss)) start end_ limit)
      | Some sn =>
          if decide (sn_dirty sn = ∅) then Exact (map_scan (sn_map sn) start end_ limit)
          else PastEntries sn start end_ limit
      end
  end.

(** A line: what it prints, the session after it, and whether the loop goes on. *)
Definition say (text : string) (ss : session) : shown * session * bool :=
  match TrimSpace text with
  | EmptyString => (Exact [], ss, true)
  | trimmed =>
      let fs := SplitN3 trimmed in
      let first := default EmptyString (head fs) in
      let cmd_is s := String.eqb (ToUpper first) s in
      if cmd_is "PUT" then
        match fs with
        | _ :: key :: value :: _ => (say_write (EvPut (bytes_of key) (bytes_of value)) ss, true)
        | _ => (Exact [Say "usage: PUT <key> <value>"], ss, true)
        end
      else if cmd_is "GET" then
        match fs with
        | _ :: key :: _ => (say_get (bytes_of key) ss, ss, true)
        | _ => (Exact [Say "usage: GET <key>"], ss, true)
        end
      else if cmd_is "DELETE" || cmd_is "DEL" then
        match fs with
        | _ :: key :: _ => (say_write (EvDelete (bytes_of key)) ss, true)
        | _ => (Exact [Say "usage: DELETE <key>"], ss, true)
        end
      else if cmd_is "SCAN" then (say_scan (scan_args fs) ss, ss, true)
      else if cmd_is "SNAPSHOT" then
        match ss_snap ss with
        | Some _ => (Exact [Say "already inside a snapshot; use SNAPSHOT-END first"], ss, true)
        | None => (Exact [Say "snapshot open: GET and SCAN now read as of this point in time"],
                   MkSession (ss_sp ss) (ss_past ss) (Some (MkSeen (sp_map (ss_sp ss)) (ss_past ss) ∅)), true)
        end
      else if cmd_is "SNAPSHOT-END" then
        match ss_snap ss with
        | Some _ => (Exact [Say "snapshot closed"], MkSession (ss_sp ss) (ss_past ss) None, true)
        | None => (Exact [Say "no snapshot is open"], ss, true)
        end
      else if cmd_is "STATS" then (AnyStats, ss, true)
      else if cmd_is "EXIT" || cmd_is "QUIT" then (Exact [], ss, false)
      else (Exact [Unknown first], ss, true)
  end.

(** The blocks of output of a session: for each line its prompt and what it
    prints. *)
Fixpoint say_all {W} (lines : list (W * string)) (ss : session) : list shown * session :=
  let prompt := Prompt (bool_decide (is_Some (ss_snap ss))) in
  match lines with
  | [] => ([Exact [prompt; Say ""]], ss)
  | (_, text) :: lines' =>
      if scannable text then
        match say text ss with
        | (sh, ss', true) => let (shs, ss'') := say_all lines' ss' in (Exact [prompt] :: sh :: shs, ss'')
        | (sh, ss', false) => ([Exact [prompt]; sh], ss')
        end
      else ([Exact [prompt; Say ""]], ss)
  end.

Definition prints (shs : list shown) (out : list line) : Prop := exists outs, out = concat outs /\ Forall2 shows shs outs.

Section repl.
Context `{FM : Bloom.FloatMath} `{FL : Flate} `{HFL : !FlateLaws FL}.
Context (coins : N -> list bool).

(** Every value in the store, up to a sequence number, is one its key was given. *)
Definition recorded (past : gset (bytes * bytes)) (q : N) (c : contents) : Prop :=
  forall r, r ∈ view c -> (Seq r <= q)%N -> Typ r <> TypeTombstone -> (Key r, Value r) ∈ past.

Lemma recorded_answer past q c key v :
  recorded past q c -> answer (newest key q (view c)) = inl v -> (key, v) ∈ past.
Proof.
  unfold answer, live. intros Hr. destruct (newest key q (view c)) as [r|] eqn:E; [|done]. cbn. case_bool_decide; [done|].
  intros [= <-]. apply newest_Some in E as (Hin & [<- Hle] & _). by apply Hr.
Qed.

Lemma recorded_nothing past q : recorded past q nothing.
Proof. by intros r ?%not_elem_of_nil. Qed.

(** The open snapshot is the engine's. *)
Definition snap_ok (ss : session) (snap : option Snapshot_) (c : contents) (e : Engine) : Prop :=
  match snap, ss_snap ss with
  | None, None => True
  | Some s, Some sn =>
      s_closed s = false /\ is_Some (e_activeSnapshots e !! s_seq s) /\ (s_seq s <= e_seq e)%N /\
      recorded (sn_past sn) (s_seq s) c /\
      forall key, key ∉ sn_dirty sn ->
        answer (newest key (s_seq s) (view c)) = match sn_map sn !! key with Some v => inl v | None => inr ErrNotFound end
  | _, _ => False
  end.

Definition session_ok (ss : session) (snap : option Snapshot_) (e : Engine) (w : world) : Prop :=
  w_faults w = [] /\ durable e w /\
  exists c, models (ss_sp ss) c e w /\ recorded (ss_past ss) (e_seq e) c /\ snap_ok ss snap c e.

(** What a snapshot reads stays, but for the keys written. *)
Lemma snap_stable ev ss snap c e c' e' :
  snap_ok ss snap c e -> stable ev c e c' -> only_newer ev c e c' -> fixed e' = fixed e -> (e_seq e <= e_seq e')%N ->
  snap_ok (after ev ss) snap c' e'.
Proof.
  unfold snap_ok, after. intros Hs Hst Hnew [= _ Ha] Hq. cbn [ss_snap]. destruct snap as [s|], (ss_snap ss) as [[m past dirty]|]; try done.
  destruct Hs as (H1 & H2 & H3 & Hp & H4). cbn in Hp, H4 |- *. split_and!; [done|by rewrite Ha|lia| |].
  { intros r Hr Hle. destruct (Hnew r Hr) as [Hin|Hev]; [by apply Hp|]. destruct ev; try done; injection Hev as <-; cbn in Hle; lia. }
  intros key Hk. assert ((key ∉ dirty) /\ written ev <> Some key) as [Hk' Hw].
  { unfold dirtied in Hk. destruct (written ev); [|done]. rewrite not_elem_of_union, not_elem_of_singleton in Hk. naive_solver. }
  rewrite <- H4 by done. by apply Hst.
Qed.

Lemma recorded_after ev past c e c' q :
  recorded past (e_seq e) c -> (forall r, r ∈ view c -> (Seq r <= e_seq e)%N) -> only_newer ev c e c' -> recorded (given ev past) q c'.
Proof.
  intros Hp Hle Hnew r Hr _ Ht. destruct (Hnew r Hr) as [Hin|Hev].
  - assert ((Key r, Value r) ∈ past) by (apply Hp; auto). destruct ev; cbn; set_solver.
  - destruct ev; try done; injection Hev as <-; cbn in *; set_solver.
Qed.

Definition plain (ev : event) : Prop := match ev with EvSnapshot | EvRelease _ => False | _ => True end.

Lemma calm_exec ev : plain ev -> calm (exec coins ev).
Proof. destruct ev; intros; try done; cbn [exec]; quietly. Qed.

(** An event of the engine within a session. *)
Lemma session_event ev ss snap e w :
  session_ok ss snap e w -> plain ev -> within_limits ev e w -> loggable ev ->
  wp (exec coins ev) (fun r e' w' => r = inl (spec_step ev (ss_sp ss)).1 /\ session_ok (after ev ss) snap e' w') e w.
Proof.
  intros (Hw & Hd & c & Hm & Hrec & Hs) Hp Hl Hlg.
  eapply wp_mono; [apply wp_calm; [by apply calm_exec|by apply (sim_step coins ev (ss_sp ss) c)]|].
  intros r e' w' ((-> & Hd' & c' & Hm' & Hst & Hnew) & Ha & Hf). split; [done|]. split_and!; [by apply Hf|by apply Hd'|].
  exists c'. split_and!; [done| |].
  { apply (recorded_after ev _ c e); [done| |done]. pose proof (inv_keys _ _ _ (md_inv _ _ _ _ Hm)) as Hks.
    rewrite Forall_forall in Hks. intros r Hr. by apply Hks. }
  eapply snap_stable; [done..|].
  rewrite (proj1 (md_seq _ _ _ _ Hm)), (proj1 (md_seq _ _ _ _ Hm')). destruct ev as [[|b k] v|[|b k]|k| | | |]; cbn; lia.
Qed.

Lemma session_same ss snap e e' w w' c :
  w_faults w = [] -> durable e w -> models (ss_sp ss) c e w -> recorded (ss_past ss) (e_seq e) c -> snap_ok ss snap c e -> remetered e e' -> w_files w' = w_files w -> w_faults w' = [] ->
  session_ok ss snap e' w'.
Proof.
  intros Hw Hd Hm Hrec Hs (m & k & ->) Hf Hw'. split_and!; [done|by apply (durable_same e _ w w')|]. exists c. split; [|done].
  eapply models_same; [exact Hm| |done..]. eapply inv_irrelevant; [apply Hm|done..].
Qed.

(** ** Reads *)

(** The entries of a scan, printed up to a limit. *)
Lemma gives_scan_print fuel limit count it kvs m :
  lists m it kvs -> length kvs < fuel ->
  gives (scan_print fuel limit count it)
    (fun x => same_scan it x.1 /\ x.2 =
       let l := if (limit =? 0)%Z then kvs else take (Z.to_nat limit - count) kvs in
       ((fun kv => EntryLine kv.1 kv.2) <$> l) ++ [CountLine (count + length l)])
    (fun x => same_scan it x.1).
Proof.
  revert count it kvs. induction fuel as [|fuel IH]; intros count it kvs Hl Hf; [lia|]. cbn [scan_print].
  destruct ((limit =? 0)%Z || (Z.of_nat count <? limit)%Z) eqn:Eg.
  2: { apply orb_false_iff in Eg as [-> Hlt]. apply Z.ltb_ge in Hlt. apply gives_ret. split; [done|]. cbn [snd].
       replace (Z.to_nat limit - count) with 0 by lia. rewrite take_0. cbn. by rewrite Nat.add_0_r. }
  eapply gives_bind; [by apply gives_Next| |].
  - intros [it' o] ([Et Ec] & Eo & Hl'). cbn [fst snd] in *. subst o. destruct kvs as [|[k v] kvs]; cbn [head].
    + apply gives_ret. split; [done|]. cbn [snd]. destruct (limit =? 0)%Z; rewrite ?take_nil; cbn; by rewrite Nat.add_0_r.
    + eapply gives_bind; [apply (IH (S count) it' kvs Hl'); cbn in Hf; lia| |].
      * intros [it2 out] [[E1 E2] Eo]. cbn [fst snd] in *. subst out. apply gives_ret. split; [split; cbn; congruence|]. cbn [snd].
        destruct (Z.eqb_spec limit 0) as [->|Hz]; cbn [orb] in Eg; cbv zeta.
        { cbn [fmap list_fmap app length fst snd]. by rewrite Nat.add_succ_comm. }
        apply Z.ltb_lt in Eg. replace (Z.to_nat limit - count) with (S (Z.to_nat limit - S count)) by lia.
        cbn [take fmap list_fmap app length fst snd]. by rewrite Nat.add_succ_comm.
      * intros [it2 out] [E1 E2]. eexists. split; [done|]. cbn in *. split; congruence.
  - intros [it' o] [Hs [err Ee]]. cbn [fst snd] in *. subst o. by eexists.
Qed.

(** The sequence number the reads of a session are bounded by. *)
Definition read_seq (snap : option Snapshot_) : N := match snap with Some s => s_seq s | None => unboundedSeq end.

Lemma wp_runScan (snap : option Snapshot_) (start end_ : option bytes) (limit : Z) (c : contents) (e : Engine) (w : world) :
  inv c e w -> e_closed e = false -> w_faults w = [] ->
  wp (runScan snap start end_ limit) (fun r e' w' => remetered e e' /\ w_files w' = w_files w /\ w_faults w' = [] /\
    exists kvs, r = inl (entry_lines (if (limit =? 0)%Z then kvs else take (Z.to_nat limit) kvs)) /\ StronglySorted bytes_lt kvs.*1 /\
      forall k v, (k, v) ∈ kvs <-> in_range start end_ k /\ answer (newest k (read_seq snap) (view c)) = inl v) e w.
Proof.
  intros Hi Hc Hw. unfold runScan. do 2 wp_step. set (e1 := set_metrics (upd_counter scanTotal Counter_Inc (e_m e)) e).
  assert (inv c e1 w) as Hi1 by (eapply inv_irrelevant; [exact Hi|done..]).
  assert (wp (match snap with Some s => Snapshot_Scan s start end_ | None => Scan start end_ end) = 
          wp (inc scanTotal;;? scanAt start end_ (read_seq snap))) as -> by by destruct snap.
  unfold inc. do 2 wp_step. fold e1.
  eapply wp_mono; [by apply (wp_scanAt c e1 w start end_ (read_seq snap) Hi1)|].
  intros res e2 w2 [Hw2 H]. destruct res as [it|err]; [|by destruct H].
  destruct H as (Hq2 & Ht & Hcl & E2 & Hpin & kvs & Hl & Hs & Hin).
  wp_step. apply wp_lift. pose proof (gives_scan_print (scan_fuel (sc_h it)) limit 0 it kvs _ Hl (lists_fuel _ _ _ Hl) w2) as HG.
  destruct (scan_print _ _ _ _ w2) as [[[it' out]|?|] w3]; [|done|done]. destruct HG as [Hw3 HG]. cbn [fst snd] in HG.
  destruct HG as [[[[Et Ecl] ->] Hq3]|[_ Hbad]]; [|by rewrite Hq2 in Hbad]. cbv beta iota. wp_step.
  apply (wp_of_run _ _ _ _ _ _ _ (eq_trans (f_equal (fun x => ScanIterator_Close it' x w3) E2)
    (Close_scan it' e1 (e_store e2) w3 (inv_open_tables _ _ _ Hi1) (eq_trans Et Ht) (eq_trans Ecl Hcl) Hpin))).
  cbv beta iota. wp_step. split_and!; [by exists (e_m e1), (e_clock e); destruct e|congruence|by apply Hq3, Hq2|].
  exists kvs. split_and!; [|done|exact Hin]. unfold entry_lines. by rewrite Nat.sub_0_r.
Qed.

(** ** Lines *)

(** What a write on a line asks of the engine. *)
Definition writes (text : string) : bool :=
  let cmd := ToUpper (default EmptyString (head (SplitN3 (TrimSpace text)))) in
  String.eqb cmd "PUT" || String.eqb cmd "DELETE" || String.eqb cmd "DEL".

Definition line_within (text : string) (e : Engine) (w : world) : Prop := writes text = true -> within_limits (EvDelete []) e w.

(** A line that went as [said]. *)
Definition line_post (said : shown * session * bool) (r : (option Snapshot_ * list line * bool) + error) (e' : Engine) (w' : world) : Prop :=
  exists snap' out, r = inl (snap', out, said.2) /\ shows said.1.1 out /\ session_ok said.1.2 snap' e' w'.

Lemma line_keep snap m sh ss' e w :
  wp m (fun r e' w' => exists out, r = inl out /\ shows sh out /\ session_ok ss' snap e' w') e w ->
  wp (keep_snap snap m) (line_post (sh, ss', true)) e w.
Proof. intros H. unfold keep_snap. wp_step. eapply wp_mono; [exact H|]. intros ? e' w' (out & -> & Hs & Ho). wp_step. by exists snap, out. Qed.

Lemma line_say snap l ss e w : session_ok ss snap e w -> wp (keep_snap snap (eret l)) (line_post (Exact l, ss, true)) e w.
Proof. intros H. apply line_keep. wp_step. by exists l. Qed.

Lemma session_write ev (m : E unit) ss snap e w :
  exec coins ev = (let? r := etry m in eret (ODone r)) -> session_ok ss snap e w -> plain ev -> within_limits ev e w -> loggable ev ->
  wp (let? r := etry m in eret [match r with inr err => ErrorLine "error:" err | inl _ => Say "OK" end])
    (fun r e' w' => exists out, r = inl out /\ shows (say_write ev ss).1 out /\ session_ok (say_write ev ss).2 snap e' w') e w.
Proof.
  intros Ee Hs Hp Hl Hlg. wp_step. eapply wp_mono.
  { apply (wp_outcome m ODone). rewrite <- Ee. by apply (session_event ev ss snap). }
  intros ? e' w' (r & -> & Hr & Hs'). wp_step. eexists. split; [done|]. split; [|exact Hs'].
  cbn [say_write fst]. injection Hr as Hr. rewrite <- Hr. done.
Qed.

(** *** Lengths of the pieces of a line *)

Lemma length_bytes_of s : length (bytes_of s) = String.length s.
Proof. unfold bytes_of, String.list_byte_of_string. rewrite length_map. induction s as [|c s IH]; cbn; auto. Qed.

Lemma length_rev s : String.length (String.rev s) = String.length s.
Proof.
  unfold String.rev. assert (forall s acc, String.length (String.rev_app s acc) = String.length s + String.length acc) as H.
  { clear. induction s as [|c s IH]; intros acc; [done|]. cbn. rewrite IH. cbn. lia. }
  rewrite H. cbn. lia.
Qed.

Lemma length_trim f s : String.length (trim f s) <= String.length s.
Proof.
  assert (forall s, String.length (trim_left f s) <= String.length s) as H.
  { clear. induction s as [|c s IH]; cbn; [done|]. destruct (f c); [lia|done]. }
  unfold trim. rewrite length_rev. etrans; [apply H|]. rewrite length_rev. apply H.
Qed.

Lemma length_cut s : String.length (cut s).1 <= String.length s /\
  match (cut s).2 with Some r => String.length r <= String.length s | None => True end.
Proof.
  induction s as [|c s IH]; cbn; [done|]. destruct (Ascii.eqb c _); cbn; [lia|].
  destruct (cut s) as [a [r|]]; cbn in *; lia.
Qed.

Lemma length_SplitN3 s : Forall (fun p => String.length p <= String.length s) (SplitN3 s).
Proof.
  unfold SplitN3. pose proof (length_cut s) as H1. destruct (cut s) as [a [r|]]; cbn [fst snd] in H1;
    [|rewrite Forall_cons, Forall_nil; naive_solver].
  destruct H1 as [H1 H2]. pose proof (length_cut r) as H3. destruct (cut r) as [b [c|]]; cbn [fst snd] in H3;
    rewrite ?Forall_cons, Forall_nil; split_and!; try done; lia.
Qed.

(** A key or value from a line fits in the log. *)
Lemma piece_fits text p : scannable text = true -> p ∈ SplitN3 (TrimSpace text) -> (N.of_nat (length (bytes_of p)) <= Wal.maxReasonableLen)%N.
Proof.
  intros Hs%N.ltb_lt Hp. rewrite length_bytes_of. pose proof (length_SplitN3 (TrimSpace text)) as HF. rewrite Forall_forall in HF.
  specialize (HF p Hp). pose proof (length_trim is_space text). unfold TrimSpace in HF. unfold MaxScanTokenSize in Hs.
  unfold Wal.maxReasonableLen. lia.
Qed.

(** ** Commands *)

Lemma session_get snap key ss e w :
  session_ok ss snap e w ->
  wp (let? r := etry (match snap with Some s => Snapshot_Get s key | None => Engine.Get key end) in
      eret [match r with inr err => ErrorLine "error:" err | inl v => QuotedLine v end])
    (fun r e' w' => exists out, r = inl out /\ shows (say_get key ss) out /\ session_ok ss snap e' w') e w.
Proof.
  intros Hs. pose proof Hs as (Hw & Hd & c & Hm & Hrec & Hsn). pose proof (md_inv _ _ _ _ Hm) as Hi. do 2 wp_step.
  assert (wp (match snap with Some s => Snapshot_Get s key | None => Engine.Get key end) =
          wp (let? r := etry (getAt key (read_seq snap)) in recordGet (err_opt r);;? of_sum r)) as -> by by destruct snap.
  do 2 wp_step. eapply wp_mono; [apply wp_calm; [apply calm_getAt|by eapply wp_getAt]|].
  intros r ? w1 ((-> & Hw1 & H0 & _ & H1) & _ & Hf). wp_step.
  assert (shows (say_get key ss) (value_line r)) as Hr.
  { unfold say_get, snap_ok, read_seq in *. destruct snap as [s|], (ss_snap ss) as [sn|]; try done.
    - destruct Hsn as (_ & _ & _ & Hp & Ha). destruct key as [|b k].
      { rewrite decide_False by naive_solver. cbn. f_equal. by apply H0. }
      destruct (H1 ltac:(done) (md_open _ _ _ _ Hm)) as [-> |[_ ?]]; [|done]. destruct (decide _) as [_|Hk].
      + cbn [shows]. destruct (answer _) as [v|err] eqn:E; [right; exists v; split; [by eapply recorded_answer|done]|left].
        unfold answer in E. destruct (live _); [done|]. by injection E as <-.
      + cbn. f_equal. apply Ha. naive_solver.
    - unfold map_get. f_equal. destruct key as [|b k]; [by apply H0|].
      destruct (H1 ltac:(done) (md_open _ _ _ _ Hm)) as [-> |[_ ?]]; [|done]. by apply (answer_lookup _ c e w). }
  assert (forall e', remetered e e' -> exists out, inl [match r with inr err => ErrorLine "error:" err | inl v => QuotedLine v end] = inl (B := error) out /\
    shows (say_get key ss) out /\ session_ok ss snap e' w1) as Hdone.
  { intros e' He'. eexists. split; [done|]. split; [|apply (session_same ss snap e e' w w1 c); auto].
    by destruct r. }
  unfold recordGet, observe_since, inc. destruct r as [v|err]; cbn [err_opt]; wp_steps; [by apply Hdone; eapply remetered_set|].
  destruct (errors_Is err ErrNotFound); wp_steps; by apply Hdone; eapply remetered_set.
Qed.

Lemma session_scan snap args ss e w :
  session_ok ss snap e w ->
  wp (match args !! 2 with
      | None => runScan snap (scan_bound (args !! 0)) (scan_bound (args !! 1)) 0
      | Some a => match Atoi a with
                  | None => eret [InvalidLimit]
                  | Some n => runScan snap (scan_bound (args !! 0)) (scan_bound (args !! 1)) n
                  end
      end) (fun r e' w' => exists out, r = inl out /\ shows (say_scan args ss) out /\ session_ok ss snap e' w') e w.
Proof.
  intros Hs. pose proof Hs as (Hw & Hd & c & Hm & Hrec & Hsn). unfold say_scan.
  set (sh limit := match ss_snap ss with
      | None => Exact (map_scan (sp_map (ss_sp ss)) (scan_bound (args !! 0)) (scan_bound (args !! 1)) limit)
      | Some sn =>
          if decide (sn_dirty sn = ∅) then Exact (map_scan (sn_map sn) (scan_bound (args !! 0)) (scan_bound (args !! 1)) limit)
          else PastEntries sn (scan_bound (args !! 0)) (scan_bound (args !! 1)) limit
      end).
  assert (forall limit, wp (runScan snap (scan_bound (args !! 0)) (scan_bound (args !! 1)) limit)
    (fun r e' w' => exists out, r = inl out /\ shows (sh limit) out /\ session_ok ss snap e' w') e w) as Hscan.
  { intros limit. eapply wp_mono; [by apply (wp_runScan snap _ _ limit c e w); [apply Hm|apply Hm|]|].
    intros r e' w' (He & Hf & Hw' & kvs & -> & Hso & Hin). eexists. split; [done|]. split; [|by apply (session_same ss snap e e' w w' c)].
    unfold sh, snap_ok, read_seq in *. destruct snap as [s|], (ss_snap ss) as [sn|]; try done.
    - destruct Hsn as (_ & _ & _ & Hp & Ha). destruct (decide (sn_dirty sn = ∅)) as [Ed|Hd'].
      + cbn. unfold map_scan, limited. rewrite (scan_of_map _ _ _ c (sn_map sn) kvs Hso Hin); [done|]. intros k. apply Ha. set_solver.
      + exists kvs. split_and!; [done|done| |].
        * intros k v [Hk Hv]%Hin. split; [done|]. intros _. by eapply recorded_answer.
        * intros k v Hk. rewrite Hin, (Ha k Hk). destruct (sn_map sn !! k); naive_solver.
    - cbn. unfold map_scan, limited. rewrite (scan_of_map _ _ _ c (sp_map (ss_sp ss)) kvs Hso Hin); [done|]. intros k.
      exact (answer_lookup _ c e w k Hm). }
  destruct (args !! 2) as [a|]; [|apply Hscan]. destruct (Atoi a) as [n|]; [apply Hscan|]. wp_step. by eexists.
Qed.

Lemma session_snapshot snap ss e w :
  session_ok ss snap e w ->
  wp (move_snap (cmd_snapshot snap)) (line_post (match ss_snap ss with
    | Some _ => (Exact [Say "already inside a snapshot; use SNAPSHOT-END first"], ss, true)
    | None => (Exact [Say "snapshot open: GET and SCAN now read as of this point in time"],
               MkSession (ss_sp ss) (ss_past ss) (Some (MkSeen (sp_map (ss_sp ss)) (ss_past ss) ∅)), true)
    end)) e w.
Proof.
  intros Hs. pose proof Hs as (Hw & Hd & c & Hm & Hrec & Hsn). unfold move_snap, cmd_snapshot, snap_ok in *.
  destruct snap as [s|], (ss_snap ss) as [sn|] eqn:Ess; try done.
  - wp_steps. by exists (Some s), [Say "already inside a snapshot; use SNAPSHOT-END first"].
  - do 3 wp_step. unfold Snapshot, snapshot_load, snapshot_register. do 3 wp_step. rewrite (md_open _ _ _ _ Hm). unfold inc, gauge_add. wp_steps. do 2 eexists. split; [done|]. split; [done|].
    split_and!; [done|by apply (durable_same e _ w w)|]. exists c. split.
    + cbn [snd fst ss_sp]. eapply models_same; [exact Hm| |done..]. eapply inv_irrelevant; [apply Hm|done..].
    + split; [done|]. split_and!; [done|cbn; rewrite lookup_insert_eq; by eexists|done|done|]. intros key _. cbn [s_seq sn_map].
      etrans; [|exact (answer_lookup (ss_sp ss) c e w key Hm)]. f_equal. apply newest_bound.
      * eapply Forall_impl; [apply (inv_keys _ _ _ (md_inv _ _ _ _ Hm))|]. by intros r [_ ?].
      * apply (md_seq _ _ _ _ Hm).
Qed.

Lemma session_snapshot_end snap ss e w :
  session_ok ss snap e w ->
  wp (move_snap (cmd_snapshot_end snap)) (line_post (match ss_snap ss with
    | Some _ => (Exact [Say "snapshot closed"], MkSession (ss_sp ss) (ss_past ss) None, true)
    | None => (Exact [Say "no snapshot is open"], ss, true)
    end)) e w.
Proof.
  intros Hs. pose proof Hs as (Hw & Hd & c & Hm & Hrec & Hsn). unfold move_snap, cmd_snapshot_end, snap_ok in *.
  destruct snap as [s|], (ss_snap ss) as [sn|] eqn:Ess; try done.
  - do 2 wp_step. unfold Snapshot_Close, gauge_add. rewrite (proj1 Hsn). wp_steps. do 2 eexists. split; [done|]. split; [done|].
    split_and!; [done|by apply (durable_same e _ w w)|]. exists c. split; [|done].
    cbn [snd fst ss_sp]. eapply models_same; [exact Hm| |done..]. eapply inv_irrelevant; [apply Hm|done..].
  - wp_steps. by exists None, [Say "no snapshot is open"].
Qed.

(** A line of input does what [say] says. *)
Lemma session_line text snap ss e w :
  session_ok ss snap e w -> scannable text = true -> line_within text e w ->
  wp (run_line coins snap text) (line_post (say text ss)) e w.
Proof.
  intros Hs Hsc Hl. unfold run_line, say. pose proof (piece_fits text) as Hp. unfold line_within, writes in Hl.
  destruct (TrimSpace text) as [|a0 t0] eqn:Et; [wp_step; by exists snap, []|]. rewrite <- Et in *. clear Et.
  set (fs := SplitN3 (TrimSpace text)) in *. set (first := default EmptyString (head fs)) in *. cbv zeta.
  destruct (String.eqb (ToUpper first) "PUT").
  { unfold cmd_put. destruct fs as [|x [|key [|value l]]] eqn:Ef; try (by apply line_say).
    apply (line_keep snap _ (say_write (EvPut (bytes_of key) (bytes_of value)) ss).1 (say_write _ ss).2).
    apply session_write; [done|done|done|by apply Hl|]. split; apply Hp; try done; rewrite !elem_of_cons; auto. }
  destruct (String.eqb (ToUpper first) "GET").
  { unfold cmd_get. destruct fs as [|x [|key l]] eqn:Ef; try (by apply line_say). by apply line_keep, session_get. }
  destruct (String.eqb (ToUpper first) "DELETE" || String.eqb (ToUpper first) "DEL") eqn:Ed.
  { unfold cmd_delete. destruct fs as [|x [|key l]] eqn:Ef; try (by apply line_say).
    apply (line_keep snap _ (say_write (EvDelete (bytes_of key)) ss).1 (say_write _ ss).2).
    apply session_write; [done|done|done|by apply Hl|]. apply Hp; [done|]. rewrite !elem_of_cons; auto. }
  destruct (String.eqb (ToUpper first) "SCAN"); [by apply line_keep, session_scan|].
  destruct (String.eqb (ToUpper first) "SNAPSHOT"); [by apply session_snapshot|].
  destruct (String.eqb (ToUpper first) "SNAPSHOT-END"); [by apply session_snapshot_end|].
  destruct (String.eqb (ToUpper first) "STATS").
  { apply line_keep. wp_step. eapply wp_mono; [apply wp_Stats|]. intros ? e' w' (-> & [st ->] & m & ->). wp_step.
    eexists. split; [done|]. split; [by eexists|]. destruct Hs as (Hw & Hd & c & Hm & Hrec & Hsn).
    apply (session_same ss snap e _ w w c); try done. by exists m, (e_clock e); destruct e. }
  destruct (String.eqb (ToUpper first) "EXIT" || String.eqb (ToUpper first) "QUIT"); wp_step; [by exists snap, []|].
  by exists snap, [Unknown first].
Qed.

(** ** Sessions *)

(** Every round of work, and every write, finds the engine within its limits. *)
Fixpoint repl_within (lines : list (list work * string)) (snap : option Snapshot_) (e : Engine) (w : world) : Prop :=
  match lines with
  | [] => True
  | (ws, text) :: lines' => work_within ws e w /\
      match run_work ws e w with
      | (Ok (e1, _), w1) => line_within text e1 w1 /\
          match run_line coins snap text e1 w1 with
          | (Ok (e2, inl (snap', _, true)), w2) => repl_within lines' snap' e2 w2
          | _ => True
          end
      | _ => True
      end
  end.

Lemma after_work x ss : after (work_event x) ss = ss.
Proof. destruct ss as [sp past [[m p d]|]], x; done. Qed.

Lemma session_work ws snap ss e w :
  session_ok ss snap e w -> work_within ws e w -> wp (run_work ws) (fun r e' w' => r = inl tt /\ session_ok ss snap e' w') e w.
Proof.
  unfold run_work. revert e w. induction ws as [|x ws IH]; intros e w Hs Hl; cbn [efor]; [by wp_step|]. destruct Hl as [Hl Hn].
  assert (wp (work_round x) (fun r e' w' => r = inl tt /\ session_ok ss snap e' w') e w) as H.
  { pose proof (session_event (work_event x) ss snap e w Hs ltac:(by destruct x) Hl ltac:(by destruct x)) as H. rewrite after_work in H.
    unfold work_round. wp_step. eapply wp_mono; [apply (wp_outcome _ ODone); destruct x; exact H|].
    intros ? e' w' (r & -> & _ & Hs'). by wp_step. }
  destruct (wp_run _ _ _ _ H) as (r & e1 & w1 & E & -> & Hs1). rewrite E in Hn. wp_step.
  apply (wp_of_run _ _ _ _ _ _ _ E). by apply IH.
Qed.

Lemma session_loop lines snap ss e w :
  session_ok ss snap e w -> repl_within lines snap e w ->
  wp (repl_loop coins lines snap) (fun r e' w' => exists snap' out, r = inl (snap', out) /\ prints (say_all lines ss).1 out /\
    session_ok (say_all lines ss).2 snap' e' w') e w.
Proof.
  revert snap ss e w. induction lines as [|[ws text] lines IH]; intros snap ss e w Hs Hl.
  all: assert (bool_decide (is_Some snap) = bool_decide (is_Some (ss_snap ss))) as Hpr
    by (destruct Hs as (_ & _ & c & _ & _ & Hsn); unfold snap_ok in Hsn; by destruct snap, (ss_snap ss)).
  all: cbn [repl_loop say_all]; rewrite Hpr.
  { wp_step. do 2 eexists. split; [done|]. split; [|done]. exists [[Prompt (bool_decide (is_Some (ss_snap ss))); Say ""]]. split; [done|]. by repeat constructor. }
  destruct Hl as [Hl Hn]. wp_step.
  destruct (wp_run _ _ _ _ (session_work ws snap ss e w Hs Hl)) as (r & e1 & w1 & E & -> & Hs1).
  rewrite E in Hn. destruct Hn as [Hl1 Hn]. apply (wp_of_run _ _ _ _ _ _ _ E). cbv beta iota.
  destruct (scannable text) eqn:Esc.
  2: { wp_step. do 2 eexists. split; [done|]. split; [|done]. exists [[Prompt (bool_decide (is_Some (ss_snap ss))); Say ""]]. split; [done|]. by repeat constructor. }
  wp_step. destruct (wp_run _ _ _ _ (session_line text snap ss e1 w1 Hs1 Esc Hl1)) as (r & e2 & w2 & E2 & snap2 & out & -> & Hsh & Hs2).
  rewrite E2 in Hn. apply (wp_of_run _ _ _ _ _ _ _ E2). cbv beta iota.
  destruct (say text ss) as [[sh ss2] [|]]; cbn [fst snd] in *.
  - wp_step. eapply wp_mono; [by apply (IH snap2 ss2)|]. intros ? e3 w3 (snap3 & out3 & -> & (outs & -> & Ho) & Hs3). wp_step.
    destruct (say_all lines ss2) as [shs ss3]. do 2 eexists. split; [done|]. split; [|done].
    exists ([Prompt (bool_decide (is_Some (ss_snap ss)))] :: out :: outs). split; [done|]. by repeat constructor.
  - wp_step. do 2 eexists. split; [done|]. split; [|done]. exists [[Prompt (bool_decide (is_Some (ss_snap ss)))]; out].
    split; [by cbn; rewrite app_nil_r|]. by repeat constructor.
Qed.

(** A whole session on a store that represents the map [sp]. *)
Definition fresh_session (sp : spec) (past : gset (bytes * bytes)) : session := MkSession sp past None.

Lemma session_REPL dir lines sp past c e w :
  models sp c e w -> recorded past (e_seq e) c -> durable e w -> w_faults w = [] -> repl_within lines None e w ->
  wp (runREPL coins dir lines) (fun r e' w' => (exists out, r = inl (banner dir ++ out) /\ prints (say_all lines (fresh_session sp past)).1 out) /\
    w_faults w' = [] /\ durable e' w' /\ exists c', models (ss_sp (say_all lines (fresh_session sp past)).2) c' e' w') e w.
Proof.
  intros Hm Hrec Hd Hw Hl. unfold runREPL. wp_step. eapply wp_mono.
  { apply (session_loop lines None (fresh_session sp past)); [|done]. split_and!; [done|done|]. by exists c. }
  intros ? e1 w1 (snap & out & -> & Ho & Hw1 & Hd1 & c1 & Hm1 & _ & Hsn). wp_step. unfold close_snap. destruct snap as [s|].
  2: { do 2 wp_step. split_and!; [by exists out|done|done|by exists c1]. }
  wp_step. unfold Snapshot_Close, gauge_add. destruct (s_closed s); wp_steps; (split_and!; [by exists out|done| |]).
  - done.
  - by exists c1.
  - by apply (durable_same e1 _ w1 w1).
  - exists c1. eapply models_same; [exact Hm1| |done..]. eapply inv_irrelevant; [apply Hm1|done..].
Qed.

(** C8: the command line is a map.  A session on a store that represents a map,
    in which no system call fails, prints what [say] says, whatever the lines and
    whatever the background goroutines do between them: OK, values, not-found
    errors, listings, usage texts.  GET and SCAN in a snapshot print the map it was
    taken of, for every key that was not written since.  For a key written since,
    whose version the active MemTable may have overwritten, they print a value the
    key had been given before the snapshot was taken, or none: never a later one.
    At the end the store represents the map after the session's writes.  [past]
    holds at least the values in the store when the session starts. *)
Theorem repl_refines_map dir lines sp past c e w :
  models sp c e w -> recorded past (e_seq e) c -> durable e w -> w_faults w = [] -> repl_within lines None e w ->
  exists out e' w', runREPL coins dir lines e w = (Ok (e', inl (banner dir ++ out)), w') /\
    prints (say_all lines (fresh_session sp past)).1 out /\
    exists c', models (ss_sp (say_all lines (fresh_session sp past)).2) c' e' w'.
Proof.
  intros Hm Hrec Hd Hw Hl.
  destruct (wp_run _ _ _ _ (session_REPL dir lines sp past c e w Hm Hrec Hd Hw Hl)) as (r & e' & w' & E & (out & -> & Ho) & _ & _ & Hm').
  by exists out, e', w'.
Qed.
End repl.
