(* ===== verification/ReplMain.v ===== *)
(** * Whole sessions

    A session gives back every snapshot it took, in any state and under any
    failing system calls; and the program as a whole: opening, a session, closing,
    and the next opening. *)

From S2P Require Import Prelude OrdMap GoIO IOLogic MemTable Versions SSTable Table Merge Metrics FileNames EngineState EngineLogic EngineInv Engine EngineRead EngineFlush EngineLogs EngineWrite EngineCompact EngineOpen Store EngineRestart EngineClose Scan ScanRead EngineFrame Repl ReplStore.
From S2P Require Wal SkipList Bloom.
From stdpp Require Import base gmap sets list strings numbers fin_maps sorting.
Open Scope nat_scope.

Section repl.
Context `{FM : Bloom.FloatMath} `{FL : Flate}.
Context (coins : N -> list bool).

(** ** Snapshots *)

Lemma ebind_inl {A B} (m : E A) (k : A -> E B) e w e' b w' :
  ebind m k e w = (Ok (e', inl b), w') -> exists a e1 w1, m e w = (Ok (e1, inl a), w1) /\ k a e1 w1 = (Ok (e', inl b), w').
Proof. unfold ebind, bind. destruct (m e w) as [[[e1 [a|err]]|?|] w1]; [|done..]. intros H. by exists a, e1, w1. Qed.

(** The open snapshots, when [snap] was taken in a state with those of [f]. *)
Definition opened_on (f : string * gmap N Z) (snap : option Snapshot_) (e : Engine) : Prop :=
  match snap with
  | None => fixed e = f
  | Some s => s_closed s = false /\ fixed e = (f.1, <[s_seq s := (default 0 (f.2 !! s_seq s) + 1)%Z]> f.2)
  end.

Lemma opened_on_same f snap e e' : opened_on f snap e -> fixed e' = fixed e -> opened_on f snap e'.
Proof. unfold opened_on. destruct snap; intros H ->; done. Qed.

(** Taking a snapshot and closing it cancel. *)
Lemma opened_Snapshot f e w e' s w' :
  opened_on f None e -> Snapshot e w = (Ok (e', inl s), w') -> opened_on f (Some s) e'.
Proof.
  cbn. intros <-. unfold Snapshot, snapshot_load, snapshot_register, ebind, eget, bind, ret. destruct (e_closed e); [done|].
  intros [= <- <- _]. done.
Qed.

Lemma opened_Close f s e w e' r w' :
  map_Forall (fun _ n => (1 <= n)%Z) f.2 -> opened_on f (Some s) e -> Snapshot_Close s e w = (Ok (e', inl r), w') -> opened_on f None e'.
Proof.
  destruct f as [d S0]. cbn. intros Hp [Hc [= Hd Ha]]. unfold Snapshot_Close. rewrite Hc. unfold ebind, emod, gauge_add, bind, ret, eret. cbn.
  intros [= <- _ _]. unfold fixed. cbn. rewrite Hd, Ha, lookup_insert_eq. cbn. f_equal. destruct (S0 !! s_seq s) as [n|] eqn:En; cbn.
  - specialize (Hp _ _ En). cbn in Hp. replace (n + 1 - 1)%Z with n by lia. rewrite (proj2 (Z.leb_gt _ _)) by lia.
    rewrite insert_insert_eq. by apply insert_id.
  - by apply delete_insert_id.
Qed.

Lemma calm_runScan snap start end_ limit : calm (runScan snap start end_ limit).
Proof.
  assert (forall fuel limit count it, touches (fun _ => True) (scan_print fuel limit count it)) as Hp.
  { induction fuel as [|fuel IH]; intros; cbn [scan_print]; frame. }
  unfold runScan. quietly.
Qed.

(** A line leaves at most its own snapshot open. *)
Lemma opened_line f snap text e w e' snap' out go w' :
  map_Forall (fun _ n => (1 <= n)%Z) f.2 -> opened_on f snap e ->
  run_line coins snap text e w = (Ok (e', inl (snap', out, go)), w') -> opened_on f snap' e'.
Proof.
  intros Hp Ho.
  assert (forall m, calm m -> keep_snap snap m e w = (Ok (e', inl (snap', out, go)), w') -> opened_on f snap' e') as Hkeep.
  { intros m Hm (o & e1 & w1 & E & [= <- <- _ _ _])%ebind_inl. eapply opened_on_same; [exact Ho|]. by apply Hm in E as [? _]. }
  assert (eret (snap, out, go) e w = (Ok (e', inl (snap', out, go)), w') -> opened_on f snap' e') as Hret by (by intros [= <- <- _]).
  unfold run_line. destruct (TrimSpace text) as [|a0 t0]; [intros [= <- <- _ _ _]; done|]. cbv zeta.
  destruct (String.eqb _ "PUT"); [apply Hkeep; unfold cmd_put; quietly|].
  destruct (String.eqb _ "GET"); [apply Hkeep; unfold cmd_get; quietly|].
  destruct (_ || _); [apply Hkeep; unfold cmd_delete; quietly|].
  destruct (String.eqb _ "SCAN"); [apply Hkeep; unfold cmd_scan; quietly; apply calm_runScan|].
  destruct (String.eqb _ "SNAPSHOT").
  { unfold move_snap, cmd_snapshot. intros ([snap1 o] & e1 & w1 & E & [= <- <- _ _ _])%ebind_inl. destruct snap as [s|]; [by injection E as <- <- _|].
    apply ebind_inl in E as (r & e2 & w2 & E & E2). unfold etry, bind in E. destruct (Snapshot e w) as [[[e3 [s|err]]|?|] w3] eqn:Es; [| |done..].
    - injection E as <- <- <-. injection E2 as <- <- _. by eapply opened_Snapshot.
    - injection E as <- <- <-. injection E2 as <- <- _. unfold Snapshot, snapshot_load, snapshot_register, ebind, eget, bind, ret in Es.
      destruct (e_closed e); [|done]. by injection Es as <- _ _. }
  destruct (String.eqb _ "SNAPSHOT-END").
  { unfold move_snap, cmd_snapshot_end. intros ([snap1 o] & e1 & w1 & E & [= <- <- _ _ _])%ebind_inl. destruct snap as [s|]; [|by injection E as <- <- _].
    apply ebind_inl in E as (r & e2 & w2 & E & [= <- <- _ _]). by eapply opened_Close. }
  destruct (String.eqb _ "STATS"); [apply Hkeep; quietly|].
  destruct (_ || _); intros [= <- <- _ _ _]; done.
Qed.

Lemma calm_run_work ws : calm (run_work ws).
Proof. unfold run_work, work_round. quietly. Qed.

Lemma opened_loop f lines snap e w e' snap' out w' :
  map_Forall (fun _ n => (1 <= n)%Z) f.2 -> opened_on f snap e ->
  repl_loop coins lines snap e w = (Ok (e', inl (snap', out)), w') -> opened_on f snap' e'.
Proof.
  intros Hp. revert snap e w out. induction lines as [|[ws text] lines IH]; intros snap e w out Ho; cbn [repl_loop];
    [by intros [= <- <- _ _]|].
  intros (u & e1 & w1 & E1 & H)%ebind_inl. apply calm_run_work in E1 as [E1 _]. pose proof (opened_on_same _ _ _ _ Ho E1) as Ho1.
  revert H. destruct (scannable text); intros H; [|by injection H as <- <- _ _].
  apply ebind_inl in H as ([[snap2 o] go] & e2 & w2 & E2 & H). pose proof (opened_line _ _ _ _ _ _ _ _ _ _ Hp Ho1 E2) as Ho2.
  revert H. destruct go; intros H; [|by injection H as <- <- _ _].
  apply ebind_inl in H as ([snap3 o3] & e3 & w3 & E3 & [= <- <- _ <-]). eapply IH; [exact Ho2|exact E3].
Qed.

Lemma opened_REPL dir lines e w e' out w' :
  map_Forall (fun _ n => (1 <= n)%Z) (e_activeSnapshots e) ->
  runREPL coins dir lines e w = (Ok (e', inl out), w') -> fixed e' = fixed e.
Proof.
  intros Hp ([snap o] & e1 & w1 & E1 & H)%ebind_inl.
  pose proof (opened_loop (fixed e) _ None _ _ _ _ _ _ Hp eq_refl E1) as Ho.
  apply ebind_inl in H as (u & e2 & w2 & E2 & [= <- _ _]). unfold close_snap in E2. destruct snap as [s|].
  - apply ebind_inl in E2 as (s' & e3 & w3 & E3 & [= <- _]). exact (opened_Close (fixed e) _ _ _ _ _ _ Hp Ho E3).
  - injection E2 as <- _. exact Ho.
Qed.

(** C11: a session gives back its snapshots.  Whatever the lines, the state and
    the failing system calls, a session that ends leaves open exactly the
    snapshots that were open before it, so the versions kept for it can go. *)
Theorem repl_closes_snapshots dir lines e w e' out w' :
  map_Forall (fun _ n => (1 <= n)%Z) (e_activeSnapshots e) ->
  runREPL coins dir lines e w = (Ok (e', inl out), w') -> e_activeSnapshots e' = e_activeSnapshots e.
Proof. intros Hp E. by injection (opened_REPL _ _ _ _ _ _ _ Hp E). Qed.

(** ** The program *)

Context `{HFL : !FlateLaws FL}.

(** The engine and the disk a program starts from in an empty directory. *)
Definition first_engine (dir : string) (f : flags) (clock : list Z) : Engine := new_store coins dir (engine_options f) clock.
Definition first_disk (dir : string) (w : world) : world := MkWorld (<[walFileName dir 1 := MkFile [] 0]> (w_files w)) [].

(** The limits of a program run: those of its lines, and of closing. *)
Definition main_within (dir : string) (f : flags) (clock : list Z) (lines : list (list work * string)) (ws : list work) (w : world) : Prop :=
  repl_within coins lines None (first_engine dir f clock) (first_disk dir w) /\
  match runREPL coins dir lines (first_engine dir f clock) (first_disk dir w) with
  | (Ok (e, _), w') => can_close ws e w'
  | _ => True
  end.

(** C7: the program keeps what it is told.  Run in a directory without a store,
    while no system call fails, whatever the background goroutines do between the
    lines and before they stop, the program opens one, prints what its lines mean
    on the empty map, and closes without an error.  Whoever opens the directory
    after it, with whatever options, reads the map the session ended with. *)
Theorem main_session_persists dir f clock lines ws w :
  w_faults w = [] -> vacant dir w -> config_ok (configured (engine_options f)) -> main_within dir f clock lines ws w ->
  exists out w1, main_repl coins dir f clock lines ws w = (Ok (banner dir ++ out), w1) /\
    prints (say_all lines (fresh_session (MkSpec ∅ 0) ∅)).1 out /\
    forall opts clock', exists e2 w2, Engine.Open coins dir opts clock' w1 = (Ok e2, w2) /\ forall key, key <> [] ->
      exists w3, getAt key unboundedSeq e2 w2 = (Ok (e2, lookup_answer (ss_sp (say_all lines (fresh_session (MkSpec ∅ 0) ∅)).2) key), w3).
Proof.
  intros Hw Hv Hc [Hl Hcc]. set (e0 := first_engine dir f clock) in *. set (w0 := first_disk dir w) in *.
  destruct (wp_run _ _ _ _ (session_REPL coins dir lines (MkSpec ∅ 0) ∅ nothing e0 w0 (new_store_models coins dir _ clock w0 Hc)
    (recorded_nothing _ _) (new_store_durable coins dir _ clock w Hv) eq_refl Hl)) as (r & e1 & w1 & E & (out & -> & Hout) & Hw1 & Hd1 & c1 & Hm1).
  assert (e_dir e1 = dir) as Hdir by (by injection (opened_REPL _ _ e0 w0 _ _ _ (map_Forall_empty _) E)).
  rewrite E in Hcc. destruct (Close_settles ws _ c1 e1 w1 Hm1 Hd1 Hw1 Hcc) as (e2 & w2 & E2 & Hw2 & _ & _ & _ & Hs). rewrite Hdir in Hs.
  exists out, w2. split_and!; [|done|].
  { unfold main_repl, bind, attempt. rewrite (Open_vacant coins dir _ clock w Hw Hv). fold (first_engine dir f clock) (first_disk dir w).
    fold e0 w0. rewrite E, E2. unfold ret. by rewrite app_nil_r. }
  intros opts clock'. destruct (settled_left_behind _ _ w2 (o_compress (configured opts)) Hs Hw2) as (q & ssts & rss & Hlb & Hq & Hn & _).
  destruct (Open_reads coins dir opts clock' q w2 [] ssts rss [] Hw2 Hlb ltac:(constructor) Hq) as (e3 & w3 & E3 & _ & _ & _ & _ & Hr).
  exists e3, w3. split; [done|]. intros key Hk. destruct (Hr key Hk) as (w4 & E4 & _). exists w4.
  rewrite E4. cbn. rewrite app_nil_r. by rewrite (live_lookup _ c1 e1 w1 key _ Hm1 (Hn key)).
Qed.
End repl.
