(* ===== verification/ServerExamples.v ===== *)
(** * Requests on concrete stores

    The theorems of ServerStore.v and ServerTotal.v applied to a new store that serves writes,
    reads, scans and mistaken requests while its workers run, and what the
    handlers answer, evaluated. *)

From S2P Require Import Prelude OrdMap GoIO IOLogic MemTable Versions SSTable Table Merge Metrics FileNames EngineState EngineLogic EngineInv Engine EngineFlush EngineLogs EngineWrite EngineOpen Store EngineRestart Scan EngineFrame EngineHazards EngineExamples Server ServerStore ServerTotal.
From S2P Require Wal SkipList Bloom.
From stdpp Require Import base gmap sets list strings numbers fin_maps sorting.
Open Scope nat_scope.

#[local] Existing Instance RunA.
#[local] Existing Instance RunA_laws.
#[local] Existing Instance Bloom.TenBits.

Definition request (method : string) (segs : list string) (query : list (string * string)) (body : bytes) : Request :=
  MkReq method segs query (body, None) [].

Definition put_ (key value : string) : Request := request "PUT" ["kv"; key]%string [] (bytes_of value).
Definition get_ (key : string) : Request := request "GET" ["kv"; key]%string [] [].
Definition delete_ (key : string) : Request := request "DELETE" ["kv"; key]%string [] [].
Definition scan_ (start limit : string) : Request := request "GET" ["scan"]%string [("start", start); ("limit", limit)]%string [].

Definition acts1 : list action :=
  (Serve <$> [put_ "a" "1"; put_ "b" "22"; put_ "c" "333"; delete_ "b"]) ++ [Background EvFlush] ++
  (Serve <$> [get_ "a"; get_ "b"; scan_ "" ""; scan_ "b" "1"; scan_ "" "-1"; request "POST" ["kv"; "a"]%string [] [];
              request "GET" ["kv"; ""]%string [] []; request "GET" ["healthz"]%string [] []]) ++
  [Background EvSnapshot; Serve (put_ "b" "4")].

Definition req_limits_b (r : Request) (e : Engine) : bool :=
  match endpoint_of r with AtPut key | AtDelete key => limits_b (EvDelete (bytes_of key)) e | _ => true end.

Fixpoint serve_within_b (acts : list action) (e : Engine) (w : world) : bool :=
  match acts with
  | [] => true
  | Serve r :: acts' => req_limits_b r e &&
      match ServeHTTP flips0 r e (quiet w) with (Ok (e1, inl _), w1) => serve_within_b acts' e1 w1 | _ => true end
  | Background ev :: acts' => limits_b ev e &&
      match exec flips0 ev e (quiet w) with (Ok (e1, inl _), w1) => serve_within_b acts' e1 w1 | _ => true end
  end.

Lemma serve_within_b_spec acts e w : serve_within_b acts e w = true -> serve_within flips0 acts e w.
Proof.
  revert e w. induction acts as [|[r|ev] acts IH]; intros e w; [done| |]; cbn [serve_within_b serve_within].
  - intros [H1 H2]%andb_true_iff. split.
    + unfold req_limits_b in H1. unfold req_within. destruct (endpoint_of r); try done; by apply limits_b_spec.
    + destruct (ServeHTTP flips0 r e (quiet w)) as [[[e1 [o|err]]|err|] w1]; try done. by apply IH.
  - intros [H1 H2]%andb_true_iff. split; [by apply limits_b_spec|].
    destruct (exec flips0 ev e (quiet w)) as [[[e1 [o|err]]|err|] w1]; try done. by apply IH.
Qed.

Lemma serve_within1 : serve_within flips0 acts1 engF0 diskF0.
Proof. apply serve_within_b_spec. vm_compute. reflexivity. Qed.

Lemma act_loggable1 : Forall act_loggable acts1.
Proof. unfold acts1. cbn [app fmap list_fmap]. rewrite !Forall_cons, Forall_nil. split_and!; vm_compute; done. Qed.

Lemma server_refines_map_witness :
  exists rws e' w', serve_run flips0 acts1 engF0 diskF0 = Some (rws, e', w') /\
    Forall2 replies (rest_run acts1 (MkSpec ∅ 0)).1 rws /\ exists c', models (rest_run acts1 (MkSpec ∅ 0)).2 c' e' w'.
Proof.
  exact (server_refines_map flips0 acts1 (MkSpec ∅ 0) nothing engF0 diskF0
           (new_store_models flips0 "db" optsF [] diskF0 configuredF) serve_within1).
Defined.

Lemma server_crash_recovery_witness :
  exists rws e1 w1, serve_run flips0 acts1 engF0 diskF0 = Some (rws, e1, w1) /\
    Forall2 replies (rest_run acts1 (MkSpec ∅ 0)).1 rws /\
    forall coins' opts clock w2, restarts w1 w2 -> (e_genCounter e1 + 2 < max_u64)%N ->
      (unflushed (logs e1) w1 <> [] -> flushable (o_compress (configured opts)) (unflushed (logs e1) w1)) ->
      exists e2 w3, Engine.Open coins' (e_dir e1) opts clock w2 = (Ok e2, w3) /\ forall key, key <> [] ->
        exists w4, getAt key unboundedSeq e2 w3 = (Ok (e2, lookup_answer (rest_run acts1 (MkSpec ∅ 0)).2 key), w4).
Proof.
  exact (server_crash_recovery flips0 acts1 (MkSpec ∅ 0) nothing engF0 diskF0
           (new_store_models flips0 "db" optsF [] diskF0 configuredF)
           (new_store_durable flips0 "db" optsF [] empty_disk vacant0) serve_within1 act_loggable1).
Defined.

(** The statuses and bodies of the run. *)
Definition nl : chunk := Text (String (Ascii.ascii_of_nat 10) "").
Example serve_runs :
  match serve_run flips0 acts1 engF0 diskF0 with
  | Some (rws, _, _) => (fun rw => (rw_status rw, rw_body rw)) <$> rws
  | None => []
  end = [(Some 204%Z, []); (Some 204%Z, []); (Some 204%Z, []); (Some 204%Z, []);
    (Some 200%Z, [Raw (bytes_of "1")]); (Some 404%Z, [ErrorText "" ErrNotFound; nl]);
    (Some 200%Z, [JSONEntries [(bytes_of "a", bytes_of "1"); (bytes_of "c", bytes_of "333")]]);
    (Some 200%Z, [JSONEntries [(bytes_of "c", bytes_of "333")]]);
    (Some 400%Z, [Text "invalid limit"; nl]); (Some 405%Z, [Text "Method Not Allowed"; nl]);
    (Some 404%Z, [Text "404 page not found"; nl]); (Some 200%Z, [Raw (bytes_of "ok")]); (Some 204%Z, [])].
Proof. vm_compute. reflexivity. Qed.

Lemma refused_untouched_witness :
  exists line, ServeHTTP flips0 (scan_ "" "-1") engF0 diskF0 =
    (Ok (engF0, inl (error_reply 400 (Text "invalid limit"), line)), diskF0).
Proof. exact (refused_untouched flips0 (scan_ "" "-1") _ engF0 diskF0 eq_refl). Defined.

Lemma closed_unavailable_witness :
  exists e' line, ServeHTTP flips0 (put_ "a" "1") (set_closed true engF0) diskF0 =
    (Ok (e', inl (error_reply 503 (ErrorText "" ErrClosed), line)), diskF0) /\ remetered (set_closed true engF0) e'.
Proof. exact (closed_unavailable flips0 (put_ "a" "1") (set_closed true engF0) diskF0 eq_refl eq_refl eq_refl). Defined.

(** A failed fsync of the log: 500 to the client and in the access log. *)
Definition broken : world := MkWorld (w_files diskF0) [None; Some 0].

Definition access_line (o : res (Engine * (ResponseWriter * option access + error)) * world) : option (string * string * Z) :=
  match o with
  | (Ok (_, inl (_, Some line)), _) => Some (a_method line, a_path line, a_status line)
  | _ => None
  end.

Example broken_line : access_line (ServeHTTP flips0 (put_ "a" "1") engF0 broken) = Some ("PUT", "/kv/a", 500%Z)%string.
Proof. vm_compute. reflexivity. Qed.

Lemma access_log_status_witness :
  match ServeHTTP flips0 (put_ "a" "1") engF0 broken with
  | (Ok (_, inl (rw, line)), _) => line = Some (MkAccess "PUT" "/kv/a" (sent_status rw))
  | _ => False
  end.
Proof.
  pose proof broken_line as H. unfold access_line in H.
  destruct (ServeHTTP flips0 (put_ "a" "1") engF0 broken) as [[[e' [[rw line]|err]]|err|] w'] eqn:E; [|discriminate H..].
  exact (access_log_status flips0 _ _ _ _ _ _ _ E).
Defined.

(** The same request, answered for certain. *)
Lemma server_always_answers_witness :
  exists e' rw line w', ServeHTTP flips0 (put_ "a" "1") engF0 broken = (Ok (e', inl (rw, line)), w') /\
    (exists c', inv c' e' w') /\ sent_status rw ∈ statuses /\ (sent_status rw = 500%Z -> may_fail engF0 broken).
Proof.
  exact (server_always_answers flips0 (put_ "a" "1") nothing engF0 broken
           (md_inv _ _ _ _ (new_store_models flips0 "db" optsF [] broken configuredF))
           (limits_b_spec (EvDelete (bytes_of "a")) engF0 broken eq_refl)).
Defined.
