(* ===== verification/ReplExamples.v ===== *)
(** * Sessions on concrete stores

    The theorems of ReplStore.v and ReplMain.v applied to a program run in an
    empty directory that writes, reads, scans, opens a snapshot and makes mistakes
    while the flush worker runs; and what it prints, evaluated. *)

From S2P Require Import Prelude OrdMap GoIO IOLogic MemTable Versions SSTable Table Merge Metrics FileNames EngineState EngineLogic EngineInv Engine EngineFlush EngineLogs EngineWrite EngineCompact EngineOpen Store EngineRestart EngineClose Scan EngineFrame EngineHazards EngineExamples Repl ReplStore ReplMain.
From S2P Require Wal SkipList Bloom.
From stdpp Require Import base gmap sets list strings numbers fin_maps sorting.
Open Scope nat_scope.

#[local] Existing Instance RunA.
#[local] Existing Instance RunA_laws.
#[local] Existing Instance Bloom.TenBits.

Definition flags1 : flags := MkFlags 40 4 (2 * 1024 * 1024) 10 true.

Definition unbounded : string := String.append quotes (String.append " " quotes).

(** Lines with nothing done before them, but for a flush after the writes. *)
Definition lines1 : list (list work * string) :=
  (pair [] <$> ["put a 1"; "PUT  b 22"; "PUT b 22 and more"; "  Put c"; "put d 4 "; ""])%string ++
  ([FlushRound; FlushRound], "GET a"%string) ::
  (pair [] <$> ["get nothing"; "SNAPSHOT"; "put a 9"; "del b"; "get a"; "get d"; "snapshot"; "SNAPSHOT-END"; "get a";
                String.append "scan " unbounded; String.append "scan " (String.append unbounded " 1"); "scan b e";
                String.append "scan " (String.append unbounded " x"); "compact"; "exit"; "put e 5"]%string).

(** The limits, decided. *)
Fixpoint repl_within_b (lines : list (list work * string)) (snap : option Snapshot_) (e : Engine) (w : world) : bool :=
  match lines with
  | [] => true
  | (ws, text) :: lines' => work_within_b ws e w &&
      match run_work ws e w with
      | (Ok (e1, _), w1) => (negb (writes text) || limits_b (EvDelete []) e1) &&
          match run_line flips0 snap text e1 w1 with
          | (Ok (e2, inl (snap', _, true)), w2) => repl_within_b lines' snap' e2 w2
          | _ => true
          end
      | _ => true
      end
  end.

Lemma repl_within_b_spec lines snap e w : repl_within_b lines snap e w = true -> repl_within flips0 lines snap e w.
Proof.
  revert snap e w. induction lines as [|[ws text] lines IH]; intros snap e w; [done|]. cbn [repl_within_b repl_within].
  intros [H1 H2]%andb_true_iff. split; [by apply work_within_b_spec|].
  destruct (run_work ws e w) as [[[e1 o]|err|] w1]; try done. apply andb_true_iff in H2 as [H2 H3]. split.
  - intros Hw. rewrite Hw in H2. by apply limits_b_spec.
  - destruct (run_line flips0 snap text e1 w1) as [[[e2 [[[snap' out] [|]]|err]]|err|] w2]; try done. by apply IH.
Qed.

Lemma repl_within1 : repl_within flips0 lines1 None (first_engine flips0 "db" flags1 []) (first_disk "db" empty_disk).
Proof. apply repl_within_b_spec. vm_compute. reflexivity. Qed.

Lemma configured1 : config_ok (configured (engine_options flags1)).
Proof. by split_and!. Qed.

Lemma repl_refines_map_witness :
  exists out e' w', runREPL flips0 "db" lines1 (first_engine flips0 "db" flags1 []) (first_disk "db" empty_disk) =
      (Ok (e', inl (banner "db" ++ out)), w') /\
    prints (say_all lines1 (fresh_session (MkSpec ∅ 0) ∅)).1 out /\
    exists c', models (ss_sp (say_all lines1 (fresh_session (MkSpec ∅ 0) ∅)).2) c' e' w'.
Proof.
  exact (repl_refines_map flips0 "db" lines1 (MkSpec ∅ 0) ∅ nothing _ _
           (new_store_models flips0 "db" (engine_options flags1) [] (first_disk "db" empty_disk) configured1)
           (recorded_nothing _ _)
           (new_store_durable flips0 "db" (engine_options flags1) [] empty_disk vacant0) eq_refl repl_within1).
Defined.

(** What it prints, and what the session's map prescribes. *)
Definition output (o : res (Engine * (list line + error)) * world) : list line :=
  match o with (Ok (_, inl out), _) => drop 3 out | _ => [] end.

Definition unprompted (o : list line) : list line := List.filter (fun l => match l with Prompt _ => false | _ => true end) o.

Definition ok : line := Say "OK".
Definition failed (err : error) : line := ErrorLine "error:" err.
Definition entry_line (key value : string) : line := EntryLine (bytes_of key) (bytes_of value).

Example session_runs :
  unprompted (output (runREPL flips0 "db" lines1 (first_engine flips0 "db" flags1 []) (first_disk "db" empty_disk))) =
    [ok; failed ErrEmptyKey; ok; Say "usage: PUT <key> <value>"; ok; QuotedLine (bytes_of "1"); failed ErrNotFound;
     Say "snapshot open: GET and SCAN now read as of this point in time"; ok; ok; QuotedLine (bytes_of "1"); QuotedLine (bytes_of "4");
     Say "already inside a snapshot; use SNAPSHOT-END first"; Say "snapshot closed"; QuotedLine (bytes_of "9");
     entry_line "a" "9"; entry_line "d" "4"; CountLine 2; entry_line "a" "9"; CountLine 1; entry_line "d" "4"; CountLine 1;
     InvalidLimit; Unknown "compact"].
Proof. vm_compute. reflexivity. Qed.

(** A key that is written again while a snapshot is open and its version is still in
    the active MemTable: GET does not find the version the snapshot saw, which was
    replaced; it prints the new one only outside of the snapshot. *)
Definition lines3 : list (list work * string) :=
  pair [] <$> ["put a 1"; "put b 2"; "SNAPSHOT"; "put a 9"; "get a"; "get b"; "SNAPSHOT-END"; "get a"; "quit"]%string.

Example overwritten_in_snapshot :
  let roomy := MkFlags 4096 4 (2 * 1024 * 1024) 10 true in
  unprompted (output (runREPL flips0 "db" lines3 (first_engine flips0 "db" roomy []) (first_disk "db" empty_disk))) =
    [ok; ok; Say "snapshot open: GET and SCAN now read as of this point in time"; ok; failed ErrNotFound; QuotedLine (bytes_of "2");
     Say "snapshot closed"; QuotedLine (bytes_of "9")].
Proof. vm_compute. reflexivity. Qed.

(** The new value is not among the lines that a snapshot may print for the key. *)
Example live_value_refused :
  let ss := (say_all (take 4 lines3) (fresh_session (MkSpec ∅ 0) ∅)).2 in
  match ss_snap ss with
  | Some sn => bool_decide (bytes_of "a" ∈ sn_dirty sn) && negb (bool_decide ((bytes_of "a", bytes_of "9") ∈ sn_past sn)) &&
      bool_decide ((bytes_of "a", bytes_of "1") ∈ sn_past sn)
  | None => false
  end = true.
Proof. vm_compute. reflexivity. Qed.

(** A session in which the disk fails and a snapshot is left open. *)
Definition failing_disk : world := MkWorld (w_files (first_disk "db" empty_disk)) [None; Some 0; None; Some 1].
Definition lines2 : list (list work * string) := [([], "SNAPSHOT"); ([], "put a 1"); ([FlushRound], "put b 2")]%string.
Definition open_snapshots (o : res (Engine * (list line + error)) * world) : option (list (N * Z)) :=
  match o with (Ok (e, inl _), _) => Some (map_to_list (e_activeSnapshots e)) | _ => None end.

Example lines2_runs : open_snapshots (runREPL flips0 "db" lines2 (first_engine flips0 "db" flags1 []) failing_disk) = Some [].
Proof. vm_compute. reflexivity. Qed.

Lemma open_snapshots_Some o l : open_snapshots o = Some l -> exists e out w, o = (Ok (e, inl out), w).
Proof. destruct o as [[[e [out|err]]|err|] w]; [|done..]. intros _. by exists e, out, w. Qed.

Lemma repl_closes_snapshots_witness :
  exists e' out w', runREPL flips0 "db" lines2 (first_engine flips0 "db" flags1 []) failing_disk = (Ok (e', inl out), w') /\
    e_activeSnapshots e' = e_activeSnapshots (first_engine flips0 "db" flags1 []).
Proof.
  destruct (open_snapshots_Some _ _ lines2_runs) as (e' & out & w' & E). exists e', out, w'. split; [exact E|].
  exact (repl_closes_snapshots flips0 "db" lines2 _ _ _ _ _ (map_Forall_empty _) E).
Defined.

(** The program. *)
Definition closable_b (o : res (Engine * (list line + error)) * world) : bool :=
  match o with (Ok (e, _), w) => can_close_b last_work e w | _ => true end.

Lemma closable_b_spec o : closable_b o = true -> match o with (Ok (e, _), w) => can_close last_work e w | _ => True end.
Proof. destruct o as [[[e r]|err|] w]; [|done..]. apply can_close_b_spec. Qed.

Lemma main_within1 : main_within flips0 "db" flags1 [] lines1 last_work empty_disk.
Proof.
  split; [exact repl_within1|].
  apply closable_b_spec. vm_compute. reflexivity.
Qed.

Lemma main_session_persists_witness :
  exists out w1, main_repl flips0 "db" flags1 [] lines1 last_work empty_disk = (Ok (banner "db" ++ out), w1) /\
    prints (say_all lines1 (fresh_session (MkSpec ∅ 0) ∅)).1 out /\
    forall opts clock', exists e2 w2, Engine.Open flips0 "db" opts clock' w1 = (Ok e2, w2) /\ forall key, key <> [] ->
      exists w3, getAt key unboundedSeq e2 w2 =
        (Ok (e2, lookup_answer (ss_sp (say_all lines1 (fresh_session (MkSpec ∅ 0) ∅)).2) key), w3).
Proof. exact (main_session_persists flips0 "db" flags1 [] lines1 last_work empty_disk eq_refl vacant0 configured1 main_within1). Defined.

(** Two runs: the second sees what the first wrote. *)
Definition second_run : list line :=
  let (_, w1) := main_repl flips0 "db" flags1 [] lines1 last_work empty_disk in
  match main_repl flips0 "db" flags1 [] (pair [] <$> ["get a"; "get b"; "get d"; "SNAPSHOT-END"])%string [] w1 with
  | (Ok out, _) => unprompted (drop 3 out)
  | _ => []
  end.

Example second_runs :
  second_run = [QuotedLine (bytes_of "9"); failed ErrNotFound; QuotedLine (bytes_of "4"); Say "no snapshot is open"; Say ""].
Proof. vm_compute. reflexivity. Qed.
